(* ===== verification/_CoqProject ===== *)
-Q . S2P
Prelude.v
GoLib.v
Json.v
Grammar.v
Wire.v
Park.v
Scheduler.v
Gate.v
Yield.v
JobStore.v
Sql.v
JobService.v
Worker.v
Api.v
Config.v
Router.v
Broker.v
Proxy.v
OpenAICompat.v
Ollama.v
Ndjson.v
Clients.v
Options.v
Schedule.v
Detect.v
Metrics.v
Net.v
Admin.v
Main.v
Front.v
Whole.v
Life.v
