(* ===== verification/Prelude.v ===== *)
(** * Resource Broker: a verification development

    The broker (src/, a Go program) is an HTTP proxy in front of one GPU.  It lets
    interactive requests pass before batch requests and durable jobs, gives the
    GPU up while a game or a Plex transcode runs, and routes each request to the
    upstream that serves its model.  This library models its Go code and proves
    what makes it correct.

    ** The parts of the program and their files

    A request enters a lane's server (main), passes the admission gate
    (internal/queue), which waits out a yield in the park queue and then takes a
    slot of the scheduler, and is answered by the reverse proxy or by the
    OpenAI-compatible translation, behind the per-model router and the activity
    tracker.  The yield controller polls the detector, cancels what runs when
    contention starts, unloads the upstreams and reloads them afterwards.  The
    job worker takes slots of the same scheduler as a batch caller and runs jobs
    from an SQLite table.  The control plane reads all of them.

    - [Prelude]: results, step systems and their reachability, counting, tactics.
    - [GoLib], [Json], [Grammar], [Wire], [Net]: what the program uses of Go's
      standard library: 64-bit integers and durations, strings, encoding/json's
      scanner, string literals and encoder, the JSON grammar the scanner accepts, a
      reader of what was encoded, net's addresses.  These files state what the library documents or
      does; they stand for no code of src/.
    - [Park] (internal/queue/park.go), [Scheduler] (scheduler.go), [Gate]
      (gate.go): one function per critical section; [Park.step] and
      [Scheduler.step] interleave any number of callers; [Gate.handle] is the
      handler from what a request observes to its actions; [Scheduler.Spec] is the
      abstract line the two queues refine.
    - [Yield] (internal/yield/yield.go): the controller with one slot per upstream;
      [Yield.step] interleaves polls, operator overrides, tracked requests and the
      chained action goroutines.
    - [JobStore] (internal/job/job.go, store.go, sqlite.go): the methods of the
      store on a list of jobs; [Sql]: the same methods as the SQL they send, over
      rows with NULLs, proved to agree; [JobService] (events.go, service.go,
      api.go): the event bus, the service and its handlers; [Worker] (worker.go
      and the streams of api.go): the worker's goroutine one call at a time, its
      monitor, and beside it the clients, the event streams and the faults of the
      store; [Api] (api.go): the mux, the HTTP surface as one function, and the
      bytes of the event streams with a client that reads them.
    - [Config] (internal/config/config.go): [Config.Load] over the environment.
    - [Router] (internal/backend/router.go, activity.go): backends as a class
      [Router.Backend], the router and the activity tracker as instances of it,
      the body peeker as a byte machine.
    - [Broker] (internal/backend/backend.go, ollama_backend.go,
      openai_backend.go, and buildBroker, buildRoutes and the health check of
      cmd/broker/main.go): the upstream instances and the wiring.
    - [Proxy] (internal/proxy/proxy.go), [OpenAICompat] (internal/openaicompat/),
      [Ollama], [Ndjson] and [Clients] (internal/ollama/client.go and the clients of
      openaicompat): retries and error answers; the SSE stream, the translating
      handler and the embeddings; the generation stream over its lines, and over
      the bytes the handler's encoder writes and the client's scanner and decoder
      read; the HTTP requests and what is done with their answers.  [Options] (service.go, worker.go): a job's
      options on their way from the submission to the upstream.
    - [Schedule] (internal/schedule/schedule.go, internal/tdarr/tdarr.go and
      runTdarrSchedule of main.go), [Detect] (internal/detect/detect.go,
      internal/plex/plex.go), [Metrics] (internal/metrics/metrics.go), [Admin]
      (internal/admin/admin.go, internal/httpx/httpx.go).
    - [Main] (cmd/broker/main.go): the schedulers, servers and gates as main makes
      them, and what the metrics and status pages are fed with.
    - [Front]: the admission path as one concurrent system, any number of requests
      running the gate's code in small steps against the step systems of [Park],
      [Scheduler] and [Yield], set up as main does.  [Whole] adds the worker of
      [Worker] on the same scheduler and the same yield controller, and [Life]
      (main.go) runs all of it, with the embed lane, from the start of the process
      to its exit.

    Definitions keep the names of the code.  A method that changes state is a
    function to the new state, with its answer where it has one; an error is a
    value of [result]; a panic of Go (a second close, an index out of range) is
    the outcome [Panic] of a step, so that "never panics" is a theorem.

    ** What the theorems show

    - Slots: no interleaving holds more slots than configured, none leaks, none is
      lost (slots_bounded, slots_accounted, lanes_bounded); the queues answer as
      one line (scheduler_refines_contract); every path of the gate gives back
      what it took and tells of one outcome (gate_slot_balance, gate_one_outcome,
      gate_serves_iff_clear, gate_deferral_contract).
    - The admission path: the calls in flight are bounded and a yield, the
      client's disconnect or the deadline, and nothing else, ends the context of
      each (calls_in_flight), every request does what [Gate.handle] does
      (requests_run_gate), a slot is always in the hands of one request
      (slots_in_hand), and from any state a request can end by its own steps and
      timeouts (request_can_end).
    - Requests and jobs on one GPU: the limit is shared, a generating job owns a
      slot and a yield ends the contexts of both (gpu_shared), every slot is in one
      hand (slots_shared), a job is preempted only for a waiting interactive
      request and past its quantum (preemption_justified), while the broker runs
      an attempt is charged only for an error of the generation (attempt_paid), a shutdown ends the
      worker (worker_stops); what was proved of the parts holds in the whole
      (whole_projects).
    - The process: at any moment the broker beside main is one of these systems
      (broker_runs); listeners that fail never block, and main always gets to its
      exit (main_exits), though it does not wait for the worker, so
      that the next start may charge the job that ran (exit_charges).
    - Parking: no request stays behind, in order, within the ceiling
      (no_ghost_entries, park_release_fifo), and enough ticks empty the queue
      (drain_ticks_empty).
    - Yield: the state, the serve context and the ordered actions agree
      (yield_state_consistent, contention_actions_alternate), actions of an
      upstream run one at a time in order (actions_in_order, actions_complete), a
      change needs its confirming polls (debounce_confirms), an idle upstream is
      woken (idle_unload_wakes; the Example wake_can_reload_during_yield is a race
      that loads one during a yield).
    - Jobs: the table's line is a deque (store_refines_deque), rows follow their
      life cycle with bounded attempts (job_lifecycle, attempts_bounded,
      store_well_formed), and so does the database (sql_refines_store,
      job_row_round_trip); a running job owns a slot and none is left running by
      a live worker (running_has_slot), an aborted run is classified by the
      documented precedence (aborted_run_classified), nothing panics (service_never_panics).
      A claimed job asks for the model, prompt and options it was submitted with
      (job_runs_as_submitted).  The HTTP surface answers as a map from ids to
      jobs, a failing store included (api_refines_rows), and the bytes of an event stream read back as the events sent
      (events_read_back; the Example sse_can_miss_done is a stream that never sends
      its last).
    - Routing: what loads is valid (load_validates) and builds into a broker that
      serves each model where it is configured (broker_serves), bodies pass
      unchanged (router_forwards), any JSON object of the grammar, with its white
      space, escapes and numbers, is routed by its first model member
      (router_finds_model).
    - Upstreams: retries replay the body (round_trip_replays); the translation
      reads streams as their events say, delivers the text in both modes and its
      bytes are read back by an Ollama client, unless a line overflows that client's
      buffer (sse_reads_events, chat_delivers,
      translation_reads_back, openai_response_well_formed); jobs and proxied
      prompts send the same request and get the same answer (job_and_proxy_agree); unloading over HTTP is
      the abstract unload (http_unload_refines).
    - Observation: the detector's verdict (detect_verdict), the counters and the
      page (requests_all_counted, exposition_well_formed, page_shows_state), the
      control plane's authorisation (control_gated, loopback_peers), the Tdarr
      loop and its lack of coordination (tdarr_follows_schedule,
      tdarr_paths_uncoordinated).

    A property's doc comment starts with its number, C1 being the first; the
    other theorems have none.  A name ending in _witness applies a theorem to a
    concrete run, configuration or stream, evaluated by the kernel.

    ** Bounds and fuel

    Counters that can wrap ([Metrics]), durations and Retry-After are 64-bit
    ([GoLib.wrap64] and checked conversions).  Occupancies, attempts, waiter
    counts and position hints are unbounded [Z]: it takes 2^63 calls to leave
    their range.  encoding/json's limits are kept: a nesting of at most 10000
    ([Json.maxNestingDepth]) and a peek of at most 64 KiB ([Router.peekLimit]).
    Recursion that is not structural takes fuel that the length of its input
    bounds: [GoLib.trim_left] runs on the length of the string, of which each
    turn drops a character; [Json.unquote] on the length of the literal and one
    more ([Json.unquote_fuel] and the lemma that a quoted text is read back);
    [Net.v6_groups] on the eight groups of an address.  The machines that run for
    ever (the scheduler, the drain loop, the poll loop, the worker) are step
    relations with no fuel at all.  The reader of encoded JSON ([Wire.read_value]) runs
    on the length of the text, the digits of an integer ([Wire.decimal]) on its
    binary logarithm.

    ** Grain of the steps

    Where the code takes no lock the model is as fine as the theorems need, and no
    finer: a poll of the yield controller reads the handlers' atomics at one
    moment ([Yield]); the worker's monitor reads the scheduler and sets its flag in
    one step ([Whole]), and the worker's own writes to the store are one step with
    the events published for them ([Worker]); the two reads that follow an upstream
    call are one ([Front]).

    ** Parameters

    Code outside src/ is an argument of what uses it: url.Parse and
    time.ParseDuration ([Config]); the decoding of JSON and XML text into structs
    ([OpenAICompat], [Ollama], [Clients], [Detect]), in [Ndjson] only the parsing of
    JSON text into a value, which must read back what was encoded; the base HTTP transport and
    the upstreams' answers ([Proxy], [Clients], [Schedule]); the clock, timers
    and contexts, as inputs of the steps that read them.  Theorems hold for
    every value of these, under the hypotheses they state.  The meaning of the
    SQL statements ([Sql]) is that of the language's documentation.

    ** Not modelled

    net/http's servers, connections and the forwarding of httputil.ReverseProxy;
    the opening of the database and the driver; the delivery of process signals
    (an event of [Life]) and what a server does inside Shutdown; log lines; the
    random bytes of request and job ids (the ids are inputs); the JSON of the
    status pages and times; the fairness of the Go scheduler, so that what is proved of concurrent parts is safety, and that
    a request can always end; the mutex around systemctl, since [Yield] shows that
    the actions of one upstream never overlap.  The shell scripts under
    src/legacy, the deployment files and the documents are not part of the Go
    program. *)

From stdpp Require Import base gmap sets list strings option.
From stdpp Require Export prelude gmap strings.
From Stdlib Require Export ZArith Lia.

Declare Scope broker_scope.
Delimit Scope broker_scope with broker.
Open Scope broker_scope.

Create HintDb broker discriminated.

(** ** Results of fallible code *)

(** A Go [(value, error)] pair whose value is meaningful only without error. *)
Inductive result (E A : Type) : Type :=
| Ok (a : A)
| Err (e : E).
Arguments Ok {E A} a.
Arguments Err {E A} e.

#[export] Instance result_ret E : MRet (result E) := fun A a => Ok a.
#[export] Instance result_bind E : MBind (result E) :=
  fun A B f r => match r with Ok a => f a | Err e => Err e end.

(** The possible fates of one step of a concurrent system: the event is not
    enabled in this state, the code panics, or there is a next state. *)
Inductive outcome (A : Type) : Type :=
| Disabled
| Panic
| Next (a : A).
Arguments Disabled {A}.
Arguments Panic {A}.
Arguments Next {A} a.

#[export] Instance outcome_bind : MBind outcome :=
  fun A B f r => match r with Next a => f a | Panic => Panic | Disabled => Disabled end.

Lemma bind_next {A B} (o : outcome A) (f : A -> outcome B) b :
  (o ≫= f) = Next b -> exists a, o = Next a /\ f a = Next b.
Proof. destruct o; try done. eauto. Qed.

Lemma bind_panic {A B} (o : outcome A) (f : A -> outcome B) :
  o <> Panic -> (forall a, f a <> Panic) -> (o ≫= f) <> Panic.
Proof. destruct o; simpl; auto. Qed.

Definition is_next {A} (o : outcome A) : bool :=
  match o with Next _ => true | _ => false end.

(** Runs of an executable step function. *)
Fixpoint run_events {Ev St} (step : Ev -> St -> outcome St) (es : list Ev) (s : St) : outcome St :=
  match es with
  | [] => Next s
  | e :: es' => match step e s with
                | Next s' => run_events step es' s'
                | Panic => Panic
                | Disabled => Disabled
                end
  end.

Inductive reachable {Ev St} (step : Ev -> St -> outcome St) (init : St -> Prop) : St -> Prop :=
| reach_init s : init s -> reachable step init s
| reach_step s e s' : reachable step init s -> step e s = Next s' -> reachable step init s'.

Lemma run_events_reachable {Ev St} (step : Ev -> St -> outcome St) (init : St -> Prop) es s s' :
  reachable step init s -> run_events step es s = Next s' -> reachable step init s'.
Proof.
  revert s. induction es as [|e es IH]; intros s Hs Hr; simpl in Hr.
  - by simplify_eq.
  - case_match; try done. eapply IH; [|done]. by eapply reach_step.
Qed.

(** The state a run ends in; a run that does not go through stays put. *)
Definition final {Ev St} (step : Ev -> St -> outcome St) (es : list Ev) (s : St) : St :=
  match run_events step es s with Next s' => s' | _ => s end.

Lemma final_reachable {Ev St} (step : Ev -> St -> outcome St) (init : St -> Prop) es s :
  reachable step init s -> reachable step init (final step es s).
Proof.
  intros Hs. unfold final. case_match; try done. by eapply run_events_reachable.
Qed.

#[export] Hint Resolve reach_init reach_step final_reachable : broker.

Lemma reachable_inv {Ev St} (step : Ev -> St -> outcome St) (init inv : St -> Prop) :
  (forall s, init s -> inv s) ->
  (forall s e s', inv s -> step e s = Next s' -> inv s') ->
  forall s, reachable step init s -> inv s.
Proof. intros Hi Hs s. induction 1; eauto. Qed.

(** ** Counting the entries of a map that satisfy a boolean test *)

Definition count_map {V} (p : V -> bool) (m : gmap nat V) : nat :=
  size (filter (fun kv => p kv.2 = true) m).

Lemma count_map_empty {V} (p : V -> bool) : count_map p ∅ = 0%nat.
Proof. unfold count_map. rewrite map_filter_empty. apply map_size_empty. Qed.

Lemma count_map_insert_fresh {V} (p : V -> bool) (m : gmap nat V) k v :
  m !! k = None -> count_map p (<[k:=v]> m) = (Nat.b2n (p v) + count_map p m)%nat.
Proof.
  intros Hk. unfold count_map. destruct (p v) eqn:Hp; simpl.
  - rewrite map_filter_insert_True by done.
    rewrite map_size_insert_None; [done|].
    apply map_lookup_filter_None. left. done.
  - rewrite map_filter_insert_False; [|simpl; congruence].
    by rewrite delete_id.
Qed.

Lemma count_map_insert {V} (p : V -> bool) (m : gmap nat V) k v v' :
  m !! k = Some v ->
  (count_map p (<[k:=v']> m) + Nat.b2n (p v) = count_map p m + Nat.b2n (p v'))%nat.
Proof.
  intros Hk.
  assert (m = <[k:=v]> (delete k m)) as Hm.
  { rewrite insert_delete_eq. by rewrite insert_id. }
  rewrite Hm at 2. rewrite <- (insert_delete_eq m k v').
  rewrite !count_map_insert_fresh by apply lookup_delete_eq. lia.
Qed.

Lemma count_map_mono {V} (p q : V -> bool) (m : gmap nat V) :
  (forall v, p v = true -> q v = true) -> (count_map p m <= count_map q m)%nat.
Proof.
  intros Hpq. unfold count_map. apply map_subseteq_size.
  apply map_filter_subseteq_ext. intros k v _ ?. by apply Hpq.
Qed.

Lemma count_map_zero {V} (p : V -> bool) (m : gmap nat V) k v :
  count_map p m = 0%nat -> m !! k = Some v -> p v = false.
Proof.
  intros Hz Hk. destruct (p v) eqn:Hp; [|done]. unfold count_map in Hz.
  apply map_size_empty_inv in Hz.
  assert (filter (fun kv : nat * V => p kv.2 = true) m !! k = Some v) as Hf.
  { by apply map_lookup_filter_Some. }
  by rewrite Hz, lookup_empty in Hf.
Qed.

Lemma count_map_none {V} (p : V -> bool) (m : gmap nat V) :
  (forall k v, m !! k = Some v -> p v = false) -> count_map p m = 0%nat.
Proof.
  intros Hp. unfold count_map.
  assert (filter (fun kv : nat * V => p kv.2 = true) m = ∅) as ->; [|apply map_size_empty].
  apply map_empty. intros k. apply map_lookup_filter_None. right. intros v Hv. cbn. by rewrite (Hp _ _ Hv).
Qed.

(** A count is bounded by the one an injection leads to. *)
Lemma count_map_inj {V W} (p : V -> bool) (q : W -> bool) (f : V -> option nat) (m : gmap nat V) (n : gmap nat W) :
  (forall r v, m !! r = Some v -> p v = true -> exists k w, f v = Some k /\ n !! k = Some w /\ q w = true) ->
  (forall r r' v v' k, m !! r = Some v -> m !! r' = Some v' -> f v = Some k -> f v' = Some k -> r = r') ->
  (count_map p m <= count_map q n)%nat.
Proof.
  intros Hf Hinj. unfold count_map. rewrite <- !length_map_to_list.
  set (mf := filter _ m). set (nf := filter _ n).
  assert (forall r v, (r, v) ∈ map_to_list mf -> m !! r = Some v /\ p v = true) as Hm
    by (intros r v Hv%elem_of_map_to_list; unfold mf in Hv; by apply map_lookup_filter_Some in Hv).
  transitivity (length ((fun rv => default 0%nat (f rv.2)) <$> map_to_list mf)); [by rewrite length_fmap|].
  transitivity (length (map_to_list nf).*1); [|by rewrite length_fmap].
  apply submseteq_length, NoDup_submseteq.
  - apply NoDup_fmap_2_strong; [|apply NoDup_map_to_list].
    intros [r v] [r' v'] [H1 P1]%Hm [H2 P2]%Hm. cbn [snd].
    destruct (Hf _ _ H1 P1) as (k & ? & E1 & _), (Hf _ _ H2 P2) as (k' & ? & E2 & _). rewrite E1, E2. simpl.
    intros ->. pose proof (Hinj _ _ _ _ _ H1 H2 E1 E2) as ->. by simplify_eq.
  - intros k ([r v] & -> & [H1 P1]%Hm)%list_elem_of_fmap. cbn [snd].
    destruct (Hf _ _ H1 P1) as (k & w & -> & Hw & Hq). apply list_elem_of_fmap. exists (k, w). split; [done|].
    apply elem_of_map_to_list. unfold nf. by apply map_lookup_filter_Some.
Qed.

Lemma last_app_cons {A} (l l' : list A) x : last (l ++ x :: l') = last (x :: l').
Proof. rewrite last_app. by destruct (last (x :: l')) eqn:E; [|destruct l' as [|? ? ] using rev_ind; rewrite ?app_comm_cons, ?last_snoc in E]. Qed.

Lemma NoDup_map_inj {A B} (f : A -> B) l x y : NoDup (map f l) -> x ∈ l -> y ∈ l -> f x = f y -> x = y.
Proof.
  induction l as [|a l IH]; simpl; [by intros _ ?%elem_of_nil|]. intros [Ha Hl]%NoDup_cons.
  intros [->|Hx]%elem_of_cons [->|Hy]%elem_of_cons E; [done| | |by apply IH].
  - destruct Ha. rewrite E. by apply list_elem_of_fmap_2.
  - destruct Ha. rewrite <- E. by apply list_elem_of_fmap_2.
Qed.

(** ** Tactics *)

(** Case analysis on every [match] of the goal and hypotheses, closing the
    impossible branches. *)
Ltac go_cases := repeat (case_match; simplify_eq/=; try done).
Ltac inv_result H := inversion H; subst; clear H.
