(* ===== verification/GoLib.v ===== *)
(** * The parts of Go's language and standard library the program relies on

    Machine integers, [time.Duration], [strings], [strconv] and slices, each
    as the standard library defines it.  Strings are byte strings. *)

From S2P Require Import Prelude.
From stdpp Require Export pretty.
From Stdlib Require Import Ascii.
#[local] Set Warnings "-clear-no-such-hyp,-level-tolerance".
Local Open Scope Z_scope.

Module GoLib.

(** ** Machine integers *)

Definition maxInt64 : Z := 2 ^ 63 - 1.
Definition minInt64 : Z := - 2 ^ 63.

(** Two's-complement wrap-around of [int64] (and of [int] on 64-bit hosts). *)
Definition wrap64 (x : Z) : Z := (x + 2 ^ 63) mod 2 ^ 64 - 2 ^ 63.

Lemma wrap64_id x : minInt64 <= x <= maxInt64 -> wrap64 x = x.
Proof. unfold minInt64, maxInt64, wrap64. intros H. rewrite Z.mod_small; lia. Qed.

(** A wrapped operand does not matter to a wrapped sum. *)
Lemma wrap64_add x y : wrap64 (wrap64 x + y) = wrap64 (x + y).
Proof.
  unfold wrap64. f_equal. replace ((x + 2 ^ 63) mod 2 ^ 64 - 2 ^ 63 + y + 2 ^ 63) with ((x + 2 ^ 63) mod 2 ^ 64 + y) by lia.
  rewrite Z.add_mod_idemp_l by done. f_equal. lia.
Qed.

Definition in_int64 (x : Z) : bool := (minInt64 <=? x) && (x <=? maxInt64).

(** ** time.Duration, in nanoseconds *)

Definition Millisecond : Z := 1000000.
Definition Second : Z := 1000000000.
Definition Minute : Z := 60 * Second.
Definition Hour : Z := 60 * Minute.

(** [Duration.Milliseconds]: truncated towards zero. *)
Definition Milliseconds (d : Z) : Z := Z.quot d 1000000.

(** [Duration.Round]: half away from zero, saturating on overflow. *)
Definition Round (m d : Z) : Z :=
  if m <=? 0 then d
  else
    let r := Z.rem d m in
    if d <? 0 then
      let r := - r in
      if r + r <? m then d + r
      else let d1 := wrap64 (d - m + r) in if d1 <? d then d1 else minInt64
    else if r + r <? m then d - r
    else let d1 := wrap64 (d + m - r) in if d <? d1 then d1 else maxInt64.

(** [strconv.Itoa], [strconv.FormatInt(_, 10)]. *)
Definition Itoa (z : Z) : string := pretty z.

(** ** strings *)

Fixpoint HasPrefix (s p : string) : bool :=
  match p, s with
  | EmptyString, _ => true
  | String c p', String d s' => Ascii.eqb c d && HasPrefix s' p'
  | String _ _, EmptyString => false
  end.

(** [s[n:]] *)
Fixpoint drop_bytes (n : nat) (s : string) : string :=
  match n, s with
  | S n', String _ s' => drop_bytes n' s'
  | _, _ => s
  end.

Definition TrimPrefix (s p : string) : string :=
  if HasPrefix s p then drop_bytes (String.length p) s else s.

Fixpoint Contains (s p : string) : bool :=
  HasPrefix s p || match s with EmptyString => false | String _ s' => Contains s' p end.

Definition char_in (c : ascii) (set : string) : bool :=
  existsb (Ascii.eqb c) (String.list_ascii_of_string set).

Fixpoint ContainsAny (s chars : string) : bool :=
  match s with
  | EmptyString => false
  | String c s' => char_in c chars || ContainsAny s' chars
  end.

(** [strings.Split(s, sep)] for a one-byte separator. *)
Fixpoint Split (sep : ascii) (s : string) : list string :=
  match s with
  | EmptyString => [""]
  | String c s' =>
      if Ascii.eqb c sep then "" :: Split sep s'
      else match Split sep s' with
           | w :: ws => String c w :: ws
           | [] => [String c EmptyString]
           end
  end.

Fixpoint bytes (l : list nat) : string :=
  match l with [] => EmptyString | n :: l' => String (ascii_of_nat n) (bytes l') end.

(** The UTF-8 encodings of the code points with the property White_Space. *)
Definition spaces : list string :=
  map bytes ([[9]; [10]; [11]; [12]; [13]; [32]; [194; 133]; [194; 160]; [225; 154; 128]]
             ++ map (fun n => [226; 128; n]) [128; 129; 130; 131; 132; 133; 134; 135; 136; 137; 138; 168; 169; 175]
             ++ [[226; 129; 159]; [227; 128; 128]])%nat.

Fixpoint rev_string (s : string) (acc : string) : string :=
  match s with EmptyString => acc | String c s' => rev_string s' (String c acc) end.

(** Strip leading members of [ws]; each turn drops at least a byte. *)
Fixpoint trim_left (fuel : nat) (ws : list string) (s : string) : string :=
  match fuel with
  | O => s
  | S n => match find (HasPrefix s) ws with
           | Some w => trim_left n ws (drop_bytes (String.length w) s)
           | None => s
           end
  end.

(** [strings.TrimSpace] *)
Definition TrimSpace (s : string) : string :=
  let l := trim_left (String.length s) spaces s in
  rev_string (trim_left (String.length l) (map (fun w => rev_string w "") spaces) (rev_string l "")) "".

(** ** strconv *)

Definition digit (c : ascii) : option Z :=
  let n := Z.of_nat (nat_of_ascii c) - 48 in
  if (0 <=? n) && (n <=? 9) then Some n else None.

Fixpoint digits (s : string) (acc : Z) : option Z :=
  match s with
  | EmptyString => Some acc
  | String c s' => match digit c with Some d => digits s' (acc * 10 + d) | None => None end
  end.

(** [strconv.Atoi]: an optional sign and decimal digits, in the range of [int]. *)
Definition Atoi (s : string) : option Z :=
  let '(neg, ds) := match s with
                    | String "-"%char r => (true, r)
                    | String "+"%char r => (false, r)
                    | _ => (false, s)
                    end in
  match ds with
  | EmptyString => None
  | _ => match digits ds 0 with
         | Some n => let n := if neg then - n else n in if in_int64 n then Some n else None
         | None => None
         end
  end.

Example Atoi_ex : map Atoi ["12"; "-7"; "+3"; ""; "-"; "1x"; "9223372036854775808"]
  = [Some 12; Some (-7); Some 3; None; None; None; None].
Proof. reflexivity. Qed.

Example Split_ex : Split "," "a, b,,c" = ["a"; " b"; ""; "c"].
Proof. reflexivity. Qed.

Example TrimSpace_ex : TrimSpace (bytes [32; 194; 160; 97; 32; 98; 227; 128; 128; 10]%nat) = "a b".
Proof. reflexivity. Qed.

End GoLib.
