(* ===== verification/Json.v ===== *)
(** * encoding/json, as the router and the HTTP handlers use it

    The scanner is the byte-at-a-time state machine of Go's
    [encoding/json/scanner.go]: a step state, a stack of what is being parsed,
    and for every byte whether the value goes on, ended before the byte, ends
    with it, or is malformed.  String literals are decoded as [unquote] does:
    escapes, surrogate pairs, and U+FFFD for invalid UTF-8.  The second half is
    encoding/json's other direction: JSON values and their compact encoding, with
    strings quoted as [appendString] quotes them.  That the scanner reads such a
    value, and any other JSON text, to its end is [Grammar]'s. *)

From S2P Require Import Prelude GoLib.
From Stdlib Require Import Ascii.
#[local] Set Warnings "-clear-no-such-hyp,-level-tolerance,-register-all".
Local Open Scope Z_scope.

Module Json.
Import GoLib.

Abbreviation text := (list ascii).

Definition chars (s : string) : text := String.list_ascii_of_string s.
Definition ord (c : ascii) : Z := Z.of_N (N_of_ascii c).
Definition chr (n : Z) : ascii := ascii_of_N (Z.to_N n).
Definition within (c : ascii) (lo hi : Z) : bool := (lo <=? ord c) && (ord c <=? hi).

Definition quotemark : ascii := ascii_of_nat 34.

Definition isSpace (c : ascii) : bool := (ord c =? 32) || (ord c =? 9) || (ord c =? 13) || (ord c =? 10).
Definition is_digit (c : ascii) : bool := within c 48 57.

(** The value of a hexadecimal digit. *)
Definition hex (c : ascii) : option Z :=
  if is_digit c then Some (ord c - 48)
  else if within c 97 102 then Some (ord c - 87)
  else if within c 65 70 then Some (ord c - 55)
  else None.

(** ** The scanner *)

Inductive parse := ObjectKey | ObjectValue | ArrayValue.

Inductive sstate :=
| BeginValueOrEmpty | BeginValue | BeginStringOrEmpty | BeginString | EndValue
| InString | InStringEsc | InStringEscU (digits_left : nat)
| Neg | Num1 | Num0 | Dot | Dot0 | Exp | ExpSign | Exp0
| Literal (rest : text).

Record scanner := Scanner { st : sstate; stack : list parse }.

Inductive scan := Cont (s : scanner) | EndBefore | EndAfter | SyntaxError.

Definition reset : scanner := Scanner BeginValue [].

Definition maxNestingDepth : nat := 100 * 100.

Definition push (p : parse) (s : sstate) (k : list parse) : scan :=
  if (length (p :: k) <=? maxNestingDepth)%nat then Cont (Scanner s (p :: k)) else SyntaxError.

(** [popParseState], and the look at the emptied stack [readValue] takes. *)
Definition pop (k : list parse) : scan :=
  match k with [] => EndAfter | _ => Cont (Scanner EndValue k) end.

Definition stateEndValue (k : list parse) (c : ascii) : scan :=
  match k with
  | [] => EndBefore
  | p :: k' =>
      if isSpace c then Cont (Scanner EndValue k)
      else match p with
           | ObjectKey => if Ascii.eqb c ":" then Cont (Scanner BeginValue (ObjectValue :: k')) else SyntaxError
           | ObjectValue => if Ascii.eqb c "," then Cont (Scanner BeginString (ObjectKey :: k'))
                            else if Ascii.eqb c "}" then pop k' else SyntaxError
           | ArrayValue => if Ascii.eqb c "," then Cont (Scanner BeginValue k)
                           else if Ascii.eqb c "]" then pop k' else SyntaxError
           end
  end.

Definition stateBeginValue (k : list parse) (c : ascii) : scan :=
  if isSpace c then Cont (Scanner BeginValue k)
  else if Ascii.eqb c "{" then push ObjectKey BeginStringOrEmpty k
  else if Ascii.eqb c "[" then push ArrayValue BeginValueOrEmpty k
  else if Ascii.eqb c quotemark then Cont (Scanner InString k)
  else if Ascii.eqb c "-" then Cont (Scanner Neg k)
  else if Ascii.eqb c "0" then Cont (Scanner Num0 k)
  else if Ascii.eqb c "t" then Cont (Scanner (Literal (chars "rue")) k)
  else if Ascii.eqb c "f" then Cont (Scanner (Literal (chars "alse")) k)
  else if Ascii.eqb c "n" then Cont (Scanner (Literal (chars "ull")) k)
  else if within c 49 57 then Cont (Scanner Num1 k)
  else SyntaxError.

Definition stateBeginString (k : list parse) (c : ascii) : scan :=
  if isSpace c then Cont (Scanner BeginString k)
  else if Ascii.eqb c quotemark then Cont (Scanner InString k)
  else SyntaxError.

Definition digit_or (s : sstate) (k : list parse) (c : ascii) (other : scan) : scan :=
  if is_digit c then Cont (Scanner s k) else other.

Definition state0 (k : list parse) (c : ascii) : scan :=
  if Ascii.eqb c "." then Cont (Scanner Dot k)
  else if Ascii.eqb c "e" || Ascii.eqb c "E" then Cont (Scanner Exp k)
  else stateEndValue k c.

Definition step (s : scanner) (c : ascii) : scan :=
  let k := stack s in
  match st s with
  | BeginValueOrEmpty =>
      if isSpace c then Cont s
      else if Ascii.eqb c "]" then stateEndValue k c else stateBeginValue k c
  | BeginValue => stateBeginValue k c
  | BeginStringOrEmpty =>
      if isSpace c then Cont s
      else if Ascii.eqb c "}"
      then match k with _ :: k' => stateEndValue (ObjectValue :: k') c | [] => SyntaxError end
      else stateBeginString k c
  | BeginString => stateBeginString k c
  | EndValue => stateEndValue k c
  | InString =>
      if Ascii.eqb c quotemark then Cont (Scanner EndValue k)
      else if Ascii.eqb c "\" then Cont (Scanner InStringEsc k)
      else if ord c <? 32 then SyntaxError
      else Cont s
  | InStringEsc =>
      if Ascii.eqb c "u" then Cont (Scanner (InStringEscU 4) k)
      else if existsb (Ascii.eqb c) (quotemark :: chars "bfnrt\/") then Cont (Scanner InString k)
      else SyntaxError
  | InStringEscU n =>
      match hex c with
      | Some _ => Cont (Scanner (match n with S (S n') => InStringEscU (S n') | _ => InString end) k)
      | None => SyntaxError
      end
  | Neg => if Ascii.eqb c "0" then Cont (Scanner Num0 k)
           else if within c 49 57 then Cont (Scanner Num1 k) else SyntaxError
  | Num1 => digit_or Num1 k c (state0 k c)
  | Num0 => state0 k c
  | Dot => digit_or Dot0 k c SyntaxError
  | Dot0 => digit_or Dot0 k c
              (if Ascii.eqb c "e" || Ascii.eqb c "E" then Cont (Scanner Exp k) else stateEndValue k c)
  | Exp => if Ascii.eqb c "+" || Ascii.eqb c "-" then Cont (Scanner ExpSign k)
           else digit_or Exp0 k c SyntaxError
  | ExpSign => digit_or Exp0 k c SyntaxError
  | Exp0 => digit_or Exp0 k c (stateEndValue k c)
  | Literal [] => stateEndValue k c
  | Literal (d :: r) =>
      if Ascii.eqb c d then Cont (match r with [] => Scanner EndValue k | _ => Scanner (Literal r) k end)
      else SyntaxError
  end.

(** At the end of the input a value is complete when a space would end it. *)
Definition complete (s : scanner) : bool :=
  match step s " " with EndBefore => true | _ => false end.

(** ** String literals *)

(** [utf8.EncodeRune] *)
Definition EncodeRune (r : Z) : text :=
  if r <? 128 then [chr r]
  else if r <? 2048 then [chr (192 + r / 64); chr (128 + r mod 64)]
  else if r <? 65536 then [chr (224 + r / 4096); chr (128 + r / 64 mod 64); chr (128 + r mod 64)]
  else [chr (240 + r / 262144); chr (128 + r / 4096 mod 64); chr (128 + r / 64 mod 64); chr (128 + r mod 64)].

Definition RuneError : Z := 65533.

(** The length of the valid UTF-8 sequence [s] starts with, 0 if there is none. *)
Definition rune_len (s : text) : nat :=
  match s with
  | [] => 0%nat
  | c :: s1 =>
      let cont lo hi s' := match s' with d :: _ => within d lo hi | [] => false end in
      let more n := forallb (fun d => within d 128 191) (take n (drop 1 s1)) && (length (take n (drop 1 s1)) =? n)%nat in
      if ord c <? 128 then 1%nat
      else if within c 194 223 then if cont 128 191 s1 then 2%nat else 0%nat
      else if within c 224 239 then
        if cont (if ord c =? 224 then 160 else 128) (if ord c =? 237 then 159 else 191) s1 && more 1%nat then 3%nat else 0%nat
      else if within c 240 244 then
        if cont (if ord c =? 240 then 144 else 128) (if ord c =? 244 then 143 else 191) s1 && more 2%nat then 4%nat else 0%nat
      else 0%nat
  end.

(** The code unit of a [\uXXXX] at the head of [s]. *)
Definition getu4 (s : text) : option Z :=
  match s with
  | b :: u :: h1 :: h2 :: h3 :: h4 :: _ =>
      if Ascii.eqb b "\" && Ascii.eqb u "u" then
        match hex h1, hex h2, hex h3, hex h4 with
        | Some a, Some b, Some c, Some d => Some (((a * 16 + b) * 16 + c) * 16 + d)
        | _, _, _, _ => None
        end
      else None
  | _ => None
  end.

Definition is_surrogate (r : Z) : bool := (55296 <=? r) && (r <? 57344).

(** [utf16.DecodeRune]; [None] for U+FFFD. *)
Definition decode_pair (r1 r2 : Z) : option Z :=
  if (55296 <=? r1) && (r1 <? 56320) && (56320 <=? r2) && (r2 <? 57344)
  then Some ((r1 - 55296) * 1024 + (r2 - 56320) + 65536) else None.

Definition escape (c : ascii) : option ascii :=
  if Ascii.eqb c "b" then Some (chr 8)
  else if Ascii.eqb c "f" then Some (chr 12)
  else if Ascii.eqb c "n" then Some (chr 10)
  else if Ascii.eqb c "r" then Some (chr 13)
  else if Ascii.eqb c "t" then Some (chr 9)
  else if existsb (Ascii.eqb c) (quotemark :: chars "\/'") then Some c
  else None.

(** The contents of a literal, after its opening quote, up to the closing one. *)
Fixpoint unquote (fuel : nat) (s : text) : option text :=
  match fuel, s with
  | S n, c :: s1 =>
      if Ascii.eqb c quotemark then match s1 with [] => Some [] | _ => None end
      else if Ascii.eqb c "\" then
        match getu4 s with
        | Some r =>
            let s6 := drop 6 s in
            if is_surrogate r then
              match (match getu4 s6 with Some r2 => decode_pair r r2 | None => None end) with
              | Some rr => t ← unquote n (drop 6 s6); Some (EncodeRune rr ++ t)
              | None => t ← unquote n s6; Some (EncodeRune RuneError ++ t)
              end
            else t ← unquote n s6; Some (EncodeRune r ++ t)
        | None =>
            match s1 with
            | d :: s2 => match escape d with Some e => t ← unquote n s2; Some (e :: t) | None => None end
            | [] => None
            end
        end
      else if ord c <? 32 then None
      else match rune_len s with
           | O => t ← unquote n s1; Some (EncodeRune RuneError ++ t)
           | k => t ← unquote n (drop k s); Some (take k s ++ t)
           end
  | _, _ => None
  end.

Fixpoint skip_spaces (s : text) : text :=
  match s with c :: s' => if isSpace c then skip_spaces s' else s | [] => [] end.

(** Decoding a scanned value into a Go string: [None] when it is not one;
    [null] leaves the string empty. *)
Definition decode_string (raw : text) : option text :=
  match skip_spaces raw with
  | c :: s => if Ascii.eqb c quotemark then unquote (length s) s
              else if Ascii.eqb c "n" then Some [] else None
  | [] => None
  end.

Example decode_string_ex :
  map decode_string [chars " " ++ quotemark :: chars "mod\u0065l\ud83d\ude00" ++ [quotemark]; chars "null"; chars "12";
                     quotemark :: chr 255 :: chars "\n" ++ [quotemark]]
  = [Some (chars "model" ++ map chr [240; 159; 152; 128]); Some []; None; Some (map chr [239; 191; 189; 10])].
Proof. reflexivity. Qed.

(** ** JSON values and their compact encoding

    What a client sends; a number is an integer given by its decimal digits. *)

Inductive json :=
| JNull
| JBool (b : bool)
| JNum (neg : bool) (d : nat) (ds : list nat)
| JStr (s : text)
| JArr (l : list json)
| JObj (l : list (text * json)).

Definition hex_digit (n : Z) : ascii := chr (if n <? 10 then 48 + n else 87 + n).

(** A byte below 128, as encoding/json writes it; <, > and & are escaped too. *)
Definition quote_char (c : ascii) : text :=
  if Ascii.eqb c quotemark || Ascii.eqb c "\" then ["\"%char; c]
  else if ord c =? 8 then chars "\b"
  else if ord c =? 12 then chars "\f"
  else if ord c =? 10 then chars "\n"
  else if ord c =? 13 then chars "\r"
  else if ord c =? 9 then chars "\t"
  else if (ord c <? 32) || existsb (Ascii.eqb c) (chars "<>&")
  then chars "\u00" ++ [hex_digit (ord c / 16); hex_digit (ord c mod 16)]
  else [c].

(** A rune of more bytes: U+2028 and U+2029 are escaped. *)
Definition quote_rune (r : text) : text :=
  if bool_decide (r = map chr [226; 128; 168]) then chars "\u2028"
  else if bool_decide (r = map chr [226; 128; 169]) then chars "\u2029"
  else r.

(** appendString: rune by rune, U+FFFD for a byte that starts none. *)
Fixpoint quote_body (fuel : nat) (s : text) : text :=
  match fuel, s with
  | S n, c :: s' =>
      if ord c <? 128 then quote_char c ++ quote_body n s'
      else match rune_len s with
           | O => chars "\ufffd" ++ quote_body n s'
           | k => quote_rune (take k s) ++ quote_body n (drop k s)
           end
  | _, _ => []
  end.

Definition quote (s : text) : text := quotemark :: quote_body (length s) s ++ [quotemark].

Fixpoint join (l : list text) : text :=
  match l with [] => [] | [t] => t | t :: l' => t ++ ","%char :: join l' end.

Definition digit_char (n : nat) : ascii := chr (48 + Z.of_nat n).

Fixpoint encode (j : json) : text :=
  match j with
  | JNull => chars "null"
  | JBool true => chars "true"
  | JBool false => chars "false"
  | JNum neg d ds => (if neg then ["-"%char] else []) ++ map digit_char (d :: ds)
  | JStr s => quote s
  | JArr l => "["%char :: join (map encode l) ++ ["]"%char]
  | JObj l => "{"%char :: join (map (fun kv => quote kv.1 ++ ":"%char :: encode kv.2) l) ++ ["}"%char]
  end.

Definition member (kv : text * json) : text := quote kv.1 ++ ":"%char :: encode kv.2.

(** Digits are digits, without a leading zero. *)
Fixpoint proper (j : json) : Prop :=
  match j with
  | JNum _ d ds => (d < 10)%nat /\ Forall (fun n => n < 10)%nat ds /\ (d = 0%nat -> ds = [])
  | JArr l => foldr (fun j P => proper j /\ P) True l
  | JObj l => foldr (fun kv P => proper kv.2 /\ P) True l
  | _ => True
  end.

Section json_ind.
Variable P : json -> Prop.
Hypotheses (HN : P JNull) (HB : forall b, P (JBool b)) (HI : forall neg d ds, P (JNum neg d ds))
  (HS : forall s, P (JStr s)) (HA : forall l, Forall P l -> P (JArr l))
  (HO : forall l, Forall (fun kv => P kv.2) l -> P (JObj l)).

Fixpoint json_nested_ind (j : json) : P j :=
  match j with
  | JNull => HN
  | JBool b => HB b
  | JNum neg d ds => HI neg d ds
  | JStr s => HS s
  | JArr l => HA l ((fix go l : Forall P l :=
      match l with [] => Forall_nil_2 _ | x :: l' => Forall_cons_2 _ _ _ (json_nested_ind x) (go l') end) l)
  | JObj l => HO l ((fix go l : Forall (fun kv => P kv.2) l :=
      match l with [] => Forall_nil_2 _ | x :: l' => Forall_cons_2 _ _ _ (json_nested_ind x.2) (go l') end) l)
  end.
End json_ind.

(** *** Scanning and encoding *)

(** The scanner over a text: the bytes read, how it stopped, the rest. *)
Fixpoint steps (acc : text) (s : scanner) (t : text) : text * scan * text :=
  match t with
  | [] => (acc, Cont s, [])
  | c :: t' =>
      match step s c with
      | Cont s' => steps (acc ++ [c]) s' t'
      | EndAfter => (acc ++ [c], EndAfter, t')
      | r => (acc, r, t)
      end
  end.

Lemma proper_Forall l : proper (JArr l) <-> Forall proper l.
Proof.
  simpl. induction l as [|j l IH]; simpl; [split; [by constructor|done]|].
  by rewrite Forall_cons, IH.
Qed.
Lemma proper_Forall_obj l : proper (JObj l) <-> Forall (fun kv => proper kv.2) l.
Proof.
  simpl. induction l as [|j l IH]; simpl; [split; [by constructor|done]|].
  by rewrite Forall_cons, IH.
Qed.
Lemma encode_first j : proper j ->
  exists c t, encode j = c :: t /\ forall k, step (Scanner BeginValueOrEmpty k) c = step (Scanner BeginValue k) c.
Proof.
  intros Hp. destruct j as [|[]|[] d ds| | |]; try (do 2 eexists; split; [reflexivity|done]).
  destruct Hp as [Hd _]. do 2 eexists; split; [reflexivity|].
  do 10 (destruct d as [|d]; [done|]). lia.
Qed.

(** *** Decoding an encoded string *)

(** Valid UTF-8: one rune after the other. *)
Inductive utf8 : text -> Prop :=
| utf8_nil : utf8 []
| utf8_rune r t : r <> [] -> rune_len r = length r -> utf8 t -> utf8 (r ++ t).

(** The first bytes decide whether a rune is there. *)
Lemma rune_len_app r t : r <> [] -> rune_len r = length r -> rune_len (r ++ t) = length r.
Proof.
  intros Hr. destruct r as [|c [|c1 [|c2 [|c3 [|c4 r]]]]]; [done|..]; unfold rune_len; simpl;
    repeat (case_match; simpl; try done); intros H; try lia; simplify_eq/=;
    rewrite ?andb_true_r, ?andb_false_r in *; congruence.
Qed.
(** A rune that is one byte, or bytes from 128 on. *)
Lemma rune_bytes c s : 128 <= ord c -> Forall (fun b => 128 <= ord b) (take (rune_len (c :: s)) (c :: s)).
Proof.
  intros Hc. unfold rune_len. rewrite (proj2 (Z.ltb_ge _ _)) by done.
  assert (forall lo hi b, within b lo hi = true -> 128 <= lo -> 128 <= ord b) as Hw.
  { intros lo hi b [H _]%andb_true_iff Hl. apply Z.leb_le in H. lia. }
  assert (forall n u, forallb (fun d => within d 128 191) (take n u) = true -> Forall (fun b => 128 <= ord b) (take n u)) as Hall.
  { intros n u H. apply Forall_forall. intros b Hb. rewrite forallb_forall in H. eapply Hw; [by apply H, list_elem_of_In|lia]. }
  destruct (within c 194 223); [destruct s as [|d s]; [constructor|]; destruct (within d 128 191) eqn:Hd|].
  - constructor; [done|]. constructor; [|constructor]. by eapply Hw.
  - constructor.
  - destruct (within c 224 239).
    + destruct s as [|d s]; [constructor|]. destruct (_ && _) eqn:E; [|constructor].
      apply andb_true_iff in E as [E1 [E2 _]%andb_true_iff]. apply Hall in E2. constructor; [done|]. constructor; [|done].
      eapply Hw; [done|]. by case_match.
    + destruct (within c 240 244); [|constructor]. destruct s as [|d s]; [constructor|]. destruct (_ && _) eqn:E; [|constructor].
      apply andb_true_iff in E as [E1 [E2 _]%andb_true_iff]. apply Hall in E2. constructor; [done|]. constructor; [|done].
      eapply Hw; [done|]. by case_match.
Qed.

Lemma unquote_char n c t :
  ord c < 128 -> unquote (S n) (quote_char c ++ t) = (u ← unquote n t; Some (c :: u)).
Proof.
  intros Hc. destruct c as [[] [] [] [] [] [] [] []]; try (exfalso; revert Hc; by vm_compute);
    match goal with |- context [quote_char ?x] =>
      let q := eval vm_compute in (quote_char x) in change (quote_char x) with q end;
    rewrite <- ?app_comm_cons, app_nil_l; try reflexivity.
  all: by destruct t as [|? [|? [|? [|? t]]]].
Qed.

(** A rune as it is, when it is longer than a byte. *)
Lemma unquote_rune n r t : r <> [] -> rune_len r = length r -> Forall (fun b => 128 <= ord b) r ->
  unquote (S n) (r ++ t) = (u ← unquote n t; Some (r ++ u)).
Proof.
  intros Hr Hl Hb. destruct r as [|c r]; [done|]. pose proof (rune_len_app (c :: r) t Hr Hl) as E.
  apply Forall_cons in Hb as [Hc _]. rewrite <- app_comm_cons in *. cbn [unquote].
  destruct (Ascii.eqb_spec c quotemark) as [->|_]; [by vm_compute in Hc|].
  destruct (Ascii.eqb_spec c "\") as [->|_]; [by vm_compute in Hc|].
  rewrite (proj2 (Z.ltb_ge _ _)) by lia. rewrite E. cbn [length]. rewrite app_comm_cons.
  change (S (length r)) with (length (c :: r)). by rewrite drop_app_length, take_app_length.
Qed.

Lemma unquote_quoted_rune n r t : r <> [] -> rune_len r = length r -> Forall (fun b => 128 <= ord b) r ->
  unquote (S n) (quote_rune r ++ t) = (u ← unquote n t; Some (r ++ u)).
Proof.
  intros Hr Hl Hb. unfold quote_rune. case_bool_decide as H1; [subst; by destruct t|].
  case_bool_decide as H2; [subst; by destruct t|]. by apply unquote_rune.
Qed.

Lemma unquote_fuel n m s u : unquote n s = Some u -> (n <= m)%nat -> unquote m s = Some u.
Proof.
  revert m s u. induction n as [|n IH]; intros m s u H Hm; [done|].
  destruct m as [|m]; [lia|]. simpl in *.
  assert (forall (x : text) (g : text -> option text) v, (t ← unquote n x; g t) = Some v -> (t ← unquote m x; g t) = Some v) as Hb.
  { intros x g v. destruct (unquote n x) as [w|] eqn:E; [|done]. by rewrite (IH m x w) by (done || lia). }
  repeat case_match; simplify_eq/=; auto.
Qed.

Lemma quote_char_nonempty c : quote_char c <> [].
Proof. unfold quote_char. by repeat case_match. Qed.

(** The text of a literal is decoded to what was quoted. *)
Lemma unquote_body f s : utf8 s -> (length s <= f)%nat -> exists n, (n <= length (quote_body f s))%nat /\
  forall m t, unquote (n + m) (quote_body f s ++ t) = (u ← unquote m t; Some (s ++ u)).
Proof.
  intros Hu. revert f. induction Hu as [|r t Hr Hl _ IH]; intros f Hf.
  { exists 0%nat. split; [lia|]. intros m t. destruct f; simpl; by destruct (unquote m t). }
  destruct r as [|c r]; [done|]. destruct f as [|f]; [simpl in Hf; lia|].
  rewrite <- app_comm_cons in *. cbn [quote_body]. destruct (Z.ltb_spec (ord c) 128) as [Hc|Hc].
  - assert (r = []) as -> by (unfold rune_len in Hl; rewrite (proj2 (Z.ltb_lt _ _)) in Hl by done; by destruct r).
    simpl app in *. destruct (IH f) as (n & Hn & H); [simpl in Hf; lia|]. exists (S n). split.
    + rewrite length_app. pose proof (quote_char_nonempty c). destruct (quote_char c); [done|simpl; lia].
    + intros m u. rewrite <- app_assoc. cbn [Nat.add]. rewrite unquote_char, H by done. by destruct (unquote m u).
  - pose proof (rune_len_app (c :: r) t Hr Hl) as E. pose proof (rune_bytes c (r ++ t) Hc) as Hb.
    rewrite <- app_comm_cons in E. rewrite E in Hb |- *. cbn [length] in *. rewrite app_comm_cons in *.
    change (S (length r)) with (length (c :: r)) in *. rewrite drop_app_length, take_app_length in *.
    destruct (IH f) as (n & Hn & H); [rewrite length_app in Hf; simpl in Hf; lia|]. exists (S n). split.
    + rewrite length_app. enough (1 <= length (quote_rune (c :: r)))%nat by lia. unfold quote_rune. repeat case_bool_decide; simpl; lia.
    + intros m u. rewrite <- app_assoc. cbn [Nat.add]. rewrite unquote_quoted_rune, H by done. destruct (unquote m u); [|done].
      simpl. by rewrite <- app_assoc.
Qed.

Lemma decode_quote s : utf8 s -> decode_string (quote s) = Some s.
Proof.
  intros Hs. unfold decode_string, quote. simpl. destruct (unquote_body (length s) s Hs) as (n & Hn & H); [done|].
  apply (unquote_fuel (n + 1)).
  - rewrite H. simpl. by rewrite app_nil_r.
  - rewrite length_app. simpl. lia.
Qed.

(** ASCII is UTF-8. *)
Lemma ascii_utf8 s : forallb (fun c => ord c <? 128) s = true -> utf8 s.
Proof.
  induction s as [|c s IH]; [constructor|]. simpl. intros [Hc Hs]%andb_true_iff.
  apply (utf8_rune [c] s); [done| |by apply IH]. simpl. by rewrite Hc.
Qed.

End Json.
