(* ===== verification/Grammar.v ===== *)
(** * The JSON grammar (RFC 8259) and the scanner of encoding/json

    [value d t]: the text [t] is a JSON value whose arrays and objects nest at most
    [d] deep, with any white space, escapes and numbers the grammar allows.  The
    scanner of [Json] reads every such text to its end ([value_scan]); this is what
    [Router] relies on to skip the members of a client's request. *)

From S2P Require Import Prelude GoLib Json.
From Stdlib Require Import Ascii.
Local Open Scope Z_scope.

Module Grammar.
Import GoLib Json.

Definition blanks (t : text) : Prop := Forall (fun c => isSpace c = true) t.

(** A string literal after its opening quote. *)
Inductive body : text -> Prop :=
| body_end : body [quotemark]
| body_char c t : c <> quotemark -> c <> "\"%char -> 32 <= ord c -> body t -> body (c :: t)
| body_escape c t : existsb (Ascii.eqb c) (quotemark :: chars "bfnrt\/") = true -> body t -> body ("\"%char :: c :: t)
| body_unicode h1 h2 h3 h4 t :
    is_Some (hex h1) -> is_Some (hex h2) -> is_Some (hex h3) -> is_Some (hex h4) -> body t ->
    body ("\"%char :: "u"%char :: h1 :: h2 :: h3 :: h4 :: t).

Inductive literal : text -> Prop :=
| literal_intro t : body t -> literal (quotemark :: t).

Definition digits (t : text) : Prop := Forall (fun c => is_digit c = true) t.

Inductive integer : text -> Prop :=
| integer_zero : integer ["0"%char]
| integer_digits c t : within c 49 57 = true -> digits t -> integer (c :: t).

Inductive fraction : text -> Prop :=
| fraction_none : fraction []
| fraction_digits c t : is_digit c = true -> digits t -> fraction ("."%char :: c :: t).

Inductive exponent : text -> Prop :=
| exponent_none : exponent []
| exponent_plain e c t : e = "e"%char \/ e = "E"%char -> is_digit c = true -> digits t -> exponent (e :: c :: t)
| exponent_signed e sign c t : e = "e"%char \/ e = "E"%char -> sign = "+"%char \/ sign = "-"%char ->
    is_digit c = true -> digits t -> exponent (e :: sign :: c :: t).

Inductive number : text -> Prop :=
| number_intro sign i f e : sign = [] \/ sign = ["-"%char] -> integer i -> fraction f -> exponent e ->
    number (sign ++ i ++ f ++ e).

Inductive value : nat -> text -> Prop :=
| value_null d : value d (chars "null")
| value_true d : value d (chars "true")
| value_false d : value d (chars "false")
| value_number d t : number t -> value d t
| value_string d t : literal t -> value d t
| value_array_empty d w : blanks w -> value (S d) ("["%char :: w ++ ["]"%char])
| value_array d t : elements d t -> value (S d) ("["%char :: t ++ ["]"%char])
| value_object_empty d w : blanks w -> value (S d) ("{"%char :: w ++ ["}"%char])
| value_object d t : members d t -> value (S d) ("{"%char :: t ++ ["}"%char])
with elements : nat -> text -> Prop :=
| elements_one d w v w' : blanks w -> value d v -> blanks w' -> elements d (w ++ v ++ w')
| elements_more d w v w' t : blanks w -> value d v -> blanks w' -> elements d t ->
    elements d (w ++ v ++ w' ++ ","%char :: t)
with members : nat -> text -> Prop :=
| members_one d t : member d t -> members d t
| members_more d t t' : member d t -> members d t' -> members d (t ++ ","%char :: t')
with member : nat -> text -> Prop :=
| member_intro d w1 k w2 w3 v w4 : blanks w1 -> literal k -> blanks w2 -> blanks w3 -> value d v -> blanks w4 ->
    member d (w1 ++ k ++ w2 ++ ":"%char :: w3 ++ v ++ w4).

Scheme value_mind := Induction for value Sort Prop
with elements_mind := Induction for elements Sort Prop
with members_mind := Induction for members Sort Prop
with member_mind := Induction for member Sort Prop.
Combined Scheme value_mutind from value_mind, elements_mind, members_mind, member_mind.

(** ** Scanning *)

Definition delim (c : ascii) : Prop := c = ","%char \/ c = "}"%char \/ c = "]"%char.

(** The value just read is over, whatever may come next. *)
Definition over (k : list parse) (s : scanner) : Prop :=
  forall c, delim c \/ isSpace c = true -> step s c = stateEndValue k c.

Lemma steps_cont acc s c s' t : step s c = Cont s' -> steps acc s (c :: t) = steps (acc ++ [c]) s' t.
Proof. intros E. simpl. by rewrite E. Qed.

(** A run of bytes on which the scanner stays where it is. *)
Lemma steps_stay acc s w t : Forall (fun c => step s c = Cont s) w -> steps acc s (w ++ t) = steps (acc ++ w) s t.
Proof.
  intros Hw. revert acc. induction Hw as [|c w Hc _ IH]; intros acc; simpl; [by rewrite app_nil_r|].
  rewrite Hc, IH. by rewrite <- app_assoc.
Qed.

Lemma spaces_scan q acc k w t :
  q = BeginValue \/ q = BeginString \/ q = BeginValueOrEmpty \/ q = BeginStringOrEmpty \/ (q = EndValue /\ k <> []) ->
  blanks w -> steps acc (Scanner q k) (w ++ t) = steps (acc ++ w) (Scanner q k) t.
Proof.
  intros Hq Hw. apply steps_stay. eapply Forall_impl; [exact Hw|]. intros c Hc. cbv beta in Hc.
  destruct Hq as [->|[->|[->|[->|[-> Hk]]]]]; unfold step; simpl;
    unfold stateBeginValue, stateBeginString, stateEndValue; rewrite ?Hc; try done. by destruct k.
Qed.

Lemma step_string c k : c <> quotemark -> c <> "\"%char -> 32 <= ord c -> step (Scanner InString k) c = Cont (Scanner InString k).
Proof.
  intros H1 H2 H3. unfold step. simpl. rewrite (proj2 (Ascii.eqb_neq _ _) H1), (proj2 (Ascii.eqb_neq _ _) H2).
  by rewrite (proj2 (Z.ltb_ge _ _)) by done.
Qed.

Lemma body_scan acc k t u : body t ->
  steps acc (Scanner InString k) (t ++ u) = steps (acc ++ t) (Scanner EndValue k) u.
Proof.
  intros Hb. revert acc. induction Hb as [|c t H1 H2 H3 _ IH|c t Hc _ IH|h1 h2 h3 h4 t [z1 H1] [z2 H2] [z3 H3] [z4 H4] _ IH];
    intros acc.
  - done.
  - rewrite <- app_comm_cons. rewrite (steps_cont _ _ _ (Scanner InString k)) by (by apply step_string).
    rewrite IH. by rewrite <- app_assoc.
  - rewrite <- !app_comm_cons. rewrite (steps_cont _ _ _ (Scanner InStringEsc k)) by done.
    assert (step (Scanner InStringEsc k) c = Cont (Scanner InString k)) as E.
    { unfold step. simpl st. destruct (Ascii.eqb_spec c "u") as [->|_]; [done|]. by rewrite Hc. }
    rewrite (steps_cont _ _ _ _ _ E), IH. by rewrite <- !app_assoc.
  - rewrite <- !app_comm_cons. rewrite (steps_cont _ _ _ (Scanner InStringEsc k)) by done.
    do 5 (erewrite steps_cont by (unfold step; simpl; rewrite ?H1, ?H2, ?H3, ?H4; reflexivity)).
    rewrite IH. by rewrite <- !app_assoc.
Qed.

Lemma literal_scan q acc k t u : q = BeginValue \/ q = BeginString -> literal t ->
  steps acc (Scanner q k) (t ++ u) = steps (acc ++ t) (Scanner EndValue k) u.
Proof.
  intros Hq [t' Hb]. rewrite <- app_comm_cons.
  rewrite (steps_cont _ _ _ (Scanner InString k)) by (by destruct Hq as [->| ->]).
  rewrite body_scan by done. by rewrite <- app_assoc.
Qed.
Lemma over_end k : over k (Scanner EndValue k).
Proof. intros c _. done. Qed.

(** A number that may go on: what a delimiter or a space makes of it. *)
Lemma over_number q k : q = Num0 \/ q = Num1 \/ q = Dot0 \/ q = Exp0 -> over k (Scanner q k).
Proof.
  intros Hq c Hc. assert (is_digit c = false /\ Ascii.eqb c "." = false /\ Ascii.eqb c "e" = false /\ Ascii.eqb c "E" = false)
    as (H1 & H2 & H3 & H4).
  { destruct Hc as [[->|[->| ->]]|Hs]; [done..|]. by destruct c as [[] [] [] [] [] [] [] []]. }
  destruct Hq as [->|[->|[->| ->]]]; unfold step, digit_or, state0; simpl; by rewrite ?H1, ?H2, ?H3, ?H4.
Qed.

Lemma digits_scan q acc k t u : q = Num1 \/ q = Dot0 \/ q = Exp0 -> digits t ->
  steps acc (Scanner q k) (t ++ u) = steps (acc ++ t) (Scanner q k) u.
Proof.
  intros Hq Ht. apply steps_stay. eapply Forall_impl; [exact Ht|]. intros c Hc. cbv beta in Hc.
  destruct Hq as [->|[->| ->]]; unfold step, digit_or; simpl; by rewrite Hc.
Qed.

(** The kind of a byte, by looking at all of them. *)
Ltac byte c := destruct c as [[] [] [] [] [] [] [] []]; (done || (exfalso; by discriminate)).

Lemma step_integer q c k : q = BeginValue \/ q = Neg -> within c 49 57 = true -> step (Scanner q k) c = Cont (Scanner Num1 k).
Proof. intros [->| ->] Hc; byte c. Qed.

Lemma integer_scan q acc k i u : q = BeginValue \/ q = Neg -> integer i -> exists q', (q' = Num0 \/ q' = Num1) /\
  steps acc (Scanner q k) (i ++ u) = steps (acc ++ i) (Scanner q' k) u.
Proof.
  intros Hq [|c t Hc Ht].
  - exists Num0. split; [by left|]. by destruct Hq as [->| ->].
  - exists Num1. split; [by right|]. rewrite <- app_comm_cons, (steps_cont _ _ _ _ _ (step_integer q c k Hq Hc)).
    rewrite digits_scan by auto. by rewrite <- app_assoc.
Qed.

Lemma fraction_scan q acc k f u : q = Num0 \/ q = Num1 -> fraction f -> exists q', (q' = q \/ q' = Dot0) /\
  steps acc (Scanner q k) (f ++ u) = steps (acc ++ f) (Scanner q' k) u.
Proof.
  intros Hq [|c t Hc Ht].
  - exists q. split; [by left|]. by rewrite app_nil_r.
  - exists Dot0. split; [by right|]. rewrite <- !app_comm_cons.
    rewrite (steps_cont _ _ _ (Scanner Dot k)) by (by destruct Hq as [->| ->]).
    rewrite (steps_cont _ _ _ (Scanner Dot0 k)) by (unfold step, digit_or; simpl; by rewrite Hc).
    rewrite digits_scan by auto. by rewrite <- !app_assoc.
Qed.

Lemma exponent_scan q acc k e u : q = Num0 \/ q = Num1 \/ q = Dot0 -> exponent e -> exists q', (q' = q \/ q' = Exp0) /\
  steps acc (Scanner q k) (e ++ u) = steps (acc ++ e) (Scanner q' k) u.
Proof.
  intros Hq He. assert (forall x, x = "e"%char \/ x = "E"%char -> step (Scanner q k) x = Cont (Scanner Exp k)) as Hx.
  { intros x [->| ->]; by destruct Hq as [->|[->| ->]]. }
  destruct He as [|x c t H1 Hc Ht|x sign c t H1 H2 Hc Ht]; [exists q; split; [by left|]; by rewrite app_nil_r|..];
    (exists Exp0; split; [by right|]); rewrite <- !app_comm_cons; rewrite (steps_cont _ _ _ _ _ (Hx x H1)).
  - rewrite (steps_cont _ _ _ (Scanner Exp0 k)) by byte c. rewrite digits_scan by auto. by rewrite <- !app_assoc.
  - rewrite (steps_cont _ _ _ (Scanner ExpSign k)) by (by destruct H2 as [->| ->]).
    rewrite (steps_cont _ _ _ (Scanner Exp0 k)) by (unfold step, digit_or; simpl; by rewrite Hc).
    rewrite digits_scan by auto. by rewrite <- !app_assoc.
Qed.

Lemma number_scan acc k t u : number t -> exists s, over k s /\
  steps acc (Scanner BeginValue k) (t ++ u) = steps (acc ++ t) s u.
Proof.
  intros [sign i f e Hs Hi Hf He].
  destruct (integer_scan (if decide (sign = []) then BeginValue else Neg) (acc ++ sign) k i (f ++ e ++ u)) as (q1 & H1 & E1);
    [case_decide; auto|done|].
  destruct (fraction_scan q1 ((acc ++ sign) ++ i) k f (e ++ u) H1 Hf) as (q2 & H2 & E2).
  destruct (exponent_scan q2 (((acc ++ sign) ++ i) ++ f) k e u) as (q3 & H3 & E3); [by destruct H2, H1; subst; auto|done|].
  exists (Scanner q3 k). split; [apply over_number; destruct H3, H2, H1; subst; auto|].
  rewrite <- !app_assoc in *. rewrite <- E3, <- E2, <- E1. destruct Hs as [->| ->]; [case_decide; [by rewrite app_nil_r|done]|].
  rewrite decide_False by done. done.
Qed.

(** What a value leaves behind: a container ends with its last byte. *)
Definition leaves (k : list parse) (acc t : text) (r : text * scan * text) : Prop :=
  (exists s, over k s /\ r = steps acc s t) \/
  r = match k with [] => (acc, EndAfter, t) | _ => steps acc (Scanner EndValue k) t end.

(** Inside a container: the spaces after a value, then the byte that follows. *)
Lemma leaves_after k acc w c t r : delim c -> k <> [] -> blanks w -> leaves k acc (w ++ c :: t) r ->
  r = steps (acc ++ w) (Scanner EndValue k) (c :: t).
Proof.
  intros Hc Hk Hw [(s & Ho & ->) | ->].
  - destruct w as [|b w]; simpl app.
    + rewrite app_nil_r. cbn [steps]. by rewrite (Ho c), (over_end k c) by auto.
    + apply Forall_cons in Hw as [Hb Hw]. cbn [steps]. rewrite (Ho b) by auto.
      unfold stateEndValue. destruct k as [|p k]; [done|]. rewrite Hb, spaces_scan; [by rewrite <- app_assoc|by do 4 right|done].
  - destruct k as [|p k]; [done|]. apply spaces_scan; [by do 4 right|done].
Qed.

Lemma value_first d t : value d t -> exists c t', t = c :: t' /\ isSpace c = false /\ c <> "]"%char.
Proof.
  destruct 1 as [| | |d t Hn|d t [t' _]| | | |]; try (by do 2 eexists).
  destruct Hn as [sign i f e [->| ->] Hi _ _]; [|by do 2 eexists].
  destruct Hi as [|c t Hc _]; [by do 2 eexists|]. exists c. eexists. split; [done|]. split; [byte c|]. by intros ->.
Qed.

Lemma push_ok p s k : (length (p :: k) <= maxNestingDepth)%nat -> push p s k = Cont (Scanner s (p :: k)).
Proof. intros H. unfold push. by rewrite (proj2 (Nat.leb_le _ _) H). Qed.

(** A closing bracket or brace. *)
Lemma close_scan acc p k c t :
  (p = ArrayValue /\ c = "]"%char) \/ (p = ObjectValue /\ c = "}"%char) ->
  steps acc (Scanner EndValue (p :: k)) (c :: t)
  = match k with [] => (acc ++ [c], EndAfter, t) | _ => steps (acc ++ [c]) (Scanner EndValue k) t end.
Proof. intros [[-> ->] | [-> ->]]; simpl; by destruct k. Qed.

(** Where [q'] does as [q] on what is no space and no closing bracket. *)
Lemma first_same q q' acc k w c t u : blanks w -> isSpace c = false ->
  (forall a v, blanks v -> steps a (Scanner q k) (v ++ c :: t ++ u) = steps (a ++ v) (Scanner q k) (c :: t ++ u)) ->
  (forall a v, blanks v -> steps a (Scanner q' k) (v ++ c :: t ++ u) = steps (a ++ v) (Scanner q' k) (c :: t ++ u)) ->
  step (Scanner q k) c = step (Scanner q' k) c ->
  steps acc (Scanner q k) (w ++ c :: t ++ u) = steps acc (Scanner q' k) (w ++ c :: t ++ u).
Proof. intros Hw _ H1 H2 E. rewrite H1, H2 by done. simpl. by rewrite E. Qed.

Lemma elements_first d t : elements d t -> exists w c t', t = w ++ c :: t' /\ blanks w /\ isSpace c = false /\ c <> "]"%char.
Proof.
  intros [? w v w' Hw Hv _|? w v w' t' Hw Hv _ _]; destruct (value_first _ _ Hv) as (c & x & -> & H1 & H2);
    exists w, c; eexists; rewrite <- app_comm_cons; eauto.
Qed.

Lemma members_first d t : members d t -> exists w t', t = w ++ quotemark :: t' /\ blanks w.
Proof.
  assert (forall d t, member d t -> exists w t', t = w ++ quotemark :: t' /\ blanks w) as Hm.
  { intros ? ? [? w1 k w2 w3 v w4 Hw [b _] _ _ _ _]. exists w1. eexists. split; [|done]. by rewrite <- app_comm_cons. }
  intros [? ? H|? t1 t2 H _]; [by eapply Hm|]. destruct (Hm _ _ H) as (w & x & -> & Hw). exists w. eexists. split; [|done].
  by rewrite <- app_assoc, <- app_comm_cons.
Qed.

Definition value_scans (d : nat) (t : text) : Prop := forall acc k u, (d + length k <= maxNestingDepth)%nat ->
  leaves k (acc ++ t) u (steps acc (Scanner BeginValue k) (t ++ u)).

Definition elements_scan (d : nat) (t : text) : Prop := forall acc k u, (d + S (length k) <= maxNestingDepth)%nat ->
  steps acc (Scanner BeginValue (ArrayValue :: k)) (t ++ "]"%char :: u)
  = steps (acc ++ t) (Scanner EndValue (ArrayValue :: k)) ("]"%char :: u).

Definition members_scan (d : nat) (t : text) : Prop := forall acc k c u, (d + S (length k) <= maxNestingDepth)%nat -> delim c ->
  steps acc (Scanner BeginString (ObjectKey :: k)) (t ++ c :: u)
  = steps (acc ++ t) (Scanner EndValue (ObjectValue :: k)) (c :: u).

(** A value between spaces, and the delimiter after it. *)
Lemma spaced_value acc k d w v w' c u : value_scans d v -> (d + length k <= maxNestingDepth)%nat -> k <> [] ->
  blanks w -> blanks w' -> delim c ->
  steps acc (Scanner BeginValue k) (w ++ v ++ w' ++ c :: u) = steps (acc ++ w ++ v ++ w') (Scanner EndValue k) (c :: u).
Proof.
  intros Hv Hd Hk Hw Hw' Hc. rewrite spaces_scan by auto.
  rewrite (leaves_after k _ _ _ _ _ Hc Hk Hw' (Hv (acc ++ w) k (w' ++ c :: u) Hd)). by rewrite <- !app_assoc.
Qed.

Lemma empty_scan q p acc k w c u : blanks w -> (q = BeginValueOrEmpty /\ p = ArrayValue /\ c = "]"%char) \/
    (q = BeginStringOrEmpty /\ p = ObjectKey /\ c = "}"%char) ->
  steps acc (Scanner q (p :: k)) (w ++ c :: u)
  = match k with [] => (acc ++ w ++ [c], EndAfter, u) | _ => steps (acc ++ w ++ [c]) (Scanner EndValue k) u end.
Proof.
  intros Hw [(-> & -> & ->)|(-> & -> & ->)]; rewrite spaces_scan by auto 6; simpl; destruct k; by rewrite <- ?app_assoc.
Qed.

Lemma scans :
  (forall d t, value d t -> value_scans d t) /\ (forall d t, elements d t -> elements_scan d t) /\
  (forall d t, members d t -> members_scan d t) /\ (forall d t, member d t -> members_scan d t).
Proof.
  apply value_mutind.
  - intros d acc k u _. left. exists (Scanner EndValue k). split; [apply over_end|]. simpl. by rewrite <- !app_assoc.
  - intros d acc k u _. left. exists (Scanner EndValue k). split; [apply over_end|]. simpl. by rewrite <- !app_assoc.
  - intros d acc k u _. left. exists (Scanner EndValue k). split; [apply over_end|]. simpl. by rewrite <- !app_assoc.
  - intros d t Hn acc k u _. left. by apply number_scan.
  - intros d t Hl acc k u _. left. exists (Scanner EndValue k). split; [apply over_end|]. apply literal_scan; auto.
  - intros d w Hw acc k u Hd. right. rewrite <- app_comm_cons, <- app_assoc. cbn [app].
    rewrite (steps_cont _ _ _ (Scanner BeginValueOrEmpty (ArrayValue :: k))) by (apply push_ok; simpl; lia).
    rewrite empty_scan by auto. by rewrite <- !app_assoc.
  - intros d t He IH acc k u Hd. right. rewrite <- app_comm_cons, <- app_assoc. cbn [app].
    rewrite (steps_cont _ _ _ (Scanner BeginValueOrEmpty (ArrayValue :: k))) by (apply push_ok; simpl; lia).
    assert (steps (acc ++ ["["%char]) (Scanner BeginValueOrEmpty (ArrayValue :: k)) (t ++ "]"%char :: u)
            = steps (acc ++ ["["%char]) (Scanner BeginValue (ArrayValue :: k)) (t ++ "]"%char :: u)) as ->.
    { destruct (elements_first _ _ He) as (w & c & t' & -> & Hw & H1 & H2). rewrite <- app_assoc, <- app_comm_cons.
      apply first_same; [done..|intros; apply spaces_scan; auto|intros; apply spaces_scan; auto|].
      unfold step. simpl st. by rewrite H1, (proj2 (Ascii.eqb_neq _ _) H2). }
    rewrite IH by lia. rewrite close_scan by auto. destruct k; by rewrite <- !app_assoc.
  - intros d w Hw acc k u Hd. right. rewrite <- app_comm_cons, <- app_assoc. cbn [app].
    rewrite (steps_cont _ _ _ (Scanner BeginStringOrEmpty (ObjectKey :: k))) by (apply push_ok; simpl; lia).
    rewrite empty_scan by auto. by rewrite <- !app_assoc.
  - intros d t Hm IH acc k u Hd. right. rewrite <- app_comm_cons, <- app_assoc. cbn [app].
    rewrite (steps_cont _ _ _ (Scanner BeginStringOrEmpty (ObjectKey :: k))) by (apply push_ok; simpl; lia).
    assert (steps (acc ++ ["{"%char]) (Scanner BeginStringOrEmpty (ObjectKey :: k)) (t ++ "}"%char :: u)
            = steps (acc ++ ["{"%char]) (Scanner BeginString (ObjectKey :: k)) (t ++ "}"%char :: u)) as ->.
    { destruct (members_first _ _ Hm) as (w & t' & -> & Hw). rewrite <- app_assoc, <- app_comm_cons.
      apply first_same; [done..|intros; apply spaces_scan; auto 6|intros; apply spaces_scan; auto|done]. }
    rewrite IH by (lia || by right; left). rewrite close_scan by auto. destruct k; by rewrite <- !app_assoc.
  - intros d w v w' Hw _ IH Hw' acc k u Hd. rewrite <- !app_assoc. apply (spaced_value _ _ d); [done|simpl; lia|done..|by right; right].
  - intros d w v w' t Hw _ IHv Hw' _ IH acc k u Hd. rewrite <- !app_assoc, <- app_comm_cons.
    rewrite (spaced_value _ _ d) by (done || (simpl; lia) || by left).
    rewrite (steps_cont _ _ _ (Scanner BeginValue (ArrayValue :: k))) by done. rewrite IH by done.
    by rewrite <- !app_assoc.
  - intros d t _ IH. exact IH.
  - intros d t t' _ IH _ IH' acc k c u Hd Hc. rewrite <- app_assoc, <- app_comm_cons.
    rewrite IH by (done || by left). rewrite (steps_cont _ _ _ (Scanner BeginString (ObjectKey :: k))) by done.
    rewrite IH' by done. by rewrite <- !app_assoc.
  - intros d w1 key w2 w3 v w4 H1 Hk H2 H3 _ IH H4 acc k c u Hd Hc. rewrite <- !app_assoc, <- app_comm_cons, <- !app_assoc.
    rewrite spaces_scan by auto. rewrite literal_scan by auto. rewrite spaces_scan by (auto 6).
    rewrite (steps_cont _ _ _ (Scanner BeginValue (ObjectValue :: k))) by done.
    rewrite (spaced_value _ _ d) by (done || (simpl; lia)). by rewrite <- !app_assoc.
Qed.

(** The scanner reads every JSON value to its end. *)
Lemma value_scan d t : value d t -> value_scans d t.
Proof. apply scans. Qed.

(** ** What encoding/json writes *)

Lemma body_piece (p : text) t : Forall (fun c => 128 <= ord c) p -> body t -> body (p ++ t).
Proof.
  induction 1 as [|c p Hc _ IH]; [done|]. intros Ht. apply body_char; [by intros ->|by intros ->|lia|by apply IH].
Qed.

Lemma body_quote_char c t : ord c < 128 -> body t -> body (quote_char c ++ t).
Proof.
  intros Hc Ht. destruct c as [[] [] [] [] [] [] [] []]; try (exfalso; revert Hc; by vm_compute);
    match goal with |- context [quote_char ?x] =>
      let q := eval vm_compute in (quote_char x) in change (quote_char x) with q end;
    rewrite <- ?app_comm_cons, app_nil_l;
    first [apply body_unicode; [by eexists..|done]|by apply body_escape|by apply body_char].
Qed.

Lemma body_quote f s : body (quote_body f s ++ [quotemark]).
Proof.
  revert s. induction f as [|f IH]; intros [|c s]; [constructor..|]. cbn [quote_body].
  destruct (Z.ltb_spec (ord c) 128) as [Hc|Hc]; [rewrite <- app_assoc; by apply body_quote_char|].
  pose proof (rune_bytes c s Hc) as Hb. destruct (rune_len (c :: s)) as [|k].
  - rewrite <- app_assoc. apply (body_unicode "f" "f" "f" "d"); [by eexists..|apply IH].
  - rewrite <- app_assoc. unfold quote_rune. case_bool_decide; [apply (body_unicode "2" "0" "2" "8"); [by eexists..|apply IH]|].
    case_bool_decide; [apply (body_unicode "2" "0" "2" "9"); [by eexists..|apply IH]|]. apply body_piece; [exact Hb|apply IH].
Qed.

Lemma literal_quote s : literal (quote s).
Proof. constructor. apply body_quote. Qed.

End Grammar.
