(* ===== verification/Wire.v ===== *)
(** * Values on the wire

    What is sent as compact JSON and read back: integers and their decimal
    digits, a reader of the JSON that encoding/json writes (a client's, and the one
    for what the program's own decoders do with it), and the class [Wire] of the Go
    values that are written to JSON and read back. *)

From S2P Require Import Prelude GoLib Json Grammar.
From Stdlib Require Import Ascii.
#[local] Set Warnings "-clear-no-such-hyp,-level-tolerance".
Local Open Scope Z_scope.

Module Wire.
Import GoLib Json.

(** ** Integers and their decimal digits *)

(** The digits of [n], before those of [acc]. *)
Fixpoint decimal (fuel : nat) (n : Z) (acc : list nat) : list nat :=
  let acc' := Z.to_nat (n mod 10) :: acc in
  match fuel with
  | O => acc'
  | S fuel => if n <? 10 then acc' else decimal fuel (n / 10) acc'
  end.

(** strconv.AppendInt as encoding/json uses it; a division by ten takes off more
    than three bits, so the binary logarithm is fuel enough. *)
Definition number (z : Z) : json :=
  match decimal (Z.to_nat (Z.log2 (Z.abs z))) (Z.abs z) [] with
  | d :: ds => JNum (z <? 0) d ds
  | [] => JNull
  end.

Definition value_of (ds : list nat) : Z := foldl (fun a d => 10 * a + Z.of_nat d) 0 ds.

Definition to_Z (j : json) : option Z :=
  match j with
  | JNum neg d ds => Some (if neg then - value_of (d :: ds) else value_of (d :: ds))
  | _ => None
  end.

Lemma decimal_value fuel n acc : 0 <= n < 2 ^ (Z.of_nat fuel + 1) ->
  value_of (decimal fuel n acc) = foldl (fun a d => 10 * a + Z.of_nat d) n acc.
Proof.
  revert n acc. induction fuel as [|fuel IH]; intros n acc Hn.
  - change (2 ^ (Z.of_nat 0 + 1)) with 2 in Hn. simpl. unfold value_of. simpl.
    rewrite Z2Nat.id, Z.mod_small by (try apply Z.mod_pos_bound; lia). done.
  - assert (Hp : 2 ^ (Z.of_nat (S fuel) + 1) = 2 * 2 ^ (Z.of_nat fuel + 1)).
    { rewrite <- Z.pow_succ_r by lia. f_equal. lia. }
    simpl. pose proof (Z.mod_pos_bound n 10). destruct (n <? 10) eqn:Hlt.
    + apply Z.ltb_lt in Hlt. unfold value_of. simpl. by rewrite Z2Nat.id, Z.mod_small by lia.
    + apply Z.ltb_ge in Hlt. rewrite IH.
      * simpl. f_equal. rewrite Z2Nat.id by lia. pose proof (Z.div_mod n 10). lia.
      * split; [apply Z.div_pos; lia|]. apply Z.div_lt_upper_bound; lia.
Qed.

Lemma decimal_digits fuel n acc : 0 <= n < 2 ^ (Z.of_nat fuel + 1) -> Forall (fun d => d < 10)%nat acc ->
  exists d ds, decimal fuel n acc = d :: ds /\ Forall (fun d => d < 10)%nat (d :: ds) /\
    (d = 0%nat -> n = 0 /\ ds = acc).
Proof.
  revert n acc. induction fuel as [|fuel IH]; intros n acc Hn Ha; pose proof (Z.mod_pos_bound n 10 ltac:(lia)) as Hm; simpl.
  - change (2 ^ (Z.of_nat 0 + 1)) with 2 in Hn. do 2 eexists. split; [done|]. split; [constructor; [lia|done]|].
    rewrite Z.mod_small in * by lia. intros. split; [lia|done].
  - destruct (n <? 10) eqn:Hlt.
    + apply Z.ltb_lt in Hlt. do 2 eexists. split; [done|]. split; [constructor; [lia|done]|].
      rewrite Z.mod_small in * by lia. intros. split; [lia|done].
    + apply Z.ltb_ge in Hlt.
      assert (Hp : 2 ^ (Z.of_nat (S fuel) + 1) = 2 * 2 ^ (Z.of_nat fuel + 1)).
      { rewrite <- Z.pow_succ_r by lia. f_equal. lia. }
      destruct (IH (n / 10) (Z.to_nat (n mod 10) :: acc)) as (d & ds & E & Hd & H0).
      { split; [apply Z.div_pos; lia|]. apply Z.div_lt_upper_bound; lia. }
      { constructor; [lia|done]. }
      exists d, ds. split; [done|]. split; [done|]. intros Hz. destruct (H0 Hz) as [Hq _].
      pose proof (Z.div_mod n 10 ltac:(lia)). lia.
Qed.

Lemma number_digits z : exists d ds, number z = JNum (z <? 0) d ds /\ proper (number z) /\ value_of (d :: ds) = Z.abs z.
Proof.
  assert (Hb : 0 <= Z.abs z < 2 ^ (Z.of_nat (Z.to_nat (Z.log2 (Z.abs z))) + 1)).
  { rewrite Z2Nat.id by apply Z.log2_nonneg. split; [lia|]. destruct (decide (z = 0)) as [->|Hz]; [done|].
    apply (Z.log2_spec (Z.abs z)). lia. }
  unfold number. pose proof (decimal_value _ _ [] Hb) as Hv.
  destruct (decimal_digits _ _ [] Hb) as (d & ds & E & Hd & H0); [constructor|]. rewrite E in Hv |- *.
  exists d, ds. split; [done|]. split; [|done]. apply Forall_cons in Hd as [Hd Hds]. split; [done|]. split; [done|].
  intros Hz. by apply H0.
Qed.

Lemma number_proper z : proper (number z).
Proof. by destruct (number_digits z) as (d & ds & _ & ? & _). Qed.

Lemma to_Z_number z : to_Z (number z) = Some z.
Proof.
  destruct (number_digits z) as (d & ds & E & _ & Hv). rewrite E. cbn [to_Z]. rewrite Hv.
  destruct (z <? 0) eqn:Hz; [apply Z.ltb_lt in Hz|apply Z.ltb_ge in Hz]; f_equal; lia.
Qed.

(** ** Reading JSON (the client)

    A recursive-descent reader of compact JSON; the text's length is fuel enough. *)

(** A literal past its opening quote: up to the closing one, and the rest. *)
Fixpoint close_quote (s : text) : option (text * text) :=
  match s with
  | [] => None
  | c :: s' =>
      if Ascii.eqb c quotemark then Some ([c], s')
      else if Ascii.eqb c "\" then
        match s' with
        | [] => None
        | d :: s'' => '(raw, rest) ← close_quote s''; Some (c :: d :: raw, rest)
        end
      else '(raw, rest) ← close_quote s'; Some (c :: raw, rest)
  end.

Definition read_literal (s : text) : option (text * text) :=
  '(raw, rest) ← close_quote s; u ← decode_string (quotemark :: raw); Some (u, rest).

Fixpoint read_digits (s : text) : list nat * text :=
  match s with
  | c :: s' => if is_digit c then let '(ds, rest) := read_digits s' in (Z.to_nat (ord c - 48) :: ds, rest) else ([], s)
  | [] => ([], [])
  end.

Definition read_number (neg : bool) (s : text) : option (json * text) :=
  match read_digits s with (d :: ds, rest) => Some (JNum neg d ds, rest) | ([], _) => None end.

(** The text after an expected one. *)
Fixpoint expect (w s : text) : option text :=
  match w, s with
  | [], _ => Some s
  | c :: w', d :: s' => if Ascii.eqb c d then expect w' s' else None
  | _ :: _, [] => None
  end.

Section items.
Context (read_value : text -> option (json * text)).

Definition read_member (s : text) : option ((text * json) * text) :=
  s ← expect [quotemark] s; '(k, s) ← read_literal s; s ← expect [":"%char] s;
  '(v, s) ← read_value s; Some ((k, v), s).

(** At least one item, commas between them, the closing bracket. *)
Fixpoint read_items {A} (item : text -> option (A * text)) (close : ascii) (fuel : nat) (s : text) : option (list A * text) :=
  match fuel with
  | O => None
  | S fuel =>
      '(x, s) ← item s;
      match s with
      | c :: s' =>
          if Ascii.eqb c close then Some ([x], s')
          else if Ascii.eqb c "," then '(l, s) ← read_items item close fuel s'; Some (x :: l, s)
          else None
      | [] => None
      end
  end.

Definition read_seq {A} (item : text -> option (A * text)) (close : ascii) (fuel : nat) (s : text) : option (list A * text) :=
  match expect [close] s with Some s' => Some ([], s') | None => read_items item close fuel s end.
End items.

Fixpoint read_value (fuel : nat) (s : text) : option (json * text) :=
  match fuel, s with
  | O, _ | _, [] => None
  | S fuel, c :: s' =>
      if Ascii.eqb c quotemark then '(u, r) ← read_literal s'; Some (JStr u, r)
      else if Ascii.eqb c "{" then '(l, r) ← read_seq (read_member (read_value fuel)) "}" fuel s'; Some (JObj l, r)
      else if Ascii.eqb c "[" then '(l, r) ← read_seq (read_value fuel) "]" fuel s'; Some (JArr l, r)
      else if Ascii.eqb c "n" then r ← expect (chars "ull") s'; Some (JNull, r)
      else if Ascii.eqb c "t" then r ← expect (chars "rue") s'; Some (JBool true, r)
      else if Ascii.eqb c "f" then r ← expect (chars "alse") s'; Some (JBool false, r)
      else if Ascii.eqb c "-" then read_number true s'
      else read_number false s
  end.

Definition Json_reader (s : text) : option json :=
  match read_value (length s) s with Some (j, []) => Some j | _ => None end.

(** *** The reader undoes the encoder *)

(** What may follow a value: nothing, or no digit. *)
Definition stops (t : text) : Prop := match t with c :: _ => is_digit c = false | [] => True end.

(** The strings and keys of a value. *)
Fixpoint utf8_json (j : json) : Prop :=
  match j with
  | JStr s => utf8 s
  | JArr l => foldr (fun j P => utf8_json j /\ P) True l
  | JObj l => foldr (fun kv P => (utf8 kv.1 /\ utf8_json kv.2) /\ P) True l
  | _ => True
  end.

Lemma foldr_and {A} (P : A -> Prop) l : foldr (fun x Q => P x /\ Q) True l <-> Forall P l.
Proof. induction l as [|x l IH]; simpl; [by split; [constructor|]|]. by rewrite IH, Forall_cons. Qed.

Lemma close_quote_literal t u : Grammar.body t -> close_quote (t ++ u) = Some (t, u).
Proof.
  induction 1 as [|c t H1 H2 _ _ IH|c t _ _ IH|h1 h2 h3 h4 t [z1 H1] [z2 H2] [z3 H3] [z4 H4] _ IH];
    rewrite <- ?app_comm_cons; cbn [close_quote].
  - by rewrite Ascii.eqb_refl.
  - by rewrite (proj2 (Ascii.eqb_neq _ _) H1), (proj2 (Ascii.eqb_neq _ _) H2), IH.
  - change (Ascii.eqb "\" quotemark) with false. rewrite Ascii.eqb_refl. cbn match. by rewrite IH.
  - assert (forall h z, hex h = Some z -> Ascii.eqb h quotemark = false /\ Ascii.eqb h "\" = false) as Hh.
    { intros h z Hz. destruct (Ascii.eqb_spec h quotemark) as [->|]; [done|]. by destruct (Ascii.eqb_spec h "\") as [->|]. }
    change (Ascii.eqb "\" quotemark) with false. rewrite Ascii.eqb_refl. cbn match.
    destruct (Hh _ _ H1) as [-> ->], (Hh _ _ H2) as [-> ->], (Hh _ _ H3) as [-> ->], (Hh _ _ H4) as [-> ->].
    by rewrite IH.
Qed.

Lemma read_literal_quote s t : utf8 s -> read_literal (quote_body (length s) s ++ quotemark :: t) = Some (s, t).
Proof.
  intros Hs. unfold read_literal. pose proof (close_quote_literal _ t (Grammar.body_quote (length s) s)) as E.
  rewrite <- app_assoc in E. cbn [app] in E. rewrite E. cbn [mbind option_bind]. fold (quote s). by rewrite decode_quote.
Qed.

Lemma read_digits_map ds t : Forall (fun n => n < 10)%nat ds -> stops t -> read_digits (map digit_char ds ++ t) = (ds, t).
Proof.
  intros Hd Ht. induction Hd as [|d ds Hd _ IH]; simpl.
  - destruct t as [|c t]; [done|]. simpl in Ht |- *. by rewrite Ht.
  - rewrite IH. do 10 (destruct d as [|d]; [done|]). lia.
Qed.

Lemma expect_app w t : expect w (w ++ t) = Some t.
Proof. induction w as [|c w IH]; [done|]. simpl. by rewrite Ascii.eqb_refl. Qed.

Lemma expect_one c t : expect [c] (c :: t) = Some t.
Proof. apply (expect_app [c]). Qed.

Lemma expect_other c d t : c <> d -> expect [c] (d :: t) = None.
Proof. intros Hn. simpl. by rewrite (proj2 (Ascii.eqb_neq c d)). Qed.

Section items_back.
Context {A : Type} (enc : A -> text) (item : text -> option (A * text)) (close : ascii).
Hypothesis Hclose : is_digit close = false /\ close <> ","%char.

Definition back (x : A) : Prop := forall t, stops t -> item (enc x ++ t) = Some (x, t).

Lemma read_items_join l fuel t : l <> [] -> Forall back l -> (length l <= fuel)%nat ->
  read_items item close fuel (join (map enc l) ++ close :: t) = Some (l, t).
Proof.
  destruct Hclose as [Hd Hc]. intros Hl Hb. revert fuel. induction Hb as [|x l Hx Hb IH]; [done|].
  intros [|fuel] Hf; simpl in Hf; [lia|]. cbn [read_items]. destruct l as [|y l].
  - simpl. rewrite Hx by done. simpl. by rewrite Ascii.eqb_refl.
  - change (join (map enc (x :: y :: l))) with (enc x ++ ","%char :: join (map enc (y :: l))).
    rewrite <- app_assoc, <- app_comm_cons, Hx by done. cbn [mbind option_bind].
    rewrite (proj2 (Ascii.eqb_neq _ _)), Ascii.eqb_refl by congruence. by rewrite IH by (done || lia).
Qed.

Lemma join_length l : (length l <= S (length (join (map enc l))))%nat.
Proof.
  induction l as [|x l IH]; simpl; [lia|]. destruct l as [|y l]; simpl in *; [lia|]. rewrite length_app. simpl. lia.
Qed.

Lemma join_elem l x : x ∈ l -> (length (enc x) <= length (join (map enc l)))%nat.
Proof.
  induction l as [|y l IH]; [by intros ?%not_elem_of_nil|]. intros [->|Hx]%elem_of_cons.
  - simpl. destruct (map enc l); [done|]. rewrite length_app. lia.
  - specialize (IH Hx). simpl. destruct l as [|z l]; [by apply not_elem_of_nil in Hx|].
    cbn [map] in IH |- *. rewrite length_app. simpl in *. lia.
Qed.

Lemma read_seq_join l fuel t : (forall x, x ∈ l -> exists c s, enc x = c :: s /\ c <> close) -> Forall back l ->
  (length (join (map enc l)) < fuel)%nat -> read_seq item close fuel (join (map enc l) ++ close :: t) = Some (l, t).
Proof.
  intros Hfirst Hb Hf. unfold read_seq. pose proof (join_length l). destruct l as [|x l].
  - simpl. by rewrite Ascii.eqb_refl.
  - destruct (Hfirst x) as (c & s & E & Hc); [by left|].
    assert (exists u, join (map enc (x :: l)) ++ close :: t = c :: u) as [u Hu].
    { simpl. rewrite E. destruct (map enc l); eexists; simpl; done. }
    rewrite Hu, expect_other, <- Hu by congruence. apply read_items_join; [done|done|lia].
Qed.
End items_back.

Definition reads (j : json) : Prop := proper j -> utf8_json j -> forall n t,
  (length (encode j) <= n)%nat -> stops t -> read_value n (encode j ++ t) = Some (j, t).

Lemma read_digit_first d ds n t : (d < 10)%nat -> Forall (fun n => n < 10)%nat ds -> stops t ->
  read_value (S n) (map digit_char (d :: ds) ++ t) = Some (JNum false d ds, t).
Proof.
  intros Hd Hds Ht. assert (E : read_number false (map digit_char (d :: ds) ++ t) = Some (JNum false d ds, t)).
  { unfold read_number. by rewrite read_digits_map by (done || by constructor). }
  rewrite <- E. do 10 (destruct d as [|d]; [reflexivity|]). lia.
Qed.

Lemma member_back n kv : proper kv.2 -> utf8 kv.1 -> utf8_json kv.2 -> reads kv.2 ->
  (length (member kv) <= n)%nat -> back member (read_member (read_value n)) kv.
Proof.
  intros Hp Hk Ha Hr Hn t Ht. destruct kv as [k v]. unfold member, read_member, quote in *. cbn [fst snd] in *.
  rewrite <- !app_comm_cons, <- !app_assoc, expect_one. cbn [mbind option_bind app].
  rewrite read_literal_quote by done. cbn [mbind option_bind]. rewrite expect_one. cbn [mbind option_bind].
  rewrite Hr; [done..| |done]. rewrite !length_app in Hn. simpl in Hn. rewrite !length_app in Hn. simpl in Hn. lia.
Qed.

Lemma reads_json j : reads j.
Proof.
  induction j as [|b|neg d ds|s|l IH|l IH] using json_nested_ind; intros Hp Ha [|n] t Hn Ht;
    try (simpl in Hn; repeat case_match; simpl in Hn; lia).
  - done.
  - by destruct b.
  - destruct Hp as (Hd & Hds & _). destruct neg; [|by apply read_digit_first].
    cbn [encode app]. change (read_value (S n) ("-"%char :: ?x)) with (read_number true x).
    unfold read_number. by rewrite read_digits_map by (done || by constructor).
  - cbn [encode]. unfold quote. rewrite <- app_comm_cons, <- app_assoc. cbn [app].
    cbn [read_value]. rewrite Ascii.eqb_refl, read_literal_quote by done. done.
  - apply proper_Forall in Hp. simpl in Ha. apply foldr_and in Ha. cbn [encode] in Hn |- *.
    rewrite <- app_comm_cons, <- app_assoc. cbn [app].
    change (read_value (S n) ("["%char :: ?x)) with ('(l, r) ← read_seq (read_value n) "]" n x; Some (JArr l, r)).
    rewrite length_cons, length_app in Hn. simpl in Hn.
    rewrite (read_seq_join encode); [done|done|..|lia].
    + intros x Hx. rewrite Forall_forall in Hp. destruct (encode_first x) as (c & s & E & H); [by apply Hp|].
      exists c, s. split; [done|]. intros ->. by specialize (H [ArrayValue]).
    + rewrite Forall_forall in IH, Hp, Ha |- *. intros x Hx u Hu. apply IH; auto.
      pose proof (join_elem encode l x Hx). lia.
  - apply proper_Forall_obj in Hp. simpl in Ha.
    apply (foldr_and (fun kv => utf8 kv.1 /\ utf8_json kv.2)) in Ha. cbn [encode] in Hn |- *.
    change (map (fun kv => quote kv.1 ++ ":"%char :: encode kv.2) l) with (map member l) in *.
    rewrite <- app_comm_cons, <- app_assoc. cbn [app].
    change (read_value (S n) ("{"%char :: ?x)) with
      ('(l, r) ← read_seq (read_member (read_value n)) "}" n x; Some (JObj l, r)).
    rewrite length_cons, length_app in Hn. simpl in Hn.
    rewrite (read_seq_join member); [done|done|..|lia].
    + intros [k v] _. by eexists _, _.
    + rewrite Forall_forall in IH, Hp, Ha |- *. intros x Hx. apply member_back; [by apply Hp|by apply Ha..|by apply IH|].
      pose proof (join_elem member l x Hx). lia.
Qed.

Lemma Json_reader_encode j : proper j -> utf8_json j -> Json_reader (encode j) = Some j.
Proof.
  intros Hp Ha. unfold Json_reader. rewrite <- (app_nil_r (encode j)) at 2. by rewrite reads_json.
Qed.

(** ** Encoded values are one line *)

Definition LF : ascii := ascii_of_nat 10.

Definition one_line (l : text) : Prop := Forall (fun c => c <> LF) l.

Lemma one_line_constant s : forallb (fun c => negb (Ascii.eqb c LF)) (chars s) = true -> one_line (chars s).
Proof.
  intros H. apply Forall_forall. intros c Hc. rewrite forallb_forall in H.
  specialize (H c ltac:(by apply list_elem_of_In)). by apply negb_true_iff, Ascii.eqb_neq in H.
Qed.

Lemma body_one_line t : Grammar.body t -> one_line t.
Proof.
  assert (forall h z, hex h = Some z -> h <> LF) as Hh by (by intros h z Hz ->).
  induction 1 as [|c t _ _ Hc _ IH|c t Hc _ IH|h1 h2 h3 h4 t [z1 H1] [z2 H2] [z3 H3] [z4 H4] _ IH];
    repeat apply Forall_cons_2; eauto; try done; by intros ->.
Qed.

Lemma quote_one_line s : one_line (quote s).
Proof. apply Forall_cons. split; [done|]. apply body_one_line, Grammar.body_quote. Qed.

Lemma join_one_line ls : Forall one_line ls -> one_line (join ls).
Proof.
  induction 1 as [|l ls Hl Hls IH]; [constructor|]. simpl. destruct ls; [done|].
  apply Forall_app. split; [done|]. by constructor.
Qed.

Lemma encode_one_line j : proper j -> one_line (encode j).
Proof.
  induction j as [|b|neg d ds|s|l IH|l IH] using json_nested_ind; intros Hp; cbn [encode].
  - by apply one_line_constant.
  - by destruct b; apply one_line_constant.
  - destruct Hp as (Hd & Hds & _). apply Forall_app. split; [by destruct neg; repeat constructor|].
    assert (Hdc : forall d, (d < 10)%nat -> digit_char d <> LF) by (intros e He; do 10 (destruct e as [|e]; [done|]); lia).
    constructor; [by apply Hdc|]. apply Forall_map. eapply Forall_impl; [exact Hds|]. intros e He. exact (Hdc e He).
  - apply quote_one_line.
  - constructor; [done|]. apply Forall_app. split; [|by repeat constructor]. apply join_one_line, Forall_map.
    apply proper_Forall in Hp. rewrite Forall_forall in IH, Hp |- *. auto.
  - constructor; [done|]. apply Forall_app. split; [|by repeat constructor]. apply join_one_line, Forall_map.
    apply proper_Forall_obj in Hp. rewrite Forall_forall in IH, Hp |- *. intros kv Hkv.
    apply Forall_app. split; [apply quote_one_line|]. constructor; [done|]. by apply IH, Hp.
Qed.

(** ** Values that are sent *)

Class Wire (A : Type) := {
  to_json : A -> json;
  of_json : json -> option A;
  to_json_fit : forall a, proper (to_json a) /\ utf8_json (to_json a);
  of_to_json : forall a, of_json (to_json a) = Some a;
}.

Definition marshal `{Wire A} (a : A) : text := encode (to_json a).
Definition unmarshal `{Wire A} (s : text) : option A := j ← Json_reader s; of_json j.

Lemma unmarshal_marshal `{Wire A} (a : A) : unmarshal (marshal a) = Some a.
Proof.
  unfold unmarshal, marshal. destruct (to_json_fit a). rewrite Json_reader_encode by done. apply of_to_json.
Qed.

Definition str (s : string) : json := JStr (chars s).

Fixpoint lookup_key (k : text) (l : list (text * json)) : option json :=
  match l with [] => None | kv :: l' => if bool_decide (kv.1 = k) then Some kv.2 else lookup_key k l' end.

Definition member_of (k : string) (j : json) : option json :=
  match j with JObj l => lookup_key (chars k) l | _ => None end.

Lemma lookup_here k v l : lookup_key k ((k, v) :: l) = Some v.
Proof. simpl. by rewrite bool_decide_eq_true_2. Qed.

Lemma lookup_skip k k' v l : bool_decide (k' = k) = false -> lookup_key k ((k', v) :: l) = lookup_key k l.
Proof. intros H. simpl. by rewrite H. Qed.

(** A constant of a string type, among the listed ones. *)
Definition constant {A} (name : A -> string) (all : list A) (j : json) : option A :=
  match j with JStr s => head (filter (fun a => chars (name a) = s) all) | _ => None end.

#[export] Instance Wire_Z : Wire Z.
Proof.
  refine {| to_json := number; of_json := to_Z; of_to_json := to_Z_number |}.
  intros z. split; [apply number_proper|]. by destruct (number_digits z) as (d & ds & -> & _).
Defined.

(** omitempty: a member that is left out when its value is the zero one. *)
Definition omitempty (k : string) (o : option json) : list (text * json) :=
  match o with Some v => [(chars k, v)] | None => [] end.

Definition optional {A} `{Wire A} (o : option json) : option (option A) :=
  match o with Some v => Some <$> of_json v | None => Some None end.

Lemma omitempty_fit k o l : utf8 (chars k) -> (forall v, o = Some v -> proper v /\ utf8_json v) ->
  proper (JObj l) /\ utf8_json (JObj l) -> proper (JObj (omitempty k o ++ l)) /\ utf8_json (JObj (omitempty k o ++ l)).
Proof. intros Hk Ho [Hp Ha]. destruct o as [v|]; [|done]. destruct (Ho v eq_refl). by repeat split. Qed.

Lemma lookup_omit_skip k k' o l : bool_decide (chars k' = k) = false -> lookup_key k (omitempty k' o ++ l) = lookup_key k l.
Proof. intros Hk. destruct o; [by apply lookup_skip|done]. Qed.

Lemma lookup_omit_here k o l : lookup_key (chars k) l = None -> lookup_key (chars k) (omitempty k o ++ l) = o.
Proof. intros Hl. destruct o; [apply lookup_here|done]. Qed.

Lemma optional_back `{Wire A} (o : option A) : optional (to_json <$> o) = Some o.
Proof. destruct o as [a|]; [|done]. simpl. by rewrite of_to_json. Qed.

End Wire.
