(* ===== verification/Park.v ===== *)
(** * The park queue (src/internal/queue/park.go) *)

From S2P Require Import Prelude.
#[local] Set Warnings "-clear-no-such-hyp,-level-tolerance".
Local Open Scope Z_scope.

Module Park.

(** ** Data *)

(** A [*parkedReq] is named by the [parkFor] call that made it.  Durations are
    [int64] nanoseconds. *)
Record parker := Parker {
  q : list nat;
  maxQueue : Z;
  hold : Z;
  drainBurst : Z;
}.

Definition zero : parker := {| q := []; maxQueue := 0; hold := 0; drainBurst := 0 |}.

Definition set_q (l : list nat) (p : parker) : parker :=
  {| q := l; maxQueue := maxQueue p; hold := hold p; drainBurst := drainBurst p |}.

Inductive parkResult := parkReleased | parkExpired | parkRejected | parkCanceled | parkShutdown.

#[global] Instance parkResult_eq_dec : EqDecision parkResult.
Proof. solve_decision. Defined.

(** ** Operations (each one critical section under [p.mu]) *)

(** The linear scan shared by [remove] and [Scheduler.removeWaiter]: splice the
    first occurrence of [x] out, [None] when it is not in the queue. *)
Fixpoint splice_out (x : nat) (l : list nat) : option (list nat) :=
  match l with
  | [] => None
  | c :: rest => if decide (c = x) then Some rest
                 else match splice_out x rest with
                      | Some r => Some (c :: r)
                      | None => None
                      end
  end.

(** The ceiling check and the append of [parkFor], atomic under [p.mu]. *)
Definition parkFor_enter (pr : nat) (p : parker) : option parker :=
  if (maxQueue p =? 0) || (maxQueue p <=? Z.of_nat (length (q p))) then None
  else Some (set_q (q p ++ [pr]) p).

Definition remove (pr : nat) (p : parker) : bool * parker :=
  match splice_out pr (q p) with
  | Some l => (true, set_q l p)
  | None => (false, p)
  end.

(** The splice of [drainOneBurst]: the batch whose release channels are closed
    after unlocking, in order.  A negative [n] would make [make] panic. *)
Definition drainOneBurst (burst : Z) (p : parker) : outcome (list nat * parker) :=
  match q p with
  | [] => Next ([], p)
  | _ :: _ =>
      let n := Z.min burst (Z.of_nat (length (q p))) in
      if n <? 0 then Panic
      else Next (take (Z.to_nat n) (q p), set_q (drop (Z.to_nat n) (q p)) p)
  end.

(** One tick of [RunParkDrain]. *)
Definition drain_tick (yielding : bool) (p : parker) : outcome (list nat * parker) :=
  if yielding then Next ([], p)
  else match q p with
       | [] => Next ([], p)
       | _ :: _ => drainOneBurst (drainBurst p) p
       end.

Definition SetParkConfig (hold' maxQueue' drainBurst' : Z) (p : parker) : parker :=
  {| q := q p;
     maxQueue := if maxQueue' =? 0 then 0 else if maxQueue' <? 0 then maxQueue p else maxQueue';
     drainBurst := if 1 <=? drainBurst' then drainBurst' else drainBurst p;
     hold := if 0 <? hold' then hold' else hold p |}.

Definition parkEnabled (p : parker) : bool := negb (maxQueue p =? 0).

(** ** Concurrent callers *)

(** Where a [parkFor] call stands: blocked in the outer [select] with its
    client context cancelled or its hold timer elapsed; past the failed
    non-blocking check of the [hctx.Done()] branch; or returned. *)
Inductive pc :=
| Selecting (canceled expired : bool)
| TimedOut (canceled : bool)
| Finished (r : parkResult).

(** The drain goroutine between ticks, after it read the burst, or closing the
    release channels of a spliced batch. *)
Inductive drainer := Idle | Armed (burst : Z) | Closing (batch : list nat).

Record lot := Lot {
  pk : parker;
  calls : gmap nat pc;
  closed : gset nat;
  drain : drainer;
  shutdown : bool;
  arrivals : list nat;
  released : list nat;
}.

Definition closing (l : lot) : list nat :=
  match drain l with Closing b => b | _ => [] end.

Definition set_pk (p : parker) (l : lot) : lot :=
  {| pk := p; calls := calls l; closed := closed l; drain := drain l;
     shutdown := shutdown l; arrivals := arrivals l; released := released l |}.

Definition set_call (w : nat) (c : pc) (l : lot) : lot :=
  {| pk := pk l; calls := <[w := c]> (calls l); closed := closed l; drain := drain l;
     shutdown := shutdown l; arrivals := arrivals l; released := released l |}.

Definition set_drain (d : drainer) (l : lot) : lot :=
  {| pk := pk l; calls := calls l; closed := closed l; drain := d;
     shutdown := shutdown l; arrivals := arrivals l; released := released l |}.

Inductive event :=
| EEnter (w : nat)
| ECtxCancel (w : nat)
| EHoldElapsed (w : nat)
| EShutdown
| ETakeRelease (w : nat)
| ETakeTimeout (w : nat)
| ERemove (w : nat)
| ETakeShutdown (w : nat)
| ETick (yielding : bool)
| ESplice
| EClose.

(** [p.remove(pr)] and the classification that follows it. *)
Definition leave (w : nat) (r : parkResult) (l : lot) : lot :=
  match remove w (pk l) with
  | (true, p) => set_call w (Finished r) (set_pk p l)
  | (false, _) => set_call w (Finished parkReleased) l
  end.

Definition enter (w : nat) (l : lot) : lot :=
  match parkFor_enter w (pk l) with
  | None => set_call w (Finished parkRejected) l
  | Some p =>
      {| pk := p; calls := <[w := Selecting false false]> (calls l); closed := closed l;
         drain := drain l; shutdown := shutdown l;
         arrivals := arrivals l ++ [w]; released := released l |}
  end.

Definition splice (burst : Z) (l : lot) : outcome lot :=
  match drainOneBurst burst (pk l) with
  | Next (batch, p) =>
      Next {| pk := p; calls := calls l; closed := closed l; drain := Closing batch;
              shutdown := shutdown l; arrivals := arrivals l;
              released := released l ++ batch |}
  | Panic => Panic
  | Disabled => Disabled
  end.

(** Closing a channel that is already closed panics. *)
Definition close_release (w : nat) (rest : list nat) (l : lot) : outcome lot :=
  if decide (w ∈ closed l) then Panic
  else Next {| pk := pk l; calls := calls l; closed := {[w]} ∪ closed l; drain := Closing rest;
               shutdown := shutdown l; arrivals := arrivals l; released := released l |}.

Definition step (e : event) (l : lot) : outcome lot :=
  match e with
  | EEnter w => match calls l !! w with None => Next (enter w l) | Some _ => Disabled end
  | ECtxCancel w =>
      match calls l !! w with
      | Some (Selecting _ x) => Next (set_call w (Selecting true x) l)
      | Some (TimedOut _) => Next (set_call w (TimedOut true) l)
      | _ => Disabled
      end
  | EHoldElapsed w =>
      match calls l !! w with
      | Some (Selecting c _) => Next (set_call w (Selecting c true) l)
      | _ => Disabled
      end
  | EShutdown =>
      Next {| pk := pk l; calls := calls l; closed := closed l; drain := drain l;
              shutdown := true; arrivals := arrivals l; released := released l |}
  | ETakeRelease w =>
      match calls l !! w with
      | Some (Selecting _ _) =>
          if decide (w ∈ closed l) then Next (set_call w (Finished parkReleased) l) else Disabled
      | _ => Disabled
      end
  | ETakeTimeout w =>
      match calls l !! w with
      | Some (Selecting c x) =>
          if c || x then
            if decide (w ∈ closed l) then Next (set_call w (Finished parkReleased) l)
            else Next (set_call w (TimedOut c) l)
          else Disabled
      | _ => Disabled
      end
  | ERemove w =>
      match calls l !! w with
      | Some (TimedOut c) => Next (leave w (if c then parkCanceled else parkExpired) l)
      | _ => Disabled
      end
  | ETakeShutdown w =>
      match calls l !! w with
      | Some (Selecting _ _) => if shutdown l then Next (leave w parkShutdown l) else Disabled
      | _ => Disabled
      end
  | ETick yielding =>
      match drain l with
      | Idle => if yielding then Next l
                else match q (pk l) with
                     | [] => Next l
                     | _ :: _ => Next (set_drain (Armed (drainBurst (pk l))) l)
                     end
      | _ => Disabled
      end
  | ESplice => match drain l with Armed burst => splice burst l | _ => Disabled end
  | EClose =>
      match drain l with
      | Closing (w :: rest) => close_release w rest l
      | Closing [] => Next (set_drain Idle l)
      | _ => Disabled
      end
  end.

Definition fresh_lot (p : parker) : lot :=
  {| pk := p; calls := ∅; closed := ∅; drain := Idle; shutdown := false;
     arrivals := []; released := [] |}.

(** The states a configured park queue starts serving from. *)
Definition init (l : lot) : Prop :=
  exists hold' maxQueue' drainBurst', l = fresh_lot (SetParkConfig hold' maxQueue' drainBurst' zero).

(** [n] consecutive drain ticks outside a yield, with the order of the releases. *)
Fixpoint drain_ticks (n : nat) (p : parker) : outcome (list nat * parker) :=
  match n with
  | O => Next ([], p)
  | S n' => match drain_tick false p with
            | Next (b, p') => match drain_ticks n' p' with
                              | Next (b', p'') => Next (b ++ b', p'')
                              | o => o
                              end
            | o => o
            end
  end.

Definition live (c : pc) : bool :=
  match c with Selecting _ _ | TimedOut _ => true | Finished _ => false end.

(** ** The queue operations *)

Lemma splice_out_Some x l l' :
  splice_out x l = Some l' -> exists l1 l2, l = l1 ++ x :: l2 /\ l' = l1 ++ l2 /\ x ∉ l1.
Proof.
  revert l'. induction l as [|c l IH]; intros l' H; simpl in H; [done|].
  case_decide; simplify_eq.
  - exists [], l'. repeat split; [done..|]. apply not_elem_of_nil.
  - case_match; simplify_eq. destruct (IH _ eq_refl) as (l1 & l2 & -> & -> & Hn).
    exists (c :: l1), l2. repeat split; [done..|]. set_solver.
Qed.

Lemma splice_out_None x l : splice_out x l = None <-> x ∉ l.
Proof.
  induction l as [|c l IH]; simpl; [set_solver|].
  case_decide; [set_solver|]. case_match; set_solver.
Qed.

Lemma splice_out_perm x l l' : splice_out x l = Some l' -> l ≡ₚ x :: l'.
Proof. intros (l1 & l2 & -> & -> & _)%splice_out_Some. by rewrite Permutation_middle. Qed.

Lemma splice_out_length x l l' : splice_out x l = Some l' -> length l = S (length l').
Proof. intros ->%splice_out_perm. done. Qed.

Lemma splice_out_sublist x l l' : splice_out x l = Some l' -> l' `sublist_of` l.
Proof.
  intros (l1 & l2 & -> & -> & _)%splice_out_Some.
  apply sublist_app; [done|]. by apply sublist_cons.
Qed.

Lemma splice_out_NoDup x l l' : splice_out x l = Some l' -> NoDup l -> NoDup l' /\ x ∉ l'.
Proof. intros ->%splice_out_perm [? ?]%NoDup_cons. done. Qed.

Lemma drainOneBurst_spec burst p :
  0 <= burst ->
  drainOneBurst burst p =
  Next (take (Z.to_nat burst) (q p), set_q (drop (Z.to_nat burst) (q p)) p).
Proof.
  intros Hb. unfold drainOneBurst. destruct (q p) as [|x l] eqn:Hq.
  - rewrite take_nil, drop_nil. destruct p; simpl in *; by subst.
  - rewrite (proj2 (Z.ltb_ge _ 0)) by lia.
    destruct (Z.le_gt_cases burst (Z.of_nat (length (x :: l)))).
    + by rewrite Z.min_l.
    + rewrite Z.min_r by lia. rewrite Nat2Z.id.
      rewrite !take_ge, !drop_ge by lia. done.
Qed.

(** ** The invariant of a park queue with concurrent callers *)

Record inv (l : lot) : Prop := {
  inv_nodup : NoDup (q (pk l) ++ closing l);
  inv_open : forall w, w ∈ q (pk l) ++ closing l -> w ∉ closed l;
  inv_queued : forall w, w ∈ q (pk l) -> exists c, calls l !! w = Some c /\ live c = true;
  inv_live : forall w c, calls l !! w = Some c -> live c = true ->
                         w ∈ q (pk l) ++ closing l \/ w ∈ closed l;
  inv_drained : forall w, w ∈ closing l \/ w ∈ closed l ->
                          exists c, calls l !! w = Some c /\ (live c = true \/ c = Finished parkReleased);
  inv_released : forall w, calls l !! w = Some (Finished parkReleased) ->
                           w ∈ closing l \/ w ∈ closed l;
  inv_ceiling : Z.of_nat (length (q (pk l))) <= maxQueue (pk l);
  inv_burst : 0 <= drainBurst (pk l);
  inv_armed : forall b, drain l = Armed b -> 0 <= b;
  inv_order : (released l ++ q (pk l)) `sublist_of` arrivals l;
  inv_arrived : NoDup (arrivals l) /\ forall w, w ∈ arrivals l -> is_Some (calls l !! w);
  inv_log : forall w, w ∈ released l <-> w ∈ closing l \/ w ∈ closed l;
}.

Lemma park_init_inv l : init l -> inv l.
Proof.
  intros (h & m & b & ->).
  assert (0 <= maxQueue (SetParkConfig h m b zero) /\ 0 <= drainBurst (SetParkConfig h m b zero))
    as [Hm Hb].
  { simpl. split; repeat case_match; simpl in *; try lia. }
  split; simpl; try set_solver.
  - apply NoDup_nil_2.
  - split; [apply NoDup_nil_2|set_solver].
Qed.

(** Updating the pc of a call that stays live keeps every clause. *)
Lemma set_call_live_inv w c c' l :
  inv l -> calls l !! w = Some c -> live c = true -> live c' = true -> inv (set_call w c' l).
Proof.
  intros [] Hw Hc Hc'. split; simpl; try done.
  - intros w' Hq. destruct (decide (w' = w)) as [->|]; simplify_map_eq; eauto.
  - intros w' d Hd Hl. destruct (decide (w' = w)) as [->|]; simplify_map_eq; eauto.
  - intros w' Hd. destruct (decide (w' = w)) as [->|]; simplify_map_eq; eauto.
  - intros w' Hd. destruct (decide (w' = w)) as [->|]; simplify_map_eq; eauto.
  - destruct inv_arrived0 as [? Ha]. split; [done|]. intros w' Hi.
    destruct (decide (w' = w)) as [->|]; simplify_map_eq; eauto.
Qed.

(** A live call that was spliced out of the queue may return [parkReleased]. *)
Lemma finish_released_inv w c l :
  inv l -> calls l !! w = Some c -> live c = true -> w ∉ q (pk l) ->
  inv (set_call w (Finished parkReleased) l).
Proof.
  intros [] Hw Hc Hn. split; simpl; try done.
  - intros w' Hq. destruct (decide (w' = w)) as [->|]; simplify_map_eq; eauto.
  - intros w' d Hd Hl. destruct (decide (w' = w)) as [->|]; simplify_map_eq; eauto.
  - intros w' Hd. destruct (decide (w' = w)) as [->|]; simplify_map_eq; eauto.
  - intros w' Hd. destruct (decide (w' = w)) as [->|]; simplify_map_eq; eauto.
    destruct (inv_live0 _ _ Hw Hc); set_solver.
  - destruct inv_arrived0 as [? Ha]. split; [done|]. intros w' Hi.
    destruct (decide (w' = w)) as [->|]; simplify_map_eq; eauto.
Qed.

(** A live call that removes itself from the queue returns its own result. *)
Lemma finish_removed_inv w c r l l' :
  inv l -> calls l !! w = Some c -> live c = true -> r <> parkReleased ->
  splice_out w (q (pk l)) = Some l' ->
  inv (set_call w (Finished r) (set_pk (set_q l' (pk l)) l)).
Proof.
  intros [] Hw Hc Hr Hs.
  pose proof (splice_out_perm _ _ _ Hs) as Hp.
  assert (Hnd : NoDup (w :: l' ++ closing l)).
  { rewrite app_comm_cons, <- Hp. done. }
  apply NoDup_cons in Hnd as [Hwn Hnd].
  assert (Hin : forall x, x ∈ q (pk l) <-> x = w \/ x ∈ l') by (intros x; rewrite Hp; set_solver).
  split; simpl.
  - done.
  - intros w' Hq. apply inv_open0. set_solver.
  - intros w' Hq. assert (w' <> w) by set_solver. simplify_map_eq. set_solver.
  - intros w' d Hd Hl. destruct (decide (w' = w)) as [->|]; simplify_map_eq.
    destruct (inv_live0 _ _ Hd Hl); set_solver.
  - intros w' Hd. assert (w' <> w).
    { intros ->. destruct Hd as [Hd|Hd]; [set_solver|]. eapply inv_open0; [|done]. set_solver. }
    simplify_map_eq. eauto.
  - intros w' Hd. destruct (decide (w' = w)) as [->|]; simplify_map_eq; eauto.
  - apply splice_out_length in Hs. lia.
  - done.
  - done.
  - etrans; [|done]. apply sublist_app; [done|]. by eapply splice_out_sublist.
  - destruct inv_arrived0 as [? Ha]. split; [done|]. intros w' Hi.
    destruct (decide (w' = w)) as [->|]; simplify_map_eq; eauto.
  - done.
Qed.

Lemma leave_inv w c r l :
  inv l -> calls l !! w = Some c -> live c = true -> r <> parkReleased -> inv (leave w r l).
Proof.
  intros Hi Hw Hc Hr. unfold leave, remove. destruct (splice_out w (q (pk l))) eqn:Hs.
  - by eapply finish_removed_inv.
  - eapply finish_released_inv; [done..|]. by apply splice_out_None.
Qed.

Lemma enter_inv w l : inv l -> calls l !! w = None -> inv (enter w l).
Proof.
  intros Hi Hw. pose proof Hi as [].
  assert (Hnq : w ∉ q (pk l) ++ closing l /\ w ∉ closed l).
  { split; intros Hx.
    - apply elem_of_app in Hx as [Hx|Hx].
      + destruct (inv_queued0 _ Hx) as (? & ? & ?). congruence.
      + destruct (inv_drained0 w (or_introl Hx)) as (? & ? & ?). congruence.
    - destruct (inv_drained0 w (or_intror Hx)) as (? & ? & ?). congruence. }
  assert (Hna : w ∉ arrivals l).
  { intros Hx. destruct inv_arrived0 as [_ Ha]. destruct (Ha _ Hx). congruence. }
  unfold enter, parkFor_enter. destruct (_ || _) eqn:Hfull.
  - split; simpl; try done.
    + intros w' Hq. assert (w' <> w) by set_solver. simplify_map_eq. eauto.
    + intros w' d Hd Hl. destruct (decide (w' = w)) as [->|]; simplify_map_eq; eauto.
    + intros w' Hd. assert (w' <> w) by set_solver. simplify_map_eq. eauto.
    + intros w' Hd. destruct (decide (w' = w)) as [->|]; simplify_map_eq; eauto.
    + destruct inv_arrived0 as [? Ha]. split; [done|]. intros w' Hx.
      destruct (decide (w' = w)) as [->|]; simplify_map_eq; eauto.
  - apply orb_false_iff in Hfull as [_ Hlt%Z.leb_gt].
    split; simpl; unfold closing in *; simpl.
    + rewrite <- app_assoc. rewrite (Permutation_app_comm [w]), app_assoc.
      apply NoDup_app. split; [done|]. split; [set_solver|apply NoDup_singleton].
    + intros w' Hx. set_solver.
    + intros w' Hx. destruct (decide (w' = w)) as [->|]; simplify_map_eq; [by eexists|]. set_solver.
    + intros w' d Hd Hl. destruct (decide (w' = w)) as [->|]; simplify_map_eq; set_solver.
    + intros w' Hd. assert (w' <> w) by set_solver. simplify_map_eq. eauto.
    + intros w' Hd. destruct (decide (w' = w)) as [->|]; simplify_map_eq; eauto.
    + rewrite length_app; simpl. lia.
    + done.
    + done.
    + rewrite app_assoc. by apply sublist_app.
    + destruct inv_arrived0 as [? Ha]. split.
      * apply NoDup_app. split; [done|]. split; [set_solver|apply NoDup_singleton].
      * intros w' Hx. destruct (decide (w' = w)) as [->|]; simplify_map_eq; [eauto|]. set_solver.
    + done.
Qed.

Lemma splice_inv burst l l' :
  inv l -> drain l = Armed burst -> splice burst l = Next l' -> inv l'.
Proof.
  intros [] Hd Hs. unfold splice in Hs.
  assert (Hcl : closing l = []) by (unfold closing; by rewrite Hd).
  rewrite drainOneBurst_spec in Hs by eauto. simplify_eq.
  set (n := Z.to_nat burst).
  rewrite Hcl, app_nil_r in *.
  pose proof (take_drop n (q (pk l))) as Htd.
  assert (Hin : forall x, x ∈ q (pk l) <-> x ∈ take n (q (pk l)) \/ x ∈ drop n (q (pk l))).
  { intros x. rewrite <- Htd at 1. apply elem_of_app. }
  split; simpl; unfold closing; simpl.
  - rewrite Permutation_app_comm, Htd. done.
  - intros w Hw. apply inv_open0. set_solver.
  - intros w Hw. apply inv_queued0. set_solver.
  - intros w c Hc Hl. destruct (inv_live0 _ _ Hc Hl); set_solver.
  - intros w [Hw|Hw]; [|by eauto]. destruct (inv_queued0 w) as (c & ? & ?); [set_solver|]. eauto.
  - intros w Hw. destruct (inv_released0 _ Hw); set_solver.
  - rewrite length_drop. lia.
  - done.
  - done.
  - rewrite <- app_assoc, Htd. done.
  - done.
  - intros w. rewrite elem_of_app, inv_log0. set_solver.
Qed.

Lemma close_release_inv w rest l l' :
  inv l -> drain l = Closing (w :: rest) -> close_release w rest l = Next l' -> inv l'.
Proof.
  intros [] Hd Hs. unfold close_release in Hs. case_decide; simplify_eq.
  assert (Hcl : closing l = w :: rest) by (unfold closing; by rewrite Hd).
  rewrite Hcl in *.
  assert (Hwn : w ∉ q (pk l) ++ rest /\ NoDup (q (pk l) ++ rest)).
  { apply NoDup_cons. by rewrite Permutation_middle. }
  split; simpl; unfold closing; simpl; set_solver.
Qed.

Lemma park_step_inv l e l' : inv l -> step e l = Next l' -> inv l'.
Proof.
  intros Hi Hs. destruct e; simpl in Hs.
  - case_match; simplify_eq. by apply enter_inv.
  - case_match; [|done]. case_match; simplify_eq; by eapply set_call_live_inv.
  - case_match; [|done]. case_match; simplify_eq; by eapply set_call_live_inv.
  - simplify_eq. destruct Hi. by split.
  - case_match; [|done]. case_match; [|done..]. case_decide; simplify_eq.
    eapply finish_released_inv; [done..|]. intros Hq. eapply inv_open; [done| |done]. set_solver.
  - case_match; [|done]. case_match; [|done..]. case_match; [|done]. case_decide; simplify_eq.
    + eapply finish_released_inv; [done..|]. intros Hq. eapply inv_open; [done| |done]. set_solver.
    + by eapply set_call_live_inv.
  - case_match; [|done]. case_match; [done| |done]. simplify_eq.
    eapply leave_inv; [done..|]. by case_match.
  - case_match; [|done]. case_match; [|done..]. case_match; [|done]. simplify_eq.
    by eapply leave_inv.
  - case_match; [|done..]. case_match; simplify_eq; [done|]. case_match; simplify_eq; [done|].
    destruct Hi. split; simpl; try done.
    all: unfold closing in *; simpl in *; case_match; simplify_eq; try done.
    all: intros; simplify_eq; done.
  - case_match; [done| |done]. by eapply splice_inv.
  - case_match; [done..|]. case_match; [|by eapply close_release_inv]. simplify_eq.
    destruct Hi. unfold closing in *. case_match; simplify_eq. by split.
Qed.

Lemma reachable_lot_inv l : reachable step init l -> inv l.
Proof. apply reachable_inv; eauto using park_init_inv, park_step_inv. Qed.

Lemma no_close_twice l : inv l -> forall e, step e l <> Panic.
Proof.
  intros [] e. destruct e; simpl; repeat case_match; try done; unfold splice, close_release.
  - rewrite drainOneBurst_spec by eauto. done.
  - case_decide; [|done]. intros _. eapply inv_open0; [|done].
    unfold closing. case_match; simplify_eq. set_solver.
Qed.

Lemma drain_tick_spec p :
  0 <= drainBurst p ->
  drain_tick false p =
  Next (take (Z.to_nat (drainBurst p)) (q p), set_q (drop (Z.to_nat (drainBurst p)) (q p)) p).
Proof.
  intros Hb. unfold drain_tick. destruct (q p) as [|x l] eqn:Hq.
  - rewrite take_nil, drop_nil. destruct p; simpl in *; by subst.
  - rewrite drainOneBurst_spec by done. by rewrite Hq.
Qed.

(** ** Properties *)

(** C14: The park queue has no ghost entry and never overshoots its ceiling, in
    every interleaving of callers, drain loop, timeouts, disconnects and
    shutdown: a call that returned is out of the queue, it was spliced out by a
    drain exactly when it returned [parkReleased], and a call still waiting is
    either queued or already picked by a drain. *)
Theorem no_ghost_entries l :
  reachable step init l ->
  Z.of_nat (length (q (pk l))) <= maxQueue (pk l) /\
  NoDup (q (pk l)) /\
  forall w c, calls l !! w = Some c ->
    match c with
    | Finished parkReleased => w ∉ q (pk l) /\ w ∈ released l
    | Finished _ => w ∉ q (pk l) /\ w ∉ released l
    | _ => (w ∈ q (pk l) /\ w ∉ released l) \/ (w ∉ q (pk l) /\ w ∈ released l)
    end.
Proof.
  intros []%reachable_lot_inv. split; [done|]. apply NoDup_app in inv_nodup0 as (Hq & Hdis & _).
  split; [done|]. intros w c Hw.
  assert (Hex : w ∈ q (pk l) -> w ∉ released l).
  { rewrite inv_log0. intros Hx [Hy|Hy]; [by eapply Hdis|]. eapply inv_open0; [|done]. set_solver. }
  assert (Hlv : live c = true ->
    (w ∈ q (pk l) /\ w ∉ released l) \/ (w ∉ q (pk l) /\ w ∈ released l)).
  { intros Hl. destruct (inv_live0 _ _ Hw Hl) as [[Hx|Hx]%elem_of_app|Hx]; [tauto|..].
    all: right; split; [|apply inv_log0; tauto]; intros Hy; eapply Hex; [done|apply inv_log0; tauto]. }
  assert (Hfin : live c = false -> w ∉ q (pk l)).
  { intros Hl Hx. destruct (inv_queued0 _ Hx) as (d & ? & ?). congruence. }
  destruct c as [| |r]; [by apply Hlv..|].
  destruct r; (split; [by apply Hfin|]); rewrite inv_log0; [by apply inv_released0|..].
  all: intros Hx; destruct (inv_drained0 _ Hx) as (d & ? & [?|?]); by simplify_eq.
Qed.

(** Parked requests are released in arrival order: the requests released so
    far, followed by those still queued, form a subsequence of the arrivals. *)
Theorem park_release_fifo l :
  reachable step init l ->
  (released l ++ q (pk l)) `sublist_of` arrivals l /\ NoDup (arrivals l).
Proof. intros []%reachable_lot_inv. split; [done|apply inv_arrived0]. Qed.

(** No step of the park queue panics: a release channel is never closed twice
    and a burst is never negative. *)
Theorem park_never_panics l e : reachable step init l -> step e l <> Panic.
Proof. intros Hl. by apply no_close_twice, reachable_lot_inv. Qed.

(** Draining terminates: with a burst of [b >= 1], any number of ticks that
    covers the depth releases the whole queue, in FIFO order. *)
Theorem drain_ticks_empty n p :
  1 <= drainBurst p -> Z.of_nat (length (q p)) <= Z.of_nat n * drainBurst p ->
  drain_ticks n p = Next (q p, set_q [] p).
Proof.
  revert p. induction n as [|n IH]; intros p Hb Hn; cbn [drain_ticks].
  - destruct (q p) eqn:Hq; simpl in Hn; [|lia]. destruct p; simpl in *; by subst.
  - rewrite drain_tick_spec by lia. rewrite IH; cbn [q set_q drainBurst].
    + by rewrite take_drop.
    + done.
    + rewrite length_drop. lia.
Qed.

(** ** Witnesses *)

Definition demo_parker : parker := SetParkConfig 600 2 1 zero.

Definition demo_events : list event :=
  [EEnter 0; EEnter 1; EEnter 2; EHoldElapsed 1; ETick false; ESplice; EClose;
   ETakeRelease 0; ETakeTimeout 1; ERemove 1].

Definition demo_lot : lot := final step demo_events (fresh_lot demo_parker).

Lemma park_demo_reachable : reachable step init demo_lot.
Proof. apply final_reachable, reach_init. by exists 600, 2, 1. Qed.

Lemma no_ghost_entries_witness :
  calls demo_lot !! 1%nat = Some (Finished parkExpired) /\
  Z.of_nat (length (q (pk demo_lot))) <= 2.
Proof. split; [vm_compute; reflexivity|]. apply (no_ghost_entries _ park_demo_reachable). Defined.

Lemma park_release_fifo_witness :
  released demo_lot = [0%nat] /\ (released demo_lot ++ q (pk demo_lot)) `sublist_of` arrivals demo_lot.
Proof. split; [vm_compute; reflexivity|]. apply (park_release_fifo _ park_demo_reachable). Defined.

Lemma park_never_panics_witness : reachable step init demo_lot /\ step EClose demo_lot <> Panic.
Proof. split; [apply park_demo_reachable|]. apply (park_never_panics _ EClose park_demo_reachable). Defined.

Lemma drain_ticks_empty_witness :
  drain_ticks 2 (set_q [4%nat; 7%nat; 9%nat] (SetParkConfig 600 32 2 zero)) =
  Next ([4%nat; 7%nat; 9%nat], SetParkConfig 600 32 2 zero).
Proof. apply (drain_ticks_empty 2 (set_q [4%nat; 7%nat; 9%nat] (SetParkConfig 600 32 2 zero))); vm_compute; discriminate. Defined.

(** On a park queue that was never configured the ignored [hold <= 0] leaves the
    zero default in place: parking is then enabled with an instant expiry. *)
Lemma SetParkConfig_zero_hold m b :
  0 < m -> parkEnabled (SetParkConfig 0 m b zero) = true /\ hold (SetParkConfig 0 m b zero) = 0.
Proof. intros Hm. split; [|done]. unfold parkEnabled; simpl. repeat case_match; simpl in *; lia. Qed.

End Park.
