(* ===== verification/Scheduler.v ===== *)
(** * The priority scheduler (src/internal/queue/scheduler.go)

    [Scheduler] models the slot gate: every critical section under [s.mu] is a
    function on [sched], a waiter's channel is the identity of its [Acquire]
    call.  [Calls] puts any number of concurrent [Acquire]/[Release] callers
    around it, one event per critical section or channel operation, in any
    order.  [Spec] is the abstract contract (one arrival-ordered line, highest
    class first) that the two FIFO queues refine. *)

From S2P Require Import Prelude.
From S2P Require Import Park.
#[local] Set Warnings "-clear-no-such-hyp,-level-tolerance".
Local Open Scope Z_scope.

Module Scheduler.

(** ** Data *)

Inductive Class := Batch | Interactive.

#[global] Instance Class_eq_dec : EqDecision Class.
Proof. solve_decision. Defined.

Definition Class_String (c : Class) : string :=
  match c with Interactive => "interactive" | Batch => "batch" end.

Definition MaxWaitersPerClass : Z := 256.

(** A waiter channel is named by the [Acquire] call that made it; a context by
    a number, 0 being [context.Background()].  [interactiveWaiting] is the
    content of the channel of capacity 1. *)
Record sched := Sched {
  inflight : Z;
  maxInflight : Z;
  iq : list nat;
  bq : list nat;
  maxWaiters : Z;
  interactiveWaiting : bool;
  park : Park.parker;
  shutdownCtx : nat;
}.

Definition New : sched :=
  {| inflight := 0; maxInflight := 1; iq := []; bq := [];
     maxWaiters := MaxWaitersPerClass; interactiveWaiting := false;
     park := Park.zero; shutdownCtx := 0%nat |}.

Definition set_inflight (n : Z) (s : sched) : sched :=
  {| inflight := n; maxInflight := maxInflight s; iq := iq s; bq := bq s;
     maxWaiters := maxWaiters s; interactiveWaiting := interactiveWaiting s;
     park := park s; shutdownCtx := shutdownCtx s |}.

Definition set_queues (i b : list nat) (s : sched) : sched :=
  {| inflight := inflight s; maxInflight := maxInflight s; iq := i; bq := b;
     maxWaiters := maxWaiters s; interactiveWaiting := interactiveWaiting s;
     park := park s; shutdownCtx := shutdownCtx s |}.

Definition set_ping (p : bool) (s : sched) : sched :=
  {| inflight := inflight s; maxInflight := maxInflight s; iq := iq s; bq := bq s;
     maxWaiters := maxWaiters s; interactiveWaiting := p;
     park := park s; shutdownCtx := shutdownCtx s |}.

Definition SetMaxWaiters (n : Z) (s : sched) : sched :=
  if n <? 1 then s
  else {| inflight := inflight s; maxInflight := maxInflight s; iq := iq s; bq := bq s;
          maxWaiters := n; interactiveWaiting := interactiveWaiting s;
          park := park s; shutdownCtx := shutdownCtx s |}.

Definition SetMaxInflight (n : Z) (s : sched) : sched :=
  if n <? 1 then s
  else {| inflight := inflight s; maxInflight := n; iq := iq s; bq := bq s;
          maxWaiters := maxWaiters s; interactiveWaiting := interactiveWaiting s;
          park := park s; shutdownCtx := shutdownCtx s |}.

Definition set_park (p : Park.parker) (s : sched) : sched :=
  {| inflight := inflight s; maxInflight := maxInflight s; iq := iq s; bq := bq s;
     maxWaiters := maxWaiters s; interactiveWaiting := interactiveWaiting s;
     park := p; shutdownCtx := shutdownCtx s |}.

Definition SetShutdownContext (ctx : nat) (s : sched) : sched :=
  {| inflight := inflight s; maxInflight := maxInflight s; iq := iq s; bq := bq s;
     maxWaiters := maxWaiters s; interactiveWaiting := interactiveWaiting s;
     park := park s; shutdownCtx := ctx |}.

(** ** Helpers (caller holds [s.mu]) *)

Definition pingInteractiveLocked (s : sched) : sched := set_ping true s.

Definition queueLen (c : Class) (s : sched) : Z :=
  match c with
  | Interactive => Z.of_nat (length (iq s))
  | Batch => Z.of_nat (length (bq s))
  end.

Definition enqueue (c : Class) (w : nat) (s : sched) : sched :=
  match c with
  | Interactive => set_queues (iq s ++ [w]) (bq s) s
  | Batch => set_queues (iq s) (bq s ++ [w]) s
  end.

Definition dequeue (s : sched) : option nat * sched :=
  match iq s with
  | w :: rest => (Some w, set_queues rest (bq s) s)
  | [] => match bq s with
          | w :: rest => (Some w, set_queues (iq s) rest s)
          | [] => (None, s)
          end
  end.

Definition removeWaiter (c : Class) (w : nat) (s : sched) : bool * sched :=
  match c with
  | Interactive => match Park.splice_out w (iq s) with
                   | Some q => (true, set_queues q (bq s) s)
                   | None => (false, s)
                   end
  | Batch => match Park.splice_out w (bq s) with
             | Some q => (true, set_queues (iq s) q s)
             | None => (false, s)
             end
  end.

(** ** Operations *)

(** How the first critical section of [Acquire] ends. *)
Inductive entry := Granted | ErrQueueFull | Queued.

Definition Acquire_enter (c : Class) (w : nat) (s : sched) : entry * sched :=
  if inflight s <? maxInflight s then (Granted, set_inflight (inflight s + 1) s)
  else if maxWaiters s <=? queueLen c s then (ErrQueueFull, s)
  else
    let s := enqueue c w s in
    (Queued, match c with Interactive => pingInteractiveLocked s | Batch => s end).

(** [Release] returns the waiter whose channel it closes, if any. *)
Definition Release (s : sched) : option nat * sched :=
  match dequeue s with
  | (Some w, s') => (Some w, s')
  | (None, s') => (None, set_inflight (inflight s' - 1) s')
  end.

(** A receive on [InteractiveWaiting()]: [true] when a ping was buffered. *)
Definition InteractiveWaiting_recv (s : sched) : bool * sched :=
  (interactiveWaiting s, set_ping false s).

Record Stats_t := {
  Busy : bool;
  Inflight : Z;
  MaxInflight : Z;
  InteractiveDepth : Z;
  BatchDepth : Z;
  Parked : Z;
}.

Definition Stats (s : sched) : Stats_t :=
  {| Busy := 0 <? inflight s;
     Inflight := inflight s;
     MaxInflight := maxInflight s;
     InteractiveDepth := Z.of_nat (length (iq s));
     BatchDepth := Z.of_nat (length (bq s));
     Parked := Z.of_nat (length (Park.q (park s))) |}.

(** ** The abstract contract: one line of waiters in arrival order *)

Module Spec.

Record state := State {
  free : Z;
  line : list (Class * nat);
  cap : Z;
}.

(** The highest class first, first come first served inside a class. *)
Definition next (l : list (Class * nat)) : option (Class * nat) :=
  match filter (fun cw => cw.1 = Interactive) l with
  | cw :: _ => Some cw
  | [] => head l
  end.

Fixpoint drop_first (cw : Class * nat) (l : list (Class * nat)) : option (list (Class * nat)) :=
  match l with
  | [] => None
  | x :: rest => if decide (x = cw) then Some rest
                 else match drop_first cw rest with Some r => Some (x :: r) | None => None end
  end.

Definition depth (c : Class) (l : list (Class * nat)) : Z :=
  Z.of_nat (length (filter (fun cw => cw.1 = c) l)).

Definition acquire (c : Class) (w : nat) (s : state) : entry * state :=
  if 0 <? free s then (Granted, State (free s - 1) (line s) (cap s))
  else if cap s <=? depth c (line s) then (ErrQueueFull, s)
  else (Queued, State (free s) (line s ++ [(c, w)]) (cap s)).

Definition release (s : state) : option nat * state :=
  match next (line s) with
  | Some cw => (Some cw.2, State (free s) (default (line s) (drop_first cw (line s))) (cap s))
  | None => (None, State (free s + 1) (line s) (cap s))
  end.

Definition remove (c : Class) (w : nat) (s : state) : bool * state :=
  match drop_first (c, w) (line s) with
  | Some l => (true, State (free s) l (cap s))
  | None => (false, s)
  end.

End Spec.

(** A call to the scheduler and what its caller observes of it. *)
Inductive op := OpAcquire (c : Class) (w : nat) | OpRelease | OpRemove (c : Class) (w : nat).
Inductive obs := ObsEntry (e : entry) | ObsWoken (w : option nat) | ObsRemoved (b : bool).

Definition sched_op (o : op) (s : sched) : obs * sched :=
  match o with
  | OpAcquire c w => let '(e, s') := Acquire_enter c w s in (ObsEntry e, s')
  | OpRelease => let '(w, s') := Release s in (ObsWoken w, s')
  | OpRemove c w => let '(b, s') := removeWaiter c w s in (ObsRemoved b, s')
  end.

Definition spec_op (o : op) (s : Spec.state) : obs * Spec.state :=
  match o with
  | OpAcquire c w => let '(e, s') := Spec.acquire c w s in (ObsEntry e, s')
  | OpRelease => let '(w, s') := Spec.release s in (ObsWoken w, s')
  | OpRemove c w => let '(b, s') := Spec.remove c w s in (ObsRemoved b, s')
  end.

Fixpoint run_ops {S} (f : op -> S -> obs * S) (os : list op) (s : S) : list obs :=
  match os with
  | [] => []
  | o :: os' => let '(r, s') := f o s in r :: run_ops f os' s'
  end.

Definition abs (s : sched) (l : list (Class * nat)) : Spec.state :=
  Spec.State (maxInflight s - inflight s) l (maxWaiters s).

(** [l] is an arrival-ordered merge of the two queues. *)
Definition merges (s : sched) (l : list (Class * nat)) : Prop :=
  iq s = (filter (fun cw => cw.1 = Interactive) l).*2 /\
  bq s = (filter (fun cw => cw.1 = Batch) l).*2.

(** ** Concurrent callers *)

(** Where an [Acquire] call stands: blocked in its [select] on a channel that
    is open or closed; holding the slot; cancelled after the grant and about to
    hand the slot on; or returned. *)
Inductive caller :=
| Waiting (c : Class) (closed : bool)
| Holding (c : Class)
| HandingOn
| Failed
| Done.

Record system := System { sch : sched; callers : gmap nat caller }.

Definition set_caller (w : nat) (c : caller) (s : system) : system :=
  {| sch := sch s; callers := <[w := c]> (callers s) |}.

(** [close(w)]: closing a closed channel, or one nobody made, panics. *)
Definition close_waiter (ow : option nat) (s : system) : outcome system :=
  match ow with
  | None => Next s
  | Some w => match callers s !! w with
              | Some (Waiting c false) => Next (set_caller w (Waiting c true) s)
              | _ => Panic
              end
  end.

Inductive event :=
| EAcquire (c : Class) (w : nat)
| EWake (w : nat)
| ECancel (w : nat)
| EHandOn (w : nat)
| ERelease (w : nat).

Definition step (e : event) (s : system) : outcome system :=
  match e with
  | EAcquire c w =>
      match callers s !! w with
      | Some _ => Disabled
      | None =>
          let '(r, s') := Acquire_enter c w (sch s) in
          Next {| sch := s';
                  callers := <[w := match r with
                                    | Granted => Holding c
                                    | ErrQueueFull => Failed
                                    | Queued => Waiting c false
                                    end]> (callers s) |}
      end
  | EWake w =>
      match callers s !! w with
      | Some (Waiting c true) => Next (set_caller w (Holding c) s)
      | _ => Disabled
      end
  | ECancel w =>
      match callers s !! w with
      | Some (Waiting c _) =>
          let '(found, s') := removeWaiter c w (sch s) in
          Next {| sch := s';
                  callers := <[w := if found then Failed else HandingOn]> (callers s) |}
      | _ => Disabled
      end
  | EHandOn w =>
      match callers s !! w with
      | Some HandingOn =>
          let '(ow, s') := Release (sch s) in
          close_waiter ow {| sch := s'; callers := <[w := Failed]> (callers s) |}
      | _ => Disabled
      end
  | ERelease w =>
      match callers s !! w with
      | Some (Holding _) =>
          let '(ow, s') := Release (sch s) in
          close_waiter ow {| sch := s'; callers := <[w := Done]> (callers s) |}
      | _ => Disabled
      end
  end.

Definition configured (n waiters : Z) : sched := SetMaxWaiters waiters (SetMaxInflight n New).

Definition init (s : system) : Prop :=
  exists n waiters, s = {| sch := configured n waiters; callers := ∅ |}.

(** The callers that own a slot: holding it, granted and not yet awake, or
    granted and about to hand it on. *)
Definition owns (c : caller) : bool :=
  match c with Holding _ | HandingOn | Waiting _ true => true | _ => false end.

Definition holds (c : caller) : bool := match c with Holding _ => true | _ => false end.

(** ** The concrete queues refine the contract *)

Lemma drop_first_filter c w l :
  match Spec.drop_first (c, w) l, Park.splice_out w (filter (fun cw => cw.1 = c) l).*2 with
  | Some l', Some q => q = (filter (fun cw => cw.1 = c) l').*2 /\
      forall c', c' <> c -> filter (fun cw => cw.1 = c') l' = filter (fun cw => cw.1 = c') l
  | None, None => True
  | _, _ => False
  end.
Proof.
  induction l as [|[c1 w1] l IH]; simpl; [done|].
  rewrite filter_cons; simpl. case_decide as Heq; simplify_eq.
  - rewrite decide_True by done. simpl. rewrite decide_True by done. split; [done|].
    intros c' Hc'. by rewrite filter_cons, decide_False by (simpl; congruence).
  - case_decide as Hc; subst; simpl.
    + rewrite decide_False by congruence.
      destruct (Spec.drop_first (c, w) l), (Park.splice_out _ _); try done.
      destruct IH as [-> Ho]. split.
      * by rewrite filter_cons, decide_True by done.
      * intros c' Hc'. rewrite !filter_cons, !decide_False by (simpl; congruence). by apply Ho.
    + destruct (Spec.drop_first (c, w) l), (Park.splice_out _ _); try done.
      destruct IH as [-> Ho]. split.
      * by rewrite filter_cons, decide_False by done.
      * intros c' Hc'. rewrite !filter_cons. simpl. case_decide; [f_equal|]; by apply Ho.
Qed.

Lemma filter_class_app c l c' w :
  (filter (fun cw => cw.1 = c) (l ++ [(c', w)])).*2 =
  (filter (fun cw : Class * nat => cw.1 = c) l).*2 ++ (if decide (c' = c) then [w] else []).
Proof. rewrite filter_app, fmap_app, filter_cons. simpl. by case_decide. Qed.

Lemma depth_merges s l c : merges s l -> Spec.depth c l = queueLen c s.
Proof.
  intros [Hi Hb]. unfold Spec.depth, queueLen.
  destruct c; rewrite ?Hi, ?Hb, length_fmap; done.
Qed.

(** Dropping the entry that [dequeue] picks leaves a merge of the remainder. *)
Lemma dequeue_refines s l :
  merges s l ->
  match Spec.next l, dequeue s with
  | Some cw, (ow, s') => ow = Some cw.2 /\
      exists l', Spec.drop_first cw l = Some l' /\ merges s' l' /\
      inflight s' = inflight s /\ maxInflight s' = maxInflight s /\ maxWaiters s' = maxWaiters s
  | None, (ow, s') => ow = None /\ s' = s
  end.
Proof.
  intros [Hi Hb]. unfold Spec.next, dequeue.
  destruct (filter (fun cw => cw.1 = Interactive) l) as [|[c w] fl] eqn:Hf.
  - rewrite Hi. simpl. destruct l as [|[c w] l]; simpl in *; [by rewrite Hb|].
    rewrite filter_cons in Hf, Hb. simpl in *.
    destruct c; simpl in *; [|done]. rewrite Hb. simpl. split; [done|].
    exists l. rewrite decide_True by done. split; [done|]. split; [|done].
    split; simpl; [|done]. by rewrite Hf.
  - assert (c = Interactive) as ->.
    { assert ((c, w) ∈ filter (fun cw => cw.1 = Interactive) l) as Hin by (rewrite Hf; set_solver).
      by apply list_elem_of_filter in Hin as [? _]. }
    rewrite Hi. simpl. split; [done|].
    pose proof (drop_first_filter Interactive w l) as Hd. rewrite Hf in Hd. simpl in Hd.
    rewrite decide_True in Hd by done.
    destruct (Spec.drop_first (Interactive, w) l) as [l'|]; [|done].
    destruct Hd as [Hq Ho]. exists l'. split; [done|]. split; [|done].
    split; simpl; [done|]. rewrite Hb. by rewrite Ho.
Qed.

Lemma removeWaiter_refines c w s l :
  merges s l ->
  match Spec.drop_first (c, w) l, removeWaiter c w s with
  | Some l', (b, s') => b = true /\ merges s' l' /\
      inflight s' = inflight s /\ maxInflight s' = maxInflight s /\ maxWaiters s' = maxWaiters s
  | None, (b, s') => b = false /\ s' = s
  end.
Proof.
  intros [Hi Hb]. pose proof (drop_first_filter c w l) as Hd. unfold removeWaiter.
  destruct c; rewrite ?Hi, ?Hb;
    destruct (Spec.drop_first _ l), (Park.splice_out _ _); try done.
  all: destruct Hd as [-> Ho]; split; [done|]; split; [|done]; split; simpl; try done.
  all: by rewrite Ho.
Qed.

(** Each operation of the scheduler is matched by the contract's. *)
Lemma op_refines o s l :
  merges s l -> exists l',
  spec_op o (abs s l) = ((sched_op o s).1, abs (sched_op o s).2 l') /\ merges (sched_op o s).2 l'.
Proof.
  intros Hm. destruct o as [c w| |c w]; simpl.
  - unfold Spec.acquire, Acquire_enter, abs; simpl. rewrite (depth_merges _ _ _ Hm).
    assert (0 <? maxInflight s - inflight s = (inflight s <? maxInflight s)) as ->.
    { destruct (Z.ltb_spec 0 (maxInflight s - inflight s)), (Z.ltb_spec (inflight s) (maxInflight s)); lia. }
    destruct (inflight s <? maxInflight s); simpl.
    { exists l. split; [|exact Hm]. do 2 f_equal. lia. }
    destruct (maxWaiters s <=? queueLen c s); simpl; [by exists l|].
    exists (l ++ [(c, w)]). destruct Hm as [Hi Hb], c; simpl; (split; [done|]); split; simpl.
    all: rewrite filter_class_app, ?Hi, ?Hb; simpl; by rewrite ?app_nil_r.
  - pose proof (dequeue_refines _ _ Hm) as Hd. unfold Spec.release, Release, abs; simpl.
    destruct (Spec.next l) as [cw|], (dequeue s) as [ow s'].
    + destruct Hd as (-> & l' & -> & Hm' & E1 & E2 & E3). exists l'. simpl.
      rewrite E1, E2, E3. by split.
    + destruct Hd as [-> ->]. exists l. simpl. split; [|exact Hm]. do 2 f_equal. lia.
  - pose proof (removeWaiter_refines c w _ _ Hm) as Hd. unfold Spec.remove, abs; simpl.
    destruct (Spec.drop_first (c, w) l) as [l'|], (removeWaiter c w s) as [b s'].
    + destruct Hd as (-> & Hm' & E1 & E2 & E3). exists l'. simpl.
      rewrite E1, E2, E3. by split.
    + destruct Hd as [-> ->]. exists l. by split.
Qed.

(** ** The invariant of a scheduler with concurrent callers *)

Record inv (s : system) : Prop := {
  inv_iq : forall w, w ∈ iq (sch s) <-> callers s !! w = Some (Waiting Interactive false);
  inv_bq : forall w, w ∈ bq (sch s) <-> callers s !! w = Some (Waiting Batch false);
  inv_iq_nodup : NoDup (iq (sch s));
  inv_bq_nodup : NoDup (bq (sch s));
  inv_inflight : inflight (sch s) = Z.of_nat (count_map owns (callers s));
  inv_max : inflight (sch s) <= maxInflight (sch s);
  inv_max_pos : 1 <= maxInflight (sch s);
  inv_busy : iq (sch s) ++ bq (sch s) <> [] -> inflight (sch s) = maxInflight (sch s);
  inv_iq_cap : Z.of_nat (length (iq (sch s))) <= maxWaiters (sch s);
  inv_bq_cap : Z.of_nat (length (bq (sch s))) <= maxWaiters (sch s);
}.

Lemma sched_init_inv s : init s -> inv s.
Proof.
  intros (n & m & ->). unfold configured, SetMaxWaiters, SetMaxInflight, MaxWaitersPerClass.
  split; simpl; repeat case_match; simpl; rewrite ?Z.ltb_ge in *; try set_solver; try lia.
  all: try apply NoDup_nil_2; done.
Qed.

(** Waking the head of the line keeps the invariant: the slot just freed by a
    caller that owned it goes to a waiter, or back to the pool. *)
Lemma release_inv w c c' s :
  inv s -> callers s !! w = Some c -> owns c = true -> owns c' = false ->
  (forall k b, c <> Waiting k b) -> (forall k b, c' <> Waiting k b) ->
  exists s', close_waiter (Release (sch s)).1
               {| sch := (Release (sch s)).2; callers := <[w := c']> (callers s) |} = Next s' /\ inv s'.
Proof.
  intros [] Hw Hc Hc' Hnw Hnw'.
  assert (Hoff : forall w' k b, callers s !! w' = Some (Waiting k b) -> w' <> w).
  { intros w' k b Hw' ->. eapply Hnw. by simplify_eq. }
  pose proof (count_map_insert owns (callers s) w c c' Hw) as Hcnt.
  rewrite Hc, Hc' in Hcnt. simpl in Hcnt.
  assert (Hlk : forall w' k b, <[w := c']> (callers s) !! w' = Some (Waiting k b) <->
                               callers s !! w' = Some (Waiting k b)).
  { intros w' k b. destruct (decide (w' = w)) as [->|]; simplify_map_eq; [|done].
    split; intros; simplify_eq; naive_solver. }
  unfold Release, dequeue. destruct (iq (sch s)) as [|x q] eqn:Hi; [destruct (bq (sch s)) as [|x q] eqn:Hb|].
  - eexists. split; [done|]. split; simpl; rewrite ?Hi, ?Hb; try done; try lia.
    + intros w'. rewrite Hlk. apply inv_iq0.
    + intros w'. rewrite Hlk. apply inv_bq0.
  - assert (Hx : callers s !! x = Some (Waiting Batch false)) by (apply inv_bq0; set_solver).
    apply NoDup_cons in inv_bq_nodup0 as [Hxq Hq].
    simpl. rewrite (proj2 (Hlk _ _ _) Hx). eexists. split; [done|].
    pose proof (count_map_insert owns (<[w:=c']> (callers s)) x _ (Waiting Batch true)
                  (proj2 (Hlk _ _ _) Hx)) as Hcnt'. simpl in Hcnt'.
    split; simpl; rewrite ?Hi; try done; try lia.
    + intros w'. rewrite lookup_insert. case_decide; subst; [|rewrite Hlk; apply inv_iq0].
      split; [set_solver|done].
    + intros w'. rewrite lookup_insert. case_decide; subst; [set_solver|].
      rewrite Hlk, <- inv_bq0. set_solver.
    + intros _. apply inv_busy0. set_solver.
    + simpl in inv_bq_cap0. lia.
  - assert (Hx : callers s !! x = Some (Waiting Interactive false)) by (apply inv_iq0; set_solver).
    apply NoDup_cons in inv_iq_nodup0 as [Hxq Hq].
    simpl. rewrite (proj2 (Hlk _ _ _) Hx). eexists. split; [done|].
    pose proof (count_map_insert owns (<[w:=c']> (callers s)) x _ (Waiting Interactive true)
                  (proj2 (Hlk _ _ _) Hx)) as Hcnt'. simpl in Hcnt'.
    split; simpl; try done; try lia.
    + intros w'. rewrite lookup_insert. case_decide; subst; [set_solver|].
      rewrite Hlk, <- inv_iq0. set_solver.
    + intros w'. rewrite lookup_insert. case_decide; subst; [|rewrite Hlk; apply inv_bq0].
      split; [|done]. intros Hx'%inv_bq0. congruence.
    + intros _. apply inv_busy0. set_solver.
    + simpl in inv_iq_cap0. lia.
Qed.

Lemma enqueue_inv c w s :
  inv s -> callers s !! w = None -> inflight (sch s) = maxInflight (sch s) ->
  queueLen c (sch s) < maxWaiters (sch s) ->
  inv {| sch := (match c with
                 | Interactive => pingInteractiveLocked (enqueue c w (sch s))
                 | Batch => enqueue c w (sch s)
                 end);
         callers := <[w := Waiting c false]> (callers s) |}.
Proof.
  intros [] Hw Hfull Hlen.
  assert (Hni : w ∉ iq (sch s)) by (rewrite inv_iq0; congruence).
  assert (Hnb : w ∉ bq (sch s)) by (rewrite inv_bq0; congruence).
  pose proof (count_map_insert_fresh owns (callers s) w (Waiting c false) Hw) as Hcnt.
  unfold queueLen in Hlen.
  destruct c; split; simpl in *; try done; try lia.
  all: try (intros w'; rewrite ?elem_of_app, lookup_insert; case_decide; subst; naive_solver set_solver).
  all: try (apply NoDup_app; split; [done|]; split; [set_solver|apply NoDup_singleton]).
  all: rewrite length_app; simpl; lia.
Qed.

Lemma acquire_inv c w s s' :
  inv s -> step (EAcquire c w) s = Next s' -> inv s'.
Proof.
  intros Hi Hs. pose proof Hi as []. simpl in Hs. destruct (callers s !! w) eqn:Hw; [done|].
  unfold Acquire_enter in Hs. destruct (Z.ltb_spec (inflight (sch s)) (maxInflight (sch s))).
  - simplify_eq. pose proof (count_map_insert_fresh owns (callers s) w (Holding c) Hw) as Hcnt.
    simpl in Hcnt. split; simpl; try done; try lia.
    1,2: intros w'; rewrite lookup_insert; case_decide; subst; naive_solver.
    intros Hne. specialize (inv_busy0 Hne). lia.
  - destruct (Z.leb_spec (maxWaiters (sch s)) (queueLen c (sch s))); simplify_eq.
    + pose proof (count_map_insert_fresh owns (callers s) w Failed Hw) as Hcnt.
      simpl in Hcnt. split; simpl; try done; try lia.
      all: intros w'; rewrite lookup_insert; case_decide; subst; naive_solver.
    + apply enqueue_inv; [done..|lia|lia].
Qed.

(** Moving a call between two states of the same ownership, neither of them an
    open wait, keeps the invariant. *)
Lemma set_caller_inv w c c' s :
  inv s -> callers s !! w = Some c -> owns c = owns c' ->
  (forall k, c <> Waiting k false) -> (forall k, c' <> Waiting k false) ->
  inv (set_caller w c' s).
Proof.
  intros [] Hw Ho Hc Hc'.
  pose proof (count_map_insert owns (callers s) w c c' Hw) as Hcnt. rewrite Ho in Hcnt.
  split; simpl; try done; try lia.
  all: intros w'; rewrite lookup_insert; case_decide; subst; naive_solver.
Qed.

Lemma cancel_inv w s s' : inv s -> step (ECancel w) s = Next s' -> inv s'.
Proof.
  intros Hi Hs. pose proof Hi as []. simpl in Hs.
  destruct (callers s !! w) as [[c b| | | |]|] eqn:Hw; try done.
  unfold removeWaiter in Hs. destruct b.
  - assert (Hn : Park.splice_out w (iq (sch s)) = None /\ Park.splice_out w (bq (sch s)) = None).
    { split; apply Park.splice_out_None; rewrite ?inv_iq0, ?inv_bq0; congruence. }
    destruct Hn as [Hn1 Hn2]. rewrite Hn1, Hn2 in Hs. destruct c; simplify_eq.
    all: by eapply (set_caller_inv w _ HandingOn).
  - pose proof (count_map_insert owns (callers s) w _ Failed Hw) as Hcnt. simpl in Hcnt.
    destruct c.
    + destruct (Park.splice_out w (bq (sch s))) as [l|] eqn:Hsp.
      2: { apply Park.splice_out_None in Hsp. by rewrite inv_bq0 in Hsp. }
      simplify_eq. pose proof (Park.splice_out_perm _ _ _ Hsp) as Hp.
      destruct (Park.splice_out_NoDup _ _ _ Hsp inv_bq_nodup0) as [Hnd Hnin].
      split; simpl; try done; try lia.
      * intros w'. rewrite lookup_insert. case_decide; subst; naive_solver.
      * intros w'. rewrite lookup_insert. case_decide; subst; [naive_solver|].
        rewrite <- inv_bq0, Hp. set_solver.
      * intros _. apply inv_busy0. intros [_ Hx]%app_eq_nil. rewrite Hx in Hp.
        by apply Permutation_nil_cons in Hp.
      * apply Park.splice_out_length in Hsp. lia.
    + destruct (Park.splice_out w (iq (sch s))) as [l|] eqn:Hsp.
      2: { apply Park.splice_out_None in Hsp. by rewrite inv_iq0 in Hsp. }
      simplify_eq. pose proof (Park.splice_out_perm _ _ _ Hsp) as Hp.
      destruct (Park.splice_out_NoDup _ _ _ Hsp inv_iq_nodup0) as [Hnd Hnin].
      split; simpl; try done; try lia.
      * intros w'. rewrite lookup_insert. case_decide; subst; [naive_solver|].
        rewrite <- inv_iq0, Hp. set_solver.
      * intros w'. rewrite lookup_insert. case_decide; subst; naive_solver.
      * intros _. apply inv_busy0. intros [Hx _]%app_eq_nil. rewrite Hx in Hp.
        by apply Permutation_nil_cons in Hp.
      * apply Park.splice_out_length in Hsp. lia.
Qed.

Lemma sched_step_inv s e s' : inv s -> step e s = Next s' -> inv s'.
Proof.
  intros Hi Hs. destruct e as [c w|w|w|w|w].
  - by eapply acquire_inv.
  - simpl in Hs. destruct (callers s !! w) as [[c []| | | |]|] eqn:Hw; simplify_eq.
    by eapply set_caller_inv.
  - by eapply cancel_inv.
  - simpl in Hs. destruct (callers s !! w) as [[| | | |]|] eqn:Hw; try done.
    destruct (release_inv w _ Failed s Hi Hw) as (s'' & Hc & ?); try done.
    destruct (Release (sch s)). simpl in Hc. congruence.
  - simpl in Hs. destruct (callers s !! w) as [[|c| | |]|] eqn:Hw; try done.
    destruct (release_inv w _ Done s Hi Hw) as (s'' & Hc & ?); try done.
    destruct (Release (sch s)). simpl in Hc. congruence.
Qed.

Lemma step_no_panic s e : inv s -> step e s <> Panic.
Proof.
  intros Hi. destruct e as [c w|w|w|w|w]; simpl.
  - case_match; [done|]. by destruct (Acquire_enter c w (sch s)).
  - repeat case_match; done.
  - case_match; [|done]. case_match; try done. by destruct (removeWaiter _ _ _).
  - destruct (callers s !! w) as [[| | | |]|] eqn:Hw; try done.
    destruct (release_inv w _ Failed s Hi Hw) as (s'' & Hc & ?); try done.
    destruct (Release (sch s)). simpl in Hc. by rewrite Hc.
  - destruct (callers s !! w) as [[|c| | |]|] eqn:Hw; try done.
    destruct (release_inv w _ Done s Hi Hw) as (s'' & Hc & ?); try done.
    destruct (Release (sch s)). simpl in Hc. by rewrite Hc.
Qed.

Lemma reachable_system_inv s : reachable step init s -> inv s.
Proof. apply reachable_inv; eauto using sched_init_inv, sched_step_inv. Qed.

(** The limits are set before the first caller. *)
Lemma step_limits s e s' : step e s = Next s' ->
  maxInflight (sch s') = maxInflight (sch s) /\ maxWaiters (sch s') = maxWaiters (sch s).
Proof.
  assert (forall ow s0 s1, close_waiter ow s0 = Next s1 -> sch s1 = sch s0) as Hc.
  { intros [w|] s0 s1; simpl; [|by intros [= <-]]. destruct (callers s0 !! w) as [[? []| | | |]|]; try done. by intros [= <-]. }
  assert (forall s0 ow s1, Release s0 = (ow, s1) -> maxInflight s1 = maxInflight s0 /\ maxWaiters s1 = maxWaiters s0) as Hr.
  { intros s0 ow s1. unfold Release, dequeue. destruct (iq s0); [destruct (bq s0)|]; by intros [= <- <-]. }
  destruct e as [c w|w|w|w|w]; simpl; destruct (callers s !! w) as [[c0 closed|c0| | |]|]; try done.
  - unfold Acquire_enter. repeat case_match; simplify_eq; intros [= <-]; simpl; try done; by destruct c.
  - destruct closed; [|done]. by intros [= <-].
  - unfold removeWaiter. intros H. repeat case_match; simplify_eq/=; done.
  - destruct (Release (sch s)) as [ow s1] eqn:E. intros H%Hc. rewrite H. by eapply Hr.
  - destruct (Release (sch s)) as [ow s1] eqn:E. intros H%Hc. rewrite H. by eapply Hr.
Qed.

(** Each class's queue is its callers that wait to be granted. *)
Definition queued (c : Class) (x : caller) : bool :=
  match x with Waiting c' false => bool_decide (c' = c) | _ => false end.

Lemma queued_length s c : inv s ->
  count_map (queued c) (callers s) = length (match c with Interactive => iq (sch s) | Batch => bq (sch s) end).
Proof.
  intros Hi. set (l := match c with Interactive => _ | Batch => _ end).
  assert (NoDup l) as Hnd by (destruct c; apply Hi).
  assert (forall w, w ∈ l <-> callers s !! w = Some (Waiting c false)) as Hl by (intros w; destruct c; apply Hi).
  unfold count_map. rewrite <- size_dom, <- (size_list_to_set (C := gset nat) l Hnd). f_equal. apply set_eq. intros w.
  rewrite elem_of_list_to_set, Hl, elem_of_dom. unfold is_Some. setoid_rewrite map_lookup_filter_Some. simpl. split.
  - intros (x & Hw & Hx). destruct x as [c' []| | | |]; try done. simpl in Hx. by apply bool_decide_eq_true in Hx as ->.
  - intros Hw. eexists. split; [done|]. simpl. by apply bool_decide_eq_true.
Qed.

Lemma count_holds_owns (m : gmap nat caller) : (count_map holds m <= count_map owns m)%nat.
Proof.
  apply count_map_mono. intros c. by destruct c as [? []| | | |].
Qed.

Lemma run_refines os s l :
  merges s l -> run_ops sched_op os s = run_ops spec_op os (abs s l).
Proof.
  revert s l. induction os as [|o os IH]; intros s l Hm; simpl; [done|].
  destruct (op_refines o s l Hm) as (l' & -> & Hm'). destruct (sched_op o s) as [r s']. simpl in *.
  f_equal. by apply IH.
Qed.

Lemma configured_idle n waiters :
  inflight (configured n waiters) = 0 /\ iq (configured n waiters) = [] /\
  bq (configured n waiters) = [].
Proof.
  unfold configured, SetMaxWaiters, SetMaxInflight.
  by destruct (waiters <? 1), (n <? 1).
Qed.

(** ** Properties *)

(** C4: Mutual exclusion: in every interleaving of any number of callers at most
    [maxInflight] of them hold the GPU, the counter never leaves
    [0..maxInflight] and each class's queue stays within its cap. *)
Theorem slots_bounded s :
  reachable step init s ->
  Z.of_nat (count_map holds (callers s)) <= maxInflight (sch s) /\
  0 <= inflight (sch s) <= maxInflight (sch s) /\
  Z.of_nat (length (iq (sch s))) <= maxWaiters (sch s) /\
  Z.of_nat (length (bq (sch s))) <= maxWaiters (sch s).
Proof.
  intros []%reachable_system_inv. pose proof (count_holds_owns (callers s)). lia.
Qed.

(** No slot leaks and no wake-up is lost: the counter is exactly the number of
    callers that own a slot (cancellations and hand-ons included), a queued
    caller is in exactly its class's queue once, and callers are queued only
    while every slot is owned. *)
Theorem slots_accounted s :
  reachable step init s ->
  inflight (sch s) = Z.of_nat (count_map owns (callers s)) /\
  (forall w, w ∈ iq (sch s) <-> callers s !! w = Some (Waiting Interactive false)) /\
  (forall w, w ∈ bq (sch s) <-> callers s !! w = Some (Waiting Batch false)) /\
  NoDup (iq (sch s)) /\ NoDup (bq (sch s)) /\
  ((exists w c, callers s !! w = Some (Waiting c false)) ->
   Z.of_nat (count_map owns (callers s)) = maxInflight (sch s)).
Proof.
  intros []%reachable_system_inv. repeat (split; [done|]).
  intros (w & c & Hw). rewrite <- inv_inflight0. apply inv_busy0.
  intros [Hx Hy]%app_eq_nil.
  destruct c; [apply inv_bq0 in Hw|apply inv_iq0 in Hw]; rewrite ?Hx, ?Hy in Hw; by apply not_elem_of_nil in Hw.
Qed.

(** A waiter's channel is never closed twice and [Release] never wakes a call
    that is not waiting: no step of the scheduler panics. *)
Theorem scheduler_never_panics s e : reachable step init s -> step e s <> Panic.
Proof. intros Hs. by apply step_no_panic, reachable_system_inv. Qed.

(** C12: The two FIFO queues refine the abstract contract: for every sequence of
    acquires, releases and cancellations the scheduler answers exactly what a
    single arrival-ordered line answers that always serves the first
    interactive waiter, and a batch waiter only when none is interactive. *)
Theorem scheduler_refines_contract n waiters os :
  run_ops sched_op os (configured n waiters) =
  run_ops spec_op os (Spec.State (maxInflight (configured n waiters)) []
                                 (maxWaiters (configured n waiters))).
Proof.
  destruct (configured_idle n waiters) as (Hi & Hq & Hb).
  rewrite (run_refines os _ []) by (by split). unfold abs. by rewrite Hi, Z.sub_0_r.
Qed.

(** ** Witnesses *)

(** Slot taken by 0; interactive 2 overtakes batch 1; 1 is cancelled after the
    grant and hands the slot on to 3. *)
Definition demo_events : list event :=
  [EAcquire Batch 0; EAcquire Batch 1; EAcquire Interactive 2; EAcquire Batch 3;
   ERelease 0; EWake 2; ERelease 2; ECancel 1; EHandOn 1].

Definition demo : system := final step demo_events {| sch := configured 1 4; callers := ∅ |}.

Lemma sched_demo_reachable : reachable step init demo.
Proof. apply final_reachable, reach_init. by exists 1, 4. Qed.

Lemma slots_bounded_witness :
  callers demo !! 3%nat = Some (Waiting Batch true) /\
  Z.of_nat (count_map holds (callers demo)) <= 1.
Proof. split; [vm_compute; reflexivity|]. apply (slots_bounded _ sched_demo_reachable). Defined.

Lemma slots_accounted_witness :
  inflight (sch demo) = 1 /\ inflight (sch demo) = Z.of_nat (count_map owns (callers demo)).
Proof. split; [vm_compute; reflexivity|]. exact (proj1 (slots_accounted _ sched_demo_reachable)). Defined.

Lemma scheduler_never_panics_witness :
  reachable step init demo /\ step (EWake 3) demo <> Panic.
Proof. split; [apply sched_demo_reachable|]. apply (scheduler_never_panics _ _ sched_demo_reachable). Defined.

End Scheduler.
