(* ===== verification/Gate.v ===== *)
(** * The admission gate (src/internal/queue/gate.go)

    One Synchronous request through [Scheduler.Gate].  The code is sequential
    inside one request; what it observes of the rest of the broker (the yield
    state, how parking and acquiring end, the clock, how the upstream call
    ended) is its input, one [lap] per turn of the admission loop, and what it
    does is its output, a list of actions in program order ([AWatch] starts the goroutine
    that cancels the upstream call when the broker yields; [Front] runs it). *)

From S2P Require Import Prelude.
From S2P Require Import GoLib.
From S2P Require Import Park.
From S2P Require Import Scheduler.
#[local] Set Warnings "-clear-no-such-hyp,-level-tolerance".
Local Open Scope Z_scope.

Module Gate.

Import GoLib.

(** ** Observations *)

(** One turn of the admission loop.  Times are [time.Since(start)]. *)
Record lap := Lap {
  yielding : option string;    (* adm.Yielding(): the reason, when yielding *)
  since : Z;                   (* the clock when the yield branch ends *)
  park_res : Park.parkResult;  (* how parkFor returned, if called *)
  parked_for : Z;              (* time.Since(t0) *)
  acquire_err : bool;          (* s.Acquire(actx, class) != nil *)
  waited_at : Z;               (* the clock after Acquire *)
  yielding_after : bool;       (* the second adm.Yielding() *)
}.

Inductive ctx_err := CtxCanceled | CtxDeadlineExceeded.

#[global] Instance ctx_err_eq_dec : EqDecision ctx_err.
Proof. solve_decision. Defined.

(** The upstream call: it panicked, or it returned with the serve context
    cancelled or not and the context of the call in some state ([Front] has what
    cancels it: the watcher, the deadline, the client). *)
Record upstream := Upstream {
  panics : bool;
  serve_done : bool;
  upstream_ctx_err : option ctx_err;
}.

(** ** Actions *)

Inductive act :=
| ASetHeader (k v : string)
| AError (msg : string) (code : Z)
| APark
| AAcquired
| AReleased
| AContext (timeout : option Z)  (* the context of the upstream call *)
| AWatch                         (* the goroutine that watches serveDone *)
| ACancel
| AServe
| ARecord (class outcome : string) (wait : Z)
| ARecordPark (wait : Z).

(** What [Gate] is called with; [rec] is whether a Recorder is attached. *)
Record config := Config {
  class : Scheduler.Class;
  wait : Z;
  upstreamTimeout : Z;
  rec : bool;
  reqID : string;
}.

Inductive admission :=
| Refused
| SlotHeld (waited parkWait : Z) (wasParked : bool)
| Blocked.

Definition StatusServiceUnavailable : Z := 503.
Definition TrailerPrefix : string := "Trailer:".

(** ** The handler *)

Definition record (c : config) (cls outcome : string) (w : Z) : list act :=
  if rec c then [ARecord cls outcome w] else [].

Definition recordPark (c : config) (w : Z) : list act :=
  if rec c then [ARecordPark w] else [].

Definition retry_after_secs (retryAfter : Z) : Z :=
  let secs := Z.quot (Round Second retryAfter) Second in
  if secs <? 1 then 1 else secs.

Definition deferRequest (c : config) (cls status outcome reason : string) (retryAfter waited : Z)
  : list act :=
  [ASetHeader "Retry-After" (Itoa (retry_after_secs retryAfter));
   ASetHeader "X-Broker-Status" status;
   AError ("broker: " +:+ reason) StatusServiceUnavailable]
  ++ record c cls outcome waited.

Section Handler.
Context (s : Scheduler.sched) (c : config).

Definition cls : string := Scheduler.Class_String (class c).

Definition may_park : bool :=
  bool_decide (class c = Scheduler.Batch) && Park.parkEnabled (Scheduler.park s).

(** The admission loop, one [lap] per turn; [Blocked] when the observations end
    while the request is still waiting. *)
Fixpoint admitLoop (laps : list lap) (parkWait : Z) (wasParked : bool) : list act * admission :=
  match laps with
  | [] => ([], Blocked)
  | l :: laps' =>
      match yielding l with
      | Some reason =>
          if negb may_park then
            (deferRequest c cls "deferred" "deferred" ("yielding GPU: " +:+ reason) (wait c) (since l),
             Refused)
          else
            match park_res l with
            | Park.parkReleased =>
                let '(acts, r) := admitLoop laps' (parkWait + parked_for l) true in (APark :: acts, r)
            | Park.parkExpired =>
                (APark :: deferRequest c cls "deferred" "expired" "park hold exceeded" (wait c) (since l),
                 Refused)
            | Park.parkRejected =>
                (APark :: deferRequest c cls "deferred" "park_rejected" "park queue full" (wait c) 0,
                 Refused)
            | Park.parkCanceled => (APark :: record c cls "canceled" (since l), Refused)
            | Park.parkShutdown =>
                (APark :: deferRequest c cls "crash_failed" "crash_failed" "broker shutting down"
                                       (wait c) (since l), Refused)
            end
      | None =>
          let waited := waited_at l in
          if acquire_err l then
            (deferRequest c cls "deferred" "deferred" "GPU busy: wait budget exceeded" (wait c) waited,
             Refused)
          else if yielding_after l then
            if negb may_park then
              ([AAcquired; AReleased]
               ++ deferRequest c cls "deferred" "deferred" "yielding GPU" (wait c) waited, Refused)
            else
              let '(acts, r) := admitLoop laps' parkWait wasParked in (AAcquired :: AReleased :: acts, r)
          else ([AAcquired], SlotHeld waited parkWait wasParked)
      end
  end.

Definition final_outcome (u : upstream) : string :=
  if serve_done u then "preempted"
  else if bool_decide (upstream_ctx_err u = Some CtxDeadlineExceeded) then "upstream_timeout"
  else "served".

(** From the slot to the deferred [cancel] and [Release], which also run when
    the upstream handler panics. *)
Definition serve (waited parkWait : Z) (wasParked : bool) (u : upstream) : list act :=
  [AContext (if 0 <? upstreamTimeout c then Some (upstreamTimeout c) else None); AWatch;
   ASetHeader "X-Broker-Status" "served";
   ASetHeader "X-Broker-Wait-Ms" (Itoa (Milliseconds waited));
   ASetHeader (TrailerPrefix +:+ "X-Broker-Status") "served";
   AServe]
  ++ (if panics u then []
      else
        let outcome := final_outcome u in
        [ASetHeader (TrailerPrefix +:+ "X-Broker-Status") outcome]
        ++ (if wasParked && bool_decide (outcome = "served") then recordPark c parkWait else [])
        ++ record c cls outcome waited)
  ++ [ACancel; AReleased].

Definition handle (laps : list lap) (u : upstream) : list act * admission :=
  let '(acts, r) := admitLoop laps 0 false in
  (ASetHeader "X-Broker-Request-Id" (reqID c) :: acts
   ++ match r with SlotHeld waited parkWait wasParked => serve waited parkWait wasParked u | _ => [] end,
   r).

End Handler.

(** ** Reading a trace *)

(** Run the slot operations of a trace from [n] held slots: [None] when a slot is
    released that is not held or the upstream is called without exactly one. *)
Fixpoint slot_trace (n : Z) (acts : list act) : option Z :=
  match acts with
  | [] => Some n
  | AAcquired :: rest => slot_trace (n + 1) rest
  | AReleased :: rest => if n <? 1 then None else slot_trace (n - 1) rest
  | AServe :: rest => if n =? 1 then slot_trace n rest else None
  | _ :: rest => slot_trace n rest
  end.

Fixpoint outcomes (acts : list act) : list string :=
  match acts with
  | [] => []
  | ARecord _ o _ :: rest => o :: outcomes rest
  | _ :: rest => outcomes rest
  end.

Definition is_park (a : act) : bool := match a with APark => true | _ => false end.

(** The value a header has after the actions, [h] being its value before. *)
Fixpoint header (k : string) (h : option string) (acts : list act) : option string :=
  match acts with
  | [] => h
  | ASetHeader k' v :: rest => header k (if decide (k' = k) then Some v else h) rest
  | _ :: rest => header k h rest
  end.

Fixpoint status_code (acts : list act) : option Z :=
  match acts with
  | [] => None
  | AError _ code :: _ => Some code
  | _ :: rest => status_code rest
  end.

(** A lap after which the loop goes round again. *)
Definition retries (s : Scheduler.sched) (c : config) (l : lap) : bool :=
  may_park s c &&
  match yielding l with
  | Some _ => bool_decide (park_res l = Park.parkReleased)
  | None => negb (acquire_err l) && yielding_after l
  end.

(** A lap that ends with the slot held outside a yield. *)
Definition clear (l : lap) : bool :=
  bool_decide (yielding l = None) && negb (acquire_err l) && negb (yielding_after l).

(** ** Traces *)

#[local] Arguments deferRequest : simpl never.
#[local] Arguments record : simpl never.
#[local] Arguments serve : simpl never.

Lemma slot_trace_app n a b :
  slot_trace n (a ++ b) = match slot_trace n a with Some m => slot_trace m b | None => None end.
Proof.
  revert n. induction a as [|x a IH]; intros n; [done|]. destruct x; simpl; try apply IH.
  - by destruct (n <? 1).
  - by destruct (n =? 1).
Qed.

Lemma outcomes_app a b : outcomes (a ++ b) = outcomes a ++ outcomes b.
Proof. induction a as [|x a IH]; [done|]. destruct x; simpl; by rewrite IH. Qed.

Lemma slot_trace_defer n c k st o r ra w : slot_trace n (deferRequest c k st o r ra w) = Some n.
Proof. unfold deferRequest, record. by destruct (rec c). Qed.

Lemma slot_trace_record n c k o w : slot_trace n (record c k o w) = Some n.
Proof. unfold record. by destruct (rec c). Qed.

Lemma outcomes_record c k o w : rec c = true -> outcomes (record c k o w) = [o].
Proof. unfold record. by intros ->. Qed.

Create Rewrite HintDb gate.
#[export] Hint Rewrite slot_trace_app outcomes_app slot_trace_defer slot_trace_record : gate.

(** Case analysis of one turn of the admission loop. *)
Ltac lap_cases s c l :=
  destruct (may_park s c), (yielding l);
  [destruct (park_res l)|destruct (acquire_err l), (yielding_after l)..].

Definition parks (l : lap) : bool := match yielding l with Some _ => true | None => false end.

Definition retry_acts (l : lap) : list act :=
  if parks l then [APark] else [AAcquired; AReleased].

(** A turn that goes round again only adds its park or its acquire-release. *)
Lemma admit_retry s c l laps pw wp :
  retries s c l = true ->
  admitLoop s c (l :: laps) pw wp =
  let '(acts, r) := admitLoop s c laps (if parks l then pw + parked_for l else pw) (wp || parks l) in
  (retry_acts l ++ acts, r).
Proof.
  unfold retries, retry_acts, parks. intros Hr. simpl.
  destruct (may_park s c); [|done]. destruct (yielding l); simpl in *.
  - apply bool_decide_eq_true in Hr as ->. simpl. rewrite orb_true_r.
    by destruct (admitLoop _ _ _ _ _).
  - destruct (acquire_err l); [done|]. simpl in Hr. rewrite Hr. simpl. rewrite orb_false_r.
    by destruct (admitLoop _ _ _ _ _).
Qed.

(** A turn that does not go round again decides the request. *)
Lemma admit_decides s c l laps pw wp :
  retries s c l = false -> admitLoop s c (l :: laps) pw wp = admitLoop s c [l] pw wp.
Proof.
  unfold retries. simpl.
  by destruct (may_park s c), (yielding l), (acquire_err l), (yielding_after l), (park_res l).
Qed.

Inductive turn_spec (s : Scheduler.sched) (c : config) (l : lap) (pw : Z) (wp : bool) :
  list act * admission -> Prop :=
| turn_clear : clear l = true ->
    turn_spec s c l pw wp ([AAcquired], SlotHeld (waited_at l) pw wp)
| turn_canceled : may_park s c = true -> clear l = false ->
    turn_spec s c l pw wp (APark :: record c (cls c) "canceled" (since l), Refused)
| turn_refused pre st o r w :
    clear l = false ->
    (pre = [] \/ (pre = [APark] /\ may_park s c = true) \/ pre = [AAcquired; AReleased]) ->
    (st, o) ∈ [("deferred", "deferred"); ("deferred", "expired"); ("deferred", "park_rejected");
              ("crash_failed", "crash_failed")] ->
    turn_spec s c l pw wp (pre ++ deferRequest c (cls c) st o r (wait c) w, Refused).

Lemma turn_spec_holds s c l pw wp :
  retries s c l = false -> turn_spec s c l pw wp (admitLoop s c [l] pw wp).
Proof.
  unfold retries. intros Hr. simpl.
  destruct (yielding l) as [reason|] eqn:Hy.
  - assert (Hc : clear l = false) by (unfold clear; by rewrite Hy).
    destruct (may_park s c) eqn:Hm; simpl in *.
    + destruct (park_res l) eqn:Hp; try done.
      2, 4: apply (turn_refused _ _ _ _ _ [APark]); [done|by right; left|set_solver].
      * apply (turn_refused _ _ _ _ _ [APark]); [done|by right; left|set_solver].
      * by apply turn_canceled.
    + apply (turn_refused _ _ _ _ _ []); [done|by left|set_solver].
  - destruct (acquire_err l) eqn:Ha; simpl in *.
    + apply (turn_refused _ _ _ _ _ []); [|by left|set_solver].
      unfold clear. by rewrite Ha, andb_false_r.
    + destruct (yielding_after l) eqn:Hya; simpl in *.
      * destruct (may_park s c); [done|].
        apply (turn_refused _ _ _ _ _ [AAcquired; AReleased]); [|by right; right|set_solver].
        unfold clear. by rewrite Hya, andb_false_r.
      * apply turn_clear. unfold clear. by rewrite Hy, Ha, Hya.
Qed.

Definition parked_total (laps : list lap) : Z :=
  foldr (fun l acc => (if parks l then parked_for l else 0) + acc) 0 laps.

(** The whole loop: turns that go round again, then the turn that decides, or
    the end of the observations. *)
Lemma admit_split s c laps pw wp :
  (Forall (fun l => retries s c l = true) laps /\
   admitLoop s c laps pw wp = (flat_map retry_acts laps, Blocked)) \/
  exists pre l post acts r,
    laps = pre ++ l :: post /\ Forall (fun l => retries s c l = true) pre /\
    retries s c l = false /\
    turn_spec s c l (pw + parked_total pre) (wp || existsb parks pre) (acts, r) /\
    admitLoop s c laps pw wp = (flat_map retry_acts pre ++ acts, r).
Proof.
  revert pw wp. induction laps as [|l laps IH]; intros pw wp; [by left|].
  destruct (retries s c l) eqn:Hr.
  - rewrite (admit_retry _ _ _ _ _ _ Hr).
    destruct (IH (if parks l then pw + parked_for l else pw) (wp || parks l))
      as [[Hall ->]|(pre & l' & post & acts & r & -> & Hpre & Hl' & Ht & ->)].
    + left. split; [by constructor|done].
    + right. exists (l :: pre), l', post, acts, r.
      split; [done|]. split; [by constructor|]. split; [done|]. split.
      * simpl. rewrite orb_assoc.
        replace (pw + _) with ((if parks l then pw + parked_for l else pw) + parked_total pre);
          [done|]. destruct (parks l); lia.
      * simpl. by rewrite app_assoc.
  - right. rewrite (admit_decides _ _ _ _ _ _ Hr).
    pose proof (turn_spec_holds s c l pw wp Hr) as Ht.
    destruct (admitLoop s c [l] pw wp) as [acts r] eqn:E. exists [], l, laps, acts, r.
    repeat (split; [done || constructor|]). split; [|done].
    simpl. by rewrite Z.add_0_r, orb_false_r.
Qed.

Lemma slot_trace_retries laps : slot_trace 0 (flat_map retry_acts laps) = Some 0.
Proof.
  induction laps as [|l laps IH]; simpl; [done|].
  unfold retry_acts. by destruct (parks l).
Qed.

Lemma outcomes_retries laps : outcomes (flat_map retry_acts laps) = [].
Proof.
  induction laps as [|l laps IH]; simpl; [done|].
  unfold retry_acts. by destruct (parks l).
Qed.

Lemma no_serve_retries laps : AServe ∉ flat_map retry_acts laps.
Proof.
  induction laps as [|l laps IH]; simpl; [apply not_elem_of_nil|].
  unfold retry_acts. destruct (parks l); set_solver.
Qed.

Lemma no_serve_record c k o w : AServe ∉ record c k o w.
Proof. unfold record. destruct (rec c); set_solver. Qed.

Lemma no_serve_defer c k st o r ra w : AServe ∉ deferRequest c k st o r ra w.
Proof. unfold deferRequest. pose proof (no_serve_record c k o w). set_solver. Qed.

Lemma outcomes_serve c w pw wp u :
  rec c = true ->
  outcomes (serve c w pw wp u) = if panics u then [] else [final_outcome u].
Proof.
  intros Hr. unfold serve, recordPark, record. rewrite Hr. simpl.
  by destruct (panics u), wp, (bool_decide (final_outcome u = "served")).
Qed.

Lemma serve_slots c w pw wp u : slot_trace 1 (serve c w pw wp u) = Some 0.
Proof.
  unfold serve, recordPark, record. simpl.
  by destruct (panics u), wp, (bool_decide (final_outcome u = "served")), (rec c).
Qed.

(** How many outcomes a request leaves. *)
Lemma outcomes_count s c laps u :
  rec c = true ->
  length (outcomes (handle s c laps u).1) =
    match (handle s c laps u).2 with Blocked => 0 | Refused => 1 | SlotHeld _ _ _ => if panics u then 0 else 1 end%nat.
Proof.
  intros Hr. unfold handle.
  destruct (admit_split s c laps 0 false) as [[_ ->]|(pre & l & post & acts & r & _ & _ & _ & Ht & ->)];
    simpl; autorewrite with gate; rewrite outcomes_retries; [done|].
  inversion Ht as [Hc|Hp Hc|p st o rs w Hc Hpre Ho]; subst; simpl.
  - transitivity (length (if panics u then [] else [final_outcome u])); [f_equal; by apply outcomes_serve|].
    by destruct (panics u).
  - by rewrite app_nil_r, outcomes_record.
  - destruct Hpre as [->|[[-> _]| ->]]; simpl; autorewrite with gate; simpl; by rewrite app_nil_r, outcomes_record.
Qed.

Lemma clear_not_retries s c l : clear l = true -> retries s c l = false.
Proof.
  unfold clear, retries.
  by destruct (may_park s c), (yielding l), (acquire_err l), (yielding_after l).
Qed.

(** The first element that fails a test is unique. *)
Lemma first_non_retry s c pre l post pre' l' post' :
  pre ++ l :: post = pre' ++ l' :: post' ->
  Forall (fun l => retries s c l = true) pre -> Forall (fun l => retries s c l = true) pre' ->
  retries s c l = false -> retries s c l' = false -> pre = pre' /\ l = l'.
Proof.
  revert pre'. induction pre as [|x pre IH]; intros [|y pre'] He Hp Hp' Hl Hl'; simplify_eq/=.
  - done.
  - apply Forall_cons in Hp' as [Hx _]. congruence.
  - apply Forall_cons in Hp as [Hx _]. congruence.
  - apply Forall_cons in Hp as [_ Hp]. apply Forall_cons in Hp' as [_ Hp'].
    by destruct (IH _ H0 Hp Hp' Hl Hl') as [-> ->].
Qed.

Lemma no_park_record c k o w : APark ∉ record c k o w.
Proof. unfold record. destruct (rec c); set_solver. Qed.

Lemma no_park_serve c w pw wp u : APark ∉ serve c w pw wp u.
Proof.
  unfold serve, recordPark, record.
  destruct (panics u), wp, (bool_decide (final_outcome u = "served")), (rec c); set_solver.
Qed.

Lemma Round_Second d :
  0 <= d -> d + Second <= maxInt64 ->
  Z.quot (Round Second d) Second = (d + Second / 2) / Second.
Proof.
  intros Hd Hm. unfold Round, Second, maxInt64 in *.
  rewrite (proj2 (Z.leb_gt _ _)) by lia. rewrite (proj2 (Z.ltb_ge d 0)) by lia.
  rewrite Z.rem_mod_nonneg by lia. change (1000000000 / 2) with 500000000.
  pose proof (Z.div_mod d 1000000000 ltac:(lia)) as Hdm.
  pose proof (Z.mod_pos_bound d 1000000000 ltac:(lia)) as Hb.
  set (r := d mod 1000000000) in *. set (k := d / 1000000000) in *.
  destruct (Z.ltb_spec (r + r) 1000000000).
  - rewrite Z.quot_div_nonneg by lia. replace (d - r) with (k * 1000000000) by lia.
    rewrite Z.div_mul by lia. apply Z.div_unique with (r + 500000000); lia.
  - assert (wrap64 (d + 1000000000 - r) = d + 1000000000 - r) as ->.
    { unfold wrap64. change (2 ^ 64) with 18446744073709551616.
      change (2 ^ 63) with 9223372036854775808 in *. rewrite Z.mod_small; lia. }
    rewrite (proj2 (Z.ltb_lt _ _)) by lia.
    rewrite Z.quot_div_nonneg by lia.
    replace (d + 1000000000 - r) with ((k + 1) * 1000000000) by lia.
    rewrite Z.div_mul by lia. apply Z.div_unique with (r - 500000000); lia.
Qed.

Lemma retry_after_secs_pos d : 1 <= retry_after_secs d.
Proof. unfold retry_after_secs. destruct (Z.ltb_spec (Z.quot (Round Second d) Second) 1); lia. Qed.

Lemma header_app k h a b : header k h (a ++ b) = header k (header k h a) b.
Proof. revert h. induction a as [|x a IH]; intros h; [done|]. destruct x; simpl; apply IH. Qed.

Lemma status_code_retries laps acts :
  status_code (flat_map retry_acts laps ++ acts) = status_code acts.
Proof.
  induction laps as [|l laps IH]; simpl; [done|]. unfold retry_acts. by destruct (parks l).
Qed.

Lemma header_retries k h laps : header k h (flat_map retry_acts laps) = h.
Proof.
  induction laps as [|l laps IH]; simpl; [done|]. unfold retry_acts. by destruct (parks l).
Qed.

Lemma no_park_defer c k st o r ra w : APark ∉ deferRequest c k st o r ra w.
Proof. unfold deferRequest. pose proof (no_park_record c k o w). set_solver. Qed.

(** ** Properties *)

(** The slot is balanced on every path (deferral, parking, yield after the
    grant, normal end, panic of the upstream handler): each acquire is released
    exactly once, nothing is released that is not held, and the upstream is only
    called with exactly one slot held. *)
Theorem gate_slot_balance s c laps u : slot_trace 0 (handle s c laps u).1 = Some 0.
Proof.
  unfold handle.
  destruct (admit_split s c laps 0 false) as [[_ ->]|(pre & l & post & acts & r & _ & _ & _ & Ht & ->)];
    simpl; autorewrite with gate; rewrite slot_trace_retries; [done|].
  inversion Ht as [Hc|Hp Hc|p st o rs w Hc Hpre Ho]; subst; simpl.
  - apply serve_slots.
  - by autorewrite with gate.
  - destruct Hpre as [->|[[-> _]| ->]]; simpl; by autorewrite with gate.
Qed.

(** Every request that ends is tallied exactly once: a refused one with one
    of the deferral outcomes, a served one with the outcome of its upstream
    call; only a request still waiting, or whose handler panicked, leaves no
    tally. *)
Theorem gate_one_outcome s c laps u :
  rec c = true ->
  match (handle s c laps u).2 with
  | Blocked => outcomes (handle s c laps u).1 = []
  | Refused => exists o, outcomes (handle s c laps u).1 = [o] /\
      o ∈ ["deferred"; "expired"; "park_rejected"; "canceled"; "crash_failed"]
  | SlotHeld _ _ _ =>
      outcomes (handle s c laps u).1 = if panics u then [] else [final_outcome u]
  end.
Proof.
  intros Hr. unfold handle.
  destruct (admit_split s c laps 0 false) as [[_ ->]|(pre & l & post & acts & r & _ & _ & _ & Ht & ->)];
    simpl; autorewrite with gate; rewrite outcomes_retries; [done|].
  inversion Ht as [Hc|Hp Hc|p st o rs w Hc Hpre Ho]; subst; simpl.
  - by apply outcomes_serve.
  - exists "canceled". rewrite app_nil_r, outcomes_record by done. split; [done|set_solver].
  - exists o. split; [|set_solver].
    destruct Hpre as [->|[[-> _]| ->]]; simpl; autorewrite with gate; simpl;
      by rewrite app_nil_r, outcomes_record.
Qed.

(** The upstream is called exactly when the loop reaches, after turns that
    all went round again, a turn outside a yield whose acquire succeeded and
    that was still outside a yield after the grant. *)
Theorem gate_serves_iff_clear s c laps u :
  AServe ∈ (handle s c laps u).1 <->
  exists pre l post, laps = pre ++ l :: post /\
    Forall (fun l => retries s c l = true) pre /\ clear l = true.
Proof.
  unfold handle.
  destruct (admit_split s c laps 0 false)
    as [[Hall ->]|(pre & l & post & acts & r & -> & Hpre & Hl & Ht & ->)]; simpl.
  - rewrite app_nil_r. split.
    + pose proof (no_serve_retries laps). set_solver.
    + intros (pre & l & post & -> & _ & Hc). apply Forall_app in Hall as [_ Hall].
      apply Forall_cons in Hall as [Hl _]. by rewrite (clear_not_retries s c l Hc) in Hl.
  - assert (Huniq : (exists pre' l' post', pre ++ l :: post = pre' ++ l' :: post' /\
      Forall (fun l => retries s c l = true) pre' /\ clear l' = true) <-> clear l = true).
    { split; [|by exists pre, l, post].
      intros (pre' & l' & post' & He & Hpre' & Hc).
      destruct (first_non_retry _ _ _ _ _ _ _ _ He Hpre Hpre' Hl (clear_not_retries s c l' Hc))
        as [_ ->]. done. }
    rewrite Huniq. clear Huniq.
    pose proof (no_serve_retries pre).
    inversion Ht as [Hc|Hp Hc|p st o rs w Hc Hp Ho]; subst; simpl; rewrite Hc.
    + split; [done|]. intros _. unfold serve. set_solver.
    + pose proof (no_serve_record c (cls c) "canceled" (since l)). set_solver.
    + pose proof (no_serve_defer c (cls c) st o rs (wait c) w).
      destruct Hp as [->|[[-> _]| ->]]; set_solver.
Qed.

(** An interactive request never parks, nor does any request when parking
    is disabled: a request that may not park has no park action and its
    admission loop never goes round a second time. *)
Theorem gate_interactive_never_parks s c laps u :
  class c = Scheduler.Interactive \/ Park.parkEnabled (Scheduler.park s) = false ->
  APark ∉ (handle s c laps u).1 /\
  (handle s c laps u).2 = match laps with [] => Blocked | l :: _ => (admitLoop s c [l] 0 false).2 end.
Proof.
  intros Hp. assert (Hm : may_park s c = false).
  { unfold may_park. destruct Hp as [-> | ->]; [done|apply andb_false_r]. }
  unfold handle. destruct laps as [|l laps]; [simpl; split; [set_solver|done]|].
  assert (Hl : retries s c l = false) by (unfold retries; by rewrite Hm).
  rewrite (admit_decides _ _ _ _ _ _ Hl). pose proof (turn_spec_holds s c l 0 false Hl) as Ht.
  destruct (admitLoop s c [l] 0 false) as [acts r]. simpl. split; [|done].
  inversion Ht as [Hc|Hpc Hc|p st o rs w Hc Hp' Ho]; subst; simpl; [|congruence|].
  - pose proof (no_park_serve c (waited_at l) 0 false u). set_solver.
  - pose proof (no_park_defer c (cls c) st o rs (wait c) w).
    destruct Hp' as [->|[[-> ?]| ->]]; [|congruence|]; set_solver.
Qed.

(** The deferral contract: a refused request gets a 503 with an
    [X-Broker-Status] of [deferred] (or [crash_failed] at shutdown) and a
    [Retry-After] of at least one second, namely the wait budget rounded to the
    nearest second; only a disconnected client gets no response at all. *)
Theorem gate_deferral_contract s c laps u :
  rec c = true -> 0 <= wait c -> wait c + Second <= maxInt64 ->
  (handle s c laps u).2 = Refused ->
  let acts := (handle s c laps u).1 in
  (outcomes acts = ["canceled"] /\ status_code acts = None) \/
  (status_code acts = Some 503 /\
   header "Retry-After" None acts = Some (Itoa (Z.max 1 ((wait c + Second / 2) / Second))) /\
   header "X-Broker-Status" None acts =
     Some (if decide (outcomes acts = ["crash_failed"]) then "crash_failed" else "deferred")).
Proof.
  intros Hr Hw0 Hw1. unfold handle.
  destruct (admit_split s c laps 0 false)
    as [[_ ->]|(pre & l & post & acts & r & -> & _ & _ & Ht & ->)]; simpl; [done|].
  intros ->. rewrite app_nil_r, status_code_retries, outcomes_app, outcomes_retries, !header_app,
    !header_retries. simpl.
  inversion Ht as [Hc|Hpc Hc|p st o rs w Hc Hp Ho]; subst; simpl.
  - left. unfold record. by rewrite Hr.
  - right. rewrite outcomes_app, !header_app.
    assert (Hpre : outcomes p = [] /\ status_code (p ++ deferRequest c (cls c) st o rs (wait c) w) = Some 503
      /\ forall k h, header k h p = h) by (destruct Hp as [->|[[-> _]| ->]]; done).
    destruct Hpre as (-> & -> & Hh). rewrite !Hh. split; [done|].
    unfold deferRequest, record. rewrite Hr. simpl.
    unfold retry_after_secs. rewrite Round_Second by lia. split.
    + do 2 f_equal. destruct (Z.ltb_spec ((wait c + Second / 2) / Second) 1); lia.
    + repeat (apply elem_of_cons in Ho as [Ho|Ho]; [by simplify_eq|]). set_solver.
Qed.

(** ** Witnesses *)

Definition demo_sched : Scheduler.sched :=
  Scheduler.set_park (Park.SetParkConfig 600 32 8 Park.zero) Scheduler.New.

Definition demo_config (k : Scheduler.Class) : config :=
  {| class := k; wait := 4600000000; upstreamTimeout := 0; rec := true; reqID := "00000000" |}.

Definition demo_up : upstream := {| panics := false; serve_done := false; upstream_ctx_err := None |}.

Definition yield_lap (r : Park.parkResult) : lap := Lap (Some "plex") 7 r 5 false 0 false.
Definition late_lap : lap := Lap None 0 Park.parkReleased 0 false 9 true.
Definition clear_lap : lap := Lap None 0 Park.parkReleased 0 false 12 false.

Lemma gate_one_outcome_witness :
  (handle demo_sched (demo_config Scheduler.Batch)
     [yield_lap Park.parkReleased; late_lap; clear_lap] demo_up).2 = SlotHeld 12 5 true /\
  outcomes (handle demo_sched (demo_config Scheduler.Batch)
     [yield_lap Park.parkReleased; late_lap; clear_lap] demo_up).1 = ["served"].
Proof.
  split; [reflexivity|].
  exact (gate_one_outcome demo_sched (demo_config Scheduler.Batch)
    [yield_lap Park.parkReleased; late_lap; clear_lap] demo_up eq_refl).
Defined.

Lemma gate_interactive_never_parks_witness :
  APark ∉ (handle demo_sched (demo_config Scheduler.Interactive) [yield_lap Park.parkReleased] demo_up).1.
Proof.
  apply (gate_interactive_never_parks demo_sched (demo_config Scheduler.Interactive)
    [yield_lap Park.parkReleased] demo_up). by left.
Defined.

Lemma gate_deferral_contract_witness :
  header "Retry-After" None
    (handle demo_sched (demo_config Scheduler.Batch) [yield_lap Park.parkExpired] demo_up).1 = Some "5".
Proof.
  destruct (gate_deferral_contract demo_sched (demo_config Scheduler.Batch)
    [yield_lap Park.parkExpired] demo_up) as [[H _]|(_ & H & _)];
    [reflexivity|vm_compute; discriminate|vm_compute; discriminate|reflexivity|discriminate H|exact H].
Defined.

End Gate.
