(* ===== verification/Yield.v ===== *)
(** * The yield controller (src/internal/yield/yield.go)

    [controller] is the state under [c.mu] with the per-instance slices
    ([unloaders], [labels], [actionDone], [idleTimeouts], [lastDispatch],
    [inFlight], [idleUnloaded], all of the same length by construction) as one
    list of [slot]s.  A serve context is the number of the [WithCancel] that
    made it, a done channel the number of the [startAction] that made it, so the
    log [started] names every action ever ordered.  [step] interleaves the poll
    loop, operator overrides, the tracked request handlers (one event per atomic
    operation) and the spawned action goroutines.  A poll is one event: the lock is
    held throughout, but the atomics [checkIdleLocked] reads are those of the
    handlers, which take no lock, so that an update between its reads of one
    instance is not seen apart from one before or after the poll. *)

From S2P Require Import Prelude.
From S2P Require Import GoLib.
#[local] Set Warnings "-clear-no-such-hyp,-level-tolerance".
Local Open Scope Z_scope.

Module Yield.

Import GoLib.

(** ** Data *)

Inductive Mode := ModeAuto | ModeForceYield | ModeForceServe.
Inductive action := Unload | Reload.
Inductive unloadTrigger := triggerYield | triggerIdle.
Inductive gpu_call := PauseGPU | ResumeGPU.

#[global] Instance Mode_eq_dec : EqDecision Mode.
Proof. solve_decision. Defined.
#[global] Instance action_eq_dec : EqDecision action.
Proof. solve_decision. Defined.
#[global] Instance unloadTrigger_eq_dec : EqDecision unloadTrigger.
Proof. solve_decision. Defined.

Definition Mode_String (m : Mode) : string :=
  match m with ModeForceYield => "yield" | ModeForceServe => "serve" | ModeAuto => "auto" end.

Definition ParseMode (s : string) : Mode * bool :=
  if String.eqb s "auto" then (ModeAuto, true)
  else if String.eqb s "yield" then (ModeForceYield, true)
  else if String.eqb s "serve" then (ModeForceServe, true)
  else (ModeAuto, false).

(** One configured instance; times are Unix nanoseconds. *)
Record slot := Slot {
  unloader : nat;
  label : string;
  actionDone : option nat;
  idleTimeout : Z;
  lastDispatch : Z;
  inFlight : Z;
  idleUnloaded : bool;
}.

(** A call of [startAction]: the instance, what its caller spawns with it, and
    the predecessor's channel. *)
Record order := Order {
  o_inst : nat;
  o_act : action;
  o_trigger : unloadTrigger;
  o_wait : option nat;
}.

(** An action goroutine: waiting for its predecessor, in its upstream call, or
    past [close(done)]. *)
Inductive task := TWaiting | TRunning | TFinished.

Record controller := Controller {
  interval : Z;
  confirmPolls : Z;
  origToFiltered : list Z;
  hasGpuMgr : bool;
  mode : Mode;
  autoContended : bool;
  autoReason : string;
  effective : bool;
  lastPoll : option Z;
  confirmCount : Z;
  confirmReason : string;
  serveCtx : nat;
  canceled : gset nat;
  slots : list slot;
  started : list order;
  tasks : gmap nat task;
  gpu_calls : list gpu_call;
}.

Definition set_mode (m : Mode) (c : controller) : controller :=
  Controller (interval c) (confirmPolls c) (origToFiltered c) (hasGpuMgr c) m (autoContended c)
    (autoReason c) (effective c) (lastPoll c) (confirmCount c) (confirmReason c) (serveCtx c)
    (canceled c) (slots c) (started c) (tasks c) (gpu_calls c).

Definition set_auto (b : bool) (r : string) (c : controller) : controller :=
  Controller (interval c) (confirmPolls c) (origToFiltered c) (hasGpuMgr c) (mode c) b
    r (effective c) (lastPoll c) (confirmCount c) (confirmReason c) (serveCtx c)
    (canceled c) (slots c) (started c) (tasks c) (gpu_calls c).

Definition set_lastPoll (t : Z) (c : controller) : controller :=
  Controller (interval c) (confirmPolls c) (origToFiltered c) (hasGpuMgr c) (mode c) (autoContended c)
    (autoReason c) (effective c) (Some t) (confirmCount c) (confirmReason c) (serveCtx c)
    (canceled c) (slots c) (started c) (tasks c) (gpu_calls c).

Definition set_confirm (n : Z) (r : string) (c : controller) : controller :=
  Controller (interval c) (confirmPolls c) (origToFiltered c) (hasGpuMgr c) (mode c) (autoContended c)
    (autoReason c) (effective c) (lastPoll c) n r (serveCtx c)
    (canceled c) (slots c) (started c) (tasks c) (gpu_calls c).

Definition set_serving (e : bool) (ctx : nat) (cs : gset nat) (c : controller) : controller :=
  Controller (interval c) (confirmPolls c) (origToFiltered c) (hasGpuMgr c) (mode c) (autoContended c)
    (autoReason c) e (lastPoll c) (confirmCount c) (confirmReason c) ctx
    cs (slots c) (started c) (tasks c) (gpu_calls c).

Definition set_slots (l : list slot) (c : controller) : controller :=
  Controller (interval c) (confirmPolls c) (origToFiltered c) (hasGpuMgr c) (mode c) (autoContended c)
    (autoReason c) (effective c) (lastPoll c) (confirmCount c) (confirmReason c) (serveCtx c)
    (canceled c) l (started c) (tasks c) (gpu_calls c).

Definition set_started (l : list order) (c : controller) : controller :=
  Controller (interval c) (confirmPolls c) (origToFiltered c) (hasGpuMgr c) (mode c) (autoContended c)
    (autoReason c) (effective c) (lastPoll c) (confirmCount c) (confirmReason c) (serveCtx c)
    (canceled c) (slots c) l (tasks c) (gpu_calls c).

Definition set_tasks (t : gmap nat task) (c : controller) : controller :=
  Controller (interval c) (confirmPolls c) (origToFiltered c) (hasGpuMgr c) (mode c) (autoContended c)
    (autoReason c) (effective c) (lastPoll c) (confirmCount c) (confirmReason c) (serveCtx c)
    (canceled c) (slots c) (started c) t (gpu_calls c).

(** [go c.pauseGPUMgr(mgr)], [go c.resumeGPUMgr(mgr)]. *)
Definition go_gpu (g : gpu_call) (c : controller) : controller :=
  Controller (interval c) (confirmPolls c) (origToFiltered c) (hasGpuMgr c) (mode c) (autoContended c)
    (autoReason c) (effective c) (lastPoll c) (confirmCount c) (confirmReason c) (serveCtx c)
    (canceled c) (slots c) (started c) (tasks c)
    (if hasGpuMgr c then gpu_calls c ++ [g] else gpu_calls c).

Definition SetGPUManager (present : bool) (c : controller) : controller :=
  Controller (interval c) (confirmPolls c) (origToFiltered c) present (mode c) (autoContended c)
    (autoReason c) (effective c) (lastPoll c) (confirmCount c) (confirmReason c) (serveCtx c)
    (canceled c) (slots c) (started c) (tasks c) (gpu_calls c).

Definition set_slot_done (k : nat) (s : slot) : slot :=
  Slot (unloader s) (label s) (Some k) (idleTimeout s) (lastDispatch s) (inFlight s) (idleUnloaded s).
Definition set_slot_timeout (d : Z) (s : slot) : slot :=
  Slot (unloader s) (label s) (actionDone s) d (lastDispatch s) (inFlight s) (idleUnloaded s).
Definition set_slot_dispatch (t : Z) (s : slot) : slot :=
  Slot (unloader s) (label s) (actionDone s) (idleTimeout s) t (inFlight s) (idleUnloaded s).
Definition set_slot_inFlight (n : Z) (s : slot) : slot :=
  Slot (unloader s) (label s) (actionDone s) (idleTimeout s) (lastDispatch s) n (idleUnloaded s).
Definition set_slot_idle (b : bool) (s : slot) : slot :=
  Slot (unloader s) (label s) (actionDone s) (idleTimeout s) (lastDispatch s) (inFlight s) b.

(** ** Construction *)

(** The filter loop of [NewWithConfirmMulti] from position [i] and post-filter
    count [post]. *)
Fixpoint filter_unloaders (us : list (option nat)) (labels : list string) (now : Z) (i : nat) (post : Z)
  : list slot * list Z :=
  match us with
  | [] => ([], [])
  | None :: us' =>
      let '(ss, m) := filter_unloaders us' labels now (S i) post in (ss, -1 :: m)
  | Some u :: us' =>
      let l := default "" (labels !! i) in
      let l := if String.eqb l "" then "instance[" +:+ Itoa (Z.of_nat i) +:+ "]" else l in
      let '(ss, m) := filter_unloaders us' labels now (S i) (post + 1) in
      (Slot u l None 0 now 0 false :: ss, post :: m)
  end.

Definition NewWithConfirmMulti (us : list (option nat)) (labels : list string) (interval' confirm now : Z)
  : controller :=
  let confirm := if confirm <? 1 then 1 else confirm in
  let '(ss, m) := filter_unloaders us labels now 0 0 in
  {| interval := interval'; confirmPolls := confirm; origToFiltered := m; hasGpuMgr := false;
     mode := ModeAuto; autoContended := false; autoReason := ""; effective := false;
     lastPoll := None; confirmCount := 0; confirmReason := ""; serveCtx := 0; canceled := ∅;
     slots := ss; started := []; tasks := ∅; gpu_calls := [] |}.

Definition NewMulti (us : list (option nat)) (labels : list string) (interval' now : Z) : controller :=
  NewWithConfirmMulti us labels interval' 1 now.

Definition NewWithConfirm (u : option nat) (interval' confirm now : Z) : controller :=
  NewWithConfirmMulti (match u with Some u => [Some u] | None => [] end) [] interval' confirm now.

Definition New (u : option nat) (interval' now : Z) : controller := NewWithConfirm u interval' 1 now.

(** The loop of [ConfigureIdle]. *)
Fixpoint configure_idle (ds posts : list Z) (ss : list slot) : outcome (list slot) :=
  match ds, posts with
  | [], _ => Next ss
  | d :: ds', post :: posts' =>
      if post =? -1 then
        if negb (d =? 0) then Panic else configure_idle ds' posts' ss
      else
        match ss !! Z.to_nat post with
        | Some _ => configure_idle ds' posts' (alter (set_slot_timeout d) (Z.to_nat post) ss)
        | None => Panic
        end
  | _ :: _, [] => Panic
  end.

Definition ConfigureIdle (ds : list Z) (c : controller) : outcome controller :=
  if negb (Z.of_nat (length ds) =? Z.of_nat (length (origToFiltered c))) then Panic
  else match configure_idle ds (origToFiltered c) (slots c) with
       | Next ss => Next (set_slots ss c)
       | Panic => Panic
       | Disabled => Disabled
       end.

(** The lookup [TrackActivity] makes when it wraps a handler. *)
Definition TrackActivity (origIdx : nat) (c : controller) : outcome nat :=
  match origToFiltered c !! origIdx with
  | None => Panic
  | Some post => if post =? -1 then Panic else Next (Z.to_nat post)
  end.

(** ** Critical sections under [c.mu] *)

Definition computeLocked (c : controller) : bool * string :=
  match mode c with
  | ModeForceYield => (true, "manual")
  | ModeForceServe => (false, "")
  | ModeAuto => (autoContended c, autoReason c)
  end.

Definition debounceLocked (reason : string) (contended : bool) (c : controller)
  : bool * string * controller :=
  if negb contended then (false, "", set_confirm 0 "" c)
  else
    let c := if String.eqb reason (confirmReason c)
             then set_confirm (confirmCount c + 1) (confirmReason c) c
             else set_confirm 1 reason c in
    if confirmCount c <? confirmPolls c then (false, "", c) else (true, reason, c).

(** The new channel is [length (started c)]. *)
Definition startAction (i : nat) (a : action) (t : unloadTrigger) (c : controller) : nat * controller :=
  let done := length (started c) in
  let wait := match slots c !! i with Some s => actionDone s | None => None end in
  (done, set_slots (alter (set_slot_done done) i (slots c))
           (set_started (started c ++ [Order i a t wait]) c)).

(** [go c.doUnload(...)], [go c.doReload(...)]. *)
Definition go_task (done : nat) (c : controller) : controller :=
  set_tasks (<[done := TWaiting]> (tasks c)) c.

Definition start_and_go (i : nat) (a : action) (t : unloadTrigger) (c : controller) : controller :=
  let '(done, c) := startAction i a t c in go_task done c.

(** [for i := range c.unloaders] *)
Fixpoint start_all (n : nat) (a : action) (c : controller) : controller :=
  match n with
  | O => c
  | S n' => start_and_go n' a triggerYield (start_all n' a c)
  end.

(** [now] is the clock read in this critical section. *)
Definition applyLocked (now : Z) (c : controller) : string * string * controller :=
  let '(eff, r) := computeLocked c in
  if Bool.eqb eff (effective c) then ("", "", c)
  else if eff then
    let c := set_serving true (serveCtx c) ({[serveCtx c]} ∪ canceled c) c in
    let c := start_all (length (slots c)) Unload c in
    ("start", r, go_gpu PauseGPU c)
  else
    let c := set_serving false (S (serveCtx c)) (canceled c) c in
    let c := start_all (length (slots c)) Reload c in
    let c := set_slots (map (fun s => set_slot_idle false (set_slot_dispatch now s)) (slots c)) c in
    ("stop", "", go_gpu ResumeGPU c).

(** [time.Since]: saturating subtraction. *)
Definition Since (now t : Z) : Z := Z.max minInt64 (Z.min maxInt64 (now - t)).

(** The guards of [checkIdleLocked] for one instance. *)
Definition idle_due (now : Z) (eff : bool) (s : slot) : bool :=
  negb (idleTimeout s =? 0) && negb eff && negb (0 <? inFlight s) && negb (idleUnloaded s)
  && (idleTimeout s <=? Since now (lastDispatch s)).

Fixpoint check_idle (n : nat) (now : Z) (c : controller) : controller :=
  match n with
  | O => c
  | S i =>
      let c := check_idle i now c in
      match slots c !! i with
      | Some s =>
          if idle_due now (effective c) s then
            start_and_go i Unload triggerIdle (set_slots (alter (set_slot_idle true) i (slots c)) c)
          else c
      | None => c
      end
  end.

Definition checkIdleLocked (now : Z) (c : controller) : controller := check_idle (length (slots c)) now c.

(** One tick of [Run], given what the detector reported. *)
Definition refresh (reason : string) (contended : bool) (now : Z) (c : controller) : controller :=
  let '(b, r, c) := debounceLocked reason contended c in
  let c := set_lastPoll now (set_auto b r c) in
  let '(_, _, c) := applyLocked now c in
  checkIdleLocked now c.

Definition SetMode (m : Mode) (now : Z) (c : controller) : controller :=
  (applyLocked now (set_mode m c)).2.

Definition Yielding (c : controller) : bool * string := computeLocked c.
Definition ServeContext (c : controller) : nat := serveCtx c.

Definition PollAge (now : Z) (c : controller) : Z :=
  match lastPoll c with None => maxInt64 | Some t => Since now t end.

Record State := { St_Mode : string; St_Yielding : bool; St_Reason : string; St_AutoReason : string }.

Definition Snapshot (c : controller) : State :=
  let '(y, r) := computeLocked c in
  {| St_Mode := Mode_String (mode c); St_Yielding := y; St_Reason := r; St_AutoReason := autoReason c |}.

(** [timeout.String()] is left as a duration. *)
Record IdleSummaryEntry := {
  E_Label : string; E_IdleTimeout : Z; E_IdleUnloaded : bool; E_SinceLastDispatch : Z
}.

Definition IdleSummary (now : Z) (c : controller) : option (list IdleSummaryEntry) :=
  if negb (existsb (fun s => negb (idleTimeout s =? 0)) (slots c)) then None
  else
    let result := map (fun s => {| E_Label := label s; E_IdleTimeout := idleTimeout s;
                                   E_IdleUnloaded := idleUnloaded s;
                                   E_SinceLastDispatch := Since now (lastDispatch s) |})
                      (filter (fun s => idleTimeout s <> 0) (slots c)) in
    match result with [] => None | _ => Some result end.

(** ** The running system *)

(** A request inside the tracked handler: past [inFlight.Add(1)]; past the
    first timestamp; having won the [CompareAndSwap]; past [startAction];
    being served; past the deferred [inFlight.Add(-1)]; returned. *)
Inductive hpc :=
| HCounted | HStamped | HWon | HOrdered (done : nat) | HServing | HLeft | HGone.

Record system := System {
  ctl : controller;
  handlers : gmap nat (nat * hpc);
}.

Inductive event :=
| ERefresh (reason : string) (contended : bool) (now : Z)
| ESetMode (m : Mode) (now : Z)
| EServeHTTP (r i : nat)
| EStamp (r : nat) (now : Z)
| ESwap (r : nat)
| EOrder (r : nat)
| ESpawn (r : nat)
| EReturn (r : nat)
| ELeave (r : nat) (now : Z)
| ETaskStart (k : nat)
| ETaskEnd (k : nat)
| ESetGPUManager.

Definition set_ctl (c : controller) (s : system) : system := System c (handlers s).
Definition set_handler (r i : nat) (p : hpc) (s : system) : system :=
  System (ctl s) (<[r := (i, p)]> (handlers s)).
Definition on_slot (i : nat) (f : slot -> slot) (c : controller) : controller :=
  set_slots (alter f i (slots c)) c.

(** The channel [wait] is nil or closed. *)
Definition wait_over (w : option nat) (c : controller) : bool :=
  match w with
  | None => true
  | Some k => match tasks c !! k with Some TFinished => true | _ => false end
  end.

Definition step (e : event) (s : system) : outcome system :=
  let c := ctl s in
  match e with
  | ERefresh reason contended now => Next (set_ctl (refresh reason contended now c) s)
  | ESetMode m now => Next (set_ctl (SetMode m now c) s)
  | EServeHTTP r i =>
      match handlers s !! r, slots c !! i with
      | None, Some sl =>
          Next (set_handler r i HCounted (set_ctl (on_slot i (set_slot_inFlight (inFlight sl + 1)) c) s))
      | _, _ => Disabled
      end
  | EStamp r now =>
      match handlers s !! r with
      | Some (i, HCounted) =>
          Next (set_handler r i HStamped (set_ctl (on_slot i (set_slot_dispatch now) c) s))
      | _ => Disabled
      end
  | ESwap r =>
      match handlers s !! r with
      | Some (i, HStamped) =>
          match slots c !! i with
          | Some sl =>
              if idleUnloaded sl
              then Next (set_handler r i HWon (set_ctl (on_slot i (set_slot_idle false) c) s))
              else Next (set_handler r i HServing s)
          | None => Disabled
          end
      | _ => Disabled
      end
  | EOrder r =>
      match handlers s !! r with
      | Some (i, HWon) =>
          let '(done, c') := startAction i Reload triggerIdle c in
          Next (set_handler r i (HOrdered done) (set_ctl c' s))
      | _ => Disabled
      end
  | ESpawn r =>
      match handlers s !! r with
      | Some (i, HOrdered done) => Next (set_handler r i HServing (set_ctl (go_task done c) s))
      | _ => Disabled
      end
  | EReturn r =>
      match handlers s !! r with
      | Some (i, HServing) =>
          match slots c !! i with
          | Some sl =>
              Next (set_handler r i HLeft (set_ctl (on_slot i (set_slot_inFlight (inFlight sl - 1)) c) s))
          | None => Disabled
          end
      | _ => Disabled
      end
  | ELeave r now =>
      match handlers s !! r with
      | Some (i, HLeft) =>
          Next (set_handler r i HGone (set_ctl (on_slot i (set_slot_dispatch now) c) s))
      | _ => Disabled
      end
  | ETaskStart k =>
      match tasks c !! k, started c !! k with
      | Some TWaiting, Some o =>
          if wait_over (o_wait o) c then Next (set_ctl (set_tasks (<[k := TRunning]> (tasks c)) c) s)
          else Disabled
      | _, _ => Disabled
      end
  | ETaskEnd k =>
      match tasks c !! k with
      | Some TRunning => Next (set_ctl (set_tasks (<[k := TFinished]> (tasks c)) c) s)
      | _ => Disabled
      end
  | ESetGPUManager => Next (set_ctl (SetGPUManager true c) s)
  end.

(** The controllers the broker starts with. *)
Definition init (s : system) : Prop :=
  exists us labels interval' confirm now gpu ds c,
    ConfigureIdle ds (SetGPUManager gpu (NewWithConfirmMulti us labels interval' confirm now)) = Next c /\
    s = System c ∅.

(** ** Reading the log *)

(** The actions ordered for one instance, in order. *)
Definition acts (i : nat) (l : list order) : list (action * unloadTrigger) :=
  map (fun o => (o_act o, o_trigger o)) (filter (fun o => o_inst o = i) l).

Definition yields (i : nat) (l : list order) : list action :=
  (filter (fun at_ => at_.2 = triggerYield) (acts i l)).*1.

(** [n] alternating actions, the first one an unload. *)
Fixpoint alternating (n : nat) : list action :=
  match n with
  | O => []
  | S n' => alternating n' ++ [if Nat.even n' then Unload else Reload]
  end.

(** Whether a chain leaves its instance unloaded for idleness; [None] when it
    idle-unloads an instance that is already idle-unloaded. *)
Fixpoint asleep (b : bool) (l : list (action * unloadTrigger)) : option bool :=
  match l with
  | [] => Some b
  | (Reload, _) :: l' => asleep false l'
  | (Unload, triggerIdle) :: l' => if b then None else asleep true l'
  | (Unload, triggerYield) :: l' => asleep b l'
  end.

Definition active (t : task) : bool := match t with TRunning | TFinished => true | TWaiting => false end.

(** A handler between its [inFlight.Add(1)] and its [inFlight.Add(-1)]. *)
Definition counted (i : nat) (h : nat * hpc) : bool :=
  bool_decide (h.1 = i) && match h.2 with HLeft | HGone => false | _ => true end.

(** ** The debouncer against the poll history *)

(** The number of most recent polls that all reported contention for [reason];
    [polls] is in reverse order. *)
Fixpoint streak (reason : string) (polls : list (string * bool)) : Z :=
  match polls with
  | (r, true) :: rest => if decide (r = reason) then 1 + streak reason rest else 0
  | _ => 0
  end.

(** The polls of a run, the most recent one first, after those in [h]. *)
Fixpoint polls (es : list event) (h : list (string * bool)) : list (string * bool) :=
  match es with
  | [] => h
  | ERefresh r b _ :: es' => polls es' ((r, b) :: h)
  | _ :: es' => polls es' h
  end.

(** What the debouncer reports upward after a poll history. *)
Definition confirmed (confirm : Z) (h : list (string * bool)) : bool * string :=
  match h with
  | (r, true) :: _ => if confirm <=? streak r h then (true, r) else (false, "")
  | _ => (false, "")
  end.

(** An event of the action goroutines of instance [i]. *)
Definition action_event (i : nat) (s : system) (e : event) : Prop :=
  match e with
  | ETaskStart k | ETaskEnd k => exists o, started (ctl s) !! k = Some o /\ o_inst o = i
  | ESpawn r => exists k, handlers s !! r = Some (i, HOrdered k)
  | _ => False
  end.

(** ** The chains of actions *)

Definition is_last (i : nat) (l : list order) (w : option nat) : Prop :=
  match w with
  | None => forall j o, l !! j = Some o -> o_inst o <> i
  | Some k => (exists o, l !! k = Some o /\ o_inst o = i) /\ forall j o, l !! j = Some o -> o_inst o = i -> (j <= k)%nat
  end.

Record chained (ds : list (option nat)) (l : list order) (ts : gmap nat task) : Prop := {
  ch_done : forall i w, ds !! i = Some w -> is_last i l w;
  ch_inst : forall k o, l !! k = Some o -> (o_inst o < length ds)%nat;
  ch_wait : forall k o, l !! k = Some o -> is_last (o_inst o) (take k l) (o_wait o);
  ch_dom : forall k t, ts !! k = Some t -> (k < length l)%nat;
  ch_order : forall k t o, ts !! k = Some t -> active t = true -> l !! k = Some o ->
    forall j o', (j < k)%nat -> l !! j = Some o' -> o_inst o' = o_inst o -> ts !! j = Some TFinished;
}.

(** The orders whose goroutine is not spawned yet belong to a handler. *)
Record pending (hs : gmap nat (nat * hpc)) (l : list order) (ts : gmap nat task) : Prop := {
  pe_fresh : forall r i k, hs !! r = Some (i, HOrdered k) ->
    (exists o, l !! k = Some o /\ o_inst o = i) /\ ts !! k = None;
  pe_unique : forall r r' i i' k, hs !! r = Some (i, HOrdered k) ->
    hs !! r' = Some (i', HOrdered k) -> r = r';
  pe_all : forall k, (k < length l)%nat -> is_Some (ts !! k) \/
    exists r i, hs !! r = Some (i, HOrdered k);
}.

Lemma is_last_snoc_other i l w o :
  is_last i l w -> o_inst o <> i -> is_last i (l ++ [o]) w.
Proof.
  intros Hl Ho. destruct w as [k|]; simpl in *.
  - destruct Hl as [(x & Hx & Hi) Hl]. split.
    + exists x. split; [|done]. by apply lookup_app_l_Some.
    + intros j y [Hy|[_ Hy]]%lookup_app_Some Hiy; [eauto|].
      apply list_lookup_singleton_Some in Hy as [_ <-]. done.
  - intros j y [Hy|[_ Hy]]%lookup_app_Some; [eauto|].
    by apply list_lookup_singleton_Some in Hy as [_ <-].
Qed.

Lemma is_last_snoc_same i l o : o_inst o = i -> is_last i (l ++ [o]) (Some (length l)).
Proof.
  intros Ho. simpl. split.
  - exists o. split; [|done]. by apply list_lookup_middle.
  - intros j y Hy _. apply lookup_lt_Some in Hy. rewrite length_app in Hy. simpl in Hy. lia.
Qed.

Lemma chained_start ds l ts i w a t :
  chained ds l ts -> ds !! i = Some w ->
  chained (<[i := Some (length l)]> ds) (l ++ [Order i a t w]) ts.
Proof.
  intros [] Hi. split.
  - intros j v Hj. destruct (decide (j = i)) as [->|Hne].
    + rewrite list_lookup_insert_eq in Hj by (by eapply lookup_lt_Some). injection Hj as <-.
      by apply is_last_snoc_same.
    + rewrite list_lookup_insert_ne in Hj by done. apply is_last_snoc_other; [eauto|]. simpl. done.
  - intros k o [Hk|[_ Hk]]%lookup_app_Some; rewrite length_insert; [eauto|].
    apply list_lookup_singleton_Some in Hk as [_ <-]. simpl. by eapply lookup_lt_Some.
  - intros k o [Hk|[Hge Hk]]%lookup_app_Some.
    + rewrite take_app_le by (apply lookup_lt_Some in Hk; lia). eauto.
    + apply list_lookup_singleton_Some in Hk as [Hz <-]. simpl.
      rewrite take_app_ge by done. replace (k - length l)%nat with 0%nat by lia.
      rewrite take_0, app_nil_r. eauto.
  - intros k x Hk. rewrite length_app. specialize (ch_dom0 _ _ Hk). lia.
  - intros k x o Hk Hx Ho j o' Hj Ho' He.
    pose proof (ch_dom0 _ _ Hk). rewrite lookup_app_l in Ho, Ho' by lia. eauto.
Qed.

Lemma chained_go ds l ts k :
  chained ds l ts -> (k < length l)%nat -> ts !! k = None -> chained ds l (<[k := TWaiting]> ts).
Proof.
  intros [] Hk Hn. split; try done.
  - intros j x. destruct (decide (j = k)) as [->|]; [done|]. rewrite lookup_insert_ne by done. eauto.
  - intros j x o Hj Hx Ho i o' Hi Ho' He. destruct (decide (j = k)) as [->|]; simplify_map_eq.
    assert (Hf : ts !! i = Some TFinished) by eauto.
    destruct (decide (i = k)) as [->|]; [congruence|]. by rewrite lookup_insert_ne.
Qed.

Lemma chained_run ds l ts k o :
  chained ds l ts -> l !! k = Some o -> ts !! k = Some TWaiting ->
  match o_wait o with None => True | Some j => ts !! j = Some TFinished end ->
  chained ds l (<[k := TRunning]> ts).
Proof.
  intros Hc Ho Hk Hw. pose proof Hc as []. split; try done.
  - intros j x. destruct (decide (j = k)) as [->|]; [by eauto|]. rewrite lookup_insert_ne by done. eauto.
  - intros j x o1 Hj Hx Ho1 i o' Hi Ho' He.
    enough (ts !! i = Some TFinished) as Hf.
    { destruct (decide (i = k)) as [->|]; [congruence|]. by rewrite lookup_insert_ne. }
    destruct (decide (j = k)) as [->|]; [|rewrite lookup_insert_ne in Hj by done; by eauto].
    simplify_eq. pose proof (ch_wait0 _ _ Ho) as Hl.
    assert (Hti : take k l !! i = Some o') by (by rewrite lookup_take_lt).
    destruct (o_wait o) as [m|]; simpl in Hl.
    + destruct Hl as [(om & Hm & Hmi) Hl]. specialize (Hl _ _ Hti He).
      destruct (decide (i = m)) as [->|]; [done|].
      apply lookup_take_Some in Hm as [Hm _].
      eapply (ch_order0 m); [exact Hw|done|exact Hm| |done|congruence].
      assert (i <> m) by done. lia.
    + by destruct (Hl _ _ Hti).
Qed.

Lemma chained_finish ds l ts k :
  chained ds l ts -> ts !! k = Some TRunning -> chained ds l (<[k := TFinished]> ts).
Proof.
  intros [] Hk. split; try done.
  - intros j x. destruct (decide (j = k)) as [->|]; [by eauto|]. rewrite lookup_insert_ne by done. eauto.
  - intros j x o1 Hj Hx Ho1 i o' Hi Ho' He.
    assert (Hf : ts !! i = Some TFinished).
    { destruct (decide (j = k)) as [->|]; simplify_map_eq; eauto. }
    destruct (decide (i = k)) as [->|]; by simplify_map_eq.
Qed.

Lemma pending_start hs l ts o : pending hs l ts -> ts !! length l = None ->
  (forall k t, ts !! k = Some t -> (k < length l)%nat) ->
  pending hs (l ++ [o]) (<[length l := TWaiting]> ts).
Proof.
  intros [] Hn Hd. split.
  - intros r i k Hr. destruct (pe_fresh0 _ _ _ Hr) as ((x & Hx & Hi) & Ht). split.
    + exists x. split; [by apply lookup_app_l_Some|done].
    + apply lookup_lt_Some in Hx. rewrite lookup_insert_ne by lia. done.
  - done.
  - intros k Hk. rewrite length_app in Hk. simpl in Hk.
    destruct (decide (k = length l)) as [->|]; simplify_map_eq; [by left|].
    apply pe_all0. lia.
Qed.

Definition sound (hs : gmap nat (nat * hpc)) (sl : list slot) (l : list order) (ts : gmap nat task) : Prop :=
  chained (actionDone <$> sl) l ts /\ pending hs l ts.

Lemma chained_fresh ds l ts : chained ds l ts -> ts !! length l = None.
Proof.
  intros []. destruct (ts !! length l) eqn:E; [|done]. specialize (ch_dom0 _ _ E). lia.
Qed.

Lemma dones_alter k i (sl : list slot) : actionDone <$> alter (set_slot_done k) i sl =
  <[i := Some k]> (actionDone <$> sl).
Proof.
  apply list_eq. intros j. rewrite list_lookup_fmap.
  destruct (decide (i = j)) as [->|Hne].
  - rewrite list_lookup_alter_eq. destruct (sl !! j) eqn:E; simpl.
    + rewrite list_lookup_insert_eq; [done|]. rewrite length_fmap. by eapply lookup_lt_Some.
    + symmetry. apply lookup_ge_None. rewrite length_insert, length_fmap. by apply lookup_ge_None.
  - by rewrite list_lookup_alter_ne, list_lookup_insert_ne, list_lookup_fmap.
Qed.

Lemma start_and_go_sound hs i a t c :
  (i < length (slots c))%nat -> sound hs (slots c) (started c) (tasks c) ->
  let c' := start_and_go i a t c in sound hs (slots c') (started c') (tasks c').
Proof.
  intros Hi [Hc Hp]. simpl. apply lookup_lt_is_Some in Hi as [s Hs]. rewrite Hs. split.
  - rewrite dones_alter. apply chained_go.
    + apply chained_start; [done|]. by rewrite list_lookup_fmap, Hs.
    + rewrite length_app. simpl. lia.
    + by eapply chained_fresh.
  - apply pending_start; [done|by eapply chained_fresh|apply Hc].
Qed.

(** A slot without its channel: what the idle logic sees. *)
Definition bare (s : slot) : slot :=
  Slot (unloader s) (label s) None (idleTimeout s) (lastDispatch s) (inFlight s) (idleUnloaded s).

Lemma bare_alter k i (sl : list slot) : bare <$> alter (set_slot_done k) i sl = bare <$> sl.
Proof.
  apply list_eq. intros j. rewrite !list_lookup_fmap, list_lookup_alter.
  case_decide; subst; [|done]. by destruct (sl !! j).
Qed.

Lemma acts_snoc i l o :
  acts i (l ++ [o]) = acts i l ++ if decide (o_inst o = i) then [(o_act o, o_trigger o)] else [].
Proof.
  unfold acts. rewrite filter_app, map_app, filter_cons, filter_nil. by case_decide.
Qed.

(** The fields an order does not touch. *)
Definition same_rest (c c' : controller) : Prop :=
  effective c' = effective c /\ serveCtx c' = serveCtx c /\ canceled c' = canceled c /\
  length (slots c') = length (slots c) /\ computeLocked c' = computeLocked c.

#[local] Arguments start_and_go : simpl never.

Lemma start_and_go_rest i a t c : same_rest c (start_and_go i a t c).
Proof. unfold same_rest, start_and_go. simpl. by rewrite length_alter. Qed.

Lemma start_all_spec hs n a c :
  (n <= length (slots c))%nat -> sound hs (slots c) (started c) (tasks c) ->
  let c' := start_all n a c in
  sound hs (slots c') (started c') (tasks c') /\
  (bare <$> slots c') = (bare <$> slots c) /\
  (forall i, acts i (started c') =
             acts i (started c) ++ if decide (i < n)%nat then [(a, triggerYield)] else []) /\
  same_rest c c'.
Proof.
  intros Hn Hs. induction n as [|n IH]; simpl.
  - split; [done|]. split; [done|]. split; [|done]. intros i. by rewrite app_nil_r.
  - destruct IH as (IH1 & IH2 & IH3 & R); [lia|].
    assert (Hlen : (n < length (slots (start_all n a c)))%nat) by (destruct R as (_ & _ & _ & -> & _); lia).
    split; [by apply start_and_go_sound|]. split.
    { rewrite <- IH2. unfold start_and_go. simpl. apply bare_alter. }
    split.
    + intros i. unfold start_and_go. simpl. rewrite acts_snoc, IH3. simpl. rewrite <- app_assoc. f_equal.
      repeat case_decide; (done || lia).
    + destruct (start_and_go_rest n a triggerYield (start_all n a c)) as (E1 & E2 & E3 & E4 & E5).
      destruct R as (R1 & R2 & R3 & R4 & R5). repeat split; congruence.
Qed.

Definition fires (n : nat) (now : Z) (eff : bool) (i : nat) (s : slot) : bool :=
  bool_decide (i < n)%nat && idle_due now eff s.

Lemma idle_due_bare now eff s : idle_due now eff (bare s) = idle_due now eff s.
Proof. done. Qed.

(** Instances are examined once each: what an earlier turn of the loop did to
    other instances does not matter. *)
Lemma fires_S n now eff i s :
  fires (S n) now eff i s = fires n now eff i s || (bool_decide (i = n) && idle_due now eff s).
Proof.
  unfold fires. repeat case_bool_decide; try lia; simpl; by rewrite ?orb_false_r.
Qed.

Lemma check_idle_spec hs n now c :
  sound hs (slots c) (started c) (tasks c) ->
  let c' := check_idle n now c in
  sound hs (slots c') (started c') (tasks c') /\ same_rest c c' /\
  (forall i s, slots c !! i = Some s -> exists s', slots c' !! i = Some s' /\
     bare s' = bare (if fires n now (effective c) i s then set_slot_idle true s else s)) /\
  (forall i s, slots c !! i = Some s -> acts i (started c') = acts i (started c) ++
     if fires n now (effective c) i s then [(Unload, triggerIdle)] else []).
Proof.
  intros Hs. induction n as [|n IH]; simpl.
  - split; [done|]. split; [done|]. split; intros i s Hi; unfold fires; simpl; [by exists s|].
    by rewrite app_nil_r.
  - destruct IH as (IH1 & R & IH2 & IH3). set (d := check_idle n now c) in *.
    destruct (slots c !! n) as [s0|] eqn:Hn.
    2: { assert (slots d !! n = None) as ->.
         { apply lookup_ge_None. apply lookup_ge_None in Hn. destruct R as (_ & _ & _ & -> & _). lia. }
         split; [done|]. split; [done|]. split; intros i s Hi; rewrite fires_S.
         all: rewrite bool_decide_eq_false_2 by congruence; simpl; rewrite orb_false_r; by eauto. }
    destruct (IH2 _ _ Hn) as (s & Hd & Hb). rewrite Hd.
    assert (fires n now (effective c) n s0 = false) as Hf.
    { unfold fires. by rewrite bool_decide_eq_false_2 by lia. }
    rewrite Hf in Hb. destruct R as (E1 & E2 & E3 & E4 & E5).
    assert (idle_due now (effective d) s = idle_due now (effective c) s0) as ->.
    { rewrite E1. by rewrite <- (idle_due_bare _ _ s), <- (idle_due_bare _ _ s0), Hb. }
    destruct (idle_due now (effective c) s0) eqn:Hdue.
    + set (d1 := set_slots _ d).
      assert (Hl : length (slots d1) = length (slots c)) by (simpl; by rewrite length_alter).
      assert (Hd1 : forall i s1, slots c !! i = Some s1 -> exists s', slots d1 !! i = Some s' /\
        bare s' = bare (if fires (S n) now (effective c) i s1 then set_slot_idle true s1 else s1)).
      { intros i s1 Hi. rewrite fires_S. simpl. destruct (decide (i = n)) as [->|Hne].
        - rewrite list_lookup_alter_eq, Hd. simpl. eexists. split; [done|]. simplify_eq.
          rewrite Hf, bool_decide_eq_true_2, Hdue by done. simpl.
          destruct s, s0; unfold bare in *; simpl in *; by simplify_eq.
        - rewrite list_lookup_alter_ne by done. rewrite bool_decide_eq_false_2 by done. simpl.
          rewrite orb_false_r. eauto. }
      assert (Hs1 : sound hs (slots d1) (started d1) (tasks d1)).
      { destruct IH1 as [Hc Hp]. split; [|done]. simpl.
        replace (actionDone <$> alter _ _ _) with (actionDone <$> slots d); [done|].
        apply list_eq. intros i. rewrite !list_lookup_fmap, list_lookup_alter.
        case_decide; subst; [|done]. by destruct (slots d !! i). }
      split; [apply start_and_go_sound; [by rewrite Hl; eapply lookup_lt_Some|done]|].
      split.
      { destruct (start_and_go_rest n Unload triggerIdle d1) as (F1 & F2 & F3 & F4 & F5).
        exact (conj (eq_trans F1 E1) (conj (eq_trans F2 E2) (conj (eq_trans F3 E3)
                 (conj (eq_trans F4 Hl) (eq_trans F5 E5))))). }
      split.
      * intros i s1 Hi. destruct (Hd1 _ _ Hi) as (s' & Hs' & Hb').
        assert (Hx : (bare <$> slots (start_and_go n Unload triggerIdle d1)) !! i = Some (bare s')).
        { unfold start_and_go. simpl. rewrite bare_alter, list_lookup_fmap. simpl in Hs'. by rewrite Hs'. }
        rewrite list_lookup_fmap in Hx.
        apply fmap_Some in Hx as (s'' & Hs'' & Hbs). exists s''. split; [done|congruence].
      * intros i s1 Hi. unfold start_and_go. simpl. rewrite acts_snoc, (IH3 _ _ Hi), fires_S. simpl.
        rewrite <- app_assoc. f_equal. destruct (decide (i = n)) as [->|Hne].
        -- simplify_eq. rewrite Hf, decide_True, bool_decide_eq_true_2, Hdue by done. done.
        -- rewrite decide_False, bool_decide_eq_false_2 by done. simpl. by rewrite orb_false_r, app_nil_r.
    + split; [done|]. split; [done|]. split; intros i s1 Hi; rewrite fires_S.
      all: destruct (decide (i = n)) as [->|Hne].
      1,3: simplify_eq; rewrite Hdue, andb_false_r, orb_false_r; eauto.
      all: rewrite bool_decide_eq_false_2 by done; simpl; rewrite orb_false_r; eauto.
Qed.

(** ** The invariants of the running system *)

(** Serve contexts and contention actions follow the number of transitions. *)
Definition phase (n : nat) (l : list order) (ctx : nat) (cs : gset nat) (eff : bool) : Prop :=
  (forall k, k ∈ cs <-> (k < ctx)%nat \/ (k = ctx /\ eff = true)) /\
  forall i, (i < n)%nat -> yields i l = alternating (2 * ctx + Nat.b2n eff).

Record idle_inv (hs : gmap nat (nat * hpc)) (bs : list slot) (l : list order) (eff : bool) : Prop := {
  id_slot : forall r i p, hs !! r = Some (i, p) -> (i < length bs)%nat;
  id_flight : forall i s, bs !! i = Some s -> inFlight s = Z.of_nat (count_map (counted i) hs);
  id_won : forall i s, bs !! i = Some s -> idleUnloaded s = true ->
    forall r, hs !! r <> Some (i, HWon);
  id_asleep : forall i s, bs !! i = Some s -> exists b, asleep false (acts i l) = Some b /\
    (b = true -> idleUnloaded s = true \/ exists r, hs !! r = Some (i, HWon));
  id_last : forall i s t, bs !! i = Some s -> eff = false -> last (acts i l) = Some (Unload, t) ->
    idleUnloaded s = true \/ exists r, hs !! r = Some (i, HWon);
}.

Record inv (s : system) : Prop := {
  inv_sound : sound (handlers s) (slots (ctl s)) (started (ctl s)) (tasks (ctl s));
  inv_phase : phase (length (slots (ctl s))) (started (ctl s)) (serveCtx (ctl s))
                    (canceled (ctl s)) (effective (ctl s));
  inv_idle : idle_inv (handlers s) (bare <$> slots (ctl s)) (started (ctl s)) (effective (ctl s));
}.

Lemma asleep_app b l l' :
  asleep b (l ++ l') = match asleep b l with Some b' => asleep b' l' | None => None end.
Proof.
  revert b. induction l as [|[a t] l IH]; intros b; simpl; [done|].
  destruct a, t; try apply IH. destruct b; [done|apply IH].
Qed.

Lemma yields_app i l l' x : acts i l' = acts i l ++ x ->
  yields i l' = yields i l ++ (filter (fun at_ => at_.2 = triggerYield) x).*1.
Proof. unfold yields. intros ->. by rewrite filter_app, fmap_app. Qed.

(** Orders that are not contention actions leave the phase alone. *)
Lemma phase_mono n l l' ctx cs eff :
  (forall i, (i < n)%nat -> exists x, acts i l' = acts i l ++ x /\
             Forall (fun at_ => at_.2 <> triggerYield) x) ->
  phase n l ctx cs eff -> phase n l' ctx cs eff.
Proof.
  intros Hx [Hc Hy]. split; [done|]. intros i Hi. destruct (Hx i Hi) as (x & He & Hf).
  rewrite (yields_app _ _ _ _ He), Hy by done.
  enough (filter (fun at_ : action * unloadTrigger => at_.2 = triggerYield) x = []) as ->.
  { by rewrite app_nil_r. }
  clear He. induction Hf; [done|]. rewrite filter_cons, decide_False by done. done.
Qed.

(** How one critical section may change an instance. *)
Inductive inst_step (s s' : slot) (eff eff' : bool) : list (action * unloadTrigger) -> Prop :=
| inst_same : idleUnloaded s' = idleUnloaded s -> (eff' = false -> eff = false) ->
    inst_step s s' eff eff' []
| inst_yield : idleUnloaded s' = idleUnloaded s -> eff' = true ->
    inst_step s s' eff eff' [(Unload, triggerYield)]
| inst_clear : idleUnloaded s' = false -> inst_step s s' eff eff' [(Reload, triggerYield)]
| inst_idle : idleUnloaded s = false -> idleUnloaded s' = true -> inFlight s <= 0 ->
    (eff' = false -> eff = false) ->
    inst_step s s' eff eff' [(Unload, triggerIdle)].

Lemma idle_inv_section hs bs l eff bs' l' eff' :
  idle_inv hs bs l eff -> length bs' = length bs ->
  (forall i s', bs' !! i = Some s' -> exists s x, bs !! i = Some s /\ inFlight s' = inFlight s /\
     acts i l' = acts i l ++ x /\ inst_step s s' eff eff' x) ->
  idle_inv hs bs' l' eff'.
Proof.
  intros Hi Hlen Hst. pose proof Hi as []. split.
  - rewrite Hlen. done.
  - intros i s' Hs'. destruct (Hst _ _ Hs') as (s & x & Hs & -> & _). eauto.
  - intros i s' Hs' Hu r Hr. destruct (Hst _ _ Hs') as (s & x & Hs & _ & _ & Hx).
    inversion Hx as [Hsame _|Hsame _|Hsame|Hf Ht Hz _]; subst; try (eapply id_won0; [done|congruence|done]).
    rewrite (id_flight0 _ _ Hs) in Hz.
    pose proof (count_map_zero (counted i) hs r (i, HWon) ltac:(lia) Hr) as Hc.
    unfold counted in Hc. simpl in Hc. by rewrite bool_decide_eq_true_2 in Hc.
  - intros i s' Hs'. destruct (Hst _ _ Hs') as (s & x & Hs & _ & -> & Hx).
    rewrite asleep_app. destruct (id_asleep0 _ _ Hs) as (b & -> & Hb).
    inversion Hx as [Hsame _|Hsame _|Hsame|Hf Ht Hz _]; subst; simpl.
    + exists b. rewrite Hsame. done.
    + exists b. rewrite Hsame. done.
    + by exists false.
    + destruct b; [|by exists true; auto]. exfalso. destruct (Hb eq_refl) as [Hx'|(r & Hr)]; [congruence|].
      rewrite (id_flight0 _ _ Hs) in Hz.
      pose proof (count_map_zero (counted i) hs r (i, HWon) ltac:(lia) Hr) as Hc.
      unfold counted in Hc. simpl in Hc. by rewrite bool_decide_eq_true_2 in Hc.
  - intros i s' t Hs' He Hl. destruct (Hst _ _ Hs') as (s & x & Hs & _ & Ha & Hx). rewrite Ha in Hl.
    inversion Hx as [Hsame Hef|Hsame Hef|Hsame|Hf Ht Hz Hef]; subst x.
    + rewrite app_nil_r in Hl. rewrite Hsame. eauto.
    + congruence.
    + rewrite last_snoc in Hl. done.
    + by left.
Qed.

Lemma alternating_unload n : alternating (2 * n + Nat.b2n true) = alternating (2 * n + Nat.b2n false) ++ [Unload].
Proof.
  change (Nat.b2n true) with 1%nat. change (Nat.b2n false) with 0%nat.
  rewrite Nat.add_0_r, Nat.add_1_r. cbn [alternating].
  by rewrite (proj2 (Nat.even_spec (2 * n))) by (by exists n).
Qed.

Lemma alternating_reload n : alternating (2 * S n + Nat.b2n false) = alternating (2 * n + Nat.b2n true) ++ [Reload].
Proof.
  change (Nat.b2n true) with 1%nat. change (Nat.b2n false) with 0%nat.
  replace (2 * S n + 0)%nat with (S (2 * n + 1)) by lia. cbn [alternating].
  replace (Nat.even (2 * n + 1)) with false; [done|].
  rewrite Nat.even_add, Nat.even_mul. done.
Qed.

#[local] Arguments alternating : simpl never.

(** A transition orders one contention action on every instance. *)
Lemma phase_next n l l' ctx cs eff ctx' cs' eff' a :
  phase n l ctx cs eff ->
  (forall i, (i < n)%nat -> acts i l' = acts i l ++ [(a, triggerYield)]) ->
  (forall k, k ∈ cs' <-> (k < ctx')%nat \/ (k = ctx' /\ eff' = true)) ->
  alternating (2 * ctx' + Nat.b2n eff') = alternating (2 * ctx + Nat.b2n eff) ++ [a] ->
  phase n l' ctx' cs' eff'.
Proof.
  intros [_ Hy] Ha Hc Halt. split; [done|]. intros i Hi.
  by rewrite (yields_app _ _ _ _ (Ha i Hi)), Hy, Halt.
Qed.

Lemma applyLocked_inv now s :
  inv s -> let c' := (applyLocked now (ctl s)).2 in
  inv (set_ctl c' s) /\ effective c' = (computeLocked c').1.
Proof.
  intros [Hs Hp Hi]. unfold applyLocked. destruct (computeLocked (ctl s)) as [eff r] eqn:Hcmp.
  destruct (Bool.eqb eff (effective (ctl s))) eqn:He.
  { apply eqb_prop in He as ->. simpl. rewrite Hcmp. split; [by split|done]. }
  apply eqb_false_iff in He. destruct eff.
  - assert (Hf : effective (ctl s) = false) by (by destruct (effective (ctl s))).
    set (c1 := set_serving true _ _ (ctl s)).
    destruct (start_all_spec (handlers s) (length (slots c1)) Unload c1) as (S1 & S2 & S3 & E1 & E2 & E3 & E4 & E5);
      [lia|done|].
    set (c2 := start_all _ _ _) in *.
    change (computeLocked c1) with (computeLocked (ctl s)) in E5. simpl in E1, E2, E3, E4.
    split; [|change (effective c2 = (computeLocked c2).1); by rewrite E1, E5, Hcmp].
    split; [done| |].
    + change (phase (length (slots c2)) (started c2) (serveCtx c2) (canceled c2) (effective c2)).
      rewrite E1, E2, E3, E4. eapply phase_next; [exact Hp| | |].
      * intros i Hi'. rewrite S3, decide_True by done. done.
      * destruct Hp as [Hc _]. rewrite Hf in Hc. intros k.
        rewrite elem_of_union, elem_of_singleton, Hc. naive_solver lia.
      * rewrite Hf. apply alternating_unload.
    + change (idle_inv (handlers s) (bare <$> slots c2) (started c2) (effective c2)). rewrite E1.
      eapply idle_inv_section; [exact Hi|by rewrite !length_fmap|]. rewrite S2. intros i s' Hs'.
      exists s', [(Unload, triggerYield)]. split; [done|]. split; [done|]. split.
      * rewrite S3, decide_True; [done|]. apply lookup_lt_Some in Hs'. by rewrite length_fmap in Hs'.
      * by apply inst_yield.
  - assert (Ht : effective (ctl s) = true) by (by destruct (effective (ctl s))).
    set (c1 := set_serving false _ _ (ctl s)).
    destruct (start_all_spec (handlers s) (length (slots c1)) Reload c1) as (S1 & S2 & S3 & E1 & E2 & E3 & E4 & E5);
      [lia|done|].
    set (c2 := start_all _ _ _) in *. set (f := fun sl => set_slot_idle false (set_slot_dispatch now sl)).
    change (computeLocked c1) with (computeLocked (ctl s)) in E5. simpl in E1, E2, E3, E4.
    split; [|change (effective c2 = (computeLocked c2).1); by rewrite E1, E5, Hcmp].
    split.
    + destruct S1 as [Sc Sp]. split; [|done].
      change (chained (actionDone <$> (f <$> slots c2)) (started c2) (tasks c2)).
      by rewrite <- list_fmap_compose.
    + change (phase (length (f <$> slots c2)) (started c2) (serveCtx c2) (canceled c2) (effective c2)).
      rewrite length_fmap, E1, E2, E3, E4. eapply phase_next; [exact Hp| | |].
      * intros i Hi'. rewrite S3, decide_True by done. done.
      * destruct Hp as [Hc _]. rewrite Ht in Hc. intros k. rewrite Hc. naive_solver lia.
      * rewrite Ht. apply alternating_reload.
    + change (idle_inv (handlers s) (bare <$> (f <$> slots c2)) (started c2) (effective c2)). rewrite E1.
      assert (Hbf : bare <$> (f <$> slots c2) = f <$> (bare <$> slots (ctl s))).
      { change (slots (ctl s)) with (slots c1). rewrite <- S2, <- !list_fmap_compose. done. }
      eapply idle_inv_section; [exact Hi|by rewrite Hbf, !length_fmap|]. rewrite Hbf. intros i s' Hs'.
      rewrite list_lookup_fmap in Hs'. apply fmap_Some in Hs' as (s0 & Hs0 & ->).
      exists s0, [(Reload, triggerYield)]. split; [done|]. split; [done|]. split.
      * rewrite S3, decide_True; [done|]. apply lookup_lt_Some in Hs0. by rewrite length_fmap in Hs0.
      * by apply inst_clear.
Qed.

Lemma checkIdleLocked_inv now s :
  inv s -> let c' := checkIdleLocked now (ctl s) in
  inv (set_ctl c' s) /\ effective c' = effective (ctl s) /\ computeLocked c' = computeLocked (ctl s).
Proof.
  intros [Hs Hp Hi]. unfold checkIdleLocked.
  destruct (check_idle_spec (handlers s) (length (slots (ctl s))) now (ctl s) Hs)
    as (S1 & (E1 & E2 & E3 & E4 & E5) & S2 & S3).
  set (c' := check_idle _ _ _) in *. split; [|done]. split; [done| |]; simpl.
  - rewrite E1, E2, E3, E4. eapply phase_mono; [|done]. intros i [s0 Hs0]%lookup_lt_is_Some.
    eexists. split; [by apply S3|]. destruct (fires _ _ _ _ _); repeat constructor. done.
  - rewrite E1. eapply idle_inv_section; [exact Hi|by rewrite !length_fmap|]. intros i s' Hs'.
    assert (is_Some (slots (ctl s) !! i)) as [s0 Hs0].
    { apply lookup_lt_is_Some. apply lookup_lt_Some in Hs'. by rewrite length_fmap, E4 in Hs'. }
    destruct (S2 _ _ Hs0) as (s1 & Hs1 & Hb). rewrite list_lookup_fmap, Hs1 in Hs'. cbn [fmap option_fmap option_map] in Hs'.
    exists (bare s0), (if fires (length (slots (ctl s))) now (effective (ctl s)) i s0 then [(Unload, triggerIdle)] else []).
    rewrite list_lookup_fmap, Hs0. injection Hs' as <-. split; [done|]. rewrite Hb.
    split; [by destruct (fires _ _ _ _ _)|]. split; [by apply S3|].
    destruct (fires _ _ _ _ _) eqn:Hf; [|by apply inst_same].
    unfold fires, idle_due in Hf. rewrite !andb_true_iff, !negb_true_iff in Hf.
    destruct Hf as (_ & (((_ & He) & Hfl) & Hid) & _). apply inst_idle; [done|done| |done].
    simpl. by apply Z.ltb_ge.
Qed.

(** What one step of a handler may do to its instance: keep it, win the wake
    (only when it was idle-unloaded), or order the reload it won. *)
Inductive wake_step (p p' : hpc) (u u' : bool) : list (action * unloadTrigger) -> Prop :=
| wake_none : p <> HWon -> p' <> HWon -> u' = u -> wake_step p p' u u' []
| wake_win : p <> HWon -> p' = HWon -> u = true -> u' = false -> wake_step p p' u u' []
| wake_order : p = HWon -> p' <> HWon -> u' = u -> wake_step p p' u u' [(Reload, triggerIdle)].

Lemma idle_inv_handler hs bs l eff l' r i p p' s s' x :
  idle_inv hs bs l eff -> hs !! r = Some (i, p) -> bs !! i = Some s ->
  inFlight s' + Z.b2z (counted i (i, p)) = inFlight s + Z.b2z (counted i (i, p')) ->
  (forall j, acts j l' = acts j l ++ if decide (j = i) then x else []) ->
  wake_step p p' (idleUnloaded s) (idleUnloaded s') x ->
  idle_inv (<[r := (i, p')]> hs) (<[i := s']> bs) l' eff.
Proof.
  intros [] Hr Hs Hfl Ha Hx.
  assert (Hlt : (i < length bs)%nat) by (by eapply lookup_lt_Some).
  assert (Hbs : forall j sj, <[i := s']> bs !! j = Some sj ->
    exists sj0, bs !! j = Some sj0 /\ ((j = i /\ sj = s' /\ sj0 = s) \/ (j <> i /\ sj = sj0))).
  { intros j sj Hj. destruct (decide (j = i)) as [->|Hne].
    - rewrite list_lookup_insert_eq in Hj by done. simplify_eq. exists s. auto.
    - rewrite list_lookup_insert_ne in Hj by done. exists sj. auto. }
  assert (Hwon : forall j, (exists q, hs !! q = Some (j, HWon)) -> (j = i -> p <> HWon) ->
                 exists q, <[r := (i, p')]> hs !! q = Some (j, HWon)).
  { intros j (q & Hq) Hj. exists q. rewrite lookup_insert_ne; [done|].
    intros ->. rewrite Hr in Hq. injection Hq as -> ->. by apply Hj. }
  split.
  - intros q j pj. rewrite length_insert. destruct (decide (q = r)) as [->|]; intros Hq; simplify_map_eq; eauto.
  - intros j sj Hj. destruct (Hbs _ _ Hj) as (sj0 & Hj0 & Hcase).
    pose proof (count_map_insert (counted j) hs r _ (i, p') Hr) as Hcnt.
    specialize (id_flight0 _ _ Hj0). destruct Hcase as [(-> & -> & ->)|[Hne ->]].
    + unfold Nat.b2n, Z.b2z in *. repeat case_match; lia.
    + assert (Hc : forall q, counted j (i, q) = false) by (intros; unfold counted; by rewrite bool_decide_eq_false_2 by (simpl; congruence)).
      rewrite !Hc in Hcnt. simpl in Hcnt. lia.
  - intros j sj Hj Hu q Hq. destruct (Hbs _ _ Hj) as (sj0 & Hj0 & Hcase).
    destruct (decide (q = r)) as [->|]; simplify_map_eq.
    + destruct Hcase as [(? & ? & ?)|[? ?]]; [|done]. simplify_eq. inversion Hx; congruence.
    + eapply (id_won0 j); [exact Hj0| |exact Hq].
      destruct Hcase as [(_ & -> & ->)|[? ->]]; [|done]. inversion Hx; congruence.
  - intros j sj Hj. destruct (Hbs _ _ Hj) as (sj0 & Hj0 & Hcase). rewrite Ha, asleep_app.
    destruct (id_asleep0 _ _ Hj0) as (b & -> & Hb). destruct Hcase as [(-> & -> & ->)|[Hne ->]].
    + rewrite decide_True by done. inversion Hx as [Hp Hp' Hu|Hp Hp' Hu Hu'|Hp Hp' Hu]; subst; simpl.
      * exists b. split; [done|]. rewrite Hu. intros Hbt. destruct (Hb Hbt); [by left|right; by apply Hwon].
      * exists b. split; [done|]. intros _. right. exists r. by rewrite lookup_insert_eq.
      * by exists false.
    + rewrite decide_False by done. exists b. split; [done|]. intros Hbt.
      destruct (Hb Hbt); [by left|right; by apply Hwon].
  - intros j sj t Hj He Hl. destruct (Hbs _ _ Hj) as (sj0 & Hj0 & Hcase). rewrite Ha in Hl.
    destruct Hcase as [(-> & -> & ->)|[Hne ->]].
    + rewrite decide_True in Hl by done.
      inversion Hx as [Hp Hp' Hu|Hp Hp' Hu Hu'|Hp Hp' Hu]; subst x.
      * rewrite app_nil_r in Hl. rewrite Hu.
        destruct (id_last0 _ _ _ Hj0 He Hl); [by left|right; by apply Hwon].
      * right. exists r. subst p'. by rewrite lookup_insert_eq.
      * by rewrite last_snoc in Hl.
    + rewrite decide_False, app_nil_r in Hl by done.
      destruct (id_last0 _ _ _ Hj0 He Hl); [by left|right; by apply Hwon].
Qed.

Lemma idle_inv_enter hs bs l eff r i s s' :
  idle_inv hs bs l eff -> hs !! r = None -> bs !! i = Some s ->
  inFlight s' = inFlight s + 1 -> idleUnloaded s' = idleUnloaded s ->
  idle_inv (<[r := (i, HCounted)]> hs) (<[i := s']> bs) l eff.
Proof.
  intros [] Hr Hs Hfl Hu.
  assert (Hbs : forall j sj, <[i := s']> bs !! j = Some sj ->
    exists sj0, bs !! j = Some sj0 /\ idleUnloaded sj = idleUnloaded sj0 /\
                inFlight sj = inFlight sj0 + Z.b2z (counted j (i, HCounted))).
  { intros j sj Hj. unfold counted. simpl. destruct (decide (j = i)) as [->|Hne].
    - rewrite list_lookup_insert_eq in Hj by (by eapply lookup_lt_Some). simplify_eq. exists s.
      by rewrite bool_decide_eq_true_2.
    - rewrite list_lookup_insert_ne in Hj by done. exists sj.
      rewrite bool_decide_eq_false_2 by congruence. simpl. by rewrite Z.add_0_r. }
  assert (Hwon : forall j, (exists q, hs !! q = Some (j, HWon)) ->
                 exists q, <[r := (i, HCounted)]> hs !! q = Some (j, HWon)).
  { intros j (q & Hq). exists q. rewrite lookup_insert_ne; [done|congruence]. }
  split.
  - intros q j pj. rewrite length_insert. destruct (decide (q = r)) as [->|]; intros Hq; simplify_map_eq; [|eauto].
    by eapply lookup_lt_Some.
  - intros j sj (sj0 & Hj0 & _ & ->)%Hbs. rewrite count_map_insert_fresh by done.
    rewrite (id_flight0 _ _ Hj0). unfold Nat.b2n, Z.b2z. case_match; lia.
  - intros j sj (sj0 & Hj0 & -> & _)%Hbs Hu' q Hq.
    destruct (decide (q = r)) as [->|]; simplify_map_eq. by eapply id_won0.
  - intros j sj (sj0 & Hj0 & -> & _)%Hbs. destruct (id_asleep0 _ _ Hj0) as (b & Hb & Hbt).
    exists b. split; [done|]. intros Ht. destruct (Hbt Ht); [by left|right; by apply Hwon].
  - intros j sj t (sj0 & Hj0 & -> & _)%Hbs He Hl.
    destruct (id_last0 _ _ _ Hj0 He Hl); [by left|right; by apply Hwon].
Qed.

Definition ordered_pc (p : hpc) : bool := match p with HOrdered _ => true | _ => false end.

Lemma pending_handler hs l ts r i p p' :
  pending hs l ts -> (hs !! r = None \/ hs !! r = Some (i, p)) -> ordered_pc p = false ->
  ordered_pc p' = false -> pending (<[r := (i, p')]> hs) l ts.
Proof.
  intros [] Hr Hp Hp'. split.
  - intros q j k Hq. destruct (decide (q = r)) as [->|]; simplify_map_eq. eauto.
  - intros q q' j j' k Hq Hq'. destruct (decide (q = r)) as [->|], (decide (q' = r)) as [->|]; simplify_map_eq; eauto.
  - intros k Hk. destruct (pe_all0 _ Hk) as [|(q & j & Hq)]; [by left|]. right. exists q, j.
    rewrite lookup_insert_ne; [done|]. intros ->. destruct Hr as [Hr|Hr]; rewrite Hr in Hq; [done|].
    injection Hq as -> ->. done.
Qed.

Lemma pending_order hs l ts r i p o :
  pending hs l ts -> hs !! r = Some (i, p) -> ordered_pc p = false -> o_inst o = i ->
  (forall k t, ts !! k = Some t -> (k < length l)%nat) ->
  pending (<[r := (i, HOrdered (length l))]> hs) (l ++ [o]) ts.
Proof.
  intros [] Hr Hp Ho Hd. split.
  - intros q j k Hq. destruct (decide (q = r)) as [->|]; simplify_map_eq.
    + split; [exists o; split; [by apply list_lookup_middle|done]|].
      destruct (ts !! length l) eqn:E; [|done]. specialize (Hd _ _ E). lia.
    + destruct (pe_fresh0 _ _ _ Hq) as ((x & Hx & ?) & ?). split; [|done].
      exists x. split; [by apply lookup_app_l_Some|done].
  - intros q q' j j' k Hq Hq'.
    assert (Hnew : forall q j, hs !! q = Some (j, HOrdered (length l)) -> False).
    { intros q0 j0 Hq0. destruct (pe_fresh0 _ _ _ Hq0) as ((x & Hx%lookup_lt_Some & _) & _). lia. }
    destruct (decide (q = r)) as [->|], (decide (q' = r)) as [->|]; simplify_map_eq; eauto.
    all: exfalso; by eapply Hnew.
  - intros k Hk. rewrite length_app in Hk. simpl in Hk.
    destruct (decide (k = length l)) as [->|].
    + right. exists r, i. by rewrite lookup_insert_eq.
    + destruct (pe_all0 k) as [|(q & j & Hq)]; [lia|by left|]. right. exists q, j.
      rewrite lookup_insert_ne; [done|]. intros ->. rewrite Hr in Hq. injection Hq as -> ->. done.
Qed.

Lemma pending_spawn hs l ts r i k :
  pending hs l ts -> hs !! r = Some (i, HOrdered k) ->
  pending (<[r := (i, HServing)]> hs) l (<[k := TWaiting]> ts).
Proof.
  intros [] Hr. split.
  - intros q j m Hq. destruct (decide (q = r)) as [->|]; simplify_map_eq.
    destruct (pe_fresh0 _ _ _ Hq) as (? & ?). split; [done|]. rewrite lookup_insert_ne; [done|].
    intros ->. by assert (r = q) by (by eapply pe_unique0).
  - intros q q' j j' m Hq Hq'.
    destruct (decide (q = r)) as [->|], (decide (q' = r)) as [->|]; simplify_map_eq; eauto.
  - intros m Hm. destruct (decide (m = k)) as [->|]; simplify_map_eq; [by left|].
    destruct (pe_all0 _ Hm) as [|(q & j & Hq)]; [by left|]. right. exists q, j.
    rewrite lookup_insert_ne; [done|]. intros ->. congruence.
Qed.

Lemma pending_task hs l ts k t t' :
  pending hs l ts -> ts !! k = Some t -> pending hs l (<[k := t']> ts).
Proof.
  intros [] Hk. split; [|done|].
  - intros r i m Hr. destruct (pe_fresh0 _ _ _ Hr) as (? & ?). split; [done|].
    rewrite lookup_insert_ne; [done|congruence].
  - intros m Hm. destruct (decide (m = k)) as [->|]; simplify_map_eq; [by left|]. eauto.
Qed.

Lemma alter_insert_slot (f : slot -> slot) i (l : list slot) s :
  l !! i = Some s -> alter f i l = <[i := f s]> l.
Proof.
  intros Hi. apply list_eq. intros j. destruct (decide (i = j)) as [->|].
  - rewrite list_lookup_alter_eq, Hi, list_lookup_insert_eq; [done|]. by eapply lookup_lt_Some.
  - by rewrite list_lookup_alter_ne, list_lookup_insert_ne.
Qed.

Lemma insert_same_field {B} (g : slot -> B) (l : list slot) i s s' :
  l !! i = Some s -> g s' = g s -> g <$> <[i := s']> l = g <$> l.
Proof.
  intros Hi Hg. rewrite list_fmap_insert, Hg. apply list_insert_id. by rewrite list_lookup_fmap, Hi.
Qed.

(** A handler step that orders no action. *)
Lemma handler_inv s r i p p' sl sl' :
  inv s -> handlers s !! r = Some (i, p) -> slots (ctl s) !! i = Some sl ->
  ordered_pc p = false -> ordered_pc p' = false -> actionDone sl' = actionDone sl ->
  inFlight sl' + Z.b2z (counted i (i, p)) = inFlight sl + Z.b2z (counted i (i, p')) ->
  wake_step p p' (idleUnloaded sl) (idleUnloaded sl') [] ->
  inv (set_handler r i p' (set_ctl (set_slots (<[i := sl']> (slots (ctl s))) (ctl s)) s)).
Proof.
  intros [[Hc Hp] Hph Hi] Hr Hs Ho Ho' Hd Hf Hw. split; simpl.
  - split; [by rewrite (insert_same_field actionDone _ _ sl)|].
    eapply pending_handler; [done|by right|done|done].
  - by rewrite length_insert.
  - rewrite list_fmap_insert. eapply (idle_inv_handler _ _ _ _ _ r i p p' (bare sl)); [done|done| |exact Hf| |exact Hw].
    + by rewrite list_lookup_fmap, Hs.
    + intros j. case_decide; by rewrite app_nil_r.
Qed.

(** The steps of the controller alone. *)
Lemma section_inv s c : inv s -> slots c = slots (ctl s) -> started c = started (ctl s) ->
  tasks c = tasks (ctl s) -> serveCtx c = serveCtx (ctl s) -> canceled c = canceled (ctl s) ->
  effective c = effective (ctl s) -> inv (set_ctl c s).
Proof. intros [] E1 E2 E3 E4 E5 E6. split; simpl; by rewrite ?E1, ?E2, ?E3, ?E4, ?E5, ?E6. Qed.

Lemma debounceLocked_confirm reason b c :
  exists n w, (debounceLocked reason b c).2 = set_confirm n w c.
Proof.
  unfold debounceLocked. destruct b; simpl; [|by eexists _, _].
  destruct (String.eqb reason (confirmReason c)); simpl;
    match goal with |- context [if ?x then _ else _] => destruct x end; by eexists _, _.
Qed.

Lemma refresh_inv reason b now s :
  inv s -> let c' := refresh reason b now (ctl s) in
  inv (set_ctl c' s) /\ effective c' = (computeLocked c').1.
Proof.
  intros Hi. unfold refresh.
  destruct (debounceLocked reason b (ctl s)) as [[b' r'] c0] eqn:Hd.
  assert (H0 : inv (set_ctl (set_lastPoll now (set_auto b' r' c0)) s)).
  { destruct (debounceLocked_confirm reason b (ctl s)) as (n & w & E). rewrite Hd in E. simpl in E.
    subst c0. by apply section_inv. }
  pose proof (applyLocked_inv now _ H0) as [H1 He]. simpl in H1, He.
  destruct (applyLocked now _) as [[ev r] c1]. simpl in *.
  pose proof (checkIdleLocked_inv now _ H1) as (H2 & He2 & Hc2). simpl in *.
  split; [done|]. by rewrite He2, Hc2.
Qed.

Lemma SetMode_inv m now s :
  inv s -> let c' := SetMode m now (ctl s) in
  inv (set_ctl c' s) /\ effective c' = (computeLocked c').1.
Proof.
  intros Hi. assert (H0 : inv (set_ctl (set_mode m (ctl s)) s)) by (by apply section_inv).
  exact (applyLocked_inv now _ H0).
Qed.

Lemma order_inv s r i sl : inv s -> handlers s !! r = Some (i, HWon) -> slots (ctl s) !! i = Some sl ->
  let '(done, c') := startAction i Reload triggerIdle (ctl s) in
  inv (set_handler r i (HOrdered done) (set_ctl c' s)).
Proof.
  intros [[Hc Hp] Hph Hi] Hr Hs. simpl. rewrite Hs.
  set (o := Order i Reload triggerIdle (actionDone sl)). split; simpl.
  - split.
    + rewrite dones_alter. apply chained_start; [done|]. by rewrite list_lookup_fmap, Hs.
    + eapply pending_order; [done|done|done|done|apply Hc].
  - rewrite length_alter. eapply phase_mono; [|done]. intros j _. eexists. split; [apply acts_snoc|].
    simpl. case_decide; repeat constructor. done.
  - rewrite bare_alter. assert (Hb : (bare <$> slots (ctl s)) !! i = Some (bare sl)) by (by rewrite list_lookup_fmap, Hs).
    rewrite <- (list_insert_id (bare <$> slots (ctl s)) i (bare sl)) by done.
    eapply (idle_inv_handler _ _ _ _ _ r i HWon _ (bare sl)); [done|done|done| | |by apply wake_order].
    + unfold counted. simpl. done.
    + intros j. rewrite acts_snoc. simpl. f_equal. repeat case_decide; congruence.
Qed.

Lemma task_inv s k t t' : inv s -> tasks (ctl s) !! k = Some t ->
  chained (actionDone <$> slots (ctl s)) (started (ctl s)) (<[k := t']> (tasks (ctl s))) ->
  inv (set_ctl (set_tasks (<[k := t']> (tasks (ctl s))) (ctl s)) s).
Proof.
  intros [[Hc Hp] Hph Hi] Hk Hc'. split; [|done..]. split; [done|]. by eapply pending_task.
Qed.

Lemma tracked_enter_inv s r i sl : inv s -> handlers s !! r = None -> slots (ctl s) !! i = Some sl ->
  inv (set_handler r i HCounted (set_ctl (set_slots (<[i := set_slot_inFlight (inFlight sl + 1) sl]>
       (slots (ctl s))) (ctl s)) s)).
Proof.
  intros [[Hc Hp] Hph Hi] Hr Hs. split; simpl.
  - split; [by rewrite (insert_same_field actionDone _ _ sl)|].
    eapply (pending_handler _ _ _ _ _ HCounted); [done|by left|done|done].
  - by rewrite length_insert.
  - rewrite list_fmap_insert. eapply (idle_inv_enter _ _ _ _ _ _ (bare sl)); [done|done| |done|done].
    by rewrite list_lookup_fmap, Hs.
Qed.

Lemma spawn_inv s r i k : inv s -> handlers s !! r = Some (i, HOrdered k) ->
  inv (set_handler r i HServing (set_ctl (go_task k (ctl s)) s)).
Proof.
  intros [[Hc Hp] Hph Hi] Hr. destruct (pe_fresh _ _ _ Hp _ _ _ Hr) as ((o & Ho & _) & Hn).
  split; simpl; [|done|].
  - split; [|by eapply pending_spawn]. apply chained_go; [done|by eapply lookup_lt_Some|done].
  - destruct (lookup_lt_is_Some_2 (bare <$> slots (ctl s)) i) as [b Hb]; [by eapply id_slot|].
    rewrite <- (list_insert_id (bare <$> slots (ctl s)) i b) by done.
    eapply (idle_inv_handler _ _ _ _ _ r i _ _ b _ []); [done|done|done|done| |by apply wake_none].
    intros j. case_decide; by rewrite app_nil_r.
Qed.

Lemma yield_step_inv s e s' : inv s -> step e s = Next s' -> inv s'.
Proof.
  intros Hi Hs. destruct e as [reason b now|m now|r i|r now|r|r|r|r|r now|k|k|]; simpl in Hs.
  - simplify_eq. by apply refresh_inv.
  - simplify_eq. by apply SetMode_inv.
  - destruct (handlers s !! r) eqn:Hr; [done|]. destruct (slots (ctl s) !! i) as [sl|] eqn:Hsl; [|done].
    simplify_eq. unfold on_slot. rewrite (alter_insert_slot _ _ _ sl) by done. by apply tracked_enter_inv.
  - destruct (handlers s !! r) as [[i []]|] eqn:Hr; try done. simplify_eq.
    destruct (lookup_lt_is_Some_2 (slots (ctl s)) i) as [sl Hsl].
    { pose proof (id_slot _ _ _ _ (inv_idle _ Hi) _ _ _ Hr). by rewrite length_fmap in *. }
    unfold on_slot. rewrite (alter_insert_slot _ _ _ sl) by done.
    eapply handler_inv; [done|exact Hr|exact Hsl|done|done|done| |by apply wake_none].
    unfold counted; simpl; by destruct (bool_decide _).
  - destruct (handlers s !! r) as [[i []]|] eqn:Hr; try done.
    destruct (slots (ctl s) !! i) as [sl|] eqn:Hsl; [|done]. destruct (idleUnloaded sl) eqn:Hu; simplify_eq.
    + unfold on_slot. rewrite (alter_insert_slot _ _ _ sl) by done.
      by eapply handler_inv; [done|exact Hr|exact Hsl|done|done|done| |by apply wake_win].
    + replace (set_handler r i HServing s) with
        (set_handler r i HServing (set_ctl (set_slots (<[i := sl]> (slots (ctl s))) (ctl s)) s)).
      * by eapply handler_inv; [done|exact Hr|exact Hsl|done|done|done| |by apply wake_none].
      * rewrite list_insert_id by done. destruct s as [c ?]. by destruct c.
  - destruct (handlers s !! r) as [[i []]|] eqn:Hr; try done.
    destruct (lookup_lt_is_Some_2 (slots (ctl s)) i) as [sl Hsl].
    { pose proof (id_slot _ _ _ _ (inv_idle _ Hi) _ _ _ Hr). by rewrite length_fmap in *. }
    pose proof (order_inv s r i sl Hi Hr Hsl) as Ho. simpl in *. by simplify_eq.
  - destruct (handlers s !! r) as [[i []]|] eqn:Hr; try done. simplify_eq. by apply spawn_inv.
  - destruct (handlers s !! r) as [[i []]|] eqn:Hr; try done.
    destruct (slots (ctl s) !! i) as [sl|] eqn:Hsl; [|done]. simplify_eq.
    unfold on_slot. rewrite (alter_insert_slot _ _ _ sl) by done.
    eapply handler_inv; [done..| |by apply wake_none].
    unfold counted. simpl. rewrite bool_decide_eq_true_2 by done. simpl. lia.
  - destruct (handlers s !! r) as [[i []]|] eqn:Hr; try done. simplify_eq.
    destruct (lookup_lt_is_Some_2 (slots (ctl s)) i) as [sl Hsl].
    { pose proof (id_slot _ _ _ _ (inv_idle _ Hi) _ _ _ Hr). by rewrite length_fmap in *. }
    unfold on_slot. rewrite (alter_insert_slot _ _ _ sl) by done.
    eapply handler_inv; [done|exact Hr|exact Hsl|done|done|done| |by apply wake_none].
    unfold counted; simpl; by destruct (bool_decide _).
  - destruct (tasks (ctl s) !! k) as [[]|] eqn:Hk; try done.
    destruct (started (ctl s) !! k) as [o|] eqn:Ho; [|done].
    destruct (wait_over (o_wait o) (ctl s)) eqn:Hw; simplify_eq.
    eapply task_inv; [done|done|]. eapply chained_run; [apply Hi|done|done|].
    unfold wait_over in Hw. repeat case_match; done.
  - destruct (tasks (ctl s) !! k) as [[]|] eqn:Hk; try done. simplify_eq.
    eapply task_inv; [done|done|]. apply chained_finish; [apply Hi|done].
  - simplify_eq. by apply section_inv.
Qed.

(** ** The initial states *)

Definition fresh_slot (s : slot) : Prop :=
  actionDone s = None /\ inFlight s = 0 /\ idleUnloaded s = false.

Lemma filter_unloaders_fresh us labels now i post :
  Forall fresh_slot (filter_unloaders us labels now i post).1.
Proof.
  revert i post. induction us as [|[u|] us IH]; intros i post; simpl.
  - constructor.
  - specialize (IH (S i) (post + 1)). destruct (filter_unloaders us labels now (S i) (post + 1)).
    by constructor.
  - specialize (IH (S i) post). by destruct (filter_unloaders us labels now (S i) post).
Qed.

Lemma configure_idle_fresh ds posts ss ss' :
  Forall fresh_slot ss -> configure_idle ds posts ss = Next ss' -> Forall fresh_slot ss'.
Proof.
  revert posts ss. induction ds as [|d ds IH]; intros [|p posts] ss Hf Hc; simplify_eq/=; try done.
  destruct (p =? -1).
  - destruct (d =? 0); simpl in Hc; [by eapply IH|done].
  - destruct (ss !! Z.to_nat p) as [s|] eqn:Hs; [|done].
    eapply IH; [|done]. rewrite (alter_insert_slot _ _ _ s) by done.
    apply Forall_insert; [done|]. by apply (Forall_lookup_1 _ _ _ _ Hf) in Hs.
Qed.

Lemma New_fields us labels iv confirm now :
  let c := NewWithConfirmMulti us labels iv confirm now in
  Forall fresh_slot (slots c) /\ started c = [] /\ tasks c = ∅ /\ serveCtx c = 0%nat /\
  canceled c = ∅ /\ effective c = false /\ mode c = ModeAuto /\ autoContended c = false /\
  autoReason c = "" /\ confirmCount c = 0 /\ confirmReason c = "" /\
  confirmPolls c = Z.max 1 confirm.
Proof.
  unfold NewWithConfirmMulti. pose proof (filter_unloaders_fresh us labels now 0 0).
  destruct (filter_unloaders us labels now 0 0). simpl in *. repeat (split; [done|]).
  destruct (Z.ltb_spec confirm 1); lia.
Qed.

Lemma init_fields s : init s ->
  handlers s = ∅ /\ Forall fresh_slot (slots (ctl s)) /\ started (ctl s) = [] /\ tasks (ctl s) = ∅ /\
  serveCtx (ctl s) = 0%nat /\ canceled (ctl s) = ∅ /\ effective (ctl s) = false /\
  mode (ctl s) = ModeAuto /\ autoContended (ctl s) = false /\ autoReason (ctl s) = "" /\
  confirmCount (ctl s) = 0 /\ confirmReason (ctl s) = "".
Proof.
  intros (us & ls & iv & cf & now & g & ds & c & Hc & ->). simpl.
  destruct (New_fields us ls iv cf now) as (F1 & F2 & F3 & F4 & F5 & F6 & F7 & F8 & F9 & F10 & F11 & _).
  unfold ConfigureIdle in Hc. case_match; [done|]. simpl in Hc.
  destruct (configure_idle _ _ _) eqn:E; simplify_eq. simpl.
  repeat (split; [done || (by eapply configure_idle_fresh)|]). done.
Qed.

Lemma yield_init_inv s : init s -> inv s.
Proof.
  intros (H1 & H2 & H3 & H4 & H5 & H6 & H7 & _)%init_fields. split.
  - rewrite H1, H3, H4. split; split; try set_solver.
    + intros i w Hw. rewrite list_lookup_fmap in Hw. apply fmap_Some in Hw as (s0 & Hs0 & ->).
      rewrite Forall_lookup in H2. destruct (H2 _ _ Hs0) as [-> _]. intros j o Hj. set_solver.
    + simpl. lia.
  - rewrite H3, H5, H6, H7. split; [|done]. intros k. split; [set_solver|]. intros [?|[_ ?]]; [lia|done].
  - rewrite H1, H3, H7. rewrite Forall_lookup in H2. split.
    + set_solver.
    + intros i s0 Hs0. rewrite list_lookup_fmap in Hs0. apply fmap_Some in Hs0 as (s1 & Hs1 & ->).
      destruct (H2 _ _ Hs1) as (_ & Hf & _). simpl. by rewrite Hf, count_map_empty.
    + set_solver.
    + intros. by exists false.
    + intros. set_solver.
Qed.

Lemma reachable_yield_inv s : reachable step init s -> inv s.
Proof. apply reachable_inv; eauto using yield_init_inv, yield_step_inv. Qed.

Lemma computeLocked_same s e s' : step e s = Next s' ->
  match e with ERefresh _ _ _ | ESetMode _ _ => True | _ =>
    computeLocked (ctl s') = computeLocked (ctl s) /\ effective (ctl s') = effective (ctl s) end.
Proof.
  intros Hs. destruct e; try done; simpl in Hs; unfold startAction in *;
    repeat (case_match; simplify_eq/=); simplify_eq/=; done.
Qed.

Lemma reachable_effective s : reachable step init s -> effective (ctl s) = (computeLocked (ctl s)).1.
Proof.
  intros Hr. assert (Hi := Hr). revert Hi. induction Hr as [s Hs|s e s' Hr IH Hst]; intros Hi.
  - destruct (init_fields _ Hs) as (_ & _ & _ & _ & _ & _ & -> & Hm & Ha & _).
    unfold computeLocked. by rewrite Hm, Ha.
  - specialize (IH Hr). pose proof (computeLocked_same _ _ _ Hst) as Hsame.
    pose proof (reachable_yield_inv _ Hr) as Hinv.
    destruct e; simpl in Hst.
    1: simplify_eq; by apply refresh_inv.
    1: simplify_eq; by apply SetMode_inv.
    all: destruct Hsame as [Hsame1 Hsame2]; congruence.
Qed.

(** ** Debouncing along a run *)

Definition debounced (h : list (string * bool)) (confirm : Z) (c : controller) : Prop :=
  confirmPolls c = confirm /\ (autoContended c, autoReason c) = confirmed confirm h /\
  (forall r, streak r h = if decide (r = confirmReason c) then confirmCount c else 0).

Lemma debounced_same h confirm c c' :
  confirmPolls c' = confirmPolls c -> autoContended c' = autoContended c ->
  autoReason c' = autoReason c -> confirmCount c' = confirmCount c ->
  confirmReason c' = confirmReason c -> debounced h confirm c -> debounced h confirm c'.
Proof. unfold debounced. by intros -> -> -> -> ->. Qed.

Definition debounce_state (c : controller) := (confirmPolls c, autoContended c, autoReason c, confirmCount c, confirmReason c).

Lemma debounce_state_start_all n a c : debounce_state (start_all n a c) = debounce_state c.
Proof. induction n as [|n IH]; [done|]. simpl. by rewrite <- IH. Qed.

Lemma debounce_state_apply now c : debounce_state (applyLocked now c).2 = debounce_state c.
Proof.
  unfold applyLocked. destruct (computeLocked c) as [eff r]. destruct (Bool.eqb _ _); [done|].
  destruct eff; cbn -[start_all].
  - etrans; [|apply (debounce_state_start_all (length (slots c)) Unload (set_serving true (serveCtx c) ({[serveCtx c]} ∪ canceled c) c))].
    done.
  - etrans; [|apply (debounce_state_start_all (length (slots c)) Reload (set_serving false (S (serveCtx c)) (canceled c) c))].
    done.
Qed.

Lemma debounce_state_idle n now c : debounce_state (check_idle n now c) = debounce_state c.
Proof.
  induction n as [|n IH]; [done|]. simpl. rewrite <- IH.
  destruct (slots _ !! n); [|done]. by destruct (idle_due _ _ _).
Qed.

Lemma debounced_state h confirm c c' :
  debounce_state c' = debounce_state c -> debounced h confirm c -> debounced h confirm c'.
Proof. unfold debounce_state. intros. simplify_eq. by eapply debounced_same. Qed.

Lemma debounceLocked_step h confirm r b c :
  debounced h confirm c ->
  let '(b', r', c') := debounceLocked r b c in debounced ((r, b) :: h) confirm (set_auto b' r' c').
Proof.
  intros (Hp & _ & Hs). unfold debounceLocked. destruct b; simpl.
  2: { split; [done|]. split; [done|]. intros r0. simpl. by case_decide. }
  assert (Hst : forall c0, confirmPolls c0 = confirm -> confirmReason c0 = r ->
            confirmCount c0 = streak r ((r, true) :: h) ->
            let '(b', r', c') := (if confirmCount c0 <? confirmPolls c0 then (false, "", c0) else (true, r, c0)) in
            debounced ((r, true) :: h) confirm (set_auto b' r' c')).
  { intros c0 H1 H2 H3.
    assert (Hstr : forall r0, streak r0 ((r, true) :: h) = if decide (r0 = confirmReason c0) then confirmCount c0 else 0).
    { intros r0. rewrite H2, H3. case_decide; [by subst|]. simpl. by rewrite decide_False. }
    rewrite H1, H3. destruct (Z.ltb_spec (streak r ((r, true) :: h)) confirm).
    - split; [done|]. split; [|done]. simpl in *. by rewrite (proj2 (Z.leb_gt _ _)) by lia.
    - split; [done|]. split; [|done]. simpl in *. by rewrite (proj2 (Z.leb_le _ _)) by lia. }
  destruct (String.eqb_spec r (confirmReason c)); apply Hst; try done; simpl; rewrite decide_True by done.
  - rewrite Hs, decide_True by done. lia.
  - rewrite Hs, decide_False by done. lia.
Qed.

Lemma debounced_step h confirm s e s' : step e s = Next s' -> debounced h confirm (ctl s) ->
  debounced (polls [e] h) confirm (ctl s').
Proof.
  intros Hs Hd. destruct e as [r b now|m now|r i|r now|r|r|r|r|r now|k|k|]; simpl in Hs.
  - simplify_eq. simpl. unfold refresh. pose proof (debounceLocked_step _ _ r b _ Hd) as Hn.
    destruct (debounceLocked r b (ctl s)) as [[b' r'] c'].
    pose proof (debounce_state_apply now (set_lastPoll now (set_auto b' r' c'))) as Ha.
    destruct (applyLocked now _) as [[? ?] c1]. simpl in Ha.
    eapply debounced_state; [|exact Hn]. unfold checkIdleLocked. by rewrite debounce_state_idle, Ha.
  - simplify_eq. simpl. eapply debounced_state; [|exact Hd]. unfold SetMode.
    by rewrite debounce_state_apply.
  - repeat (case_match; simplify_eq/=); done.
  - repeat (case_match; simplify_eq/=); done.
  - repeat (case_match; simplify_eq/=); done.
  - repeat (case_match; simplify_eq/=); done.
  - repeat (case_match; simplify_eq/=); done.
  - repeat (case_match; simplify_eq/=); done.
  - repeat (case_match; simplify_eq/=); done.
  - repeat (case_match; simplify_eq/=); done.
  - repeat (case_match; simplify_eq/=); done.
  - by simplify_eq.
Qed.

Lemma debounced_run es h confirm s s' : run_events step es s = Next s' -> debounced h confirm (ctl s) ->
  debounced (polls es h) confirm (ctl s').
Proof.
  revert h s. induction es as [|e es IH]; intros h s Hr Hd; simpl in Hr; [by simplify_eq|].
  destruct (step e s) eqn:He; try done.
  pose proof (debounced_step _ _ _ _ _ He Hd) as Hd'. destruct e; by eapply IH.
Qed.

(** ** Completing the ordered actions *)

Lemma run_events_app {Ev St} (f : Ev -> St -> outcome St) es es' s s' :
  run_events f es s = Next s' -> run_events f (es ++ es') s = run_events f es' s'.
Proof.
  revert s. induction es as [|e es IH]; intros s Hr; simpl in *; [by simplify_eq|].
  destruct (f e s); try done. by apply IH.
Qed.

(** [es] leads from [s] to [s1] by events of the actions of instance [i] that
    change no goroutine but the one of order [k]. *)
Record along (i k : nat) (s : system) (es : list event) (s1 : system) : Prop := {
  al_run : run_events step es s = Next s1;
  al_events : Forall (action_event i s) es;
  al_inv : inv s1;
  al_started : started (ctl s1) = started (ctl s);
  al_tasks : forall j, j <> k -> tasks (ctl s1) !! j = tasks (ctl s) !! j;
  al_pending : forall r k', handlers s1 !! r = Some (i, HOrdered k') ->
    handlers s !! r = Some (i, HOrdered k');
}.

Lemma along_nil i k s : inv s -> along i k s [] s.
Proof. intros Hi. by split. Qed.

Lemma along_snoc i k s es s1 e s2 : along i k s es s1 -> step e s1 = Next s2 -> action_event i s e ->
  started (ctl s2) = started (ctl s1) ->
  (forall j, j <> k -> tasks (ctl s2) !! j = tasks (ctl s1) !! j) ->
  (forall r k', handlers s2 !! r = Some (i, HOrdered k') -> handlers s1 !! r = Some (i, HOrdered k')) ->
  along i k s (es ++ [e]) s2.
Proof.
  intros [] Hs He Hst Ht Hh. split.
  - rewrite (run_events_app _ _ _ _ _ al_run0). cbn [run_events]. by rewrite Hs.
  - apply Forall_app. split; [done|]. by apply Forall_singleton.
  - by eapply yield_step_inv.
  - congruence.
  - intros j Hj. rewrite Ht by done. by apply al_tasks0.
  - eauto.
Qed.

Lemma along_task i k s es s1 e t o : along i k s es s1 -> started (ctl s) !! k = Some o -> o_inst o = i ->
  (e = ETaskStart k \/ e = ETaskEnd k) ->
  step e s1 = Next (set_ctl (set_tasks (<[k := t]> (tasks (ctl s1))) (ctl s1)) s1) ->
  exists s2, along i k s (es ++ [e]) s2 /\ tasks (ctl s2) !! k = Some t.
Proof.
  intros Ha Ho Hi He Hst. eexists. split.
  - eapply along_snoc; [done|done| |done| |done].
    + destruct He as [-> | ->]; by exists o.
    + intros j Hj. simpl. by rewrite lookup_insert_ne.
  - simpl. by rewrite lookup_insert_eq.
Qed.

(** One waiting action whose predecessors are done can be completed. *)
Lemma complete_one i s k o : inv s -> started (ctl s) !! k = Some o -> o_inst o = i ->
  (forall j o', (j < k)%nat -> started (ctl s) !! j = Some o' -> o_inst o' = i ->
     tasks (ctl s) !! j = Some TFinished) ->
  exists es s', along i k s es s' /\ tasks (ctl s') !! k = Some TFinished.
Proof.
  intros Hi Ho Hoi Hpre. pose proof (inv_sound _ Hi) as [Hc Hp].
  assert (Hend : forall s1 es, along i k s es s1 -> tasks (ctl s1) !! k = Some TRunning ->
    exists es s', along i k s es s' /\ tasks (ctl s') !! k = Some TFinished).
  { intros s1 es Ha Hk. destruct (along_task i k s es s1 (ETaskEnd k) TFinished o Ha Ho Hoi) as (s2 & ? & ?);
      [by right|simpl; by rewrite Hk|]. by eexists _, _. }
  assert (Hrun : forall s1 es, along i k s es s1 -> tasks (ctl s1) !! k = Some TWaiting ->
    exists es s', along i k s es s' /\ tasks (ctl s') !! k = Some TFinished).
  { intros s1 es Ha Hk.
    assert (Hw : wait_over (o_wait o) (ctl s1) = true).
    { pose proof (ch_wait _ _ _ Hc _ _ Ho) as Hw. unfold wait_over.
      destruct (o_wait o) as [m|]; [|done]. destruct Hw as ((om & Hm & Hmi) & _).
      apply lookup_take_Some in Hm as [Hm Hlt]. rewrite (al_tasks _ _ _ _ _ Ha) by lia.
      rewrite (Hpre m om); [done|done|done|congruence]. }
    destruct (along_task i k s es s1 (ETaskStart k) TRunning o Ha Ho Hoi) as (s2 & ? & ?);
      [by left|simpl; by rewrite Hk, (al_started _ _ _ _ _ Ha), Ho, Hw|]. by eapply Hend. }
  pose proof (along_nil i k s Hi) as H0.
  destruct (tasks (ctl s) !! k) as [[]|] eqn:Hk; [by eauto|by eauto|by eauto|].
  destruct (pe_all _ _ _ Hp k) as [[? ?]|(r & i' & Hr)]; [by eapply lookup_lt_Some|congruence|].
  destruct (pe_fresh _ _ _ Hp _ _ _ Hr) as ((o' & Ho' & Hi') & _).
  assert (i' = i) as -> by congruence.
  eapply (Hrun (set_handler r i HServing (set_ctl (go_task k (ctl s)) s)) ([] ++ [ESpawn r])).
  - eapply along_snoc; [done|simpl; by rewrite Hr|by exists k|done|..].
    + intros j Hj. simpl. by rewrite lookup_insert_ne.
    + simpl. intros r' k' Hr'. destruct (decide (r' = r)) as [->|]; by simplify_map_eq.
  - simpl. by rewrite lookup_insert_eq.
Qed.

Lemma complete_prefix i n s : inv s ->
  exists es s', run_events step es s = Next s' /\ Forall (action_event i s) es /\ inv s' /\
    started (ctl s') = started (ctl s) /\
    (forall r k', handlers s' !! r = Some (i, HOrdered k') -> handlers s !! r = Some (i, HOrdered k')) /\
    forall k o, (k < n)%nat -> started (ctl s) !! k = Some o -> o_inst o = i ->
      tasks (ctl s') !! k = Some TFinished.
Proof.
  intros Hi. induction n as [|n (es & s1 & H1 & H2 & H3 & H4 & H5 & H6)].
  - exists [], s. do 5 (split; [done || constructor|]). intros. lia.
  - destruct (started (ctl s) !! n) as [o|] eqn:Ho.
    2: { exists es, s1. do 5 (split; [done|]). intros k o Hk Ho' He.
         destruct (decide (k = n)) as [->|]; [congruence|]. eapply H6; [lia|done|done]. }
    destruct (decide (o_inst o = i)) as [Hoi|Hne].
    2: { exists es, s1. do 5 (split; [done|]). intros k o' Hk Ho' He.
         destruct (decide (k = n)) as [->|]; [congruence|]. eapply H6; [lia|done|done]. }
    destruct (complete_one i s1 n o) as (es' & s2 & [G1 G2 G3 G4 G5 G6] & G7); [done|by rewrite H4|done|..].
    { intros j o' Hj Ho' He. rewrite H4 in Ho'. by eapply H6. }
    exists (es ++ es'), s2. split; [by rewrite (run_events_app _ _ _ _ _ H1)|].
    split; [apply Forall_app; split; [done|]|].
    { eapply Forall_impl; [exact G2|]. intros e He. destruct e; simpl in *; try done; rewrite ?H4 in He; try done.
      destruct He as [k He]. exists k. by apply H5. }
    split; [done|]. split; [congruence|]. split; [by eauto|].
    intros k o' Hk Ho' He. destruct (decide (k = n)) as [->|]; [done|]. rewrite G5 by done.
    eapply H6; [lia|done|done].
Qed.

(** ** The orders of one tick *)

Definition cleared (now : Z) (s : slot) : slot := set_slot_idle false (set_slot_dispatch now s).

Definition transition_acts (was now_ : bool) : list (action * unloadTrigger) :=
  if Bool.eqb now_ was then [] else [(if now_ then Unload else Reload, triggerYield)].

Lemma applyLocked_acts hs now c i s :
  sound hs (slots c) (started c) (tasks c) -> slots c !! i = Some s ->
  let eff := (computeLocked c).1 in
  let c' := (applyLocked now c).2 in
  effective c' = eff /\
  acts i (started c') = acts i (started c) ++ transition_acts (effective c) eff /\
  exists s', slots c' !! i = Some s' /\
    bare s' = bare (if effective c && negb eff then cleared now s else s).
Proof.
  intros Hs Hi. unfold applyLocked, transition_acts. destruct (computeLocked c) as [eff r]. simpl.
  destruct (Bool.eqb eff (effective c)) eqn:He; simpl.
  { apply eqb_prop in He. subst. split; [done|]. rewrite app_nil_r. split; [done|]. exists s.
    split; [done|]. by destruct (effective c). }
  apply eqb_false_iff in He.
  assert (Hlt : (i < length (slots c))%nat) by (by eapply lookup_lt_Some).
  assert (Hbare : forall c2, (bare <$> slots c2) = (bare <$> slots c) -> exists s', slots c2 !! i = Some s' /\ bare s' = bare s).
  { intros c2 Hb. assert (Hx : (bare <$> slots c2) !! i = Some (bare s)) by (by rewrite Hb, list_lookup_fmap, Hi).
    rewrite list_lookup_fmap in Hx. apply fmap_Some in Hx as (s' & Hs' & Hbs). by exists s'. }
  destruct eff.
  - set (c1 := set_serving true _ _ c).
    destruct (start_all_spec hs (length (slots c1)) Unload c1) as (S1 & S2 & S3 & E1 & E2 & E3 & E4 & E5); [lia|done|].
    change (length (slots c)) with (length (slots c1)). set (c2 := start_all _ _ _) in *. simpl.
    split; [done|]. split; [by rewrite S3, decide_True|]. rewrite andb_false_r. by apply Hbare.
  - set (c1 := set_serving false _ _ c).
    destruct (start_all_spec hs (length (slots c1)) Reload c1) as (S1 & S2 & S3 & E1 & E2 & E3 & E4 & E5); [lia|done|].
    change (length (slots c)) with (length (slots c1)). set (c2 := start_all _ _ _) in *. simpl.
    split; [done|]. split; [by rewrite S3, decide_True|].
    destruct (Hbare c2 S2) as (s' & Hs' & Hb). exists (cleared now s').
    change (map _ (slots c2)) with (cleared now <$> slots c2). rewrite list_lookup_fmap, Hs'. split; [done|].
    assert (effective c = true) as -> by (by destruct (effective c)). simpl.
    change (cleared now (bare s') = cleared now (bare s)). by rewrite Hb.
Qed.

(** ** Configuration *)

(** The loop of [ConfigureIdle] against the filter loop of the constructor:
    [pre] holds the slots of the instances already passed. *)
Lemma configure_idle_spec us labels now i ds pre :
  length ds = length us ->
  let '(ss, m) := filter_unloaders us labels now i (Z.of_nat (length pre)) in
  match configure_idle ds m (pre ++ ss) with
  | Panic => exists j d, ds !! j = Some d /\ us !! j = Some None /\ d <> 0
  | Next ss' => (forall j d, ds !! j = Some d -> us !! j = Some None -> d = 0) /\
      (forall k s, pre !! k = Some s -> ss' !! k = Some s) /\
      forall j u d, us !! j = Some (Some u) -> ds !! j = Some d ->
        exists post s, m !! j = Some (Z.of_nat post) /\ ss' !! post = Some s /\
                       unloader s = u /\ idleTimeout s = d
  | Disabled => False
  end.
Proof.
  revert i ds pre. induction us as [|[u|] us IH]; intros i [|d ds] pre Hlen; simplify_eq/=.
  - rewrite app_nil_r. split; [done|]. by split.
  - set (lb := if String.eqb _ _ then _ else _).
    set (s0 := Slot u lb None d now 0 false).
    specialize (IH (S i) ds (pre ++ [s0]) Hlen). rewrite length_app in IH. simpl in IH.
    replace (Z.of_nat (length pre + 1)) with (Z.of_nat (length pre) + 1) in IH by lia.
    destruct (filter_unloaders us labels now (S i) (Z.of_nat (length pre) + 1)) as [ss m]. simpl.
    rewrite (proj2 (Z.eqb_neq _ _)) by lia. rewrite Nat2Z.id, list_lookup_middle by done.
    rewrite (alter_insert_slot _ _ _ (Slot u lb None 0 now 0 false)) by (by apply list_lookup_middle).
    change (set_slot_timeout d _) with s0.
    replace (<[length pre:=s0]> _) with ((pre ++ [s0]) ++ ss).
    2: { rewrite <- app_assoc. simpl. by rewrite insert_app_r_alt, Nat.sub_diag by done. }
    destruct (configure_idle ds m ((pre ++ [s0]) ++ ss)) as [| |ss']; [done| |].
    + destruct IH as (j & d' & ? & ? & ?). by exists (S j), d'.
    + destruct IH as (H1 & H2 & H3). split; [|split].
      * intros [|j] d' ? ?; simplify_eq/=. by eapply H1.
      * intros k s Hk. apply H2. by apply lookup_app_l_Some.
      * intros [|j] u' d' ? ?; simplify_eq/=; [|by apply H3].
        exists (length pre), s0. split; [done|]. split; [|done]. apply H2. by apply list_lookup_middle.
  - specialize (IH (S i) ds pre Hlen).
    destruct (filter_unloaders us labels now (S i) (Z.of_nat (length pre))) as [ss m]. simpl.
    destruct (Z.eqb_spec d 0) as [->|Hd]; simpl.
    + destruct (configure_idle ds m (pre ++ ss)) as [| |ss']; [done| |].
      * destruct IH as (j & d' & ? & ? & ?). by exists (S j), d'.
      * destruct IH as (H1 & H2 & H3). split; [|split]; [|done|].
        -- intros [|j] d' ? ?; simplify_eq/=; [done|]. by eapply H1.
        -- intros [|j] u' d' ? ?; simplify_eq/=. by apply H3.
    + by exists 0%nat, d.
Qed.

Lemma filter_unloaders_length us labels now i post :
  length (filter_unloaders us labels now i post).2 = length us.
Proof.
  revert i post. induction us as [|[u|] us IH]; intros i post; simpl; [done|..].
  - specialize (IH (S i) (post + 1)). destruct (filter_unloaders _ _ _ _ _). simpl in *. by f_equal.
  - specialize (IH (S i) post). destruct (filter_unloaders _ _ _ _ _). simpl in *. by f_equal.
Qed.

(** Configuring a new controller, every timeout having an unloader: it does not
    panic, and each instance has its own slot. *)
Lemma configured us labels iv confirm now ds :
  length ds = length us -> (forall j d, ds !! j = Some d -> us !! j = Some None -> d = 0) ->
  exists c', ConfigureIdle ds (NewWithConfirmMulti us labels iv confirm now) = Next c' /\
    forall j u d, us !! j = Some (Some u) -> ds !! j = Some d ->
      exists post s, TrackActivity j c' = Next post /\ slots c' !! post = Some s /\
                     unloader s = u /\ idleTimeout s = d.
Proof.
  intros Hl Hd. unfold ConfigureIdle, NewWithConfirmMulti.
  pose proof (filter_unloaders_length us labels now 0 0) as Hm.
  pose proof (configure_idle_spec us labels now 0 ds [] Hl) as Hs. simpl in Hs. change (Z.of_nat 0) with 0 in Hs.
  destruct (filter_unloaders us labels now 0 0) as [ss m]. simpl in *.
  rewrite (proj2 (Z.eqb_eq _ _)) by lia. simpl.
  destruct (configure_idle ds m ss) as [| |ss']; [done| |].
  - destruct Hs as (j & d & H1 & H2 & H3). exfalso. by eapply H3, Hd.
  - destruct Hs as (_ & _ & H3). eexists. split; [reflexivity|]. intros j u d Hu Hj.
    destruct (H3 _ _ _ Hu Hj) as (post & s & Hp & ? & ? & ?). exists post, s.
    unfold TrackActivity. simpl. rewrite Hp, (proj2 (Z.eqb_neq _ _)) by lia. by rewrite Nat2Z.id.
Qed.

(** ** Properties *)

(** C6: after every event the acted-on state is the reported one, and serve
    contexts follow it: the context handed out now is cancelled exactly while
    the broker yields, and every earlier one has been cancelled. *)
Theorem yield_state_consistent s :
  reachable step init s ->
  effective (ctl s) = (Yielding (ctl s)).1 /\
  forall k, k ∈ canceled (ctl s) <->
    (k < ServeContext (ctl s))%nat \/ (k = ServeContext (ctl s) /\ (Yielding (ctl s)).1 = true).
Proof.
  intros Hr. pose proof (reachable_effective _ Hr) as He. unfold Yielding. rewrite <- He.
  split; [done|]. apply (inv_phase _ (reachable_yield_inv _ Hr)).
Qed.

(** C27: per-instance ordering (ADR-0014) under any interleaving of the action
    goroutines: an action only runs once every earlier action ordered for its
    instance has finished; so at most one runs per instance, and they run in the
    order of the transitions. *)
Theorem actions_in_order s k t o j o' :
  reachable step init s ->
  tasks (ctl s) !! k = Some t -> active t = true -> started (ctl s) !! k = Some o ->
  (j < k)%nat -> started (ctl s) !! j = Some o' -> o_inst o' = o_inst o ->
  tasks (ctl s) !! j = Some TFinished.
Proof.
  intros Hr Hk Ht Ho Hj Ho' He. destruct (inv_sound _ (reachable_yield_inv _ Hr)) as [Hc _].
  by eapply (ch_order _ _ _ Hc).
Qed.

(** No instance's chain deadlocks or waits for another instance: from any
    reachable state the goroutines of instance [i] alone can finish every action
    ordered for it so far. *)
Theorem actions_complete i s :
  reachable step init s ->
  exists es s', run_events step es s = Next s' /\ Forall (action_event i s) es /\
    started (ctl s') = started (ctl s) /\
    forall k o, started (ctl s) !! k = Some o -> o_inst o = i -> tasks (ctl s') !! k = Some TFinished.
Proof.
  intros Hr. destruct (complete_prefix i (length (started (ctl s))) s (reachable_yield_inv _ Hr))
    as (es & s' & H1 & H2 & _ & H4 & _ & H6).
  exists es, s'. do 3 (split; [done|]). intros k o Ho Hi. eapply H6; [|done|done].
  by eapply lookup_lt_Some.
Qed.

(** C40: Contention actions alternate strictly on every instance, an unload
    first, and the last one is an unload exactly while the broker yields: no
    transition is lost or acted on twice. *)
Theorem contention_actions_alternate i s :
  reachable step init s -> (i < length (slots (ctl s)))%nat ->
  yields i (started (ctl s)) = alternating (2 * serveCtx (ctl s) + Nat.b2n (effective (ctl s))).
Proof. intros Hr Hi. by apply (inv_phase _ (reachable_yield_inv _ Hr)). Qed.

(** An instance is never idle-unloaded twice without a reload in between,
    and outside a yield an instance whose last ordered action is an unload is
    idle-unloaded or has a request that won its wake and is about to order the
    reload. *)
Theorem idle_unload_wakes i s sl :
  reachable step init s -> slots (ctl s) !! i = Some sl ->
  asleep false (acts i (started (ctl s))) <> None /\
  (effective (ctl s) = false -> forall t, last (acts i (started (ctl s))) = Some (Unload, t) ->
   idleUnloaded sl = true \/ exists r, handlers s !! r = Some (i, HWon)).
Proof.
  intros Hr Hsl. pose proof (inv_idle _ (reachable_yield_inv _ Hr)) as Hi.
  assert (Hb : (bare <$> slots (ctl s)) !! i = Some (bare sl)) by (by rewrite list_lookup_fmap, Hsl).
  split.
  - destruct (id_asleep _ _ _ _ Hi _ _ Hb) as (b & -> & _). done.
  - intros He t Hl. by apply (id_last _ _ _ _ Hi _ _ t Hb).
Qed.

(** Exactly what one poll orders for an instance: a contention action when
    the state changes, then an idle unload when the instance is due after that
    change; and it is due only outside a yield with no request in flight. *)
Theorem refresh_orders i s reason b now s' sl :
  reachable step init s -> step (ERefresh reason b now) s = Next s' -> slots (ctl s) !! i = Some sl ->
  let was := effective (ctl s) in
  let eff := effective (ctl s') in
  let due := idle_due now eff (if was && negb eff then cleared now sl else sl) in
  acts i (started (ctl s')) =
    acts i (started (ctl s)) ++ transition_acts was eff ++ (if due then [(Unload, triggerIdle)] else []) /\
  (due = true -> eff = false /\ forall r p, handlers s !! r = Some (i, p) -> p = HLeft \/ p = HGone).
Proof.
  intros Hr Hst Hsl. simpl in Hst. injection Hst as <-. simpl. unfold refresh.
  pose proof (reachable_yield_inv _ Hr) as Hinv.
  destruct (debounceLocked_confirm reason b (ctl s)) as (n & w & E).
  destruct (debounceLocked reason b (ctl s)) as [[b' r'] c0]. simpl in E. subst c0.
  set (c0 := set_lastPoll now (set_auto b' r' (set_confirm n w (ctl s)))).
  pose proof (applyLocked_acts (handlers s) now c0 i sl (inv_sound _ Hinv) Hsl) as (He & Ha & s1 & Hs1 & Hb).
  destruct (applyLocked_inv now (set_ctl c0 s)) as [H1 _]; [by apply section_inv|].
  change (inv (set_ctl (applyLocked now c0).2 s)) in H1.
  change (started c0) with (started (ctl s)) in Ha. change (effective c0) with (effective (ctl s)) in *.
  destruct (applyLocked now c0) as [[ev rs] c1]. simpl in *.
  destruct (check_idle_spec (handlers s) (length (slots c1)) now c1 (inv_sound _ H1)) as (_ & (Ec & _) & _ & S3).
  unfold checkIdleLocked. rewrite Ec, He in *. rewrite (S3 _ _ Hs1), Ha, <- app_assoc.
  assert (Hdue : fires (length (slots c1)) now (computeLocked c0).1 i s1 =
    idle_due now (computeLocked c0).1 (if effective (ctl s) && negb (computeLocked c0).1 then cleared now sl else sl)).
  { unfold fires. rewrite bool_decide_eq_true_2 by (by eapply lookup_lt_Some). simpl.
    rewrite <- (idle_due_bare _ _ s1), Hb. by destruct (_ && _). }
  rewrite Hdue. split; [done|]. intros Hd. unfold idle_due in Hd.
  rewrite !andb_true_iff, !negb_true_iff in Hd. destruct Hd as ((((_ & Hf) & Hfl) & _) & _).
  split; [done|]. intros r p Hrp.
  assert (inFlight sl = Z.of_nat (count_map (counted i) (handlers s))) as Hcnt.
  { apply (id_flight _ _ _ _ (inv_idle _ Hinv) i (bare sl)). by rewrite list_lookup_fmap, Hsl. }
  pose proof (count_map_zero (counted i) (handlers s) r (i, p)) as Hz. unfold counted at 2 in Hz. simpl in Hz.
  rewrite bool_decide_eq_true_2 in Hz by done.
  assert (inFlight sl <= 0) by (destruct (_ && _) in Hfl; simpl in Hfl; by apply Z.ltb_ge in Hfl).
  destruct p; auto; by discriminate Hz; [lia|].
Qed.

(** C31: the debouncer in any run: the automatic verdict is contention for [r]
    exactly when the last polls, at least [max 1 confirmPolls] of them, all
    reported [r]; anything else clears it at once.  In auto mode this is what
    the broker acts on. *)
Theorem debounce_confirms us labels iv confirm now es s' :
  let c := NewWithConfirmMulti us labels iv confirm now in
  run_events step es (System c ∅) = Next s' ->
  (autoContended (ctl s'), autoReason (ctl s')) = confirmed (Z.max 1 confirm) (polls es []) /\
  (mode (ctl s') = ModeAuto -> Yielding (ctl s') = confirmed (Z.max 1 confirm) (polls es [])).
Proof.
  intros c Hr.
  assert (Hd : debounced [] (Z.max 1 confirm) c).
  { destruct (New_fields us labels iv confirm now) as (_ & _ & _ & _ & _ & _ & _ & E1 & E2 & E3 & E4 & E5).
    unfold debounced. fold c in E1, E2, E3, E4, E5. rewrite E1, E2, E3, E4, E5. split; [done|]. split; [done|].
    intros r. simpl. by case_decide. }
  destruct (debounced_run es [] _ _ _ Hr Hd) as (_ & Ha & _). split; [done|].
  intros Hm. unfold Yielding, computeLocked. by rewrite Hm.
Qed.

(** [ConfigureIdle] after the constructor panics exactly on a length mismatch
    or a timeout for an instance without an unloader; otherwise every configured
    instance gets its own timeout and can be tracked at its original index. *)
Theorem configure_idle_contract us labels iv confirm now ds :
  let c := NewWithConfirmMulti us labels iv confirm now in
  match ConfigureIdle ds c with
  | Panic => length ds <> length us \/ exists j d, ds !! j = Some d /\ us !! j = Some None /\ d <> 0
  | Next c' => length ds = length us /\
      (forall j d, ds !! j = Some d -> us !! j = Some None -> d = 0) /\
      forall j u d, us !! j = Some (Some u) -> ds !! j = Some d ->
        exists post s, TrackActivity j c' = Next post /\ slots c' !! post = Some s /\
                       unloader s = u /\ idleTimeout s = d
  | Disabled => False
  end.
Proof.
  unfold ConfigureIdle, NewWithConfirmMulti.
  pose proof (filter_unloaders_length us labels now 0 0) as Hl.
  pose proof (configure_idle_spec us labels now 0 ds []) as Hs. simpl in Hs. change (Z.of_nat 0) with 0 in Hs.
  destruct (filter_unloaders us labels now 0 0) as [ss m]. simpl in *. subst.
  destruct (Z.eqb_spec (Z.of_nat (length ds)) (Z.of_nat (length m))) as [He|He]; simpl; [|left; lia].
  specialize (Hs ltac:(lia)). destruct (configure_idle ds m ss) as [| |ss']; [done|by right|].
  destruct Hs as (H1 & _ & H3). split; [lia|]. split; [done|]. intros j u d Hu Hd.
  destruct (H3 _ _ _ Hu Hd) as (post & s & Hm & ? & ? & ?). exists post, s.
  unfold TrackActivity. simpl. rewrite Hm, (proj2 (Z.eqb_neq _ _)) by lia. by rewrite Nat2Z.id.
Qed.

(** A wake-up is not stopped by contention that starts while the request is
    between its first bookkeeping step and its [CompareAndSwap]: the last action
    ordered, and completed, is then a reload although the broker yields. *)
Example wake_can_reload_during_yield :
  exists s, reachable step init s /\ effective (ctl s) = true /\
    acts 0 (started (ctl s)) = [(Unload, triggerIdle); (Unload, triggerYield); (Reload, triggerIdle)] /\
    tasks (ctl s) !! 2%nat = Some TFinished.
Proof.
  set (c := NewMulti [Some 7%nat] [] 5 0).
  set (es := [ERefresh "" false 20; EServeHTTP 0 0; EStamp 0 21; ERefresh "plex" true 22; ESwap 0; EOrder 0; ESpawn 0;
              ETaskStart 0; ETaskEnd 0; ETaskStart 1; ETaskEnd 1; ETaskStart 2; ETaskEnd 2]).
  destruct (ConfigureIdle [10] c) as [| |c'] eqn:Hc; [done..|].
  assert (Hr : reachable step init (final step es (System c' ∅))).
  { apply final_reachable, reach_init. by exists [Some 7%nat], [], 5, 1, 0, false, [10], c'. }
  vm_compute in Hc. injection Hc as <-. eexists. split; [exact Hr|]. by repeat split.
Qed.

(** ** Witnesses *)

Definition demo_ctl : controller := NewWithConfirmMulti [Some 7%nat; None] ["vllm"] 5 2 0.

Definition demo_ctl' : controller :=
  match ConfigureIdle [10; 0] demo_ctl with Next c => c | _ => demo_ctl end.

(** Idle unload at 20, wake by request 0, contention confirmed at the second
    poll, cleared at once. *)
Definition yield_events : list event :=
  [ERefresh "" false 20; EServeHTTP 0 0; EStamp 0 21; ESwap 0; EOrder 0; ESpawn 0; ETaskStart 0; ETaskEnd 0;
   ETaskStart 1; ERefresh "plex" true 22; ERefresh "plex" true 23].

Definition demo_system : system := final step yield_events (System demo_ctl' ∅).

Lemma demo_system_reachable : reachable step init demo_system.
Proof.
  apply final_reachable, reach_init.
  by exists [Some 7%nat; None], ["vllm"], 5, 2, 0, false, [10; 0], demo_ctl'.
Qed.

Lemma yield_state_consistent_witness :
  effective (ctl demo_system) = true /\ (Yielding (ctl demo_system)).1 = true.
Proof.
  split; [vm_compute; reflexivity|].
  rewrite <- (proj1 (yield_state_consistent _ demo_system_reachable)). vm_compute; reflexivity.
Defined.

Lemma actions_in_order_witness : tasks (ctl demo_system) !! 0%nat = Some TFinished.
Proof.
  apply (actions_in_order demo_system 1 TRunning (Order 0 Reload triggerIdle (Some 0%nat)) 0
           (Order 0 Unload triggerIdle None) demo_system_reachable); try lia; vm_compute; reflexivity.
Defined.

Lemma actions_complete_witness :
  length (started (ctl demo_system)) = 3%nat /\
  exists es s', run_events step es demo_system = Next s' /\ Forall (action_event 0 demo_system) es /\
    started (ctl s') = started (ctl demo_system) /\
    forall k o, started (ctl demo_system) !! k = Some o -> o_inst o = 0%nat ->
      tasks (ctl s') !! k = Some TFinished.
Proof. split; [vm_compute; reflexivity|]. exact (actions_complete 0 _ demo_system_reachable). Defined.

Lemma contention_actions_alternate_witness : yields 0 (started (ctl demo_system)) = [Unload].
Proof.
  refine (eq_trans (contention_actions_alternate 0 _ demo_system_reachable _) _);
    [vm_compute; lia|vm_compute; reflexivity].
Defined.

Lemma idle_unload_wakes_witness : asleep false (acts 0 (started (ctl demo_system))) <> None.
Proof.
  exact (proj1 (idle_unload_wakes 0 demo_system
    (Slot 7 "vllm" (Some 2%nat) 10 21 1 false) demo_system_reachable ltac:(vm_compute; reflexivity))).
Defined.

Lemma refresh_orders_witness :
  acts 0 (started (ctl (final step [ERefresh "" false 20] (System demo_ctl' ∅)))) = [(Unload, triggerIdle)].
Proof.
  assert (Hr : reachable step init (System demo_ctl' ∅)).
  { apply reach_init. by exists [Some 7%nat; None], ["vllm"], 5, 2, 0, false, [10; 0], demo_ctl'. }
  exact (proj1 (refresh_orders 0 _ "" false 20 (final step [ERefresh "" false 20] (System demo_ctl' ∅))
    (Slot 7 "vllm" None 10 0 0 false) Hr eq_refl eq_refl)).
Defined.

Lemma debounce_confirms_witness :
  Yielding (ctl (final step [ERefresh "plex" true 22; ERefresh "plex" true 23] (System demo_ctl ∅)))
  = (true, "plex").
Proof.
  refine (proj2 (debounce_confirms [Some 7%nat; None] ["vllm"] 5 2 0
    [ERefresh "plex" true 22; ERefresh "plex" true 23]
    (final step [ERefresh "plex" true 22; ERefresh "plex" true 23] (System demo_ctl ∅)) eq_refl) eq_refl).
Defined.

End Yield.
