(* ===== verification/JobStore.v ===== *)
(** * The durable job store (src/internal/job/job.go, store.go, sqlite.go)

    The [jobs] table is the list of its rows in rowid order; every SQL statement
    of sqlite.go is the list function it denotes, every method the composition
    of its statements, run as one transaction.  A method whose statement or
    commit fails rolls back: the call [CFault] leaves the table as it is.
    Times are Unix nanoseconds, [now] is the clock read by the method, and
    [position_hint] is an unbounded [Z] (its 64 bits would take 2^63 calls to
    exhaust). *)

From S2P Require Import Prelude.
From stdpp Require Import sorting.
#[local] Set Warnings "-clear-no-such-hyp,-level-tolerance".
Local Open Scope Z_scope.

Module JobStore.

(** ** Data *)

Inductive State := StateQueued | StateRunning | StateSucceeded | StateFailed | StateCanceled.

#[global] Instance State_eq_dec : EqDecision State.
Proof. solve_decision. Defined.

Definition State_String (s : State) : string :=
  match s with
  | StateQueued => "QUEUED" | StateRunning => "RUNNING" | StateSucceeded => "SUCCEEDED"
  | StateFailed => "FAILED" | StateCanceled => "CANCELED"
  end.

Definition Terminal (s : State) : bool :=
  match s with StateSucceeded | StateFailed | StateCanceled => true | _ => false end.

Definition DefaultMaxAttempts : Z := 3.

Inductive err := ErrNotFound | ErrNotReady | ErrAlreadyTerminal | ErrSQL.

#[global] Instance err_eq_dec : EqDecision err.
Proof. solve_decision. Defined.

Record Job := MkJob {
  ID : string;
  IdempotencyKey : string;
  Source : string;
  Owner : string;
  JobState : State;
  Attempts : Z;
  Model : string;
  ParamsJSON : string;
  Prompt : string;
  Result : string;
  Error : string;
  PositionHint : Z;
  CreatedAt : Z;
  StartedAt : option Z;
  FinishedAt : option Z;
  FetchedAt : option Z;
}.

#[global] Instance Job_eq_dec : EqDecision Job.
Proof. solve_decision. Defined.

(** The fields [Submit] reads from its argument; [None] is the zero time. *)
Record submission := Submission {
  s_id : string; s_key : string; s_source : string; s_owner : string; s_model : string;
  s_params : string; s_prompt : string; s_created : option Z
}.

Abbreviation table := (list Job).

(** ** SQL *)

Definition is_state (s : State) (j : Job) : bool := bool_decide (JobState j = s).

Definition where_ (p : Job -> bool) (t : table) : table := filter (fun j => p j = true) t.

Definition update (p : Job -> bool) (f : Job -> Job) (t : table) : table :=
  map (fun j => if p j then f j else j) t.

Definition by_id (id : string) (j : Job) : bool := bool_decide (ID j = id).

(** [COALESCE(MAX(position_hint), 0) + 1], [COALESCE(MIN(position_hint), 0) - 1]. *)
Definition max_hint (t : table) : option Z :=
  match t with [] => None | j :: t' => Some (foldr (fun j m => Z.max (PositionHint j) m) (PositionHint j) t') end.
Definition min_hint (t : table) : option Z :=
  match t with [] => None | j :: t' => Some (foldr (fun j m => Z.min (PositionHint j) m) (PositionHint j) t') end.

Definition tail_hint (t : table) : Z := default 0 (max_hint t) + 1.
Definition front_hint (t : table) : Z := default 0 (min_hint (where_ (is_state StateQueued) t)) - 1.

(** [ORDER BY position_hint ASC, created_at ASC] *)
Definition queue_le (a b : Job) : Prop :=
  PositionHint a < PositionHint b \/ (PositionHint a = PositionHint b /\ CreatedAt a <= CreatedAt b).

#[global] Instance queue_le_dec : RelDecision queue_le.
Proof. intros a b. unfold queue_le. apply _. Defined.

(** [ORDER BY created_at ASC], and [DESC]; SQL leaves the order of ties open. *)
Definition created_le (a b : Job) : Prop := CreatedAt a <= CreatedAt b.
#[global] Instance created_le_dec : RelDecision created_le.
Proof. intros a b. unfold created_le. apply _. Defined.
Definition created_ge (a b : Job) : Prop := CreatedAt b <= CreatedAt a.
#[global] Instance created_ge_dec : RelDecision created_ge.
Proof. intros a b. unfold created_ge. apply _. Defined.

(** The [SET] clauses. *)
Definition set_running (now : Z) (j : Job) : Job :=
  MkJob (ID j) (IdempotencyKey j) (Source j) (Owner j) StateRunning (Attempts j) (Model j) (ParamsJSON j)
    (Prompt j) (Result j) "" (PositionHint j) (CreatedAt j) (Some now) (FinishedAt j) (FetchedAt j).
Definition set_succeeded (result : string) (now : Z) (j : Job) : Job :=
  MkJob (ID j) (IdempotencyKey j) (Source j) (Owner j) StateSucceeded (Attempts j) (Model j) (ParamsJSON j)
    (Prompt j) result "" (PositionHint j) (CreatedAt j) (StartedAt j) (Some now) (FetchedAt j).
Definition set_preempted (hint : Z) (j : Job) : Job :=
  MkJob (ID j) (IdempotencyKey j) (Source j) (Owner j) StateQueued (Attempts j) (Model j) (ParamsJSON j)
    (Prompt j) (Result j) (Error j) hint (CreatedAt j) None (FinishedAt j) (FetchedAt j).
Definition set_failed (attempts : Z) (msg : string) (now : Z) (j : Job) : Job :=
  MkJob (ID j) (IdempotencyKey j) (Source j) (Owner j) StateFailed attempts (Model j) (ParamsJSON j)
    (Prompt j) (Result j) msg (PositionHint j) (CreatedAt j) (StartedAt j) (Some now) (FetchedAt j).
Definition set_retried (attempts : Z) (msg : string) (hint : Z) (j : Job) : Job :=
  MkJob (ID j) (IdempotencyKey j) (Source j) (Owner j) StateQueued attempts (Model j) (ParamsJSON j)
    (Prompt j) (Result j) msg hint (CreatedAt j) None (FinishedAt j) (FetchedAt j).
Definition set_canceled (now : Z) (j : Job) : Job :=
  MkJob (ID j) (IdempotencyKey j) (Source j) (Owner j) StateCanceled (Attempts j) (Model j) (ParamsJSON j)
    (Prompt j) (Result j) (Error j) (PositionHint j) (CreatedAt j) (StartedAt j) (Some now) (FetchedAt j).
Definition set_fetched (now : Z) (j : Job) : Job :=
  MkJob (ID j) (IdempotencyKey j) (Source j) (Owner j) (JobState j) (Attempts j) (Model j) (ParamsJSON j)
    (Prompt j) (Result j) (Error j) (PositionHint j) (CreatedAt j) (StartedAt j) (FinishedAt j) (Some now).

(** ** The methods of SQLiteStore *)

(** [scanOne]: the first row, or [ErrNotFound]. *)
Definition scanOne (rows : table) : result err Job :=
  match rows with j :: _ => Ok j | [] => Err ErrNotFound end.

Definition new_row (s : submission) (hint now : Z) : Job :=
  MkJob (s_id s) (s_key s) (s_source s) (s_owner s) StateQueued 0 (s_model s) (s_params s) (s_prompt s)
    "" "" hint (default now (s_created s)) None None None.

(** The [INSERT] violates the primary key when the id is taken. *)
Definition Submit (s : submission) (now : Z) (t : table) : result err (Job * bool) * table :=
  match scanOne (where_ (fun j => bool_decide (IdempotencyKey j = s_key s)) t) with
  | Ok existing => (Ok (existing, false), t)
  | Err _ =>
      let j := new_row s (tail_hint t) now in
      if existsb (by_id (s_id s)) t then (Err ErrSQL, t) else (Ok (j, true), t ++ [j])
  end.

Definition Get (id : string) (t : table) : result err Job := scanOne (where_ (by_id id) t).

Record Filter := MkFilter { f_Source : string; f_Owner : string; f_State : string; f_Limit : Z }.

Definition filter_matches (f : Filter) (j : Job) : bool :=
  (String.eqb (f_Source f) "" || String.eqb (Source j) (f_Source f))
  && (String.eqb (f_Owner f) "" || String.eqb (Owner j) (f_Owner f))
  && (String.eqb (f_State f) "" || String.eqb (State_String (JobState j)) (f_State f)).

Definition List_ (f : Filter) (t : table) : list Job :=
  let limit := if (f_Limit f <=? 0) || (1000 <? f_Limit f) then 200 else f_Limit f in
  take (Z.to_nat limit) (merge_sort created_ge (where_ (filter_matches f) t)).

Definition HasQueued (t : table) : bool := existsb (is_state StateQueued) t.

(** The batch line, first to run first. *)
Definition line (t : table) : list Job := merge_sort queue_le (where_ (is_state StateQueued) t).

Definition ClaimNext (now : Z) (t : table) : result err Job * table :=
  match scanOne (line t) with
  | Err e => (Err e, t)
  | Ok j =>
      (Ok (set_running now j),
       update (fun r => by_id (ID j) r && is_state StateQueued r) (set_running now) t)
  end.

(** [mustAffect]: no row touched is [ErrNotFound]. *)
Definition mustAffect (p : Job -> bool) (f : Job -> Job) (t : table) : result err unit * table :=
  (if existsb p t then Ok tt else Err ErrNotFound, update p f t).

Definition Succeed (id res : string) (now : Z) (t : table) : result err unit * table :=
  mustAffect (fun r => by_id id r && is_state StateRunning r) (set_succeeded res now) t.

Definition Preempt (id : string) (t : table) : result err unit * table :=
  mustAffect (fun r => by_id id r && is_state StateRunning r) (set_preempted (front_hint t)) t.

Definition FailOrRetry (id msg : string) (maxAttempts now : Z) (t : table) : result err bool * table :=
  match scanOne (where_ (by_id id) t) with
  | Err e => (Err e, t)
  | Ok r =>
      if negb (is_state StateRunning r) then (Err ErrAlreadyTerminal, t)
      else
        let attempts := Attempts r + 1 in
        if maxAttempts <=? attempts
        then (Ok true, update (by_id id) (set_failed attempts msg now) t)
        else (Ok false, update (by_id id) (set_retried attempts msg (front_hint t)) t)
  end.

(** One turn of the loop of [RecoverRunning]; a recovered row keeps its error. *)
Definition recover_one (maxAttempts now : Z) (t : table) (r : Job) : table :=
  let attempts := Attempts r + 1 in
  if maxAttempts <=? attempts
  then update (by_id (ID r)) (set_failed attempts "exceeded attempts after restart" now) t
  else update (by_id (ID r)) (fun j => set_retried attempts (Error j) (front_hint t) j) t.

Definition running_by_age (t : table) : list Job :=
  merge_sort created_le (where_ (is_state StateRunning) t).

Definition RecoverRunning (maxAttempts now : Z) (t : table) : nat * table :=
  let recs := running_by_age t in
  (length recs, foldl (recover_one maxAttempts now) t recs).

Definition Cancel (id : string) (now : Z) (t : table) : result err Job * table :=
  match Get id t with
  | Err e => (Err e, t)
  | Ok j =>
      if Terminal (JobState j) then (Ok j, t)
      else (Ok (set_canceled now j), update (by_id id) (set_canceled now) t)
  end.

Definition Position (id : string) (t : table) : result err nat :=
  match Get id t with
  | Err e => Err e
  | Ok j =>
      if negb (is_state StateQueued j) then Ok 0%nat
      else Ok (S (length (where_ (fun r =>
             is_state StateQueued r
             && ((PositionHint r <? PositionHint j)
                 || ((PositionHint r =? PositionHint j) && (CreatedAt r <? CreatedAt j)))) t)))
  end.

Definition StampFetched (id : string) (now : Z) (t : table) : table :=
  update (fun r => by_id id r && is_state StateSucceeded r && bool_decide (FetchedAt r = None))
         (set_fetched now) t.

Definition before (o : option Z) (limit : Z) : bool :=
  match o with Some x => x <? limit | None => false end.

Definition prunable (fetchedGrace hardCap now : Z) (r : Job) : bool :=
  (is_state StateSucceeded r && before (FetchedAt r) (now - fetchedGrace))
  || (Terminal (JobState r) && before (FinishedAt r) (now - hardCap)).

Definition Prune (fetchedGrace hardCap now : Z) (t : table) : nat * table :=
  (length (where_ (prunable fetchedGrace hardCap now) t),
   where_ (fun r => negb (prunable fetchedGrace hardCap now r)) t).

Record Counts_t := MkCounts { Queued : nat; Running : nat; Succeeded : nat; Failed : nat; Canceled : nat }.

Definition Counts (t : table) : Counts_t :=
  let n s := length (where_ (is_state s) t) in
  MkCounts (n StateQueued) (n StateRunning) (n StateSucceeded) (n StateFailed) (n StateCanceled).

(** ** Runs of the store *)

Inductive call :=
| CSubmit (s : submission) (now : Z)
| CClaimNext (now : Z)
| CSucceed (id result : string) (now : Z)
| CPreempt (id : string)
| CFailOrRetry (id msg : string) (now : Z)
| CRecoverRunning (now : Z)
| CCancel (id : string) (now : Z)
| CStampFetched (id : string) (now : Z)
| CPrune (fetchedGrace hardCap now : Z)
| CFault.

Definition apply (maxAttempts : Z) (c : call) (t : table) : table :=
  match c with
  | CSubmit s now => (Submit s now t).2
  | CClaimNext now => (ClaimNext now t).2
  | CSucceed id r now => (Succeed id r now t).2
  | CPreempt id => (Preempt id t).2
  | CFailOrRetry id msg now => (FailOrRetry id msg maxAttempts now t).2
  | CRecoverRunning now => (RecoverRunning maxAttempts now t).2
  | CCancel id now => (Cancel id now t).2
  | CStampFetched id now => StampFetched id now t
  | CPrune g h now => (Prune g h now t).2
  | CFault => t
  end.

Definition run (maxAttempts : Z) (cs : list call) (t : table) : table :=
  foldl (fun t c => apply maxAttempts c t) t cs.

(** ** The abstract contract of the batch line: a deque of ids *)

Definition find_job (id : string) (t : table) : option Job := head (where_ (by_id id) t).

(** What each call does to the line, [running] being the rows it finds. *)
Definition spec_line (maxAttempts : Z) (c : call) (t : table) (l : list string) : list string :=
  match c with
  | CSubmit s _ =>
      if existsb (fun j => bool_decide (IdempotencyKey j = s_key s)) t || existsb (by_id (s_id s)) t
      then l else l ++ [s_id s]
  | CClaimNext _ => tail l
  | CPreempt id =>
      match find_job id t with
      | Some j => if is_state StateRunning j then id :: l else l
      | None => l
      end
  | CFailOrRetry id _ _ =>
      match find_job id t with
      | Some j => if is_state StateRunning j && (Attempts j + 1 <? maxAttempts) then id :: l else l
      | None => l
      end
  | CRecoverRunning _ =>
      reverse (map ID (filter (fun j => Attempts j + 1 < maxAttempts) (running_by_age t))) ++ l
  | CCancel id _ => filter (fun x => x <> id) l
  | _ => l
  end.

(** The lifecycle of one row across a call. *)
Inductive lifecycle (maxAttempts : Z) : Job -> Job -> Prop :=
| life_same j : lifecycle maxAttempts j j
| life_claim j now : JobState j = StateQueued -> lifecycle maxAttempts j (set_running now j)
| life_succeed j r now : JobState j = StateRunning -> lifecycle maxAttempts j (set_succeeded r now j)
| life_preempt j h : JobState j = StateRunning -> lifecycle maxAttempts j (set_preempted h j)
| life_retry j m h : JobState j = StateRunning -> Attempts j + 1 < maxAttempts ->
    lifecycle maxAttempts j (set_retried (Attempts j + 1) m h j)
| life_fail j m now : JobState j = StateRunning -> maxAttempts <= Attempts j + 1 ->
    lifecycle maxAttempts j (set_failed (Attempts j + 1) m now j)
| life_cancel j now : Terminal (JobState j) = false -> lifecycle maxAttempts j (set_canceled now j)
| life_fetch j now : JobState j = StateSucceeded -> FetchedAt j = None ->
    lifecycle maxAttempts j (set_fetched now j).

(** ** Tables with unique ids *)

Lemma elem_of_where p t j : j ∈ where_ p t <-> p j = true /\ j ∈ t.
Proof. unfold where_. by rewrite list_elem_of_filter. Qed.

Lemma by_id_true id j : by_id id j = true <-> ID j = id.
Proof. apply bool_decide_eq_true. Qed.

Lemma by_id_false id j : by_id id j = false <-> ID j <> id.
Proof. apply bool_decide_eq_false. Qed.

Lemma is_state_true s j : is_state s j = true <-> JobState j = s.
Proof. apply bool_decide_eq_true. Qed.

Lemma is_state_false s j : is_state s j = false <-> JobState j <> s.
Proof. apply bool_decide_eq_false. Qed.

Lemma where_app p t1 t2 : where_ p (t1 ++ t2) = where_ p t1 ++ where_ p t2.
Proof. apply filter_app. Qed.

Lemma where_cons p j t : where_ p (j :: t) = if p j then j :: where_ p t else where_ p t.
Proof. unfold where_. rewrite filter_cons. by destruct (p j). Qed.

Lemma update_none p f t : (forall j, j ∈ t -> p j = false) -> update p f t = t.
Proof.
  intros Hp. induction t as [|j t IH]; simpl; [done|].
  rewrite Hp, IH by set_solver. done.
Qed.

Lemma update_split p f t1 j t2 : p j = true -> (forall r, r ∈ t1 ++ t2 -> p r = false) ->
  update p f (t1 ++ j :: t2) = t1 ++ f j :: t2.
Proof.
  intros Hj Hp. unfold update. rewrite map_app. simpl. rewrite Hj. f_equal; [|f_equal].
  - apply (update_none p f). set_solver.
  - apply (update_none p f). set_solver.
Qed.

(** A table around one row, whose id no other row has. *)
Inductive at_row (j : Job) (t1 t2 : table) : table -> Prop :=
| at_row_intro : (forall r, r ∈ t1 ++ t2 -> ID r <> ID j) -> at_row j t1 t2 (t1 ++ j :: t2).

Lemma row_split t j : NoDup (ID <$> t) -> j ∈ t -> exists t1 t2, at_row j t1 t2 t.
Proof.
  intros Hn (t1 & t2 & ->)%list_elem_of_split. exists t1, t2. constructor.
  intros r Hr He. rewrite fmap_app, fmap_cons in Hn.
  apply NoDup_app in Hn as (_ & Hd & [Hj _]%NoDup_cons).
  apply elem_of_app in Hr as [Hr|Hr].
  - apply (Hd (ID r)); [by apply list_elem_of_fmap_2|]. rewrite He. by left.
  - apply Hj. rewrite <- He. by apply list_elem_of_fmap_2.
Qed.

Lemma where_by_id t j t1 t2 : at_row j t1 t2 t -> where_ (by_id (ID j)) t = [j].
Proof.
  intros []. rewrite where_app, where_cons. rewrite (proj2 (by_id_true _ _)) by done.
  assert (Hn : forall l, (forall r, r ∈ l -> ID r <> ID j) -> where_ (by_id (ID j)) l = []).
  { intros l Hl. unfold where_. induction l as [|r l IH]; [done|]. rewrite filter_cons.
    rewrite decide_False by (rewrite by_id_true; apply Hl; set_solver). apply IH. set_solver. }
  rewrite !Hn by set_solver. done.
Qed.

Lemma update_at p f j t1 t2 t : at_row j t1 t2 t -> p j = true ->
  (forall r, p r = true -> ID r = ID j) -> update p f t = t1 ++ f j :: t2.
Proof.
  intros [Hr] Hj Hp. apply update_split; [done|]. intros r Hin.
  destruct (p r) eqn:E; [|done]. by destruct (Hr _ Hin); apply Hp.
Qed.

Lemma find_by_id id t : NoDup (ID <$> t) ->
  match find_job id t with
  | Some j => where_ (by_id id) t = [j] /\ j ∈ t /\ ID j = id
  | None => where_ (by_id id) t = [] /\ forall j, j ∈ t -> ID j <> id
  end.
Proof.
  intros Hn. unfold find_job. destruct (where_ (by_id id) t) as [|j l] eqn:Hw; simpl.
  - split; [done|]. intros j Hj He.
    assert (j ∈ where_ (by_id id) t) as Hin by (apply elem_of_where; by rewrite by_id_true).
    rewrite Hw in Hin. by apply not_elem_of_nil in Hin.
  - assert (j ∈ where_ (by_id id) t) as Hin by (rewrite Hw; by left).
    apply elem_of_where in Hin as [Hid Hj]. apply by_id_true in Hid as <-.
    destruct (row_split _ _ Hn Hj) as (t1 & t2 & Ha). rewrite (where_by_id _ _ _ _ Ha) in Hw.
    by simplify_eq.
Qed.

Lemma find_job_elem t j : NoDup (ID <$> t) -> j ∈ t -> find_job (ID j) t = Some j.
Proof.
  intros Hn Hj. destruct (row_split _ _ Hn Hj) as (t1 & t2 & Ha). unfold find_job.
  by rewrite (where_by_id _ _ _ _ Ha).
Qed.

(** ** Hints and the line *)

Lemma foldr_max_ge j t m : (j = m \/ exists r, r ∈ t /\ PositionHint j = PositionHint r) ->
  PositionHint j <= foldr (fun j m => Z.max (PositionHint j) m) (PositionHint m) t.
Proof.
  induction t as [|x t IH]; simpl; intros [->|(r & Hr & He)]; [lia|set_solver|..].
  - specialize (IH (or_introl eq_refl)). lia.
  - apply elem_of_cons in Hr as [->|Hr]; [lia|]. etrans; [apply IH; right; by exists r|]. lia.
Qed.

Lemma foldr_min_le j t m : (j = m \/ exists r, r ∈ t /\ PositionHint j = PositionHint r) ->
  foldr (fun j m => Z.min (PositionHint j) m) (PositionHint m) t <= PositionHint j.
Proof.
  induction t as [|x t IH]; simpl; intros [->|(r & Hr & He)]; [lia|set_solver|..].
  - specialize (IH (or_introl eq_refl)). lia.
  - apply elem_of_cons in Hr as [->|Hr]; [lia|]. etrans; [|apply IH; right; by exists r]. lia.
Qed.

Lemma tail_hint_gt t j : j ∈ t -> PositionHint j < tail_hint t.
Proof.
  unfold tail_hint. destruct t as [|m t]; [set_solver|]. intros Hj. simpl.
  pose proof (foldr_max_ge j t m) as Hm. apply elem_of_cons in Hj as [->|Hj]; [|].
  - specialize (Hm (or_introl eq_refl)). lia.
  - specialize (Hm ltac:(right; by exists j)). lia.
Qed.

Lemma front_hint_lt t j : j ∈ where_ (is_state StateQueued) t -> front_hint t < PositionHint j.
Proof.
  unfold front_hint. destruct (where_ (is_state StateQueued) t) as [|m l]; [set_solver|]. intros Hj. simpl.
  pose proof (foldr_min_le j l m) as Hm. apply elem_of_cons in Hj as [->|Hj]; [|].
  - specialize (Hm (or_introl eq_refl)). lia.
  - specialize (Hm ltac:(right; by exists j)). lia.
Qed.

#[global] Instance queue_le_total : Total queue_le.
Proof. intros a b. unfold queue_le. lia. Qed.
#[global] Instance queue_le_trans : Transitive queue_le.
Proof. intros a b c. unfold queue_le. lia. Qed.
#[global] Instance created_le_total : Total created_le.
Proof. intros a b. unfold created_le. lia. Qed.
#[global] Instance created_ge_total : Total created_ge.
Proof. intros a b. unfold created_ge. lia. Qed.

Definition hint_lt (a b : Job) : Prop := PositionHint a < PositionHint b.

Lemma line_perm t : line t ≡ₚ where_ (is_state StateQueued) t.
Proof. apply merge_sort_Permutation. Qed.

Lemma elem_of_line t j : j ∈ line t <-> j ∈ t /\ JobState j = StateQueued.
Proof.
  rewrite line_perm, elem_of_where. rewrite is_state_true. tauto.
Qed.

Lemma StronglySorted_weaken {A} (R R' : A -> A -> Prop) l :
  (forall x y, x ∈ l -> y ∈ l -> R x y -> R' x y) -> StronglySorted R l -> StronglySorted R' l.
Proof.
  intros Hi Hs. induction Hs as [|x l Hs IH Hf]; [constructor|]. constructor.
  - apply IH. intros a b Ha Hb. apply Hi; set_solver.
  - rewrite Forall_forall in *. intros y Hy. apply Hi; [set_solver..|by apply Hf].
Qed.

(** With distinct hints the line is the one strictly sorted listing of the
    queued rows. *)
Lemma line_unique t l : l ≡ₚ where_ (is_state StateQueued) t -> StronglySorted hint_lt l -> line t = l.
Proof.
  intros Hp Hs. symmetry. apply (StronglySorted_unique_strong queue_le).
  - intros a b Ha Hb Hab Hba.
    assert (Hn : NoDup (PositionHint <$> l)).
    { clear -Hs. induction Hs as [|x l Hs IH Hf]; [constructor|]. constructor; [|done].
      rewrite Forall_forall in Hf. intros (y & Hy & Hin)%list_elem_of_fmap.
      specialize (Hf _ Hin). unfold hint_lt in Hf. lia. }
    assert (Hb' : b ∈ l) by (by rewrite Hp, <- line_perm).
    apply list_elem_of_lookup in Ha as [i Hi]. apply list_elem_of_lookup in Hb' as [k Hk].
    assert (i = k) as ->; [|congruence].
    eapply (NoDup_lookup (PositionHint <$> l)); [done|by rewrite list_lookup_fmap, Hi|].
    rewrite list_lookup_fmap, Hk. simpl. f_equal. unfold queue_le in *. lia.
  - eapply StronglySorted_weaken; [|done]. unfold hint_lt, queue_le. lia.
  - apply StronglySorted_merge_sort; apply _.
  - by rewrite line_perm.
Qed.

Lemma line_sorted t : NoDup (PositionHint <$> where_ (is_state StateQueued) t) ->
  StronglySorted hint_lt (line t).
Proof.
  rewrite <- line_perm. intros Hn. assert (Hs : StronglySorted queue_le (line t)).
  { apply StronglySorted_merge_sort; apply _. }
  induction Hs as [|x l Hs IH Hf]; [constructor|].
  rewrite fmap_cons in Hn. apply NoDup_cons in Hn as [Hx Hn]. constructor; [by apply IH|].
  rewrite Forall_forall in *. intros y Hy. specialize (Hf _ Hy). unfold queue_le, hint_lt in *.
  destruct Hf as [?|[He _]]; [done|]. destruct Hx. rewrite He. by apply list_elem_of_fmap_2.
Qed.

Lemma sorted_hints l : StronglySorted hint_lt l -> NoDup (PositionHint <$> l).
Proof.
  induction 1 as [|x l Hs IH Hf]; [constructor|]. constructor; [|done].
  rewrite Forall_forall in Hf. intros (y & Hy & Hin)%list_elem_of_fmap.
  specialize (Hf _ Hin). unfold hint_lt in Hf. lia.
Qed.

(** ** Well-formed tables *)

Record wf (t : table) : Prop := {
  wf_ids : NoDup (ID <$> t);
  wf_keys : NoDup (IdempotencyKey <$> t);
  wf_hints : NoDup (PositionHint <$> where_ (is_state StateQueued) t);
}.

(** How the rows of a table may change: each old row follows its lifecycle,
    each row of the new table comes from an old or a submitted one. *)
Definition evolves (m : Z) (t t' : table) : Prop :=
  (forall j, j ∈ t -> exists j', j' ∈ t' /\ rtc (lifecycle m) j j') /\
  (forall j', j' ∈ t' -> (exists j, j ∈ t /\ rtc (lifecycle m) j j') \/
     exists s h now, rtc (lifecycle m) (new_row s h now) j').

Lemma lifecycle_id m j j' : lifecycle m j j' -> ID j' = ID j /\ IdempotencyKey j' = IdempotencyKey j.
Proof. by destruct 1. Qed.

Lemma lifecycle_rtc_id m j j' : rtc (lifecycle m) j j' -> ID j' = ID j /\ IdempotencyKey j' = IdempotencyKey j.
Proof.
  induction 1 as [|j j1 j2 Hl _ IH]; [done|]. apply lifecycle_id in Hl. destruct IH, Hl. split; congruence.
Qed.

Lemma evolves_refl m t : evolves m t t.
Proof. split; intros j Hj; [by exists j|left; by exists j]. Qed.

Lemma evolves_trans m t1 t2 t3 : evolves m t1 t2 -> evolves m t2 t3 -> evolves m t1 t3.
Proof.
  intros [A1 B1] [A2 B2]. split.
  - intros j Hj. destruct (A1 _ Hj) as (j1 & Hj1 & R1). destruct (A2 _ Hj1) as (j2 & Hj2 & R2).
    exists j2. split; [done|]. by etrans.
  - intros j Hj. destruct (B2 _ Hj) as [(j1 & Hj1 & R1)|?]; [|by right].
    destruct (B1 _ Hj1) as [(j0 & Hj0 & R0)|(s & h & now & R0)]; [left|right].
    + exists j0. split; [done|]. by etrans.
    + exists s, h, now. by etrans.
Qed.

Lemma at_row_elem j t1 t2 t : at_row j t1 t2 t -> j ∈ t.
Proof. intros []. set_solver. Qed.

(** Replacing one row by a later stage of its lifecycle. *)
Lemma row_edit_evolves m j j' t1 t2 t :
  at_row j t1 t2 t -> lifecycle m j j' -> evolves m t (t1 ++ j' :: t2).
Proof.
  intros [Hr] Hl. split; intros r [Hin|[->|Hin]%elem_of_cons]%elem_of_app.
  - exists r. set_solver.
  - exists j'. split; [set_solver|by apply rtc_once].
  - exists r. set_solver.
  - left. exists r. set_solver.
  - left. exists j. split; [set_solver|by apply rtc_once].
  - left. exists r. set_solver.
Qed.

Lemma where_at_row p j t1 t2 t :
  at_row j t1 t2 t -> where_ p t = where_ p t1 ++ (if p j then [j] else []) ++ where_ p t2.
Proof. intros []. rewrite where_app, where_cons. by destruct (p j). Qed.

Lemma StronglySorted_filter_hint (P : Job -> Prop) `{!forall x, Decision (P x)} l :
  StronglySorted hint_lt l -> StronglySorted hint_lt (filter P l).
Proof.
  induction 1 as [|x l Hs IH Hf]; [constructor|]. rewrite filter_cons. case_decide; [|done].
  constructor; [done|]. rewrite Forall_forall in *. intros y [_ Hy]%list_elem_of_filter. by apply Hf.
Qed.

Section edit.
Context (t : table) (Hwf : wf t) (j j' : Job) (t1 t2 : table) (Hat : at_row j t1 t2 t).

Lemma line_push : JobState j <> StateQueued -> JobState j' = StateQueued ->
  PositionHint j' = front_hint t -> line (t1 ++ j' :: t2) = j' :: line t.
Proof using Hwf Hat.
  intros Hq Hq' Hh. apply line_unique.
  - rewrite where_app, where_cons, (proj2 (is_state_true _ _)) by done.
    rewrite line_perm, (where_at_row _ _ _ _ _ Hat), (proj2 (is_state_false _ _)) by done.
    simpl. by rewrite Permutation_middle.
  - constructor; [by apply line_sorted, Hwf|]. rewrite Forall_forall. intros r Hr.
    rewrite line_perm in Hr. apply front_hint_lt in Hr. unfold hint_lt. lia.
Qed.

Lemma line_drop : JobState j = StateQueued -> JobState j' <> StateQueued ->
  line (t1 ++ j' :: t2) = filter (fun r => ID r <> ID j) (line t).
Proof using Hwf Hat.
  intros Hq Hq'. apply line_unique.
  - rewrite where_app, where_cons, (proj2 (is_state_false _ _)) by done.
    rewrite line_perm, (where_at_row _ _ _ _ _ Hat), (proj2 (is_state_true _ _)) by done.
    simpl. rewrite filter_app, filter_cons, decide_False by naive_solver.
    destruct Hat as [Hr].
    assert (Hid : forall l : list Job, (forall r, r ∈ l -> ID r <> ID j) -> filter (fun r => ID r <> ID j) l = l).
    { intros l Hl. induction l as [|x l IH]; [done|].
      rewrite filter_cons, decide_True by set_solver. f_equal. apply IH. set_solver. }
    rewrite !Hid; [done|..]; intros r [_ ?]%elem_of_where; set_solver.
  - apply StronglySorted_filter_hint, line_sorted, Hwf.
Qed.

Lemma line_keep : JobState j <> StateQueued -> JobState j' <> StateQueued -> line (t1 ++ j' :: t2) = line t.
Proof using Hwf Hat.
  intros Hq Hq'. apply line_unique.
  - rewrite where_app, where_cons, (proj2 (is_state_false _ _)) by done.
    by rewrite line_perm, (where_at_row _ _ _ _ _ Hat), (proj2 (is_state_false _ _)).
  - apply line_sorted, Hwf.
Qed.

Lemma wf_edit : ID j' = ID j -> IdempotencyKey j' = IdempotencyKey j ->
  (JobState j' = StateQueued -> JobState j <> StateQueued /\ PositionHint j' = front_hint t) ->
  wf (t1 ++ j' :: t2).
Proof using Hwf Hat.
  intros Hi Hk Hh.
  assert (Hids : NoDup (ID <$> t1 ++ j' :: t2) /\ NoDup (IdempotencyKey <$> t1 ++ j' :: t2)).
  { destruct Hwf as [N1 N2 _]. destruct Hat. rewrite !fmap_app, !fmap_cons in *. by rewrite Hi, Hk. }
  destruct Hids as [Hn1 Hn2].
  split; [done|done|]. rewrite <- line_perm. apply sorted_hints.
  destruct (decide (JobState j' = StateQueued)) as [Hq'|Hq'].
  - destruct (Hh Hq') as [Hq Hf]. rewrite line_push by done. constructor; [by apply line_sorted, Hwf|].
    rewrite Forall_forall. intros r Hr. rewrite line_perm in Hr. apply front_hint_lt in Hr. unfold hint_lt. lia.
  - destruct (decide (JobState j = StateQueued)) as [Hq|Hq].
    + rewrite line_drop by done. apply StronglySorted_filter_hint, line_sorted, Hwf.
    + rewrite line_keep by done. apply line_sorted, Hwf.
Qed.

End edit.

Lemma line_ids_nodup t : wf t -> NoDup (ID <$> line t).
Proof.
  intros [Hn _ _]. rewrite line_perm. eapply sublist_NoDup; [done|].
  apply (fmap_sublist ID). apply sublist_filter.
Qed.

Lemma filter_ids (id : string) (l : list Job) :
  ID <$> filter (fun r => ID r <> id) l = filter (fun x => x <> id) (ID <$> l).
Proof.
  induction l as [|x l IH]; [done|]. rewrite fmap_cons, !filter_cons.
  case_decide; rewrite ?fmap_cons; [f_equal|]; exact IH.
Qed.

(** ** What each call does *)

Lemma update_guarded id q f t : wf t ->
  match find_job id t with
  | Some j => exists t1 t2, at_row j t1 t2 t /\ ID j = id /\
      update (fun r => by_id id r && q r) f t = if q j then t1 ++ f j :: t2 else t
  | None => update (fun r => by_id id r && q r) f t = t
  end.
Proof.
  intros [Hn _ _]. pose proof (find_by_id id t Hn) as Hf. destruct (find_job id t) as [j|].
  - destruct Hf as (_ & Hj & <-). destruct (row_split _ _ Hn Hj) as (t1 & t2 & Ha).
    exists t1, t2. do 2 (split; [done|]). destruct (q j) eqn:Hq.
    + apply update_at; [done|by rewrite Hq, (proj2 (by_id_true _ _))|].
      intros r [Hr _]%andb_true_iff. by apply by_id_true in Hr.
    + apply update_none. intros r Hr. destruct (by_id (ID j) r) eqn:Hb; [|done]. apply by_id_true in Hb.
      destruct Ha as [Ho]. simpl. apply elem_of_app in Hr as [Hr|[->|Hr]%elem_of_cons]; [set_solver|done|set_solver].
  - apply update_none. intros r Hr. destruct Hf as [_ Hf].
    by rewrite (proj2 (by_id_false _ _)) by auto.
Qed.

Lemma update_row f j t1 t2 t : at_row j t1 t2 t -> update (by_id (ID j)) f t = t1 ++ f j :: t2.
Proof.
  intros Ha. apply update_at; [done|by apply by_id_true|]. intros r. by rewrite by_id_true.
Qed.

(** A call's effect on a table: well-formedness, lifecycles, the line. *)
Definition good (m : Z) (c : call) (t t' : table) : Prop :=
  wf t' /\ evolves m t t' /\ ID <$> line t' = spec_line m c t (ID <$> line t).

Lemma good_same m c t : wf t -> spec_line m c t (ID <$> line t) = ID <$> line t -> good m c t t.
Proof. intros Hw Hl. split; [done|]. split; [apply evolves_refl|done]. Qed.

(** A row that leaves a live state for one outside the line. *)
Lemma good_keep m c t j j' t1 t2 : wf t -> at_row j t1 t2 t -> lifecycle m j j' ->
  JobState j <> StateQueued -> JobState j' <> StateQueued ->
  spec_line m c t (ID <$> line t) = ID <$> line t -> good m c t (t1 ++ j' :: t2).
Proof.
  intros Hw Ha Hl Hj Hj' Hs. destruct (lifecycle_id _ _ _ Hl). split; [by eapply wf_edit|].
  split; [by eapply row_edit_evolves|]. rewrite Hs. by erewrite line_keep.
Qed.

(** A running row that goes back to the front of the line. *)
Lemma good_push m c t j j' t1 t2 : wf t -> at_row j t1 t2 t -> lifecycle m j j' ->
  JobState j = StateRunning -> JobState j' = StateQueued -> PositionHint j' = front_hint t ->
  spec_line m c t (ID <$> line t) = ID j :: (ID <$> line t) -> good m c t (t1 ++ j' :: t2).
Proof.
  intros Hw Ha Hl Hj Hj' Hh Hs. destruct (lifecycle_id _ _ _ Hl) as [He ?].
  assert (JobState j <> StateQueued) by congruence.
  split; [by eapply wf_edit|]. split; [by eapply row_edit_evolves|]. rewrite Hs.
  erewrite line_push by done. by rewrite fmap_cons, He.
Qed.

(** A queued row that leaves the line. *)
Lemma good_drop m c t j j' t1 t2 : wf t -> at_row j t1 t2 t -> lifecycle m j j' ->
  JobState j = StateQueued -> JobState j' <> StateQueued ->
  spec_line m c t (ID <$> line t) = filter (fun x => x <> ID j) (ID <$> line t) ->
  good m c t (t1 ++ j' :: t2).
Proof.
  intros Hw Ha Hl Hj Hj' Hs. destruct (lifecycle_id _ _ _ Hl) as [He ?].
  split; [by eapply wf_edit|]. split; [by eapply row_edit_evolves|]. rewrite Hs.
  erewrite line_drop by done. apply filter_ids.
Qed.

Lemma existsb_where p t : existsb p t = match where_ p t with [] => false | _ => true end.
Proof.
  induction t as [|j t IH]; [done|]. rewrite where_cons. simpl. rewrite IH. by destruct (p j).
Qed.

Lemma where_nil p t : where_ p t = [] -> forall j, j ∈ t -> p j = false.
Proof.
  intros Hw j Hj. destruct (p j) eqn:Hp; [|done].
  assert (j ∈ where_ p t) as Hin by (by apply elem_of_where). rewrite Hw in Hin.
  by apply not_elem_of_nil in Hin.
Qed.

Lemma where_tail p t j : where_ p (t ++ [j]) = where_ p t ++ if p j then [j] else [].
Proof. rewrite where_app, where_cons. by destruct (p j). Qed.

Lemma StronglySorted_snoc (R : Job -> Job -> Prop) l j :
  StronglySorted R l -> (forall r, r ∈ l -> R r j) -> StronglySorted R (l ++ [j]).
Proof.
  induction 1 as [|x l Hs IH Hf]; intros Hr; simpl; [by repeat constructor|].
  constructor; [apply IH; set_solver|]. apply Forall_app. split; [done|].
  apply Forall_singleton, Hr. by left.
Qed.

Lemma submit_good m s now t : wf t -> good m (CSubmit s now) t (Submit s now t).2.
Proof.
  intros Hw. unfold Submit, scanOne.
  destruct (where_ (fun j => bool_decide (IdempotencyKey j = s_key s)) t) as [|e l] eqn:Hk.
  2: { apply good_same; [done|]. simpl. by rewrite existsb_where, Hk. }
  destruct (existsb (by_id (s_id s)) t) eqn:Hi.
  { apply good_same; [done|]. simpl. by rewrite Hi, orb_true_r. }
  simpl. set (j := new_row s (tail_hint t) now).
  assert (Hnew : where_ (is_state StateQueued) (t ++ [j]) = where_ (is_state StateQueued) t ++ [j])
    by (by rewrite where_tail, (proj2 (is_state_true _ _))).
  assert (Hsort : StronglySorted hint_lt (line t ++ [j])).
  { apply StronglySorted_snoc; [by apply line_sorted, Hw|]. intros r [Hr _]%elem_of_line. by apply tail_hint_gt. }
  assert (Hline : line (t ++ [j]) = line t ++ [j]).
  { apply line_unique; [|done]. by rewrite Hnew, line_perm. }
  split; [split|split].
  - rewrite fmap_app. apply NoDup_app. split; [apply Hw|]. split; [|apply NoDup_singleton].
    intros x (r & -> & Hr)%list_elem_of_fmap Hx. apply list_elem_of_singleton in Hx. simpl in Hx.
    rewrite existsb_where in Hi. destruct (where_ (by_id (s_id s)) t) eqn:Hwi; [|done].
    pose proof (where_nil _ _ Hwi _ Hr) as Hf. by apply by_id_false in Hf.
  - rewrite fmap_app. apply NoDup_app. split; [apply Hw|]. split; [|apply NoDup_singleton].
    intros x (r & -> & Hr)%list_elem_of_fmap Hx. apply list_elem_of_singleton in Hx. simpl in Hx.
    pose proof (where_nil _ _ Hk _ Hr) as Hf. by apply bool_decide_eq_false in Hf.
  - rewrite <- line_perm, Hline. by apply sorted_hints.
  - split; intros r Hr.
    + exists r. set_solver.
    + apply elem_of_app in Hr as [Hr| ->%list_elem_of_singleton]; [left; by exists r|].
      right. by exists s, (tail_hint t), now.
  - rewrite Hline, fmap_app. simpl. rewrite existsb_where, Hk, Hi. done.
Qed.

Lemma filter_notin (l : list string) x : x ∉ l -> filter (fun y => y <> x) l = l.
Proof.
  induction l as [|y l IH]; intros Hx; [done|]. apply not_elem_of_cons in Hx as [Hy Hx].
  rewrite filter_cons, decide_True by done. f_equal. by apply IH.
Qed.

Lemma claim_head t j l : wf t -> line t = j :: l -> filter (fun x => x <> ID j) (ID <$> line t) = ID <$> l.
Proof.
  intros Hw Hl. pose proof (line_ids_nodup _ Hw) as Hn. rewrite Hl, fmap_cons in *.
  apply NoDup_cons in Hn as [Hj _]. rewrite filter_cons, decide_False by naive_solver.
  by apply filter_notin.
Qed.

Lemma claim_good m now t : wf t -> good m (CClaimNext now) t (ClaimNext now t).2.
Proof.
  intros Hw. unfold ClaimNext, scanOne. destruct (line t) as [|j l] eqn:Hl; simpl.
  { apply good_same; [done|]. by rewrite Hl. }
  assert (Hj : j ∈ t /\ JobState j = StateQueued) by (apply elem_of_line; rewrite Hl; by left).
  destruct Hj as [Hj Hq].
  destruct (row_split _ _ (wf_ids _ Hw) Hj) as (t1 & t2 & Ha).
  rewrite (update_at _ _ _ _ _ _ Ha).
  - eapply good_drop; [done|done|by apply life_claim|done|done|].
    rewrite (claim_head _ _ _ Hw Hl). simpl. by rewrite Hl.
  - by rewrite (proj2 (by_id_true _ _)), (proj2 (is_state_true _ _)).
  - intros r [Hr _]%andb_true_iff. by apply by_id_true in Hr.
Qed.

Lemma succeed_good m id res now t : wf t -> good m (CSucceed id res now) t (Succeed id res now t).2.
Proof.
  intros Hw. unfold Succeed, mustAffect. cbn [snd].
  pose proof (update_guarded id (is_state StateRunning) (set_succeeded res now) t Hw) as Hu.
  destruct (find_job id t) as [j|]; [|rewrite Hu; by apply good_same].
  destruct Hu as (t1 & t2 & Ha & _ & ->). destruct (is_state StateRunning j) eqn:Hr; [|by apply good_same].
  apply is_state_true in Hr. eapply good_keep; [done|done|by apply life_succeed|congruence|done|done].
Qed.

Lemma preempt_good m id t : wf t -> good m (CPreempt id) t (Preempt id t).2.
Proof.
  intros Hw. unfold Preempt, mustAffect. cbn [snd].
  pose proof (update_guarded id (is_state StateRunning) (set_preempted (front_hint t)) t Hw) as Hu.
  destruct (find_job id t) as [j|] eqn:Hf; [|rewrite Hu; apply good_same; [done|simpl; by rewrite Hf]].
  destruct Hu as (t1 & t2 & Ha & <- & ->). destruct (is_state StateRunning j) eqn:Hr.
  - apply is_state_true in Hr as Hr'. eapply good_push; [done|done|by apply life_preempt|done|done|done|].
    simpl. by rewrite Hf, Hr.
  - apply good_same; [done|]. simpl. by rewrite Hf, Hr.
Qed.

Lemma fail_good m id msg now t : wf t -> good m (CFailOrRetry id msg now) t (FailOrRetry id msg m now t).2.
Proof.
  intros Hw. unfold FailOrRetry, scanOne. pose proof (find_by_id id t (wf_ids _ Hw)) as Hf.
  destruct (find_job id t) as [j|] eqn:Hfj; destruct Hf as [-> Hf].
  2: { apply good_same; [done|]. simpl. by rewrite Hfj. }
  destruct Hf as [Hj <-]. destruct (is_state StateRunning j) eqn:Hr; simpl.
  2: { apply good_same; [done|]. simpl. by rewrite Hfj, Hr. }
  apply is_state_true in Hr as Hr'. destruct (row_split _ _ (wf_ids _ Hw) Hj) as (t1 & t2 & Ha).
  destruct (Z.leb_spec m (Attempts j + 1)); simpl; rewrite (update_row _ _ _ _ _ Ha).
  - eapply good_keep; [done|done|by apply life_fail|congruence|done|].
    simpl. rewrite Hfj, Hr, (proj2 (Z.ltb_ge _ _)) by lia. done.
  - eapply good_push; [done|done|by apply life_retry|done|done|done|].
    simpl. rewrite Hfj, Hr, (proj2 (Z.ltb_lt _ _)) by lia. done.
Qed.

Lemma cancel_good m id now t : wf t -> good m (CCancel id now) t (Cancel id now t).2.
Proof.
  intros Hw. unfold Cancel, Get, scanOne. pose proof (find_by_id id t (wf_ids _ Hw)) as Hf.
  assert (Hout : (forall j, j ∈ t -> ID j = id -> JobState j <> StateQueued) ->
                 filter (fun x => x <> id) (ID <$> line t) = ID <$> line t).
  { intros Ho. apply filter_notin. intros (j & -> & [Hj Hq]%elem_of_line)%list_elem_of_fmap. by eapply Ho. }
  destruct (find_job id t) as [j|] eqn:Hfj; destruct Hf as [-> Hf].
  2: { apply good_same; [done|]. apply Hout. intros j Hj Hi. by destruct (Hf _ Hj). }
  destruct Hf as [Hj <-]. destruct (row_split _ _ (wf_ids _ Hw) Hj) as (t1 & t2 & Ha).
  assert (Hother : JobState j <> StateQueued -> filter (fun x => x <> ID j) (ID <$> line t) = ID <$> line t).
  { intros Hq. apply Hout. intros r Hr He. enough (r = j) as -> by done.
    pose proof (find_job_elem _ _ (wf_ids _ Hw) Hr) as Hr'. rewrite He, Hfj in Hr'. congruence. }
  destruct (Terminal (JobState j)) eqn:Ht; simpl.
  { apply good_same; [done|]. apply Hother. by destruct (JobState j). }
  rewrite (update_row _ _ _ _ _ Ha). destruct (decide (JobState j = StateQueued)) as [Hq|Hq].
  - eapply good_drop; [done|done|by apply life_cancel|done|done|done].
  - eapply good_keep; [done|done|by apply life_cancel|done|done|]. by apply Hother.
Qed.

Lemma stamp_good m id now t : wf t -> good m (CStampFetched id now) t (StampFetched id now t).
Proof.
  intros Hw. unfold StampFetched.
  pose proof (update_guarded id (fun r => is_state StateSucceeded r && bool_decide (FetchedAt r = None))
                (set_fetched now) t Hw) as Hu.
  assert (He : forall f, update (fun r => by_id id r && is_state StateSucceeded r && bool_decide (FetchedAt r = None)) f t
    = update (fun r => by_id id r && (is_state StateSucceeded r && bool_decide (FetchedAt r = None))) f t).
  { intros f. unfold update. apply map_ext. intros r. by rewrite andb_assoc. }
  rewrite He. destruct (find_job id t) as [j|]; [|rewrite Hu; by apply good_same].
  destruct Hu as (t1 & t2 & Ha & _ & ->). destruct (_ && _) eqn:Hr; [|by apply good_same].
  apply andb_true_iff in Hr as [Hs%is_state_true Hn%bool_decide_eq_true].
  eapply good_keep; [done|done|by apply life_fetch|congruence|simpl; congruence|done].
Qed.

(** One turn of the recovery loop is a retry whose message does not matter. *)
Lemma recover_one_good m now t r : wf t -> r ∈ t -> JobState r = StateRunning ->
  exists r' t1 t2, at_row r t1 t2 t /\ recover_one m now t r = t1 ++ r' :: t2 /\
    JobState r' <> StateRunning /\ good m (CFailOrRetry (ID r) "" now) t (t1 ++ r' :: t2).
Proof.
  intros Hw Hr Hs. destruct (row_split _ _ (wf_ids _ Hw) Hr) as (t1 & t2 & Ha).
  pose proof (find_job_elem _ _ (wf_ids _ Hw) Hr) as Hf. unfold recover_one.
  destruct (Z.leb_spec m (Attempts r + 1)); rewrite (update_row _ _ _ _ _ Ha).
  - eexists _, t1, t2. do 2 (split; [done|]). split; [done|].
    eapply good_keep; [done|done|by apply life_fail|congruence|done|].
    simpl. by rewrite Hf, (proj2 (is_state_true _ _)), (proj2 (Z.ltb_ge _ _)) by (done || lia).
  - eexists _, t1, t2. do 2 (split; [done|]). split; [done|].
    eapply good_push; [done|done|by apply life_retry|done|done|done|].
    simpl. by rewrite Hf, (proj2 (is_state_true _ _)), (proj2 (Z.ltb_lt _ _)) by (done || lia).
Qed.

Lemma recover_fold m now recs t : wf t -> NoDup (ID <$> recs) ->
  (forall r, r ∈ recs -> r ∈ t /\ JobState r = StateRunning) ->
  let t' := foldl (recover_one m now) t recs in
  wf t' /\ evolves m t t' /\
  ID <$> line t' = reverse (map ID (filter (fun j => Attempts j + 1 < m) recs)) ++ (ID <$> line t) /\
  (forall j, j ∈ t' -> JobState j = StateRunning -> j ∈ t /\ ID j ∉ ID <$> recs).
Proof.
  revert t. induction recs as [|r recs IH]; intros t Hw Hn Hrecs; simpl.
  - split; [done|]. split; [apply evolves_refl|]. split; [done|]. set_solver.
  - rewrite fmap_cons in Hn. apply NoDup_cons in Hn as [Hr Hn].
    destruct (Hrecs r) as [Hrt Hrun]; [by left|].
    destruct (recover_one_good m now t r Hw Hrt Hrun) as (r' & t1 & t2 & Ha & -> & Hr' & G1 & G2 & G3).
    assert (Hothers : forall j, j ∈ t1 ++ r' :: t2 -> JobState j = StateRunning -> j ∈ t /\ ID j <> ID r).
    { intros j Hj Hs. destruct Ha as [Ho].
      apply elem_of_app in Hj as [Hj|[->|Hj]%elem_of_cons]; [set_solver|done|set_solver]. }
    destruct (IH (t1 ++ r' :: t2)) as (I1 & I2 & I3 & I4); [done|done|..].
    { intros x Hx. destruct (Hrecs x) as [Hxt Hxs]; [by right|]. split; [|done].
      assert (ID x <> ID r) by (intros He; apply Hr; rewrite <- He; by apply list_elem_of_fmap_2).
      destruct Ha as [Ho]. apply elem_of_app in Hxt as [?|[->|?]%elem_of_cons]; set_solver. }
    split; [done|]. split; [by eapply evolves_trans|]. split.
    + rewrite I3, G3. simpl. rewrite (find_job_elem _ _ (wf_ids _ Hw) Hrt), (proj2 (is_state_true _ _)) by done.
      simpl. rewrite filter_cons. destruct (Z.ltb_spec (Attempts r + 1) m).
      * rewrite decide_True by done. simpl. rewrite reverse_cons, <- app_assoc. done.
      * by rewrite decide_False by lia.
    + intros j Hj Hs. destruct (I4 _ Hj Hs) as [Hjt Hjr]. destruct (Hothers _ Hjt Hs). split; [done|].
      by intros [?|?]%elem_of_cons.
Qed.

Lemma running_by_age_elem t j : j ∈ running_by_age t <-> j ∈ t /\ JobState j = StateRunning.
Proof.
  unfold running_by_age. rewrite merge_sort_Permutation, elem_of_where, is_state_true. tauto.
Qed.

Lemma running_by_age_nodup t : wf t -> NoDup (ID <$> running_by_age t).
Proof.
  intros [Hn _ _]. unfold running_by_age. rewrite merge_sort_Permutation.
  eapply sublist_NoDup; [done|]. apply (fmap_sublist ID). apply sublist_filter.
Qed.

Lemma recover_good m now t : wf t -> good m (CRecoverRunning now) t (RecoverRunning m now t).2.
Proof.
  intros Hw. destruct (recover_fold m now (running_by_age t) t Hw (running_by_age_nodup _ Hw))
    as (H1 & H2 & H3 & _); [intros r; by rewrite running_by_age_elem|].
  split; [done|]. split; [done|]. apply H3.
Qed.

(** What a restart makes of the row of a job it finds RUNNING: one more attempt, and
    another try if there are any left. *)
Definition recovered (m now : Z) (j j' : Job) : Prop :=
  if m <=? Attempts j + 1
  then j' = set_failed (Attempts j + 1) "exceeded attempts after restart" now j
  else exists h, j' = set_retried (Attempts j + 1) (Error j) h j.

Lemma recover_fold_row m now recs t j : wf t -> NoDup (ID <$> recs) ->
  (forall r, r ∈ recs -> r ∈ t /\ JobState r = StateRunning) -> j ∈ t ->
  exists j', j' ∈ foldl (recover_one m now) t recs /\ ID j' = ID j /\
    if decide (ID j ∈ ID <$> recs) then recovered m now j j' else j' = j.
Proof.
  revert t j. induction recs as [|r recs IH]; intros t j Hw Hn Hrecs Hj; [by exists j|].
  rewrite fmap_cons in *. apply NoDup_cons in Hn as [Hr Hn]. destruct (Hrecs r) as [Hrt Hrun]; [by left|].
  destruct (recover_one_good m now t r Hw Hrt Hrun) as (r' & t1 & t2 & Ha & E & _ & G1 & _).
  assert (ID r' = ID r /\ recovered m now r r') as [Ei Erec].
  { unfold recover_one in E. unfold recovered.
    destruct (m <=? Attempts r + 1); rewrite (update_row _ _ _ _ _ Ha) in E; apply app_inv_head in E as [= <-]; eauto. }
  assert (forall x, x ∈ t -> ID x <> ID r -> x ∈ t1 ++ r' :: t2) as Hother.
  { intros x Hx Hne. destruct Ha as [Ho]. apply elem_of_app in Hx as [?|[->|?]%elem_of_cons]; set_solver. }
  assert (forall x, x ∈ recs -> x ∈ t1 ++ r' :: t2 /\ JobState x = StateRunning) as Hrecs'.
  { intros x Hx. destruct (Hrecs x) as [Hxt Hxs]; [by right|]. split; [|done]. apply Hother; [done|].
    intros He. apply Hr. rewrite <- He. by apply list_elem_of_fmap_2. }
  simpl. rewrite E. destruct (decide (ID j = ID r)) as [He|Hne].
  - assert (j = r) as -> by (eapply (NoDup_map_inj ID); [apply Hw|done..]).
    destruct (IH _ r' G1 Hn Hrecs') as (j' & Hj' & Eid & H); [set_solver|]. rewrite decide_False in H by congruence. subst j'.
    exists r'. split; [done|]. split; [done|]. rewrite decide_True; [done|by left].
  - destruct (IH _ j G1 Hn Hrecs' (Hother _ Hj Hne)) as (j' & Hj' & Eid & H). exists j'. do 2 (split; [done|]).
    destruct (decide (ID j ∈ ID <$> recs)); [rewrite decide_True by (by right)|rewrite decide_False by set_solver]; done.
Qed.

Lemma recover_row m now t j : wf t -> j ∈ t ->
  exists j', find_job (ID j) (RecoverRunning m now t).2 = Some j' /\
    if is_state StateRunning j then recovered m now j j' else j' = j.
Proof.
  intros Hw Hj. destruct (recover_fold_row m now (running_by_age t) t j Hw (running_by_age_nodup _ Hw)) as (j' & Hin & Eid & H);
    [intros r; by rewrite running_by_age_elem|done|].
  exists j'. split. { rewrite <- Eid. apply find_job_elem; [apply (recover_good m now t Hw)|done]. }
  destruct (is_state StateRunning j) eqn:Hs.
  - rewrite decide_True in H; [done|]. apply list_elem_of_fmap_2, running_by_age_elem. split; [done|by apply is_state_true].
  - rewrite decide_False in H; [done|]. intros (x & Ex & [Hx Hxs]%running_by_age_elem)%list_elem_of_fmap.
    assert (x = j) as -> by (eapply (NoDup_map_inj ID); [apply Hw|done..]). apply is_state_true in Hxs. congruence.
Qed.

(** Pruning keeps a sublist that contains every live row. *)
Lemma prunable_terminal g h now j : prunable g h now j = true -> Terminal (JobState j) = true.
Proof.
  unfold prunable. rewrite orb_true_iff, !andb_true_iff. intros [[Hs _]|[? _]]; [|done].
  apply is_state_true in Hs. by rewrite Hs.
Qed.

Lemma prune_line g h now t : line (Prune g h now t).2 = line t.
Proof.
  simpl. unfold line. f_equal. unfold where_. rewrite list_filter_filter.
  apply list_filter_iff. intros j. rewrite is_state_true. split; [tauto|]. intros Hq. split; [done|].
  apply negb_true_iff. destruct (prunable g h now j) eqn:Hp; [|done].
  apply prunable_terminal in Hp. by rewrite Hq in Hp.
Qed.

Lemma prune_wf g h now t : wf t -> wf (Prune g h now t).2.
Proof.
  intros Hw. split.
  - eapply sublist_NoDup; [exact (wf_ids _ Hw)|]. apply (fmap_sublist ID), sublist_filter.
  - eapply sublist_NoDup; [exact (wf_keys _ Hw)|]. apply (fmap_sublist IdempotencyKey), sublist_filter.
  - rewrite <- line_perm, prune_line, line_perm. apply Hw.
Qed.

Definition pruned_by (c : call) (j : Job) : bool :=
  match c with CPrune g h now => prunable g h now j | _ => false end.

Lemma apply_good m c t : wf t ->
  wf (apply m c t) /\ ID <$> line (apply m c t) = spec_line m c t (ID <$> line t) /\
  (forall j, j ∈ t -> if pruned_by c j then j ∉ apply m c t
                      else exists j', j' ∈ apply m c t /\ rtc (lifecycle m) j j') /\
  (forall j', j' ∈ apply m c t -> (exists j, j ∈ t /\ rtc (lifecycle m) j j') \/
     exists s h now, rtc (lifecycle m) (new_row s h now) j').
Proof.
  intros Hw.
  assert (Hg : good m c t (apply m c t) -> (forall j, pruned_by c j = false) ->
    wf (apply m c t) /\ ID <$> line (apply m c t) = spec_line m c t (ID <$> line t) /\
    (forall j, j ∈ t -> if pruned_by c j then j ∉ apply m c t
                        else exists j', j' ∈ apply m c t /\ rtc (lifecycle m) j j') /\
    (forall j', j' ∈ apply m c t -> (exists j, j ∈ t /\ rtc (lifecycle m) j j') \/
       exists s h now, rtc (lifecycle m) (new_row s h now) j')).
  { intros (G1 & [G2 G3] & G4) Hp. repeat (split; [done|]). split; [|done]. intros j Hj. rewrite Hp. by apply G2. }
  destruct c as [s now|now|id r now|id|id msg now|now|id now|id now|g h now|].
  1-8: apply Hg; [|done].
  - by apply submit_good.
  - by apply claim_good.
  - by apply succeed_good.
  - by apply preempt_good.
  - by apply fail_good.
  - by apply recover_good.
  - by apply cancel_good.
  - by apply stamp_good.
  - clear Hg. split; [by apply prune_wf|].
    split; [change (ID <$> line (Prune g h now t).2 = ID <$> line t); by rewrite prune_line|]. split.
    + intros j Hj. simpl. destruct (prunable g h now j) eqn:Hp.
      * rewrite elem_of_where, Hp. naive_solver.
      * exists j. split; [|done]. by rewrite elem_of_where, Hp.
    + intros j [_ Hj]%elem_of_where. left. by exists j.
  - apply Hg; [|done]. by apply good_same.
Qed.

Lemma run_wf m cs : wf (run m cs []).
Proof.
  unfold run. assert (Hw : wf []) by (split; constructor).
  revert Hw. generalize (@nil Job). induction cs as [|c cs IH]; intros t Hw; simpl; [done|].
  apply IH. by apply apply_good.
Qed.

(** A property of rows that lifecycles preserve and new rows have. *)
Lemma run_rows m (P : Job -> Prop) :
  (forall s h now, P (new_row s h now)) -> (forall j j', P j -> lifecycle m j j' -> P j') ->
  forall cs j, j ∈ run m cs [] -> P j.
Proof.
  intros Hnew Hstep cs.
  assert (Hrtc : forall j j', rtc (lifecycle m) j j' -> P j -> P j').
  { induction 1; eauto. }
  assert (Hgen : forall t, wf t -> (forall j, j ∈ t -> P j) -> forall j, j ∈ run m cs t -> P j).
  { unfold run. induction cs as [|c cs IH]; intros t Hw Ht j; simpl; [by apply Ht|].
    destruct (apply_good m c t Hw) as (W & _ & _ & E). apply IH; [done|].
    intros j' Hj'. destruct (E _ Hj') as [(j0 & Hj0 & R)|(s & h & now & R)]; eauto. }
  apply Hgen; [split; constructor|]. set_solver.
Qed.

Lemma terminal_rtc m j j' : rtc (lifecycle m) j j' -> Terminal (JobState j) = true ->
  j' = j \/ (JobState j = StateSucceeded /\ FetchedAt j = None /\ exists now, j' = set_fetched now j).
Proof.
  intros Hr Ht.
  assert (Hstep : forall x y, lifecycle m x y -> Terminal (JobState x) = true ->
    y = x \/ (JobState x = StateSucceeded /\ FetchedAt x = None /\ exists now, y = set_fetched now x)).
  { intros x y Hxy Hx.
    destruct Hxy as [|? ? Hq|? ? ? Hq|? ? Hq|? ? ? Hq|? ? ? Hq|? ? Hq|]; try (rewrite Hq in Hx; done);
      [by left|right; eauto]. }
  induction Hr as [j|j j1 j2 Hl Hr IH]; [by left|].
  destruct (Hstep _ _ Hl Ht) as [->|(Hs & Hf & now & ->)]; [by apply IH|].
  right. split; [done|]. split; [done|]. exists now. simpl in *. destruct (IH Ht) as [->|(_ & ? & _)]; done.
Qed.

(** ** Positions *)

Lemma sorted_count (q : Job -> bool) l i j :
  StronglySorted hint_lt l -> l !! i = Some j ->
  (forall r, r ∈ l -> q r = true <-> PositionHint r < PositionHint j) -> length (where_ q l) = i.
Proof.
  intros Hs. revert i. induction Hs as [|x l Hs IH Hf]; intros i Hi Hq; [done|].
  rewrite Forall_forall in Hf. destruct i as [|i]; simplify_eq/=.
  - rewrite where_cons. destruct (q j) eqn:E; [apply Hq in E; [lia|by left]|].
    destruct (where_ q l) as [|y w] eqn:Hw; [done|].
    assert (Hy : y ∈ where_ q l) by (rewrite Hw; by left). apply elem_of_where in Hy as [Hqy Hy].
    apply Hq in Hqy; [|by right]. specialize (Hf _ Hy). unfold hint_lt in Hf. lia.
  - rewrite where_cons. rewrite (proj2 (Hq x ltac:(by left))).
    + simpl. f_equal. apply IH; [done|]. intros r Hr. apply Hq. by right.
    + apply Hf. by eapply list_elem_of_lookup_2.
Qed.

Lemma position_of t i j : wf t -> line t !! i = Some j -> Position (ID j) t = Ok (S i).
Proof.
  intros Hw Hi. assert (Hj : j ∈ line t) by (by eapply list_elem_of_lookup_2).
  apply elem_of_line in Hj as [Hj Hq]. unfold Position, Get, scanOne.
  pose proof (find_by_id (ID j) t (wf_ids _ Hw)) as Hf. rewrite (find_job_elem _ _ (wf_ids _ Hw) Hj) in Hf.
  destruct Hf as [-> _]. rewrite (proj2 (is_state_true _ _)) by done. simpl. do 2 f_equal.
  set (q := fun r => (PositionHint r <? PositionHint j) || (PositionHint r =? PositionHint j) && (CreatedAt r <? CreatedAt j)).
  assert (Hsplit : where_ (fun r => is_state StateQueued r && q r) t = where_ q (where_ (is_state StateQueued) t)).
  { unfold where_. rewrite list_filter_filter. apply list_filter_iff. intros r. rewrite andb_true_iff. tauto. }
  change (length (where_ (fun r => is_state StateQueued r && q r) t) = i).
  rewrite Hsplit. assert (Hp : where_ q (where_ (is_state StateQueued) t) ≡ₚ where_ q (line t)).
  { unfold where_ at 1 3. by rewrite line_perm. }
  rewrite Hp. apply (sorted_count q (line t) i j); [apply line_sorted, Hw|done|].
  intros r Hr. unfold q. rewrite orb_true_iff, andb_true_iff, !Z.ltb_lt, Z.eqb_eq.
  split; [|by left]. intros [?|[He Hc]]; [done|].
  pose proof (sorted_hints _ (line_sorted t (wf_hints _ Hw))) as Hn.
  apply list_elem_of_lookup in Hr as [k Hk].
  assert (k = i) as ->; [|simplify_eq; lia].
  eapply (NoDup_lookup (PositionHint <$> line t)); [done|by rewrite list_lookup_fmap, Hk|].
  rewrite list_lookup_fmap, Hi. simpl. by rewrite He.
Qed.

Lemma where_key_nil key t : where_ (fun j => bool_decide (IdempotencyKey j = key)) t = [] <->
  forall j, j ∈ t -> IdempotencyKey j <> key.
Proof.
  split.
  - intros Hw j Hj. pose proof (where_nil _ _ Hw _ Hj) as Hb. by apply bool_decide_eq_false in Hb.
  - intros Hn. destruct (where_ _ t) as [|j l] eqn:Hw; [done|].
    assert (Hj : j ∈ where_ (fun j => bool_decide (IdempotencyKey j = key)) t) by (rewrite Hw; by left).
    apply elem_of_where in Hj as [Hb Hj]. apply bool_decide_eq_true in Hb. by destruct (Hn _ Hj).
Qed.

Definition is_prune (c : call) : bool := match c with CPrune _ _ _ => true | _ => false end.

Lemma run_keeps m cs t j : wf t -> Forall (fun c => is_prune c = false) cs -> j ∈ t ->
  exists j', j' ∈ run m cs t /\ ID j' = ID j /\ IdempotencyKey j' = IdempotencyKey j /\ wf (run m cs t).
Proof.
  unfold run. revert t j. induction cs as [|c cs IH]; intros t j Hw Hc Hj; simpl; [by exists j|].
  apply Forall_cons in Hc as [Hc Hcs]. destruct (apply_good m c t Hw) as (W & _ & G & _).
  specialize (G _ Hj). assert (pruned_by c j = false) as Hp by (by destruct c). rewrite Hp in G.
  destruct G as (j1 & Hj1 & R). apply lifecycle_rtc_id in R as [R1 R2].
  destruct (IH _ _ W Hcs Hj1) as (j2 & ? & ? & ? & ?). exists j2.
  split; [done|]. split; [congruence|]. split; [congruence|done].
Qed.

(** ** Properties *)

(** C5: the store refines a deque of job ids: after any run of calls, the batch
    line changes as the contract says. [Submit] appends a new id, [ClaimNext]
    takes the first, a preempted or retried running job goes to the very front,
    [Cancel] takes its id out, everything else leaves the line alone. *)
Theorem store_refines_deque m cs c :
  let t := run m cs [] in
  ID <$> line (apply m c t) = spec_line m c t (ID <$> line t).
Proof. intros t. apply (apply_good m c t (run_wf m cs)). Qed.

(** C20: the lifecycle: one call moves each job along the state machine or, for
    [Prune] alone, deletes it, and only a terminal one; a terminal job never
    changes again except for the first fetch stamp of a succeeded one. *)
Theorem job_lifecycle m cs c j :
  let t := run m cs [] in
  j ∈ t ->
  (if pruned_by c j then Terminal (JobState j) = true /\ find_job (ID j) (apply m c t) = None
   else exists j', find_job (ID j) (apply m c t) = Some j' /\ rtc (lifecycle m) j j' /\
          (Terminal (JobState j) = true ->
           j' = j \/ (JobState j = StateSucceeded /\ FetchedAt j = None /\ exists now, j' = set_fetched now j))).
Proof.
  intros t Hj. pose proof (run_wf m cs) as Hw. destruct (apply_good m c t Hw) as (W & _ & G & E).
  specialize (G _ Hj). destruct (pruned_by c j) eqn:Hp.
  - split; [destruct c; try done; by eapply prunable_terminal|].
    pose proof (find_by_id (ID j) (apply m c t) (wf_ids _ W)) as Hf.
    destruct (find_job (ID j) (apply m c t)) as [j'|]; [|done]. destruct Hf as (_ & Hj' & Hi).
    destruct c; try done. simpl in Hj'. apply elem_of_where in Hj' as [Hj1 Hj2].
    pose proof (find_job_elem _ _ (wf_ids _ Hw) Hj2) as F1.
    pose proof (find_job_elem _ _ (wf_ids _ Hw) Hj) as F2. rewrite Hi in F1. simplify_eq.
    destruct G. apply elem_of_where. by split.
  - destruct G as (j' & Hj' & R). exists j'. pose proof (lifecycle_rtc_id _ _ _ R) as [He _].
    rewrite <- He. split; [by apply find_job_elem; [apply W|]|]. split; [done|]. by eapply terminal_rtc.
Qed.

(** C30: the table stays well-formed: ids, idempotency keys and the hints of
    queued jobs are unique, a job is terminal exactly when it has a finish time,
    and only a succeeded one has a fetch time. *)
Theorem store_well_formed m cs :
  let t := run m cs [] in
  NoDup (ID <$> t) /\ NoDup (IdempotencyKey <$> t) /\ NoDup (PositionHint <$> line t) /\
  forall j, j ∈ t -> (Terminal (JobState j) = true <-> FinishedAt j <> None) /\
                     (FetchedAt j <> None -> JobState j = StateSucceeded).
Proof.
  intros t. pose proof (run_wf m cs) as [H1 H2 H3]. split; [done|]. split; [done|].
  split; [by rewrite line_perm|]. apply run_rows; [done|].
  intros j j' [Hf Hs] Hl. destruct Hl as [|j n Hq|j r n Hq|j h Hq|j x h Hq|j x n Hq|j n Hq|]; simpl;
    rewrite ?Hq in *; simpl in *; split; try done.
  all: try (split; [done|intros Hx; by apply Hf in Hx]).
  all: try (intros Hx; by specialize (Hs Hx)).
  intros Hx. specialize (Hs Hx). by rewrite Hs in Hq.
Qed.

(** Attempts are bounded: a job that is not failed has used fewer than
    [max 1 maxAttempts] attempts, and a failed one exactly that many. *)
Theorem attempts_bounded m cs j :
  j ∈ run m cs [] ->
  0 <= Attempts j /\
  (if decide (JobState j = StateFailed) then Attempts j = Z.max 1 m else Attempts j < Z.max 1 m).
Proof.
  revert j. apply run_rows; [intros; simpl; lia|].
  intros j j' [H0 Hb] Hl. destruct Hl as [|j n Hq|j r n Hq|j h Hq|j x h Hq|j x n Hq|j n Hq|j n Hq]; simpl in *;
    try (rewrite Hq in Hb); simpl in *; try lia.
  - done.
  - destruct (decide (JobState j = StateFailed)) as [Hf|]; [by rewrite Hf in Hq|lia].
  - rewrite Hq. simpl. lia.
Qed.

(** A claim takes the job at position 1, marks it running and touches no
    other job; it fails only on an empty line, and then changes nothing. *)
Theorem claim_next_head m cs now :
  let t := run m cs [] in
  match ClaimNext now t with
  | (Ok j, t') => Position (ID j) t = Ok 1%nat /\ JobState j = StateRunning /\
      find_job (ID j) t' = Some j /\ forall id, id <> ID j -> find_job id t' = find_job id t
  | (Err e, t') => e = ErrNotFound /\ HasQueued t = false /\ t' = t
  end.
Proof.
  intros t. pose proof (run_wf m cs) as Hw. fold t in Hw. unfold ClaimNext, scanOne.
  destruct (line t) as [|j l] eqn:Hl; simpl.
  - split; [done|]. split; [|done]. unfold HasQueued. rewrite existsb_where.
    assert (where_ (is_state StateQueued) t = []) as ->; [|done].
    apply Permutation_nil_r. by rewrite <- line_perm, Hl.
  - split; [apply (position_of t 0 j Hw); by rewrite Hl|]. split; [done|].
    assert (Hj : j ∈ t /\ JobState j = StateQueued) by (apply elem_of_line; rewrite Hl; by left).
    destruct Hj as [Hj Hq]. destruct (row_split _ _ (wf_ids _ Hw) Hj) as (t1 & t2 & Ha).
    rewrite (update_at _ _ _ _ _ _ Ha).
    2: by rewrite (proj2 (by_id_true _ _)), (proj2 (is_state_true _ _)).
    2: { intros r [Hr _]%andb_true_iff. by apply by_id_true in Hr. }
    assert (Hnew : at_row (set_running now j) t1 t2 (t1 ++ set_running now j :: t2)).
    { constructor. by destruct Ha. }
    split; [change (ID j) with (ID (set_running now j)); unfold find_job; by rewrite (where_by_id _ _ _ _ Hnew)|].
    intros id Hid. unfold find_job. rewrite (where_at_row _ _ _ _ _ Ha), (where_at_row _ _ _ _ _ Hnew).
    by rewrite !(proj2 (by_id_false _ _)) by done.
Qed.

(** [Position] is the 1-based index in the line. *)
Theorem position_is_index m cs id i :
  let t := run m cs [] in
  Position id t = Ok (S i) <-> (ID <$> line t) !! i = Some id.
Proof.
  intros t. pose proof (run_wf m cs) as Hw. fold t in Hw. rewrite list_lookup_fmap, fmap_Some. split.
  - intros Hp. assert (Hx : exists j, j ∈ line t /\ ID j = id).
    { unfold Position, Get, scanOne in Hp. pose proof (find_by_id id t (wf_ids _ Hw)) as Hf.
      destruct (find_job id t) as [j|]; destruct Hf as [Hf1 Hf]; rewrite Hf1 in Hp; [|done].
      destruct (is_state StateQueued j) eqn:Hq; [|done]. apply is_state_true in Hq.
      exists j. rewrite elem_of_line. naive_solver. }
    destruct Hx as (j & [k Hk]%list_elem_of_lookup & <-). rewrite (position_of _ _ _ Hw Hk) in Hp.
    simplify_eq. by exists j.
  - intros (j & Hj & ->). by apply position_of.
Qed.

(** Submitting is idempotent: once a key has been accepted, submitting it
    again, after any calls but a prune, stores nothing and returns the same job. *)
Theorem submit_idempotent m cs0 s now j b cs s' now' :
  (Submit s now (run m cs0 [])).1 = Ok (j, b) -> s_key s' = s_key s ->
  Forall (fun c => is_prune c = false) cs ->
  let t := run m cs (Submit s now (run m cs0 [])).2 in
  exists j', Submit s' now' t = (Ok (j', false), t) /\ ID j' = ID j.
Proof.
  intros Hs Hk Hc t. pose proof (run_wf m cs0) as Hw. set (t0 := run m cs0 []) in *.
  destruct (submit_good m s now t0 Hw) as [W _].
  assert (Hj : j ∈ (Submit s now t0).2 /\ IdempotencyKey j = s_key s).
  { unfold Submit, scanOne in *.
    destruct (where_ (fun j => bool_decide (IdempotencyKey j = s_key s)) t0) as [|e l] eqn:Hwh.
    - destruct (existsb _ _); simplify_eq/=. split; [set_solver|done].
    - simplify_eq/=. assert (Hin : j ∈ where_ (fun j => bool_decide (IdempotencyKey j = s_key s)) t0) by (rewrite Hwh; by left).
      apply elem_of_where in Hin as [Hb ?]. by apply bool_decide_eq_true in Hb. }
  destruct Hj as [Hj Hjk]. destruct (run_keeps m cs _ _ W Hc Hj) as (j1 & Hj1 & He & Hek & W1). fold t in Hj1, W1.
  unfold Submit at 1, scanOne.
  destruct (where_ (fun j => bool_decide (IdempotencyKey j = s_key s')) t) as [|e l] eqn:Hwh.
  { rewrite where_key_nil in Hwh. exfalso. eapply Hwh; [done|congruence]. }
  exists e. split; [done|].
  assert (Hin : e ∈ where_ (fun j => bool_decide (IdempotencyKey j = s_key s')) t) by (rewrite Hwh; by left).
  apply elem_of_where in Hin as [Hb Hin]. apply bool_decide_eq_true in Hb.
  assert (e = j1) as ->; [|done].
  apply list_elem_of_lookup in Hin as [i Hi]. apply list_elem_of_lookup in Hj1 as [k Hk1].
  assert (i = k) as ->; [|congruence].
  eapply (NoDup_lookup (IdempotencyKey <$> t)); [apply W1|by rewrite list_lookup_fmap, Hi|].
  rewrite list_lookup_fmap, Hk1. simpl. congruence.
Qed.

(** Recovery after a restart: no job is left running, every one that was is
    counted, those with attempts left are put in front of the line, the one
    created last first. *)
Theorem recover_running m cs now :
  let t := run m cs [] in
  let '(n, t') := RecoverRunning m now t in
  (forall j, j ∈ t' -> JobState j <> StateRunning) /\
  n = length (where_ (is_state StateRunning) t) /\
  ID <$> line t' = reverse (map ID (filter (fun j => Attempts j + 1 < m) (running_by_age t))) ++ (ID <$> line t).
Proof.
  intros t. pose proof (run_wf m cs) as Hw. fold t in Hw.
  destruct (recover_fold m now (running_by_age t) t Hw (running_by_age_nodup _ Hw))
    as (_ & _ & H3 & H4); [intros r; by rewrite running_by_age_elem|].
  unfold RecoverRunning. split; [|split; [|done]].
  - intros j Hj Hs. destruct (H4 _ Hj Hs) as [Hjt Hn]. apply Hn. apply list_elem_of_fmap_2.
    by rewrite running_by_age_elem.
  - unfold running_by_age. by rewrite merge_sort_Permutation.
Qed.

(** ** Witnesses *)

Definition demo_submission (id : string) : submission :=
  Submission id (id +:+ "-key") "cli" "me" "llama3" "" "hello" (Some 5).

(** "a" is claimed and succeeds, "b" is preempted ahead of "c", then retried. *)
Definition demo_calls : list call :=
  [CSubmit (demo_submission "a") 10; CSubmit (demo_submission "b") 11; CSubmit (demo_submission "c") 12;
   CClaimNext 13; CSucceed "a" "hi" 14; CClaimNext 15; CPreempt "b"; CClaimNext 16;
   CFailOrRetry "b" "boom" 17].

Definition demo_table : table := run 3 demo_calls [].

Definition demo_a : Job :=
  MkJob "a" "a-key" "cli" "me" StateSucceeded 0 "llama3" "" "hello" "hi" "" 1 5 (Some 13) (Some 14) None.

Lemma job_lifecycle_witness :
  exists j', find_job "a" (apply 3 (CCancel "a" 20) demo_table) = Some j' /\
    (j' = demo_a \/ exists now, j' = set_fetched now demo_a).
Proof.
  assert (Hj : demo_a ∈ demo_table) by (apply list_elem_of_lookup; exists 0%nat; vm_compute; reflexivity).
  destruct (job_lifecycle 3 demo_calls (CCancel "a" 20) demo_a Hj) as (j' & Hf & _ & Ht).
  exists j'. split; [exact Hf|]. destruct (Ht eq_refl) as [|(_ & _ & ?)]; [by left|by right].
Defined.

Lemma attempts_bounded_witness : 0 <= Attempts demo_a.
Proof.
  apply (attempts_bounded 3 demo_calls demo_a). apply list_elem_of_lookup. exists 0%nat.
  vm_compute; reflexivity.
Defined.

Lemma submit_idempotent_witness :
  exists j', Submit (demo_submission "a") 40 (run 3 [CClaimNext 30] (Submit (demo_submission "a") 10 []).2)
    = (Ok (j', false), run 3 [CClaimNext 30] (Submit (demo_submission "a") 10 []).2) /\ ID j' = "a".
Proof.
  exact (submit_idempotent 3 [] (demo_submission "a") 10 (new_row (demo_submission "a") 1 10) true
    [CClaimNext 30] (demo_submission "a") 40 eq_refl eq_refl ltac:(by repeat constructor)).
Defined.

(** Two jobs that were running at a crash come back in the reverse of their
    creation order. *)
Example recover_order_example :
  let t := run 3 [CSubmit (Submission "a" "ka" "" "" "m" "" "" (Some 1)) 1;
                  CSubmit (Submission "b" "kb" "" "" "m" "" "" (Some 2)) 2;
                  CClaimNext 3; CClaimNext 4; CRecoverRunning 5] [] in
  ID <$> line t = ["b"; "a"].
Proof. vm_compute. reflexivity. Qed.

End JobStore.
