(* ===== verification/Sql.v ===== *)
(** * The SQL of the job store (src/internal/job/sqlite.go)

    [JobStore] models each method of the store as a function on a list of jobs.
    This file models what the code really sends to the database: the schema, the
    statements as terms over the columns, with their parameters in place, and the
    way [scanRow] reads a row back.  A small semantics gives the statements
    SQLite's meaning: comparisons with NULL are unknown and a row is only selected
    by a condition that is true, a SET clause reads the row and the table as they
    were before the statement, MIN and MAX of nothing are NULL, and a statement
    that violates a constraint fails without effect.

    Proved: the encoding of a job as a row reads back, and every method over the
    statements does on the encoded table what the method of [JobStore] does on the
    table of jobs, so that all that is proved there holds of the SQL. *)

From S2P Require Import Prelude JobStore.
From stdpp Require Import sorting.
#[local] Set Warnings "-clear-no-such-hyp,-level-tolerance".
Local Open Scope Z_scope.

Module Sql.
Import JobStore.

(** ** Values, rows and the schema *)

Inductive value := VNull | VInt (n : Z) | VText (s : string).

#[global] Instance value_eq_dec : EqDecision value.
Proof. solve_decision. Defined.

Record column := Column { c_name : string; unique : bool; not_null : bool; default_ : value }.

Definition schema : list column :=
  [Column "id" true false VNull;
   Column "idempotency_key" true true VNull;
   Column "source" false true (VText "");
   Column "owner" false true (VText "");
   Column "state" false true VNull;
   Column "attempts" false true (VInt 0);
   Column "model" false true VNull;
   Column "params_json" false true (VText "");
   Column "prompt" false true (VText "");
   Column "result" false true (VText "");
   Column "error" false true (VText "");
   Column "position_hint" false true (VInt 0);
   Column "created_at" false true VNull;
   Column "started_at" false false VNull;
   Column "finished_at" false false VNull;
   Column "fetched_at" false false VNull].

(** A row has one value for each column of the schema, in its order. *)
Abbreviation row := (list value).
Abbreviation db := (list row).

Fixpoint get_in (cols : list column) (c : string) (r : row) : value :=
  match cols, r with
  | col :: cols', v :: r' => if String.eqb c (c_name col) then v else get_in cols' c r'
  | _, _ => VNull
  end.

Fixpoint set_in (cols : list column) (c : string) (v : value) (r : row) : row :=
  match cols, r with
  | col :: cols', x :: r' => if String.eqb c (c_name col) then v :: r' else x :: set_in cols' c v r'
  | _, _ => r
  end.

Definition get (c : string) (r : row) : value := get_in schema c r.
Definition set (c : string) (v : value) (r : row) : row := set_in schema c v r.

(** ** Expressions and conditions *)

Inductive agg := AMin | AMax.

Inductive expr :=
| Col (c : string)
| Lit (v : value)
| Plus (e : expr) (n : Z)
| Coalesce (e : expr) (v : value)
| Select (f : agg) (c : string) (w : cond)
with cond :=
| CTrue
| CEq (a b : expr)
| CLt (a b : expr)
| CIsNull (e : expr)
| CIsNotNull (e : expr)
| CAnd (a b : cond)
| COr (a b : cond).

Abbreviation int n := (Lit (VInt n)).
Abbreviation text s := (Lit (VText s)).

(** [e IN (vs)] *)
Definition CIn (e : expr) (vs : list value) : cond :=
  match vs with [] => CEq (int 0) (int 1) | v :: vs => foldl (fun c v => COr c (CEq e (Lit v))) (CEq e (Lit v)) vs end.

(** NULL before the integers before the texts, in their byte order. *)
Definition value_compare (a b : value) : comparison :=
  match a, b with
  | VNull, VNull => Eq | VNull, _ => Lt | _, VNull => Gt
  | VInt m, VInt n => Z.compare m n | VInt _, VText _ => Lt | VText _, VInt _ => Gt
  | VText s, VText t => String.compare s t
  end.

Definition compare_with (p : comparison -> bool) (a b : value) : option bool :=
  match a, b with VNull, _ | _, VNull => None | _, _ => Some (p (value_compare a b)) end.

Definition is_eq (c : comparison) : bool := match c with Eq => true | _ => false end.
Definition is_lt (c : comparison) : bool := match c with Lt => true | _ => false end.

Definition and3 (a b : option bool) : option bool :=
  match a, b with
  | Some false, _ | _, Some false => Some false
  | Some true, Some true => Some true
  | _, _ => None
  end.

Definition or3 (a b : option bool) : option bool :=
  match a, b with
  | Some true, _ | _, Some true => Some true
  | Some false, Some false => Some false
  | _, _ => None
  end.

Definition as_int (v : value) : option Z := match v with VInt n => Some n | _ => None end.

(** MIN and MAX of the integers of a column; NULLs do not count. *)
Definition aggregate (f : agg) (ns : list Z) : value :=
  match ns with
  | [] => VNull
  | n :: ns => VInt (foldr (match f with AMin => Z.min | AMax => Z.max end) n ns)
  end.

Definition add (v : value) (n : Z) : value := match v with VInt m => VInt (m + n) | _ => VNull end.

Definition is_true (b : option bool) : bool := match b with Some true => true | _ => false end.

(** The value of an expression on a row of the table [d]. *)
Fixpoint eval (d : db) (r : row) (e : expr) : value :=
  match e with
  | Col c => get c r
  | Lit v => v
  | Plus e n => add (eval d r e) n
  | Coalesce e v => match eval d r e with VNull => v | x => x end
  | Select f c w => aggregate f (omap (fun x => if is_true (test d x w) then as_int (get c x) else None) d)
  end
with test (d : db) (r : row) (c : cond) : option bool :=
  match c with
  | CTrue => Some true
  | CEq a b => compare_with is_eq (eval d r a) (eval d r b)
  | CLt a b => compare_with is_lt (eval d r a) (eval d r b)
  | CIsNull e => Some (match eval d r e with VNull => true | _ => false end)
  | CIsNotNull e => Some (match eval d r e with VNull => false | _ => true end)
  | CAnd a b => and3 (test d r a) (test d r b)
  | COr a b => or3 (test d r a) (test d r b)
  end.

(** ** Statements *)

(** The rows a condition selects. *)
Definition selected (d : db) (w : cond) : list row := filter (fun r => is_true (test d r w) = true) d.

Inductive dir := ASC | DESC.

Fixpoint order_leb (o : list (string * dir)) (a b : row) : bool :=
  match o with
  | [] => true
  | (c, d) :: o' =>
      match (match d with ASC => value_compare (get c a) (get c b) | DESC => value_compare (get c b) (get c a) end) with
      | Lt => true
      | Gt => false
      | Eq => order_leb o' a b
      end
  end.

Definition order_le (o : list (string * dir)) (a b : row) : Prop := order_leb o a b = true.
#[global] Instance order_le_dec o : RelDecision (order_le o).
Proof. intros a b. unfold order_le. apply _. Defined.

(** [SELECT names FROM jobs WHERE w ORDER BY o LIMIT n] *)
Definition query (names : list string) (w : cond) (o : list (string * dir)) (n : option Z) (d : db) : list (list value) :=
  let rows := selected d w in
  let rows := match o with [] => rows | _ => merge_sort (order_le o) rows end in
  map (fun r => map (fun c => get c r) names) (match n with Some n => take (Z.to_nat n) rows | None => rows end).

(** [SELECT COUNT( * ) FROM jobs WHERE w] *)
Definition count (w : cond) (d : db) : nat := length (selected d w).

Definition tally (vs : list value) (v : value) : nat := length (filter (eq v) vs).

(** [SELECT c, COUNT( * ) FROM jobs GROUP BY c] *)
Definition group_count (c : string) (d : db) : list (value * nat) :=
  let vs := map (get c) d in
  map (fun v => (v, tally vs v)) (remove_dups vs).

Definition not_null_ok (r : row) : bool :=
  forallb (fun col => negb (not_null col) || match get (c_name col) r with VNull => false | _ => true end) schema.

(** No two rows with one value, NULLs apart. *)
Definition unique_ok (c : string) (d : db) : bool :=
  bool_decide (NoDup (filter (fun v => v <> VNull) (map (get c) d))).

Definition insert_row (vals : list (string * value)) : row :=
  map (fun col => default (default_ col) ((fun p => p.2.2) <$> list_find (fun kv => kv.1 = c_name col) vals)) schema.

(** [INSERT INTO jobs (...) VALUES (...)] *)
Definition exec_insert (vals : list (string * value)) (d : db) : option db :=
  let d' := d ++ [insert_row vals] in
  if not_null_ok (insert_row vals) && forallb (fun col => negb (unique col) || unique_ok (c_name col) d') schema
  then Some d' else None.

(** The row after the SET clauses, which read the row as it was. *)
Definition assign (d : db) (sets : list (string * expr)) (r : row) : row :=
  foldl (fun r' '(c, e) => set c (eval d r e) r') r sets.

(** [UPDATE jobs SET sets WHERE w], with the number of rows it touches. *)
Definition exec_update (sets : list (string * expr)) (w : cond) (d : db) : option (nat * db) :=
  let d' := map (fun r => if is_true (test d r w) then assign d sets r else r) d in
  if forallb not_null_ok d' &&
     forallb (fun col => negb (unique col) || negb (bool_decide (c_name col ∈ map fst sets)) || unique_ok (c_name col) d') schema
  then Some (count w d, d') else None.

(** [DELETE FROM jobs WHERE w] *)
Definition exec_delete (w : cond) (d : db) : nat * db :=
  (count w d, filter (fun r => is_true (test d r w) = false) d).

(** ** Reading a row *)

Definition selectCols : list string :=
  ["id"; "idempotency_key"; "source"; "owner"; "state"; "attempts"; "model"; "params_json"; "prompt"; "result";
   "error"; "position_hint"; "created_at"; "started_at"; "finished_at"; "fetched_at"].

Definition State_of (s : string) : option State :=
  find (fun st => String.eqb (State_String st) s) [StateQueued; StateRunning; StateSucceeded; StateFailed; StateCanceled].

(** A [NullInt64] and [nanoPtr]; a text is an error of [Scan]. *)
Definition nanoPtr (v : value) : option (option Z) :=
  match v with VNull => Some None | VInt n => Some (Some n) | VText _ => None end.

(** [Scan] fails when a value does not have its destination's type; a state
    that is none of the five has no [Job] here and counts as such a failure. *)
Definition scanRow (vals : list value) : result err Job :=
  match vals with
  | [VText id; VText key; VText source; VText owner; VText state; VInt attempts; VText model; VText params;
     VText prompt; VText result; VText error; VInt hint; VInt created; started; finished; fetched] =>
      match State_of state, nanoPtr started, nanoPtr finished, nanoPtr fetched with
      | Some st, Some s, Some f, Some x =>
          Ok (MkJob id key source owner st attempts model params prompt result error hint created s f x)
      | _, _, _, _ => Err ErrSQL
      end
  | _ => Err ErrSQL
  end.

Definition scanOne (rows : list (list value)) : result err Job :=
  match rows with [] => Err ErrNotFound | r :: _ => scanRow r end.

Fixpoint scanAll (rows : list (list value)) : result err (list Job) :=
  match rows with
  | [] => Ok []
  | r :: rows => match scanRow r with
                 | Err e => Err e
                 | Ok j => match scanAll rows with Err e => Err e | Ok js => Ok (j :: js) end
                 end
  end.

(** ** The methods *)

Definition st (s : State) : expr := Lit (VText (State_String s)).
Definition in_state (s : State) : cond := CEq (Col "state") (st s).
Definition has_id (id : string) : cond := CEq (Col "id") (text id).

(** [COALESCE(MAX(position_hint), 0) + 1], [COALESCE(MIN(position_hint), 0) - 1] *)
Definition next_hint : expr := Plus (Coalesce (Select AMax "position_hint" CTrue) (VInt 0)) 1.
Definition first_hint : expr := Plus (Coalesce (Select AMin "position_hint" (in_state StateQueued)) (VInt 0)) (-1).

Definition insert_of (j : Job) : list (string * value) :=
  [("id", VText (ID j)); ("idempotency_key", VText (IdempotencyKey j)); ("source", VText (Source j));
   ("owner", VText (Owner j)); ("state", VText (State_String (JobState j))); ("attempts", VInt (Attempts j));
   ("model", VText (Model j)); ("params_json", VText (ParamsJSON j)); ("prompt", VText (Prompt j));
   ("result", VText ""); ("error", VText ""); ("position_hint", VInt (PositionHint j)); ("created_at", VInt (CreatedAt j))].

Definition Submit (s : submission) (now : Z) (d : db) : result err (Job * bool) * db :=
  match scanOne (query selectCols (CEq (Col "idempotency_key") (text (s_key s))) [] None d) with
  | Ok existing => (Ok (existing, false), d)
  | Err ErrNotFound =>
      match eval d [] next_hint with
      | VInt nextHint =>
          let j := new_row s nextHint now in
          match exec_insert (insert_of j) d with
          | Some d' => (Ok (j, true), d')
          | None => (Err ErrSQL, d)
          end
      | _ => (Err ErrSQL, d)
      end
  | Err e => (Err e, d)
  end.

Definition Get (id : string) (d : db) : result err Job := scanOne (query selectCols (has_id id) [] None d).

Definition list_cond (f : Filter) : cond :=
  let w := CEq (int 1) (int 1) in
  let w := if negb (String.eqb (f_Source f) "") then CAnd w (CEq (Col "source") (text (f_Source f))) else w in
  let w := if negb (String.eqb (f_Owner f) "") then CAnd w (CEq (Col "owner") (text (f_Owner f))) else w in
  if negb (String.eqb (f_State f) "") then CAnd w (CEq (Col "state") (text (f_State f))) else w.

Definition List_ (f : Filter) (d : db) : result err (list Job) :=
  let limit := if (f_Limit f <=? 0) || (1000 <? f_Limit f) then 200 else f_Limit f in
  scanAll (query selectCols (list_cond f) [("created_at", DESC)] (Some limit) d).

(** [SELECT EXISTS(SELECT 1 FROM jobs WHERE state = ?)] *)
Definition HasQueued (d : db) : bool :=
  match selected d (in_state StateQueued) with [] => false | _ => true end.

Definition ClaimNext (now : Z) (d : db) : result err Job * db :=
  match scanOne (query selectCols (in_state StateQueued) [("position_hint", ASC); ("created_at", ASC)] (Some 1) d) with
  | Err e => (Err e, d)
  | Ok j =>
      match exec_update [("state", st StateRunning); ("started_at", int now); ("error", text "")]
              (CAnd (has_id (ID j)) (in_state StateQueued)) d with
      | Some (_, d') => (Ok (set_running now j), d')
      | None => (Err ErrSQL, d)
      end
  end.

Definition mustAffect (r : option (nat * db)) (d : db) : result err unit * db :=
  match r with
  | None => (Err ErrSQL, d)
  | Some (n, d') => (if (n =? 0)%nat then Err ErrNotFound else Ok tt, d')
  end.

Definition Succeed (id res : string) (now : Z) (d : db) : result err unit * db :=
  mustAffect (exec_update [("state", st StateSucceeded); ("result", text res); ("finished_at", int now); ("error", text "")]
                (CAnd (has_id id) (in_state StateRunning)) d) d.

Definition Preempt (id : string) (d : db) : result err unit * db :=
  mustAffect (exec_update [("state", st StateQueued); ("started_at", Lit VNull); ("position_hint", first_hint)]
                (CAnd (has_id id) (in_state StateRunning)) d) d.

Definition fail_row (id : string) (attempts : Z) (msg : string) (now : Z) (d : db) : option (nat * db) :=
  exec_update [("state", st StateFailed); ("attempts", int attempts); ("error", text msg); ("finished_at", int now)]
    (has_id id) d.

Definition FailOrRetry (id msg : string) (maxAttempts now : Z) (d : db) : result err bool * db :=
  match query ["attempts"; "state"] (has_id id) [] None d with
  | [] => (Err ErrNotFound, d)
  | [VInt attempts; VText state] :: _ =>
      if negb (String.eqb state (State_String StateRunning)) then (Err ErrAlreadyTerminal, d)
      else
        let attempts := attempts + 1 in
        if maxAttempts <=? attempts then
          match fail_row id attempts msg now d with Some (_, d') => (Ok true, d') | None => (Err ErrSQL, d) end
        else
          match exec_update [("state", st StateQueued); ("attempts", int attempts); ("error", text msg);
                             ("started_at", Lit VNull); ("position_hint", first_hint)] (has_id id) d with
          | Some (_, d') => (Ok false, d')
          | None => (Err ErrSQL, d)
          end
  | _ => (Err ErrSQL, d)
  end.

(** The loop of [RecoverRunning] over the rows it has read. *)
Fixpoint recover_rows (maxAttempts now : Z) (recs : list (list value)) (d : db) : option db :=
  match recs with
  | [] => Some d
  | [VText id; VInt attempts] :: recs =>
      let attempts := attempts + 1 in
      let r := if maxAttempts <=? attempts then fail_row id attempts "exceeded attempts after restart" now d
               else exec_update [("state", st StateQueued); ("attempts", int attempts); ("started_at", Lit VNull);
                                 ("position_hint", first_hint)] (has_id id) d in
      match r with Some (_, d') => recover_rows maxAttempts now recs d' | None => None end
  | _ => None
  end.

Definition RecoverRunning (maxAttempts now : Z) (d : db) : result err nat * db :=
  let recs := query ["id"; "attempts"] (in_state StateRunning) [("created_at", ASC)] None d in
  match recover_rows maxAttempts now recs d with
  | Some d' => (Ok (length recs), d')
  | None => (Err ErrSQL, d)
  end.

Definition Cancel (id : string) (now : Z) (d : db) : result err Job * db :=
  match Get id d with
  | Err e => (Err e, d)
  | Ok j =>
      if Terminal (JobState j) then (Ok j, d)
      else match exec_update [("state", st StateCanceled); ("finished_at", int now)] (has_id id) d with
           | Some (_, d') => (Ok (set_canceled now j), d')
           | None => (Err ErrSQL, d)
           end
  end.

Definition Position (id : string) (d : db) : result err nat :=
  match Get id d with
  | Err e => Err e
  | Ok j =>
      if negb (is_state StateQueued j) then Ok 0%nat
      else Ok (S (count (CAnd (in_state StateQueued)
                           (COr (CLt (Col "position_hint") (int (PositionHint j)))
                                (CAnd (CEq (Col "position_hint") (int (PositionHint j)))
                                      (CLt (Col "created_at") (int (CreatedAt j)))))) d))
  end.

Definition StampFetched (id : string) (now : Z) (d : db) : result err unit * db :=
  match exec_update [("fetched_at", int now)]
          (CAnd (CAnd (has_id id) (in_state StateSucceeded)) (CIsNull (Col "fetched_at"))) d with
  | Some (_, d') => (Ok tt, d')
  | None => (Err ErrSQL, d)
  end.

Definition prune_cond (fetchedGrace hardCap now : Z) : cond :=
  COr (CAnd (CAnd (in_state StateSucceeded) (CIsNotNull (Col "fetched_at")))
            (CLt (Col "fetched_at") (int (now - fetchedGrace))))
      (CAnd (CAnd (CIn (Col "state") (map (fun s => VText (State_String s)) [StateSucceeded; StateFailed; StateCanceled]))
                  (CIsNotNull (Col "finished_at")))
            (CLt (Col "finished_at") (int (now - hardCap)))).

Definition Prune (fetchedGrace hardCap now : Z) (d : db) : nat * db := exec_delete (prune_cond fetchedGrace hardCap now) d.

Definition count_group (c : Counts_t) (g : value * nat) : Counts_t :=
  match g.1 with
  | VText s =>
      match State_of s with
      | Some StateQueued => MkCounts g.2 (Running c) (Succeeded c) (Failed c) (Canceled c)
      | Some StateRunning => MkCounts (Queued c) g.2 (Succeeded c) (Failed c) (Canceled c)
      | Some StateSucceeded => MkCounts (Queued c) (Running c) g.2 (Failed c) (Canceled c)
      | Some StateFailed => MkCounts (Queued c) (Running c) (Succeeded c) g.2 (Canceled c)
      | Some StateCanceled => MkCounts (Queued c) (Running c) (Succeeded c) (Failed c) g.2
      | None => c
      end
  | _ => c
  end.

Definition Counts (d : db) : Counts_t := foldl count_group (MkCounts 0 0 0 0 0) (group_count "state" d).

(** A call of the store, as in [JobStore.apply]. *)
Definition apply (maxAttempts : Z) (c : call) (d : db) : db :=
  match c with
  | CSubmit s now => (Submit s now d).2
  | CClaimNext now => (ClaimNext now d).2
  | CSucceed id r now => (Succeed id r now d).2
  | CPreempt id => (Preempt id d).2
  | CFailOrRetry id msg now => (FailOrRetry id msg maxAttempts now d).2
  | CRecoverRunning now => (RecoverRunning maxAttempts now d).2
  | CCancel id now => (Cancel id now d).2
  | CStampFetched id now => (StampFetched id now d).2
  | CPrune g h now => (Prune g h now d).2
  | CFault => d
  end.

Definition run (maxAttempts : Z) (cs : list call) (d : db) : db := foldl (fun d c => apply maxAttempts c d) d cs.

(** ** The encoding *)

Definition nano (o : option Z) : value := match o with Some n => VInt n | None => VNull end.

Definition row_of (j : Job) : row :=
  [VText (ID j); VText (IdempotencyKey j); VText (Source j); VText (Owner j); VText (State_String (JobState j));
   VInt (Attempts j); VText (Model j); VText (ParamsJSON j); VText (Prompt j); VText (Result j); VText (Error j);
   VInt (PositionHint j); VInt (CreatedAt j); nano (StartedAt j); nano (FinishedAt j); nano (FetchedAt j)].

Definition encode (t : table) : db := map row_of t.

Lemma State_of_String s : State_of (State_String s) = Some s.
Proof. by destruct s. Qed.

Lemma nanoPtr_nano o : nanoPtr (nano o) = Some o.
Proof. by destruct o. Qed.

Lemma scan_row_of j : scanRow (map (fun c => get c (row_of j)) selectCols) = Ok j.
Proof. change (map _ selectCols) with (row_of j). unfold row_of, scanRow. by rewrite State_of_String, !nanoPtr_nano; destruct j. Qed.

Lemma scanAll_encode t : scanAll (map (fun r => map (fun c => get c r) selectCols) (encode t)) = Ok t.
Proof. induction t as [|j t IH]; [done|]. cbn [encode map scanAll]. fold (encode t). by rewrite scan_row_of, IH. Qed.

(** *** Conditions on encoded rows *)

Lemma compare_eqb a b : is_eq (String.compare a b) = bool_decide (a = b).
Proof.
  case_bool_decide as H.
  - subst. unfold is_eq. destruct (String.compare b b) eqn:E; try done; pose proof (String.compare_antisym b b) as H;
      by rewrite E in H.
  - destruct (String.compare a b) eqn:E; try done. by apply String.compare_eq_iff in E.
Qed.

Lemma eq_text a b : compare_with is_eq (VText a) (VText b) = Some (bool_decide (a = b)).
Proof. simpl. by rewrite compare_eqb. Qed.

Lemma eq_int a b : compare_with is_eq (VInt a) (VInt b) = Some (a =? b).
Proof. simpl. by rewrite Z.eqb_compare. Qed.

Lemma lt_int a b : compare_with is_lt (VInt a) (VInt b) = Some (a <? b).
Proof. done. Qed.

Lemma State_String_inj s s' : bool_decide (State_String s = State_String s') = bool_decide (s = s').
Proof. by destruct s, s'. Qed.

Lemma and3_Some a b : and3 (Some a) (Some b) = Some (a && b).
Proof. by destruct a, b. Qed.
Lemma or3_Some a b : or3 (Some a) (Some b) = Some (a || b).
Proof. by destruct a, b. Qed.

Lemma test_id d j id : test d (row_of j) (has_id id) = Some (by_id id j).
Proof. apply eq_text. Qed.

Lemma test_state d j s : test d (row_of j) (in_state s) = Some (is_state s j).
Proof. etrans; [apply eq_text|]. unfold is_state. by rewrite State_String_inj. Qed.

Lemma test_and d r a b x y : test d r a = Some x -> test d r b = Some y -> test d r (CAnd a b) = Some (x && y).
Proof. intros Ha Hb. simpl. rewrite Ha, Hb. apply and3_Some. Qed.

Lemma test_or d r a b x y : test d r a = Some x -> test d r b = Some y -> test d r (COr a b) = Some (x || y).
Proof. intros Ha Hb. simpl. rewrite Ha, Hb. apply or3_Some. Qed.

(** A condition says [p] of the jobs of a table. *)
Definition says (d : db) (w : cond) (p : Job -> bool) : Prop := forall j, is_true (test d (row_of j) w) = p j.

Lemma says_Some d w p : (forall j, test d (row_of j) w = Some (p j)) -> says d w p.
Proof. intros H j. rewrite H. by destruct (p j). Qed.

Lemma says_id d id : says d (has_id id) (by_id id).
Proof. apply says_Some. intros j. apply test_id. Qed.

Lemma says_state d s : says d (in_state s) (is_state s).
Proof. apply says_Some. intros j. apply test_state. Qed.

Lemma says_both d id s : says d (CAnd (has_id id) (in_state s)) (fun j => by_id id j && is_state s j).
Proof. apply says_Some. intros j. apply test_and; [apply test_id|apply test_state]. Qed.

#[local] Hint Resolve says_id says_state says_both : core.

Lemma selected_encode d t w p : says d w p -> filter (fun r => is_true (test d r w) = true) (encode t) = encode (where_ p t).
Proof.
  intros H. unfold encode, where_. induction t as [|j t IH]; [done|]. cbn [map]. rewrite !filter_cons, (H j), IH.
  by destruct (p j).
Qed.

Lemma deleted_encode d t w p : says d w p ->
  filter (fun r => is_true (test d r w) = false) (encode t) = encode (where_ (fun j => negb (p j)) t).
Proof.
  intros H. unfold encode, where_. induction t as [|j t IH]; [done|]. cbn [map]. rewrite !filter_cons, (H j), IH.
  by destruct (p j).
Qed.

(** *** Sorting an encoded table *)

Section sort.
Context {A B} (f : A -> B) (R : relation A) (S : relation B) `{!RelDecision R, !RelDecision S}.
Context (Hf : forall a b, R a b <-> S (f a) (f b)).

Lemma list_merge_map l1 l2 : map f (list_merge R l1 l2) = list_merge S (map f l1) (map f l2).
Proof.
  revert l2. induction l1 as [|x l1 IH1]; intros l2; [by destruct l2|].
  induction l2 as [|y l2 IH2]; [done|]. simpl.
  destruct (decide (R x y)) as [H|H]; destruct (decide (S (f x) (f y))) as [H'|H']; rewrite Hf in H; try done; simpl.
  - by rewrite IH1.
  - f_equal. exact IH2.
Qed.

Lemma merge_stack_map st : map f (merge_stack R st) = merge_stack S (map (fmap (map f)) st).
Proof. induction st as [|[l|] st IH]; simpl; [done| |done]. by rewrite list_merge_map, IH. Qed.

Lemma merge_list_to_stack_map st l :
  map (fmap (map f)) (merge_list_to_stack R st l) = merge_list_to_stack S (map (fmap (map f)) st) (map f l).
Proof. revert l. induction st as [|[l'|] st IH]; intros l; simpl; [done| |done]. by rewrite IH, list_merge_map. Qed.

Lemma merge_sort_map l : map f (merge_sort R l) = merge_sort S (map f l).
Proof.
  unfold merge_sort. change (@nil (option (list B))) with (map (fmap (map f)) (@nil (option (list A)))) at 1.
  generalize (@nil (option (list A))). induction l as [|x l IH]; intros st; simpl; [apply merge_stack_map|].
  by rewrite IH, merge_list_to_stack_map.
Qed.

End sort.

Abbreviation project names := (map (fun j => map (fun c => get c (row_of j)) names)).

Lemma query_unordered names t w p : says (encode t) w p ->
  query names w [] None (encode t) = project names (where_ p t).
Proof.
  intros Hw. unfold query, selected. rewrite (selected_encode _ _ _ _ Hw). unfold encode. by rewrite List.map_map.
Qed.

Lemma query_ordered names t w p c o n (R : relation Job) `{!RelDecision R} : says (encode t) w p ->
  (forall a b, R a b <-> order_le (c :: o) (row_of a) (row_of b)) ->
  query names w (c :: o) n (encode t) = project names
    (match n with Some n => take (Z.to_nat n) (merge_sort R (where_ p t)) | None => merge_sort R (where_ p t) end).
Proof.
  intros Hw HR. unfold query, selected. rewrite (selected_encode _ _ _ _ Hw). unfold encode.
  rewrite <- (merge_sort_map row_of R (order_le (c :: o))) by done.
  destruct n; [|by rewrite List.map_map].
  change (map ?f (map ?g ?l)) with (f <$> (g <$> l)). by rewrite <- fmap_take, <- list_fmap_compose.
Qed.

Lemma queue_order a b : queue_le a b <-> order_le [("position_hint", ASC); ("created_at", ASC)] (row_of a) (row_of b).
Proof.
  unfold queue_le, order_le. cbn [order_leb]. change (get "position_hint" (row_of ?j)) with (VInt (PositionHint j)).
  change (get "created_at" (row_of ?j)) with (VInt (CreatedAt j)). cbn [value_compare].
  destruct (Z.compare_spec (PositionHint a) (PositionHint b)), (Z.compare_spec (CreatedAt a) (CreatedAt b)); split; try done; lia.
Qed.

Lemma created_order a b : created_le a b <-> order_le [("created_at", ASC)] (row_of a) (row_of b).
Proof.
  unfold created_le, order_le. cbn [order_leb]. change (get "created_at" (row_of ?j)) with (VInt (CreatedAt j)).
  cbn [value_compare]. destruct (Z.compare_spec (CreatedAt a) (CreatedAt b)); split; try done; lia.
Qed.

Lemma newest_order a b : created_ge a b <-> order_le [("created_at", DESC)] (row_of a) (row_of b).
Proof.
  unfold created_ge, order_le. cbn [order_leb]. change (get "created_at" (row_of ?j)) with (VInt (CreatedAt j)).
  cbn [value_compare]. destruct (Z.compare_spec (CreatedAt b) (CreatedAt a)); split; try done; lia.
Qed.

Lemma scanOne_project js : scanOne (project selectCols js) = JobStore.scanOne js.
Proof. destruct js as [|j js]; [done|]. cbn [map scanOne]. apply scan_row_of. Qed.

Lemma scanOne_take js n : 0 < n -> JobStore.scanOne (take (Z.to_nat n) js) = JobStore.scanOne js.
Proof. intros Hn. destruct (Z.to_nat n) eqn:E; [lia|]. by destruct js. Qed.

(** *** Updates of an encoded table *)

Lemma row_not_null j : not_null_ok (row_of j) = true.
Proof. done. Qed.

(** The assigned columns have no uniqueness constraint. *)
Definition not_unique (sets : list (string * expr)) : bool :=
  forallb (fun col => negb (unique col) || negb (bool_decide (c_name col ∈ map fst sets))) schema.

Lemma update_encode t sets w p f : says (encode t) w p -> not_unique sets = true ->
  (forall j, assign (encode t) sets (row_of j) = row_of (f j)) ->
  exec_update sets w (encode t) = Some (length (where_ p t), encode (update p f t)).
Proof.
  intros Hw Hu Hf. unfold exec_update, count, selected. rewrite (selected_encode _ _ _ _ Hw).
  set (d := encode t) in *.
  assert (map (fun r => if is_true (test d r w) then assign d sets r else r) d = encode (update p f t)) as ->.
  { unfold d at 3. unfold encode, update. rewrite !List.map_map. apply map_ext. intros j. rewrite Hw. destruct (p j); [apply Hf|done]. }
  assert (forallb not_null_ok (encode (update p f t)) = true) as ->.
  { apply forallb_forall. intros r (j & <- & _)%in_map_iff. apply row_not_null. }
  assert (forallb (fun col => negb (unique col) || negb (bool_decide (c_name col ∈ map fst sets))
    || unique_ok (c_name col) (encode (update p f t))) schema = true) as ->.
  { apply forallb_forall. intros col Hc. unfold not_unique in Hu. rewrite forallb_forall in Hu. by rewrite (Hu _ Hc). }
  cbn [andb]. unfold encode at 1. by rewrite length_map.
Qed.

(** The subqueries on the hints. *)
Lemma ints_encode d t w p : says d w p ->
  omap (fun x => if is_true (test d x w) then as_int (get "position_hint" x) else None) (encode t) =
  map PositionHint (where_ p t).
Proof.
  intros Hw. unfold where_. induction t as [|j t IH]; [done|].
  cbn [map encode omap list_omap]. rewrite filter_cons. fold (encode t). rewrite (Hw j).
  change (as_int (get "position_hint" (row_of j))) with (Some (PositionHint j)).
  rewrite IH. by destruct (p j).
Qed.

Lemma foldr_map_hint g (j : Job) t : foldr g (PositionHint j) (map PositionHint t) =
  foldr (fun j m => g (PositionHint j) m) (PositionHint j) t.
Proof. induction t as [|x t IH]; simpl; [done|]. by rewrite IH. Qed.

Lemma eval_next t r : eval (encode t) r next_hint = VInt (tail_hint t).
Proof.
  unfold next_hint. cbn [eval]. rewrite (ints_encode _ _ _ (fun _ => true)) by (by intros j).
  assert (where_ (fun _ => true) t = t) as -> by (unfold where_; induction t; [done|]; rewrite filter_cons_True by done; by f_equal).
  unfold tail_hint. destruct t as [|j t]; [done|]. cbn [map aggregate max_hint]. by rewrite foldr_map_hint.
Qed.

Lemma eval_first t r : eval (encode t) r first_hint = VInt (front_hint t).
Proof.
  unfold first_hint. cbn [eval]. rewrite (ints_encode _ _ _ (is_state StateQueued)) by apply says_state.
  unfold front_hint. destruct (where_ _ t) as [|j l]; [done|]. cbn [map aggregate min_hint]. by rewrite foldr_map_hint.
Qed.

(** *** The methods on an encoded table *)

(** A method's answer with the table it leaves. *)
Definition enc {A} (r : A * table) : A * db := (r.1, encode r.2).

Definition by_key (key : string) (j : Job) : bool := bool_decide (IdempotencyKey j = key).

Lemma says_key d key : says d (CEq (Col "idempotency_key") (text key)) (by_key key).
Proof. apply says_Some. intros j. apply eq_text. Qed.

Lemma assign_first t sets j : assign (encode t) (sets ++ [("position_hint", first_hint)]) (row_of j) =
  set "position_hint" (VInt (front_hint t)) (assign (encode t) sets (row_of j)).
Proof. unfold assign. rewrite foldl_app. cbn [foldl]. by rewrite eval_first. Qed.

(** The unique columns of an encoded table. *)
Lemma unique_ids t : unique_ok "id" (encode t) = bool_decide (NoDup (ID <$> t)).
Proof.
  unfold unique_ok, encode. rewrite List.map_map. apply bool_decide_ext.
  assert (filter (fun v => v <> VNull) (map (fun j => get "id" (row_of j)) t) = VText <$> (ID <$> t)) as ->.
  { induction t as [|j t IH]; [done|]. cbn [map]. rewrite filter_cons_True by done. by rewrite IH. }
  split; [apply NoDup_fmap_1|apply NoDup_fmap_2; by intros ?? [= ->]].
Qed.

Lemma unique_keys t : unique_ok "idempotency_key" (encode t) = bool_decide (NoDup (IdempotencyKey <$> t)).
Proof.
  unfold unique_ok, encode. rewrite List.map_map. apply bool_decide_ext.
  assert (filter (fun v => v <> VNull) (map (fun j => get "idempotency_key" (row_of j)) t) =
    VText <$> (IdempotencyKey <$> t)) as ->.
  { induction t as [|j t IH]; [done|]. cbn [map]. rewrite filter_cons_True by done. by rewrite IH. }
  split; [apply NoDup_fmap_1|apply NoDup_fmap_2; by intros ?? [= ->]].
Qed.

Lemma insert_row_of s h now : insert_row (insert_of (new_row s h now)) = row_of (new_row s h now).
Proof. reflexivity. Qed.

Lemma exec_insert_encode s h now t : let j := new_row s h now in
  exec_insert (insert_of j) (encode t) =
  if bool_decide (NoDup (ID <$> t ++ [j])) && bool_decide (NoDup (IdempotencyKey <$> t ++ [j]))
  then Some (encode (t ++ [j])) else None.
Proof.
  cbn zeta. unfold exec_insert. rewrite insert_row_of, row_not_null.
  replace (encode t ++ [row_of (new_row s h now)]) with (encode (t ++ [new_row s h now])) by apply List.map_app.
  rewrite <- unique_ids, <- unique_keys. generalize (encode (t ++ [new_row s h now])). intros d.
  cbn [schema forallb c_name unique negb orb andb]. by rewrite andb_true_r.
Qed.

Lemma Submit_encode s now t : wf t -> Submit s now (encode t) = enc (JobStore.Submit s now t).
Proof.
  intros Hw. unfold Submit, JobStore.Submit. rewrite (query_unordered _ _ _ _ (says_key _ _)), scanOne_project.
  change (fun j => bool_decide (IdempotencyKey j = s_key s)) with (by_key (s_key s)).
  destruct (where_ (by_key (s_key s)) t) as [|j l] eqn:Ek; [|done]. cbn [JobStore.scanOne].
  rewrite eval_next. cbn zeta match. rewrite exec_insert_encode.
  assert (NoDup (IdempotencyKey <$> t ++ [new_row s (tail_hint t) now])) as Hk.
  { rewrite fmap_app. apply NoDup_app. split; [apply Hw|]. split; [|apply NoDup_singleton].
    intros k (j & -> & Hj)%list_elem_of_fmap Hi%list_elem_of_singleton.
    assert (j ∈ where_ (by_key (s_key s)) t) as H; [|rewrite Ek in H; by apply elem_of_nil in H].
    apply elem_of_where. split; [by apply bool_decide_eq_true|done]. }
  rewrite (bool_decide_true _ Hk), andb_true_r.
  destruct (existsb (by_id (s_id s)) t) eqn:Ei.
  - rewrite bool_decide_false; [done|]. rewrite fmap_app. intros (_ & Hd & _)%NoDup_app.
    apply existsb_exists in Ei as (j & Hj%list_elem_of_In & Hi%by_id_true).
    apply (Hd (ID j)); [by apply list_elem_of_fmap_2|]. rewrite Hi. by left.
  - rewrite bool_decide_true; [done|]. rewrite fmap_app. apply NoDup_app. split; [apply Hw|].
    split; [|apply NoDup_singleton]. intros k (j & -> & Hj)%list_elem_of_fmap Hi%list_elem_of_singleton.
    assert (existsb (by_id (s_id s)) t = true); [|congruence]. apply existsb_exists. exists j.
    split; [by apply list_elem_of_In|by apply by_id_true].
Qed.

Lemma Get_encode id t : Get id (encode t) = JobStore.Get id t.
Proof. unfold Get, JobStore.Get. by rewrite (query_unordered _ _ _ _ (says_id _ _)), scanOne_project. Qed.

(** An optional conjunct of the WHERE clause. *)
Lemma test_optional d r (b : bool) w c x y : test d r w = Some x -> test d r c = Some y ->
  test d r (if negb b then CAnd w c else w) = Some (x && (b || y)).
Proof. intros Hw Hc. destruct b; simpl; [by rewrite andb_true_r|]. by apply (test_and d r w c). Qed.

Lemma test_col d j c v s : get c (row_of j) = VText v ->
  test d (row_of j) (CEq (Col c) (text s)) = Some (String.eqb v s).
Proof.
  intros Hc. cbn [test eval]. rewrite Hc. etrans; [apply eq_text|].
  f_equal. by destruct (String.eqb_spec v s); case_bool_decide.
Qed.

Lemma says_filter d f : says d (list_cond f) (filter_matches f).
Proof.
  apply says_Some. intros j. unfold list_cond, filter_matches.
  change (?a && ?b && ?c) with (true && a && b && c).
  repeat (apply test_optional; [|by apply test_col]). done.
Qed.

Lemma scanAll_project js : scanAll (project selectCols js) = Ok js.
Proof. rewrite <- (scanAll_encode js). unfold encode. by rewrite List.map_map. Qed.

Lemma List_encode f t : List_ f (encode t) = Ok (JobStore.List_ f t).
Proof.
  unfold List_, JobStore.List_. rewrite (query_ordered _ _ _ _ _ _ _ _ (says_filter _ f) newest_order). apply scanAll_project.
Qed.

Lemma HasQueued_encode t : HasQueued (encode t) = JobStore.HasQueued t.
Proof.
  unfold HasQueued, JobStore.HasQueued, selected. rewrite (selected_encode _ _ _ _ (says_state _ StateQueued)).
  unfold where_. induction t as [|j t IH]; [done|]. rewrite filter_cons. cbn [existsb].
  destruct (is_state StateQueued j); [done|]. exact IH.
Qed.

Lemma scanOne_some js j : JobStore.scanOne js = Ok j -> j ∈ js.
Proof. destruct js; [done|]. intros [= ->]. by left. Qed.

Lemma ClaimNext_encode now t : ClaimNext now (encode t) = enc (JobStore.ClaimNext now t).
Proof.
  unfold ClaimNext, JobStore.ClaimNext.
  rewrite (query_ordered _ _ _ _ _ _ _ _ (says_state _ StateQueued) queue_order), scanOne_project, scanOne_take by lia.
  fold (line t). destruct (JobStore.scanOne (line t)) as [j|e]; [|done].
  by rewrite (update_encode _ _ _ _ (set_running now) (says_both _ _ _)).
Qed.

Lemma mustAffect_encode t sets w p f : exec_update sets w (encode t) = Some (length (where_ p t), encode (update p f t)) ->
  mustAffect (exec_update sets w (encode t)) (encode t) = enc (JobStore.mustAffect p f t).
Proof.
  intros ->. unfold mustAffect, JobStore.mustAffect, enc. cbn [fst snd]. f_equal. unfold where_.
  induction t as [|j t IH]; [done|]. rewrite filter_cons. cbn [existsb]. by destruct (p j).
Qed.

Lemma Succeed_encode id res now t : Succeed id res now (encode t) = enc (JobStore.Succeed id res now t).
Proof. apply mustAffect_encode, update_encode; done || apply says_both. Qed.

Lemma Preempt_encode id t : Preempt id (encode t) = enc (JobStore.Preempt id t).
Proof.
  apply mustAffect_encode, update_encode; [apply says_both|done|]. intros j.
  by etrans; [apply (assign_first _ [_; _])|].
Qed.

Lemma fail_row_encode id attempts msg now t :
  fail_row id attempts msg now (encode t) =
  Some (length (where_ (by_id id) t), encode (update (by_id id) (set_failed attempts msg now) t)).
Proof. apply update_encode; done || apply says_id. Qed.

Lemma retry_encode id attempts msg t :
  exec_update [("state", st StateQueued); ("attempts", int attempts); ("error", text msg);
    ("started_at", Lit VNull); ("position_hint", first_hint)] (has_id id) (encode t) =
  Some (length (where_ (by_id id) t), encode (update (by_id id) (set_retried attempts msg (front_hint t)) t)).
Proof.
  apply update_encode; [apply says_id|done|]. intros j. by etrans; [apply (assign_first _ [_; _; _; _])|].
Qed.

Lemma FailOrRetry_encode id msg m now t :
  FailOrRetry id msg m now (encode t) = enc (JobStore.FailOrRetry id msg m now t).
Proof.
  unfold FailOrRetry, JobStore.FailOrRetry. rewrite (query_unordered _ _ _ _ (says_id _ _)).
  destruct (where_ (by_id id) t) as [|j l]; [done|]. cbn [map JobStore.scanOne].
  change (get "attempts" (row_of j)) with (VInt (Attempts j)).
  change (get "state" (row_of j)) with (VText (State_String (JobState j))). cbn match.
  assert (String.eqb (State_String (JobState j)) (State_String StateRunning) = is_state StateRunning j) as ->.
  { unfold is_state. by destruct (JobState j). }
  destruct (is_state StateRunning j); [|done]. cbn [negb]. cbn zeta.
  rewrite fail_row_encode, retry_encode. by destruct (m <=? Attempts j + 1).
Qed.

Lemma recover_rows_encode m now recs t :
  recover_rows m now (project ["id"; "attempts"] recs) (encode t) = Some (encode (foldl (recover_one m now) t recs)).
Proof.
  revert t. induction recs as [|r recs IH]; intros t; [done|]. cbn [map recover_rows foldl].
  change (get "id" (row_of r)) with (VText (ID r)). change (get "attempts" (row_of r)) with (VInt (Attempts r)).
  cbn match. cbn zeta. unfold recover_one at 2. rewrite fail_row_encode.
  rewrite (update_encode _ _ _ (by_id (ID r)) (fun j => set_retried (Attempts r + 1) (Error j) (front_hint t) j));
    [|apply says_id|done|intros j; by etrans; [apply (assign_first _ [_; _; _])|]].
  cbn zeta. destruct (m <=? Attempts r + 1); apply IH.
Qed.

Lemma RecoverRunning_encode m now t :
  RecoverRunning m now (encode t) = enc (Ok (JobStore.RecoverRunning m now t).1, (JobStore.RecoverRunning m now t).2).
Proof.
  unfold RecoverRunning, JobStore.RecoverRunning.
  rewrite (query_ordered _ _ _ _ _ _ _ _ (says_state _ StateRunning) created_order), recover_rows_encode.
  by rewrite length_map.
Qed.

Lemma Cancel_encode id now t : Cancel id now (encode t) = enc (JobStore.Cancel id now t).
Proof.
  unfold Cancel, JobStore.Cancel. rewrite Get_encode. destruct (JobStore.Get id t) as [j|e]; [|done].
  destruct (Terminal (JobState j)); [done|]. by rewrite (update_encode _ _ _ _ (set_canceled now) (says_id _ _)).
Qed.

Lemma count_encode d w p t : says (encode d) w p -> length (filter (fun r => is_true (test (encode d) r w) = true) (encode t)) = length (where_ p t).
Proof. intros Hw. rewrite (selected_encode _ _ _ _ Hw). apply length_map. Qed.

Lemma Position_encode id t : Position id (encode t) = JobStore.Position id t.
Proof.
  unfold Position, JobStore.Position. rewrite Get_encode. destruct (JobStore.Get id t) as [j|e]; [|done].
  destruct (is_state StateQueued j); [|done]. cbn [negb]. unfold count, selected.
  erewrite count_encode; [done|]. apply says_Some. intros r. apply test_and; [apply test_state|].
  apply test_or; [apply lt_int|]. apply test_and; [apply eq_int|apply lt_int].
Qed.

Lemma StampFetched_encode id now t : StampFetched id now (encode t) = enc (Ok tt, JobStore.StampFetched id now t).
Proof.
  unfold StampFetched, JobStore.StampFetched.
  rewrite (update_encode _ _ _ (fun r => by_id id r && is_state StateSucceeded r && bool_decide (FetchedAt r = None)) (set_fetched now)); try done.
  apply says_Some. intros j. apply test_and; [apply test_and; [apply test_id|apply test_state]|].
  cbn [test eval]. change (get "fetched_at" (row_of j)) with (nano (FetchedAt j)). by destruct (FetchedAt j).
Qed.

(** A time that is set and lies before a limit; NULL is before nothing. *)
Lemma test_before d j c w x o limit : get c (row_of j) = nano o -> test d (row_of j) w = Some x ->
  test d (row_of j) (CAnd (CAnd w (CIsNotNull (Col c))) (CLt (Col c) (int limit))) = Some (x && before o limit).
Proof.
  intros Hc Hw. cbn [test eval]. rewrite Hw, Hc. destruct o as [n|]; cbn [nano].
  - rewrite lt_int, !and3_Some. cbn [before]. by rewrite andb_true_r.
  - cbn [before compare_with]. by destruct x.
Qed.

Lemma says_prune d g h now : says d (prune_cond g h now) (prunable g h now).
Proof.
  apply says_Some. intros j. apply test_or; apply test_before; try done; [apply test_state|].
  cbn [map CIn foldl]. etrans; [apply test_or; [apply test_or|]; apply (test_state d j)|].
  unfold is_state. by destruct (JobState j).
Qed.

Lemma Prune_encode g h now t : Prune g h now (encode t) = enc (JobStore.Prune g h now t).
Proof.
  unfold Prune, exec_delete, count, selected. rewrite (deleted_encode _ _ _ _ (says_prune _ g h now)).
  by rewrite (count_encode _ _ _ _ (says_prune _ g h now)).
Qed.

(** *** Counts *)

Definition state_value (s : State) : value := VText (State_String s).

Definition field (s : State) (c : Counts_t) : nat :=
  match s with
  | StateQueued => Queued c | StateRunning => Running c | StateSucceeded => Succeeded c
  | StateFailed => Failed c | StateCanceled => Canceled c
  end.

Lemma count_group_field s s' n c : field s (count_group c (state_value s', n)) = if decide (s = s') then n else field s c.
Proof. by destruct s, s'. Qed.

Lemma state_value_inj s s' : state_value s = state_value s' -> s = s'.
Proof. by destruct s, s'. Qed.

Lemma count_groups_field s (n : value -> nat) ss c : NoDup ss ->
  field s (foldl count_group c (map (fun s => (state_value s, n (state_value s))) ss)) =
  if decide (s ∈ ss) then n (state_value s) else field s c.
Proof.
  revert c. induction ss as [|x ss IH]; intros c; [done|]. intros [Hx Hs]%NoDup_cons. cbn [map foldl].
  rewrite IH, count_group_field by done. repeat case_decide; subst; try done; set_solver.
Qed.

Lemma remove_dups_states ss : remove_dups (map state_value ss) = map state_value (remove_dups ss).
Proof.
  induction ss as [|s ss IH]; [done|]. cbn [map remove_dups]. rewrite IH. unfold decide_rel.
  destruct (list_elem_of_dec s ss) as [H|H], (list_elem_of_dec (state_value s) (map state_value ss)) as [H'|H']; try done.
  - destruct H'. by apply list_elem_of_fmap_2.
  - destruct H. by apply list_elem_of_fmap in H' as (x & ->%state_value_inj & Hx).
Qed.

Lemma count_state s t : tally (map state_value (map JobState t)) (state_value s) = length (where_ (is_state s) t).
Proof.
  unfold where_, tally. induction t as [|j t IH]; [done|]. cbn [map]. rewrite !filter_cons.
  destruct (is_state s j) eqn:Ej.
  - apply is_state_true in Ej as <-. case_decide as E; [|by destruct E]. cbn [length]. by rewrite IH.
  - apply is_state_false in Ej. case_decide as E; [by apply state_value_inj in E|]. exact IH.
Qed.

Lemma Counts_eq c c' : (forall s, field s c = field s c') -> c = c'.
Proof.
  intros H. destruct c, c'. pose proof (H StateQueued). pose proof (H StateRunning). pose proof (H StateSucceeded).
  pose proof (H StateFailed). pose proof (H StateCanceled). by simplify_eq/=.
Qed.

Lemma Counts_encode t : Counts (encode t) = JobStore.Counts t.
Proof.
  unfold Counts, group_count.
  assert (map (get "state") (encode t) = map state_value (map JobState t)) as ->.
  { unfold encode. by rewrite !List.map_map. }
  rewrite remove_dups_states, List.map_map.
  apply Counts_eq. intros s.
  rewrite (count_groups_field s (tally (map state_value (map JobState t)))) by apply NoDup_remove_dups.
  rewrite count_state. transitivity (length (where_ (is_state s) t)); [|by destruct s].
  case_decide as H; [done|]. rewrite elem_of_remove_dups in H. destruct (where_ (is_state s) t) as [|j l] eqn:E; [by destruct s|].
  destruct H. assert (j ∈ where_ (is_state s) t) as [Hs Hj]%elem_of_where by (rewrite E; by left).
  apply is_state_true in Hs as <-. by apply list_elem_of_fmap_2.
Qed.

(** *** Runs *)

Lemma apply_encode m c t : wf t -> apply m c (encode t) = encode (JobStore.apply m c t).
Proof.
  intros Hw. destruct c; cbn [apply JobStore.apply];
    rewrite ?Submit_encode, ?ClaimNext_encode, ?Succeed_encode, ?Preempt_encode, ?FailOrRetry_encode, ?RecoverRunning_encode,
      ?Cancel_encode, ?StampFetched_encode, ?Prune_encode by done; done.
Qed.

Lemma sql_run_snoc m cs c d : run m (cs ++ [c]) d = apply m c (run m cs d).
Proof. unfold run. by rewrite foldl_app. Qed.

(** ** Properties *)

(** C15: the SQL of the store does what its model says: after any run of calls
    from an empty database the rows are the encoding of the modelled table, and
    there every method, run as its statements, gives the model's answer and
    leaves the encoding of the model's next table. *)
Theorem sql_refines_store m cs :
  let t := JobStore.run m cs [] in let d := run m cs [] in
  d = encode t /\
  (forall s now, Submit s now d = enc (JobStore.Submit s now t)) /\
  (forall id, Get id d = JobStore.Get id t) /\
  (forall f, List_ f d = Ok (JobStore.List_ f t)) /\
  HasQueued d = JobStore.HasQueued t /\
  (forall now, ClaimNext now d = enc (JobStore.ClaimNext now t)) /\
  (forall id res now, Succeed id res now d = enc (JobStore.Succeed id res now t)) /\
  (forall id, Preempt id d = enc (JobStore.Preempt id t)) /\
  (forall id msg now, FailOrRetry id msg m now d = enc (JobStore.FailOrRetry id msg m now t)) /\
  (forall now, RecoverRunning m now d = (Ok (JobStore.RecoverRunning m now t).1, encode (JobStore.RecoverRunning m now t).2)) /\
  (forall id now, Cancel id now d = enc (JobStore.Cancel id now t)) /\
  (forall id, Position id d = JobStore.Position id t) /\
  (forall id now, StampFetched id now d = (Ok tt, encode (JobStore.StampFetched id now t))) /\
  (forall g h now, Prune g h now d = enc (JobStore.Prune g h now t)) /\
  Counts d = JobStore.Counts t.
Proof.
  cbn zeta. assert (run m cs [] = encode (JobStore.run m cs [])) as ->.
  { induction cs as [|c cs IH] using rev_ind; [done|]. rewrite sql_run_snoc, IH, apply_encode by apply run_wf.
    unfold JobStore.run. by rewrite foldl_app. }
  pose proof (run_wf m cs) as Hw. repeat split; intros;
    auto using Submit_encode, Get_encode, List_encode, HasQueued_encode, ClaimNext_encode, Succeed_encode, Preempt_encode,
      FailOrRetry_encode, RecoverRunning_encode, Cancel_encode, Position_encode, StampFetched_encode, Prune_encode, Counts_encode.
Qed.

(** A job survives the database: what [Submit] inserts is the job's row, a
    row that is read with the columns of [selectCols] gives back the very job it
    was written from, NULL times included, and different jobs have different
    rows. *)
Theorem job_row_round_trip j :
  scanRow (map (fun c => get c (row_of j)) selectCols) = Ok j /\
  (forall s h now, insert_row (insert_of (new_row s h now)) = row_of (new_row s h now)) /\
  Inj (=) (=) row_of.
Proof.
  split; [apply scan_row_of|]. split; [apply insert_row_of|].
  intros x y E. pose proof (scan_row_of x) as H. rewrite E, scan_row_of in H. by injection H.
Qed.

(** A NULL time is before no limit: a succeeded job nobody has fetched is only
    pruned by the hard cap. *)
Example unfetched_stays :
  let d := run 3 [CSubmit (Submission "a" "k" "" "" "m" "" "p" None) 1; CClaimNext 2; CSucceed "a" "r" 3] [] in
  Prune 0 100 50 d = (0%nat, d) /\ (Prune 0 10 50 d).1 = 1%nat.
Proof. by vm_compute. Qed.

End Sql.
