(* ===== verification/JobService.v ===== *)
(** * The job service, its event bus and its handlers
    (src/internal/job/events.go, service.go, api.go)

    [bus] is the per-job fan-out; the service functions work on [service], the
    table of [JobStore] with the bus, the run states and the metrics log.  A call of
    the store may fail ([faults]); what [Submit] and [Cancel] do after their
    transaction, outside any lock, is a [client_call] with steps of its own, run
    to its end here and interleaved in [Worker].  The HTTP handlers are functions to a response; [Api] puts them behind the mux and
    [Worker] lets them run beside the worker and the event streams. *)

From S2P Require Import Prelude.
From S2P Require Import GoLib.
From S2P Require Import JobStore.
#[local] Set Warnings "-clear-no-such-hyp,-level-tolerance".
Local Open Scope Z_scope.

Module JobService.

Import GoLib.
Import JobStore.

(** ** The event bus (events.go) *)

Inductive EventType := EventState | EventProgress | EventPosition | EventDone.

Record Progress := MkProgress { Tokens : Z; ElapsedMs : Z }.

Record Event := MkEvent {
  Type_ : EventType;
  EvState : option State;
  EvPosition : nat;
  EvProgress : option Progress;
}.

Record chan := Chan { buf : list Event; closed : bool }.

(** [subs] maps a job to its subscriber numbers; a subscriber's channel is in
    [chans] under its number, also after it was closed. *)
Record bus := Bus { subs : gmap string (list nat); chans : gmap nat chan; next : nat }.

Definition newBus : bus := {| subs := ∅; chans := ∅; next := 0 |}.

Definition subscribers (id : string) (b : bus) : list nat := default [] (subs b !! id).

Definition subscribe (id : string) (b : bus) : nat * bus :=
  let sub := S (next b) in
  (sub, {| subs := <[id := sub :: subscribers id b]> (subs b);
           chans := <[sub := Chan [] false]> (chans b);
           next := sub |}).

(** Closing a closed channel panics. *)
Definition unsubscribe (id : string) (sub : nat) (b : bus) : outcome bus :=
  match subs b !! id with
  | None => Next b
  | Some m =>
      if decide (sub ∈ m) then
        match chans b !! sub with
        | Some (Chan q false) =>
            let m' := filter (fun k => k <> sub) m in
            Next {| subs := match m' with [] => delete id (subs b) | _ => <[id := m']> (subs b) end;
                    chans := <[sub := Chan q true]> (chans b);
                    next := next b |}
        | _ => Panic
        end
      else Next b
  end.

Definition capacity : nat := 16.

(** The non-blocking send; sending on a closed channel panics. *)
Definition send (ev : Event) (k : nat) (cs : gmap nat chan) : outcome (gmap nat chan) :=
  match cs !! k with
  | Some (Chan q false) => Next (if (length q <? capacity)%nat then <[k := Chan (q ++ [ev]) false]> cs else cs)
  | _ => Panic
  end.

Fixpoint send_all (ev : Event) (ks : list nat) (cs : gmap nat chan) : outcome (gmap nat chan) :=
  match ks with
  | [] => Next cs
  | k :: ks' => match send ev k cs with
                | Next cs' => send_all ev ks' cs'
                | Panic => Panic
                | Disabled => Disabled
                end
  end.

Definition publish (id : string) (ev : Event) (b : bus) : outcome bus :=
  match send_all ev (subscribers id b) (chans b) with
  | Next cs => Next {| subs := subs b; chans := cs; next := next b |}
  | Panic => Panic
  | Disabled => Disabled
  end.

(** A receive on a subscriber's channel. *)
Definition receive (k : nat) (b : bus) : option Event * bus :=
  match chans b !! k with
  | Some (Chan (ev :: q) c) =>
      (Some ev, {| subs := subs b; chans := <[k := Chan q c]> (chans b); next := next b |})
  | _ => (None, b)
  end.

Inductive bus_event :=
| BSubscribe (id : string)
| BUnsubscribe (id : string) (sub : nat)
| BPublish (id : string) (ev : Event)
| BReceive (k : nat).

Definition bus_step (e : bus_event) (b : bus) : outcome bus :=
  match e with
  | BSubscribe id => Next (subscribe id b).2
  | BUnsubscribe id sub => unsubscribe id sub b
  | BPublish id ev => publish id ev b
  | BReceive k => Next (receive k b).2
  end.

Definition bus_init (b : bus) : Prop := b = newBus.

(** ** The service (service.go) *)

Record runState := RunState { startedAt : Z; tokens : Z; rs_canceled : bool }.

(** [recorded] is the log of [RecordJob] calls. *)
Record service := Service {
  tbl : list Job;
  evbus : bus;
  maxAttempts : Z;
  running : gmap string runState;
  recorded : list (string * Z);
}.

Definition NewService (t : list Job) (m : Z) : service :=
  {| tbl := t; evbus := newBus; maxAttempts := if m <=? 0 then DefaultMaxAttempts else m;
     running := ∅; recorded := [] |}.

Definition set_tbl (t : list Job) (s : service) : service :=
  Service t (evbus s) (maxAttempts s) (running s) (recorded s).
Definition set_bus (b : bus) (s : service) : service :=
  Service (tbl s) b (maxAttempts s) (running s) (recorded s).
Definition set_runs (r : gmap string runState) (s : service) : service :=
  Service (tbl s) (evbus s) (maxAttempts s) r (recorded s).

Definition recordJob (outcome : string) (run : Z) (s : service) : service :=
  Service (tbl s) (evbus s) (maxAttempts s) (running s) (recorded s ++ [(outcome, run)]).

Definition bus_publish (id : string) (ev : Event) (s : service) : outcome service :=
  match publish id ev (evbus s) with
  | Next b => Next (set_bus b s)
  | Panic => Panic
  | Disabled => Disabled
  end.

Definition state_event (st : State) : Event := MkEvent EventState (Some st) 0 None.
Definition done_event (st : State) : Event := MkEvent EventDone (Some st) 0 None.

Definition publishTerminal (id : string) (st : State) (s : service) : outcome service :=
  s1 ← bus_publish id (state_event st) s; bus_publish id (done_event st) s1.

(** The store calls of a request that fail, and roll back: its first, its second. *)
Record faults := Faults { first_fails : bool; second_fails : bool }.

Definition no_faults : faults := Faults false false.

(** A client's request past its write to the store: a submission is about to tell
    of its job; a cancellation is about to abort the run, to publish the two events
    of [publishTerminal], the second with the tally. *)
Inductive client_call :=
| CQueued (id : string)
| CAbort (id : string)
| CState (id : string) (run : Z)
| CDone (id : string) (run : Z).

(** The next thing such a request does. *)
Definition call_step (now : Z) (c : client_call) (s : service) : outcome (option client_call * service) :=
  match c with
  | CQueued id => s' ← bus_publish id (state_event StateQueued) s; Next (None, s')
  | CAbort id =>
      match running s !! id with
      | Some rs => Next (Some (CState id (now - startedAt rs)),
                         set_runs (<[id := RunState (startedAt rs) (tokens rs) true]> (running s)) s)
      | None => Next (Some (CState id 0), s)
      end
  | CState id run => s' ← bus_publish id (state_event StateCanceled) s; Next (Some (CDone id run), s')
  | CDone id run => s' ← bus_publish id (done_event StateCanceled) s; Next (None, recordJob "canceled" run s')
  end.

(** The rest of a request with nothing in between; it has at most three steps. *)
Fixpoint finish (n : nat) (now : Z) (c : option client_call) (s : service) : outcome service :=
  match c, n with
  | None, _ => Next s
  | Some c, S n => '(c', s') ← call_step now c s; finish n now c' s'
  | Some _, O => Disabled
  end.

Definition rest_of (now : Z) (c : option client_call) (s : service) : outcome service := finish 3 now c s.

(** [Submit] with the id and the marshalled options already made: the write, and
    the whole. *)
Definition Submit_store (fault : bool) (sub : submission) (now : Z) (s : service)
  : result err (Job * bool) * option client_call * service :=
  if fault then (Err ErrSQL, None, s)
  else
    let '(r, t) := JobStore.Submit sub now (tbl s) in
    (r, match r with Ok (j, true) => Some (CQueued (ID j)) | _ => None end, set_tbl t s).

Definition Submit (fault : bool) (sub : submission) (now : Z) (s : service)
  : outcome (result err (Job * bool) * service) :=
  let '(r, c, s) := Submit_store fault sub now s in
  s' ← rest_of now c s; Next (r, s').

Definition progress (id : string) (now : Z) (s : service) : option Progress :=
  match running s !! id with
  | None => None
  | Some rs => Some (MkProgress (tokens rs) (Milliseconds (now - startedAt rs)))
  end.

Record Status := MkStatus {
  St_ID : string; St_State : State; St_Source : string; St_Owner : string; St_Attempts : Z;
  St_Position : nat; St_Progress : option Progress; St_Error : string;
  St_CreatedAt : Z; St_FetchedAt : option Z
}.

Definition Get (f : faults) (id : string) (now : Z) (s : service) : result err Status :=
  match (if first_fails f then Err ErrSQL else JobStore.Get id (tbl s)) with
  | Err e => Err e
  | Ok j =>
      Ok (MkStatus (ID j) (JobState j) (Source j) (Owner j) (Attempts j)
            (if is_state StateQueued j
             then match (if second_fails f then Err ErrSQL else Position id (tbl s)) with Ok p => p | Err _ => 0%nat end
             else 0%nat)
            (if is_state StateRunning j then progress id now s else None)
            (Error j) (CreatedAt j) (FetchedAt j))
  end.

(** A stamp that fails is logged, and the text returned all the same. *)
Definition Result_ (f : faults) (id : string) (now : Z) (s : service) : result err string * service :=
  match (if first_fails f then Err ErrSQL else JobStore.Get id (tbl s)) with
  | Err e => (Err e, s)
  | Ok j =>
      if negb (is_state StateSucceeded j) then (Err ErrNotReady, s)
      else (Ok (Result j), if second_fails f then s else set_tbl (StampFetched id now (tbl s)) s)
  end.

Definition ListJobs (fault : bool) (f : Filter) (s : service) : result err (list Job) :=
  if fault then Err ErrSQL else Ok (List_ f (tbl s)).

Definition Cancel_store (fault : bool) (id : string) (now : Z) (s : service)
  : result err Job * option client_call * service :=
  if fault then (Err ErrSQL, None, s)
  else
    let '(r, t) := JobStore.Cancel id now (tbl s) in
    (r, match r with Ok j => if is_state StateCanceled j then Some (CAbort id) else None | Err _ => None end, set_tbl t s).

Definition Cancel (fault : bool) (id : string) (now : Z) (s : service) : outcome (result err Job * service) :=
  let '(r, c, s) := Cancel_store fault id now s in
  s' ← rest_of now c s; Next (r, s').

Definition startRun (id : string) (now : Z) (s : service) : outcome service :=
  bus_publish id (state_event StateRunning)
    (set_runs (<[id := RunState now 0 false]> (running s)) s).

Definition endRun (id : string) (s : service) : service := set_runs (delete id (running s)) s.

Definition reportTokens (id : string) (n now : Z) (s : service) : outcome service :=
  match running s !! id with
  | None => Disabled
  | Some rs =>
      bus_publish id (MkEvent EventProgress None 0 (Some (MkProgress n (Milliseconds (now - startedAt rs)))))
        (set_runs (<[id := RunState (startedAt rs) n (rs_canceled rs)]> (running s)) s)
  end.

Definition isCanceled (id : string) (s : service) : bool :=
  match JobStore.Get id (tbl s) with Ok j => is_state StateCanceled j | Err _ => false end.

Definition pruneOnce (fault : bool) (fetchedGrace hardCap now : Z) (s : service) : service :=
  if fault then s else set_tbl (Prune fetchedGrace hardCap now (tbl s)).2 s.

Definition Recover (now : Z) (s : service) : service :=
  set_tbl (RecoverRunning (maxAttempts s) now (tbl s)).2 s.

(** ** The HTTP surface (api.go) *)

Inductive body :=
| BError (msg : string)
| BJobID (id : string)
| BStatus (st : Status)
| BResult (id res : string)
| BCanceled (id : string) (st : string)
| BJobs (l : list Status).

Record response := Response { code : Z; payload : body }.

Definition writeErr (c : Z) (msg : string) : response := Response c (BError msg).

Definition writeStoreErr (e : err) : response :=
  match e with
  | ErrNotFound => writeErr 404 "job not found"
  | ErrNotReady => writeErr 409 "job result not ready"
  | _ => writeErr 500 "internal error"
  end.

(** The request: its key, and its body when it decodes; the id and the
    marshalled options ([None] when marshalling fails) come with it. *)
Record submit_request := SubmitRequest {
  r_key : string; r_body : option (string * string * string * string);  (* model, prompt, source, owner *)
  r_id : string; r_params : option string
}.

Definition handleSubmit (f : faults) (r : submit_request) (now : Z) (s : service) : outcome (response * service) :=
  if String.eqb (r_key r) "" then Next (writeErr 400 "Idempotency-Key header is required", s)
  else match r_body r with
  | None => Next (writeErr 400 "invalid JSON body", s)
  | Some (model, prompt, source, owner) =>
      if String.eqb model "" then Next (writeErr 400 "model is required", s)
      else match r_params r with
      | None => Next (writeErr 500 "submit failed", s)
      | Some params =>
          match Submit (first_fails f) (Submission (r_id r) (r_key r) source owner model params prompt (Some now)) now s with
          | Next (Err _, s') => Next (writeErr 500 "submit failed", s')
          | Next (Ok (j, created), s') => Next (Response (if created then 201 else 200) (BJobID (ID j)), s')
          | Panic => Panic
          | Disabled => Disabled
          end
      end
  end.

Definition handleGet (f : faults) (id : string) (now : Z) (s : service) : response :=
  match Get f id now s with Err e => writeStoreErr e | Ok st => Response 200 (BStatus st) end.

Definition handleResult (f : faults) (id : string) (now : Z) (s : service) : response * service :=
  match Result_ f id now s with
  | (Err e, s') => (writeStoreErr e, s')
  | (Ok res, s') => (Response 200 (BResult id res), s')
  end.

Definition list_status (j : Job) : Status :=
  MkStatus (ID j) (JobState j) (Source j) (Owner j) (Attempts j) 0 None (Error j) (CreatedAt j) (FetchedAt j).

Definition handleList (f : faults) (source owner st : string) (s : service) : response :=
  match ListJobs (first_fails f) (MkFilter source owner st 0) s with
  | Err _ => writeErr 500 "list failed"
  | Ok l => Response 200 (BJobs (map list_status l))
  end.

Definition handleCancel (f : faults) (id : string) (now : Z) (s : service) : outcome (response * service) :=
  match Cancel (first_fails f) id now s with
  | Next (Err e, s') => Next (writeStoreErr e, s')
  | Next (Ok j, s') => Next (Response 200 (BCanceled (ID j) (State_String (JobState j))), s')
  | Panic => Panic
  | Disabled => Disabled
  end.

(** ** The bus *)

Record bus_inv (b : bus) : Prop := {
  bi_open : forall id k, k ∈ subscribers id b -> exists q, chans b !! k = Some (Chan q false);
  bi_nodup : forall id, NoDup (subscribers id b);
  bi_disjoint : forall id id' k, k ∈ subscribers id b -> k ∈ subscribers id' b -> id = id';
  bi_fresh : forall k c, chans b !! k = Some c -> (k <= next b)%nat;
  bi_cap : forall k c, chans b !! k = Some c -> (length (buf c) <= capacity)%nat;
}.

Lemma newBus_inv : bus_inv newBus.
Proof. split; unfold subscribers; simpl; intros; try set_solver. constructor. Qed.

(** What a publish leaves in a channel. *)
Definition delivered (ev : Event) (c : chan) : chan :=
  if (length (buf c) <? capacity)%nat then Chan (buf c ++ [ev]) (closed c) else c.

Lemma send_all_spec ev ks cs :
  NoDup ks -> (forall k, k ∈ ks -> exists q, cs !! k = Some (Chan q false)) ->
  exists cs', send_all ev ks cs = Next cs' /\
    forall k, cs' !! k = if decide (k ∈ ks) then delivered ev <$> cs !! k else cs !! k.
Proof.
  intros Hn. revert cs. induction Hn as [|k ks Hk Hn IH]; intros cs Ho; simpl; [by exists cs|].
  destruct (Ho k) as [q Hq]; [by left|]. unfold send. rewrite Hq.
  set (cs1 := if (length q <? capacity)%nat then _ else cs).
  assert (Hcs1 : forall k', cs1 !! k' = if decide (k' = k) then delivered ev <$> cs !! k' else cs !! k').
  { intros k'. unfold cs1, delivered. destruct (decide (k' = k)) as [->|Hne]; [rewrite Hq; simpl|];
      destruct (length q <? capacity)%nat; by simplify_map_eq. }
  destruct (IH cs1) as (cs' & -> & Hcs').
  { intros k' Hk'. rewrite Hcs1, decide_False by set_solver. apply Ho. by right. }
  exists cs'. split; [done|]. intros k'. rewrite Hcs', Hcs1.
  destruct (decide (k' = k)) as [->|Hne]; repeat case_decide; set_solver.
Qed.

Lemma publish_spec id ev b : bus_inv b -> exists b', publish id ev b = Next b' /\
  subs b' = subs b /\ next b' = next b /\
  forall k, chans b' !! k = if decide (k ∈ subscribers id b) then delivered ev <$> chans b !! k else chans b !! k.
Proof.
  intros []. unfold publish.
  destruct (send_all_spec ev (subscribers id b) (chans b)) as (cs' & -> & H); [done|by eauto|].
  eexists. split; [done|]. by repeat split.
Qed.

Lemma publish_inv id ev b b' : bus_inv b -> publish id ev b = Next b' -> bus_inv b'.
Proof.
  intros Hi Hp. destruct (publish_spec id ev b Hi) as (b1 & Hb1 & Hs & Hn & Hc).
  assert (b1 = b') as -> by congruence. destruct Hi. unfold subscribers in *.
  split; unfold subscribers; rewrite ?Hs, ?Hn; try done.
  - intros id' k Hk. destruct (bi_open0 _ _ Hk) as [q Hq]. rewrite Hc, Hq. unfold delivered. simpl.
    destruct (decide _); [|by eexists]. destruct (_ <? _)%nat; by eexists.
  - intros k c Hk. rewrite Hc in Hk. destruct (chans b !! k) eqn:E; [by eapply bi_fresh0|]. by case_decide.
  - intros k c Hk. rewrite Hc in Hk. destruct (chans b !! k) as [c0|] eqn:E; [|by case_decide].
    specialize (bi_cap0 _ _ E). case_decide; simplify_eq/=; [|done]. unfold delivered, capacity in *.
    destruct (Nat.ltb_spec (length (buf c0)) 16); simpl; [rewrite length_app; simpl; lia|done].
Qed.

Lemma subscribe_inv id b : bus_inv b -> bus_inv (subscribe id b).2.
Proof.
  intros []. unfold subscribe. simpl.
  assert (Hnew : forall id', S (next b) ∉ subscribers id' b).
  { intros id' Hin. destruct (bi_open0 _ _ Hin) as [q Hq]. apply bi_fresh0 in Hq. lia. }
  assert (Hsub : forall id', subscribers id' (subscribe id b).2 =
            if decide (id' = id) then S (next b) :: subscribers id b else subscribers id' b).
  { intros id'. unfold subscribers at 1. simpl. destruct (decide (id' = id)) as [->|]; by simplify_map_eq. }
  unfold subscribe in Hsub. simpl in Hsub. split; simpl.
  - intros id' k. rewrite Hsub. case_decide; subst.
    + intros [->|Hk]%elem_of_cons; [simplify_map_eq; by eexists|].
      rewrite lookup_insert_ne; [by eauto|]. intros <-. by eapply Hnew.
    + intros Hk. rewrite lookup_insert_ne; [by eauto|]. intros <-. by eapply Hnew.
  - intros id'. rewrite Hsub. case_decide; [|done]. constructor; [apply Hnew|done].
  - intros i1 i2 k. rewrite !Hsub. repeat case_decide; subst; try done; rewrite ?elem_of_cons.
    + intros [->|?] ?; [by destruct (Hnew i2)|by eapply bi_disjoint0].
    + intros ? [->|?]; [by destruct (Hnew i1)|by eapply bi_disjoint0].
    + by apply bi_disjoint0.
  - intros k c. rewrite lookup_insert. case_decide; intros; subst; [lia|]. apply bi_fresh0 in H0. lia.
  - intros k c. rewrite lookup_insert. case_decide; intros; simplify_eq; [simpl; lia|by eapply bi_cap0].
Qed.

Lemma unsubscribe_inv id sub b : bus_inv b -> exists b', unsubscribe id sub b = Next b' /\ bus_inv b'.
Proof.
  intros Hi. pose proof Hi as []. unfold unsubscribe. destruct (subs b !! id) as [m|] eqn:Hm; [|by eexists].
  assert (Hsm : subscribers id b = m) by (unfold subscribers; by rewrite Hm).
  case_decide as Hin; [|by eexists].
  destruct (bi_open0 id sub) as [q Hq]; [by rewrite Hsm|]. rewrite Hq. eexists. split; [done|].
  set (m' := filter (fun k => k <> sub) m).
  assert (Hsub : forall id', default [] ((match m' with [] => delete id (subs b) | _ => <[id := m']> (subs b) end) !! id')
      = if decide (id' = id) then m' else subscribers id' b).
  { intros id'. destruct (decide (id' = id)) as [->|]; destruct m'; unfold subscribers; by simplify_map_eq. }
  assert (Hm' : forall k, k ∈ m' -> k ∈ subscribers id b /\ k <> sub).
  { intros k. rewrite Hsm. unfold m'. rewrite list_elem_of_filter. tauto. }
  split; unfold subscribers; simpl.
  - intros id' k. rewrite Hsub. case_decide as Hid; subst; intros Hk.
    + apply Hm' in Hk as [Hk Hne]. rewrite lookup_insert_ne by done. by eauto.
    + rewrite lookup_insert_ne; [by eauto|]. intros <-. apply Hid. by eapply bi_disjoint0.
  - intros id'. rewrite Hsub. case_decide; [|done]. apply NoDup_filter. rewrite <- Hsm. done.
  - intros i1 i2 k. rewrite !Hsub. repeat case_decide; subst; try done.
    + intros [Hk _]%Hm' ?. by eapply bi_disjoint0.
    + intros ? [Hk _]%Hm'. by eapply bi_disjoint0.
    + by apply bi_disjoint0.
  - intros k c. rewrite lookup_insert. case_decide; intros; subst; [by eapply bi_fresh0|by eapply bi_fresh0].
  - intros k c. rewrite lookup_insert. case_decide; intros; simplify_eq; [by eapply (bi_cap0 _ _ Hq)|by eapply bi_cap0].
Qed.

Lemma receive_inv k b : bus_inv b -> bus_inv (receive k b).2.
Proof.
  intros Hi. pose proof Hi as []. unfold receive. destruct (chans b !! k) as [[[|ev q] c]|] eqn:Hk; simpl; try done.
  split; unfold subscribers in *; simpl; try done.
  - intros id k' Hk'. destruct (bi_open0 _ _ Hk') as [q' Hq']. rewrite lookup_insert. case_decide; subst; [|by eexists].
    rewrite Hk in Hq'. simplify_eq. by eexists.
  - intros k' c'. rewrite lookup_insert. case_decide; intros; subst; by eapply bi_fresh0.
  - intros k' c'. rewrite lookup_insert. case_decide; intros; simplify_eq; [|by eapply bi_cap0].
    specialize (bi_cap0 _ _ Hk). simpl in *. lia.
Qed.

Lemma bus_step_inv e b b' : bus_inv b -> bus_step e b = Next b' -> bus_inv b'.
Proof.
  intros Hi Hs. destruct e as [id|id sub|id ev|k]; simpl in Hs; simplify_eq.
  - by apply subscribe_inv.
  - destruct (unsubscribe_inv id sub b Hi) as (b1 & Hb1 & ?). congruence.
  - by eapply publish_inv.
  - by apply receive_inv.
Qed.

Lemma reachable_bus_inv b : reachable bus_step bus_init b -> bus_inv b.
Proof.
  apply reachable_inv; [intros ? ->; apply newBus_inv|]. intros. by eapply bus_step_inv.
Qed.

(** ** The running system *)

Lemma bus_publish_spec id ev s : bus_inv (evbus s) -> exists b, bus_publish id ev s = Next (set_bus b s) /\ bus_inv b.
Proof.
  intros Hi. destruct (publish_spec id ev _ Hi) as (b & Hb & _). exists b. unfold bus_publish. rewrite Hb.
  split; [done|]. by eapply publish_inv.
Qed.

Lemma publishTerminal_spec id st s : bus_inv (evbus s) ->
  exists b, publishTerminal id st s = Next (set_bus b s) /\ bus_inv b.
Proof.
  intros Hi. unfold publishTerminal. destruct (bus_publish_spec id (state_event st) s Hi) as (b1 & -> & H1). simpl.
  destruct (bus_publish_spec id (done_event st) (set_bus b1 s) H1) as (b2 & -> & H2). by exists b2.
Qed.

(** A request past its write goes on without panic and leaves the table alone. *)
Lemma call_step_spec now c s : bus_inv (evbus s) ->
  exists c' s', call_step now c s = Next (c', s') /\ bus_inv (evbus s') /\ tbl s' = tbl s.
Proof.
  intros Hi. destruct c as [id|id|id run|id run]; cbn [call_step].
  - destruct (bus_publish_spec id (state_event StateQueued) s Hi) as (b & -> & Hb). by do 2 eexists.
  - destruct (running s !! id); by do 2 eexists.
  - destruct (bus_publish_spec id (state_event StateCanceled) s Hi) as (b & -> & Hb). by do 2 eexists.
  - destruct (bus_publish_spec id (done_event StateCanceled) s Hi) as (b & -> & Hb). by do 2 eexists.
Qed.

(** How many steps are left. *)
Definition left_ (c : option client_call) : nat :=
  match c with None => 0 | Some (CQueued _) | Some (CDone _ _) => 1 | Some (CState _ _) => 2 | Some (CAbort _) => 3 end.

Lemma call_step_left now c s c' s' : call_step now c s = Next (c', s') -> (left_ c' < left_ (Some c))%nat.
Proof.
  destruct c; cbn [call_step]; [| |intros (s1 & _ & [= <- _])%bind_next; simpl; lia..].
  - intros (s1 & _ & [= <- _])%bind_next. simpl. lia.
  - destruct (running s !! id); intros [= <- _]; simpl; lia.
Qed.

Lemma finish_spec n now c s : (left_ c <= n)%nat -> bus_inv (evbus s) ->
  exists s', finish n now c s = Next s' /\ bus_inv (evbus s') /\ tbl s' = tbl s.
Proof.
  revert c s. induction n as [|n IH]; intros [c|] s Hl Hi; cbn [finish]; try (by exists s).
  - destruct c; simpl in Hl; lia.
  - destruct (call_step_spec now c s Hi) as (c' & s' & E & Hi' & Ht). rewrite E. cbn [mbind outcome_bind].
    apply call_step_left in E. destruct (IH c' s') as (s2 & -> & H2 & E2); [lia|done|]. exists s2. by rewrite E2.
Qed.

Lemma rest_of_spec now c s : bus_inv (evbus s) ->
  exists s', rest_of now c s = Next s' /\ bus_inv (evbus s') /\ tbl s' = tbl s.
Proof. intros Hi. apply finish_spec; [|done]. by destruct c as [[]|]; simpl; lia. Qed.

(** ** Properties *)

(** A published event reaches exactly the job's subscribers, in order,
    unless their 16-event buffer is full; no buffer ever exceeds that. *)
Theorem bus_delivery b id ev k :
  reachable bus_step bus_init b ->
  exists b', bus_step (BPublish id ev) b = Next b' /\
    chans b' !! k = (if decide (k ∈ subscribers id b) then delivered ev <$> chans b !! k else chans b !! k) /\
    forall c, chans b' !! k = Some c -> (length (buf c) <= 16)%nat.
Proof.
  intros Hr. pose proof (reachable_bus_inv _ Hr) as Hi.
  destruct (publish_spec id ev b Hi) as (b' & Hb & _ & _ & Hc). exists b'. split; [done|]. split; [apply Hc|].
  intros c. apply (bi_cap _ (publish_inv _ _ _ _ Hi Hb)).
Qed.

(** ** Witnesses *)

Lemma bus_delivery_witness :
  let b := (subscribe "a" newBus).2 in
  exists b', bus_step (BPublish "a" (done_event StateSucceeded)) b = Next b' /\
    chans b' !! 1%nat = Some (Chan [done_event StateSucceeded] false).
Proof.
  assert (Hr : reachable bus_step bus_init (subscribe "a" newBus).2).
  { apply (reach_step _ _ newBus (BSubscribe "a")); [by apply reach_init|done]. }
  destruct (bus_delivery _ "a" (done_event StateSucceeded) 1 Hr) as (b' & Hb & Hc & _).
  exists b'. split; [exact Hb|]. rewrite Hc. vm_compute; reflexivity.
Defined.

End JobService.
