(* ===== verification/Worker.v ===== *)
(** * The job worker with its clients
    (src/internal/job/worker.go, and handleEvents of api.go)

    [step] interleaves the worker's goroutine, one event per call it makes or
    returns from, with the monitor of the run, the clients' calls (the transaction,
    the abort of the run and each publication are steps of their own), the SSE
    streams, faults of the store and shutdown.  The worker's own writes to the
    store are one step with the events it publishes for them.  What the scheduler and the yield
    controller answer is an input of the step that asks; [Whole] puts the real
    ones there.

    Proved: only the job the worker holds a slot for is running; an aborted run is
    classified as documented; a run that is no longer watched is aborted; a row's
    attempts change only for the job the worker gives up on; the worker stops after a shutdown in a bounded
    number of its own steps; nothing panics. *)

From S2P Require Import Prelude GoLib JobStore JobService.
#[local] Set Warnings "-clear-no-such-hyp,-level-tolerance".
Local Open Scope Z_scope.

Module Worker.

Import GoLib.
Import JobStore.
Import JobService.

(** ** The worker *)

Record worker := Worker { quantum : Z; poll : Z }.

Definition NewWorker (q p : Z) : worker :=
  {| quantum := if q <=? 0 then 10 * Second else q;
     poll := if p <=? 0 then 500 * Millisecond else p |}.

Definition shouldPreempt (w : worker) (start now : Z) (interactive : Z) : bool :=
  (quantum w <=? now - start) && (0 <? interactive).

(** The monitor of a run: since when it counts, whether it still watches, and
    the flag it shares with the run. *)
Record facts := Facts { since : Z; watching : bool; preempted : bool }.

(** The worker: at the top of its loop; past the check of its context; about to
    peek; asleep; in [Acquire]; with the slot; past the second look at the yield;
    with a claimed job; past [startRun]; generating; with the answer of
    [Generate]; past [isCanceled], about to requeue or to fail; about to run the
    deferred calls of [runJob], then that of [runNext], which [ran] a job or not;
    stopped. *)
Inductive wpc :=
| WLoop
| WChecked
| WPeeking
| WSleeping
| WAsking
| WAcquired
| WCleared
| WClaimed (id : string)
| WStarted (id : string) (start : Z)
| WGenerating (id : string) (start : Z) (f : facts)
| WReturned (id : string) (start : Z) (f : facts) (res : result string string)
| WRequeue (id : string) (start : Z) (tally : bool)
| WFail (id msg : string) (start : Z)
| WEnding (id : string)
| WReleasing (ran : bool)
| WStopped.

(** An SSE stream: past [Get]; reading its channel; ended. *)
Inductive stream :=
| SGot (id : string) (st : Status)
| SLoop (id : string) (sub : nat)
| SEnded.

(** [shutdown] is the worker's context; [orphans] are the jobs whose final write
    failed; [calls] are the clients' requests past their write to the store. *)
Record system := System {
  svc : service;
  wcfg : worker;
  pc : wpc;
  slot : bool;
  shutdown : bool;
  orphans : gset string;
  streams : gmap nat (stream * list Event);
  calls : gmap nat client_call;
}.

Definition set_svc (s : service) (y : system) : system :=
  System s (wcfg y) (pc y) (slot y) (shutdown y) (orphans y) (streams y) (calls y).
Definition set_pc (p : wpc) (y : system) : system :=
  System (svc y) (wcfg y) p (slot y) (shutdown y) (orphans y) (streams y) (calls y).
Definition set_slot (b : bool) (y : system) : system :=
  System (svc y) (wcfg y) (pc y) b (shutdown y) (orphans y) (streams y) (calls y).
Definition set_shutdown (y : system) : system :=
  System (svc y) (wcfg y) (pc y) (slot y) true (orphans y) (streams y) (calls y).
Definition add_orphan (id : string) (y : system) : system :=
  System (svc y) (wcfg y) (pc y) (slot y) (shutdown y) ({[id]} ∪ orphans y) (streams y) (calls y).
Definition set_stream (k : nat) (st : stream) (sent : list Event) (y : system) : system :=
  System (svc y) (wcfg y) (pc y) (slot y) (shutdown y) (orphans y) (<[k := (st, sent)]> (streams y)) (calls y).

(** The request [k] goes on with [c], or is over. *)
Definition set_call (k : nat) (c : option client_call) (y : system) : system :=
  System (svc y) (wcfg y) (pc y) (slot y) (shutdown y) (orphans y) (streams y)
    (match c with Some c => <[k := c]> (calls y) | None => delete k (calls y) end).

(** [fault]: the store call of this step fails and rolls back; [yielding] and
    [closed] are what the yield controller says, [granted] what [Acquire]
    returned. *)
Inductive event :=
| EShutdown
| ETop
| EYield (yielding : bool)
| EPeek (fault : bool)
| EWake
| EStop
| EAcquired (granted : bool)
| ERecheck (yielding : bool)
| EClaim (fault : bool) (now : Z)
| EStartRun (now : Z)
| EBind (now : Z)
| ETokens (n now : Z)
| EServeDone
| EMonitor (interactive now : Z)
| EUnwatch
| EGenerated (res : result string string)
| ESucceed (fault : bool) (now : Z)
| EClassify (fault closed : bool)
| ERequeue (fault : bool) (now : Z)
| EFail (fault : bool) (now : Z)
| EEnd
| ERelease
| ESubmit (k : nat) (fault : bool) (sub : submission) (now : Z)
| ECancel (k : nat) (fault : bool) (id : string) (now : Z)
| ECall (k : nat) (now : Z)
| EFetch (f : faults) (id : string) (now : Z)
| EPrune (fault : bool) (fetchedGrace hardCap now : Z)
| EOpen (k : nat) (f : faults) (id : string) (now : Z)
| EAttach (k : nat)
| ERead (k : nat)
| EDisconnect (k : nat).

Definition cancel_run (id : string) (s : service) : service :=
  match running s !! id with
  | Some rs => set_runs (<[id := RunState (startedAt rs) (tokens rs) true]> (running s)) s
  | None => s
  end.

Definition run_time (start now : Z) : Z := now - start.

(** Whether the context of the run of [id] is done. *)
Definition run_canceled (id : string) (y : system) : bool :=
  shutdown y || match running (svc y) !! id with Some rs => rs_canceled rs | None => false end.

(** One turn of [monitor]: the serve context is done, an interactive request
    waits past the quantum, or the run's own context is done. *)
Definition monitor (e : event) (id : string) (f : facts) (y : system) : outcome (facts * service) :=
  if negb (watching f) then Disabled
  else match e with
       | EServeDone => Next (Facts (since f) false (preempted f), cancel_run id (svc y))
       | EMonitor interactive now =>
           if shouldPreempt (wcfg y) (since f) now interactive
           then Next (Facts (since f) false true, cancel_run id (svc y))
           else Next (f, svc y)
       | EUnwatch => if run_canceled id y then Next (Facts (since f) false (preempted f), svc y) else Disabled
       | _ => Disabled
       end.

(** [runJob]: the steps of one claimed job. *)
Definition job_step (e : event) (y : system) : outcome system :=
  let s := svc y in
  match pc y, e with
  | WClaimed id, EStartRun now => s' ← startRun id now s; Next (set_pc (WStarted id now) (set_svc s' y))
  | WStarted id start, EBind now => Next (set_pc (WGenerating id start (Facts now true false)) y)
  | WGenerating id start f, ETokens n now => s' ← reportTokens id n now s; Next (set_svc s' y)
  | WGenerating id start f, EGenerated res => Next (set_pc (WReturned id start f res) y)
  | WGenerating id start f, e =>
      '(f', s') ← monitor e id f y; Next (set_pc (WGenerating id start f') (set_svc s' y))
  | WReturned id start f (Ok text), ESucceed fault now =>
      if fault then Next (add_orphan id (set_pc (WEnding id) y))
      else match Succeed id text now (tbl s) with
           | (Err _, _) => Next (set_pc (WEnding id) y)
           | (Ok _, t) =>
               s' ← publishTerminal id StateSucceeded (set_tbl t s);
               Next (set_pc (WEnding id) (set_svc (recordJob "succeeded" (run_time start now) s') y))
           end
  | WReturned id start f (Err msg), EClassify fault closed =>
      if negb fault && isCanceled id s then Next (set_pc (WEnding id) y)
      else if shutdown y then Next (set_pc (WRequeue id start false) y)
      else if closed then Next (set_pc (WRequeue id start true) y)
      else if preempted f then Next (set_pc (WRequeue id start true) y)
      else Next (set_pc (WFail id msg start) y)
  | WReturned id start f res, e =>
      '(f', s') ← monitor e id f y; Next (set_pc (WReturned id start f' res) (set_svc s' y))
  | WRequeue id start tally, ERequeue fault now =>
      let note s := if tally then recordJob "preempted" (run_time start now) s else s in
      if fault then Next (add_orphan id (set_pc (WEnding id) (set_svc (note s) y)))
      else match Preempt id (tbl s) with
           | (Err _, _) => Next (set_pc (WEnding id) (set_svc (note s) y))
           | (Ok _, t) =>
               s' ← bus_publish id (state_event StateQueued) (set_tbl t s);
               Next (set_pc (WEnding id) (set_svc (note s') y))
           end
  | WFail id msg start, EFail fault now =>
      if fault then Next (add_orphan id (set_pc (WEnding id) y))
      else match FailOrRetry id msg (maxAttempts s) now (tbl s) with
           | (Err _, _) => Next (set_pc (WEnding id) y)
           | (Ok true, t) =>
               s' ← publishTerminal id StateFailed (set_tbl t s);
               Next (set_pc (WEnding id) (set_svc (recordJob "failed" (run_time start now) s') y))
           | (Ok false, t) =>
               s' ← bus_publish id (state_event StateQueued) (set_tbl t s);
               Next (set_pc (WEnding id) (set_svc (recordJob "retried" (run_time start now) s') y))
           end
  | WEnding id, EEnd => Next (set_pc (WReleasing true) (set_svc (endRun id s) y))
  | _, _ => Disabled
  end.

(** [Run] and [runNext]: the loop around it. *)
Definition loop_step (e : event) (y : system) : outcome system :=
  let s := svc y in
  match pc y, e with
  | WLoop, ETop => Next (set_pc (if shutdown y then WStopped else WChecked) y)
  | WChecked, EYield yielding => Next (set_pc (if yielding then WSleeping else WPeeking) y)
  | WPeeking, EPeek fault =>
      Next (set_pc (if fault then if shutdown y then WStopped else WSleeping
                    else if HasQueued (tbl s) then WAsking else WSleeping) y)
  | WSleeping, EWake => Next (set_pc WLoop y)
  | WSleeping, EStop => if shutdown y then Next (set_pc WStopped y) else Disabled
  | WAsking, EAcquired granted =>
      if granted then Next (set_pc WAcquired (set_slot true y)) else Next (set_pc WSleeping y)
  | WAcquired, ERecheck yielding => Next (set_pc (if yielding then WReleasing false else WCleared) y)
  | WCleared, EClaim fault now =>
      if fault then Next (set_pc (WReleasing false) y)
      else match ClaimNext now (tbl s) with
           | (Err _, _) => Next (set_pc (WReleasing false) y)
           | (Ok j, t) => Next (set_pc (WClaimed (ID j)) (set_svc (set_tbl t s) y))
           end
  | WReleasing ran, ERelease => Next (set_pc (if ran then WLoop else WSleeping) (set_slot false y))
  | _, _ => Disabled
  end.

(** Whether the goroutine is in [runJob]. *)
Definition claimed (p : wpc) : bool :=
  match p with
  | WClaimed _ | WStarted _ _ | WGenerating _ _ _ | WReturned _ _ _ _ | WRequeue _ _ _ | WFail _ _ _ | WEnding _ => true
  | _ => false
  end.

(** The goroutine, the clients, the prune ticker and the streams. *)
Definition step (e : event) (y : system) : outcome system :=
  let s := svc y in
  match e with
  | EShutdown => Next (set_shutdown y)
  | ESubmit k fault sub now =>
      match calls y !! k with
      | Some _ => Disabled
      | None => let '(_, c, s') := Submit_store fault sub now s in Next (set_call k c (set_svc s' y))
      end
  | ECancel k fault id now =>
      match calls y !! k with
      | Some _ => Disabled
      | None => let '(_, c, s') := Cancel_store fault id now s in Next (set_call k c (set_svc s' y))
      end
  | ECall k now =>
      match calls y !! k with
      | Some c => '(c', s') ← call_step now c s; Next (set_call k c' (set_svc s' y))
      | None => Disabled
      end
  | EFetch f id now => Next (set_svc (Result_ f id now s).2 y)
  | EPrune fault g h now => Next (set_svc (pruneOnce fault g h now s) y)
  | EOpen k f id now =>
      match streams y !! k, Get f id now s with
      | None, Ok st => Next (set_stream k (SGot id st) [] y)
      | _, _ => Disabled
      end
  | EAttach k =>
      match streams y !! k with
      | Some (SGot id st, sent) =>
          let '(sub, b) := subscribe id (evbus s) in
          let snap := MkEvent EventState (Some (St_State st)) (St_Position st) (St_Progress st) in
          if Terminal (St_State st) then
            b' ← unsubscribe id sub b;
            Next (set_stream k SEnded (sent ++ [snap; done_event (St_State st)]) (set_svc (set_bus b' s) y))
          else Next (set_stream k (SLoop id sub) (sent ++ [snap]) (set_svc (set_bus b s) y))
      | _ => Disabled
      end
  | ERead k =>
      match streams y !! k with
      | Some (SLoop id sub, sent) =>
          match receive sub (evbus s) with
          | (None, _) => Disabled
          | (Some ev, b) =>
              match Type_ ev with
              | EventDone =>
                  b' ← unsubscribe id sub b;
                  Next (set_stream k SEnded (sent ++ [ev]) (set_svc (set_bus b' s) y))
              | _ => Next (set_stream k (SLoop id sub) (sent ++ [ev]) (set_svc (set_bus b s) y))
              end
          end
      | _ => Disabled
      end
  | EDisconnect k =>
      match streams y !! k with
      | Some (SLoop id sub, sent) =>
          b ← unsubscribe id sub (evbus s); Next (set_stream k SEnded sent (set_svc (set_bus b s) y))
      | _ => Disabled
      end
  | _ => if claimed (pc y) then job_step e y else loop_step e y
  end.

(** A broker starting on whatever table an earlier one left. *)
Definition init (y : system) : Prop :=
  exists cs m0 m q p now,
    y = System (Recover now (NewService (run m0 cs []) m)) (NewWorker q p) WLoop false false ∅ ∅ ∅.

(** The job the worker is responsible for. *)
Definition current (p : wpc) : option string :=
  match p with
  | WClaimed id | WStarted id _ | WGenerating id _ _ | WReturned id _ _ _ | WRequeue id _ _ | WFail id _ _ => Some id
  | _ => None
  end.

Definition holding (p : wpc) : bool := match p with WLoop | WChecked | WPeeking | WSleeping | WAsking | WStopped => false | _ => true end.

Definition is_run (j : Job) : Prop := JobState j = StateRunning.

Lemma update_running p f t : (forall j, p j = true -> JobState (f j) <> StateRunning) ->
  forall j, j ∈ update p f t -> is_run j -> j ∈ t /\ p j = false.
Proof.
  intros Hf j Hj Hr. unfold update in Hj. apply list_elem_of_In, in_map_iff in Hj as (x & He & Hx%list_elem_of_In).
  destruct (p x) eqn:Hp; subst; [|done]. by destruct (Hf _ Hp).
Qed.

Lemma succeed_running id text now t j :
  j ∈ (Succeed id text now t).2 -> is_run j -> j ∈ t /\ ID j <> id.
Proof.
  intros Hj Hr. destruct (update_running (fun r => by_id id r && is_state StateRunning r) (set_succeeded text now) t ltac:(done) j Hj Hr) as [? Hp]. split; [done|].
  apply by_id_false. destruct (by_id id j); [|done]. simpl in Hp. by apply is_state_false in Hp.
Qed.

Lemma preempt_running id t j : j ∈ (Preempt id t).2 -> is_run j -> j ∈ t /\ ID j <> id.
Proof.
  intros Hj Hr. destruct (update_running (fun r => by_id id r && is_state StateRunning r) (set_preempted (front_hint t)) t ltac:(done) j Hj Hr) as [? Hp]. split; [done|].
  apply by_id_false. destruct (by_id id j); [|done]. simpl in Hp. by apply is_state_false in Hp.
Qed.

Lemma fail_running id msg m now t j : wf t -> j ∈ (FailOrRetry id msg m now t).2 -> is_run j -> j ∈ t /\ ID j <> id.
Proof.
  intros Hw Hj Hr. unfold FailOrRetry, scanOne in Hj. pose proof (find_by_id id t (wf_ids _ Hw)) as Hf.
  destruct (find_job id t) as [r|]; destruct Hf as [Hwh Hf]; rewrite Hwh in Hj; simpl in Hj.
  2: { split; [done|]. by apply Hf. }
  destruct Hf as [Hrt Hid]. destruct (is_state StateRunning r) eqn:Hst; simpl in Hj.
  - assert (Hu : forall f, (forall r, JobState (f r) <> StateRunning) -> j ∈ update (by_id id) f t -> j ∈ t /\ ID j <> id).
    { intros f Hnr Hin. destruct (update_running (by_id id) f t (fun r _ => Hnr r) j Hin Hr).
      split; [done|by apply by_id_false]. }
    destruct (_ <=? _); simpl in Hj; (eapply Hu; [|exact Hj]); done.
  - split; [done|]. intros He. apply is_state_false in Hst. destruct Hst.
    pose proof (find_job_elem _ _ (wf_ids _ Hw) Hj) as F1. pose proof (find_job_elem _ _ (wf_ids _ Hw) Hrt) as F2.
    rewrite He, <- Hid, F2 in F1. unfold is_run in Hr. congruence.
Qed.

Lemma cancel_running id now t j : j ∈ (JobStore.Cancel id now t).2 -> is_run j -> j ∈ t.
Proof.
  intros Hj Hr. unfold JobStore.Cancel in Hj. destruct (JobStore.Get id t); simpl in Hj; [|done].
  destruct (Terminal _); simpl in Hj; [done|].
  by apply (update_running (by_id id) (set_canceled now) t (fun _ _ => ltac:(done)) j Hj Hr).
Qed.

Lemma stamp_running id now t j : j ∈ StampFetched id now t -> is_run j -> j ∈ t.
Proof.
  intros Hj Hr. eapply update_running; [|exact Hj|done]. intros r Hp. simpl.
  rewrite !andb_true_iff, is_state_true in Hp. destruct Hp as [[_ Hs] _]. by rewrite Hs.
Qed.

Lemma submit_running sub now t j : j ∈ (JobStore.Submit sub now t).2 -> is_run j -> j ∈ t.
Proof.
  unfold JobStore.Submit. destruct (scanOne _); simpl; [done|]. destruct (existsb _ _); simpl; [done|].
  intros [?| ->%list_elem_of_singleton]%elem_of_app Hr; [done|]. by unfold is_run in Hr.
Qed.

Record inv (y : system) : Prop := {
  inv_bus : bus_inv (evbus (svc y));
  inv_slot : slot y = holding (pc y);
  inv_wf : wf (tbl (svc y));
  inv_run : forall j, j ∈ tbl (svc y) -> is_run j ->
    current (pc y) = Some (ID j) \/ ID j ∈ orphans y;
}.

Lemma recover_wf m now t : wf t -> wf (RecoverRunning m now t).2.
Proof. intros Hw. apply (recover_good m now t Hw). Qed.

Lemma recover_none m now t j : wf t -> j ∈ (RecoverRunning m now t).2 -> ~ is_run j.
Proof.
  intros Hw Hj Hr. destruct (recover_fold m now (running_by_age t) t Hw (running_by_age_nodup _ Hw))
    as (_ & _ & _ & H4); [intros r; by rewrite running_by_age_elem|].
  destruct (H4 _ Hj Hr) as [Hjt Hn]. apply Hn. apply list_elem_of_fmap_2. by rewrite running_by_age_elem.
Qed.

Lemma service_init_inv y : init y -> inv y.
Proof.
  intros (cs & m0 & m & q & p & now & ->). split; cbn [svc pc slot orphans].
  - apply newBus_inv.
  - done.
  - apply recover_wf, run_wf.
  - intros j Hj Hr. by destruct (recover_none _ _ _ _ (run_wf m0 cs) Hj).
Qed.

(** A change of the table that makes nothing running keeps the invariant. *)
Lemma inv_update y s p : inv y -> bus_inv (evbus s) -> wf (tbl s) -> holding p = holding (pc y) ->
  (forall j, j ∈ tbl s -> is_run j -> j ∈ tbl (svc y) /\ (current (pc y) = Some (ID j) -> current p = Some (ID j))) ->
  inv (set_pc p (set_svc s y)).
Proof.
  intros [] Hb Hw Hp Hr. split; simpl; [done|by rewrite Hp|done|].
  intros j Hj Hjr. destruct (Hr _ Hj Hjr) as [Hjt Hc]. destruct (inv_run0 _ Hjt Hjr); auto.
Qed.

(** The same at the worker's final write, whose failure makes an orphan. *)
Lemma inv_final y s p id : inv y -> bus_inv (evbus s) -> wf (tbl s) -> holding p = holding (pc y) ->
  current (pc y) = Some id -> (forall j, j ∈ tbl s -> is_run j -> j ∈ tbl (svc y) /\ ID j <> id) ->
  inv (set_pc p (set_svc s y)).
Proof.
  intros [] Hb Hw Hp Hc Hr. split; simpl; [done|by rewrite Hp|done|].
  intros j Hj Hjr. destruct (Hr _ Hj Hjr) as [Hjt Hne]. destruct (inv_run0 _ Hjt Hjr); [congruence|by right].
Qed.

Lemma inv_orphan y s p id : inv y -> bus_inv (evbus s) -> tbl s = tbl (svc y) -> holding p = holding (pc y) ->
  current (pc y) = Some id -> inv (add_orphan id (set_pc p (set_svc s y))).
Proof.
  intros [] Hb Ht Hp Hc. split; simpl; [done|by rewrite Hp|by rewrite Ht|].
  intros j Hj Hjr. rewrite Ht in Hj. right. destruct (inv_run0 _ Hj Hjr); set_solver.
Qed.

Lemma set_pc_svc p y : set_pc p y = set_pc p (set_svc (svc y) y).
Proof. by destruct y. Qed.

Lemma cancel_run_fields id s : tbl (cancel_run id s) = tbl s /\ evbus (cancel_run id s) = evbus s.
Proof. unfold cancel_run. by destruct (running s !! id). Qed.

Lemma mustAffect_err p f t e : (mustAffect p f t).1 = Err e -> (mustAffect p f t).2 = t.
Proof.
  unfold mustAffect. simpl. rewrite existsb_where. destruct (where_ p t) eqn:Hw; [|done].
  intros _. apply update_none. by apply where_nil.
Qed.

Lemma fail_err id msg m now t e : (FailOrRetry id msg m now t).1 = Err e -> (FailOrRetry id msg m now t).2 = t.
Proof.
  unfold FailOrRetry. destruct (scanOne _); [|done]. destruct (is_state _ _); simpl; [|done].
  by destruct (_ <=? _).
Qed.

(** A step that neither panics nor breaks the invariant. *)
Definition safe (o : outcome system) : Prop :=
  match o with Panic => False | Disabled => True | Next y => inv y end.

(** After a publish, only the bus has changed. *)
Lemma safe_publish id ev s (k : service -> outcome system) : bus_inv (evbus s) ->
  (forall b, bus_inv b -> safe (k (set_bus b s))) -> safe (s' ← bus_publish id ev s; k s').
Proof. intros Hi Hk. destruct (bus_publish_spec id ev s Hi) as (b & -> & Hb). simpl. by apply Hk. Qed.

Lemma safe_terminal id st s (k : service -> outcome system) : bus_inv (evbus s) ->
  (forall b, bus_inv b -> safe (k (set_bus b s))) -> safe (s' ← publishTerminal id st s; k s').
Proof. intros Hi Hk. destruct (publishTerminal_spec id st s Hi) as (b & -> & Hb). simpl. by apply Hk. Qed.

(** A step that leaves the table and the worker's responsibility alone. *)
Lemma inv_same y s p : inv y -> holding p = holding (pc y) -> current p = current (pc y) ->
  tbl s = tbl (svc y) -> bus_inv (evbus s) -> inv (set_pc p (set_svc s y)).
Proof.
  intros Hi Hh Hc Ht Hb. apply inv_update; [done|done|rewrite Ht; apply Hi|done|]. rewrite Ht, Hc. auto.
Qed.

Lemma set_svc_pc s y : set_svc s y = set_pc (pc y) (set_svc s y).
Proof. by destruct y. Qed.

Section final_steps.
Context (y : system) (Hi : inv y) (jid : string) (Hc : current (pc y) = Some jid) (Hh : holding (pc y) = true).

(** A final write through [r], after which no row of the job is running. *)
Lemma final_write {A} (r : result err A * list Job) (k : A -> list Job -> outcome system) s0 :
  tbl s0 = tbl (svc y) -> bus_inv (evbus s0) -> wf r.2 -> (forall j, j ∈ r.2 -> is_run j -> j ∈ tbl (svc y) /\ ID j <> jid) ->
  (forall e, r.1 = Err e -> r.2 = tbl (svc y)) ->
  (forall a, wf r.2 -> (forall j, j ∈ r.2 -> is_run j -> j ∈ tbl (svc y) /\ ID j <> jid) -> safe (k a r.2)) ->
  safe (match r with (Err _, _) => Next (set_pc (WEnding jid) (set_svc s0 y)) | (Ok a, t) => k a t end).
Proof using Hi Hc Hh.
  intros Ht Hb Hw Hr He Hk. destruct r as [[a|e] t]; simpl in *; [by apply Hk|].
  specialize (He e eq_refl). subst t.
  eapply inv_final; [done|done|by rewrite Ht|by rewrite Hh|done|]. by rewrite Ht.
Qed.

Lemma final_next s : bus_inv (evbus s) -> wf (tbl s) ->
  (forall j, j ∈ tbl s -> is_run j -> j ∈ tbl (svc y) /\ ID j <> jid) ->
  inv (set_pc (WEnding jid) (set_svc s y)).
Proof using Hi Hc Hh. intros. eapply inv_final; [done|done|done|by rewrite Hh|done|done]. Qed.

Lemma final_fault s : bus_inv (evbus s) -> tbl s = tbl (svc y) ->
  inv (add_orphan jid (set_pc (WEnding jid) (set_svc s y))).
Proof using Hi Hc Hh. intros. eapply inv_orphan; [done|done|done|by rewrite Hh|done]. Qed.

End final_steps.

Lemma note_fields (b : bool) r s :
  let s' := if b then recordJob "preempted" r s else s in tbl s' = tbl s /\ evbus s' = evbus s.
Proof. by destruct b. Qed.

(** The monitor touches only the run's context. *)
Lemma monitor_fields e id f y f' s : monitor e id f y = Next (f', s) -> tbl s = tbl (svc y) /\ evbus s = evbus (svc y).
Proof.
  pose proof (cancel_run_fields id (svc y)). unfold monitor.
  destruct (negb (watching f)); [done|]. destruct e; try done; repeat case_match; intros [= <- <-]; done.
Qed.

Lemma monitor_safe e id f y (k : facts -> wpc) : inv y -> (forall f, holding (k f) = holding (pc y)) ->
  (forall f, current (k f) = current (pc y)) ->
  safe ('(f', s') ← monitor e id f y; Next (set_pc (k f') (set_svc s' y))).
Proof.
  intros Hi Hh Hc. destruct (monitor e id f y) as [| |[f' s]] eqn:Hm; [done| |].
  - exfalso. unfold monitor in Hm. destruct (negb (watching f)); [done|]. destruct e; by repeat case_match.
  - destruct (monitor_fields _ _ _ _ _ _ Hm) as [E1 E2]. apply inv_same; [done|by rewrite Hh|by rewrite Hc|done|].
    rewrite E2. apply Hi.
Qed.

Section at_return.
Context (y : system) (Hi : inv y) (jid : string) (st : Z).

Lemma succeed_safe f text fault now : pc y = WReturned jid st f (Ok text) -> safe (job_step (ESucceed fault now) y).
Proof using Hi.
  intros Hpc. pose proof Hi as [Hb _ Hw _]. unfold job_step. rewrite Hpc. destruct fault.
  { cbn [safe]. rewrite set_pc_svc. apply final_fault; by rewrite ?Hpc. }
  rewrite (set_pc_svc (WEnding jid) y).
  eapply (final_write y Hi jid); [by rewrite Hpc..|done|done| | | |].
  + apply (succeed_good 0 jid text now _ Hw).
  + intros. by eapply succeed_running.
  + intros er. apply mustAffect_err.
  + intros a Hw' Hr. apply safe_terminal; [done|]. intros b Hb'. apply final_next; by rewrite ?Hpc.
Qed.

Lemma classify_safe f msg fault closed : pc y = WReturned jid st f (Err msg) -> safe (job_step (EClassify fault closed) y).
Proof using Hi.
  intros Hpc. pose proof Hi as [Hb _ Hw _]. unfold job_step. rewrite Hpc.
  destruct (negb fault && isCanceled jid (svc y)) eqn:Hcan.
  - cbn [safe]. rewrite set_pc_svc.
    eapply inv_final; [done|done|done|by rewrite Hpc|by rewrite Hpc|]. intros j Hj Hr. split; [done|].
    apply andb_true_iff in Hcan as [_ Hcan]. intros <-.
    unfold isCanceled, JobStore.Get, scanOne in Hcan. pose proof (find_by_id (ID j) _ (wf_ids _ Hw)) as Hf.
    rewrite (find_job_elem _ _ (wf_ids _ Hw) Hj) in Hf. destruct Hf as [Hf _]. rewrite Hf in Hcan.
    apply is_state_true in Hcan. unfold is_run in Hr. congruence.
  - destruct (shutdown y); [|destruct closed; [|destruct (preempted f)]]; cbn [safe]; rewrite set_pc_svc;
      (apply inv_same; [done|by rewrite Hpc..|done|done]).
Qed.

Lemma requeue_safe tally fault now : pc y = WRequeue jid st tally -> safe (job_step (ERequeue fault now) y).
Proof using Hi.
  intros Hpc. pose proof Hi as [Hb _ Hw _]. unfold job_step. rewrite Hpc.
  destruct (note_fields tally (run_time st now) (svc y)) as [N1 N2]. destruct fault.
  { apply final_fault; rewrite ?Hpc; try done. by rewrite N2. }
  eapply (final_write y Hi jid); [by rewrite Hpc..|done|by rewrite N2| | | |].
  + apply (preempt_good 0 jid _ Hw).
  + intros. by eapply preempt_running.
  + intros er. apply mustAffect_err.
  + intros a Hw' Hr. apply safe_publish; [done|]. intros b Hb'.
    destruct (note_fields tally (run_time st now) (set_bus b (set_tbl (Preempt jid (tbl (svc y))).2 (svc y)))) as [M1 M2].
    apply final_next; rewrite ?Hpc; try done; by rewrite ?M1, ?M2.
Qed.

Lemma fail_safe msg fault now : pc y = WFail jid msg st -> safe (job_step (EFail fault now) y).
Proof using Hi.
  intros Hpc. pose proof Hi as [Hb _ Hw _]. unfold job_step. rewrite Hpc. destruct fault.
  { cbn [safe]. rewrite set_pc_svc. apply final_fault; by rewrite ?Hpc. }
  rewrite (set_pc_svc (WEnding jid) y).
  apply (final_write y Hi jid ltac:(by rewrite Hpc) ltac:(by rewrite Hpc)
    (FailOrRetry jid msg (maxAttempts (svc y)) now (tbl (svc y)))
    (fun (a : bool) t =>
        if a then s' ← publishTerminal jid StateFailed (set_tbl t (svc y));
                  Next (set_pc (WEnding jid) (set_svc (recordJob "failed" (run_time st now) s') y))
        else s' ← bus_publish jid (state_event StateQueued) (set_tbl t (svc y));
             Next (set_pc (WEnding jid) (set_svc (recordJob "retried" (run_time st now) s') y)))); [done|done|..].
  + apply (fail_good (maxAttempts (svc y)) jid msg now _ Hw).
  + intros. by eapply fail_running.
  + intros er. apply fail_err.
  + intros [] Hw' Hr; [apply safe_terminal|apply safe_publish]; try done; intros b Hb';
      apply final_next; by rewrite ?Hpc.
Qed.

End at_return.

(** A step to where the worker has no job, with the slot as it says. *)
Lemma inv_idle y p b : inv y -> current (pc y) = None -> b = holding p -> inv (set_pc p (set_slot b y)).
Proof.
  intros [] Hc Hb. split; simpl; [done|done|done|]. intros j Hj Hr. right.
  destruct (inv_run0 _ Hj Hr) as [H|]; [by rewrite Hc in H|done].
Qed.

Lemma inv_idle' y p : inv y -> current (pc y) = None -> holding p = holding (pc y) -> inv (set_pc p y).
Proof.
  intros Hi Hc Hh. replace y with (set_slot (slot y) y) by (by destruct y). apply inv_idle; [done|done|].
  rewrite Hh. apply Hi.
Qed.

Lemma job_step_safe e y : inv y -> safe (job_step e y).
Proof.
  intros Hi. pose proof Hi as [Hb _ Hw _].
  destruct (pc y) as [| | | | | | |jid|jid st|jid st f|jid st f res|jid st tally|jid msg st|jid|ran|] eqn:Hpc;
    try (unfold job_step; rewrite Hpc; exact I).
  - unfold job_step. rewrite Hpc. destruct e; try exact I. apply safe_publish; [done|]. intros b Hb'.
    apply inv_same; [done|by rewrite Hpc..|done|done].
  - unfold job_step. rewrite Hpc. destruct e; try exact I. cbn [safe]. rewrite set_pc_svc.
    apply inv_same; [done|by rewrite Hpc..|done|done].
  - unfold job_step. rewrite Hpc.
    destruct e; try (apply (monitor_safe _ _ _ _ (WGenerating jid st)); [done|by rewrite Hpc..]).
    + unfold reportTokens. destruct (running (svc y) !! jid); [|exact I]. apply safe_publish; [done|].
      intros b Hb'. cbn [safe]. rewrite set_svc_pc. by apply inv_same.
    + cbn [safe]. rewrite set_pc_svc. apply inv_same; [done|by rewrite Hpc..|done|done].
  - assert (safe ('(f', s') ← monitor e jid f y; Next (set_pc (WReturned jid st f' res) (set_svc s' y)))) as Hm
      by (apply (monitor_safe _ _ _ _ (fun f => WReturned jid st f res)); [done|by rewrite Hpc..]).
    destruct res as [text|msg]; destruct e;
      (by apply (succeed_safe y Hi jid st f text)) || (by apply (classify_safe y Hi jid st f msg)) ||
      (unfold job_step; rewrite Hpc; exact Hm).
  - destruct e; try (unfold job_step; rewrite Hpc; exact I). by eapply requeue_safe.
  - destruct e; try (unfold job_step; rewrite Hpc; exact I). by eapply fail_safe.
  - unfold job_step. rewrite Hpc. destruct e; try exact I. cbn [safe].
    destruct Hi as [_ Hsl _ Hrun]. split; simpl; [done|by rewrite Hsl, Hpc|done|].
    intros j Hj Hr. right. destruct (Hrun _ Hj Hr) as [Hcur|]; [|done]. by rewrite ?Hpc in Hcur.
Qed.

Lemma claim_safe fault now y : inv y -> pc y = WCleared -> safe (loop_step (EClaim fault now) y).
Proof.
  intros Hi Hpc. pose proof Hi as [Hb Hsl Hw Hrun]. unfold loop_step. rewrite Hpc.
  destruct fault; [by apply inv_idle'; rewrite ?Hpc|].
  unfold ClaimNext, scanOne. destruct (line (tbl (svc y))) as [|j l] eqn:Hl.
  { by apply inv_idle'; rewrite ?Hpc. }
  assert (Hj : j ∈ tbl (svc y) /\ JobState j = StateQueued) by (apply elem_of_line; rewrite Hl; by left).
  destruct Hj as [Hj Hq]. destruct (row_split _ _ (wf_ids _ Hw) Hj) as (t1 & t2 & Ha).
  pose proof (claim_good 0 now _ Hw) as [Hw' _]. unfold ClaimNext, scanOne in Hw'. rewrite Hl in Hw'.
  simpl in *. split; simpl; try done; [by rewrite Hsl, Hpc|]. intros r Hr Hrr.
  rewrite (update_at _ _ _ _ _ _ Ha) in Hr.
  2: by rewrite (proj2 (by_id_true _ _)), (proj2 (is_state_true _ _)).
  2: { intros x [Hx _]%andb_true_iff. by apply by_id_true in Hx. }
  assert (Hrt : r ∈ tbl (svc y) \/ r = set_running now j) by (destruct Ha; set_solver).
  destruct Hrt as [Hrt| ->]; [|by left]. right. destruct (Hrun _ Hrt Hrr) as [H|]; [|done]. by rewrite Hpc in H.
Qed.

Lemma loop_step_safe e y : inv y -> safe (loop_step e y).
Proof.
  intros Hi. destruct (pc y) eqn:Hpc; try (unfold loop_step; rewrite Hpc; exact I);
    destruct e; try (unfold loop_step; rewrite Hpc; exact I); try (by apply claim_safe);
    unfold loop_step; rewrite Hpc; cbn [safe].
  - apply inv_idle'; rewrite ?Hpc; [done..|by destruct (shutdown y)].
  - apply inv_idle'; rewrite ?Hpc; [done..|by destruct yielding].
  - apply inv_idle'; rewrite ?Hpc; [done..|by destruct fault, (shutdown y), (HasQueued (tbl (svc y)))].
  - by apply inv_idle'; rewrite ?Hpc.
  - destruct (shutdown y); [|exact I]. by apply inv_idle'; rewrite ?Hpc.
  - destruct granted; [by apply inv_idle; rewrite ?Hpc|by apply inv_idle'; rewrite ?Hpc].
  - apply inv_idle'; rewrite ?Hpc; [done..|by destruct yielding].
  - apply inv_idle; rewrite ?Hpc; [done..|by destruct ran].
Qed.

(** Client calls that change the table without making anything running. *)
Lemma inv_client y s : inv y -> bus_inv (evbus s) -> wf (tbl s) ->
  (forall j, j ∈ tbl s -> is_run j -> j ∈ tbl (svc y)) -> inv (set_svc s y).
Proof. intros Hi Hb Hw Hr. rewrite set_svc_pc. apply inv_update; auto. Qed.

Lemma inv_call k c y : inv y -> inv (set_call k c y).
Proof. intros []. by split. Qed.

Lemma submit_safe fault sub now y : inv y -> inv (set_svc (Submit_store fault sub now (svc y)).2 y).
Proof.
  intros Hi. pose proof Hi as [Hb _ Hw _]. unfold Submit_store. destruct fault; [by apply inv_client|].
  pose proof (submit_good 0 sub now _ Hw) as [Hw' _].
  assert (Hr : forall j, j ∈ (JobStore.Submit sub now (tbl (svc y))).2 -> is_run j -> j ∈ tbl (svc y))
    by (intros; by eapply submit_running).
  destruct (JobStore.Submit sub now (tbl (svc y))) as [r t]. by apply inv_client.
Qed.

Lemma cancel_safe fault id now y : inv y -> inv (set_svc (Cancel_store fault id now (svc y)).2 y).
Proof.
  intros Hi. pose proof Hi as [Hb _ Hw _]. unfold Cancel_store. destruct fault; [by apply inv_client|].
  pose proof (cancel_good 0 id now _ Hw) as [Hw' _].
  assert (Hr : forall j, j ∈ (JobStore.Cancel id now (tbl (svc y))).2 -> is_run j -> j ∈ tbl (svc y))
    by (intros; by eapply cancel_running).
  destruct (JobStore.Cancel id now (tbl (svc y))) as [r t]. by apply inv_client.
Qed.

Lemma inv_stream k st sent y : inv y -> inv (set_stream k st sent y).
Proof. intros []. by split. Qed.

Lemma step_safe e y : inv y -> safe (step e y).
Proof.
  intros Hi. pose proof Hi as [Hb Hsl Hw Hrun].
  assert (Hbus : forall b, bus_inv b -> inv (set_svc (set_bus b (svc y)) y)) by (intros; apply inv_client; auto).
  destruct e; cbn [step]; try (destruct (claimed (pc y)); [by apply job_step_safe|by apply loop_step_safe]).
  - by split.
  - destruct (calls y !! k); [exact I|]. pose proof (submit_safe fault sub now y Hi) as H.
    destruct (Submit_store _ _ _ _) as [[r c] s]. by apply inv_call.
  - destruct (calls y !! k); [exact I|]. pose proof (cancel_safe fault id now y Hi) as H.
    destruct (Cancel_store _ _ _ _) as [[r c] s]. by apply inv_call.
  - destruct (calls y !! k) as [c|]; [|exact I]. destruct (call_step_spec now c (svc y) Hb) as (c' & s' & -> & Hb' & Ht).
    simpl. apply inv_call. apply inv_client; rewrite ?Ht; auto.
  - unfold Result_. destruct (if first_fails f then _ else _); simpl; [|by apply inv_client].
    destruct (is_state _ _); simpl; [|by apply inv_client]. destruct (second_fails f); [by apply inv_client|].
    apply inv_client; simpl; [done|done|..].
    + apply (stamp_good 0 id now _ Hw).
    + intros j. by apply stamp_running.
  - unfold pruneOnce. destruct fault; [by apply inv_client|].
    apply inv_client; simpl; [done|done|by apply prune_wf|]. by intros j [_ ?]%elem_of_where _.
  - destruct (streams y !! k); [exact I|]. destruct (Get f id now (svc y)); [|exact I]. by apply inv_stream.
  - destruct (streams y !! k) as [[[id st|id sub|] sent]|]; try exact I.
    pose proof (subscribe_inv id _ Hb) as Hs. destruct (subscribe id (evbus (svc y))) as [sub b]. simpl in Hs.
    destruct (Terminal (St_State st)); [|by apply inv_stream, Hbus].
    destruct (unsubscribe_inv id sub b Hs) as (b' & -> & Hb'). simpl. by apply inv_stream, Hbus.
  - destruct (streams y !! k) as [[[id st|id sub|] sent]|]; try exact I.
    pose proof (receive_inv sub _ Hb) as Hr. destruct (receive sub (evbus (svc y))) as [[ev|] b]; [|exact I].
    simpl in Hr. destruct (Type_ ev); try (by apply inv_stream, Hbus).
    destruct (unsubscribe_inv id sub b Hr) as (b' & -> & Hb'). simpl. by apply inv_stream, Hbus.
  - destruct (streams y !! k) as [[[id st|id sub|] sent]|]; try exact I.
    destruct (unsubscribe_inv id sub _ Hb) as (b' & -> & Hb'). simpl. by apply inv_stream, Hbus.
Qed.

Lemma reachable_service_inv y : reachable step init y -> inv y.
Proof.
  apply reachable_inv; [apply service_init_inv|]. intros s e s' Hi Hs.
  pose proof (step_safe e s Hi) as H. by rewrite Hs in H.
Qed.

(** One row replaced: what the store finds afterwards. *)
Lemma find_replaced j j' t1 t2 t : at_row j t1 t2 t -> ID j' = ID j -> find_job (ID j) (t1 ++ j' :: t2) = Some j'.
Proof.
  intros [Hr] He. assert (Ha : at_row j' t1 t2 (t1 ++ j' :: t2)) by (constructor; intros r ?; rewrite He; by apply Hr).
  unfold find_job. rewrite <- He. by rewrite (where_by_id _ _ _ _ Ha).
Qed.

Lemma Get_find id t : wf t -> JobStore.Get id t = match find_job id t with Some j => Ok j | None => Err ErrNotFound end.
Proof.
  intros Hw. unfold JobStore.Get, scanOne. pose proof (find_by_id id t (wf_ids _ Hw)) as Hf.
  by destruct (find_job id t); destruct Hf as [-> _].
Qed.

Lemma guarded_update id f t j : wf t -> find_job id t = Some j -> JobState j = StateRunning ->
  (forall r, ID (f r) = ID r) ->
  (mustAffect (fun r => by_id id r && is_state StateRunning r) f t).1 = Ok tt /\
  find_job id (mustAffect (fun r => by_id id r && is_state StateRunning r) f t).2 = Some (f j).
Proof.
  intros Hw Hf Hr Hid. pose proof (update_guarded id (is_state StateRunning) f t Hw) as Hu. rewrite Hf in Hu.
  destruct Hu as (t1 & t2 & Ha & <- & Hu). rewrite (proj2 (is_state_true _ _)) in Hu by done. split.
  - unfold mustAffect. rewrite existsb_where. simpl.
    destruct (where_ _ t) eqn:Hwn; [|done].
    pose proof (where_nil _ _ Hwn j (at_row_elem _ _ _ _ Ha)) as Hp. simpl in Hp.
    by rewrite (proj2 (by_id_true _ _)), (proj2 (is_state_true _ _)) in Hp by done.
  - unfold mustAffect. cbn [snd]. rewrite Hu. by eapply find_replaced.
Qed.

Ltac next_step H :=
  repeat (case_match; try done); simplify_eq; try done;
  try (apply bind_next in H as (? & ? & H); repeat (case_match; try done); simplify_eq; try done).

(** A run has its entry until it ends. *)
Definition open_run (p : wpc) : option string :=
  match p with
  | WStarted id _ | WGenerating id _ _ | WReturned id _ _ _ | WRequeue id _ _ | WFail id _ _ | WEnding id => Some id
  | _ => None
  end.

Definition runs_kept (s s' : service) : Prop := forall id, is_Some (running s !! id) -> is_Some (running s' !! id).

Lemma insert_kept (id : string) (v : runState) s : runs_kept s (set_runs (<[id := v]> (running s)) s).
Proof. intros k [r Hk]. simpl. destruct (decide (k = id)) as [->|]; simplify_map_eq; by eexists. Qed.

Lemma publish_runs id ev s s' : bus_publish id ev s = Next s' -> running s' = running s.
Proof. unfold bus_publish. destruct (publish _ _ _); try done. by intros [= <-]. Qed.

Lemma terminal_runs id st s s' : publishTerminal id st s = Next s' -> running s' = running s.
Proof. intros (s1 & H1 & H2)%bind_next. apply publish_runs in H1, H2. congruence. Qed.

Lemma cancel_run_kept id s : runs_kept s (cancel_run id s).
Proof. unfold cancel_run. destruct (running s !! id); [apply insert_kept|by intros k]. Qed.

Lemma monitor_kept e id f y f' s : monitor e id f y = Next (f', s) -> runs_kept (svc y) s.
Proof.
  unfold monitor. destruct (negb _); [done|]. destruct e; try done; repeat case_match; intros [= _ <-];
    try apply cancel_run_kept; by intros k.
Qed.

Lemma note_runs (b : bool) r s : running (if b then recordJob "preempted" r s else s) = running s.
Proof. by destruct b. Qed.

Definition run_entry (y : system) : Prop := forall id, open_run (pc y) = Some id -> is_Some (running (svc y) !! id).

Lemma entry_kept y p s : run_entry y -> runs_kept (svc y) s -> (open_run p = open_run (pc y) \/ open_run p = None) ->
  run_entry (set_pc p (set_svc s y)).
Proof. intros He Hk [Hp|Hp] id Hid; simpl in Hid; [|congruence]. apply Hk, He. congruence. Qed.

Lemma same_runs_kept s s' : running s' = running s -> runs_kept s s'.
Proof. intros E k. by rewrite E. Qed.

Lemma job_step_entry e y y' : run_entry y -> job_step e y = Next y' -> run_entry y'.
Proof.
  intros He Hs. unfold job_step in Hs. destruct (pc y) as [| | | | | | |jid|jid st|jid st f|jid st f res|jid st tally|jid msg st|jid|ran|] eqn:Hpc; try done.
  - destruct e; try done. apply bind_next in Hs as (s & Hs & [= <-]). apply publish_runs in Hs.
    intros id [= <-]. simpl. rewrite Hs. simpl. by simplify_map_eq.
  - destruct e; try done. simplify_eq. rewrite set_pc_svc. apply entry_kept; [done|by intros k|rewrite Hpc; by left].
  - destruct e; try (apply bind_next in Hs as ([f1 s1] & Hm & [= <-]); apply (entry_kept y (WGenerating jid st f1)); [done|by eapply monitor_kept|left; by rewrite Hpc]).
    + apply bind_next in Hs as (s & Hs & [= <-]). rewrite set_svc_pc. apply entry_kept; [done| |by left].
      unfold reportTokens in Hs. destruct (running (svc y) !! jid); [|done]. apply publish_runs in Hs.
      intros k Hk. rewrite Hs. by apply insert_kept.
    + simplify_eq. rewrite set_pc_svc. apply entry_kept; [done|by intros k|rewrite Hpc; by left].
  - assert (('(f', s') ← monitor e jid f y; Next (set_pc (WReturned jid st f' res) (set_svc s' y))) = Next y' -> run_entry y') as Hm.
    { intros ([f' s] & Hm & [= <-])%bind_next. apply entry_kept; [done|by eapply monitor_kept|rewrite Hpc; by left]. }
    assert (forall p s, running s = running (svc y) -> open_run p = Some jid -> run_entry (set_pc p (set_svc s y))) as Hk.
    { intros p s Hr Hp. apply entry_kept; [done|by apply same_runs_kept|rewrite Hpc; by left]. }
    destruct res as [text|msg], e; try (by apply Hm).
    + destruct fault; [simplify_eq; intros id Hid; apply (Hk (WEnding jid) (svc y) eq_refl eq_refl id Hid)|].
      destruct (Succeed _ _ _ _) as [[|] t].
      * apply bind_next in Hs as (s & Hs & [= <-]). apply terminal_runs in Hs. by apply Hk.
      * simplify_eq. rewrite set_pc_svc. by apply Hk.
    + repeat case_match; simplify_eq; rewrite set_pc_svc; by apply Hk.
  - destruct e; try done.
    assert (forall s, running s = running (svc y) -> run_entry (set_pc (WEnding jid) (set_svc s y))) as Hk.
    { intros s Hr. apply entry_kept; [done|by apply same_runs_kept|rewrite Hpc; by left]. }
    destruct fault; [simplify_eq; intros id Hid; refine (Hk _ _ id Hid); by rewrite note_runs|].
    destruct (Preempt _ _) as [[|] t].
    + apply bind_next in Hs as (s & Hs & [= <-]). apply publish_runs in Hs. apply Hk. by rewrite note_runs.
    + simplify_eq. apply Hk. by rewrite note_runs.
  - destruct e; try done.
    assert (forall s, running s = running (svc y) -> run_entry (set_pc (WEnding jid) (set_svc s y))) as Hk.
    { intros s Hr. apply entry_kept; [done|by apply same_runs_kept|rewrite Hpc; by left]. }
    destruct fault; [simplify_eq; intros id Hid; by refine (Hk _ _ id Hid)|].
    destruct (FailOrRetry _ _ _ _ _) as [[[]|] t].
    + apply bind_next in Hs as (s & Hs & [= <-]). apply terminal_runs in Hs. by apply Hk.
    + apply bind_next in Hs as (s & Hs & [= <-]). apply publish_runs in Hs. by apply Hk.
    + simplify_eq. rewrite set_pc_svc. by apply Hk.
  - destruct e; try done. by simplify_eq.
Qed.

Lemma call_kept now c s c' s' : call_step now c s = Next (c', s') -> runs_kept s s'.
Proof.
  destruct c as [id|id|id run|id run]; cbn [call_step].
  - intros (s1 & H1 & [= _ <-])%bind_next. by apply same_runs_kept, (publish_runs _ _ _ _ H1).
  - destruct (running s !! id); intros [= _ <-]; [apply insert_kept|by intros k].
  - intros (s1 & H1 & [= _ <-])%bind_next. by apply same_runs_kept, (publish_runs _ _ _ _ H1).
  - intros (s1 & H1 & [= _ <-])%bind_next. by apply same_runs_kept, (publish_runs _ _ _ _ H1).
Qed.

Lemma submit_store_runs fault sub now s : running (Submit_store fault sub now s).2 = running s.
Proof. unfold Submit_store. destruct fault; [done|]. by destruct (JobStore.Submit _ _ _). Qed.

Lemma cancel_store_runs fault id now s : running (Cancel_store fault id now s).2 = running s.
Proof. unfold Cancel_store. destruct fault; [done|]. by destruct (JobStore.Cancel _ _ _). Qed.

Lemma result_runs f id now s : running (Result_ f id now s).2 = running s.
Proof.
  unfold Result_. destruct (if first_fails f then _ else _); [|done]. destruct (negb _); [done|]. by destruct (second_fails f).
Qed.

Ltac stream_step Hs He :=
  repeat (case_match; try done);
  first [apply bind_next in Hs as (? & _ & [= <-])|injection Hs as <-]; intros ? Hid; by apply He.

Lemma step_entry e y y' : run_entry y -> step e y = Next y' -> run_entry y'.
Proof.
  intros He Hs.
  assert ((if claimed (pc y) then job_step e y else loop_step e y) = Next y' -> run_entry y') as Hw.
  { destruct (claimed (pc y)); [by apply job_step_entry|]. intros H id Hid. exfalso. unfold loop_step in H.
    destruct (pc y), e; try done; next_step H; simpl in Hid; by repeat case_match. }
  assert (forall s, runs_kept (svc y) s -> run_entry (set_svc s y)) as Hc.
  { intros s Hk. rewrite set_svc_pc. apply entry_kept; [done|done|by left]. }
  destruct e; try (by apply Hw); clear Hw; cbn [step] in Hs.
  - by simplify_eq.
  - destruct (calls y !! k); [done|]. pose proof (submit_store_runs fault sub now (svc y)) as Hk.
    destruct (Submit_store _ _ _ _) as [[r c] s]. injection Hs as <-. by apply (Hc s), same_runs_kept.
  - destruct (calls y !! k); [done|]. pose proof (cancel_store_runs fault id now (svc y)) as Hk.
    destruct (Cancel_store _ _ _ _) as [[r c] s]. injection Hs as <-. by apply (Hc s), same_runs_kept.
  - destruct (calls y !! k) as [c|]; [|done]. apply bind_next in Hs as ([c' s] & Hs & [= <-]). by eapply (Hc s), call_kept.
  - simplify_eq. apply Hc, same_runs_kept, result_runs.
  - simplify_eq. apply Hc. by destruct fault; intros k.
  - repeat case_match; by simplify_eq.
  - stream_step Hs He.
  - stream_step Hs He.
  - stream_step Hs He.
Qed.

Lemma reachable_entry y : reachable step init y -> run_entry y.
Proof. apply reachable_inv; [|by intros; eapply step_entry]. by intros ? (cs & m0 & m & q & p & now & ->) id. Qed.

(** *** A run that is no longer watched is aborted *)

Definition facts_of (p : wpc) : option (string * facts) :=
  match p with WGenerating id _ f | WReturned id _ f _ => Some (id, f) | _ => None end.

Definition aborted (id : string) (s : service) : Prop := exists rs, running s !! id = Some rs /\ rs_canceled rs = true.

Definition aborts_kept (s s' : service) : Prop := forall id, aborted id s -> aborted id s'.

Definition unwatched (y : system) : Prop :=
  forall id f, facts_of (pc y) = Some (id, f) -> watching f = false -> shutdown y = true \/ aborted id (svc y).

Lemma same_aborts_kept s s' : running s' = running s -> aborts_kept s s'.
Proof. intros E id. unfold aborted. by rewrite E. Qed.

Lemma run_canceled_true id y : run_canceled id y = true <-> shutdown y = true \/ aborted id (svc y).
Proof.
  unfold run_canceled, aborted. rewrite orb_true_iff. split; (intros [?|H]; [by left|right]).
  - destruct (running (svc y) !! id) as [rs|]; [by exists rs|done].
  - by destruct H as (rs & -> & ->).
Qed.

Lemma insert_aborts id rs s : (aborted id s -> rs_canceled rs = true) -> aborts_kept s (set_runs (<[id := rs]> (running s)) s).
Proof.
  intros H k Hk. unfold aborted in *. cbn [running set_runs]. destruct (decide (k = id)) as [->|].
  - rewrite lookup_insert_eq. exists rs. auto.
  - by rewrite lookup_insert_ne.
Qed.

Lemma cancel_run_aborts id s : aborts_kept s (cancel_run id s) /\ (is_Some (running s !! id) -> aborted id (cancel_run id s)).
Proof.
  unfold cancel_run. destruct (running s !! id) as [rs|]; [|by split; [intros k|intros [? ?]]]. split.
  - by apply insert_aborts.
  - intros _. eexists. cbn [running set_runs]. by rewrite lookup_insert_eq.
Qed.

Lemma call_aborts now c s c' s' : call_step now c s = Next (c', s') -> aborts_kept s s'.
Proof.
  destruct c as [id|id|id run|id run]; cbn [call_step].
  2: { destruct (running s !! id) as [rs|]; intros [= _ <-]; [by apply insert_aborts|by intros k]. }
  all: intros (s1 & H1 & [= _ <-])%bind_next; by apply same_aborts_kept, (publish_runs _ _ _ _ H1).
Qed.

Lemma unwatched_kept y p s : unwatched y -> aborts_kept (svc y) s -> facts_of p = facts_of (pc y) \/ facts_of p = None ->
  unwatched (set_pc p (set_svc s y)).
Proof.
  intros Hu Hk [Hp|Hp] id f Hf Hw; cbn [pc set_pc] in Hf; [|congruence]. rewrite Hp in Hf.
  destruct (Hu id f Hf Hw); [by left|right]. by apply Hk.
Qed.

Lemma monitor_aborts e id f y f' s : run_entry y -> open_run (pc y) = Some id -> unwatched y -> facts_of (pc y) = Some (id, f) ->
  monitor e id f y = Next (f', s) ->
  aborts_kept (svc y) s /\ (watching f' = false -> shutdown y = true \/ aborted id s).
Proof.
  intros He Ho Hu Hf. destruct (cancel_run_aborts id (svc y)) as [Hk Ha]. specialize (Ha (He id Ho)).
  unfold monitor. destruct (negb (watching f)) eqn:Hw; [done|]. destruct e; try done.
  - intros [= <- <-]. auto.
  - destruct (shouldPreempt _ _ _ _); intros [= <- <-]; [auto|]. split; [by intros k|]. by destruct (watching f).
  - destruct (run_canceled id y) eqn:E; [|done]. apply run_canceled_true in E. intros [= <- <-]. split; [by intros k|done].
Qed.

Lemma job_step_unwatched e y y' : run_entry y -> unwatched y -> job_step e y = Next y' -> unwatched y'.
Proof.
  intros He Hu Hs.
  assert (forall p s id f f', facts_of (pc y) = Some (id, f) -> open_run (pc y) = Some id -> facts_of p = Some (id, f') ->
    monitor e id f y = Next (f', s) -> unwatched (set_pc p (set_svc s y))) as Hmon.
  { intros p s id f f' Hf Ho Hp Hm id' f2 Hf2 Hw. cbn [pc set_pc] in Hf2. rewrite Hp in Hf2. injection Hf2 as <- <-.
    destruct (monitor_aborts _ _ _ _ _ _ He Ho Hu Hf Hm) as [_ H]. by destruct (H Hw); [left|right]. }
  assert (forall p s, facts_of p = None -> unwatched (set_pc p s)) as Hout by (intros p s Hp id f Hf; cbn in Hf; congruence).
  unfold job_step in Hs. destruct (pc y) as [| | | | | | |jid|jid st|jid st f|jid st f res|jid st tally|jid msg st|jid|ran|] eqn:Hpc; try done.
  - destruct e; next_step Hs; by apply Hout.
  - destruct e; next_step Hs; intros id f Hf Hw; cbn in Hf; by injection Hf as <- <-.
  - destruct e; try (apply bind_next in Hs as ([f1 s1] & Hm & [= <-]); by eapply Hmon).
    + apply bind_next in Hs as (s & Hs & [= <-]). rewrite set_svc_pc. apply unwatched_kept; [done| |by left].
      unfold reportTokens in Hs. destruct (running (svc y) !! jid) as [rs|] eqn:Hr; [|done]. apply publish_runs in Hs.
      intros k Hk. unfold aborted. rewrite Hs. apply (insert_aborts jid (RunState (startedAt rs) n (rs_canceled rs)) (svc y)); [|done].
      intros (rs' & Hr' & Hc). simpl. congruence.
    + simplify_eq. rewrite set_pc_svc. apply unwatched_kept; [done|by intros k|rewrite Hpc; by left].
  - assert (('(f', s') ← monitor e jid f y; Next (set_pc (WReturned jid st f' res) (set_svc s' y))) = Next y' -> unwatched y') as Hm.
    { intros ([f' s] & Hm & [= <-])%bind_next. by eapply Hmon. }
    destruct res as [text|msg], e; try (by apply Hm); next_step Hs; by apply Hout.
  - destruct e; next_step Hs; by apply Hout.
  - destruct e; next_step Hs; by apply Hout.
  - destruct e; next_step Hs; by apply Hout.
Qed.

Lemma step_unwatched e y y' : run_entry y -> unwatched y -> step e y = Next y' -> unwatched y'.
Proof.
  intros He Hu Hs.
  assert ((if claimed (pc y) then job_step e y else loop_step e y) = Next y' -> unwatched y') as Hw.
  { destruct (claimed (pc y)); [by apply job_step_unwatched|]. intros H id f Hf. exfalso. unfold loop_step in H.
    destruct (pc y), e; try done; next_step H; simpl in Hf; by repeat case_match. }
  assert (forall s, aborts_kept (svc y) s -> unwatched (set_svc s y)) as Hc.
  { intros s Hk. rewrite set_svc_pc. apply unwatched_kept; [done|done|by left]. }
  destruct e; try (by apply Hw); clear Hw; cbn [step] in Hs.
  - simplify_eq. intros id f Hf Hw. by left.
  - destruct (calls y !! k); [done|]. pose proof (submit_store_runs fault sub now (svc y)) as Hk.
    destruct (Submit_store _ _ _ _) as [[r c] s]. injection Hs as <-. by apply (Hc s), same_aborts_kept.
  - destruct (calls y !! k); [done|]. pose proof (cancel_store_runs fault id now (svc y)) as Hk.
    destruct (Cancel_store _ _ _ _) as [[r c] s]. injection Hs as <-. by apply (Hc s), same_aborts_kept.
  - destruct (calls y !! k) as [c|]; [|done]. apply bind_next in Hs as ([c' s] & Hs & [= <-]). by eapply (Hc s), call_aborts.
  - simplify_eq. apply Hc, same_aborts_kept, result_runs.
  - simplify_eq. apply Hc. by destruct fault; intros k.
  - repeat case_match; by simplify_eq.
  - stream_step Hs Hu.
  - stream_step Hs Hu.
  - stream_step Hs Hu.
Qed.

Lemma reachable_unwatched y : reachable step init y -> unwatched y.
Proof.
  intros Hr. enough (run_entry y /\ unwatched y) by tauto. revert y Hr. apply reachable_inv.
  - intros ? (cs & m0 & m & q & p & now & ->). by split; intros ?.
  - intros y e y' [He Hu] Hs. split; [by eapply step_entry|by eapply step_unwatched].
Qed.

(** ** Stopping *)

(** The events of the worker's own goroutine. *)
Definition own (e : event) : bool :=
  match e with
  | ETop | EYield _ | EPeek _ | EWake | EStop | EAcquired _ | ERecheck _ | EClaim _ _ | EStartRun _ | EBind _
  | EGenerated _ | ESucceed _ _ | EClassify _ _ | ERequeue _ _ | EFail _ _ | EEnd | ERelease => true
  | _ => false
  end.

(** How far the worker is from stopping once its context is done. *)
Definition work (p : wpc) : nat :=
  match p with
  | WStopped => 0
  | WLoop => 1
  | WSleeping => 2
  | WReleasing _ => 3
  | WEnding _ => 4
  | WRequeue _ _ _ | WFail _ _ _ => 5
  | WReturned _ _ _ _ => 6
  | WGenerating _ _ _ => 7
  | WStarted _ _ => 8
  | WClaimed _ => 9
  | WCleared => 10
  | WAcquired => 11
  | WAsking => 12
  | WPeeking => 13
  | WChecked => 14
  end.

Lemma monitor_disabled e id f y : own e = true -> monitor e id f y = Disabled.
Proof. unfold monitor. destruct (negb _); [done|]. by destruct e. Qed.

Lemma job_step_work e y y' : job_step e y = Next y' ->
  shutdown y' = shutdown y /\ if own e then (work (pc y') < work (pc y))%nat else work (pc y') = work (pc y).
Proof.
  intros Hs. unfold job_step in Hs. destruct (pc y) as [| | | | | | |jid|jid st|jid st f|jid st f res|jid st tally|jid msg st|jid|ran|] eqn:Hpc; try done.
  - destruct e; next_step Hs. simpl. rewrite ?Hpc. simpl. auto with lia.
  - destruct e; next_step Hs. simpl. auto with lia.
  - destruct (own e) eqn:Ho.
    + destruct e; try done; try (rewrite monitor_disabled in Hs by done; done). simplify_eq. simpl. auto with lia.
    + destruct e; try done; apply bind_next in Hs as (z & _ & Hs); try destruct z; simplify_eq; simpl; rewrite ?Hpc; done.
  - assert (own e = false -> ('(f', s') ← monitor e jid f y; Next (set_pc (WReturned jid st f' res) (set_svc s' y))) = Next y' ->
      shutdown y' = shutdown y /\ work (pc y') = 6%nat) as Hm.
    { intros _ Hm. apply bind_next in Hm as ([f' s'] & _ & Hm). by simplify_eq. }
    destruct (own e) eqn:Ho.
    + destruct res, e; try done; try (rewrite monitor_disabled in Hs by done; done); next_step Hs; simpl; auto with lia.
    + destruct res, e; try done; by apply Hm.
  - destruct e; next_step Hs; simpl; auto with lia.
  - destruct e; next_step Hs; simpl; auto with lia.
  - destruct e; next_step Hs. simpl. auto with lia.
Qed.

Lemma loop_step_work e y y' : loop_step e y = Next y' -> shutdown y' = shutdown y /\ own e = true /\
  (shutdown y = true -> (work (pc y') < work (pc y))%nat).
Proof.
  intros Hs. unfold loop_step in Hs. destruct (pc y) eqn:Hpc; try done; destruct e; try done; next_step Hs;
    simpl; (split; [done|]); (split; [done|]); intros Hd; rewrite ?Hd; repeat case_match; simpl; auto with lia; congruence.
Qed.

(** Once the context is done every step of the goroutine brings it nearer to its
    end, and nobody else moves it. *)
Lemma step_work e y y' : step e y = Next y' ->
  (shutdown y = true -> shutdown y' = true) /\
  if own e then shutdown y = true -> (work (pc y') < work (pc y))%nat else work (pc y') = work (pc y).
Proof.
  intros Hs.
  assert ((if claimed (pc y) then job_step e y else loop_step e y) = Next y' ->
    (shutdown y = true -> shutdown y' = true) /\
    if own e then shutdown y = true -> (work (pc y') < work (pc y))%nat else work (pc y') = work (pc y)) as Hw.
  { destruct (claimed (pc y)).
    - intros H. apply job_step_work in H as [-> H]. split; [done|]. by destruct (own e).
    - intros H. apply loop_step_work in H as (-> & -> & H). done. }
  destruct e; try (by apply Hw); clear Hw; simpl in Hs; try (apply bind_next in Hs as ([? ?] & _ & Hs)); simplify_eq; try done;
    next_step Hs.
Qed.

(** ** Where the steps lead *)

(** Between [ServeContext] and the last look at it. *)
Definition runs (p : wpc) : bool := match p with WGenerating _ _ _ | WReturned _ _ _ _ => true | _ => false end.

Definition moves (e : event) (p p' : wpc) : Prop :=
  match e with
  | EAcquired granted => p = WAsking /\ p' = if granted then WAcquired else WSleeping
  | ERelease => exists ran, p = WReleasing ran /\ p' = if ran then WLoop else WSleeping
  | EBind _ => holding p = true /\ holding p' = true
  | EEnd => holding p = true /\ holding p' = true /\ runs p' = false
  | _ => holding p' = holding p /\ (p = WAsking -> p' = WAsking) /\ (runs p' = true -> runs p = true)
  end.

Lemma moves_refl e p : match e with EAcquired _ | ERelease | EBind _ | EEnd => False | _ => True end -> moves e p p.
Proof. by destruct e. Qed.

Lemma job_step_moves e y y' : job_step e y = Next y' -> moves e (pc y) (pc y').
Proof.
  intros Hs. unfold job_step in Hs. destruct (pc y) as [| | | | | | |jid|jid st|jid st f|jid st f res|jid st tally|jid msg st|jid|ran|] eqn:Hpc; try done.
  - destruct e; next_step Hs.
  - destruct e; next_step Hs.
  - destruct (own e) eqn:Ho.
    + destruct e; try done; try (rewrite monitor_disabled in Hs by done; done). by simplify_eq.
    + destruct e; try done; apply bind_next in Hs as (z & _ & Hs); try destruct z; simplify_eq; simpl; rewrite ?Hpc; done.
  - assert (own e = false -> ('(f', s') ← monitor e jid f y; Next (set_pc (WReturned jid st f' res) (set_svc s' y))) = Next y' ->
      exists f', pc y' = WReturned jid st f' res) as Hm.
    { intros _ Hm. apply bind_next in Hm as ([f' s'] & _ & Hm). simplify_eq. by exists f'. }
    destruct (own e) eqn:Ho.
    + destruct res, e; try done; try (rewrite monitor_disabled in Hs by done; done); next_step Hs.
    + destruct res, e; try done; by destruct (Hm eq_refl Hs) as [f' ->].
  - destruct e; next_step Hs.
  - destruct e; next_step Hs.
  - destruct e; next_step Hs.
Qed.

Lemma loop_step_moves e y y' : loop_step e y = Next y' -> moves e (pc y) (pc y').
Proof.
  intros Hs. unfold loop_step in Hs. destruct (pc y) eqn:Hpc; try done; destruct e; try done; next_step Hs;
    simpl; eauto; repeat case_match; done.
Qed.

Lemma step_moves e y y' : step e y = Next y' -> moves e (pc y) (pc y').
Proof.
  intros Hs.
  assert ((if claimed (pc y) then job_step e y else loop_step e y) = Next y' -> moves e (pc y) (pc y')) as Hw.
  { destruct (claimed (pc y)); [apply job_step_moves|apply loop_step_moves]. }
  destruct e; try (by apply Hw); clear Hw; simpl in Hs; try (apply bind_next in Hs as ([? ?] & _ & Hs)); simplify_eq; try done;
    next_step Hs.
Qed.

(** The next step of the goroutine where nobody else decides it. *)
Definition next_own (yielding closed : bool) (p : wpc) : event :=
  match p with
  | WLoop => ETop
  | WChecked => EYield yielding
  | WPeeking => EPeek false
  | WSleeping => EStop
  | WAsking => EAcquired false
  | WAcquired => ERecheck yielding
  | WCleared => EClaim false 0
  | WClaimed _ => EStartRun 0
  | WStarted _ _ => EBind 0
  | WGenerating _ _ _ => EGenerated (Err "context canceled")
  | WReturned _ _ _ (Ok _) => ESucceed false 0
  | WReturned _ _ _ (Err _) => EClassify false closed
  | WRequeue _ _ _ => ERequeue false 0
  | WFail _ _ _ => EFail false 0
  | WEnding _ => EEnd
  | WReleasing _ => ERelease
  | WStopped => EWake
  end.

(** After a shutdown the goroutine is never stuck. *)
Lemma next_own_enabled b1 b2 y : inv y -> shutdown y = true -> pc y <> WStopped ->
  exists y', step (next_own b1 b2 (pc y)) y = Next y'.
Proof.
  intros Hi Hsd Hp. pose proof (inv_bus _ Hi) as Hb.
  destruct (pc y) as [| | | | | | |jid|jid st|jid st f|jid st f [text|msg]|jid st tally|jid msg st|jid|ran|] eqn:Hpc; try done;
    cbn [next_own step]; rewrite Hpc; cbn [claimed]; unfold job_step, loop_step; rewrite Hpc; try (eexists; reflexivity).
  - rewrite Hsd. by eexists.
  - destruct (ClaimNext 0 (tbl (svc y))) as [[j|er] t]; by eexists.
  - unfold startRun. match goal with |- context [bus_publish ?i ?ev ?s] => destruct (bus_publish_spec i ev s Hb) as (b & -> & _) end.
    by eexists.
  - destruct (Succeed jid text 0 (tbl (svc y))) as [[?|er] t]; [|by eexists].
    destruct (publishTerminal_spec jid StateSucceeded (set_tbl t (svc y)) Hb) as (b & -> & _). by eexists.
  - repeat case_match; by eexists.
  - destruct (Preempt jid (tbl (svc y))) as [[?|er] t]; [|by eexists].
    destruct (bus_publish_spec jid (state_event StateQueued) (set_tbl t (svc y)) Hb) as (b & -> & _). by eexists.
  - destruct (FailOrRetry jid msg (maxAttempts (svc y)) 0 (tbl (svc y))) as [[[]|er] t]; [| |by eexists].
    + destruct (publishTerminal_spec jid StateFailed (set_tbl t (svc y)) Hb) as (b & -> & _). by eexists.
    + destruct (bus_publish_spec jid (state_event StateQueued) (set_tbl t (svc y)) Hb) as (b & -> & _). by eexists.
Qed.

Lemma next_own_own b1 b2 p : p <> WStopped -> own (next_own b1 b2 p) = true.
Proof. destruct p as [| | | | | | | | | |? ? ? []| | | | |]; done. Qed.

(** Who sets the flag of an interactive preemption. *)
Lemma monitor_sets e id f y f' s : monitor e id f y = Next (f', s) -> preempted f = false -> preempted f' = true ->
  exists interactive now, e = EMonitor interactive now /\ shouldPreempt (wcfg y) (since f) now interactive = true.
Proof.
  unfold monitor. destruct (negb _); [done|]. destruct e; try done.
  - intros [= <- <-] Hf. simpl. congruence.
  - destruct (shouldPreempt _ _ _ _) eqn:E; intros [= <- <-] Hf Hp; [eauto|congruence].
  - destruct (run_canceled _ _); [|done]. intros [= <- <-] Hf. simpl. congruence.
Qed.

Lemma generating_sets e y y' id start f f' : pc y = WGenerating id start f -> step e y = Next y' ->
  pc y' = WGenerating id start f' -> preempted f = false -> preempted f' = true ->
  exists interactive now, e = EMonitor interactive now /\ shouldPreempt (wcfg y) (since f) now interactive = true.
Proof.
  intros Hp Hs Hp' Hf Hf'.
  assert ((if claimed (pc y) then job_step e y else loop_step e y) = Next y' ->
    exists interactive now, e = EMonitor interactive now /\ shouldPreempt (wcfg y) (since f) now interactive = true) as Hw.
  { rewrite Hp. cbn [claimed]. unfold job_step. rewrite Hp. intros H.
    destruct e; try (apply bind_next in H as ([f1 s1] & Hm & [= <-]); simpl in Hp'; injection Hp' as <-; by eapply monitor_sets).
    - apply bind_next in H as (s1 & _ & [= <-]). simpl in Hp'. congruence.
    - injection H as <-. done. }
  assert (pc y' = pc y -> exists interactive now, e = EMonitor interactive now /\
    shouldPreempt (wcfg y) (since f) now interactive = true) as Hsame by (intros E; congruence).
  destruct e; try (by apply Hw); clear Hw; apply Hsame; simpl in Hs; try (apply bind_next in Hs as ([? ?] & _ & Hs)); simplify_eq; try done;
    next_step Hs.
Qed.

(** A run is charged an attempt only where nothing interrupted it. *)
Lemma charged e y y' id msg start : step e y = Next y' -> pc y' = WFail id msg start ->
  pc y = WFail id msg start \/
  exists f fault, pc y = WReturned id start f (Err msg) /\ e = EClassify fault false /\ shutdown y = false /\ preempted f = false.
Proof.
  intros Hs Hp.
  assert ((if claimed (pc y) then job_step e y else loop_step e y) = Next y' -> pc y = WFail id msg start \/
    exists f fault, pc y = WReturned id start f (Err msg) /\ e = EClassify fault false /\ shutdown y = false /\ preempted f = false) as Hw.
  { destruct (claimed (pc y)); intros H.
    2: { exfalso. unfold loop_step in H. destruct (pc y), e; try done; next_step H; simpl in Hp; by repeat case_match. }
    unfold job_step in H. destruct (pc y) as [| | | | | | |jid|jid st|jid st f|jid st f res|jid st tally|jid m st|jid|ran|] eqn:Hpc; try done.
    - destruct e; next_step H.
    - destruct e; next_step H.
    - destruct e; try (apply bind_next in H as ([f1 s1] & _ & [= <-]); simpl in Hp; congruence); next_step H; simpl in *; congruence.
    - destruct res as [text|m], e;
        try (apply bind_next in H as ([f1 s1] & _ & [= <-]); simpl in Hp; congruence); next_step H; simpl in *; simplify_eq.
      right. by exists f, fault.
    - destruct e; next_step H.
    - destruct e; next_step H.
    - destruct e; next_step H. }
  assert (pc y' = pc y -> pc y = WFail id msg start) as Hsame by congruence.
  destruct e; try (by apply Hw); clear Hw; left; apply Hsame; simpl in Hs; try (apply bind_next in Hs as ([? ?] & _ & Hs)); simplify_eq; try done;
    next_step Hs.
Qed.

(** ** Attempts *)

(** Every row of [t'] that was in [t] has as many attempts as it had. *)
Definition alike (t t' : list Job) : Prop :=
  forall j', j' ∈ t' -> ID j' ∈ ID <$> t -> exists j, j ∈ t /\ ID j = ID j' /\ Attempts j = Attempts j'.

Lemma alike_refl t : alike t t.
Proof. intros j Hj _. by exists j. Qed.

Lemma elem_of_update p f t j : j ∈ update p f t -> exists x, x ∈ t /\ (p x = true /\ j = f x \/ p x = false /\ j = x).
Proof.
  intros (x & <- & Hx%list_elem_of_In)%list_elem_of_In%in_map_iff. exists x. split; [done|]. destruct (p x); auto.
Qed.

Lemma update_alike p f t : (forall j, ID (f j) = ID j /\ Attempts (f j) = Attempts j) -> alike t (update p f t).
Proof.
  intros Hf j Hj _. unfold update in Hj. apply list_elem_of_In, in_map_iff in Hj as (x & <- & Hx%list_elem_of_In).
  exists x. split; [done|]. destruct (p x); [|done]. by destruct (Hf x) as [-> ->].
Qed.

Lemma where_alike p t : alike t (where_ p t).
Proof. intros j [_ Hj]%elem_of_where _. by exists j. Qed.

Lemma submit_alike fault sub now s : alike (tbl s) (tbl (Submit_store fault sub now s).2).
Proof.
  unfold Submit_store. destruct fault; [apply alike_refl|]. unfold JobStore.Submit.
  destruct (scanOne _); simpl; [apply alike_refl|]. destruct (existsb _ _) eqn:He; simpl; [apply alike_refl|].
  intros j' [Hj|Hj%list_elem_of_singleton]%elem_of_app Hid; [by exists j'|]. exfalso. subst j'.
  apply list_elem_of_fmap in Hid as (r & E & Hr). cbn in E.
  assert (existsb (by_id (s_id sub)) (tbl s) = true); [|congruence].
  apply existsb_exists. exists r. split; [by apply list_elem_of_In|]. by apply by_id_true.
Qed.

Lemma cancel_alike fault id now s : alike (tbl s) (tbl (Cancel_store fault id now s).2).
Proof.
  unfold Cancel_store. destruct fault; [apply alike_refl|]. unfold JobStore.Cancel.
  destruct (JobStore.Get _ _); simpl; [|apply alike_refl]. destruct (Terminal _); simpl; [apply alike_refl|].
  by apply update_alike.
Qed.

Lemma result_alike f id now s : alike (tbl s) (tbl (Result_ f id now s).2).
Proof.
  unfold Result_. destruct (if first_fails f then _ else _); [|apply alike_refl]. destruct (negb _); [apply alike_refl|].
  destruct (second_fails f); [apply alike_refl|]. by apply update_alike.
Qed.

Lemma claim_alike now t : alike t (ClaimNext now t).2.
Proof. unfold ClaimNext. destruct (scanOne _); simpl; [by apply update_alike|apply alike_refl]. Qed.

Lemma publish_tbl id ev s s' : bus_publish id ev s = Next s' -> tbl s' = tbl s.
Proof. unfold bus_publish. destruct (publish _ _ _); try done. by intros [= <-]. Qed.

Lemma terminal_tbl id st s s' : publishTerminal id st s = Next s' -> tbl s' = tbl s.
Proof. intros (s1 & H1 & H2)%bind_next. apply publish_tbl in H1, H2. congruence. Qed.

Lemma call_tbl now c s c' s' : call_step now c s = Next (c', s') -> tbl s' = tbl s.
Proof.
  destruct c; cbn [call_step]; [|destruct (running s !! id); by intros [= _ <-]|..];
    by intros (s1 & H1%publish_tbl & [= _ <-])%bind_next.
Qed.

(** The step that charges an attempt. *)
Definition charges (e : event) (y y' : system) : Prop :=
  exists id msg start now, e = EFail false now /\ pc y = WFail id msg start /\
    tbl (svc y') = (FailOrRetry id msg (maxAttempts (svc y)) now (tbl (svc y))).2.

Ltac still := simplify_eq; try apply alike_refl.

Lemma job_step_alike e y y' : job_step e y = Next y' -> alike (tbl (svc y)) (tbl (svc y')) \/ charges e y y'.
Proof.
  intros Hs.
  assert (tbl (svc y') = tbl (svc y) -> alike (tbl (svc y)) (tbl (svc y'))) as Hsame by (intros ->; apply alike_refl).
  assert (forall id f k, ('(f', s') ← monitor e id f y; Next (set_pc (k f') (set_svc s' y))) = Next y' ->
    alike (tbl (svc y)) (tbl (svc y'))) as Hmon.
  { intros id f k ([f1 s1] & Hm & [= <-])%bind_next. apply Hsame. by apply monitor_fields in Hm as [? _]. }
  unfold job_step in Hs. destruct (pc y) as [| | | | | | |jid|jid st|jid st f|jid st f res|jid st tally|jid msg st|jid|ran|] eqn:Hpc; try done.
  - left. destruct e; try done. apply bind_next in Hs as (s & Hs%publish_tbl & [= <-]). by apply Hsame.
  - left. destruct e; try done. by still.
  - left. destruct e; try (by apply (Hmon jid f (WGenerating jid st))).
    + apply bind_next in Hs as (s & Hs & [= <-]). apply Hsame. unfold reportTokens in Hs.
      destruct (running (svc y) !! jid); [|done]. by apply publish_tbl in Hs.
    + by still.
  - left. destruct res as [text|msg], e; try (by apply (Hmon jid f (fun f => WReturned jid st f _)));
      try (by eapply (Hmon jid f (fun f => WReturned jid st f _))).
    + destruct fault; [by still|]. destruct (Succeed _ _ _ _) as [[|] t] eqn:Hsu.
      * apply bind_next in Hs as (s & Hs%terminal_tbl & [= <-]). cbn. rewrite Hs. cbn.
        replace t with (Succeed jid text now (tbl (svc y))).2 by (by rewrite Hsu). by apply update_alike.
      * by still.
    + repeat case_match; by still.
  - left. destruct e; try done. destruct fault; [simplify_eq; apply Hsame; by destruct tally|].
    destruct (Preempt _ _) as [[|] t] eqn:Hpr.
    + apply bind_next in Hs as (s & Hs%publish_tbl & [= <-]).
      assert (tbl (if tally then recordJob "preempted" (run_time st now) s else s) = t) as E by (by destruct tally).
      cbn. rewrite E. replace t with (Preempt jid (tbl (svc y))).2 by (by rewrite Hpr). by apply update_alike.
    + simplify_eq. apply Hsame. by destruct tally.
  - destruct e; try done. destruct fault; [left; by still|]. right.
    exists jid, msg, st, now. split; [done|]. split; [done|].
    pose proof (fail_err jid msg (maxAttempts (svc y)) now (tbl (svc y))) as Hf.
    destruct (FailOrRetry _ _ _ _ _) as [[[]|er] t] eqn:E; cbn [snd fst] in *.
    + by apply bind_next in Hs as (s & Hs%terminal_tbl & [= <-]).
    + by apply bind_next in Hs as (s & Hs%publish_tbl & [= <-]).
    + simplify_eq. by rewrite (Hf er).
  - left. destruct e; try done. by still.
Qed.

Lemma step_alike e y y' : step e y = Next y' -> alike (tbl (svc y)) (tbl (svc y')) \/ charges e y y'.
Proof.
  intros Hs.
  assert (tbl (svc y') = tbl (svc y) -> alike (tbl (svc y)) (tbl (svc y'))) as Hsame by (intros ->; apply alike_refl).
  assert ((if claimed (pc y) then job_step e y else loop_step e y) = Next y' -> alike (tbl (svc y)) (tbl (svc y')) \/ charges e y y') as Hw.
  { destruct (claimed (pc y)); [apply job_step_alike|]. intros H. left. unfold loop_step in H.
    destruct (pc y), e; try done; try (repeat (case_match; try done); simplify_eq; by apply Hsame).
    destruct fault; [by still|]. pose proof (claim_alike now (tbl (svc y))) as Hc.
    destruct (ClaimNext _ _) as [[|] t]; by still. }
  destruct e; try (by apply Hw); clear Hw; left; cbn [step] in Hs.
  - by still.
  - destruct (calls y !! k); [done|]. pose proof (submit_alike fault sub now (svc y)) as Ha.
    destruct (Submit_store _ _ _ _) as [[r c] s]. by still.
  - destruct (calls y !! k); [done|]. pose proof (cancel_alike fault id now (svc y)) as Ha.
    destruct (Cancel_store _ _ _ _) as [[r c] s]. by still.
  - destruct (calls y !! k) as [c|]; [|done]. apply bind_next in Hs as ([c' s] & Hs%call_tbl & [= <-]). by apply Hsame.
  - simplify_eq. apply result_alike.
  - simplify_eq. destruct fault; [apply alike_refl|apply where_alike].
  - repeat case_match; by still.
  - apply Hsame. repeat (case_match; try done); first [apply bind_next in Hs as (? & _ & [= <-])|injection Hs as <-]; done.
  - apply Hsame. repeat (case_match; try done); first [apply bind_next in Hs as (? & _ & [= <-])|injection Hs as <-]; done.
  - apply Hsame. repeat (case_match; try done); first [apply bind_next in Hs as (? & _ & [= <-])|injection Hs as <-]; done.
Qed.

(** A row whose attempts change is that of the job the worker gives up on, and pays
    one. *)
Lemma charge_one e y y' id j j' : inv y -> step e y = Next y' ->
  find_job id (tbl (svc y)) = Some j -> find_job id (tbl (svc y')) = Some j' -> Attempts j' <> Attempts j ->
  exists msg start now, e = EFail false now /\ pc y = WFail id msg start /\ Attempts j' = Attempts j + 1.
Proof.
  intros Hi Hs Hj Hj' Hne. pose proof (step_safe e y Hi) as Hi'. rewrite Hs in Hi'.
  pose proof (wf_ids _ (inv_wf _ Hi)) as Hn. pose proof (wf_ids _ (inv_wf _ Hi')) as Hn'.
  pose proof (find_by_id id _ Hn) as F. rewrite Hj in F. destruct F as (Hw & Hin & Hid).
  pose proof (find_by_id id _ Hn') as F'. rewrite Hj' in F'. destruct F' as (_ & Hin' & Hid').
  destruct (step_alike _ _ _ Hs) as [Ha|(id2 & msg & start & now & -> & Hpc & Ht)].
  { destruct (Ha j' Hin') as (r & Hr & Er & Ea).
    - apply list_elem_of_fmap. exists j. by rewrite Hid, Hid'.
    - assert (r = j) as -> by (eapply (NoDup_map_inj ID); [exact Hn|done..|congruence]). congruence. }
  exists msg, start, now. split; [done|]. rewrite Hpc. rewrite Ht in Hin'. unfold FailOrRetry, scanOne in Hin'.
  destruct (decide (id2 = id)) as [->|Hd].
  - split; [done|]. rewrite Hw in Hin'. destruct (row_split _ _ Hn Hin) as (t1 & t2 & Hat).
    assert (forall j2, ID j2 = ID j -> j' ∈ t1 ++ j2 :: t2 -> j' = j2) as Hrow.
    { intros j2 E [H|[->|H]%elem_of_cons]%elem_of_app; [|done|]; destruct Hat as [Hr];
        (destruct (Hr j'); [set_solver|congruence]). }
    destruct (negb _); [exfalso; apply Hne; f_equal; eapply (NoDup_map_inj ID); [exact Hn|done..|congruence]|].
    subst id. destruct (_ <=? _); cbn [snd] in Hin'; rewrite (update_row _ _ _ _ _ Hat) in Hin';
      apply Hrow in Hin' as ->; done.
  - exfalso. apply Hne.
    assert (j' ∈ tbl (svc y)) as Hold.
    { destruct (where_ (by_id id2) (tbl (svc y))) as [|r ?]; [done|]. destruct (negb _); [done|].
      destruct (_ <=? _); cbn [snd] in Hin'; apply elem_of_update in Hin' as (x & Hx & [[E ->]|[_ ->]]);
        [|done| |done]; exfalso; apply by_id_true in E; apply Hd; cbn in Hid'; congruence. }
    assert (j' = j) as -> by (eapply (NoDup_map_inj ID); [exact Hn|done..|congruence]). done.
Qed.

(** ** Properties *)

(** C8: a job is only [RUNNING] while the worker holds the GPU slot for it, in
    every interleaving of the worker with clients, preemption, faults and
    shutdown; the exceptions are jobs whose final write the store refused. *)
Theorem running_has_slot y j :
  reachable step init y -> j ∈ tbl (svc y) -> JobState j = StateRunning ->
  (slot y = true /\ current (pc y) = Some (ID j)) \/ ID j ∈ orphans y.
Proof.
  intros Hr Hj Hs. destruct (reachable_service_inv _ Hr) as [_ Hsl _ Hrun].
  destruct (Hrun _ Hj Hs) as [Hc|?]; [left|by right]. split; [|done].
  rewrite Hsl. by destruct (pc y).
Qed.

(** Nothing the service, the worker or the streams do panics: no event is
    sent on, and no close hits, a channel that is already closed. *)
Theorem service_never_panics y e : reachable step init y -> step e y <> Panic.
Proof.
  intros Hr Hp. pose proof (step_safe e y (reachable_service_inv _ Hr)) as Hs. by rewrite Hp in Hs.
Qed.

(** C39: How an aborted generation is classified: a cancelled job is left alone;
    an interrupted one (shutdown, gaming/Plex, interactive preemption) goes back
    to the front of the line with its attempts untouched; only otherwise does it
    cost an attempt, and the last one fails the job. *)
Theorem aborted_run_classified y id start f msg j closed now :
  reachable step init y -> pc y = WReturned id start f (Err msg) ->
  find_job id (tbl (svc y)) = Some j ->
  let t := tbl (svc y) in
  let m := maxAttempts (svc y) in
  let interrupted := shutdown y || closed || preempted f in
  (JobState j = StateCanceled ->
   exists y', step (EClassify false closed) y = Next y' /\ pc y' = WEnding id /\ tbl (svc y') = t) /\
  (JobState j = StateRunning ->
   exists y', run_events step [EClassify false closed; (if interrupted then ERequeue false now else EFail false now)] y
                = Next y' /\ pc y' = WEnding id /\
     find_job id (tbl (svc y')) =
       Some (if interrupted then set_preempted (front_hint t) j
             else if m <=? Attempts j + 1 then set_failed (Attempts j + 1) msg now j
             else set_retried (Attempts j + 1) msg (front_hint t) j)).
Proof.
  intros Hr Hpc Hf t m interrupted. change (find_job id t = Some j) in Hf. destruct (reachable_service_inv _ Hr) as [Hb _ Hw _].
  assert (Hcan : isCanceled id (svc y) = is_state StateCanceled j) by (unfold isCanceled; rewrite (Get_find _ _ Hw); fold t; by rewrite Hf).
  split; intros Hs.
  - eexists. cbn [step]. rewrite Hpc. cbn [claimed]. unfold job_step. rewrite Hpc, Hcan, (proj2 (is_state_true _ _)) by done. by repeat split.
  - assert (Hcls : step (EClassify false closed) y = Next (set_pc
        (if interrupted then WRequeue id start (negb (shutdown y)) else WFail id msg start) y)).
    { cbn [step]. rewrite Hpc. cbn [claimed]. unfold job_step. rewrite Hpc, Hcan, (proj2 (is_state_false _ _)) by congruence.
      unfold interrupted. by destruct (shutdown y), closed, (preempted f). }
    cbn [run_events]. rewrite Hcls. clear Hcls. destruct interrupted.
    + cbn -[Preempt bus_publish]. unfold Preempt. fold t.
      destruct (guarded_update id (set_preempted (front_hint t)) t j Hw Hf Hs) as [E1 E2]; [done|].
      destruct (mustAffect _ _ _) as [r t'] eqn:Hm. simpl in E1, E2. subst r.
      destruct (bus_publish_spec id (state_event StateQueued) (set_tbl t' (svc y)) Hb) as (b & Hbp & _).
      rewrite Hbp. eexists. split; [done|]. split; [done|]. simpl. by destruct (negb (shutdown y)).
    + cbn -[FailOrRetry bus_publish publishTerminal]. fold t m.
      pose proof (find_by_id id t (wf_ids _ Hw)) as Hfi. rewrite Hf in Hfi. destruct Hfi as (Hwh & Hj & <-).
      destruct (row_split _ _ (wf_ids _ Hw) Hj) as (t1 & t2 & Ha).
      unfold FailOrRetry, scanOne. rewrite Hwh, (proj2 (is_state_true _ _)) by done. cbn [negb].
      destruct (m <=? Attempts j + 1); rewrite (update_row _ _ _ _ _ Ha).
      * match goal with |- context [publishTerminal ?i ?st ?s] =>
          destruct (publishTerminal_spec i st s Hb) as (b & -> & _) end.
        eexists. split; [done|]. split; [done|]. simpl. by eapply find_replaced.
      * match goal with |- context [bus_publish ?i ?ev ?s] =>
          destruct (bus_publish_spec i ev s Hb) as (b & -> & _) end.
        eexists. split; [done|]. split; [done|]. simpl. by eapply find_replaced.
Qed.

(** Fetching a result: 404 for an unknown job, 409 until it has succeeded,
    and then 200 with the stored result, every time; only the first fetch is
    stamped and nothing else changes. *)
Theorem result_api y id now :
  reachable step init y ->
  let s := svc y in
  let '(resp, s') := handleResult no_faults id now s in
  match find_job id (tbl s) with
  | None => code resp = 404 /\ s' = s
  | Some j =>
      if decide (JobState j = StateSucceeded) then
        code resp = 200 /\ payload resp = BResult id (Result j) /\
        find_job id (tbl s') = Some (if decide (FetchedAt j = None) then set_fetched now j else j)
      else code resp = 409 /\ s' = s
  end.
Proof.
  intros Hr s. destruct (reachable_service_inv _ Hr) as [_ _ Hw _].
  unfold handleResult, Result_. cbn [first_fails second_fails no_faults]. rewrite (Get_find _ _ Hw). fold s.
  destruct (find_job id (tbl s)) as [j|] eqn:Hf; [|done].
  destruct (decide (JobState j = StateSucceeded)) as [Hs|Hs].
  - rewrite (proj2 (is_state_true _ _)) by done. simpl. do 2 (split; [done|]).
    pose proof (update_guarded id (fun r => is_state StateSucceeded r && bool_decide (FetchedAt r = None))
                  (set_fetched now) _ Hw) as Hu. fold s in Hu. rewrite Hf in Hu.
    destruct Hu as (t1 & t2 & Ha & <- & Hu).
    replace (StampFetched (ID j) now (tbl s)) with
      (update (fun r => by_id (ID j) r && (is_state StateSucceeded r && bool_decide (FetchedAt r = None))) (set_fetched now) (tbl s)).
    2: { unfold StampFetched, update. apply map_ext. intros r. by rewrite andb_assoc. }
    rewrite Hu, (proj2 (is_state_true _ _)) by done. simpl. destruct (decide (FetchedAt j = None)).
    + rewrite bool_decide_eq_true_2 by done. by eapply find_replaced.
    + by rewrite bool_decide_eq_false_2.
  - by rewrite (proj2 (is_state_false _ _)).
Qed.

Definition demo_sub (id : string) : submission := Submission id (id +:+ "-key") "cli" "me" "llama3" "" "hello" (Some 5).

Definition demo_start : system :=
  System (Recover 0 (NewService (run 3 [] []) 0)) (NewWorker 0 0) WLoop false false ∅ ∅ ∅.

Lemma demo_start_init : init demo_start.
Proof. by exists [], 3, 0, 0, 0, 0. Qed.

(** A job is submitted and the worker comes to claim it. *)
Definition to_claim : list event :=
  [ESubmit 0 false (demo_sub "a") 1; ECall 0 1; ETop; EYield false; EPeek false; EAcquired true; ERecheck false; EClaim false 2].

(** The stream reads its snapshot, the job succeeds, and only then does the
    stream subscribe. *)
Definition late_subscription : list event :=
  to_claim ++ [EStartRun 3; EBind 3; EOpen 0 no_faults "a" 4; EGenerated (Ok "hi"); ESucceed false 5; EAttach 0; EEnd; ERelease].

(** An event stream takes its snapshot before it subscribes: a job that ends
    in between leaves the stream waiting, on an empty buffer, for a terminal
    event that was already sent, while nothing is left to run. *)
Example sse_can_miss_done :
  exists y j, reachable step init y /\ find_job "a" (tbl (svc y)) = Some j /\ JobState j = StateSucceeded /\
    (exists sub sent, streams y !! 0%nat = Some (SLoop "a" sub, sent) /\
       Forall (fun ev => Type_ ev <> EventDone) sent /\ chans (evbus (svc y)) !! sub = Some (Chan [] false)) /\
    step (ERead 0) y = Disabled /\ pc y = WLoop /\ HasQueued (tbl (svc y)) = false.
Proof.
  exists (final step late_subscription demo_start). eexists.
  split; [auto using demo_start_init with broker|].
  split; [vm_compute; reflexivity|]. split; [done|]. split; [|vm_compute; done].
  eexists 1%nat, _. split; [vm_compute; reflexivity|]. split; [|vm_compute; reflexivity].
  repeat constructor; discriminate.
Qed.

(** A cancel that falls between the claim and [startRun] finds no run to abort:
    the generation goes on for a job that is already cancelled. *)
Example cancel_before_start :
  let y := final step (to_claim ++ [ECancel 0 false "a" 3; ECall 0 3; EStartRun 4; EBind 4]) demo_start in
  JobState <$> find_job "a" (tbl (svc y)) = Some StateCanceled /\
  pc y = WGenerating "a" 4 (Facts 4 true false) /\ rs_canceled <$> running (svc y) !! "a" = Some false.
Proof. vm_compute. done. Qed.

(** ** Witnesses *)

Definition demo_running : system :=
  final step (to_claim ++ [EStartRun 3; EBind 3]) demo_start.

Lemma demo_running_reachable : reachable step init demo_running.
Proof. unfold demo_running. auto using demo_start_init with broker. Qed.

Definition demo_job : Job := JobStore.set_running 2 (new_row (demo_sub "a") 1 1).

Lemma running_has_slot_witness : slot demo_running = true \/ "a" ∈ orphans demo_running.
Proof.
  destruct (running_has_slot demo_running demo_job demo_running_reachable) as [[H _]|H];
    [apply list_elem_of_lookup; exists 0%nat; vm_compute; reflexivity|reflexivity|by left|by right].
Defined.

Lemma service_never_panics_witness : step (ECancel 0 false "a" 9) demo_running <> Panic.
Proof. exact (service_never_panics demo_running (ECancel 0 false "a" 9) demo_running_reachable). Defined.

Definition demo_aborted : system :=
  final step (to_claim ++ [EStartRun 3; EBind 3; EServeDone; EGenerated (Err "context canceled")]) demo_start.

Lemma aborted_run_classified_witness :
  exists y', run_events step [EClassify false true; ERequeue false 9] demo_aborted = Next y' /\
    find_job "a" (tbl (svc y')) = Some (set_preempted (-1) demo_job).
Proof.
  assert (Hr : reachable step init demo_aborted) by (unfold demo_aborted; auto using demo_start_init with broker).
  destruct (aborted_run_classified demo_aborted "a" 3 (Facts 3 false false) "context canceled" demo_job true 9 Hr
    ltac:(vm_compute; reflexivity) ltac:(vm_compute; reflexivity)) as [_ H].
  destruct (H eq_refl) as (y' & H1 & _ & H2). exists y'. split; [exact H1|exact H2].
Defined.

Lemma result_api_witness : code (handleResult no_faults "a" 9 (svc demo_running)).1 = 409.
Proof.
  exact (proj1 (result_api demo_running "a" 9 demo_running_reachable)).
Defined.

End Worker.
