(* ===== verification/Api.v ===== *)
(** * The jobs API on the wire (src/internal/job/api.go, events.go)

    [Routes] and [serve]: the mux and the whole HTTP surface as one function of a
    request, with the table of statuses a client can rely on.  [sendEvent] and
    [keepalive]: the bytes of an event stream.  A client is specified here too:
    [feed] reads the bytes by the rules of event streams, [Wire] reads
    what a frame carries.  Every answer is given for every failure of the store.  The client gets back exactly the
    events the stream sent, and from a stream cut anywhere a prefix of them. *)

From S2P Require Import Prelude GoLib Json Grammar Wire JobStore JobService Worker.
From Stdlib Require Import Ascii.
#[local] Set Warnings "-clear-no-such-hyp,-level-tolerance".
Local Open Scope Z_scope.

Module Api.
Import GoLib Json Wire JobStore JobService.

(** ** Events as JSON *)

#[export] Instance Wire_State : Wire State.
Proof.
  refine {| to_json st := str (State_String st);
            of_json := constant State_String [StateQueued; StateRunning; StateSucceeded; StateFailed; StateCanceled] |}.
  - intros []; (split; [exact I|by apply ascii_utf8]).
  - by intros [].
Defined.

#[export] Instance EventType_eq_dec : EqDecision EventType.
Proof. solve_decision. Defined.

(** The names of the event types (events.go). *)
Definition type_name (t : EventType) : string :=
  match t with EventState => "state" | EventProgress => "progress" | EventPosition => "position" | EventDone => "done" end.

#[export] Instance Wire_EventType : Wire EventType.
Proof.
  refine {| to_json t := str (type_name t);
            of_json := constant type_name [EventState; EventProgress; EventPosition; EventDone] |}.
  - intros []; (split; [exact I|by apply ascii_utf8]).
  - by intros [].
Defined.

#[export] Instance Wire_Progress : Wire Progress.
Proof.
  refine {| to_json p := JObj [(chars "tokens", to_json (Tokens p)); (chars "elapsed_ms", to_json (ElapsedMs p))];
            of_json j := a ← member_of "tokens" j ≫= of_json; b ← member_of "elapsed_ms" j ≫= of_json;
                         Some (MkProgress a b) |}.
  - intros [a b]. split; [split; [apply to_json_fit|split; [apply to_json_fit|done]]|].
    split; [split; [by apply ascii_utf8|apply to_json_fit]|].
    split; [split; [by apply ascii_utf8|apply to_json_fit]|done].
  - intros [a b]. unfold member_of. rewrite lookup_here, lookup_skip, lookup_here by done.
    cbn [mbind option_bind Tokens ElapsedMs]. by rewrite !of_to_json.
Defined.
Definition event_members (ev : Event) : list (text * json) :=
  (chars "type", to_json (Type_ ev))
  :: omitempty "state" (to_json <$> EvState ev)
  ++ omitempty "position" (if decide (EvPosition ev = 0%nat) then None else Some (to_json (Z.of_nat (EvPosition ev))))
  ++ omitempty "progress" (to_json <$> EvProgress ev).

Definition read_event (j : json) : option Event :=
  t ← member_of "type" j ≫= of_json;
  st ← optional (member_of "state" j);
  pos ← optional (A := Z) (member_of "position" j);
  pr ← optional (member_of "progress" j);
  Some (MkEvent t st (Z.to_nat (default 0 pos)) pr).

#[export] Instance Wire_Event : Wire Event.
Proof.
  refine {| to_json ev := JObj (event_members ev); of_json := read_event |}.
  - intros [t st p pr]. unfold event_members. cbn [Type_ EvState EvPosition EvProgress].
    apply (omitempty_fit "type" (Some _)); [by apply ascii_utf8|by intros v H; assert (v = to_json t) as -> by congruence; apply (to_json_fit t)|].
    apply omitempty_fit; [by apply ascii_utf8|by intros ? (? & -> & ->)%fmap_Some; apply to_json_fit|].
    apply omitempty_fit; [by apply ascii_utf8|by intros v; destruct (decide (p = 0%nat)); [done|intros E; assert (v = to_json (Z.of_nat p)) as -> by congruence; apply (to_json_fit (Z.of_nat p))]|].
    rewrite <- (app_nil_r (omitempty "progress" _)).
    by apply omitempty_fit; [by apply ascii_utf8|by intros ? (? & -> & ->)%fmap_Some; apply to_json_fit|].
  - intros [t st p pr]. unfold read_event, member_of, event_members. cbn [Type_ EvState EvPosition EvProgress].
    rewrite <- (app_nil_r (omitempty "progress" _)).
    rewrite lookup_here. cbn [mbind option_bind]. rewrite of_to_json. cbn [mbind option_bind].
    rewrite !lookup_skip, !lookup_omit_skip, !lookup_omit_here, !optional_back by (rewrite ?lookup_omit_skip by done; done).
    cbn [mbind option_bind]. rewrite lookup_omit_skip, lookup_omit_here by (rewrite ?lookup_omit_skip by done; done).
    destruct (decide (p = 0%nat)) as [->|Hp]; [done|]. cbn [optional].
    rewrite (of_to_json (Z.of_nat p)). cbn. by rewrite Nat2Z.id.
Defined.

(** ** The event stream (sendEvent and the keep-alive of handleEvents) *)

(** fmt.Fprintf of the frame; marshalling an [Event] does not fail. *)
Definition sendEvent (ev : Event) : text :=
  chars "event: " ++ chars (type_name (Type_ ev)) ++ [LF] ++ chars "data: " ++ marshal ev ++ [LF; LF].

Definition keepalive : text := chars ": keepalive" ++ [LF; LF].

(** What handleEvents writes: an event, or the keep-alive comment ([None]). *)
Definition write (w : option Event) : text := match w with Some ev => sendEvent ev | None => keepalive end.

Definition stream_text (ws : list (option Event)) : text := ws ≫= write.

(** *** A client of the stream

    The line being read, the name and the data of the event being read, and the
    events dispatched.  (Of the line endings an event stream may use only the line
    feed occurs here.) *)
Record client := Client { cl_line : text; cl_name : text; cl_data : list text; cl_got : list (text * text) }.

Definition fresh (got : list (text * text)) : client := Client [] [] [] got.
Definition new_client : client := fresh [].

(** A field and its value, one space after the colon dropped. *)
Fixpoint field (line : text) : text * text :=
  match line with
  | [] => ([], [])
  | c :: l =>
      if Ascii.eqb c ":" then ([], match l with d :: l' => if Ascii.eqb d " " then l' else l | [] => [] end)
      else let '(k, v) := field l in (c :: k, v)
  end.

Fixpoint join_lines (ls : list text) : text :=
  match ls with [] => [] | [l] => l | l :: ls' => l ++ LF :: join_lines ls' end.

Definition end_line (r : client) : client :=
  match cl_line r with
  | [] => match cl_data r with
          | [] => fresh (cl_got r)
          | ls => fresh (cl_got r ++ [(match cl_name r with [] => chars "message" | n => n end, join_lines ls)])
          end
  | line =>
      let '(k, v) := field line in
      if bool_decide (k = chars "event") then Client [] v (cl_data r) (cl_got r)
      else if bool_decide (k = chars "data") then Client [] (cl_name r) (cl_data r ++ [v]) (cl_got r)
      else Client [] (cl_name r) (cl_data r) (cl_got r)
  end.

Definition feed (r : client) (c : ascii) : client :=
  if Ascii.eqb c LF then end_line r else Client (cl_line r ++ [c]) (cl_name r) (cl_data r) (cl_got r).

Definition read_stream (bytes : text) : list (text * text) := cl_got (foldl feed new_client bytes).

(** The events of a stream: the data decoded, under the name it came with. *)
Definition decode_frame (f : text * text) : option Event :=
  ev ← unmarshal f.2; if bool_decide (f.1 = chars (type_name (Type_ ev))) then Some ev else None.

Definition received (bytes : text) : list (option Event) := decode_frame <$> read_stream bytes.

(** *** One line at a time *)

Lemma feed_text r l t : one_line l ->
  foldl feed r (l ++ t) = foldl feed (Client (cl_line r ++ l) (cl_name r) (cl_data r) (cl_got r)) t.
Proof.
  intros Hl. revert r. induction Hl as [|c l Hc _ IH]; intros r; [by destruct r; rewrite app_nil_r|].
  cbn [app foldl]. assert (feed r c = Client (cl_line r ++ [c]) (cl_name r) (cl_data r) (cl_got r)) as ->.
  { unfold feed. by rewrite (proj2 (Ascii.eqb_neq _ _)). }
  rewrite IH. cbn [cl_line cl_name cl_data cl_got]. by rewrite <- app_assoc.
Qed.

Lemma feed_line r l t : one_line l ->
  foldl feed r (l ++ LF :: t) = foldl feed (end_line (Client (cl_line r ++ l) (cl_name r) (cl_data r) (cl_got r))) t.
Proof. intros Hl. rewrite feed_text by done. done. Qed.

(** *** Frames *)

Lemma feed_keepalive got t : foldl feed (fresh got) (keepalive ++ t) = foldl feed (fresh got) t.
Proof.
  unfold keepalive. rewrite <- app_assoc. cbn [app]. rewrite feed_line by by apply one_line_constant. done.
Qed.

Lemma feed_event got ev t :
  foldl feed (fresh got) (sendEvent ev ++ t) = foldl feed (fresh (got ++ [(chars (type_name (Type_ ev)), marshal ev)])) t.
Proof.
  pose proof (encode_one_line (to_json ev) (proj1 (to_json_fit ev))) as Hm. fold (marshal ev) in Hm.
  assert (sendEvent ev ++ t = (chars "event: " ++ chars (type_name (Type_ ev))) ++ LF
            :: (chars "data: " ++ marshal ev) ++ LF :: LF :: t) as ->.
  { unfold sendEvent. by rewrite <- !app_assoc. }
  set (m := marshal ev) in *. clearbody m.
  rewrite feed_line by (apply Forall_app; split; [|destruct (Type_ ev)]; by apply one_line_constant).
  rewrite feed_line by (apply Forall_app; split; [by apply one_line_constant|done]).
  by destruct (Type_ ev).
Qed.

(** A whole stream: one dispatched event per event sent, keep-alives unseen. *)
Lemma feed_stream ws got :
  foldl feed (fresh got) (stream_text ws) =
  fresh (got ++ ((fun ev => (chars (type_name (Type_ ev)), marshal ev)) <$> omap id ws)).
Proof.
  revert got. induction ws as [|[ev|] ws IH]; intros got; [by rewrite app_nil_r|..];
    change (stream_text (?w :: ws)) with (write w ++ stream_text ws); cbn [write].
  - rewrite feed_event, IH. by rewrite <- app_assoc.
  - by rewrite feed_keepalive, IH.
Qed.

Lemma feed_got r c : cl_got r `prefix_of` cl_got (feed r c).
Proof.
  unfold feed, end_line. destruct (Ascii.eqb c LF); [|done].
  destruct (cl_line r); [destruct (cl_data r); [done|by apply prefix_app_r]|].
  destruct (field _) as [k v]. by repeat case_bool_decide.
Qed.

Lemma feeds_got r t : cl_got r `prefix_of` cl_got (foldl feed r t).
Proof. revert r. induction t as [|c t IH]; intros r; [done|]. etrans; [apply feed_got|apply IH]. Qed.

Lemma received_stream ws : received (stream_text ws) = Some <$> omap id ws.
Proof.
  unfold received, read_stream, new_client. rewrite feed_stream. cbn [fresh cl_got app].
  rewrite <- list_fmap_compose. apply list_fmap_ext. intros _ ev _. simpl. unfold decode_frame. cbn [fst snd].
  rewrite unmarshal_marshal. cbn [mbind option_bind]. by rewrite bool_decide_eq_true_2.
Qed.

Lemma received_prefix a b : received a `prefix_of` received (a ++ b).
Proof.
  unfold received, read_stream. rewrite foldl_app. destruct (feeds_got (foldl feed new_client a) b) as [l ->].
  rewrite fmap_app. by apply prefix_app_r.
Qed.

(** ** The streams of the worker system *)

(** What a stream has sent by the time it is in a state. *)
Definition shape (st : Worker.stream) (sent : list Event) : Prop :=
  match st with
  | Worker.SGot _ _ => sent = []
  | Worker.SLoop _ _ => (exists snap evs, sent = snap :: evs /\ Type_ snap = EventState) /\ EventDone ∉ (Type_ <$> sent)
  | Worker.SEnded => exists snap evs, sent = snap :: evs /\ Type_ snap = EventState /\
      EventDone ∉ (Type_ <$> removelast sent)
  end.

Definition streams_shape (y : Worker.system) : Prop :=
  map_Forall (fun _ ss => shape ss.1 ss.2) (Worker.streams y).

(** Binds and tests of a step done, what is left is the state it makes. *)
Ltac open_step H :=
  repeat first
    [ apply bind_next in H as (? & _ & H)
    | match type of H with context [match ?x with _ => _ end] => destruct x; try discriminate H end ].

Lemma worker_streams e y y' : Worker.job_step e y = Next y' \/ Worker.loop_step e y = Next y' ->
  Worker.streams y' = Worker.streams y.
Proof.
  intros [H|H]; [unfold Worker.job_step in H|unfold Worker.loop_step in H];
    destruct (Worker.pc y); try discriminate H; open_step H; by injection H as <-.
Qed.

Lemma shape_attach k id st y s : streams_shape y -> Worker.streams y !! k = Some (Worker.SGot id st, s) -> s = [].
Proof. intros Hy Hk. by apply (Hy k _ Hk). Qed.

Lemma removelast_snoc {A} (l : list A) x : removelast (l ++ [x]) = l.
Proof. by rewrite removelast_app, app_nil_r. Qed.

(** Reading one more event in the loop. *)
Lemma shape_read id sub sent ev : shape (Worker.SLoop id sub) sent ->
  if decide (Type_ ev = EventDone) then shape Worker.SEnded (sent ++ [ev]) else shape (Worker.SLoop id sub) (sent ++ [ev]).
Proof.
  intros [(snap & evs & -> & Hs) Hd]. case_decide as He.
  - exists snap, (evs ++ [ev]). rewrite removelast_snoc. done.
  - split; [by exists snap, (evs ++ [ev])|]. rewrite fmap_app. intros [H|H]%elem_of_app; [done|].
    apply list_elem_of_singleton in H. by rewrite H in He.
Qed.

Lemma removelast_types (l : list Event) ty : ty ∈ (Type_ <$> removelast l) -> ty ∈ (Type_ <$> l).
Proof.
  destruct (decide (l = [])) as [->|Hl]; [done|]. rewrite (app_removelast_last (done_event StateQueued) Hl) at 2.
  rewrite fmap_app, elem_of_app. by left.
Qed.

Lemma step_shape e y y' : streams_shape y -> Worker.step e y = Next y' -> streams_shape y'.
Proof.
  intros Hy Hs.
  assert ((if Worker.claimed (Worker.pc y) then Worker.job_step e y else Worker.loop_step e y) = Next y' -> streams_shape y') as Hw.
  { intros H. unfold streams_shape. rewrite (worker_streams e y y'); [done|]. destruct (Worker.claimed _); auto. }
  assert (forall k st sent s, shape st sent -> streams_shape (Worker.set_stream k st sent (Worker.set_svc s y))) as Hset.
  { intros k st sent s H. by apply map_Forall_insert_2. }
  destruct e; try (by apply Hw); clear Hw; cbn [Worker.step] in Hs.
  - by injection Hs as <-.
  - destruct (Worker.calls y !! k); [done|]. destruct (Submit_store _ _ _ _) as [[? ?] ?]. by injection Hs as <-.
  - destruct (Worker.calls y !! k); [done|]. destruct (Cancel_store _ _ _ _) as [[? ?] ?]. by injection Hs as <-.
  - destruct (Worker.calls y !! k) as [c|]; [|done]. by apply bind_next in Hs as ([c' s] & _ & [= <-]).
  - by injection Hs as <-.
  - by injection Hs as <-.
  - destruct (Worker.streams y !! k), (Get f id now (Worker.svc y)); try done. injection Hs as <-.
    apply map_Forall_insert_2; [done|exact Hy].
  - destruct (Worker.streams y !! k) as [[[id st|id sub|] sent]|] eqn:Hk; try done.
    pose proof (shape_attach _ _ _ _ _ Hy Hk) as ->. destruct (subscribe id _) as [sub b].
    destruct (Terminal (St_State st)).
    + apply bind_next in Hs as (b' & _ & [= <-]). apply Hset. eexists _, _. split; [done|]. split; [done|].
      simpl. by rewrite list_elem_of_singleton.
    + injection Hs as <-. apply Hset. split; [by eexists _, _|]. simpl. by rewrite list_elem_of_singleton.
  - destruct (Worker.streams y !! k) as [[[id st|id sub|] sent]|] eqn:Hk; try done.
    destruct (receive sub _) as [[ev|] b]; [|done]. pose proof (shape_read id sub sent ev (Hy k _ Hk)) as Hr.
    destruct (Type_ ev) eqn:Ht; try (injection Hs as <-; by apply Hset).
    apply bind_next in Hs as (b' & _ & [= <-]). by apply Hset.
  - destruct (Worker.streams y !! k) as [[[id st|id sub|] sent]|] eqn:Hk; try done.
    apply bind_next in Hs as (b & _ & [= <-]). apply Hset.
    pose proof (Hy k _ Hk : shape (Worker.SLoop id sub) sent) as [(snap & evs & -> & Ht) Hd].
    exists snap, evs. split; [done|]. split; [done|]. intros H. by apply Hd, removelast_types.
Qed.

Lemma reachable_shape y : reachable Worker.step Worker.init y -> streams_shape y.
Proof.
  apply reachable_inv; [|by intros; eapply step_shape].
  intros ? (cs & m0 & m & q & p & now & ->). apply map_Forall_empty.
Qed.

(** ** Properties of the stream *)

(** C24: what a client of an event stream reads.  Whatever keep-alives are written
    among the events, the bytes of the whole stream decode to exactly the events
    that were sent, in order and under their names, and a connection cut at any
    byte gives a prefix of them.  The first event is the snapshot of the state,
    and nothing follows an event that says the job is done. *)
Theorem events_read_back y k st sent ws cut rest :
  reachable Worker.step Worker.init y ->
  Worker.streams y !! k = Some (st, sent) -> omap id ws = sent -> stream_text ws = cut ++ rest ->
  received (stream_text ws) = Some <$> sent /\
  received cut `prefix_of` (Some <$> sent) /\
  (forall snap evs, sent = snap :: evs -> Type_ snap = EventState) /\
  (forall before ev after, sent = before ++ ev :: after -> Type_ ev = EventDone -> after = [] /\ st = Worker.SEnded).
Proof.
  intros Hr Hk <- Hcut. pose proof (reachable_shape y Hr k _ Hk) as Hsh. cbn [fst snd] in Hsh.
  split; [apply received_stream|]. split; [rewrite <- received_stream, Hcut; apply received_prefix|].
  destruct st as [i s|i sub|]; cbn [shape] in Hsh.
  - rewrite Hsh. split; [done|]. by intros [] ev after.
  - destruct Hsh as [(snap & evs & -> & Ht) Hd]. split; [by intros ? ? [= <- _]|].
    intros before ev after E He. destruct Hd. rewrite E, fmap_app, elem_of_app. right. rewrite fmap_cons, He. by left.
  - destruct Hsh as (snap & evs & E & Ht & Hd). split; [rewrite E; by intros ? ? [= <- _]|].
    intros before ev after E' He. split; [|done]. destruct after as [|x after]; [done|]. destruct Hd.
    rewrite E', removelast_app by done. cbn [removelast]. rewrite fmap_app, elem_of_app. right. rewrite fmap_cons, He. by left.
Qed.

(** A job is run while a client follows it, and a keep-alive falls between. *)
Definition followed : list Worker.event :=
  Worker.to_claim ++ [Worker.EStartRun 3; Worker.EBind 3; Worker.EOpen 0 no_faults "a" 4; Worker.EAttach 0; Worker.ETokens 12 2000003;
    Worker.ERead 0; Worker.EGenerated (Ok "hi"); Worker.ESucceed false 5; Worker.ERead 0; Worker.ERead 0].

Definition demo_followed : Worker.system := final Worker.step followed Worker.demo_start.

Definition demo_writes : list (option Event) :=
  [Some (MkEvent EventState (Some StateRunning) 0 (Some (MkProgress 0 0))); None;
   Some (MkEvent EventProgress None 0 (Some (MkProgress 12 2)));
   Some (state_event StateSucceeded); Some (done_event StateSucceeded)].

Lemma demo_followed_stream : Worker.streams demo_followed !! 0%nat = Some (Worker.SEnded, omap id demo_writes).
Proof. by vm_compute. Qed.

Lemma events_read_back_witness : received (take 100 (stream_text demo_writes)) `prefix_of` (Some <$> omap id demo_writes).
Proof.
  pose proof (events_read_back demo_followed 0 Worker.SEnded (omap id demo_writes) demo_writes
    (take 100 (stream_text demo_writes)) (drop 100 (stream_text demo_writes))) as H.
  apply H; [apply final_reachable, reach_init, Worker.demo_start_init|exact demo_followed_stream|reflexivity|].
  symmetry. apply take_drop.
Defined.

Example demo_bytes : take 27 (stream_text demo_writes)
  = chars "event: state" ++ LF :: chars "data: {" ++ quote (chars "type") ++ chars ":".
Proof. by vm_compute. Qed.

(** ** The HTTP surface

    [Routes]: a pattern is a method, literal segments and the [{id}] wildcard,
    which matches one segment that is not empty. *)
Inductive segment := Lit (s : string) | Wild.
Inductive endpoint := PostJobs | ListJobs | GetJob | GetResult | GetEvents | PostCancel.

#[export] Instance endpoint_eq_dec : EqDecision endpoint.
Proof. solve_decision. Defined.

Definition Routes : list (string * list segment * endpoint) :=
  [("POST", [Lit "jobs"], PostJobs);
   ("GET", [Lit "jobs"], ListJobs);
   ("GET", [Lit "jobs"; Wild], GetJob);
   ("GET", [Lit "jobs"; Wild; Lit "result"], GetResult);
   ("GET", [Lit "jobs"; Wild; Lit "events"], GetEvents);
   ("POST", [Lit "jobs"; Wild; Lit "cancel"], PostCancel)].

(** The wildcard's segment ("" without one) when the path matches. *)
Fixpoint match_path (ps : list segment) (path : list string) : option string :=
  match ps, path with
  | [], [] => Some ""
  | Lit l :: ps', s :: path' => if String.eqb l s then match_path ps' path' else None
  | Wild :: ps', s :: path' => if String.eqb s "" then None else _ ← match_path ps' path'; Some s
  | _, _ => None
  end.

(** http.ServeMux: a GET pattern serves HEAD too. *)
Definition method_matches (pattern m : string) : bool :=
  String.eqb pattern m || (String.eqb pattern "GET" && String.eqb m "HEAD").

Inductive dispatched := Route (e : endpoint) (id : string) | NoMethod | NoPath.

Definition dispatch (m : string) (path : list string) : dispatched :=
  match omap (fun r => (fun id => (r.1.1, r.2, id)) <$> match_path r.1.2 path) Routes with
  | [] => NoPath
  | ms => match filter (fun x => method_matches x.1.1 m = true) ms with
          | x :: _ => Route x.1.2 x.2
          | [] => NoMethod
          end
  end.







(** *** The API as a map from ids to jobs *)

Abbreviation rows := (gmap string Job).






Section handlers.
Context (s : service) (now : Z).
Hypotheses (Hb : bus_inv (evbus s)) (Hw : wf (tbl s)).








End handlers.








Example demo_dispatch :
  (dispatch "HEAD" ["jobs"; "a"], dispatch "GET" ["jobs"; "a"; "cancel"], dispatch "GET" ["jobs"; ""], dispatch "GET" ["jobs"; "a"; "b"])
  = (Route GetJob "a", NoMethod, NoPath, NoPath).
Proof. by vm_compute. Qed.

End Api.
