(* ===== verification/Config.v ===== *)
(** * Configuration loading (src/internal/config/config.go)

    [Load] reads the environment, a partial map from names to values.
    [url.Parse] and [time.ParseDuration] are section variables: every theorem
    holds for whatever they accept.  An error is the constructor that names the
    failing check with the values its message quotes. *)

From S2P Require Import Prelude.
From S2P Require Import GoLib.
From Stdlib Require Import Ascii.
#[local] Set Warnings "-clear-no-such-hyp,-level-tolerance".
Local Open Scope Z_scope.

Module Config.

Import GoLib.

(** ** Data *)

(** What the broker uses of a parsed [*url.URL]. *)
Record URL := MkURL { Scheme : string; Host : string; URL_String : string }.

#[global] Instance URL_eq_dec : EqDecision URL.
Proof. solve_decision. Defined.

Record RouteBackend := MkRoute {
  Models : list string;
  Backend : string;
  RouteURL : URL;
  APIKey : string;
  UnitName : string;
  IdleTimeout : Z;
  Lane : string;
}.

Record Config_t := MkConfig {
  InteractiveAddr : string; BatchAddr : string; EmbedAddr : string; EmbedTimeout : Z;
  UpstreamBackend : string; OllamaURL : option URL; UpstreamURL : option URL;
  UpstreamAPIKey : string; UpstreamUnitName : string; UpstreamIdleTimeout : Z;
  Routes : list RouteBackend; InfinityURL : option URL;
  InteractiveWait : Z; BatchWait : Z; ControlAddr : string; ControlToken : string;
  DetectInterval : Z; YieldConfirmPolls : Z; PlexURL : string; PlexToken : string;
  MaxWaiters : Z; MaxInflight : Z; BatchQuantum : Z;
  JobDBPath : string; JobMaxAttempts : Z; JobPruneInterval : Z; JobFetchedGrace : Z; JobHardCap : Z;
  TdarrURL : string; TdarrNodeID : string; TdarrGPUWorkers : Z;
  ParkHold : Z; ParkMaxQueue : Z; ParkDrainBurst : Z;
}.

Inductive cfg_err :=
| ErrBackend (key v : string)
| ErrParseURL (key raw : string)
| ErrURLParts (key raw : string)
| ErrControlChars (key : string)
| ErrDuration (key v : string)
| ErrNegative (key : string) (d : Z)
| ErrIdleNeedsUnit (key : string)
| ErrInt (key v : string)
| ErrIntRange (key : string) (n : Z)
| ErrTooManyRoutes (highest : nat)
| ErrRouteGap (i highest : nat)
| ErrEmptyModel (i : nat)
| ErrModelRepeated (i : nat) (m : string)
| ErrModelTwice (m : string) (first i : nat)
| ErrDuplicateURL (i : nat) (other : string)
| ErrDuplicateUnit (i : nat) (other : string)
| ErrLane (i : nat) (lane : string).

#[global] Instance cfg_err_eq_dec : EqDecision cfg_err.
Proof. solve_decision. Defined.

Definition maxRouteIndex : nat := 32.
Definition maxRoutes : nat := 16.

Definition crlf : string := String (ascii_of_nat 13) (String (ascii_of_nat 10) "").

Section Load.
Context (LookupEnv : string -> option string).
Context (url_Parse : string -> option URL) (ParseDuration : string -> option Z).

(** ** Reading one variable *)

Definition getenv (key def : string) : string :=
  match LookupEnv key with
  | Some v => if String.eqb v "" then def else v
  | None => def
  end.

Definition parseBaseURL (key raw : string) : result cfg_err URL :=
  match url_Parse raw with
  | None => Err (ErrParseURL key raw)
  | Some u => if String.eqb (Scheme u) "" || String.eqb (Host u) "" then Err (ErrURLParts key raw) else Ok u
  end.

(** The variable, when it is set and not empty. *)
Definition lookup (key : string) : option string :=
  match LookupEnv key with
  | Some v => if String.eqb v "" then None else Some v
  | None => None
  end.

Definition getint (key : string) (def : Z) : result cfg_err Z :=
  match lookup key with
  | None => Ok def
  | Some v => match Atoi v with
              | None => Err (ErrInt key v)
              | Some n => if n <? 1 then Err (ErrIntRange key n) else Ok n
              end
  end.

Definition getdur (key : string) (def : Z) : result cfg_err Z :=
  match lookup key with
  | None => Ok def
  | Some v => match ParseDuration v with None => Err (ErrDuration key v) | Some d => Ok d end
  end.

Definition getdurWarn (key : string) (def : Z) : Z :=
  match lookup key with
  | None => def
  | Some v => match ParseDuration v with
              | None => def
              | Some d => if d <=? 0 then def else d
              end
  end.

Definition getintMin (key : string) (def min : Z) : Z :=
  match lookup key with
  | None => def
  | Some v => match Atoi v with
              | None => def
              | Some n => if n <? min then def else n
              end
  end.

(** ** The route table *)

Definition route_prefix (i : nat) : string := "BROKER_ROUTE_" +:+ Itoa (Z.of_nat i) +:+ "_".
Definition route_source (i : nat) : string := "BROKER_ROUTE_" +:+ Itoa (Z.of_nat i).

(** The scan for the highest configured index, over indices [1..n]. *)
Fixpoint highest_route (n : nat) : nat :=
  match n with
  | O => O
  | S n' => if String.eqb (getenv (route_prefix n +:+ "MODELS") "") "" then highest_route n' else n
  end.

Record seen := Seen {
  seenModels : gmap string nat;
  seenUnitNames : gmap string string;
  seenURLs : gmap string string;
}.

(** The loop over the parts of one [_MODELS] value; [models] so far. *)
Fixpoint route_models (i : nat) (parts : list string) (models : list string) (sm : gmap string nat)
  : result cfg_err (list string * gmap string nat) :=
  match parts with
  | [] => Ok (models, sm)
  | p :: parts' =>
      let m := TrimSpace p in
      if String.eqb m "" then Err (ErrEmptyModel i)
      else if bool_decide (m ∈ models) then Err (ErrModelRepeated i m)
      else match sm !! m with
           | Some first => Err (ErrModelTwice m first i)
           | None => route_models i parts' (models ++ [m]) (<[m := i]> sm)
           end
  end.

(** The body of the route loop. *)
Definition load_route (i highest : nat) (s : seen) : result cfg_err (RouteBackend * seen) :=
  let prefix := route_prefix i in
  let rawModels := getenv (prefix +:+ "MODELS") "" in
  if String.eqb rawModels "" then Err (ErrRouteGap i highest)
  else
    '(models, sm) ← route_models i (Split "," rawModels) [] (seenModels s);
    let backend := getenv (prefix +:+ "BACKEND") "openai" in
    if negb (String.eqb backend "ollama") && negb (String.eqb backend "openai")
    then Err (ErrBackend (prefix +:+ "BACKEND") backend)
    else
      u ← parseBaseURL (prefix +:+ "URL") (getenv (prefix +:+ "URL") "");
      match seenURLs s !! URL_String u with
      | Some other => Err (ErrDuplicateURL i other)
      | None =>
          let su := <[URL_String u := route_source i]> (seenURLs s) in
          let key := getenv (prefix +:+ "API_KEY") "" in
          if ContainsAny key crlf then Err (ErrControlChars (prefix +:+ "API_KEY"))
          else
            let unit := TrimSpace (getenv (prefix +:+ "UNIT_NAME") "") in
            match (if String.eqb unit "" then None else seenUnitNames s !! unit) with
            | Some other => Err (ErrDuplicateUnit i other)
            | None =>
                let sn := if String.eqb unit "" then seenUnitNames s
                          else <[unit := route_source i]> (seenUnitNames s) in
                idle ← getdur (prefix +:+ "IDLE_TIMEOUT") 0;
                if idle <? 0 then Err (ErrNegative (prefix +:+ "IDLE_TIMEOUT") idle)
                else if negb (idle =? 0) && String.eqb unit ""
                then Err (ErrIdleNeedsUnit (prefix +:+ "IDLE_TIMEOUT"))
                else
                  let lane := getenv (prefix +:+ "LANE") "" in
                  if negb (String.eqb lane "") && negb (String.eqb lane "interactive")
                     && negb (String.eqb lane "batch")
                  then Err (ErrLane i lane)
                  else Ok (MkRoute models backend u key unit idle lane, Seen sm sn su)
            end
      end.

(** [for i := from; ...], [n] turns. *)
Fixpoint load_routes (from n highest : nat) (s : seen) : result cfg_err (list RouteBackend) :=
  match n with
  | O => Ok []
  | S n' =>
      '(r, s') ← load_route from highest s;
      rs ← load_routes (S from) n' highest s';
      Ok (r :: rs)
  end.

Definition first_seen (defaultURL : option URL) (unitName : string) : seen :=
  Seen ∅ (if String.eqb unitName "" then ∅ else {[ unitName := "the default backend" ]})
       (match defaultURL with Some u => {[ URL_String u := "the default backend" ]} | None => ∅ end).

Definition routes_from_env (defaultURL : option URL) (unitName : string) : result cfg_err (list RouteBackend) :=
  let highest := highest_route maxRouteIndex in
  if (0 <? highest)%nat then
    if (maxRoutes <? highest)%nat then Err (ErrTooManyRoutes highest)
    else load_routes 1 highest highest (first_seen defaultURL unitName)
  else Ok [].

(** The configuration from what was read and checked. *)
Definition assemble (backend : string) (ollamaURL upstreamURL : option URL) (apiKey unitName : string)
    (infinityURL : option URL) (iw bw et di uit ycp mw mi bq jma jpi jfg jhc tgw : Z) (routes : list RouteBackend) : Config_t :=
  {| InteractiveAddr := getenv "BROKER_INTERACTIVE_ADDR" ":11435";
     BatchAddr := getenv "BROKER_BATCH_ADDR" ":11436";
     EmbedAddr := getenv "BROKER_EMBED_ADDR" ":11438";
     EmbedTimeout := et;
     UpstreamBackend := backend;
     OllamaURL := ollamaURL;
     UpstreamURL := upstreamURL;
     UpstreamAPIKey := apiKey;
     UpstreamUnitName := unitName;
     UpstreamIdleTimeout := uit;
     Routes := routes;
     InfinityURL := infinityURL;
     InteractiveWait := iw;
     BatchWait := bw;
     ControlAddr := getenv "BROKER_CONTROL_ADDR" ":11437";
     ControlToken := getenv "BROKER_CONTROL_TOKEN" "";
     DetectInterval := di;
     YieldConfirmPolls := ycp;
     PlexURL := getenv "PLEX_URL" "http://localhost:32400";
     PlexToken := getenv "PLEX_TOKEN" "";
     MaxWaiters := mw;
     MaxInflight := mi;
     BatchQuantum := bq;
     JobDBPath := getenv "BROKER_JOB_DB" "broker-jobs.db";
     JobMaxAttempts := jma;
     JobPruneInterval := jpi;
     JobFetchedGrace := jfg;
     JobHardCap := jhc;
     TdarrURL := getenv "BROKER_TDARR_URL" "";
     TdarrNodeID := getenv "BROKER_TDARR_NODE_ID" "";
     TdarrGPUWorkers := tgw;
     ParkHold := getdurWarn "BROKER_PARK_HOLD" (600 * Second);
     ParkMaxQueue := getintMin "BROKER_PARK_MAX_QUEUE" 32 0;
     ParkDrainBurst := getintMin "BROKER_PARK_DRAIN_BURST" 8 1 |}.

(** ** Load *)

Definition when (b : bool) (m : result cfg_err URL) : result cfg_err (option URL) :=
  if b then u ← m; Ok (Some u) else Ok None.

Definition Load : result cfg_err Config_t :=
  let backend := getenv "UPSTREAM_BACKEND" "ollama" in
  if negb (String.eqb backend "ollama") && negb (String.eqb backend "openai")
  then Err (ErrBackend "UPSTREAM_BACKEND" backend)
  else
    ollamaURL ← when (String.eqb backend "ollama")
                  (parseBaseURL "OLLAMA_URL" (getenv "OLLAMA_URL" "http://127.0.0.1:11434"));
    upstreamURL ← when (String.eqb backend "openai")
                    (parseBaseURL "UPSTREAM_URL" (getenv "UPSTREAM_URL" ""));
    let apiKey := getenv "UPSTREAM_API_KEY" "" in
    if ContainsAny apiKey crlf then Err (ErrControlChars "UPSTREAM_API_KEY")
    else
      let unitName := TrimSpace (getenv "UPSTREAM_UNIT_NAME" "") in
      let rawInfinity := getenv "INFINITY_URL" "" in
      infinityURL ← when (negb (String.eqb rawInfinity "")) (parseBaseURL "INFINITY_URL" rawInfinity);
      iw ← getdur "BROKER_INTERACTIVE_WAIT" (30 * Second);
      bw ← getdur "BROKER_BATCH_WAIT" (5 * Second);
      et ← getdur "BROKER_EMBED_TIMEOUT" (30 * Second);
      di ← getdur "BROKER_DETECT_INTERVAL" (3 * Second);
      uit ← getdur "UPSTREAM_IDLE_TIMEOUT" 0;
      if uit <? 0 then Err (ErrNegative "UPSTREAM_IDLE_TIMEOUT" uit)
      else if negb (uit =? 0) && String.eqb unitName "" then Err (ErrIdleNeedsUnit "UPSTREAM_IDLE_TIMEOUT")
      else
        ycp ← getint "BROKER_YIELD_CONFIRM_POLLS" 2;
        mw ← getint "BROKER_MAX_WAITERS" 256;
        mi ← getint "BROKER_MAX_INFLIGHT" 1;
        bq ← getdur "BROKER_BATCH_QUANTUM" (10 * Second);
        jma ← getint "BROKER_JOB_MAX_ATTEMPTS" 3;
        jpi ← getdur "BROKER_JOB_PRUNE_INTERVAL" (10 * Minute);
        jfg ← getdur "BROKER_JOB_FETCHED_GRACE" Hour;
        jhc ← getdur "BROKER_JOB_HARD_CAP" (7 * 24 * Hour);
        tgw ← getint "BROKER_TDARR_GPU_WORKERS" 1;
        let defaultURL := if String.eqb backend "ollama" then ollamaURL else upstreamURL in
        routes ← routes_from_env defaultURL unitName;
        Ok (assemble backend ollamaURL upstreamURL apiKey unitName infinityURL
              iw bw et di uit ycp mw mi bq jma jpi jfg jhc tgw routes).

End Load.

(** The instances of a configuration, the default backend first: its unit
    name, idle timeout and URL, then each route's. *)
Definition default_url (c : Config_t) : option URL :=
  if String.eqb (UpstreamBackend c) "ollama" then OllamaURL c else UpstreamURL c.

Definition unit_names (c : Config_t) : list string :=
  filter (fun u => u <> "") (UpstreamUnitName c :: map UnitName (Routes c)).

Definition urls (c : Config_t) : list string :=
  match default_url c with Some u => [URL_String u] | None => [] end ++ map (fun r => URL_String (RouteURL r)) (Routes c).

(** What a loaded configuration guarantees to the rest of the broker. *)
Definition family (b : string) : Prop := b = "ollama" \/ b = "openai".

Definition url_ok (u : URL) : Prop := Scheme u <> "" /\ Host u <> "".

Record route_ok (r : RouteBackend) : Prop := {
  ro_models : Models r <> [] /\ "" ∉ Models r;
  ro_family : family (Backend r);
  ro_url : url_ok (RouteURL r);
  ro_key : ContainsAny (APIKey r) crlf = false;
  ro_idle : 0 <= IdleTimeout r /\ (IdleTimeout r <> 0 -> UnitName r <> "");
  ro_lane : Lane r = "" \/ Lane r = "interactive" \/ Lane r = "batch";
}.

Record valid (c : Config_t) : Prop := {
  va_family : family (UpstreamBackend c);
  va_default : exists u, default_url c = Some u /\ url_ok u;
  va_key : ContainsAny (UpstreamAPIKey c) crlf = false;
  va_idle : 0 <= UpstreamIdleTimeout c /\ (UpstreamIdleTimeout c <> 0 -> UpstreamUnitName c <> "");
  va_routes : Forall route_ok (Routes c);
  va_max_routes : (length (Routes c) <= 16)%nat;
  va_models : NoDup (concat (map Models (Routes c)));
  va_units : NoDup (unit_names c);
  va_urls : NoDup (urls c);
  va_counts : 1 <= YieldConfirmPolls c /\ 1 <= MaxWaiters c /\ 1 <= MaxInflight c /\
              1 <= JobMaxAttempts c /\ 1 <= TdarrGPUWorkers c;
  va_park : 0 < ParkHold c /\ 0 <= ParkMaxQueue c /\ 1 <= ParkDrainBurst c;
}.

(** ** The route loop *)

Lemma bind_Ok {E A B} (m : result E A) (f : A -> result E B) b :
  (m ≫= f) = Ok b -> exists a, m = Ok a /\ f a = Ok b.
Proof. destruct m; [|done]. intros H. by exists a. Qed.

Section proofs.
Context (env : string -> option string) (up : string -> option URL) (pd : string -> option Z).

Lemma route_models_spec i parts models sm ms sm' :
  route_models i parts models sm = Ok (ms, sm') ->
  NoDup models -> "" ∉ models ->
  exists new, ms = models ++ new /\ length new = length parts /\ new = map TrimSpace parts /\
    NoDup ms /\ "" ∉ ms /\ (forall m, m ∈ new -> sm !! m = None) /\
    forall m, sm' !! m = None <-> sm !! m = None /\ m ∉ new.
Proof.
  revert models sm. induction parts as [|p parts IH]; intros models sm Hr Hn He; simpl in Hr.
  - simplify_eq. exists []. rewrite app_nil_r. set_solver.
  - destruct (String.eqb_spec (TrimSpace p) ""); [done|]. case_bool_decide as Hm; [done|].
    destruct (sm !! TrimSpace p) eqn:Hsm; [done|].
    destruct (IH _ _ Hr) as (new & -> & Hl & -> & Hnd & Hne & Hf & Hs).
    { apply NoDup_app. split; [done|]. split; [set_solver|apply NoDup_singleton]. }
    { set_solver. }
    exists (TrimSpace p :: map TrimSpace parts). rewrite <- app_assoc in *. simpl in *.
    split; [done|]. split; [by rewrite Hl|]. split; [done|]. split; [done|]. split; [done|]. split.
    + intros m [->|Hin]%elem_of_cons; [done|]. specialize (Hf _ Hin).
      destruct (decide (m = TrimSpace p)) as [->|]; simplify_map_eq; done.
    + intros m. rewrite Hs, elem_of_cons. destruct (decide (m = TrimSpace p)) as [->|]; simplify_map_eq; naive_solver.
Qed.

Lemma parseBaseURL_ok key raw u : parseBaseURL up key raw = Ok u -> url_ok u.
Proof.
  unfold parseBaseURL. destruct (up raw) as [u'|]; [|done].
  destruct (String.eqb_spec (Scheme u') ""), (String.eqb_spec (Host u') ""); simpl; try done.
  intros. by simplify_eq.
Qed.

Lemma Split_nonempty c s : Split c s <> [].
Proof. destruct s as [|a s]; simpl; [done|]. destruct (Ascii.eqb a c); [done|]. by destruct (Split c s). Qed.

(** What one turn of the loop adds to the table and to the seen maps. *)
Record turn (i : nat) (s s' : seen) (r : RouteBackend) : Prop := {
  tu_ok : route_ok r;
  tu_models : Models r = map TrimSpace (Split "," (getenv env (route_prefix i +:+ "MODELS") ""));
  tu_set : getenv env (route_prefix i +:+ "MODELS") "" <> "";
  tu_nodup : NoDup (Models r);
  tu_new_models : forall m, m ∈ Models r -> seenModels s !! m = None;
  tu_seen_models : forall m, seenModels s' !! m = None -> seenModels s !! m = None /\ m ∉ Models r;
  tu_new_unit : UnitName r <> "" -> seenUnitNames s !! UnitName r = None;
  tu_seen_units : forall u, seenUnitNames s' !! u = None ->
    seenUnitNames s !! u = None /\ (u <> "" -> u <> UnitName r);
  tu_new_url : seenURLs s !! URL_String (RouteURL r) = None;
  tu_seen_urls : forall u, seenURLs s' !! u = None -> seenURLs s !! u = None /\ u <> URL_String (RouteURL r);
}.

Lemma family_check b : negb (String.eqb b "ollama") && negb (String.eqb b "openai") = false -> family b.
Proof. unfold family. destruct (String.eqb_spec b "ollama"), (String.eqb_spec b "openai"); auto. done. Qed.

Lemma lane_check l : negb (String.eqb l "") && negb (String.eqb l "interactive") && negb (String.eqb l "batch") = false ->
  l = "" \/ l = "interactive" \/ l = "batch".
Proof.
  destruct (String.eqb_spec l ""), (String.eqb_spec l "interactive"), (String.eqb_spec l "batch"); auto. done.
Qed.

Lemma idle_check idle unit : idle <? 0 = false -> negb (idle =? 0) && String.eqb unit "" = false ->
  0 <= idle /\ (idle <> 0 -> unit <> "").
Proof.
  intros Hlt%Z.ltb_ge Hz. split; [done|]. intros Hi ->. by rewrite (proj2 (Z.eqb_neq _ _) Hi) in Hz.
Qed.

Lemma load_route_spec i highest s r s' : load_route env up pd i highest s = Ok (r, s') -> turn i s s' r.
Proof.
  unfold load_route. destruct (String.eqb_spec (getenv env (route_prefix i +:+ "MODELS") "") "") as [|Hset]; [done|].
  intros ([ms sm] & Hms & H)%bind_Ok.
  destruct (route_models_spec _ _ _ _ _ _ Hms) as (new & -> & Hl & Hnew & Hnd & Hne & Hf & Hsm);
    [constructor|set_solver|]. simpl in Hnd, Hne, H.
  destruct (negb (String.eqb (getenv env _ "openai") "ollama") && _) eqn:Hfam; [done|].
  apply family_check in Hfam. apply bind_Ok in H as (u & Hu & H). apply parseBaseURL_ok in Hu.
  destruct (seenURLs s !! URL_String u) eqn:Hsu; [done|].
  destruct (ContainsAny _ crlf) eqn:Hkey; [done|].
  set (unit := TrimSpace _) in *.
  destruct (if String.eqb unit "" then None else seenUnitNames s !! unit) eqn:Hun; [done|].
  apply bind_Ok in H as (idle & _ & H).
  destruct (idle <? 0) eqn:Hneg; [done|].
  destruct (negb (idle =? 0) && String.eqb unit "") eqn:Hidle; [done|].
  destruct (negb (String.eqb (getenv env _ "") "") && _ && _) eqn:Hlane; [done|].
  apply lane_check in Hlane. simplify_eq.
  split; simpl; try done; try (intros; by apply Hsm).
  - split; simpl; try done; [|by apply idle_check].
    split; [|done]. intros Hx. apply (Split_nonempty "," (getenv env (route_prefix i +:+ "MODELS") "")).
    apply nil_length_inv. by rewrite <- Hl, Hx.
  - intros Hu0. by rewrite (proj2 (String.eqb_neq _ _) Hu0) in Hun.
  - intros v Hv. destruct (String.eqb_spec unit "") as [He|He].
    + split; [done|]. rewrite He. done.
    + apply lookup_insert_None in Hv as [? ?]. split; [done|]. naive_solver.
  - intros v [? ?]%lookup_insert_None. split; [done|]. naive_solver.
Qed.

Record table (i n : nat) (s : seen) (rs : list RouteBackend) : Prop := {
  ta_ok : Forall route_ok rs;
  ta_length : length rs = n;
  ta_models : NoDup (concat (map Models rs)) /\ forall m, m ∈ concat (map Models rs) -> seenModels s !! m = None;
  ta_units : NoDup (filter (fun u => u <> "") (map UnitName rs)) /\
    forall u, u ∈ map UnitName rs -> u <> "" -> seenUnitNames s !! u = None;
  ta_urls : NoDup (map (fun r => URL_String (RouteURL r)) rs) /\
    forall u, u ∈ map (fun r => URL_String (RouteURL r)) rs -> seenURLs s !! u = None;
  ta_env : forall k r, rs !! k = Some r ->
    getenv env (route_prefix (i + k) +:+ "MODELS") "" <> "" /\
    Models r = map TrimSpace (Split "," (getenv env (route_prefix (i + k) +:+ "MODELS") ""));
}.

Lemma load_routes_spec i n highest s rs : load_routes env up pd i n highest s = Ok rs -> table i n s rs.
Proof.
  revert i s rs. induction n as [|n IH]; intros i s rs H; simpl in H.
  { simplify_eq. split; simpl; try done; (split; [constructor|set_solver]). }
  apply bind_Ok in H as ([r s'] & Hr & H). apply bind_Ok in H as (rs' & Hrs & H). simplify_eq.
  apply load_route_spec in Hr as []. apply IH in Hrs as [].
  destruct ta_models0 as [M1 M2], ta_units0 as [U1 U2], ta_urls0 as [L1 L2].
  split; simpl.
  - by constructor.
  - by rewrite ta_length0.
  - split.
    + apply NoDup_app. split; [done|]. split; [|done]. intros m Hm Hm'. by apply (tu_seen_models0 m); [apply M2|].
    + intros m [Hm|Hm]%elem_of_app; [by apply tu_new_models0|]. by apply (tu_seen_models0 m), M2.
  - split.
    + rewrite filter_cons. case_decide as Hu; [|done]. constructor; [|done].
      intros [_ Hin]%list_elem_of_filter. by apply (tu_seen_units0 (UnitName r)); [apply U2|..].
    + intros u [->|Hin]%elem_of_cons Hu; [by apply tu_new_unit0|]. by apply (tu_seen_units0 u), U2.
  - split.
    + constructor; [|done]. intros Hin. by apply (tu_seen_urls0 (URL_String (RouteURL r))); [apply L2|].
    + intros u [->|Hin]%elem_of_cons; [done|]. by apply (tu_seen_urls0 u), L2.
  - intros [|k] r' Hk; simplify_eq/=; [by rewrite Nat.add_0_r|].
    rewrite <- Nat.add_succ_comm. by apply ta_env0.
Qed.

Lemma highest_route_spec n :
  (highest_route env n <= n)%nat /\
  (forall i, (highest_route env n < i <= n)%nat -> getenv env (route_prefix i +:+ "MODELS") "" = "") /\
  (highest_route env n <> O -> getenv env (route_prefix (highest_route env n) +:+ "MODELS") "" <> "").
Proof.
  induction n as [|n (I1 & I2 & I3)]; simpl; [split; [lia|split; [lia|done]]|].
  destruct (String.eqb_spec (getenv env (route_prefix (S n) +:+ "MODELS") "") "") as [He|He].
  - split; [lia|]. split; [|done]. intros i Hi. destruct (decide (i = S n)) as [->|]; [done|]. apply I2. lia.
  - split; [lia|]. split; [lia|]. done.
Qed.

(** The route table against the environment. *)
Lemma routes_from_env_spec du un rs : routes_from_env env up pd du un = Ok rs ->
  (length rs <= 16)%nat /\ table 1 (length rs) (first_seen du un) rs /\
  forall i, (1 <= i <= 32)%nat -> (getenv env (route_prefix i +:+ "MODELS") "" <> "" <-> (i <= length rs)%nat).
Proof.
  unfold routes_from_env. destruct (highest_route_spec maxRouteIndex) as (H1 & H2 & H3).
  unfold maxRoutes, maxRouteIndex in *. set (h := highest_route env 32) in *.
  destruct (Nat.ltb_spec 0 h) as [Hh|Hh].
  - destruct (Nat.ltb_spec 16 h); [done|]. intros Hl%load_routes_spec.
    pose proof (ta_length _ _ _ _ Hl) as Hlen. rewrite Hlen. split; [lia|]. split; [done|]. intros i Hi. split.
    + intros Hne. destruct (decide (i <= h)%nat); [done|]. destruct Hne. apply H2. lia.
    + intros Hih. destruct (lookup_lt_is_Some_2 rs (i - 1)) as [r Hr]; [lia|].
      destruct (ta_env _ _ _ _ Hl _ _ Hr) as [Hne _]. by replace (1 + (i - 1))%nat with i in Hne by lia.
  - intros [= <-]. simpl. split; [lia|]. split.
    + split; simpl; try done; (split; [constructor|set_solver]).
    + intros i Hi. split; [|lia]. intros Hne. destruct Hne. apply H2. lia.
Qed.

Lemma getint_ok key def n : getint env key def = Ok n -> 1 <= def -> 1 <= n.
Proof.
  unfold getint. destruct (lookup env key) as [v|]; [|by intros; simplify_eq].
  destruct (Atoi v) as [k|]; [|done]. destruct (Z.ltb_spec k 1); [done|]. intros; simplify_eq. lia.
Qed.

Lemma getintMin_ge key def min : min <= def -> min <= getintMin env key def min.
Proof.
  unfold getintMin. destruct (lookup env key); [|done]. destruct (Atoi _) as [n|]; [|done].
  destruct (Z.ltb_spec n min); lia.
Qed.

Lemma getdurWarn_pos key def : 0 < def -> 0 < getdurWarn env pd key def.
Proof.
  unfold getdurWarn. destruct (lookup env key); [|done]. destruct (pd _) as [n|]; [|done].
  destruct (Z.leb_spec n 0); lia.
Qed.

(** [Load] taken apart: what it checked and what it stored. *)
Lemma Load_spec c : Load env up pd = Ok c ->
  valid c /\ routes_from_env env up pd (default_url c) (UpstreamUnitName c) = Ok (Routes c).
Proof.
  unfold Load. destruct (negb _ && _) eqn:Hfam; [done|]. apply family_check in Hfam.
  set (b := getenv env "UPSTREAM_BACKEND" "ollama") in *.
  intros (ou & Hou & H)%bind_Ok. apply bind_Ok in H as (uu & Huu & H).
  destruct (ContainsAny _ crlf) eqn:Hkey; [done|]. set (un := TrimSpace _) in *.
  apply bind_Ok in H as (iu & _ & H). do 4 (apply bind_Ok in H as (? & _ & H)).
  apply bind_Ok in H as (uit & _ & H). destruct (uit <? 0) eqn:Hneg; [done|].
  destruct (negb (uit =? 0) && String.eqb un "") eqn:Hidle; [done|].
  apply bind_Ok in H as (ycp & H1 & H). apply bind_Ok in H as (mw & H2 & H). apply bind_Ok in H as (mi & H3 & H).
  apply bind_Ok in H as (bq & _ & H). apply bind_Ok in H as (jma & H4 & H).
  do 3 (apply bind_Ok in H as (? & _ & H)). apply bind_Ok in H as (tgw & H5 & H).
  apply bind_Ok in H as (rs & Hrs & H). simplify_eq.
  match goal with |- valid ?c /\ _ => set (cfg := c) end.
  assert (Hdef : exists u, default_url cfg = Some u /\ url_ok u).
  { unfold default_url; simpl. destruct Hfam as [Hb|Hb]; rewrite Hb in *; simpl in *;
      [apply bind_Ok in Hou as (u & Hu & ?)|apply bind_Ok in Huu as (u & Hu & ?)]; simplify_eq; exists u;
      (split; [done|by eapply parseBaseURL_ok]). }
  split; [|exact Hrs].
  destruct (routes_from_env_spec _ _ _ Hrs) as (Hl & [] & _).
  destruct ta_models0 as [M1 M2], ta_units0 as [U1 U2], ta_urls0 as [L1 L2].
  split; try done.
  - by apply idle_check.
  - unfold unit_names. simpl. rewrite filter_cons. case_decide as Hu; [|done]. constructor; [|done].
    intros [_ Hin]%list_elem_of_filter. specialize (U2 _ Hin Hu). simpl in U2.
    rewrite (proj2 (String.eqb_neq _ _) Hu) in U2. by simplify_map_eq.
  - unfold urls. destruct Hdef as (u & Hu & _). rewrite Hu. simpl. constructor; [|done].
    intros Hin. specialize (L2 _ Hin). unfold default_url in Hu. simpl in Hu. simpl in L2.
    rewrite Hu in L2. by simplify_map_eq.
  - simpl. eapply getint_ok in H1, H2, H3, H4, H5; lia.
  - simpl. split; [by apply getdurWarn_pos|]. split; by apply getintMin_ge.
Qed.

End proofs.

(** ** Properties *)

(** C33: whatever the environment holds, a configuration that loads is valid:
    known backend families with a usable base URL each, no model, unit name or
    URL shared by two instances, idle timeouts only with a unit to stop, no line
    break in an API key, at most 16 routes, positive counts and park settings. *)
Theorem load_validates env up pd c : Load env up pd = Ok c -> valid c.
Proof. intros H. by apply (Load_spec env up pd c H). Qed.

(** The route table is neither truncated nor extended: of the 32 indices
    examined exactly the first [length Routes] are configured, and each route
    has the trimmed names of its own variable. *)
Theorem load_routes_complete env up pd c : Load env up pd = Ok c ->
  (forall i, (1 <= i <= 32)%nat ->
     getenv env (route_prefix i +:+ "MODELS") "" <> "" <-> (i <= length (Routes c))%nat) /\
  forall k r, Routes c !! k = Some r ->
    Models r = map TrimSpace (Split "," (getenv env (route_prefix (S k) +:+ "MODELS") "")).
Proof.
  intros H. destruct (Load_spec env up pd c H) as [_ Hr].
  destruct (routes_from_env_spec _ _ _ _ _ _ Hr) as (_ & Ht & Hi). split; [done|].
  intros k r Hk. by apply (ta_env _ _ _ _ _ Ht).
Qed.

(** ** Witnesses *)

Definition demo_env (k : string) : option string :=
  if String.eqb k "BROKER_ROUTE_1_MODELS" then Some "qwen, llama3"
  else if String.eqb k "BROKER_ROUTE_1_URL" then Some "http://127.0.0.1:8001"
  else if String.eqb k "BROKER_ROUTE_1_UNIT_NAME" then Some "vllm.service"
  else if String.eqb k "BROKER_ROUTE_1_IDLE_TIMEOUT" then Some "15m"
  else if String.eqb k "BROKER_DETECT_INTERVAL" then Some "0s"
  else None.

Definition demo_parse (raw : string) : option URL := Some (MkURL "http" (drop_bytes 7 raw) raw).
Definition demo_dur (v : string) : option Z := if String.eqb v "0s" then Some 0 else Some (15 * Minute).

Definition demo_cfg : Config_t :=
  match Load demo_env demo_parse demo_dur with
  | Ok c => c
  | Err _ => MkConfig "" "" "" 0 "" None None "" "" 0 [] None 0 0 "" "" 0 0 "" "" 0 0 0 "" 0 0 0 0 "" "" 0 0 0 0
  end.

Lemma demo_cfg_loads : Load demo_env demo_parse demo_dur = Ok demo_cfg.
Proof. vm_compute. reflexivity. Qed.

Lemma load_validates_witness : valid demo_cfg /\ map Models (Routes demo_cfg) = [["qwen"; "llama3"]].
Proof.
  split; [exact (load_validates demo_env demo_parse demo_dur demo_cfg demo_cfg_loads)|vm_compute; reflexivity].
Defined.

Lemma load_routes_complete_witness :
  ((1 <= 2 <= 32)%nat ->
   getenv demo_env (route_prefix 2 +:+ "MODELS") "" <> "" <-> (2 <= length (Routes demo_cfg))%nat) /\
  length (Routes demo_cfg) = 1%nat.
Proof.
  split; [|vm_compute; reflexivity].
  exact (proj1 (load_routes_complete demo_env demo_parse demo_dur demo_cfg demo_cfg_loads) 2%nat).
Defined.

(** A polling interval of zero passes [Load], although [time.NewTicker] panics
    on it. *)
Example load_accepts_zero_interval : DetectInterval demo_cfg = 0.
Proof. vm_compute. reflexivity. Qed.

End Config.
