(* ===== verification/Router.v ===== *)
(** * Per-model backend routing (internal/backend/router.go, backend.go, activity.go)

    A [Backend] is a typeclass, as it is an interface in Go; [Router] is an
    instance of it over any other.  The request body is what successive reads
    return; [peekModel] is the byte-level machine that Go's streaming decoder
    is, reading a chunk only while it needs one.

    Proved: the body a backend gets is the one the client sent, at most
    [peekLimit] bytes are buffered, and the choice does not depend on how the
    body arrives; a client's JSON request reaches the backend routed for its
    model; the admin summary does not depend on Go's map order. *)

From S2P Require Import Prelude GoLib Json Grammar.
From stdpp Require Import sorting.
From Stdlib Require Import Ascii.
#[local] Set Warnings "-clear-no-such-hyp,-level-tolerance".
Local Open Scope Z_scope.

Module Router.
Import GoLib Json Grammar.

Definition peekLimit : nat := 64 * 1024.

(** ** peekModel *)

(** Where the loop is: before the first token; in a top-level value that is no
    object; between members (none read yet or some); past a comma; in a key;
    past a key; in the value of "model"; in a value to discard; returned. *)
Inductive peek :=
| PStart
| PTop (s : scanner)
| PMember (first : bool)
| PComma
| PKey (raw : text) (s : scanner)
| PColon (key : text)
| PModel (raw : text) (s : scanner)
| PSkip (s : scanner)
| PDone (model : text).

Definition decoded (raw : text) : text := default [] (decode_string raw).

Definition in_string : scanner := Scanner InString [].

(** [dec.More], then the token that follows. *)
Definition peek_member (first : bool) (c : ascii) : peek :=
  if isSpace c then PMember first
  else if Ascii.eqb c "}" || Ascii.eqb c "]" then PDone []
  else if Ascii.eqb c quotemark && first then PKey [c] in_string
  else if Ascii.eqb c "," && negb first then PComma
  else PDone [].

(** The colon, and which of the two [Decode] calls comes next. *)
Definition peek_colon (key : text) (c : ascii) : peek :=
  if isSpace c then PColon key
  else if Ascii.eqb c ":" then
    if bool_decide (key = chars "model") then PModel [] reset else PSkip reset
  else PDone [].

Definition peek_byte (p : peek) (c : ascii) : peek :=
  match p with
  | PStart =>
      if isSpace c then PStart
      else if Ascii.eqb c "{" then PMember true
      else if existsb (Ascii.eqb c) (chars "[]}:,") then PDone []
      else match step reset c with Cont s => PTop s | _ => PDone [] end
  | PTop s => match step s c with Cont s' => PTop s' | _ => PDone [] end
  | PMember first => peek_member first c
  | PComma =>
      if isSpace c then PComma
      else if Ascii.eqb c quotemark then PKey [c] in_string else PDone []
  | PKey raw s =>
      match step s c with
      | Cont s' => PKey (raw ++ [c]) s'
      | EndBefore => peek_colon (decoded raw) c
      | _ => PDone []
      end
  | PColon key => peek_colon key c
  | PModel raw s =>
      match step s c with
      | Cont s' => PModel (raw ++ [c]) s'
      | EndBefore => PDone (decoded raw)
      | _ => PDone []
      end
  | PSkip s =>
      match step s c with
      | Cont s' => PSkip s'
      | EndBefore => peek_member false c
      | EndAfter => PMember false
      | SyntaxError => PDone []
      end
  | PDone m => PDone m
  end.

Definition peek_run (p : peek) (t : text) : peek := foldl peek_byte p t.

(** No byte follows: the end of the input, or a read error. *)
Definition peek_end (failing : bool) (p : peek) : text :=
  match p with
  | PDone m => m
  | PModel raw s => if negb failing && complete s then decoded raw else []
  | _ => []
  end.

(** The decoder reads while it needs to: [cs] are the chunks the body's reads
    return, [limit] what the LimitReader still lets through, [buf] the bytes
    teed so far.  The model, the bytes consumed, and the chunks left. *)
Fixpoint peek_reads (failing : bool) (cs : list text) (limit : nat) (p : peek) (buf : text)
  : text * text * list text :=
  match p with
  | PDone m => (m, buf, cs)
  | _ =>
      match cs with
      | [] => (peek_end (failing && negb (limit =? 0)%nat) p, buf, [])
      | c :: cs' =>
          match drop limit c with
          | [] => peek_reads failing cs' (limit - length c) (peek_run p c) (buf ++ c)
          | cut => (peek_end false (peek_run p (take limit c)), buf ++ take limit c, cut :: cs')
          end
      end
  end.

(** A request body: the chunks its reads return, and whether it ends in an
    error instead of [io.EOF]. *)
Record reader := Reader { chunks : list text; failing : bool }.

Definition content (b : reader) : text := concat (chunks b).

Definition peekModel (b : reader) : string * text * reader :=
  let '(m, consumed, rest) := peek_reads (failing b) (chunks b) peekLimit PStart [] in
  (String.string_of_list_ascii m, consumed, Reader rest (failing b)).

(** [io.MultiReader(bytes.NewReader(consumed), rest)] *)
Definition MultiReader (consumed : text) (rest : reader) : reader :=
  Reader (consumed :: chunks rest) (failing rest).

(** [None] is a nil body or [http.NoBody]. *)
Record request := Request { path : string; body : option reader }.

(** ** The Backend interface *)

Class Backend (R G B : Type) := {
  Proxy : B -> request -> R;
  Generate : B -> string -> string -> G;
  Reachable : B -> option string;
  Unloader : B -> option nat;
}.

(** ** Router *)

Record routeEntry (B : Type) := RouteEntry { re_backend : B; re_lane : string }.
Arguments RouteEntry {B}.
Arguments re_backend {B}.
Arguments re_lane {B}.

#[global] Instance routeEntry_eq_dec `{EqDecision B} : EqDecision (routeEntry B).
Proof. solve_decision. Defined.

Record Router_t (B : Type) := MkRouter { def : B; routes : gmap string (routeEntry B) }.
Arguments MkRouter {B}.
Arguments def {B}.
Arguments routes {B}.

Record RouteSummary := MkSummary { Models : list string; Lane : string }.

#[global] Instance RouteSummary_eq_dec : EqDecision RouteSummary.
Proof. solve_decision. Defined.

Section router.
Context {B : Type}.

Definition NewRouter (d : B) : Router_t B := MkRouter d ∅.

Definition AddRoute (model lane : string) (b : B) (r : Router_t B) : Router_t B :=
  MkRouter (def r) (<[model := RouteEntry b lane]> (routes r)).

(** The table lookup of [resolve]. *)
Definition pick (r : Router_t B) (lane model : string) : B :=
  if String.eqb model "" then def r
  else match routes r !! model with
       | None => def r
       | Some e => if negb (String.eqb (re_lane e) "") && negb (String.eqb (re_lane e) lane)
                   then def r else re_backend e
       end.

Definition resolve (r : Router_t B) (req : request) (lane : string) : B * request :=
  match body req with
  | None => (def r, req)
  | Some b =>
      let '(model, consumed, rest) := peekModel b in
      (pick r lane model, Request (path req) (Some (MultiReader consumed rest)))
  end.

Definition ProxyForLane `{Backend R G B} (r : Router_t B) (lane : string) (req : request) : R :=
  let '(b, req') := resolve r req lane in Proxy b req'.

#[global] Instance Router_Backend `{Backend R G B} : Backend R G (Router_t B) := {
  Proxy r req := ProxyForLane r "" req;
  Generate r model prompt :=
    match routes r !! model with
    | Some e => Generate (re_backend e) model prompt
    | None => Generate (def r) model prompt
    end;
  Reachable r := Reachable (def r);
  Unloader _ := None;
}.

(** *** RoutingSummary *)

Context `{EqDecision B}.

(** [grouped[k] = append(grouped[k], model)] *)
Fixpoint group_add (model : string) (k : routeEntry B) (g : list (routeEntry B * list string))
  : list (routeEntry B * list string) :=
  match g with
  | [] => [(k, [model])]
  | (k', ms) :: g' => if decide (k = k') then (k', ms ++ [model]) :: g' else (k', ms) :: group_add model k g'
  end.

Definition group (entries : list (string * routeEntry B)) : list (routeEntry B * list string) :=
  foldl (fun g me => group_add me.1 me.2 g) [] entries.

(** [summaries[i].Models[0]] is only reached with a non-empty group. *)
Definition summary_le (a b : RouteSummary) : Prop :=
  if String.eqb (Lane a) (Lane b)
  then String.le (default "" (head (Models a))) (default "" (head (Models b)))
  else String.le (Lane a) (Lane b).

#[global] Instance summary_le_dec : RelDecision summary_le.
Proof. intros a b. unfold summary_le. destruct (String.eqb _ _); apply _. Defined.

Definition summarize (kms : routeEntry B * list string) : RouteSummary :=
  MkSummary (merge_sort String.le kms.2) (re_lane kms.1).

(** Ranging over a Go map visits it in any order: [summary r out] when some
    orders of the two maps give [out]. *)
Definition summaries (groups : list (routeEntry B * list string)) : list RouteSummary :=
  merge_sort summary_le (map summarize groups).

Definition RoutingSummary (r : Router_t B) (out : list RouteSummary) : Prop :=
  exists entries groups, entries ≡ₚ map_to_list (routes r) /\ groups ≡ₚ group entries /\
    out = summaries groups.

End router.

(** ** Activity tracking (activity.go) *)

Section activity.
Context {R G B : Type} `{Backend R G B}.

(** What [ctrl.TrackActivity] makes of a handler, for the slot it looked up. *)
Context (TrackActivity : nat -> (request -> R) -> request -> R).

Inductive decorated := Plain (b : B) | Tracked (b : B) (slot : nat).

Definition WithActivityTracking (b : B) (slot : nat) : decorated := Tracked b slot.

Definition undecorated (d : decorated) : B := match d with Plain b | Tracked b _ => b end.

#[global] Instance decorated_Backend : Backend R G decorated := {
  Proxy d := match d with Plain b => Proxy b | Tracked b k => TrackActivity k (Proxy b) end;
  Generate d := Generate (undecorated d);
  Reachable d := Reachable (undecorated d);
  Unloader d := Unloader (undecorated d);
}.

End activity.
Arguments decorated : clear implicits.

(** ** Reading the body *)

Lemma peek_run_app p t u : peek_run p (t ++ u) = peek_run (peek_run p t) u.
Proof. apply foldl_app. Qed.

Lemma peek_run_cons p c t : peek_run p (c :: t) = peek_run (peek_byte p c) t.
Proof. done. Qed.

Lemma peek_run_done m t : peek_run (PDone m) t = PDone m.
Proof. by induction t. Qed.

(** Chunk by chunk is as good as the first [limit] bytes at once. *)
Lemma peek_reads_spec fl cs L p buf m consumed rest :
  peek_reads fl cs L p buf = (m, consumed, rest) ->
  consumed ++ concat rest = buf ++ concat cs /\ (length consumed <= length buf + L)%nat /\
  m = peek_end (fl && (length (concat cs) <? L)%nat) (peek_run p (take L (concat cs))).
Proof.
  revert L p buf. induction cs as [|c cs IH]; intros L p buf H.
  - assert (H' : (peek_end (fl && (0 <? L)%nat) p, buf, []) = (m, consumed, rest)).
    { rewrite <- H. destruct L; by destruct p. }
    simplify_eq/=. rewrite take_nil. simpl. split; [done|]. split; [lia|done].
  - assert (Hd : (exists m', p = PDone m') \/ match drop L c with
        | [] => peek_reads fl cs (L - length c) (peek_run p c) (buf ++ c)
        | cut => (peek_end false (peek_run p (take L c)), buf ++ take L c, cut :: cs)
        end = (m, consumed, rest)) by (destruct p; eauto).
    destruct Hd as [[m' ->] | Hd].
    { simpl in H. simplify_eq/=. rewrite peek_run_done. split; [done|]. split; [lia|done]. }
    clear H. simpl concat. destruct (drop L c) as [|x cut] eqn:E.
    + assert (length c <= L)%nat as Hl by (apply (f_equal length) in E; rewrite length_drop in E; simpl in E; lia).
      destruct (IH _ _ _ Hd) as (H1 & H2 & H3). rewrite length_app in H2.
      split; [by rewrite H1, app_assoc|]. split; [lia|].
      rewrite H3, take_app_ge, peek_run_app, length_app by done. f_equal. f_equal.
      apply eq_true_iff_eq. rewrite !Nat.ltb_lt. lia.
    + assert (L < length c)%nat as Hl by (apply (f_equal length) in E; rewrite length_drop in E; simpl in E; lia).
      simplify_eq. change (concat ((x :: cut) :: cs)) with ((x :: cut) ++ concat cs).
      rewrite <- E, <- !app_assoc, (app_assoc (take L c)), take_drop.
      split; [done|]. rewrite length_app, length_take. split; [lia|].
      rewrite take_app_le by lia. rewrite length_app, (proj2 (Nat.ltb_ge _ _)) by lia. by rewrite andb_false_r.
Qed.

(** The model read from a body that is there all at once. *)
Definition model_of (b : reader) : string :=
  String.string_of_list_ascii
    (peek_end (failing b && (length (content b) <? peekLimit)%nat) (peek_run PStart (take peekLimit (content b)))).

Lemma peekModel_spec b m consumed rest :
  peekModel b = (m, consumed, rest) ->
  m = model_of b /\ consumed ++ content rest = content b /\ failing rest = failing b /\
  (length consumed <= peekLimit)%nat.
Proof.
  unfold peekModel. destruct (peek_reads _ _ _ _ _) as [[m' consumed'] rest'] eqn:E. intros H. injection H as <- <- <-.
  destruct (peek_reads_spec _ _ _ _ _ _ _ _ E) as (H1 & H2 & ->). done.
Qed.

(** ** Finding the model in a JSON object *)

Lemma skip_run acc s t :
  peek_run (PSkip s) t =
  match steps acc s t with
  | (_, Cont s', _) => PSkip s'
  | (_, SyntaxError, _) => PDone []
  | (_, _, r) => peek_run (PMember false) r
  end.
Proof.
  revert acc s. induction t as [|c t IH]; intros acc s; [done|]. rewrite peek_run_cons. simpl.
  destruct (step s c) as [s'| | |] eqn:E; [apply IH|done|done|apply peek_run_done].
Qed.

Lemma key_run raw s t :
  peek_run (PKey raw s) t =
  match steps raw s t with
  | (raw', Cont s', _) => PKey raw' s'
  | (raw', EndBefore, r) => peek_run (PColon (decoded raw')) r
  | _ => PDone []
  end.
Proof.
  revert raw s. induction t as [|c t IH]; intros raw s; [done|]. rewrite peek_run_cons. simpl.
  destruct (step s c) as [s'| | |] eqn:E; [apply IH|done|apply peek_run_done..].
Qed.

Lemma model_run raw s t :
  peek_run (PModel raw s) t =
  match steps raw s t with
  | (raw', Cont s', _) => PModel raw' s'
  | (raw', EndBefore, _) => PDone (decoded raw')
  | _ => PDone []
  end.
Proof.
  revert raw s. induction t as [|c t IH]; intros raw s; [done|]. rewrite peek_run_cons. simpl.
  destruct (step s c) as [s'| | |] eqn:E; [apply IH|apply peek_run_done..].
Qed.

(** Where a key may start. *)
Definition at_key (p : peek) : Prop := p = PMember true \/ p = PComma.

(** The spaces between tokens are skipped. *)
Lemma peek_spaces p w t : blanks w -> p = PStart \/ at_key p \/ p = PMember false \/ (exists k, p = PColon k) ->
  peek_run p (w ++ t) = peek_run p t.
Proof.
  intros Hw Hp. induction Hw as [|c w Hc _ IH]; [done|]. rewrite <- app_comm_cons, peek_run_cons.
  assert (peek_byte p c = p) as ->; [|done].
  destruct Hp as [->|[[->| ->]|[->|[k ->]]]]; simpl; unfold peek_member, peek_colon; by rewrite Hc.
Qed.

(** A complete value at the top is over before whatever follows it. *)
Lemma end_now c : stateEndValue [] c = EndBefore.
Proof. done. Qed.

(** A key and its colon: the key decides how the value is read. *)
Lemma key_read p w1 k w2 t : at_key p -> blanks w1 -> literal k -> blanks w2 ->
  peek_run p (w1 ++ k ++ w2 ++ ":"%char :: t)
  = peek_run (if bool_decide (decoded k = chars "model") then PModel [] reset else PSkip reset) t.
Proof.
  intros Hp H1 [k' Hk] H2. rewrite peek_spaces by auto. rewrite <- app_comm_cons, peek_run_cons.
  assert (peek_byte p quotemark = PKey [quotemark] in_string) as -> by (by destruct Hp as [->| ->]).
  rewrite key_run. unfold in_string. rewrite body_scan by done.
  assert (forall raw u, u <> [] -> steps raw (Scanner EndValue []) u = (raw, EndBefore, u)) as E by (by intros raw [|c u]).
  rewrite E by (by destruct w2). cbn match. rewrite peek_spaces by eauto. rewrite peek_run_cons. done.
Qed.

(** The members of the object before "model": any others, each with its comma. *)
Inductive others : text -> Prop :=
| others_nil : others []
| others_cons d w1 k w2 w3 v w4 t :
    blanks w1 -> literal k -> decoded k <> chars "model" -> blanks w2 -> blanks w3 -> value d v -> (d <= maxNestingDepth)%nat ->
    blanks w4 -> others t -> others (w1 ++ k ++ w2 ++ ":"%char :: w3 ++ v ++ w4 ++ ","%char :: t).

Lemma value_skipped d v w w' c t : value d v -> (d <= maxNestingDepth)%nat -> blanks w -> blanks w' -> delim c ->
  peek_run (PSkip reset) (w ++ v ++ w' ++ c :: t) = peek_run (PMember false) (c :: t).
Proof.
  intros Hv Hd Hw Hw' Hc. rewrite (skip_run []). unfold reset. rewrite spaces_scan by auto.
  pose proof (fun H => value_scan d v Hv ([] ++ w) [] (w' ++ c :: t) H) as [(s & Ho & Es)|Es]; [simpl; lia|..]; rewrite Es; clear Es.
  - assert (exists x u, w' ++ c :: t = x :: u /\ (delim x \/ isSpace x = true)) as (x & u & E & Hx).
    { destruct Hw' as [|x u Hx _]; do 2 eexists; (split; [done|]); auto. }
    rewrite E. cbn [steps]. rewrite (Ho x Hx), end_now. cbn match. rewrite <- E. apply peek_spaces; auto.
  - apply peek_spaces; auto.
Qed.

Lemma others_skipped pre p t : others pre -> at_key p ->
  exists p', at_key p' /\ peek_run p (pre ++ t) = peek_run p' t.
Proof.
  intros Ho. revert p. induction Ho as [|d w1 k w2 w3 v w4 pre H1 Hk Hm H2 H3 Hv Hd H4 _ IH]; intros p Hp; [by exists p|].
  destruct (IH PComma) as (p' & Hp' & E); [by right|]. exists p'. split; [done|]. rewrite <- E.
  repeat (rewrite <- ?app_assoc; rewrite <- ?app_comm_cons). rewrite key_read by done. rewrite bool_decide_eq_false_2 by done.
  rewrite (value_skipped d) by (done || by left). by rewrite peek_run_cons.
Qed.

Lemma decoded_spaces w l : blanks w -> decoded (w ++ l) = decoded l.
Proof.
  intros Hw. unfold decoded, decode_string. enough (skip_spaces (w ++ l) = skip_spaces l) as -> by done.
  induction Hw as [|c w Hc _ IH]; [done|]. simpl. by rewrite Hc.
Qed.

(** The text of an object up to the end of the literal that its first "model" has. *)
Inductive up_to_model (l : text) : text -> Prop :=
| up_to_model_intro w0 pre w1 k w2 w3 : blanks w0 -> others pre -> blanks w1 -> literal k -> decoded k = chars "model" ->
    blanks w2 -> blanks w3 -> literal l ->
    up_to_model l (w0 ++ "{"%char :: pre ++ w1 ++ k ++ w2 ++ ":"%char :: w3 ++ l).

Lemma model_read l t : up_to_model l t -> exists raw, decoded raw = decoded l /\
  peek_run PStart t = PModel raw (Scanner EndValue []).
Proof.
  intros [w0 pre w1 k w2 w3 H0 Hpre H1 Hk Hm H2 H3 Hl]. exists (w3 ++ l). split; [by apply decoded_spaces|].
  rewrite peek_spaces by auto. rewrite peek_run_cons. change (peek_byte PStart "{") with (PMember true).
  destruct (others_skipped pre (PMember true) (w1 ++ k ++ w2 ++ ":"%char :: w3 ++ l) Hpre) as (p & Hp & ->); [by left|].
  rewrite key_read by done. rewrite bool_decide_eq_true_2 by done. rewrite model_run. unfold reset.
  rewrite spaces_scan by auto. rewrite <- (app_nil_r l) at 1. by rewrite literal_scan by auto.
Qed.

(** An object whose first "model" ends within the limit, whatever follows it. *)
Lemma model_of_object b l t rest :
  content b = t ++ rest -> up_to_model l t -> (length t <= peekLimit)%nat -> rest <> [] \/ failing b = false ->
  model_of b = String.string_of_list_ascii (decoded l).
Proof.
  intros Hb Ht Hl Hr. destruct (model_read l t Ht) as (raw & <- & E). unfold model_of. f_equal. rewrite Hb.
  rewrite take_app_ge, peek_run_app, E by done. destruct (take (peekLimit - length t) rest) as [|c u] eqn:Ec.
  - assert (failing b && (length (t ++ rest) <? peekLimit)%nat = false) as ->; [|done].
    destruct Hr as [Hr| ->]; [|done]. apply andb_false_iff. right. apply Nat.ltb_ge. rewrite length_app.
    destruct rest as [|c rest]; [done|]. destruct (peekLimit - length t)%nat eqn:Ez; [|done]. simpl. lia.
  - rewrite peek_run_cons. simpl peek_byte. by rewrite peek_run_done.
Qed.

(** ** The summary *)

Section summary.
Context {B : Type} `{EqDecision B}.
Implicit Types (k : routeEntry B) (entries : list (string * routeEntry B)) (g : list (routeEntry B * list string)).

#[local] Instance summary_le_total : Total summary_le.
Proof.
  intros a b. unfold summary_le. rewrite (String.eqb_sym (Lane b)).
  destruct (String.eqb _ _); apply String.le_total.
Qed.

#[local] Instance summary_le_trans : Transitive summary_le.
Proof.
  intros a b c. unfold summary_le.
  destruct (String.eqb_spec (Lane a) (Lane b)) as [E1|N1], (String.eqb_spec (Lane b) (Lane c)) as [E2|N2],
    (String.eqb_spec (Lane a) (Lane c)) as [E3|N3]; intros H1 H2; try congruence; try (by etrans).
  exfalso. apply N1. rewrite <- E3 in H2. by apply (anti_symm String.le).
Qed.

(** The models of one entry, in the order of [entries]. *)
Definition models_of k entries : list string := (filter (fun me => me.2 = k) entries).*1.

Lemma elem_of_models_of m k entries : m ∈ models_of k entries <-> (m, k) ∈ entries.
Proof.
  unfold models_of. rewrite list_elem_of_fmap. split.
  - intros ([m' k'] & -> & Hf). apply list_elem_of_filter in Hf as [Hk Hm]. simpl in *. by subst.
  - intros Hm. exists (m, k). split; [done|]. by apply list_elem_of_filter.
Qed.

Lemma models_of_snoc k entries m k' :
  models_of k (entries ++ [(m, k')]) = models_of k entries ++ (if decide (k' = k) then [m] else []).
Proof. unfold models_of. rewrite filter_app, fmap_app, filter_cons, filter_nil. simpl. by case_decide. Qed.

Lemma group_add_spec m k g : NoDup g.*1 ->
  NoDup (group_add m k g).*1 /\
  forall k' ms, (k', ms) ∈ group_add m k g <->
    ((k', ms) ∈ g /\ k' <> k) \/
    (k' = k /\ exists ms', ms = ms' ++ [m] /\ ((k, ms') ∈ g \/ (k ∉ g.*1 /\ ms' = []))).
Proof.
  induction g as [|[k1 ms1] g IH]; simpl; intros Hn.
  - split; [apply NoDup_singleton|]. intros k' ms. rewrite list_elem_of_singleton. split.
    + intros [= -> ->]. right. split; [done|]. exists []. split; [done|]. right. split; [apply not_elem_of_nil|done].
    + intros [[[]%elem_of_nil _]|(-> & ms' & -> & [[]%elem_of_nil|[_ ->]])]. done.
  - apply NoDup_cons in Hn as [Hn1 Hn]. destruct (IH Hn) as [IH1 IH2]. case_decide as E.
    + subst k1. simpl. split; [by constructor|]. intros k' ms. setoid_rewrite elem_of_cons.
      assert (forall ms', (k, ms') ∉ g) as Hg by (intros ms' Hin; apply Hn1; by apply (list_elem_of_fmap_2' fst g _ _ Hin)).
      split.
      * intros [[= -> ->]|Hin]; [right; split; [done|]; exists ms1; auto|].
        left. split; [by right|]. intros ->. by eapply Hg.
      * intros [[[[= -> ->]|Hin] Hne]|(-> & ms' & -> & [[[= <-]|Hin]|[Hk _]])]; auto; try done.
        -- by exfalso; eapply Hg.
        -- exfalso. apply Hk. by left.
    + simpl. split.
      * constructor; [|done]. intros ([k' ms] & -> & Hin)%list_elem_of_fmap. simpl in *.
        apply IH2 in Hin as [[Hin _]|[-> _]]; [|done]. apply Hn1. by apply (list_elem_of_fmap_2' fst g _ _ Hin).
      * intros k' ms. setoid_rewrite elem_of_cons. rewrite IH2. split.
        -- intros [[= -> ->]|[[? ?]|(-> & ms' & -> & [?|[? ->]])]]; [left; split; auto|left; split; auto| |].
           ++ right. split; [done|]. exists ms'. auto.
           ++ right. split; [done|]. exists []. split; [done|]. right. split; [|done].
              intros [?|?]; [congruence|contradiction].
        -- intros [[[[= -> ->]|?] ?]|(-> & ms' & -> & [[[= ? ?]|?]|[Hk ->]])]; auto; try congruence.
           ++ right. right. split; [done|]. exists ms'. auto.
           ++ right. right. split; [done|]. exists []. split; [done|]. right. split; [|done].
              intros ?. apply Hk. by right.
Qed.

Lemma group_spec entries :
  NoDup (group entries).*1 /\
  forall k ms, (k, ms) ∈ group entries <-> ms = models_of k entries /\ ms <> [].
Proof.
  induction entries as [|[m k] entries [IH1 IH2]] using rev_ind.
  - split; [constructor|]. intros k ms. split; [by intros ?%elem_of_nil|]. by intros [-> ?].
  - unfold group. rewrite foldl_app. simpl. destruct (group_add_spec m k _ IH1) as [H1 H2].
    split; [exact H1|]. intros k' ms. rewrite models_of_snoc.
    etrans; [apply (H2 k' ms)|]. case_decide as E.
    + subst k'. split.
      * intros [[_ ?]|(_ & ms' & -> & Hm)]; [done|]. split; [|by destruct ms'].
        f_equal. destruct Hm as [Hm|[Hk ->]]; [by apply IH2 in Hm as [-> _]|].
        destruct (models_of k entries) as [|x l] eqn:E; [done|]. exfalso. apply Hk.
        apply (list_elem_of_fmap_2' fst (group entries) (k, x :: l)); [|done]. apply IH2. by rewrite E.
      * intros [-> _]. right. split; [done|]. exists (models_of k entries). split; [done|].
        destruct (models_of k entries) as [|x l] eqn:E; [right|left].
        -- split; [|done]. intros ([k' ms] & -> & Hin)%list_elem_of_fmap. simpl in *.
           apply IH2 in Hin as [-> ?]. by rewrite E in *.
        -- apply IH2. by rewrite E.
    + rewrite app_nil_r, (IH2 k' ms). split; [|by left].
      intros [[? _]|[? _]]; [done|]. congruence.
Qed.

Lemma models_of_perm k entries entries' : entries ≡ₚ entries' -> models_of k entries ≡ₚ models_of k entries'.
Proof. intros H. unfold models_of. by rewrite H. Qed.

Lemma sort_perm (l l' : list string) : l ≡ₚ l' -> merge_sort String.le l = merge_sort String.le l'.
Proof.
  intros H. apply (StronglySorted_unique String.le); [apply StronglySorted_merge_sort; apply _..|].
  by rewrite !merge_sort_Permutation.
Qed.

(** A summary of [r], from the groups of some order of its table. *)
Lemma elem_of_summaries entries s :
  s ∈ map summarize (group entries) <->
  exists k, s = MkSummary (merge_sort String.le (models_of k entries)) (re_lane k) /\ models_of k entries <> [].
Proof.
  rewrite list_elem_of_fmap. destruct (group_spec entries) as [_ Hg]. split.
  - intros ([k ms] & -> & [-> ?]%Hg). by exists k.
  - intros (k & -> & Hk). exists (k, models_of k entries). split; [done|]. by apply Hg.
Qed.

Lemma groups_perm entries entries' :
  entries ≡ₚ entries' -> map summarize (group entries) ≡ₚ map summarize (group entries').
Proof.
  intros He.
  set (f := fun kms : routeEntry B * list string => (kms.1, merge_sort String.le kms.2)).
  set (h := fun kms : routeEntry B * list string => MkSummary kms.2 (re_lane kms.1)).
  assert (forall g, map summarize g = h <$> (f <$> g)) as Hh by (intros g; by rewrite <- list_fmap_compose).
  rewrite !Hh. apply fmap_Permutation.
  assert (forall entries, NoDup (f <$> group entries)) as Hn.
  { intros e. apply (NoDup_fmap_1 fst). rewrite <- list_fmap_compose. apply group_spec. }
  assert (forall e k ms, (k, ms) ∈ f <$> group e <->
     ms = merge_sort String.le (models_of k e) /\ models_of k e <> []) as Hm.
  { intros e k ms. destruct (group_spec e) as [_ Hg]. rewrite list_elem_of_fmap. split.
    - by intros ([k' ms'] & [= -> ->] & [-> ?]%Hg).
    - intros [-> ?]. exists (k, models_of k e). split; [done|]. by apply Hg. }
  apply NoDup_Permutation; [apply Hn..|]. intros [k ms]. rewrite !Hm.
  rewrite (sort_perm _ _ (models_of_perm k _ _ He)).
  assert (models_of k entries <> [] <-> models_of k entries' <> []) as ->; [|done].
  pose proof (models_of_perm k _ _ He) as Hp. split; intros Hne E; apply Hne; rewrite E in Hp.
  - by apply Permutation_nil_r in Hp.
  - by apply Permutation_nil_l in Hp.
Qed.

(** Two summaries that compare equal are the same: they share a model. *)
Lemma summary_le_antisym entries a b :
  (forall m k k', (m, k) ∈ entries -> (m, k') ∈ entries -> k = k') ->
  a ∈ map summarize (group entries) -> b ∈ map summarize (group entries) ->
  summary_le a b -> summary_le b a -> a = b.
Proof.
  intros Hn (k & -> & Hk)%elem_of_summaries (k' & -> & Hk')%elem_of_summaries Hab Hba.
  unfold summary_le in *. simpl in *. rewrite (String.eqb_sym (re_lane k')) in Hba.
  destruct (String.eqb_spec (re_lane k) (re_lane k')) as [E|N];
    [|by exfalso; apply N, (anti_symm String.le)].
  assert (forall k, models_of k entries <> [] ->
    (default "" (head (merge_sort String.le (models_of k entries))), k) ∈ entries) as Hh.
  { intros k0 H0. apply elem_of_models_of.
    pose proof (merge_sort_Permutation String.le (models_of k0 entries)) as Hp.
    destruct (merge_sort String.le (models_of k0 entries)) as [|x l]; [by apply Permutation_nil_l in Hp|].
    rewrite <- Hp. by left. }
  pose proof (Hh _ Hk) as H1. pose proof (Hh _ Hk') as H2.
  rewrite (anti_symm String.le _ _ Hab Hba) in H1.
  by rewrite (Hn _ _ _ H1 H2).
Qed.

Lemma table_fun (r : Router_t B) entries m k k' : entries ≡ₚ map_to_list (routes r) ->
  (m, k) ∈ entries -> (m, k') ∈ entries -> k = k'.
Proof. intros -> H1 H2. by apply (map_to_list_unique (routes r) m). Qed.

Lemma RoutingSummary_spec (r : Router_t B) out : RoutingSummary r out ->
  StronglySorted summary_le out /\ out ≡ₚ map summarize (group (map_to_list (routes r))).
Proof.
  intros (entries & groups & He & Hg & ->). split; [apply StronglySorted_merge_sort; apply _|].
  unfold summaries. rewrite merge_sort_Permutation, <- (groups_perm _ _ He).
  by apply (fmap_Permutation summarize).
Qed.

Lemma group_add_concat m k g : concat (group_add m k g).*2 ≡ₚ m :: concat g.*2.
Proof.
  induction g as [|[k' ms] g IH]; [done|]. cbn [group_add]. case_decide; rewrite !fmap_cons; simpl concat.
  - rewrite <- app_assoc. simpl. by rewrite Permutation_middle.
  - rewrite IH. by rewrite Permutation_middle.
Qed.

Lemma group_concat entries : concat (group entries).*2 ≡ₚ entries.*1.
Proof.
  induction entries as [|[m k] entries IH] using rev_ind; [done|].
  unfold group. rewrite foldl_app. simpl. rewrite group_add_concat, fmap_app. simpl.
  rewrite <- Permutation_cons_append. by constructor.
Qed.

Lemma summaries_concat g : concat (map Models (map summarize g)) ≡ₚ concat g.*2.
Proof. induction g as [|[k ms] g IH]; [done|]. simpl. by rewrite merge_sort_Permutation, IH. Qed.

Lemma concat_perm {A} (l l' : list (list A)) : l ≡ₚ l' -> concat l ≡ₚ concat l'.
Proof. induction 1; simpl; [done|by f_equiv| |by etrans]. rewrite !app_assoc. by rewrite (Permutation_app_comm y). Qed.

End summary.

(** ** Properties *)

(** C16: the router is a pass-through: whatever chunks the body arrives in, the
    request goes to the backend the table gives for the model readable in its
    first 64 KiB, with its bytes and its end unchanged; no more than 64 KiB are
    buffered; without a body, a model or a matching route it goes to the default
    backend. *)
Theorem router_forwards {R G B} `{Backend R G B} (r : Router_t B) lane req :
  exists req',
    ProxyForLane r lane req = Proxy (pick r lane (default "" (model_of <$> body req))) req' /\
    path req' = path req /\ (content <$> body req') = (content <$> body req) /\
    (failing <$> body req') = (failing <$> body req) /\
    forall b, body req = Some b -> exists consumed rest,
      body req' = Some (MultiReader consumed rest) /\ (length consumed <= peekLimit)%nat.
Proof.
  unfold ProxyForLane, resolve. destruct req as [u [b|]]; simpl; [|by exists (Request u None)].
  destruct (peekModel b) as [[m consumed] rest] eqn:E. destruct (peekModel_spec _ _ _ _ E) as (-> & H1 & H2 & H3).
  eexists. split; [reflexivity|]. simpl. split; [done|].
  split; [f_equal; exact H1|]. split; [by rewrite H2|]. intros b' [= <-]. by exists consumed, rest.
Qed.

(** C34: a client's JSON request reaches the backend routed for its model.  The
    body is an object in any spelling the grammar of JSON allows, spaces, escapes,
    numbers and nesting included, as far as its first top-level "model"; that
    member's string, decoded, decides, whatever members precede it (nested values
    and strings that contain "model" included) and whatever bytes follow, provided
    it ends within the first 64 KiB.  A route scoped to another lane leaves the
    request with the default backend, as does a model that has no route. *)
Theorem router_finds_model {R G B} `{Backend R G B} (r : Router_t B) lane req b t l rest m :
  body req = Some b -> content b = t ++ rest -> up_to_model l t -> (length t <= peekLimit)%nat ->
  rest <> [] \/ failing b = false -> decode_string l = Some m ->
  exists req', content <$> body req' = Some (content b) /\
    ProxyForLane r lane req =
      Proxy (match routes r !! String.string_of_list_ascii m with
             | Some e => if decide (m <> [] /\ (re_lane e = "" \/ re_lane e = lane)) then re_backend e else def r
             | None => def r
             end) req'.
Proof.
  intros Hb Hc Ht Hl Hr Hm. unfold ProxyForLane, resolve. rewrite Hb.
  destruct (peekModel b) as [[m' consumed] rest'] eqn:E. destruct (peekModel_spec _ _ _ _ E) as (-> & H1 & _).
  exists (Request (path req) (Some (MultiReader consumed rest'))).
  split; [simpl; f_equal; exact H1|]. f_equal. rewrite (model_of_object b l t rest) by done.
  unfold decoded. rewrite Hm. unfold pick. cbn [default]. destruct m as [|c m].
  - simpl String.eqb. cbn match. destruct (routes r !! _); [|done]. rewrite decide_False; [done|]. by intros [? _].
  - simpl String.eqb. cbn match. destruct (routes r !! _) as [e|]; [|done].
    destruct (String.eqb_spec (re_lane e) ""), (String.eqb_spec (re_lane e) lane); simpl; case_decide; naive_solver.
Qed.

(** The admin summary does not depend on the order in which Go ranges over
    its maps: there is one output, sorted, in which every routed model occurs
    exactly once, and two models share a summary exactly when they share their
    backend and lane. *)
Theorem routing_summary_deterministic {B} `{EqDecision B} (r : Router_t B) out :
  RoutingSummary r out ->
  (forall out', RoutingSummary r out' -> out' = out) /\
  StronglySorted summary_le out /\ concat (map Models out) ≡ₚ (map_to_list (routes r)).*1 /\
  forall s, s ∈ out -> exists e, Lane s = re_lane e /\ forall m, m ∈ Models s <-> routes r !! m = Some e.
Proof.
  intros Hs. destruct (RoutingSummary_spec _ _ Hs) as [H1 H2].
  split; [|split; [done|split]].
  - intros out' [H3 H4]%RoutingSummary_spec. apply (StronglySorted_unique_strong summary_le); [|done..|by rewrite H2, H4].
    intros a b Ha Hb. rewrite H4 in Ha. rewrite H2 in Hb.
    apply (summary_le_antisym (map_to_list (routes r))); [|done..]. intros m k k'. by apply table_fun with r.
  - rewrite (concat_perm _ _ (fmap_Permutation Models _ _ H2)). by rewrite (summaries_concat (group _)), group_concat.
  - intros s. rewrite H2, elem_of_summaries. intros (k & -> & _). exists k. split; [done|]. intros m. simpl.
    by rewrite merge_sort_Permutation, elem_of_models_of, elem_of_map_to_list.
Qed.

(** ** Witnesses *)

(** A backend that answers with its name and the bytes it was sent. *)
#[local] Instance demo_backend : Backend (string * option text) string string := {
  Proxy b req := (b, content <$> body req);
  Generate b model prompt := b;
  Reachable _ := None;
  Unloader _ := None;
}.

Definition demo_router : Router_t string :=
  AddRoute "llama3" "batch" "vllm" (AddRoute "qwen" "batch" "vllm" (AddRoute "phi" "" "cpu" (NewRouter "ollama"))).

(** { "prompt" : "\u0022model\u0022: café" , "options":{"model":-1.5e+3, "stop":[ ]},<newline> "mod\u0065l": "qwen" }, in two
    reads that do not end at a token; quotes are put in by [q]. *)
Definition q (s : text) : text := quotemark :: s ++ [quotemark].

Definition demo_prompt : text := q (chars "\u0022model\u0022: caf" ++ [chr 195; chr 169]).

Definition demo_options : text :=
  "{"%char :: (([] ++ q (chars "model") ++ [] ++ ":"%char :: [] ++ chars "-1.5e+3" ++ []) ++ ","%char ::
  (chars " " ++ q (chars "stop") ++ [] ++ ":"%char :: [] ++ ("["%char :: chars " " ++ ["]"%char]) ++ [])) ++ ["}"%char].

Definition demo_up_to : text :=
  [] ++ "{"%char :: (chars " " ++ q (chars "prompt") ++ chars " " ++ ":"%char :: chars " " ++ demo_prompt ++ chars " " ++ ","%char ::
    (chars " " ++ q (chars "options") ++ [] ++ ":"%char :: [] ++ demo_options ++ [] ++ ","%char :: []))
  ++ [chr 10; " "%char] ++ q (chars "mod\u0065l") ++ [] ++ ":"%char :: chars " " ++ q (chars "qwen").

Definition demo_request : request :=
  let t := demo_up_to ++ chars " }" in Request "/api/generate" (Some (Reader [take 30 t; []; drop 30 t] true)).

(** A literal of plain characters. *)
Lemma plain_literal s : forallb (fun c => negb (Ascii.eqb c quotemark) && negb (Ascii.eqb c "\") && (32 <=? ord c)) s = true ->
  literal (q s).
Proof.
  intros H. constructor. induction s as [|c s IH]; [constructor|].
  simpl in H. apply andb_true_iff in H as [[[H1 H2]%andb_true_iff H3]%andb_true_iff H].
  apply negb_true_iff, Ascii.eqb_neq in H1. apply negb_true_iff, Ascii.eqb_neq in H2. apply Z.leb_le in H3.
  by apply body_char; [..|apply IH].
Qed.

Lemma spaces_compute w : forallb isSpace w = true -> blanks w.
Proof. intros H. apply Forall_forall. intros c Hc. rewrite forallb_forall in H. by apply H, list_elem_of_In. Qed.

Lemma demo_prompt_value : value 0 demo_prompt.
Proof.
  apply value_string. constructor. apply (body_unicode "0" "0" "2" "2"); [by eexists..|].
  do 5 (apply body_char; [done..|]). apply (body_unicode "0" "0" "2" "2"); [by eexists..|].
  do 7 (apply body_char; [done..|]). constructor.
Qed.

Lemma demo_options_value : value 2 demo_options.
Proof.
  apply value_object, members_more; [|apply members_one].
  - apply (member_intro 1 [] (q (chars "model")) [] []); try (by apply spaces_compute); [by apply plain_literal|].
    apply value_number. apply (number_intro ["-"%char] ["1"%char] (chars ".5") (chars "e+3")); [by right|..].
    + by apply integer_digits; [|constructor].
    + by apply fraction_digits; [|constructor].
    + apply exponent_signed; [by left|by left|done|constructor].
  - apply (member_intro 1 (chars " ") (q (chars "stop")) [] []); try (by apply spaces_compute); [by apply plain_literal|].
    apply (value_array_empty 0 (chars " ")). by apply spaces_compute.
Qed.

Lemma demo_up_to_model : up_to_model (q (chars "qwen")) demo_up_to.
Proof.
  apply (up_to_model_intro _ [] _ [chr 10; " "%char] (q (chars "mod\u0065l")) [] (chars " "));
    try (by apply spaces_compute); try (by apply plain_literal); [| |done].
  - apply (others_cons 0 (chars " ") _ (chars " ") (chars " ") _ (chars " "));
      try (by apply spaces_compute); [by apply plain_literal|done|exact demo_prompt_value|lia|].
    apply (others_cons 2 (chars " ") _ [] [] _ []);
      try (by apply spaces_compute); [by apply plain_literal|done|exact demo_options_value|by apply Nat.leb_le|constructor].
  - constructor. do 3 (apply body_char; [done..|]). apply (body_unicode "0" "0" "6" "5"); [by eexists..|].
    apply body_char; [done..|]. constructor.
Qed.

Lemma router_finds_model_witness : exists req',
  content <$> body req' = content <$> body demo_request /\
  ProxyForLane demo_router "batch" demo_request = ("vllm", content <$> body req').
Proof.
  destruct (router_finds_model demo_router "batch" demo_request _ demo_up_to (q (chars "qwen")) (chars " }") (chars "qwen") eq_refl)
    as (req' & H1 & H2).
  - vm_compute. reflexivity.
  - exact demo_up_to_model.
  - apply Nat.leb_le. vm_compute. reflexivity.
  - left. discriminate.
  - vm_compute. reflexivity.
  - exists req'. split; [exact H1|exact H2].
Defined.

Definition demo_summary : list RouteSummary := summaries (group (map_to_list (routes demo_router))).

Lemma demo_summary_ok : RoutingSummary demo_router demo_summary.
Proof. by do 2 eexists. Qed.

Lemma routing_summary_deterministic_witness :
  demo_summary = [MkSummary ["phi"] ""; MkSummary ["llama3"; "qwen"] "batch"] /\
  StronglySorted summary_le demo_summary.
Proof.
  split; [vm_compute; reflexivity|].
  exact (proj1 (proj2 (routing_summary_deterministic demo_router demo_summary demo_summary_ok))).
Defined.

End Router.
