(* ===== verification/Broker.v ===== *)
(** * The upstream backends and the wiring of the broker

    internal/backend/{backend,ollama_backend,openai_backend}.go and
    cmd/broker/main.go ([buildBroker], [buildRoutes], the health check and the
    choice of the lanes' handlers).  An upstream instance is known by the order
    in which [main] makes it: 0 for the default backend, [i + 1] for route [i];
    serving a request gives the trace of what happens to it.

    Proved: a configuration that loads always builds, without panic, into a
    broker whose requests run on the instance configured for their model and are
    tracked at the slot whose unloader stops that very instance; and the
    controller it makes is one of those of [Yield.init]. *)

From S2P Require Import Prelude GoLib Json Yield Config Router.
#[local] Set Warnings "-clear-no-such-hyp,-level-tolerance".
Local Open Scope Z_scope.

Module Broker.
Import GoLib Config.

(** ** Upstream instances *)

Inductive impl :=
| ollamaBackend (url : option URL)
| openaiBackend (url : option URL) (apiKey : string) (unloader : option string).

Record instance := Instance { ref : nat; kind : impl }.

#[global] Instance impl_eq_dec : EqDecision impl.
Proof. solve_decision. Defined.
#[global] Instance instance_eq_dec : EqDecision instance.
Proof. solve_decision. Defined.

(** The fields of the configuration the constructors read. *)
Definition newOllamaBackend (OllamaURL : option URL) : impl := ollamaBackend OllamaURL.

Definition newOpenAIBackend (UpstreamURL : option URL) (UpstreamAPIKey UpstreamUnitName : string) : impl :=
  openaiBackend UpstreamURL UpstreamAPIKey
    (if negb (String.eqb UpstreamUnitName "") then Some UpstreamUnitName else None).

Definition New (ref : nat) (cfg : Config_t) : result string instance :=
  if String.eqb (UpstreamBackend cfg) "ollama" then Ok (Instance ref (newOllamaBackend (OllamaURL cfg)))
  else if String.eqb (UpstreamBackend cfg) "openai"
  then Ok (Instance ref (newOpenAIBackend (UpstreamURL cfg) (UpstreamAPIKey cfg) (UpstreamUnitName cfg)))
  else Err "backend: unknown UpstreamBackend".

Definition NewInstance (ref : nat) (family : string) (u : URL) (apiKey unitName : string) : result string instance :=
  if String.eqb family "ollama" then Ok (Instance ref (newOllamaBackend (Some u)))
  else if String.eqb family "openai" then Ok (Instance ref (newOpenAIBackend (Some u) apiKey unitName))
  else Err "backend: unknown family".

(** [Unloader()]: the unloader of instance [ref], or nil. *)
Definition unloader_of (i : instance) : option nat :=
  match kind i with
  | ollamaBackend _ => Some (ref i)
  | openaiBackend _ _ (Some _) => Some (ref i)
  | openaiBackend _ _ None => None
  end.

(** What an unload or a reload makes of the outside world. *)
Inductive command := Systemctl (verb unit : string) | KeepAliveZero (model : string).

Section unload.
(** [run]: the outcome of a command; [loaded]: the answer of [LoadedModels]. *)
Context (run : command -> option string) (loaded : result string (list string)).

(** [systemdUnitController.Unload] and [.Reload]. *)
Definition systemd (verb unit : string) : option string * list command :=
  (match run (Systemctl verb unit) with
   | Some e => Some ("systemctl " +:+ verb +:+ " " +:+ unit +:+ ": " +:+ e)
   | None => None
   end, [Systemctl verb unit]).

(** [ollama.Client.Unload]: every loaded model, the first error returned. *)
Fixpoint unload_each (names : list string) (firstErr : option string) : option string * list command :=
  match names with
  | [] => (firstErr, [])
  | n :: names' =>
      let e := run (KeepAliveZero n) in
      let '(r, cs) := unload_each names' (match firstErr with None => e | Some _ => firstErr end) in
      (r, KeepAliveZero n :: cs)
  end.

Definition Unload (i : instance) : option string * list command :=
  match kind i with
  | ollamaBackend _ => match loaded with Ok names => unload_each names None | Err e => (Some e, []) end
  | openaiBackend _ _ (Some u) => systemd "stop" u
  | openaiBackend _ _ None => (None, [])
  end.

(** Ollama reloads lazily. *)
Definition Reload (i : instance) : option string * list command :=
  match kind i with
  | ollamaBackend _ => (None, [])
  | openaiBackend _ _ (Some u) => systemd "start" u
  | openaiBackend _ _ None => (None, [])
  end.
End unload.

(** ** What an unload does *)

Lemma unload_each_spec run names e :
  unload_each run names e =
  (match e with Some _ => e | None => head (omap (fun n => run (KeepAliveZero n)) names) end, map KeepAliveZero names).
Proof.
  revert e. induction names as [|n names IH]; intros e; simpl; [by destruct e|]. rewrite IH.
  destruct e; [done|]. by destruct (run (KeepAliveZero n)).
Qed.

Definition commands (run : command -> option string) (loaded : result string (list string)) (i : instance) : list command :=
  (Unload run loaded i).2 ++ (Reload run i).2.

(** The systemd unit an instance drives. *)
Lemma commands_unit run loaded i verb u : Systemctl verb u ∈ commands run loaded i ->
  exists url key, kind i = openaiBackend url key (Some u).
Proof.
  unfold commands, Unload, Reload. destruct i as [r [url|url key [u'|]]]; simpl; intros H.
  - rewrite app_nil_r in H. destruct loaded as [names|]; [|by apply elem_of_nil in H].
    rewrite unload_each_spec in H. simpl in H. by apply list_elem_of_fmap in H as (n & ? & _).
  - exists url, key. by rewrite !elem_of_cons, elem_of_nil in H; destruct H as [[= _ ->]|[[= _ ->]|[]]].
  - by apply elem_of_nil in H.
Qed.

Lemma NoDup_names_lookup (l : list string) j k u : NoDup (filter (fun x => x <> "") l) -> u <> "" ->
  l !! j = Some u -> l !! k = Some u -> j = k.
Proof.
  intros Hn Hu. revert j k Hn.
  induction l as [|x l IH]; intros [|j] [|k] Hn Hj Hk; simplify_eq/=; [done|..]; rewrite filter_cons in Hn;
    case_decide; try done; try (apply NoDup_cons in Hn as [Hx Hn]).
  - exfalso. apply Hx, list_elem_of_filter. split; [done|]. by eapply list_elem_of_lookup_2.
  - exfalso. apply Hx, list_elem_of_filter. split; [done|]. by eapply list_elem_of_lookup_2.
  - f_equal. by apply IH.
  - f_equal. by apply IH.
Qed.

(** ** Serving *)

(** The trace of a request: the tracked handler's entry and exit for a slot of
    the controller, and the instance that serves it. *)
Inductive served :=
| Begin (slot : nat)
| Served (i : instance) (req : Router.request)
| End_ (slot : nat).

Inductive generated := Generated (i : instance) (model prompt : string).

Definition track (slot : nat) (next : Router.request -> list served) (req : Router.request) : list served :=
  Begin slot :: next req ++ [End_ slot].

Section wiring.
(** Whether an upstream answers its probe, with its error. *)
Context (probe : instance -> option string).

#[local] Instance instance_Backend : Router.Backend (list served) generated instance := {
  Router.Proxy i req := [Served i req];
  Router.Generate i model prompt := Generated i model prompt;
  Router.Reachable i := probe i;
  Router.Unloader i := unloader_of i;
}.

Abbreviation backend := (Router.decorated instance).

#[local] Instance backend_Backend : Router.Backend (list served) generated backend :=
  Router.decorated_Backend track.

(** ** buildRoutes *)

Fixpoint buildRoutes (i : nat) (rbs : list RouteBackend)
  : result string (list instance * list (option nat) * list string) :=
  match rbs with
  | [] => Ok ([], [], [])
  | rb :: rbs' =>
      b ← NewInstance (S i) (Backend rb) (RouteURL rb) (APIKey rb) (UnitName rb);
      '(bs, us, ls) ← buildRoutes (S i) rbs';
      Ok (b :: bs, unloader_of b :: us, URL_String (RouteURL rb) :: ls)
  end.

(** ** buildBroker *)

Record build := Build {
  router : option (Router.Router_t backend);
  be : backend;
  ctrl : Yield.controller;
  idleStatus : bool;
}.

(** Decorating instance [j] when it has an idle timeout. *)
Definition decorate (timeout : Z) (b : instance) (c : Yield.controller) (j : nat) : outcome backend :=
  if negb (timeout =? 0)
  then match Yield.TrackActivity j c with
       | Next slot => Next (Router.WithActivityTracking b slot)
       | Panic => Panic
       | Disabled => Disabled
       end
  else Next (Router.Plain b).

Fixpoint decorate_routes (rbs : list RouteBackend) (bs : list instance) (c : Yield.controller) (j : nat)
  : outcome (list backend) :=
  match rbs, bs with
  | rb :: rbs', b :: bs' =>
      d ← decorate (IdleTimeout rb) b c j;
      ds ← decorate_routes rbs' bs' c (S j);
      Next (d :: ds)
  | _, _ => Next []
  end.

(** One [AddRoute] per model of a route. *)
Definition add_models (rb : RouteBackend) (d : backend) (r : Router.Router_t backend) : Router.Router_t backend :=
  foldl (fun r m => Router.AddRoute m (Lane rb) d r) r (Models rb).

Fixpoint add_routes (rbs : list RouteBackend) (ds : list backend) (r : Router.Router_t backend)
  : Router.Router_t backend :=
  match rbs, ds with
  | rb :: rbs', d :: ds' => add_routes rbs' ds' (add_models rb d r)
  | _, _ => r
  end.

Definition idle_configured (cfg : Config_t) : bool :=
  negb (UpstreamIdleTimeout cfg =? 0) || existsb (fun rb => negb (IdleTimeout rb =? 0)) (Routes cfg).

Definition buildBroker (cfg : Config_t) (b : instance) (now : Z) : outcome (result string build) :=
  match Routes cfg with
  | [] =>
      let unl := unloader_of b in
      let c := Yield.NewWithConfirm unl (DetectInterval cfg) (YieldConfirmPolls cfg) now in
      match unl with
      | None => Next (Ok (Build None (Router.Plain b) c (idle_configured cfg)))
      | Some _ =>
          c ← Yield.ConfigureIdle [UpstreamIdleTimeout cfg] c;
          d ← decorate (UpstreamIdleTimeout cfg) b c 0;
          Next (Ok (Build None d c (idle_configured cfg)))
      end
  | rbs =>
      match buildRoutes 0 rbs with
      | Err e => Next (Err ("route construction: " +:+ e))
      | Ok (routeBackends, routeUnloaders, labels) =>
          let unloaders := unloader_of b :: routeUnloaders in
          let c := Yield.NewWithConfirmMulti unloaders ("default" :: labels) (DetectInterval cfg)
                     (YieldConfirmPolls cfg) now in
          c ← Yield.ConfigureIdle (UpstreamIdleTimeout cfg :: map IdleTimeout rbs) c;
          d ← decorate (UpstreamIdleTimeout cfg) b c 0;
          ds ← decorate_routes rbs routeBackends c 1;
          let r := add_routes rbs ds (Router.NewRouter d) in
          Next (Ok (Build (Some r) d c (idle_configured cfg)))
      end
  end.

(** ** main *)

(** [interactiveProxy] and [batchProxy]. *)
Definition lane_proxy (bd : build) (lane : string) (req : Router.request) : list served :=
  match router bd with
  | Some r => Router.ProxyForLane r lane req
  | None => Router.Proxy (be bd) req
  end.

(** What the job worker calls. *)
Definition generate (bd : build) (model prompt : string) : generated :=
  match router bd with
  | Some r => Router.Generate r model prompt
  | None => Router.Generate (be bd) model prompt
  end.

Definition reachable (bd : build) : option string :=
  match router bd with
  | Some r => Router.Reachable r
  | None => Router.Reachable (be bd)
  end.

Definition detectStaleFactor : Z := 3.

(** [healthCheck]; [store] is the error of [HasQueued]. *)
Definition healthCheck (cfg : Config_t) (bd : build) (store : option string) (c : Yield.controller) (now : Z)
  : option string :=
  match reachable bd with
  | Some e => Some ("upstream unreachable: " +:+ e)
  | None =>
      match store with
      | Some e => Some ("job store unreadable: " +:+ e)
      | None =>
          if wrap64 (detectStaleFactor * DetectInterval cfg) <? Yield.PollAge now c
          then Some "contention detector stalled" else None
      end
  end.

(** ** What the pieces build *)

(** [d] is [b], tracked at the slot of [b]'s own unloader when it can idle. *)
Definition tracked (c : Yield.controller) (timeout : Z) (b : instance) (d : backend) : Prop :=
  if decide (timeout = 0) then d = Router.Plain b
  else exists slot s, d = Router.Tracked b slot /\ Yield.slots c !! slot = Some s /\
         Yield.unloader s = ref b /\ Yield.idleTimeout s = timeout.

(** The slots of a configured controller, by original index. *)
Definition slotted (us : list (option nat)) (ds : list Z) (c : Yield.controller) : Prop :=
  forall j u d, us !! j = Some (Some u) -> ds !! j = Some d ->
    exists post s, Yield.TrackActivity j c = Next post /\ Yield.slots c !! post = Some s /\
                   Yield.unloader s = u /\ Yield.idleTimeout s = d.

Lemma decorate_ok us ds c timeout b j :
  slotted us ds c -> us !! j = Some (unloader_of b) -> ds !! j = Some timeout ->
  (timeout <> 0 -> unloader_of b = Some (ref b)) ->
  exists d, decorate timeout b c j = Next d /\ tracked c timeout b d.
Proof.
  intros Hs Hu Hd Ht. unfold decorate, tracked. destruct (Z.eqb_spec timeout 0) as [E|E]; simpl.
  - eexists. split; [done|]. by case_decide.
  - rewrite Ht in Hu by done. destruct (Hs _ _ _ Hu Hd) as (post & s & -> & ? & ? & ?).
    eexists. split; [done|]. case_decide; [done|]. by exists post, s.
Qed.

(** Route [k] and the instance made for it. *)
Definition made (k : nat) (rb : RouteBackend) (b : instance) : Prop :=
  NewInstance (S k) (Backend rb) (RouteURL rb) (APIKey rb) (UnitName rb) = Ok b.

Lemma NewInstance_ok r f u key unit : family f ->
  exists b, NewInstance r f u key unit = Ok b /\ ref b = r /\ (unit <> "" -> unloader_of b = Some r).
Proof.
  intros [-> | ->]; unfold NewInstance; simpl; eexists; (split; [done|]); (split; [done|]); [done|].
  intros Hu. unfold newOpenAIBackend, unloader_of. simpl. by destruct (String.eqb_spec unit "").
Qed.

Lemma buildRoutes_ok i rbs : Forall route_ok rbs -> exists bs ls,
  buildRoutes i rbs = Ok (bs, map unloader_of bs, ls) /\ length bs = length rbs /\
  forall k rb, rbs !! k = Some rb -> exists b, bs !! k = Some b /\ made (i + k) rb b /\
    (IdleTimeout rb <> 0 -> unloader_of b = Some (ref b)).
Proof.
  intros H. revert i. induction H as [|rb rbs Hrb _ IH]; intros i; [by exists [], []|].
  destruct (NewInstance_ok (S i) (Backend rb) (RouteURL rb) (APIKey rb) (UnitName rb) (ro_family _ Hrb))
    as (b & Hb & Hr & Hu).
  destruct (IH (S i)) as (bs & ls & E & Hl & Hk). exists (b :: bs), (URL_String (RouteURL rb) :: ls).
  simpl. rewrite Hb. simpl. rewrite E. simpl. split; [done|]. split; [by rewrite Hl|].
  intros [|k] rb' Hk'; simplify_eq/=.
  - exists b. split; [done|]. unfold made. rewrite Nat.add_0_r. split; [done|]. rewrite Hr.
    intros Hi. apply Hu. by apply (ro_idle _ Hrb).
  - rewrite Nat.add_succ_r. by apply Hk.
Qed.

Lemma decorate_routes_ok us ds c rbs bs j :
  slotted us ds c -> length bs = length rbs ->
  (forall k b, bs !! k = Some b -> us !! (j + k)%nat = Some (unloader_of b)) ->
  (forall k rb, rbs !! k = Some rb -> ds !! (j + k)%nat = Some (IdleTimeout rb)) ->
  (forall k rb b, rbs !! k = Some rb -> bs !! k = Some b -> IdleTimeout rb <> 0 -> unloader_of b = Some (ref b)) ->
  exists dbs, decorate_routes rbs bs c j = Next dbs /\
    forall k rb b, rbs !! k = Some rb -> bs !! k = Some b ->
      exists d, dbs !! k = Some d /\ tracked c (IdleTimeout rb) b d.
Proof.
  intros Hs. revert bs j. induction rbs as [|rb rbs IH]; intros [|b bs] j Hl Hu Hd Ht; simplify_eq/=; [by exists []|].
  destruct (decorate_ok us ds c (IdleTimeout rb) b j Hs) as (d & -> & Hd').
  - rewrite <- (Nat.add_0_r j). by apply Hu.
  - rewrite <- (Nat.add_0_r j). by apply Hd.
  - by apply (Ht 0%nat rb b).
  - simpl. destruct (IH bs (S j)) as (dbs & -> & Hk); [done|..].
    + intros k b' Hb. rewrite Nat.add_succ_comm. by apply Hu.
    + intros k rb' Hb. rewrite Nat.add_succ_comm. by apply Hd.
    + intros k rb' b' H1 H2. by apply (Ht (S k)).
    + exists (d :: dbs). split; [done|]. intros [|k] rb' b' H1 H2; simplify_eq/=; [by exists d|]. by apply Hk.
Qed.

Lemma add_models_routes rb d r m :
  Router.routes (add_models rb d r) !! m =
  if decide (m ∈ Models rb) then Some (Router.RouteEntry d (Lane rb)) else Router.routes r !! m.
Proof.
  unfold add_models. generalize (Models rb) as ms. intros ms. revert r.
  induction ms as [|m' ms IH]; intros r; [done|].
  change (foldl ?f ?r (m' :: ms)) with (foldl f (f r m') ms). rewrite IH. simpl. destruct (decide (m ∈ ms)), (decide (m ∈ m' :: ms)) as [E|E];
    rewrite elem_of_cons in E; try tauto; destruct (decide (m = m')) as [->|]; simplify_map_eq; tauto.
Qed.

Lemma add_models_def rb d r : Router.def (add_models rb d r) = Router.def r.
Proof. unfold add_models. generalize (Models rb). intros ms. revert r. induction ms as [|m ms IH]; intros r; simpl; [done|]. by rewrite IH. Qed.

Lemma add_routes_def rbs dbs r : Router.def (add_routes rbs dbs r) = Router.def r.
Proof.
  revert dbs r. induction rbs as [|rb rbs IH]; intros [|d dbs] r; [done..|]. simpl. by rewrite IH, add_models_def.
Qed.

Lemma add_routes_other rbs dbs r m : m ∉ concat (map Models rbs) ->
  Router.routes (add_routes rbs dbs r) !! m = Router.routes r !! m.
Proof.
  revert dbs r. induction rbs as [|rb rbs IH]; intros [|d dbs] r Hm; [done..|]. simpl in *.
  rewrite elem_of_app in Hm. rewrite IH, add_models_routes by tauto. case_decide; tauto.
Qed.

Lemma add_routes_at rbs dbs r k rb d m : NoDup (concat (map Models rbs)) ->
  rbs !! k = Some rb -> dbs !! k = Some d -> m ∈ Models rb ->
  Router.routes (add_routes rbs dbs r) !! m = Some (Router.RouteEntry d (Lane rb)).
Proof.
  revert dbs r k. induction rbs as [|rb' rbs IH]; intros [|d' dbs] r [|k] Hn Hrb Hd Hm; simplify_eq/=.
  - apply NoDup_app in Hn as (_ & Hn & _). rewrite add_routes_other by (by apply Hn).
    rewrite add_models_routes. by case_decide.
  - apply NoDup_app in Hn as (_ & _ & Hn). by apply (IH _ _ k).
Qed.

Lemma ConfigureIdle_gpu ds c c' gpu : Yield.ConfigureIdle ds c = Next c' ->
  Yield.ConfigureIdle ds (Yield.SetGPUManager gpu c) = Next (Yield.SetGPUManager gpu c').
Proof.
  unfold Yield.ConfigureIdle. simpl. destruct (negb _); [done|].
  destruct (Yield.configure_idle _ _ _); [done..|]. by intros [= <-].
Qed.

Lemma configured_init us labels iv confirm now ds c gpu :
  Yield.ConfigureIdle ds (Yield.NewWithConfirmMulti us labels iv confirm now) = Next c ->
  Yield.init (Yield.System (Yield.SetGPUManager gpu c) ∅).
Proof.
  intros H. exists us, labels, iv, confirm, now, gpu, ds, (Yield.SetGPUManager gpu c).
  split; [|done]. by apply ConfigureIdle_gpu.
Qed.

(** What [buildBroker] promises of its result. *)
Record built (cfg : Config_t) (b : instance) (bd : build) : Prop := {
  bu_init : forall gpu, Yield.init (Yield.System (Yield.SetGPUManager gpu (ctrl bd)) ∅);
  bu_idle : idleStatus bd = idle_configured cfg;
  bu_default : tracked (ctrl bd) (UpstreamIdleTimeout cfg) b (be bd);
  bu_router : match router bd with
    | None => Routes cfg = []
    | Some r => Router.def r = be bd /\
        (forall k rb m, Routes cfg !! k = Some rb -> m ∈ Models rb ->
           exists i d, made k rb i /\ tracked (ctrl bd) (IdleTimeout rb) i d /\
             Router.routes r !! m = Some (Router.RouteEntry d (Lane rb))) /\
        (forall m, m ∉ concat (map Models (Routes cfg)) -> Router.routes r !! m = None)
    end;
}.

Lemma New_ok cfg : valid cfg -> exists b, New 0 cfg = Ok b /\ ref b = 0%nat /\
  (UpstreamIdleTimeout cfg <> 0 -> unloader_of b = Some (ref b)).
Proof.
  intros Hv. unfold New. destruct (va_family _ Hv) as [-> | ->]; simpl; eexists; (split; [done|]); (split; [done|]); [done|].
  intros Hi. apply (va_idle _ Hv) in Hi. unfold newOpenAIBackend, unloader_of. simpl.
  by destruct (String.eqb_spec (UpstreamUnitName cfg) "").
Qed.

Lemma buildBroker_direct cfg b now : Routes cfg = [] ->
  (UpstreamIdleTimeout cfg <> 0 -> unloader_of b = Some (ref b)) ->
  exists bd, buildBroker cfg b now = Next (Ok bd) /\ built cfg b bd.
Proof.
  intros Hr Hu. unfold buildBroker. rewrite Hr. destruct (unloader_of b) as [u|] eqn:E.
  - destruct (Yield.configured [Some u] [] (DetectInterval cfg) (YieldConfirmPolls cfg) now [UpstreamIdleTimeout cfg])
      as (c & Hc & Hs); [done|by intros [|j] d ? ?; simplify_eq/=|].
    unfold Yield.NewWithConfirm. rewrite Hc. simpl.
    destruct (decorate_ok [Some u] [UpstreamIdleTimeout cfg] c (UpstreamIdleTimeout cfg) b 0 Hs) as (d & Hd & Ht);
      [by rewrite E|done|by rewrite E|]. rewrite Hd. simpl. eexists. split; [done|].
    split; simpl; [|done..]. intros gpu. by eapply configured_init.
  - eexists. split; [done|]. split; simpl; [|done|unfold tracked|done].
    + intros gpu. by apply (configured_init [] [] (DetectInterval cfg) (YieldConfirmPolls cfg) now []).
    + case_decide as Ei; [done|]. by specialize (Hu Ei).
Qed.

Lemma buildBroker_routed cfg b now : valid cfg -> Routes cfg <> [] ->
  (UpstreamIdleTimeout cfg <> 0 -> unloader_of b = Some (ref b)) ->
  exists bd, buildBroker cfg b now = Next (Ok bd) /\ built cfg b bd.
Proof.
  intros Hv Hne Hu. unfold buildBroker.
  destruct (buildRoutes_ok 0 (Routes cfg) (va_routes _ Hv)) as (bs & ls & HR & Hl & Hk).
  set (us := unloader_of b :: map unloader_of bs). set (ds := UpstreamIdleTimeout cfg :: map IdleTimeout (Routes cfg)).
  assert (forall k i, bs !! k = Some i -> us !! (S k) = Some (unloader_of i)) as Hus.
  { intros k i Hi. unfold us. simpl. by rewrite list_lookup_fmap, Hi. }
  assert (forall k rb, Routes cfg !! k = Some rb -> ds !! (S k) = Some (IdleTimeout rb)) as Hds.
  { intros k rb Hi. unfold ds. simpl. by rewrite list_lookup_fmap, Hi. }
  destruct (Yield.configured us ("default" :: ls) (DetectInterval cfg) (YieldConfirmPolls cfg) now ds) as (c & Hc & Hs).
  { unfold us, ds. simpl. by rewrite !length_map, Hl. }
  { intros [|k] d Hd Hn.
    - unfold us, ds in *. simplify_eq/=. destruct (decide (UpstreamIdleTimeout cfg = 0)); [done|]. by rewrite Hu in Hn.
    - apply lookup_lt_Some in Hn as Hlt. unfold us in Hlt. simpl in Hlt. rewrite length_map, Hl in Hlt.
      destruct (lookup_lt_is_Some_2 (Routes cfg) k ltac:(lia)) as [rb Hrb].
      destruct (Hk _ _ Hrb) as (i & Hi & _ & Hui). rewrite (Hus _ _ Hi) in Hn. rewrite (Hds _ _ Hrb) in Hd.
      simplify_eq. destruct (decide (IdleTimeout rb = 0)); [done|]. by rewrite Hui in Hn. }
  destruct (decorate_ok us ds c (UpstreamIdleTimeout cfg) b 0 Hs) as (d & Hd & Ht); [done..|].
  destruct (decorate_routes_ok us ds c (Routes cfg) bs 1 Hs Hl) as (dbs & Hdbs & Hdk).
  { intros k i Hi. by apply Hus. }
  { intros k rb Hrb. by apply Hds. }
  { intros k rb i Hrb Hi. destruct (Hk _ _ Hrb) as (i' & Hi' & _ & ?). by simplify_eq. }
  exists (Build (Some (add_routes (Routes cfg) dbs (Router.NewRouter d))) d c (idle_configured cfg)). split.
  - fold us in Hc. destruct (Routes cfg) as [|rb rbs] eqn:ER; [done|]. rewrite HR. fold us. unfold ds in Hc.
    rewrite Hc. cbn [mbind outcome_bind]. rewrite Hd. cbn [mbind outcome_bind]. by rewrite Hdbs.
  - split; simpl; [intros gpu; by eapply configured_init|done|done|]. split; [apply add_routes_def|]. split.
    + intros k rb m Hrb Hm. destruct (Hk _ _ Hrb) as (i & Hi & Hmade & _).
      destruct (Hdk _ _ _ Hrb Hi) as (dd & Hdd & Htt). exists i, dd. split; [done|]. split; [done|].
      eapply add_routes_at; [apply Hv|done..].
    + intros m Hm. by rewrite add_routes_other.
Qed.

Lemma buildBroker_ok cfg b now : valid cfg -> New 0 cfg = Ok b ->
  exists bd, buildBroker cfg b now = Next (Ok bd) /\ built cfg b bd.
Proof.
  intros Hv Hb. destruct (New_ok _ Hv) as (b' & Hb' & _ & Hu). rewrite Hb in Hb'. injection Hb' as <-.
  destruct (decide (Routes cfg = [])); [by apply buildBroker_direct|by apply buildBroker_routed].
Qed.

(** The trace of a request that instance [i] serves as [req]: bracketed by the
    slot whose unloader is [i]'s when the instance can idle. *)
Definition traced (c : Yield.controller) (timeout : Z) (i : instance) (req : Router.request) (tr : list served)
  : Prop :=
  if decide (timeout = 0) then tr = [Served i req]
  else exists slot s, Yield.slots c !! slot = Some s /\ Yield.unloader s = ref i /\
         Yield.idleTimeout s = timeout /\ tr = [Begin slot; Served i req; End_ slot].

Lemma tracked_traced c timeout i d req : tracked c timeout i d -> traced c timeout i req (Router.Proxy d req).
Proof.
  unfold tracked, traced. case_decide; [by intros ->|]. intros (slot & sl & -> & ? & ? & ?). by exists slot, sl.
Qed.

(** The model the lanes read in a request. *)
Definition requested (req : Router.request) : string := default "" (Router.model_of <$> Router.body req).

(** A route serves the requests of its lane, or of both. *)
Definition in_lane (rb : RouteBackend) (lane : string) : Prop := Lane rb = "" \/ Lane rb = lane.

(** Dispatch through the broker's router. *)
Lemma lane_proxy_routed bd r lane req : router bd = Some r -> exists req',
  lane_proxy bd lane req = Router.Proxy (Router.pick r lane (requested req)) req' /\
  Router.path req' = Router.path req /\ Router.content <$> Router.body req' = Router.content <$> Router.body req.
Proof.
  intros Hr. unfold lane_proxy. rewrite Hr. unfold Router.ProxyForLane, Router.resolve, requested.
  destruct req as [u [b|]]; simpl; [|by exists (Router.Request u None)].
  destruct (Router.peekModel b) as [[m consumed] rest] eqn:E.
  destruct (Router.peekModel_spec _ _ _ _ E) as (-> & H1 & _). eexists. split; [reflexivity|].
  split; [done|]. simpl. f_equal. exact H1.
Qed.

Lemma pick_default cfg b bd r lane m : valid cfg -> built cfg b bd -> router bd = Some r ->
  (forall k rb, Routes cfg !! k = Some rb -> m ∈ Models rb -> ~ in_lane rb lane) ->
  Router.pick r lane m = be bd.
Proof.
  intros Hv Hb Hr Hn. pose proof (bu_router _ _ _ Hb) as Hbr. rewrite Hr in Hbr. destruct Hbr as (Hdef & Hat & Hout).
  unfold Router.pick. rewrite Hdef. destruct (String.eqb m ""); [done|].
  destruct (decide (m ∈ concat (map Models (Routes cfg)))) as [Hin|Hin]; [|by rewrite Hout].
  apply list_elem_of_In, in_concat in Hin as (ms & Hms & Hin). apply in_map_iff in Hms as (rb & <- & Hrb).
  rewrite <- list_elem_of_In in Hin. rewrite <- list_elem_of_In in Hrb. apply list_elem_of_lookup in Hrb as [k Hrb].
  destruct (Hat _ _ _ Hrb Hin) as (i & d & _ & _ & ->). specialize (Hn _ _ Hrb Hin). unfold in_lane in Hn.
  simpl. destruct (String.eqb_spec (Lane rb) ""), (String.eqb_spec (Lane rb) lane); tauto.
Qed.

Lemma reachable_default cfg b bd : built cfg b bd -> reachable bd = probe b.
Proof.
  intros Hb. assert (Router.Reachable (be bd) = probe b) as Hd.
  { pose proof (bu_default _ _ _ Hb) as Ht. unfold tracked in Ht. case_decide; [by rewrite Ht|].
    by destruct Ht as (slot & sl & -> & _). }
  unfold reachable. pose proof (bu_router _ _ _ Hb) as Hr. destruct (router bd); [|done].
  destruct Hr as [Hdef _]. simpl. by rewrite Hdef.
Qed.

(** C7: a configuration that loads builds, without panic or error, into a broker
    in which a request for a model of route [k], in that route's lane, runs on
    the instance made from route [k], and any other request on the default
    backend; its bytes are unchanged; and when the instance has an idle timeout
    the request is bracketed by the activity of the slot whose unloader stops
    that very instance. *)
Theorem broker_serves env up pd cfg b now :
  Load env up pd = Ok cfg -> New 0 cfg = Ok b ->
  exists bd, buildBroker cfg b now = Next (Ok bd) /\
  forall lane req, exists req',
    Router.content <$> Router.body req' = Router.content <$> Router.body req /\
    (forall k rb, Routes cfg !! k = Some rb -> requested req ∈ Models rb -> in_lane rb lane ->
       exists i, made k rb i /\ ref i = S k /\ traced (ctrl bd) (IdleTimeout rb) i req' (lane_proxy bd lane req)) /\
    ((forall k rb, Routes cfg !! k = Some rb -> requested req ∈ Models rb -> ~ in_lane rb lane) ->
       traced (ctrl bd) (UpstreamIdleTimeout cfg) b req' (lane_proxy bd lane req)).
Proof.
  intros [Hv _]%Load_spec Hb. destruct (buildBroker_ok cfg b now Hv Hb) as (bd & Hbd & Hbu).
  exists bd. split; [done|]. intros lane req. pose proof (bu_router _ _ _ Hbu) as Hr.
  destruct (router bd) as [r|] eqn:E.
  - destruct (lane_proxy_routed bd r lane req E) as (req' & -> & _ & Hc). exists req'. split; [done|]. split.
    + intros k rb Hrb Hm Hl. destruct Hr as (_ & Hat & _). destruct (Hat _ _ _ Hrb Hm) as (i & d & Hi & Ht & Hd).
      exists i. split; [done|].
      assert (Hro : route_ok rb) by (by eapply (Forall_lookup_1 _ _ _ _ (va_routes _ Hv))).
      split. { destruct (NewInstance_ok (S k) (Backend rb) (RouteURL rb) (APIKey rb) (UnitName rb) (ro_family _ Hro))
                 as (i' & Hi' & <- & _). unfold made in Hi. congruence. }
      unfold Router.pick. rewrite Hd. simpl.
      destruct (String.eqb_spec (requested req) "") as [Em|_].
      { destruct (ro_models _ Hro) as [_ Hne]. by rewrite Em in Hm. }
      destruct (String.eqb_spec (Lane rb) ""), (String.eqb_spec (Lane rb) lane); try by apply tracked_traced.
      by destruct Hl.
    + intros Hn. rewrite (pick_default cfg b bd r) by done. apply tracked_traced, Hbu.
  - exists req. split; [done|]. unfold lane_proxy. rewrite E, Hr. split; [by intros k rb Hk|].
    intros _. apply tracked_traced, Hbu.
Qed.

(** The controller of the built broker, with or without a GPU manager set
    afterwards, is one the theorems on the yield controller are about; and idle
    status is reported exactly when some instance has a timeout. *)
Theorem broker_controller cfg b now bd gpu :
  valid cfg -> New 0 cfg = Ok b -> buildBroker cfg b now = Next (Ok bd) ->
  Yield.init (Yield.System (Yield.SetGPUManager gpu (ctrl bd)) ∅) /\
  (idleStatus bd = true <-> UpstreamIdleTimeout cfg <> 0 \/ exists rb, rb ∈ Routes cfg /\ IdleTimeout rb <> 0).
Proof.
  intros Hv Hb Hbd. destruct (buildBroker_ok cfg b now Hv Hb) as (bd' & Hbd' & Hbu).
  rewrite Hbd in Hbd'. injection Hbd' as <-. split; [apply (bu_init _ _ _ Hbu)|].
  rewrite (bu_idle _ _ _ Hbu). unfold idle_configured. rewrite orb_true_iff, negb_true_iff, Z.eqb_neq, existsb_exists.
  f_equiv. apply exist_proper. intros rb. by rewrite negb_true_iff, Z.eqb_neq, list_elem_of_In.
Qed.

(** Stopping or starting one instance never touches another: in a loaded
    configuration no two of the default backend and the routes' instances ever
    give systemd the same unit, whatever fails on the way. *)
Theorem instances_stop_only_themselves env up pd cfg b bs us ls run loaded j k i i' verb verb' u :
  Load env up pd = Ok cfg -> New 0 cfg = Ok b -> buildRoutes 0 (Routes cfg) = Ok (bs, us, ls) ->
  (b :: bs) !! j = Some i -> (b :: bs) !! k = Some i' -> j <> k ->
  Systemctl verb u ∈ commands run loaded i -> Systemctl verb' u ∉ commands run loaded i'.
Proof.
  intros [Hv _]%Load_spec Hb HR Hj Hk Hjk (url & key & H1)%commands_unit (url' & key' & H2)%commands_unit. apply Hjk.
  assert (forall n x url key, (b :: bs) !! n = Some x -> kind x = openaiBackend url key (Some u) ->
    (UpstreamUnitName cfg :: map UnitName (Routes cfg)) !! n = Some u /\ u <> "") as H.
  { intros n x url0 key0 Hx Hu. destruct n as [|n]; simplify_eq/=.
    - unfold New in Hb. destruct (String.eqb _ _); simplify_eq/=. destruct (String.eqb _ _); simplify_eq/=.
      unfold newOpenAIBackend in Hu. by destruct (String.eqb_spec (UpstreamUnitName cfg) ""); simplify_eq/=.
    - destruct (buildRoutes_ok 0 (Routes cfg) (va_routes _ Hv)) as (bs' & ls' & HR' & Hl & Hbs).
      rewrite HR in HR'. simplify_eq. apply lookup_lt_Some in Hx as Hlt. rewrite Hl in Hlt.
      destruct (lookup_lt_is_Some_2 _ _ Hlt) as [rb Hrb]. destruct (Hbs _ _ Hrb) as (x' & Hx' & Hm & _). simplify_eq.
      rewrite list_lookup_fmap, Hrb. simpl. unfold made, NewInstance in Hm.
      destruct (String.eqb _ _); simplify_eq/=. destruct (String.eqb _ _); simplify_eq/=.
      unfold newOpenAIBackend in Hu. by destruct (String.eqb_spec (UnitName rb) ""); simplify_eq/=. }
  destruct (H _ _ _ _ Hj H1) as [E1 Hu]. destruct (H _ _ _ _ Hk H2) as [E2 _].
  eapply NoDup_names_lookup; [apply (va_units _ Hv)|done..].
Qed.

(** The health check passes exactly when the default upstream answers, the
    job store can be read and the last poll is at most three intervals old; the
    routed instances do not matter. *)
Theorem health_check_spec cfg b now bd store c t :
  valid cfg -> New 0 cfg = Ok b -> buildBroker cfg b now = Next (Ok bd) ->
  3 * Z.abs (DetectInterval cfg) <= maxInt64 ->
  (healthCheck cfg bd store c t = None <->
   probe b = None /\ store = None /\ Yield.PollAge t c <= 3 * DetectInterval cfg).
Proof.
  intros Hv Hb Hbd Hm. destruct (buildBroker_ok cfg b now Hv Hb) as (bd' & Hbd' & Hbu).
  rewrite Hbd in Hbd'. injection Hbd' as <-. unfold healthCheck. rewrite (reachable_default cfg b) by done.
  destruct (probe b); [naive_solver|]. destruct store; [naive_solver|].
  unfold detectStaleFactor. rewrite wrap64_id by (unfold maxInt64, minInt64 in *; lia).
  destruct (Z.ltb_spec (3 * DetectInterval cfg) (Yield.PollAge t c)); intuition (congruence || lia).
Qed.

End wiring.

(** ** Witnesses *)

Definition demo_default : instance :=
  match New 0 Config.demo_cfg with Ok b => b | Err _ => Instance 99 (ollamaBackend None) end.

Lemma demo_new : New 0 Config.demo_cfg = Ok demo_default.
Proof. vm_compute. reflexivity. Qed.

Definition demo_build : build :=
  match buildBroker Config.demo_cfg demo_default 7 with
  | Next (Ok bd) => bd
  | _ => Build None (Router.Plain demo_default) (Yield.New None 0 0) false
  end.

Lemma demo_builds : buildBroker Config.demo_cfg demo_default 7 = Next (Ok demo_build).
Proof. vm_compute. reflexivity. Qed.

Definition demo_req : Router.request :=
  Router.Request "/api/chat" (Some (Router.Reader [Json.encode (Json.JObj
    [(Json.chars "stream", Json.JBool true); (Json.chars "model", Json.JStr (Json.chars "llama3"))])] false)).

Definition demo_route : RouteBackend :=
  default (MkRoute [] "" (MkURL "" "" "") "" "" 0 "") (head (Routes Config.demo_cfg)).

Lemma broker_serves_witness : exists bd i req',
  buildBroker Config.demo_cfg demo_default 7 = Next (Ok bd) /\ ref i = 1%nat /\
  traced (ctrl bd) (15 * Minute) i req' (lane_proxy (fun _ => None) bd "batch" demo_req).
Proof.
  destruct (broker_serves (fun _ => None) Config.demo_env Config.demo_parse Config.demo_dur Config.demo_cfg demo_default 7
    Config.demo_cfg_loads demo_new) as (bd & Hbd & H).
  destruct (H "batch" demo_req) as (req' & _ & H1 & _).
  destruct (H1 0%nat demo_route) as (i & _ & Hi & Ht).
  - vm_compute. reflexivity.
  - apply list_elem_of_In. vm_compute. tauto.
  - vm_compute. tauto.
  - exists bd, i, req'. split; [exact Hbd|]. split; [exact Hi|exact Ht].
Defined.

Lemma demo_valid : valid Config.demo_cfg.
Proof. apply (Load_spec Config.demo_env Config.demo_parse Config.demo_dur), Config.demo_cfg_loads. Qed.

Lemma broker_controller_witness :
  Yield.init (Yield.System (Yield.SetGPUManager true (ctrl demo_build)) ∅).
Proof.
  exact (proj1 (broker_controller Config.demo_cfg demo_default 7 demo_build true demo_valid demo_new demo_builds)).
Defined.

Definition demo_instance : instance :=
  Instance 1 (openaiBackend (Some (RouteURL demo_route)) "" (Some "vllm.service")).

Lemma demo_routes : buildRoutes 0 (Routes Config.demo_cfg) =
  Ok ([demo_instance], [Some 1%nat], ["http://127.0.0.1:8001"]).
Proof. vm_compute. reflexivity. Qed.

Lemma instances_stop_only_themselves_witness :
  Systemctl "start" "vllm.service" ∉ commands (fun _ => None) (Ok ["qwen"]) demo_default.
Proof.
  apply (instances_stop_only_themselves Config.demo_env Config.demo_parse Config.demo_dur Config.demo_cfg demo_default _ _ _
    (fun _ => None) (Ok ["qwen"]) 1 0 demo_instance demo_default "stop" "start" "vllm.service"
    Config.demo_cfg_loads demo_new demo_routes eq_refl eq_refl (Nat.neq_succ_0 0)).
  apply list_elem_of_In. vm_compute. tauto.
Defined.

Lemma health_check_spec_witness :
  healthCheck (fun _ => None) Config.demo_cfg demo_build None
    (Yield.refresh "" false 7 (ctrl demo_build)) 7 = None.
Proof.
  apply (health_check_spec (fun _ => None) Config.demo_cfg demo_default 7 demo_build None
    (Yield.refresh "" false 7 (ctrl demo_build)) 7 demo_valid demo_new demo_builds).
  - vm_compute. congruence.
  - split; [reflexivity|]. split; [reflexivity|]. vm_compute. congruence.
Defined.

End Broker.
