(* ===== verification/Proxy.v ===== *)
(** * The upstream transport and its error answers (src/internal/proxy/proxy.go)

    [RoundTrip] replays a request after a connection-level failure; what the
    base transport answers and when the request's context ends are its inputs,
    the bodies it sends its trace.  [WriteUpstreamError] and [errorHandler] are
    the responses to an upstream that failed before answering.  The reverse
    proxy itself is net/http/httputil's; only the embed lane's path rewrite is
    the broker's.

    Proved: every attempt sends the whole original body, only connection errors
    under a live context are retried, and the answer is that of the last
    attempt. *)

From S2P Require Import Prelude GoLib.
#[local] Set Warnings "-clear-no-such-hyp,-level-tolerance".
Local Open Scope Z_scope.

Module Proxy.
Import GoLib.

(** ** Errors *)

Inductive sentinel := EOF | ErrUnexpectedEOF | Canceled | DeadlineExceeded.

#[global] Instance sentinel_eq_dec : EqDecision sentinel.
Proof. solve_decision. Defined.

(** An error: its message and the sentinels its chain wraps. *)
Record error := MkError { msg : string; chain : list sentinel }.

(** [errors.Is] *)
Definition Is (e : error) (s : sentinel) : bool := bool_decide (s ∈ chain e).

Definition isRetryableConnError (e : error) : bool :=
  if Is e EOF || Is e ErrUnexpectedEOF then true
  else Contains (msg e) "server disconnected" || Contains (msg e) "connection reset"
       || Contains (msg e) "broken pipe" || Contains (msg e) "EOF".

(** ** RoundTrip *)

(** [req.Body] and [req.GetBody]: no body; a body to be read once; a body with a
    [GetBody] that makes fresh copies. *)
Inductive req_body :=
| NoBody
| Stream (read : result error string)
| Replayable (body : string) (GetBody : nat -> result error string).

Section roundtrip.
(** [base i b]: the answer of attempt [i] when it sends [b]; [late i]: the
    context has ended when attempt [i] returns; [gone i]: it has ended when
    attempt [i] is about to be made. *)
Context {resp : Type}.
Context (base : nat -> option string -> result error resp) (late gone : nat -> bool).
Context (GetBody : option (nat -> result error string)).

(** The loop from [attempt] on, [n] turns of it: the answer, and the bodies
    sent. *)
Fixpoint attempts (n attempt : nat) (body : option string) (lastErr : error)
  : result error resp * list (option string) :=
  match n with
  | O => (Err lastErr, [])
  | S n' =>
      let send body :=
        match base attempt body with
        | Ok r => (Ok r, [body])
        | Err e =>
            if late attempt || negb (isRetryableConnError e) then (Err e, [body])
            else let '(r, sent) := attempts n' (S attempt) body e in (r, body :: sent)
        end in
      if (0 <? attempt)%nat then
        if gone attempt then (Err lastErr, [])
        else match GetBody with
             | None => send body
             | Some get => match get attempt with
                           | Err _ => (Err lastErr, [])
                           | Ok b => send (Some b)
                           end
             end
      else send body
  end.

End roundtrip.

Record retryTransport := RetryTransport { retries : nat; backoff : Z }.

Definition Transport : retryTransport := {| retries := 2; backoff := 500 * Millisecond |}.

Definition no_error : error := MkError "" [].

Definition RoundTrip {resp} (t : retryTransport) (base : nat -> option string -> result error resp)
    (late gone : nat -> bool) (b : req_body) : result error resp * list (option string) :=
  match b with
  | NoBody => attempts base late gone None (S (retries t)) 0 None no_error
  | Stream (Err e) => (Err e, [])
  | Stream (Ok s) => attempts base late gone (Some (fun _ => Ok s)) (S (retries t)) 0 (Some s) no_error
  | Replayable s get => attempts base late gone (Some get) (S (retries t)) 0 (Some s) no_error
  end.

(** ** The embed lane's rewrite *)

Definition embedImagePath : string := "/embeddings_image".

Definition embed_path (p : string) : string :=
  if String.eqb p "/embeddings" || String.eqb p "/v1/embeddings" then embedImagePath else p.

(** ** Error answers *)

Record answer := Answer { status : Z; headers : list (string * string) }.

Definition deferred : answer := Answer 503 [("X-Broker-Status", "deferred"); ("Retry-After", "1")].

Definition WriteUpstreamError (e : error) : option answer :=
  if Is e Canceled then Some deferred
  else if Is e DeadlineExceeded then Some deferred
  else None.

Definition errorHandler (e : error) : answer :=
  match WriteUpstreamError e with Some a => a | None => Answer 502 [] end.

(** ** The loop *)

(** The body a request carries. *)
Definition original (b : req_body) : option string :=
  match b with Stream (Ok s) | Replayable s _ => Some s | _ => None end.

(** [GetBody] only makes copies of [s]. *)
Definition copies (get : nat -> result error string) (s : string) : Prop := forall i b, get i = Ok b -> b = s.

Section proofs.
Context {resp : Type}.
Context (base : nat -> option string -> result error resp) (late gone : nat -> bool).
Context (GetBody : option (nat -> result error string)) (body : option string).

(** What a run of [n] turns of the loop from [from] on has done. *)
Record run_of (n from : nat) (lastErr : error) (r : result error resp) (sent : list (option string)) : Prop := {
  ro_bound : (length sent <= n)%nat;
  ro_sent : Forall (eq body) sent;
  ro_alive : sent <> [] -> from <> 0%nat -> gone from = false;
  ro_retried : forall k, (S k < length sent)%nat -> exists e, base (from + k)%nat body = Err e /\
    isRetryableConnError e = true /\ late (from + k)%nat = false /\ gone (S (from + k)) = false;
  ro_answer : r = match length sent with O => Err lastErr | S k => base (from + k)%nat body end;
  ro_stop : forall e, r = Err e -> (length sent < n)%nat ->
    gone (from + length sent)%nat = true \/
    (exists get e', GetBody = Some get /\ get (from + length sent)%nat = Err e') \/
    (exists k, length sent = S k /\ (isRetryableConnError e = false \/ late (from + k)%nat = true));
}.

(** No attempt made: the context is gone, or there is no copy of the body. *)
Lemma run_none n from lastErr :
  (n <> 0%nat -> gone from = true \/ exists get e', GetBody = Some get /\ get from = Err e') ->
  run_of n from lastErr (Err lastErr) [].
Proof.
  intros H. split; simpl; [lia|constructor|done|lia|done|]. intros e _ Hn. rewrite Nat.add_0_r.
  destruct H as [?|?]; [lia|auto..].
Qed.

(** The last attempt. *)
Lemma run_last n from lastErr :
  (from <> 0%nat -> gone from = false) ->
  (forall e, base from body = Err e -> isRetryableConnError e = false \/ late from = true) ->
  run_of (S n) from lastErr (base from body) [body].
Proof.
  intros Hg H. split; simpl; [lia|by repeat constructor|auto|lia|by rewrite Nat.add_0_r|].
  intros e He _. right. right. exists 0%nat. rewrite Nat.add_0_r. split; [done|]. by apply H.
Qed.

(** A retried attempt. *)
Lemma run_more n from lastErr e r sent :
  (from <> 0%nat -> gone from = false) -> base from body = Err e ->
  isRetryableConnError e = true -> late from = false ->
  run_of n (S from) e r sent -> run_of (S n) from lastErr r (body :: sent).
Proof.
  intros Hg E Hr Hl [B1 B2 B3 B4 B5 B6]. split; simpl.
  - lia.
  - by constructor.
  - auto.
  - intros [|k] Hk; [|rewrite <- Nat.add_succ_comm; apply B4; lia].
    exists e. rewrite Nat.add_0_r. do 3 (split; [done|]). apply B3; [|done]. by destruct sent; simpl in *; [lia|].
  - rewrite B5. destruct (length sent) as [|k]; [by rewrite Nat.add_0_r|]. by rewrite <- Nat.add_succ_comm.
  - intros e' He Hn. rewrite <- Nat.add_succ_comm. destruct (B6 e' He) as [?|[?|(k & Hk & Hs)]]; [lia|auto|auto|].
    right. right. exists (S k). split; [by rewrite Hk|]. by rewrite <- Nat.add_succ_comm.
Qed.

Lemma attempts_run n from lastErr :
  match GetBody with Some get => exists s, body = Some s /\ copies get s | None => True end ->
  let '(r, sent) := attempts base late gone GetBody n from body lastErr in run_of n from lastErr r sent.
Proof.
  intros Hc. revert from lastErr. induction n as [|n IH]; intros from lastErr; [by apply run_none|].
  assert (Hsend : (from <> 0%nat -> gone from = false) ->
    let '(r, sent) := match base from body with
      | Ok r => (Ok r, [body])
      | Err e => if late from || negb (isRetryableConnError e) then (Err e, [body])
                 else let '(r, sent) := attempts base late gone GetBody n (S from) body e in (r, body :: sent)
      end in run_of (S n) from lastErr r sent).
  { intros Hg. destruct (base from body) as [r|e] eqn:E.
    - rewrite <- E. apply run_last; [done|]. by rewrite E.
    - destruct (late from) eqn:Hl; simpl; [|destruct (isRetryableConnError e) eqn:Hr; simpl].
      + rewrite <- E. apply run_last; auto.
      + specialize (IH (S from) e). destruct (attempts _ _ _ _ n (S from) body e). by eapply run_more.
      + rewrite <- E. apply run_last; [done|]. intros e'. rewrite E. intros [= <-]. by left. }
  simpl. destruct (Nat.ltb_spec 0 from) as [Hf|Hf]; [|apply Hsend; lia].
  destruct (gone from) eqn:Hg; [apply run_none; auto|].
  destruct GetBody as [get|] eqn:EG; [|by apply Hsend]. destruct Hc as (s & -> & Hc).
  destruct (get from) as [b|e] eqn:Eg; [|apply run_none; intros _; right; by exists get, e].
  rewrite (Hc _ _ Eg). by apply Hsend.
Qed.

End proofs.

(** ** Properties *)

(** C35: a retried request is the same request: every attempt sends the whole
    original body, there are at most [retries + 1], only an error of the
    connection under a live context is retried, the answer is the last
    attempt's, and the loop gives up early only for a reason: the error is not
    of the connection, the context has ended, or the body cannot be copied. *)
Theorem round_trip_replays {resp} t (base : nat -> option string -> result error resp) late gone b :
  match b with Replayable s get => copies get s | Stream (Err _) => False | _ => True end ->
  let '(r, sent) := RoundTrip t base late gone b in
  exists n, length sent = S n /\ (n <= retries t)%nat /\
  Forall (eq (original b)) sent /\ r = base n (original b) /\
  (forall k, (k < n)%nat -> exists e, base k (original b) = Err e /\ isRetryableConnError e = true /\
     late k = false /\ gone (S k) = false) /\
  (forall e, r = Err e -> (n < retries t)%nat ->
     isRetryableConnError e = false \/ late n = true \/ gone (S n) = true \/
     exists s get e', b = Replayable s get /\ get (S n) = Err e').
Proof.
  intros Hb.
  assert (exists G, RoundTrip t base late gone b = attempts base late gone G (S (retries t)) 0 (original b) no_error /\
    match G with Some get => exists s, original b = Some s /\ copies get s | None => True end /\
    forall get i e', G = Some get -> get i = Err e' -> exists s, b = Replayable s get) as (G & E & HG & HR).
  { destruct b as [|[s|e]|s get]; [exists None|exists (Some (fun _ => Ok s))|done|exists (Some get)];
      (split; [done|split]).
    - done.
    - done.
    - exists s. split; [done|]. by intros i b [= <-].
    - by intros get i e' [= <-].
    - by exists s.
    - intros get' i e' [= <-] _. by exists s. }
  rewrite E. pose proof (attempts_run base late gone G (original b) (S (retries t)) 0 no_error HG) as H.
  assert ((attempts base late gone G (S (retries t)) 0 (original b) no_error).2 <> []) as Hne.
  { simpl. destruct (base _ _); [done|]. destruct (late 0%nat || _); [done|].
    destruct (attempts base late gone G (retries t) 1 (original b) e); simpl; congruence. }
  destruct (attempts _ _ _ _ _ _ _ _) as [r sent]. destruct H as [B1 B2 _ B4 B5 B6]. simpl in Hne.
  destruct (length sent) as [|n] eqn:El; [by apply nil_length_inv in El|].
  exists n. split; [done|]. split; [lia|]. split; [done|]. split; [done|]. split.
  - intros k Hk. apply B4. lia.
  - intros e He Hn. destruct (B6 e He ltac:(lia)) as [?|[(get & e' & Hg & Hge)|(k & [= <-] & [?|?])]]; auto.
    do 3 right. destruct (HR _ _ _ Hg Hge) as [s ->]. by exists s, get, e'.
Qed.

(** An upstream that fails before it answers is reported as the broker's
    own deferral exactly when the call was cancelled (a yield, a disconnect) or
    timed out; anything else is a 502, never an empty 200. *)
Theorem upstream_error_answer e :
  let a := errorHandler e in
  (status a = 503 <-> Canceled ∈ chain e \/ DeadlineExceeded ∈ chain e) /\
  (status a = 503 -> headers a = [("X-Broker-Status", "deferred"); ("Retry-After", "1")]) /\
  (status a = 503 \/ status a = 502).
Proof.
  unfold errorHandler, WriteUpstreamError, Is. repeat case_bool_decide; simpl; naive_solver lia.
Qed.

(** ** Witnesses *)

Definition reset_error : error := MkError "read tcp: connection reset by peer" [].

Lemma round_trip_replays_witness :
  RoundTrip Transport (fun i _ => if (i =? 2)%nat then Ok i else Err reset_error) (fun _ => false) (fun _ => false)
    (Stream (Ok "{}")) = (Ok 2%nat, [Some "{}"; Some "{}"; Some "{}"]) /\
  Forall (eq (Some "{}")) [Some "{}"; Some "{}"; Some "{}"].
Proof.
  split; [vm_compute; reflexivity|].
  destruct (round_trip_replays Transport (fun i _ => if (i =? 2)%nat then Ok i else Err reset_error) (fun _ => false)
    (fun _ => false) (Stream (Ok "{}")) I) as (n & _ & _ & H & _). exact H.
Defined.

End Proxy.
