(* ===== verification/OpenAICompat.v ===== *)
(** * The OpenAI-compatible translation (src/internal/openaicompat)

    stream.go: [parseSSEStreamChunks] over the lines a scanner returns, with the
    state of the request's context at each one.  handler.go: [ServeHTTP] as the
    list of what it writes, in order.  embed.go: the placement of the returned
    vectors.  The decoding of a chunk's JSON text into the [sseChunk] struct is a
    parameter; decoded JSON values are those of [Json].  A map is a [gmap].
    client.go, which builds a request of its own, is in [Clients].

    Proved: the stream is read exactly as its events say; success means the
    [[DONE]] sentinel was reached and the text is the concatenation of what was
    relayed; every request gets one status and a well-formed ending. *)

From S2P Require Import Prelude GoLib Json Proxy.
#[local] Set Warnings "-clear-no-such-hyp,-level-tolerance".
Local Open Scope Z_scope.

Module OpenAICompat.
Import GoLib.
Abbreviation error := Proxy.error.

(** [fmt.Errorf("...%w", err)] and an error without causes. *)
Definition wrap (prefix : string) (e : error) : error := Proxy.MkError (prefix +:+ Proxy.msg e) (Proxy.chain e).
Definition Errorf (m : string) : error := Proxy.MkError m [].

(** ** stream.go *)

(** The content of each choice's delta, [usage.completion_tokens],
    [error.message]. *)
Record sseChunk := SSEChunk { Choices : list string; Usage : option Z; Error : option string }.

(** The error of an in-band [error] field. *)
Definition upstream_error (m : string) : error :=
  Errorf ("openai upstream: " +:+ (if String.eqb m "" then "unknown error" else m)).

Definition newline : string := String (Ascii.ascii_of_nat 10) EmptyString.

(** [cutPrefix] *)
Definition cutPrefix (s prefix : string) : option string :=
  if HasPrefix s prefix then Some (TrimPrefix (drop_bytes (String.length prefix) s) " ") else None.

Definition concat_strings (l : list string) : string := foldr String.append "" l.

Section stream.
Context (decode : string -> result error sseChunk).

(** [sb], [tokens], [usageTokens], [dataLines], and the calls of [onChunk]. *)
Record parser := Parser {
  dataLines : list string;
  sb : string;
  tokens : Z;
  usageTokens : Z;
  calls : list (string * Z);
}.

Definition new_parser : parser := Parser [] "" 0 (-1) [].

(** One decoded chunk without an error. *)
Definition take_chunk (ch : sseChunk) (p : parser) : parser :=
  let p := match Choices ch with
           | content :: _ =>
               if String.eqb content "" then p
               else Parser (dataLines p) (sb p +:+ content) (tokens p + 1) (usageTokens p)
                      (calls p ++ [(content, tokens p + 1)])
           | [] => p
           end in
  match Usage ch with
  | Some u => Parser (dataLines p) (sb p) (tokens p) u (calls p)
  | None => p
  end.

(** [flush]: whether the event was the sentinel. *)
Definition flush (p : parser) : result error bool * parser :=
  match dataLines p with
  | [] => (Ok false, p)
  | ls =>
      let data := String.concat newline ls in
      let p := Parser [] (sb p) (tokens p) (usageTokens p) (calls p) in
      if String.eqb data "[DONE]" then (Ok true, p)
      else match decode data with
           | Err e => (Err (wrap "decode SSE chunk: " e), p)
           | Ok ch =>
               match Error ch with
               | Some m => (Err (upstream_error m), p)
               | None => (Ok false, take_chunk ch p)
               end
           end
  end.

(** The text and the token count, or the count so far and the error. *)
Definition answer : Type := result (Z * error) (string * Z).

Definition finished (p : parser) : answer :=
  Ok (sb p, if 0 <=? usageTokens p then usageTokens p else tokens p).

Definition failed (e : error) (p : parser) : answer := Err (tokens p, e).

(** How [sc.Scan] ends: [sc.Err] and [ctx.Err] then. *)
Record ending := Ending { scan_err : option error; end_ctx : option error }.

Definition ended_without_done : error := Errorf "openai upstream: stream ended without done".

(** After the last line. *)
Definition parse_end (e : ending) (p : parser) : answer * parser :=
  match scan_err e with
  | Some m => (failed (default m (end_ctx e)) p, p)
  | None =>
      match flush p with
      | (Err m, p) => (failed m p, p)
      | (Ok true, p) => (finished p, p)
      | (Ok false, p) => (failed (default ended_without_done (end_ctx e)) p, p)
      end
  end.

(** The scan loop over the lines, each with [ctx.Err()] as it is read. *)
Fixpoint parse_lines (ls : list (string * option error)) (e : ending) (p : parser) : answer * parser :=
  match ls with
  | [] => parse_end e p
  | (line, ctx) :: ls' =>
      match ctx with
      | Some m => (failed m p, p)
      | None =>
          let trimmed := TrimSpace line in
          if String.eqb trimmed "" then
            match flush p with
            | (Err m, p) => (failed m p, p)
            | (Ok true, p) => (finished p, p)
            | (Ok false, p) => parse_lines ls' e p
            end
          else match cutPrefix trimmed "data:" with
               | None => parse_lines ls' e p
               | Some data =>
                   parse_lines ls' e
                     (Parser (dataLines p ++ [data]) (sb p) (tokens p) (usageTokens p) (calls p))
               end
      end
  end.

(** [parseSSEStreamChunks]: the answer, and the calls of [onChunk]. *)
Definition parseSSEStreamChunks (ls : list (string * option error)) (e : ending) : answer * list (string * Z) :=
  let '(a, p) := parse_lines ls e new_parser in (a, calls p).

(** [parseSSEStream]: [onTokens] only gets the counts. *)
Definition parseSSEStream (ls : list (string * option error)) (e : ending) : answer * list Z :=
  let '(a, cs) := parseSSEStreamChunks ls e in (a, map snd cs).

(** ** The stream by its events

    An event is the block of [data:] lines up to a blank line or the end. *)

Inductive line_kind := Blank | Data (d : string) | Other.

Definition classify (line : string) : line_kind :=
  let trimmed := TrimSpace line in
  if String.eqb trimmed "" then Blank
  else match cutPrefix trimmed "data:" with Some d => Data d | None => Other end.

Definition close (block : list string) : list string :=
  match block with [] => [] | _ => [String.concat newline block] end.

Fixpoint events (block : list string) (lines : list string) : list string :=
  match lines with
  | [] => close block
  | l :: lines' =>
      match classify l with
      | Blank => close block ++ events [] lines'
      | Data d => events (block ++ [d]) lines'
      | Other => events block lines'
      end
  end.

(** What the events before the sentinel, or before the first bad one, carry. *)
Inductive verdict := Done | Bad (e : error) | Truncated.

Definition delta (ch : sseChunk) : list string :=
  match Choices ch with c :: _ => if String.eqb c "" then [] else [c] | [] => [] end.

Fixpoint read_events (evs : list string) : list string * list Z * verdict :=
  match evs with
  | [] => ([], [], Truncated)
  | d :: evs' =>
      if String.eqb d "[DONE]" then ([], [], Done)
      else match decode d with
           | Err e => ([], [], Bad (wrap "decode SSE chunk: " e))
           | Ok ch =>
               match Error ch with
               | Some m => ([], [], Bad (upstream_error m))
               | None =>
                   let '(ds, us, v) := read_events evs' in
                   (delta ch ++ ds, option_list (Usage ch) ++ us, v)
               end
           end
  end.

(** The calls that relay [ds], [n] having been relayed before. *)
Fixpoint numbered (n : Z) (ds : list string) : list (string * Z) :=
  match ds with [] => [] | d :: ds' => (d, n + 1) :: numbered (n + 1) ds' end.

Definition stream_spec (lines : list string) : answer * list (string * Z) :=
  let '(ds, us, v) := read_events (events [] lines) in
  let n := Z.of_nat (length ds) in
  (match v with
   | Done => Ok (concat_strings ds, match last us with Some u => if 0 <=? u then u else n | None => n end)
   | Bad e => Err (n, e)
   | Truncated => Err (n, ended_without_done)
   end, numbered 0 ds).

(** *** The loop reads the events *)

(** The parser [p] once it has read deltas [ds] and usages [us]. *)
Definition after (p : parser) (ds : list string) (us : list Z) : parser :=
  Parser [] (sb p +:+ concat_strings ds) (tokens p + Z.of_nat (length ds)) (default (usageTokens p) (last us))
    (calls p ++ numbered (tokens p) ds).

Lemma string_app_assoc (a b c : string) : (a +:+ b) +:+ c = a +:+ (b +:+ c).
Proof.
  induction a as [|x a IH]; [done|].
  change (String x ((a +:+ b) +:+ c) = String x (a +:+ (b +:+ c))). by rewrite IH.
Qed.
Lemma string_app_nil (a : string) : a +:+ "" = a.
Proof. induction a as [|x a IH]; [done|]. change (String x (a +:+ "") = String x a). by rewrite IH. Qed.

Lemma after_nil p : after p [] [] = Parser [] (sb p) (tokens p) (usageTokens p) (calls p).
Proof. unfold after. simpl. by rewrite string_app_nil, app_nil_r, Z.add_0_r. Qed.

Lemma last_cons_default {A} (d : A) (x : A) l : default d (last (x :: l)) = default x (last l).
Proof. rewrite last_cons. by destruct (last l). Qed.

Lemma after_chunk ch p ds us :
  after (take_chunk ch (Parser [] (sb p) (tokens p) (usageTokens p) (calls p))) ds us
  = after p (delta ch ++ ds) (option_list (Usage ch) ++ us).
Proof.
  destruct ch as [cs u e]. unfold take_chunk, delta. simpl.
  assert (forall p', after (match u with Some u => Parser (dataLines p') (sb p') (tokens p') u (calls p') | None => p' end) ds us
    = after p' ds (option_list u ++ us)) as Hu.
  { intros p'. destruct u; [|done]. unfold after. simpl. f_equal. symmetry. apply last_cons_default. }
  destruct cs as [|c cs]; [by rewrite Hu|]. destruct (String.eqb c ""); [by rewrite Hu|].
  rewrite Hu. unfold after. simpl. rewrite string_app_assoc, <- app_assoc. simpl. f_equal. lia.
Qed.

(** [flush] consumes exactly the block at hand. *)
Lemma flush_spec p rest :
  let '(r, p') := flush p in
  let q := after p [] [] in
  match r with
  | Err m => read_events (close (dataLines p) ++ rest) = ([], [], Bad m) /\ after p' [] [] = q
  | Ok true => read_events (close (dataLines p) ++ rest) = ([], [], Done) /\ after p' [] [] = q
  | Ok false => dataLines p' = [] /\
      let '(ds, us, v) := read_events rest in
      exists ds' us', read_events (close (dataLines p) ++ rest) = (ds', us', v) /\ after p' ds us = after p ds' us'
  end.
Proof.
  unfold flush. destruct (dataLines p) as [|l ls] eqn:El.
  - split; [done|]. simpl. destruct (read_events rest) as [[ds us] v]. by exists ds, us.
  - cbn [close app read_events]. destruct (String.eqb _ "[DONE]"); [split; [done|by rewrite !after_nil]|].
    destruct (decode _) as [ch|e]; [|split; [done|by rewrite !after_nil]].
    destruct (Error ch); [split; [done|by rewrite !after_nil]|].
    split; [unfold take_chunk; by destruct (Choices ch) as [|c ?], (Usage ch); simpl; try destruct (String.eqb c "")|].
    destruct (read_events rest) as [[ds us] v]. do 2 eexists. split; [reflexivity|]. apply after_chunk.
Qed.

Lemma finished_after p q : after p [] [] = after q [] [] -> finished p = finished q /\ calls p = calls q.
Proof. rewrite !after_nil. intros [= H1 H2 H3 H4]. unfold finished. by rewrite H1, H2, H3. Qed.
Lemma failed_after e p q : after p [] [] = after q [] [] -> failed e p = failed e q /\ calls p = calls q.
Proof. rewrite !after_nil. intros [= H1 H2 H3 H4]. unfold failed. by rewrite H2. Qed.

(** The answer and the calls of a parser that reads deltas, usages, and stops. *)
Definition verdict_of (p : parser) (duv : list string * list Z * verdict) : answer * list (string * Z) :=
  let '(ds, us, v) := duv in
  let q := after p ds us in
  (match v with Done => finished q | Bad e => failed e q | Truncated => failed ended_without_done q end, calls q).

Definition outcome_of (ap : answer * parser) : answer * list (string * Z) := (ap.1, calls ap.2).

Definition uncancelled (lines : list string) : list (string * option error) := map (fun l => (l, None)) lines.

Lemma parse_lines_spec lines p :
  outcome_of (parse_lines (uncancelled lines) (Ending None None) p) = verdict_of p (read_events (events (dataLines p) lines)).
Proof.
  revert p. induction lines as [|l lines IH]; intros p; simpl.
  - unfold parse_end. simpl. pose proof (flush_spec p []) as H. rewrite app_nil_r in H.
    destruct (flush p) as [[[]|m] p']; unfold outcome_of, verdict_of.
    + destruct H as [-> H]. simpl. destruct (finished_after _ _ H) as [-> ->]. by rewrite after_nil, ?app_nil_r.
    + destruct H as [_ (ds & us & -> & H)]. rewrite <- H. by rewrite after_nil.
    + destruct H as [-> H]. simpl. destruct (failed_after m _ _ H) as [-> ->]. by rewrite after_nil, ?app_nil_r.
  - unfold classify. destruct (String.eqb (TrimSpace l) "").
    + pose proof (flush_spec p (events [] lines)) as H. destruct (flush p) as [[[]|m] p'].
      * destruct H as [-> H]. unfold outcome_of, verdict_of. simpl.
        destruct (finished_after _ _ H) as [-> ->]. by rewrite after_nil, ?app_nil_r.
      * destruct H as [Hd H]. rewrite IH, Hd. destruct (read_events (events [] lines)) as [[ds us] v].
        destruct H as (ds' & us' & -> & H). unfold verdict_of. by rewrite H.
      * destruct H as [-> H]. unfold outcome_of, verdict_of. simpl.
        destruct (failed_after m _ _ H) as [-> ->]. by rewrite after_nil, ?app_nil_r.
    + destruct (cutPrefix _ _) as [d|]; rewrite IH; [|done]. done.
Qed.

(** Success means the sentinel was reached, on lines that were all read before
    the context ended. *)
Lemma parse_lines_ok ls e p text n p' :
  parse_lines ls e p = (Ok (text, n), p') ->
  exists k ds us, Forall (fun lc => lc.2 = None) (take k ls) /\
    read_events (events (dataLines p) (map fst (take k ls))) = (ds, us, Done) /\
    Ok (text, n) = finished (after p ds us) /\ calls p' = calls (after p ds us).
Proof.
  revert p. induction ls as [|[l ctx] ls IH]; intros p; simpl.
  - unfold parse_end. destruct (scan_err e); [done|]. pose proof (flush_spec p []) as H. rewrite app_nil_r in H.
    destruct (flush p) as [[[]|m] q]; try done. intros E. destruct H as [H Ha].
    destruct (finished_after _ _ Ha) as [Hf Hc]. exists 0%nat, [], []. simpl take. simpl events. rewrite H.
    split; [constructor|]. split; [done|]. rewrite after_nil.
    pose proof (f_equal fst E) as E1. pose proof (f_equal snd E) as E2. cbn [fst snd] in E1, E2.
    rewrite <- E1, <- E2. split; [exact Hf|]. simpl. by rewrite Hc, ?app_nil_r.
  - destruct ctx; [done|]. destruct (String.eqb (TrimSpace l) "") eqn:Eb.
    + pose proof (flush_spec p (events [] [])) as H0. destruct (flush p) as [[[]|m] q] eqn:Ef; [| |done].
      * intros E. destruct H0 as [H Ha]. destruct (finished_after _ _ Ha) as [Hf Hc].
        exists 1%nat, [], []. simpl take. simpl map. simpl events. unfold classify. rewrite Eb.
        split; [by repeat constructor|]. split; [exact H|]. rewrite after_nil.
        pose proof (f_equal fst E) as E1. pose proof (f_equal snd E) as E2. cbn [fst snd] in E1, E2.
        rewrite <- E1, <- E2. split; [exact Hf|]. simpl. by rewrite Hc, ?app_nil_r.
      * intros Hp. destruct (IH _ Hp) as (k & ds & us & Hk & Hr & Ht & Hc). destruct H0 as [Hd _].
        pose proof (flush_spec p (events [] (map fst (take k ls)))) as H. rewrite Ef, Hd in *. rewrite Hr in H.
        destruct H as [_ (ds' & us' & Hr' & Ha)]. exists (S k), ds', us'. cbn [take map fst events]. unfold classify. rewrite Eb.
        split; [by constructor|]. split; [exact Hr'|]. split; [by rewrite <- Ha|]. rewrite Hc. by rewrite Ha.
    + destruct (cutPrefix _ _) as [d|] eqn:Ec; intros Hp; destruct (IH _ Hp) as (k & ds & us & Hk & Hr & Ht & Hc);
        exists (S k), ds, us; cbn [take map fst events]; unfold classify; rewrite Eb, Ec; (split; [by constructor|done]).
Qed.

End stream.

(** ** handler.go: the outbound body *)

Abbreviation object := (gmap string Json.json).

Definition str (s : string) : Json.json := Json.JStr (Json.chars s).

Definition of_object (m : object) : Json.json :=
  Json.JObj (map (fun kv => (Json.chars kv.1, kv.2)) (map_to_list m)).

Definition controlled (k : string) : bool :=
  String.eqb k "model" || String.eqb k "messages" || String.eqb k "stream" || String.eqb k "stream_options".

(** [body], with the caller's options laid over it. *)
Definition base_body (model : string) (messages : list object) : object :=
  {[ "model" := str model;
     "messages" := Json.JArr (map of_object messages);
     "stream" := Json.JBool true;
     "stream_options" := Json.JObj [(Json.chars "include_usage", Json.JBool true)] ]}.

Definition chat_body (model : string) (messages : list object) (options : object) : object :=
  filter (fun kv => controlled kv.1 = false) options ∪ base_body model messages.

(** The messages [serveChat] makes of a prompt and a system text. *)
Definition user_message (prompt : string) : object := {[ "role" := str "user"; "content" := str prompt ]}.
Definition system_message (text : string) : object := {[ "role" := str "system"; "content" := str text ]}.

(** ** embed.go *)

Section embed.
(** A vector, and the nil one. *)
Context {V : Type} (nil : V).

Record EmbedRequest := MkEmbedRequest { er_model : string; Input : list string }.

Definition quoted (s : string) : string := String Json.quotemark (s +:+ String Json.quotemark EmptyString).

(** [decodeEmbedInput] on the raw value, [None] when the field is missing: a list
    of strings (null ones are empty), or a single string; null is no input. *)
Definition string_of (v : Json.json) : option string :=
  match v with
  | Json.JStr s => Some (String.string_of_list_ascii s)
  | Json.JNull => Some ""
  | _ => None
  end.

Definition decodeEmbedInput (raw : option Json.json) : result error (list string) :=
  let field := quoted "input" in
  let bad := Err (Errorf ("embed request: " +:+ field +:+ " must be a string or an array of strings")) in
  match raw with
  | None => Err (Errorf ("embed request: missing required field " +:+ field))
  | Some Json.JNull => Ok []
  | Some (Json.JArr l) => match mapM string_of l with Some ss => Ok ss | None => bad end
  | Some (Json.JStr s) => Ok [String.string_of_list_ascii s]
  | Some _ => bad
  end.

(** [DecodeEmbedRequest], given the decoded model and raw input. *)
Definition DecodeEmbedRequest (body : result error (string * option Json.json)) : result error EmbedRequest :=
  match body with
  | Err e => Err (wrap "decode embed request: " e)
  | Ok (model, raw) => input ← decodeEmbedInput raw; Ok (MkEmbedRequest model input)
  end.

(** The loop that places each vector at its index. *)
Fixpoint place (n : Z) (items : list (V * Z)) (out : list V) : result error (list V) :=
  match items with
  | [] => Ok out
  | (v, i) :: items' =>
      if (i <? 0) || (n <=? i)
      then Err (Errorf ("openai upstream: embedding index " +:+ Itoa i +:+ " out of range for " +:+ Itoa n +:+ " inputs"))
      else place n items' (<[Z.to_nat i := v]> out)
  end.

Record EmbedResponse := MkEmbedResponse { re_model : string; Embeddings : list V }.

(** [Embed], given the decoded upstream answer or the error of the call. *)
Definition Embed (req : EmbedRequest) (upstream : result error (string * list (V * Z))) : result error EmbedResponse :=
  '(model, data) ← upstream;
  out ← place (Z.of_nat (length data)) data (replicate (length data) nil);
  Ok (MkEmbedResponse (if String.eqb model "" then er_model req else model) out).

End embed.

(** ** handler.go: the responses *)

Section handler.
Context {V : Type} (nil : V) (decode : string -> result error sseChunk).

Inductive ndjson :=
| LChunk (model response : string) (done : bool) (eval_count : Z)
| LError (m : string)
| LEmbed (r : EmbedResponse (V := V)).

(** What a handler does to its ResponseWriter, in order. *)
Inductive write :=
| WHeader (key value : string)
| WStatus (code : Z)
| WLine (l : ndjson)
| WFlush.

Definition writeJSONError (status : Z) (m : string) : list write :=
  [WHeader "Content-Type" "application/json"; WStatus status; WLine (LError m)].

Definition write_answer (a : Proxy.answer) : list write :=
  map (fun h => WHeader h.1 h.2) (Proxy.headers a) ++ [WStatus (Proxy.status a)].

Definition writeUpstreamErrorOrFallback (e : error) : list write :=
  match Proxy.WriteUpstreamError e with
  | Some a => write_answer a
  | None => writeJSONError 502 (Proxy.msg e)
  end.

Definition isEmptyFieldValue (v : Json.json) : bool :=
  match v with Json.JNull | Json.JArr [] | Json.JStr [] => true | _ => false end.

Definition unsupportedMessageField (messages : list object) : option string :=
  if existsb (fun m => match m !! "images" with Some v => negb (isEmptyFieldValue v) | None => false end) messages
  then Some "images" else None.

Record ollamaChatRequest := MkChat {
  Model : string; Prompt : string; Messages : list object; System : string;
  StreamField : option bool; Options : object;
}.

(** The call of the upstream: what [openChatStream] returns for a body, an error
    or the lines of the stream and its ending. *)
Abbreviation call := (object -> result error (list (string * option error) * ending)).

Definition serveChatBuffered (upstream : call) (model : string) (messages : list object) (options : object) : list write :=
  match upstream (chat_body model messages options) with
  | Err e => writeUpstreamErrorOrFallback e
  | Ok (ls, e) =>
      match (parseSSEStream decode ls e).1 with
      | Err (_, e) => writeUpstreamErrorOrFallback e
      | Ok (text, n) => [WHeader "Content-Type" "application/json"; WLine (LChunk model text true n)]
      end
  end.

(** [flusher]: the writer can flush. *)
Definition serveChatStreaming (flusher : bool) (upstream : call) (model : string) (messages : list object)
    (options : object) : list write :=
  if negb flusher then writeJSONError 500 "streaming unsupported"
  else
    match upstream (chat_body model messages options) with
    | Err e => writeUpstreamErrorOrFallback e
    | Ok (ls, e) =>
        let '(a, cs) := parseSSEStreamChunks decode ls e in
        [WHeader "Content-Type" "application/x-ndjson"; WStatus 200; WFlush]
        ++ (cs ≫= fun c => [WLine (LChunk model c.1 false 0); WFlush])
        ++ [WLine (match a with
                   | Err (_, e) => LError ("openai: " +:+ Proxy.msg e)
                   | Ok (_, n) => LChunk model "" true n
                   end); WFlush]
    end.

(** The messages [serveChat] sends. *)
Definition chat_messages (req : ollamaChatRequest) : list object :=
  match Messages req with
  | [] => (if String.eqb (System req) "" then [] else [system_message (System req)]) ++ [user_message (Prompt req)]
  | ms => ms
  end.

Definition serveChat (flusher : bool) (upstream : call) (body : result error ollamaChatRequest) : list write :=
  match body with
  | Err e => writeJSONError 400 ("decode request: " +:+ Proxy.msg e)
  | Ok req =>
      match unsupportedMessageField (Messages req) with
      | Some field => writeJSONError 400 ("unsupported field: " +:+ field)
      | None =>
          if default true (StreamField req)
          then serveChatStreaming flusher upstream (Model req) (chat_messages req) (Options req)
          else serveChatBuffered upstream (Model req) (chat_messages req) (Options req)
      end
  end.

Definition serveEmbed (upstream : EmbedRequest -> result error (string * list (V * Z)))
    (body : result error (string * option Json.json)) : list write :=
  match DecodeEmbedRequest body with
  | Err e => writeJSONError 400 (Proxy.msg e)
  | Ok req =>
      match Embed nil req (upstream req) with
      | Err e => writeUpstreamErrorOrFallback e
      | Ok resp => [WHeader "Content-Type" "application/json"; WLine (LEmbed resp)]
      end
  end.

(** A request, by its path, with the outcome of decoding its body. *)
Definition ServeHTTP (path : string) (flusher : bool) (chat : call)
    (embed : EmbedRequest -> result error (string * list (V * Z)))
    (chat_req : result error ollamaChatRequest) (embed_req : result error (string * option Json.json)) : list write :=
  if String.eqb path "/api/generate" || String.eqb path "/api/chat" then serveChat flusher chat chat_req
  else if String.eqb path "/api/embed" then serveEmbed embed embed_req
  else writeJSONError 404 "not found: openai backend only supports /api/generate, /api/chat, /api/embed".

(** ** Reading a response *)

Definition statuses (ws : list write) : list Z :=
  omap (fun w => match w with WStatus c => Some c | _ => None end) ws.
Definition lines_of (ws : list write) : list ndjson :=
  omap (fun w => match w with WLine l => Some l | _ => None end) ws.

(** The status net/http sends: the first one written, 200 if a body comes first
    or nothing is written. *)
Fixpoint committed (ws : list write) : Z :=
  match ws with
  | WStatus c :: _ => c
  | WLine _ :: _ | WFlush :: _ => 200
  | WHeader _ _ :: ws' => committed ws'
  | [] => 200
  end.

Definition response_of (l : ndjson) : string := match l with LChunk _ r _ _ => r | _ => "" end.
Definition is_final (l : ndjson) : bool := match l with LChunk _ _ d _ => d | _ => true end.

(** ** Shapes of responses *)

Record well_formed (ws : list write) : Prop := {
  wf_status : statuses ws = [committed ws] \/ (statuses ws = [] /\ committed ws = 200);
  wf_codes : committed ws ∈ [200; 400; 404; 500; 502; 503];
  wf_error : committed ws <> 200 -> Forall (fun l => exists m, l = LError m) (lines_of ws);
  wf_final : committed ws = 200 -> exists ls l, lines_of ws = ls ++ [l] /\
    is_final l = true /\ Forall (fun l => is_final l = false) ls;
}.

Lemma writeJSONError_wf c m : c ∈ [400; 404; 500; 502] -> well_formed (writeJSONError c m).
Proof.
  intros Hc. split; simpl; [by left|set_solver|by repeat econstructor|].
  intros ->. exfalso. revert Hc. rewrite !elem_of_cons, elem_of_nil. lia.
Qed.

Lemma fallback_wf e : well_formed (writeUpstreamErrorOrFallback e).
Proof.
  unfold writeUpstreamErrorOrFallback. destruct (Proxy.WriteUpstreamError e) as [a|] eqn:E; [|apply writeJSONError_wf; set_solver].
  assert (a = Proxy.deferred) as ->.
  { unfold Proxy.WriteUpstreamError in E. by destruct (Proxy.Is e Proxy.Canceled), (Proxy.Is e Proxy.DeadlineExceeded); simplify_eq. }
  split; simpl; [by left|set_solver|constructor|done].
Qed.

(** The lines relayed for the calls [cs]. *)
Definition relayed (model : string) (cs : list (string * Z)) : list write :=
  cs ≫= fun c => [WLine (LChunk model c.1 false 0); WFlush].

Lemma relayed_lines model cs ws :
  lines_of (relayed model cs ++ ws) = map (fun c => LChunk model c.1 false 0) cs ++ lines_of ws.
Proof. induction cs as [|c cs IH]; [done|]. cbn. f_equal. exact IH. Qed.

Lemma relayed_statuses model cs ws : statuses (relayed model cs ++ ws) = statuses ws.
Proof. induction cs as [|c cs IH]; [done|]. exact IH. Qed.

Lemma serveChatStreaming_wf flusher upstream model messages options :
  well_formed (serveChatStreaming flusher upstream model messages options).
Proof.
  unfold serveChatStreaming. destruct flusher; simpl negb; [|apply writeJSONError_wf; set_solver].
  destruct (upstream _) as [[ls e]|e]; [|apply fallback_wf].
  destruct (parseSSEStreamChunks decode ls e) as [a cs]. fold (relayed model cs).
  set (l := match a with Ok _ => _ | Err _ => _ end). split; simpl; [|set_solver|done|].
  - left. f_equal. by rewrite relayed_statuses.
  - intros _. exists (map (fun c => LChunk model c.1 false 0) cs), l.
    split; [by rewrite relayed_lines|]. split; [by unfold l; destruct a as [[? ?]|[? ?]]|].
    apply Forall_forall. intros x (c & -> & _)%list_elem_of_fmap. done.
Qed.

Lemma one_line_wf l k v : is_final l = true -> well_formed [WHeader k v; WLine l].
Proof.
  intros Hl. split; simpl; [by right|set_solver|done|]. intros _. exists [], l. by repeat constructor.
Qed.

Lemma serveChatBuffered_wf upstream model messages options :
  well_formed (serveChatBuffered upstream model messages options).
Proof.
  unfold serveChatBuffered. destruct (upstream _) as [[ls e]|e]; [|apply fallback_wf].
  destruct (parseSSEStream decode ls e).1 as [[text n]|[n e']]; [by apply one_line_wf|apply fallback_wf].
Qed.

Lemma map_numbered n ds : map fst (numbered n ds) = ds.
Proof. revert n. induction ds as [|d ds IH]; intros n; simpl; [done|]. by rewrite IH. Qed.

(** What the streaming mode writes for a stream that is read to its end. *)
Lemma streamed_ok upstream model messages options ls e text n :
  upstream (chat_body model messages options) = Ok (ls, e) ->
  (parseSSEStreamChunks decode ls e).1 = Ok (text, n) ->
  exists k ds us, Forall (fun lc => lc.2 = None) (take k ls) /\
    read_events decode (events [] (map fst (take k ls))) = (ds, us, Done) /\ text = concat_strings ds /\
    lines_of (serveChatStreaming true upstream model messages options) =
      map (fun d => LChunk model d false 0) ds ++ [LChunk model "" true n].
Proof.
  intros Hu Hp. unfold serveChatStreaming. rewrite Hu. simpl negb. cbn match. unfold parseSSEStreamChunks in *.
  destruct (parse_lines decode ls e new_parser) as [a p] eqn:E. simpl in Hp. subst a. fold (relayed model (calls p)).
  destruct (parse_lines_ok decode _ _ _ _ _ _ E) as (k & ds & us & H1 & H2 & H3 & H4).
  exists k, ds, us. split; [done|]. split; [exact H2|]. unfold finished, after in H3. simpl in H3. injection H3 as -> _.
  split; [done|]. change (lines_of (?a :: ?b :: ?c :: ?l)) with (lines_of l). simpl app.
  change (lines_of (WHeader ?a ?b :: ?l)) with (lines_of l). change (lines_of (WStatus ?b :: ?l)) with (lines_of l).
  change (lines_of (WFlush :: ?l)) with (lines_of l). rewrite relayed_lines, H4. unfold after. simpl.
  f_equal. rewrite <- (map_numbered 0 ds) at 2. by rewrite map_map.
Qed.

(** ** Properties *)

(** Every request to the openai backend gets one response of a sound shape,
    whatever the request and the upstream do: one status (or the implicit 200 of
    a body), an error status with nothing but an error object, and on a 200 any
    number of unfinished lines and one last line that is done or an in-band
    error. *)
Theorem openai_response_well_formed path flusher chat embed chat_req embed_req :
  well_formed (ServeHTTP path flusher chat embed chat_req embed_req).
Proof.
  unfold ServeHTTP. destruct (_ || _); [|destruct (String.eqb _ _)].
  - unfold serveChat. destruct chat_req as [req|e]; [|apply writeJSONError_wf; set_solver].
    destruct (unsupportedMessageField _); [apply writeJSONError_wf; set_solver|].
    destruct (default _ _); [apply serveChatStreaming_wf|apply serveChatBuffered_wf].
  - unfold serveEmbed. destruct (DecodeEmbedRequest _) as [req|e]; [|apply writeJSONError_wf; set_solver].
    destruct (Embed _ _ _) as [r|e]; [by apply one_line_wf|apply fallback_wf].
  - apply writeJSONError_wf; set_solver.
Qed.

(** C11: a client is never told that a cut stream is complete, and both modes
    deliver the same text: when the buffered mode answers 200, the stream's
    [[DONE]] was read on lines that all came before the context ended, its text
    is the concatenation of the deltas of the events, and the streaming mode
    sends these deltas line by line and ends with the same token count; when the
    stream fails, the streaming mode ends with an error line. *)
Theorem chat_delivers upstream model messages options ls e :
  upstream (chat_body model messages options) = Ok (ls, e) ->
  let streamed := lines_of (serveChatStreaming true upstream model messages options) in
  match (parseSSEStreamChunks decode ls e).1 with
  | Ok (text, n) =>
      (exists k ds us, Forall (fun lc => lc.2 = None) (take k ls) /\
         read_events decode (events [] (map fst (take k ls))) = (ds, us, Done) /\ text = concat_strings ds /\
         streamed = map (fun d => LChunk model d false 0) ds ++ [LChunk model "" true n]) /\
      lines_of (serveChatBuffered upstream model messages options) = [LChunk model text true n]
  | Err (n, er) =>
      (exists ds, streamed = map (fun d => LChunk model d false 0) ds ++ [LError ("openai: " +:+ Proxy.msg er)]) /\
      serveChatBuffered upstream model messages options = writeUpstreamErrorOrFallback er
  end.
Proof.
  intros Hu. cbn zeta. pose proof (streamed_ok upstream model messages options ls e) as H.
  unfold serveChatBuffered, parseSSEStream. rewrite Hu. unfold serveChatStreaming in *. rewrite Hu in *.
  unfold parseSSEStreamChunks in *. destruct (parse_lines decode ls e new_parser) as [a p]. cbn [fst] in *.
  fold (relayed model (calls p)) in *. destruct a as [[text n]|[n er]].
  - split; [|done]. exact (H _ _ eq_refl eq_refl).
  - split; [|done]. exists (map fst (calls p)). simpl negb. cbn match. simpl app.
    change (lines_of (WHeader ?a ?b :: ?l)) with (lines_of l). change (lines_of (WStatus ?b :: ?l)) with (lines_of l).
    change (lines_of (WFlush :: ?l)) with (lines_of l). rewrite relayed_lines. simpl. by rewrite map_map.
Qed.

End handler.

(** The line scanner refines the grouping into events: on a stream whose
    context stays alive, the answer and every call of [onChunk] are those of the
    events, the deltas in order up to the sentinel or the first bad event, the
    last usage overriding the count, and an error when neither comes. *)
Theorem sse_reads_events decode lines :
  parseSSEStreamChunks decode (uncancelled lines) (Ending None None) = stream_spec decode lines.
Proof.
  unfold parseSSEStreamChunks. pose proof (parse_lines_spec decode lines new_parser) as H.
  destruct (parse_lines decode _ _ _) as [a p]. unfold outcome_of in H. simpl fst in H. simpl snd in H.
  rewrite H. unfold stream_spec. simpl dataLines. destruct (read_events decode (events [] lines)) as [[ds us] v].
  unfold verdict_of, after, finished, failed. simpl. rewrite Z.add_0_l. f_equal.
  destruct v; [|done..]. f_equal. f_equal. by destruct (last us).
Qed.

(** Options never replace the fields the translator controls, and every
    other option reaches the upstream as it is. *)
Theorem options_pass_through model messages options k :
  chat_body model messages options !! k = if controlled k then base_body model messages !! k else options !! k.
Proof.
  unfold chat_body. rewrite lookup_union, map_lookup_filter. destruct (controlled k) eqn:Ek.
  - destruct (options !! k) as [v|]; simpl; [|by rewrite (left_id None union)].
    rewrite option_guard_False by (simpl; congruence). by rewrite (left_id None union).
  - assert (base_body model messages !! k = None) as ->.
    { unfold controlled in Ek. rewrite !orb_false_iff, !String.eqb_neq in Ek. destruct Ek as (((? & ?) & ?) & ?).
      unfold base_body. by rewrite !lookup_insert_ne, lookup_singleton_ne by congruence. }
    rewrite (right_id None union). destruct (options !! k); simpl; [|done]. by rewrite option_guard_True.
Qed.

(** *** Embeddings *)

Section placing.
Context {V : Type}.

Definition in_range (n : Z) (vi : V * Z) : Prop := 0 <= vi.2 < n.

Lemma place_spec n items (out : list V) : Z.of_nat (length out) = n ->
  match place n items out with
  | Ok out' => Forall (in_range n) items /\ length out' = length out /\
      (forall j, Z.of_nat j ∉ map snd items -> out' !! j = out !! j) /\
      (NoDup (map snd items) -> forall v i, (v, i) ∈ items -> out' !! Z.to_nat i = Some v)
  | Err _ => Exists (fun vi => ~ in_range n vi) items
  end.
Proof.
  revert out. induction items as [|[v i] items IH]; intros out Hn; simpl.
  - split; [constructor|]. split; [done|]. split; [done|]. by intros _ v i ?%elem_of_nil.
  - destruct (Z.ltb_spec i 0), (Z.leb_spec n i); simpl; try (by left; unfold in_range; simpl; lia).
    specialize (IH (<[Z.to_nat i := v]> out)). rewrite length_insert in IH. specialize (IH Hn).
    destruct (place n items _) as [out'|]; [|by right]. destruct IH as (H1 & H2 & H3 & H4).
    split; [constructor; [done|exact H1]|]. split; [done|]. split.
    + intros j Hj. rewrite elem_of_cons in Hj. rewrite H3 by tauto. apply list_lookup_insert_ne. lia.
    + intros [Hi Hnd]%NoDup_cons v' i' [[= -> ->]|Hin]%elem_of_cons; [|by apply H4].
      rewrite H3 by (by rewrite Z2Nat.id). apply list_lookup_insert_eq. lia.
Qed.

(** Vectors come back in the order of their inputs: an answer with an index
    out of range is an error; otherwise there are as many vectors as the upstream
    sent, and if their indices are distinct, position [j] holds exactly the
    vector of index [j], whatever the order they came in. *)
Theorem embed_in_order (nil : V) req model data :
  match Embed nil req (Ok (model, data)) with
  | Ok r => Forall (in_range (Z.of_nat (length data))) data /\ length (Embeddings r) = length data /\
      (NoDup (map snd data) -> forall v j, Embeddings r !! j = Some v <-> (v, Z.of_nat j) ∈ data)
  | Err _ => Exists (fun vi => ~ in_range (Z.of_nat (length data)) vi) data
  end.
Proof.
  unfold Embed. simpl. pose proof (place_spec (Z.of_nat (length data)) data (replicate (length data) nil)) as H.
  rewrite length_replicate in H. specialize (H eq_refl).
  destruct (place _ _ _) as [out|]; [|done]. simpl. destruct H as (H1 & H2 & _ & H4).
  split; [done|]. split; [done|]. intros Hnd v j. specialize (H4 Hnd). split.
  - intros Hj. apply lookup_lt_Some in Hj as Hlt.
    assert (Z.of_nat j ∈ map snd data) as Hin.
    { assert (map snd data ≡ₚ seqZ 0 (Z.of_nat (length data))) as ->; [|apply elem_of_seqZ; lia].
      apply submseteq_length_Permutation; [|rewrite length_seqZ, length_map; lia].
      apply NoDup_submseteq; [done|]. intros x (vi & -> & Hvi)%list_elem_of_fmap.
      rewrite Forall_forall in H1. apply H1 in Hvi. unfold in_range in Hvi. apply elem_of_seqZ. lia. }
    apply list_elem_of_fmap in Hin as ([v' i] & Hi & Hin). simpl in Hi. subst i.
    specialize (H4 _ _ Hin). rewrite Nat2Z.id in H4. by simplify_eq.
  - intros Hin. specialize (H4 _ _ Hin). by rewrite Nat2Z.id in H4.
Qed.

End placing.

(** An upstream that answers two inputs with a single vector, or gives two
    vectors the same index, passes. *)
Example embed_can_miss_inputs :
  Embed [] (MkEmbedRequest "bge" ["a"; "b"]) (Ok ("", [([7], 0)])) = Ok (MkEmbedResponse "bge" [[7]]) /\
  Embed [] (MkEmbedRequest "bge" ["a"; "b"]) (Ok ("", [([7], 1); ([8], 1)])) = Ok (MkEmbedResponse "bge" [[]; [8]]).
Proof. by split. Qed.

(** ** Witnesses *)

(** A decoder for the witnesses: the text after the first byte is the delta. *)
Definition demo_decode (data : string) : result error sseChunk := Ok (SSEChunk [drop_bytes 1 data] None None).

Definition demo_lines : list (string * option error) :=
  uncancelled ["data: +Hel"; ": ping"; ""; "data: +lo"; ""; "data: [DONE]"].

Lemma chat_delivers_witness :
  lines_of (serveChatBuffered (V := nat) demo_decode (fun _ => Ok (demo_lines, Ending None None)) "qwen" [] ∅)
    = [LChunk "qwen" "Hello" true 2].
Proof.
  exact (proj2 (chat_delivers (V := nat) demo_decode (fun _ => Ok (demo_lines, Ending None None)) "qwen" [] ∅ demo_lines
    (Ending None None) eq_refl)).
Defined.

End OpenAICompat.
