(* ===== verification/Ollama.v ===== *)
(** * The Ollama client's generation stream (src/internal/ollama/client.go)

    [Generate] over the lines the scanner returns; a line's type and the decoding
    of its JSON are parameters, which [Ndjson] fills with the bytes of a body, the
    scanner and the chunk struct.  [LoadedModels] and [Unload] are in
    [Clients].

    Proved: a generation succeeds exactly when a chunk marked done comes before
    any bad one, with the concatenation of the responses up to it. *)

From S2P Require Import Prelude GoLib Json Proxy OpenAICompat.
#[local] Set Warnings "-clear-no-such-hyp,-level-tolerance".
Local Open Scope Z_scope.

Module Ollama.
Import GoLib.
Abbreviation error := Proxy.error.

Record chunk := MkChunk { Response : string; Done : bool; EvalCount : Z; Error : string }.

(** The body of /api/generate: the options under the controlled fields. *)
Definition controlled (k : string) : bool :=
  String.eqb k "model" || String.eqb k "prompt" || String.eqb k "stream".

Definition generate_body (model prompt : string) (options : OpenAICompat.object) : OpenAICompat.object :=
  filter (fun kv => controlled kv.1 = false) options ∪
  {[ "model" := OpenAICompat.str model; "prompt" := OpenAICompat.str prompt; "stream" := Json.JBool true ]}.

Section generate.
(** [blank]: the line is empty once trimmed; [decode]: its JSON as a chunk. *)
Context {L : Type} (blank : L -> bool) (decode : L -> result error chunk).

(** The answer and the calls of [onTokens]. *)
Definition answer : Type := result (Z * error) (string * Z).

Definition read_end (e : OpenAICompat.ending) (tokens : Z) : answer :=
  match OpenAICompat.scan_err e with
  | Some m => Err (tokens, default m (OpenAICompat.end_ctx e))
  | None => Err (tokens, default (OpenAICompat.Errorf "ollama stream ended without done") (OpenAICompat.end_ctx e))
  end.

(** The scan loop, with [sb] and [tokens] so far. *)
Fixpoint read_lines (ls : list L) (e : OpenAICompat.ending) (sb : string) (tokens : Z) : answer * list Z :=
  match ls with
  | [] => (read_end e tokens, [])
  | l :: ls' =>
      if blank l then read_lines ls' e sb tokens
      else match decode l with
           | Err er => (Err (tokens, OpenAICompat.wrap "decode stream chunk: " er), [])
           | Ok ch =>
               if negb (String.eqb (Error ch) "")
               then (Err (tokens, OpenAICompat.Errorf ("ollama: " +:+ Error ch)), [])
               else
                 let '(sb, tokens, called) :=
                   if negb (String.eqb (Response ch) "") then (sb +:+ Response ch, tokens + 1, [tokens + 1])
                   else (sb, tokens, []) in
                 if Done ch
                 then (Ok (sb, if 0 <? EvalCount ch then EvalCount ch else tokens), called)
                 else let '(a, cs) := read_lines ls' e sb tokens in (a, called ++ cs)
           end
  end.

(** [Generate], given the outcome of the request: an error, or the status with
    the lines of the body and its ending. *)
Definition Generate (resp : result error (Z * list L * OpenAICompat.ending)) : answer * list Z :=
  match resp with
  | Err e => (Err (0, e), [])
  | Ok (status, ls, e) =>
      if negb (status =? 200)
      then (Err (0, OpenAICompat.Errorf ("ollama /api/generate: status " +:+ Itoa status)), [])
      else read_lines ls e "" 0
  end.

(** *** What the loop reads *)

(** The chunks before the first line that does not decode or carries an error. *)
Fixpoint good_chunks (ls : list L) : list chunk :=
  match ls with
  | [] => []
  | l :: ls' =>
      if blank l then good_chunks ls'
      else match decode l with
           | Ok ch => if String.eqb (Error ch) "" then ch :: good_chunks ls' else []
           | Err _ => []
           end
  end.

Definition responses (chs : list chunk) : list string :=
  filter (fun s => s <> "") (map Response chs).

(** The first chunk marked done, with those before it. *)
Fixpoint up_to_done (chs : list chunk) : option (list chunk * chunk) :=
  match chs with
  | [] => None
  | ch :: chs' =>
      if Done ch then Some ([], ch)
      else match up_to_done chs' with Some (pre, d) => Some (ch :: pre, d) | None => None end
  end.

Lemma responses_cons ch chs :
  responses (ch :: chs) = (if String.eqb (Response ch) "" then [] else [Response ch]) ++ responses chs.
Proof.
  unfold responses. simpl. rewrite filter_cons. destruct (String.eqb_spec (Response ch) ""); by case_decide.
Qed.

Lemma read_lines_spec ls e sb tokens :
  match up_to_done (good_chunks ls) with
  | Some (pre, d) =>
      let rs := responses (pre ++ [d]) in
      (read_lines ls e sb tokens).1 =
        Ok (sb +:+ OpenAICompat.concat_strings rs,
            if 0 <? EvalCount d then EvalCount d else tokens + Z.of_nat (length rs))
  | None => exists n er, (read_lines ls e sb tokens).1 = Err (n, er)
  end.
Proof.
  revert sb tokens. induction ls as [|l ls IH]; intros sb tokens; simpl.
  - unfold read_end. destruct (OpenAICompat.scan_err e); by do 2 eexists.
  - destruct (blank l); [apply IH|]. destruct (decode l) as [ch|er]; [|by do 2 eexists].
    destruct (String.eqb (Error ch) ""); simpl; [|by do 2 eexists].
    destruct (Done ch) eqn:Hd.
    + cbn [app]. rewrite responses_cons. change (responses []) with (@nil string). rewrite app_nil_r.
      destruct (String.eqb (Response ch) ""); simpl.
      * by rewrite OpenAICompat.string_app_nil, Z.add_0_r.
      * by rewrite OpenAICompat.string_app_nil.
    + destruct (String.eqb (Response ch) "") eqn:Er; simpl negb; cbn match.
      * specialize (IH sb tokens). destruct (up_to_done (good_chunks ls)) as [[pre d]|];
          destruct (read_lines ls e sb tokens) as [a cs]; [|exact IH].
        simpl app. rewrite responses_cons, Er. exact IH.
      * specialize (IH (sb +:+ Response ch) (tokens + 1)). destruct (up_to_done (good_chunks ls)) as [[pre d]|];
          destruct (read_lines ls e (sb +:+ Response ch) (tokens + 1)) as [a cs]; [|exact IH].
        simpl app. rewrite responses_cons, Er. simpl fst in *. rewrite IH. simpl.
        rewrite OpenAICompat.string_app_assoc. do 2 f_equal. destruct (0 <? EvalCount d); [done|]. lia.
Qed.

End generate.

(** ** Properties *)

(** A generation is never cut short silently: it succeeds exactly when the
    status is 200 and a chunk marked done precedes any undecodable or error
    chunk, with the concatenation of all responses up to it, and the reported
    count unless that is missing; anything else is an error. *)
Theorem generate_complete {L} blank (decode : L -> result error chunk) resp :
  match resp with
  | Ok (status, ls, e) =>
      match (if status =? 200 then up_to_done (good_chunks blank decode ls) else None) with
      | Some (pre, d) =>
          let rs := responses (pre ++ [d]) in
          (Generate blank decode resp).1 =
            Ok (OpenAICompat.concat_strings rs, if 0 <? EvalCount d then EvalCount d else Z.of_nat (length rs))
      | None => exists n er, (Generate blank decode resp).1 = Err (n, er)
      end
  | Err er => (Generate blank decode resp).1 = Err (0, er)
  end.
Proof.
  destruct resp as [[[status ls] e]|er]; [|done]. simpl. destruct (status =? 200); simpl; [|by do 2 eexists].
  pose proof (read_lines_spec blank decode ls e "" 0) as H. destruct (up_to_done _) as [[pre d]|]; [|exact H].
  simpl in H. by rewrite H, Z.add_0_l.
Qed.

End Ollama.
