(* ===== verification/Ndjson.v ===== *)
(** * The bytes of a generation stream (src/internal/openaicompat/handler.go,
      src/internal/ollama/client.go)

    What the translation's json.Encoder writes for a line, and what Ollama's client
    makes of the bytes: bufio.Scanner with the client's buffer limit, TrimSpace, and
    the decoding of a line into the client's chunk struct by its json tags.  Parsing
    the JSON text is a parameter with the law that what was encoded parses back.

    Proved: an Ollama client reads the broker's stream of an OpenAI chat as its text,
    its error as an error, unless a line does not fit the client's buffer: then the
    generation fails. *)

From S2P Require Import Prelude GoLib Json Grammar Wire Proxy OpenAICompat Ollama.
From Stdlib Require Import Ascii.
#[local] Set Warnings "-clear-no-such-hyp,-level-tolerance".
Local Open Scope Z_scope.

Module Ndjson.
Import GoLib Json Wire.
Abbreviation error := Proxy.error.
Abbreviation to_string := String.string_of_list_ascii.

(** ** handler.go: ollamaChatChunk and the error map, one line each *)

Section encoder.
Context {V : Type} (embed_json : OpenAICompat.EmbedResponse (V := V) -> json).

(** The members in the order of the struct's fields; a zero count is left out. *)
Definition line_json (l : OpenAICompat.ndjson (V := V)) : json :=
  match l with
  | OpenAICompat.LChunk model response done eval_count =>
      JObj ([(chars "model", str model); (chars "response", str response); (chars "done", JBool done)]
            ++ (if eval_count =? 0 then [] else [(chars "eval_count", number eval_count)]))
  | OpenAICompat.LError m => JObj [(chars "error", str m)]
  | OpenAICompat.LEmbed r => embed_json r
  end.

(** [enc.Encode]: the value and a line feed. *)
Definition Encode (l : OpenAICompat.ndjson) : text := encode (line_json l) ++ [LF].

(** The body of a response. *)
Definition body_text (ws : list (OpenAICompat.write (V := V))) : text := OpenAICompat.lines_of ws ≫= Encode.
End encoder.

(** ** client.go: the scanner of the answer's body *)

(** [sc.Buffer]: the largest buffer. *)
Definition maxTokenSize : Z := 2 ^ 20.

Definition ErrTooLong : error := OpenAICompat.Errorf "bufio.Scanner: token too long".

Definition dropCR (l : text) : text :=
  match last l with Some c => if ord c =? 13 then removelast l else l | None => l end.

(** bufio.Scanner with ScanLines: [n] bytes in [line] and no line feed among them.  A
    buffer that is full of them is too long; a last line may lack its line feed. *)
Fixpoint Scan (s : text) (line : text) (n : Z) : list text * bool :=
  if maxTokenSize <=? n then ([], true)
  else match s with
       | [] => (match line with [] => [] | _ => [dropCR line] end, false)
       | c :: s' =>
           if Ascii.eqb c LF then let '(ls, long) := Scan s' [] 0 in (dropCR line :: ls, long)
           else Scan s' (line ++ [c]) (n + 1)
       end.

Definition trimmed (l : text) : text := chars (TrimSpace (to_string l)).

Definition blank (l : text) : bool := match trimmed l with [] => true | _ => false end.

(** ** client.go: the chunk struct *)

(** encoding/json's foldName on the letters the tags have: upper case, with the
    long s and the Kelvin sign among them. *)
Fixpoint foldName (s : text) : text :=
  match s with
  | a :: ((b :: (c :: s2 as s1') as s1)) =>
      if (ord a =? 197) && (ord b =? 191) then "S"%char :: foldName s1'
      else if (ord a =? 226) && (ord b =? 132) && (ord c =? 170) then "K"%char :: foldName s2
      else (if within a 97 122 then chr (ord a - 32) else a) :: foldName s1
  | [a; b] =>
      if (ord a =? 197) && (ord b =? 191) then ["S"%char]
      else map (fun a => if within a 97 122 then chr (ord a - 32) else a) [a; b]
  | [a] => [if within a 97 122 then chr (ord a - 32) else a]
  | [] => []
  end.

Definition is_field (tag : string) (key : text) : bool := bool_decide (foldName key = foldName (chars tag)).

(** A value stored into a field: null leaves it, another type is an error. *)
Definition set_string (old : string) (v : json) : option string :=
  match v with JStr s => Some (to_string s) | JNull => Some old | _ => None end.
Definition set_bool (old : bool) (v : json) : option bool :=
  match v with JBool b => Some b | JNull => Some old | _ => None end.
Definition set_int (old : Z) (v : json) : option Z :=
  match v with JNull => Some old | _ => n ← to_Z v; if in_int64 n then Some n else None end.

Definition set_member (ch : Ollama.chunk) (kv : text * json) : option Ollama.chunk :=
  let '(Ollama.MkChunk r d n e) := ch in
  if is_field "response" kv.1 then (fun r => Ollama.MkChunk r d n e) <$> set_string r kv.2
  else if is_field "done" kv.1 then (fun d => Ollama.MkChunk r d n e) <$> set_bool d kv.2
  else if is_field "eval_count" kv.1 then (fun n => Ollama.MkChunk r d n e) <$> set_int n kv.2
  else if is_field "error" kv.1 then (fun e => Ollama.MkChunk r d n e) <$> set_string e kv.2
  else Some ch.

Fixpoint set_members (ch : Ollama.chunk) (l : list (text * json)) : option Ollama.chunk :=
  match l with [] => Some ch | kv :: l' => ch ← set_member ch kv; set_members ch l' end.

Definition zero_chunk : Ollama.chunk := Ollama.MkChunk "" false 0 "".

Definition decode_value (j : json) : option Ollama.chunk :=
  match j with JObj l => set_members zero_chunk l | JNull => Some zero_chunk | _ => None end.

Section client.
(** The parser of a JSON text, with the error of a text it cannot parse or store. *)
Context (parse : text -> option json) (bad : text -> error).

Definition decode_chunk (l : text) : result error Ollama.chunk :=
  match parse (trimmed l) ≫= decode_value with Some ch => Ok ch | None => Err (bad (trimmed l)) end.

(** [Generate] over the body's bytes. *)
Definition Generate (resp : result error (Z * text * OpenAICompat.ending)) : Ollama.answer * list Z :=
  Ollama.Generate blank decode_chunk
    (match resp with
     | Err e => Err e
     | Ok (status, s, e) =>
         let '(ls, long) := Scan s [] 0 in
         Ok (status, ls, if long then OpenAICompat.Ending (Some ErrTooLong) (OpenAICompat.end_ctx e) else e)
     end).
End client.

(** ** Scanning *)

Lemma Scan_step s line n : n < maxTokenSize ->
  Scan s line n = match s with
    | [] => (match line with [] => [] | _ => [dropCR line] end, false)
    | c :: s' =>
        if Ascii.eqb c LF then let '(ls, long) := Scan s' [] 0 in (dropCR line :: ls, long)
        else Scan s' (line ++ [c]) (n + 1)
    end.
Proof. intros Hn. destruct s; cbn [Scan]; by rewrite (proj2 (Z.leb_gt _ _)). Qed.

Lemma Scan_full s line n : maxTokenSize <= n -> Scan s line n = ([], true).
Proof. intros Hn. destruct s; cbn [Scan]; by rewrite (proj2 (Z.leb_le _ _)). Qed.

Definition size (l : text) : Z := Z.of_nat (length l).

Lemma size_cons c l : size (c :: l) = size l + 1.
Proof. unfold size. simpl length. lia. Qed.

(** One line before a line feed. *)
Lemma Scan_line l s line n : one_line l -> 0 <= n ->
  Scan (l ++ LF :: s) line n =
    if n + size l <? maxTokenSize then let '(ls, long) := Scan s [] 0 in (dropCR (line ++ l) :: ls, long)
    else ([], true).
Proof.
  intros Hl. revert line n. induction Hl as [|c l Hc _ IH]; intros line n Hn.
  - rewrite app_nil_l, app_nil_r. change (size []) with 0. rewrite Z.add_0_r.
    destruct (Z.ltb_spec n maxTokenSize); [|by apply Scan_full]. rewrite Scan_step by done. by rewrite Ascii.eqb_refl.
  - rewrite size_cons, <- app_comm_cons. destruct (Z.ltb_spec n maxTokenSize).
    + rewrite Scan_step, (proj2 (Ascii.eqb_neq _ _) Hc), IH by lia.
      rewrite <- app_assoc. by replace (n + 1 + size l) with (n + (size l + 1)) by lia.
    + rewrite Scan_full by done. rewrite (proj2 (Z.ltb_ge _ _)); [done|]. unfold size. lia.
Qed.

(** The lines up to the first that does not fit, and whether there is one. *)
Fixpoint fitting (ls : list text) : list text * bool :=
  match ls with
  | [] => ([], false)
  | l :: ls' => if size l <? maxTokenSize then let '(fs, long) := fitting ls' in (l :: fs, long) else ([], true)
  end.

Lemma Scan_lines ls : Forall (fun l => one_line l /\ dropCR l = l) ls ->
  Scan (ls ≫= fun l => l ++ [LF]) [] 0 = fitting ls.
Proof.
  induction 1 as [|l ls [Hl Hcr] _ IH]; [done|]. cbn [mbind list_bind fitting]. rewrite <- app_assoc. cbn [app].
  rewrite Scan_line by done. rewrite Z.add_0_l. destruct (size l <? maxTokenSize); [|done].
  fold (mbind (M := list) (fun l : text => l ++ [LF]) ls). rewrite IH. by destruct (fitting ls); rewrite app_nil_l, Hcr.
Qed.

(** *** An object's text is kept whole *)

Definition braces (l : text) : Prop := exists m, l = "{"%char :: m ++ ["}"%char].

Lemma encode_braces l : braces (encode (JObj l)).
Proof. by eexists. Qed.

Lemma braces_dropCR l : braces l -> dropCR l = l.
Proof. intros [m ->]. unfold dropCR. by rewrite app_comm_cons, last_snoc. Qed.

Lemma rev_string_spec s acc : String.list_ascii_of_string (rev_string s acc) = rev (chars s) ++ chars acc.
Proof.
  revert acc. unfold chars. induction s as [|c s IH]; intros acc; [done|]. cbn [rev_string String.list_ascii_of_string rev].
  rewrite IH. cbn [String.list_ascii_of_string]. by rewrite <- app_assoc.
Qed.

Lemma rev_string_rev s : rev_string (rev_string s "") "" = s.
Proof.
  rewrite <- (String.string_of_list_ascii_of_string (rev_string _ _)), rev_string_spec. unfold chars.
  rewrite rev_string_spec. simpl. rewrite !app_nil_r, rev_involutive. apply String.string_of_list_ascii_of_string.
Qed.

Lemma trim_left_keep n ws s : find (HasPrefix s) ws = None -> trim_left n ws s = s.
Proof. intros H. destruct n; simpl; by rewrite ?H. Qed.

Lemma TrimSpace_keep s t c : s = String "{" t -> rev_string s "" = String "}" c -> TrimSpace s = s.
Proof.
  intros Hs Hr. unfold TrimSpace. rewrite (trim_left_keep _ spaces s) by by rewrite Hs.
  rewrite Hr, trim_left_keep, <- Hr by done. apply rev_string_rev.
Qed.

Lemma rev_string_text l : rev_string (to_string l) "" = to_string (rev l).
Proof.
  rewrite <- (String.string_of_list_ascii_of_string (rev_string _ _)), rev_string_spec. unfold chars.
  by rewrite String.list_ascii_of_string_of_list_ascii, app_nil_r.
Qed.

Lemma trimmed_braces l : braces l -> trimmed l = l.
Proof.
  intros [m ->]. unfold trimmed, chars.
  rewrite (TrimSpace_keep _ (to_string (m ++ ["}"%char])) (to_string (rev m ++ ["{"%char]))).
  - apply String.list_ascii_of_string_of_list_ascii.
  - done.
  - rewrite rev_string_text. simpl rev. by rewrite rev_app_distr.
Qed.

Lemma blank_braces l : braces l -> blank l = false.
Proof. intros H. unfold blank. rewrite trimmed_braces by done. by destruct H as [m ->]. Qed.

(** ** What the client reads of the encoder's lines *)

(** The strings of a chat line are valid UTF-8 and its count fits an int. *)
Definition line_ok {V} (l : OpenAICompat.ndjson (V := V)) : Prop :=
  match l with
  | OpenAICompat.LChunk m r _ n => utf8 (chars m) /\ utf8 (chars r) /\ in_int64 n = true
  | OpenAICompat.LError m => utf8 (chars m)
  | OpenAICompat.LEmbed _ => False
  end.

(** The chunk of such a line. *)
Definition chunk_of {V} (l : OpenAICompat.ndjson (V := V)) : Ollama.chunk :=
  match l with
  | OpenAICompat.LChunk _ r d n => Ollama.MkChunk r d n ""
  | OpenAICompat.LError m => Ollama.MkChunk "" false 0 m
  | OpenAICompat.LEmbed _ => zero_chunk
  end.

Lemma utf8_app s t : utf8 s -> utf8 t -> utf8 (s ++ t).
Proof. intros Hs Ht. induction Hs as [|r s Hr Hl _ IH]; [done|]. rewrite <- app_assoc. by constructor. Qed.

Section back.
Context {V : Type} (embed_json : OpenAICompat.EmbedResponse (V := V) -> json).
Context (parse : text -> option json) (bad : text -> error).
Hypothesis parse_encode : forall j, proper j -> utf8_json j -> parse (encode j) = Some j.

Abbreviation line_json := (line_json embed_json).
Abbreviation decode_chunk := (decode_chunk parse bad).

Lemma line_proper l : line_ok l -> proper (line_json l) /\ utf8_json (line_json l).
Proof.
  destruct l as [m r d n|m|]; [|repeat split; first [done|by apply ascii_utf8]|done]. intros (Hm & Hr & _). unfold line_json, app.
  pose proof (to_json_fit n) as [Hp Hu]. change (to_json n) with (number n) in Hp, Hu.
  destruct (n =? 0); repeat split; first [done|by apply ascii_utf8].
Qed.

Lemma to_string_chars s : to_string (chars s) = s.
Proof. apply String.string_of_list_ascii_of_string. Qed.

Lemma set_number n : in_int64 n = true -> set_int 0 (number n) = Some n.
Proof.
  intros Hn. unfold set_int. destruct (number_digits n) as (d & ds & E & _). rewrite E.
  rewrite <- E, to_Z_number. simpl. by rewrite Hn.
Qed.

Lemma set_response r d n e s :
  set_member (Ollama.MkChunk r d n e) (chars "response", str s) = Some (Ollama.MkChunk s d n e).
Proof. rewrite <- (to_string_chars s) at 2. reflexivity. Qed.

Lemma set_eval_count r d e n : in_int64 n = true ->
  set_member (Ollama.MkChunk r d 0 e) (chars "eval_count", number n) = Some (Ollama.MkChunk r d n e).
Proof.
  intros Hn. change (set_member _ _) with ((fun n => Ollama.MkChunk r d n e) <$> set_int 0 (number n)).
  by rewrite set_number.
Qed.

Lemma set_error r d n e s :
  set_member (Ollama.MkChunk r d n e) (chars "error", str s) = Some (Ollama.MkChunk r d n s).
Proof. rewrite <- (to_string_chars s) at 2. reflexivity. Qed.

Lemma decode_line l : line_ok l -> decode_value (line_json l) = Some (chunk_of l).
Proof.
  destruct l as [m r d n|m|]; [intros (_ & _ & Hn)|intros _|done]; unfold line_json, decode_value, zero_chunk.
  - cbn [app set_members]. change (set_member (Ollama.MkChunk "" false 0 "") (chars "model", str m)) with
      (Some (Ollama.MkChunk "" false 0 "")). cbn [mbind option_bind]. rewrite set_response. cbn [mbind option_bind].
    change (set_member (Ollama.MkChunk r false 0 "") (chars "done", JBool d)) with (Some (Ollama.MkChunk r d 0 "")).
    cbn [mbind option_bind]. destruct (Z.eqb_spec n 0) as [->|_]; [done|]. cbn [set_members].
    by rewrite set_eval_count.
  - cbn [set_members]. by rewrite set_error.
Qed.

Lemma encoded_line l : line_ok l -> let t := encode (line_json l) in
  one_line t /\ braces t /\ decode_chunk t = Ok (chunk_of l).
Proof.
  intros Hl t. destruct (line_proper l Hl) as [Hp Hu]. split; [by apply encode_one_line|].
  assert (braces t) as Hb by (destruct l; [apply encode_braces|apply encode_braces|done]). split; [done|].
  unfold Ndjson.decode_chunk. rewrite trimmed_braces by done. unfold t. rewrite parse_encode by done. cbn [mbind option_bind]. by rewrite decode_line.
Qed.

(** The lines an Ollama client gets of a body: those before the first that fills
    its buffer. *)
Definition fits (l : OpenAICompat.ndjson (V := V)) : bool := size (encode (line_json l)) <? maxTokenSize.

Fixpoint readable (ls : list (OpenAICompat.ndjson (V := V))) : list (OpenAICompat.ndjson (V := V)) :=
  match ls with l :: ls' => if fits l then l :: readable ls' else [] | [] => [] end.

Lemma Scan_body ls : Forall line_ok ls ->
  Scan (ls ≫= Encode embed_json) [] 0 = (map (fun l => encode (line_json l)) (readable ls), negb (forallb fits ls)).
Proof.
  intros Hls. assert (ls ≫= Encode embed_json = map (fun l => encode (line_json l)) ls ≫= fun l => l ++ [LF]) as ->.
  { clear Hls. induction ls as [|l ls IH]; [done|]. cbn [mbind list_bind map]. by f_equal. }
  rewrite Scan_lines.
  - clear Hls. induction ls as [|l ls IH]; [done|]. cbn [map fitting readable forallb]. fold (fits l).
    destruct (fits l); [|done]. rewrite IH. done.
  - apply Forall_map. eapply Forall_impl; [exact Hls|]. intros l Hl. destruct (encoded_line l Hl) as (H1 & H2 & _).
    split; [done|]. by apply braces_dropCR.
Qed.

Abbreviation delta_line model := (fun d => OpenAICompat.LChunk (V := V) model d false 0).
Abbreviation texts := (map (fun l => encode (line_json l))).
Abbreviation is_delta := (fun d : string => d <> "" /\ utf8 (chars d)).

(** Either every line fits, or only deltas are readable. *)
Lemma readable_deltas model ds l :
  let ls := map (delta_line model) ds ++ [l] in
  if forallb fits ls then readable ls = ls else exists k, readable ls = map (delta_line model) (take k ds).
Proof.
  cbn zeta. induction ds as [|d ds IH]; cbn [map app forallb readable].
  - destruct (fits l); [done|]. by exists 0%nat.
  - destruct (fits (delta_line model d)); [|by exists 0%nat]. cbn [andb]. destruct (forallb fits _); [by rewrite IH|].
    destruct IH as [k ->]. by exists (S k).
Qed.

Lemma read_deltas model ds rest e sb n : utf8 (chars model) -> Forall is_delta ds ->
  (Ollama.read_lines blank decode_chunk (texts (map (delta_line model) ds) ++ rest) e sb n).1 =
  (Ollama.read_lines blank decode_chunk rest e (sb +:+ OpenAICompat.concat_strings ds) (n + Z.of_nat (length ds))).1.
Proof.
  intros Hm Hds. revert sb n. induction Hds as [|d ds [Hne Hu] _ IH]; intros sb n.
  - cbn. by rewrite OpenAICompat.string_app_nil, Z.add_0_r.
  - cbn [map app Ollama.read_lines]. destruct (encoded_line (delta_line model d)) as (_ & Hb & ->); [done|].
    rewrite blank_braces by done. cbn [chunk_of Ollama.Error Ollama.Response Ollama.Done]. simpl negb. cbn match.
    rewrite (proj2 (String.eqb_neq _ _) Hne). cbn [negb]. specialize (IH (sb +:+ d) (n + 1)).
    destruct (Ollama.read_lines _ _ (_ ++ rest) _ _ _) as [a cs]. cbn [fst] in IH |- *. rewrite IH.
    cbn [OpenAICompat.concat_strings foldr length]. rewrite OpenAICompat.string_app_assoc. do 2 f_equal. lia.
Qed.

(** What [Generate] makes of a stream of deltas and one last line. *)
Lemma Generate_stream model ds l : utf8 (chars model) -> Forall is_delta ds -> line_ok l ->
  let ls := map (delta_line model) ds ++ [l] in
  let answer := (Generate parse bad (Ok (200, ls ≫= Encode embed_json, OpenAICompat.Ending None None))).1 in
  if forallb fits ls
  then answer = (Ollama.read_lines blank decode_chunk [encode (line_json l)] (OpenAICompat.Ending None None)
                   (OpenAICompat.concat_strings ds) (Z.of_nat (length ds))).1
  else exists n, answer = Err (n, ErrTooLong).
Proof.
  intros Hm Hds Hl ls. pose proof (readable_deltas model ds l) as Hr. fold ls in Hr. cbn zeta in Hr |- *.
  unfold Generate, Ollama.Generate. rewrite Scan_body.
  2:{ apply Forall_app. split; [|by constructor]. apply Forall_map. by eapply Forall_impl; [exact Hds|intros d [_ Hd]]. }
  destruct (forallb fits ls).
  - rewrite Hr. unfold ls. rewrite map_app. cbn [negb]. change (200 =? 200) with true. cbn [negb]. rewrite read_deltas by done.
    by rewrite Z.add_0_l.
  - destruct Hr as [k ->]. cbn [negb]. rewrite <- (app_nil_r (texts _)). change (200 =? 200) with true. cbn [negb].
    rewrite read_deltas by (done || by apply Forall_take). by eexists.
Qed.

(** *** What the translation writes *)

Section written.
Context (decode : string -> result error OpenAICompat.sseChunk).
Hypothesis decode_utf8 : forall data ch, decode data = Ok ch -> Forall (fun c => utf8 (chars c)) (OpenAICompat.Choices ch).

Abbreviation relays p := (Forall (fun c => is_delta c.1) (OpenAICompat.calls p)).

Lemma flush_deltas p : relays p -> relays (OpenAICompat.flush decode p).2.
Proof.
  intros Hp. unfold OpenAICompat.flush. destruct (OpenAICompat.dataLines p); [done|].
  destruct (String.eqb _ "[DONE]"); [done|]. destruct (decode _) as [ch|] eqn:E; [|done].
  destruct (OpenAICompat.Error ch); [done|]. apply decode_utf8 in E. cbn [snd]. unfold OpenAICompat.take_chunk.
  destruct (OpenAICompat.Choices ch) as [|c cs]; [by destruct (OpenAICompat.Usage ch)|].
  apply Forall_cons in E as [Hc _].
  destruct (String.eqb_spec c ""); [by destruct (OpenAICompat.Usage ch)|].
  destruct (OpenAICompat.Usage ch); cbn; (apply Forall_app; split; [exact Hp|by repeat constructor]).
Qed.

Lemma parse_deltas ls e p : relays p -> relays (OpenAICompat.parse_lines decode ls e p).2.
Proof.
  revert p. induction ls as [|[l ctx] ls IH]; intros p Hp; cbn [OpenAICompat.parse_lines].
  - unfold OpenAICompat.parse_end. destruct (OpenAICompat.scan_err e); [done|]. apply flush_deltas in Hp.
    by destruct (OpenAICompat.flush decode p) as [[[]|m] p'].
  - destruct ctx; [done|]. destruct (String.eqb _ "").
    + apply flush_deltas in Hp. destruct (OpenAICompat.flush decode p) as [[[]|m] p']; auto.
    + destruct (OpenAICompat.cutPrefix _ _); by apply IH.
Qed.

(** Deltas, then a last line; all of it under the status 200. *)
Lemma written_stream upstream model messages options ls e :
  upstream (OpenAICompat.chat_body model messages options) = Ok (ls, e) ->
  let ws := OpenAICompat.serveChatStreaming (V := V) decode true upstream model messages options in
  let a := (OpenAICompat.parseSSEStreamChunks decode ls e).1 in
  OpenAICompat.committed ws = 200 /\ exists ds, Forall is_delta ds /\
    (forall text n, a = Ok (text, n) -> text = OpenAICompat.concat_strings ds) /\
    OpenAICompat.lines_of ws = map (delta_line model) ds ++
      [match a with Ok (_, n) => OpenAICompat.LChunk model "" true n
                  | Err (_, er) => OpenAICompat.LError ("openai: " +:+ Proxy.msg er) end].
Proof.
  intros Hu. cbn zeta. unfold OpenAICompat.serveChatStreaming. rewrite Hu. cbn [negb].
  pose proof (parse_deltas ls e OpenAICompat.new_parser) as Hd. specialize (Hd ltac:(constructor)).
  unfold OpenAICompat.parseSSEStreamChunks. destruct (OpenAICompat.parse_lines decode ls e _) as [a p] eqn:E.
  split; [done|]. exists (map fst (OpenAICompat.calls p)). split; [by apply Forall_map|]. split.
  - cbn [fst]. intros text n ->. destruct (OpenAICompat.parse_lines_ok _ _ _ _ _ _ _ E) as (k & ds & us & _ & _ & Ht & ->).
    unfold OpenAICompat.finished, OpenAICompat.after in Ht. simpl in Ht. injection Ht as -> _.
    unfold OpenAICompat.after. cbn. by rewrite OpenAICompat.map_numbered.
  - fold (OpenAICompat.relayed (V := V) model (OpenAICompat.calls p)). cbn [fst app].
    change (OpenAICompat.lines_of (OpenAICompat.WHeader ?a ?b :: ?l)) with (OpenAICompat.lines_of l).
    change (OpenAICompat.lines_of (OpenAICompat.WStatus ?b :: ?l)) with (OpenAICompat.lines_of l).
    change (OpenAICompat.lines_of (OpenAICompat.WFlush :: ?l)) with (OpenAICompat.lines_of l).
    rewrite OpenAICompat.relayed_lines, map_map. done.
Qed.

(** ** Properties *)

(** C32: the translation speaks Ollama's protocol: the bytes the broker streams for
    an OpenAI chat, read by Ollama's client, give the text of the upstream's stream
    (and its count, when there is one), and the upstream's error as an error, if
    every line is shorter than the client's buffer of 1 MiB; if one is not, though
    the broker relayed it, the client fails, and never takes a part for the whole. *)
Theorem translation_reads_back upstream model messages options ls e :
  upstream (OpenAICompat.chat_body model messages options) = Ok (ls, e) -> utf8 (chars model) ->
  let ws := OpenAICompat.serveChatStreaming (V := V) decode true upstream model messages options in
  let short := forallb fits (OpenAICompat.lines_of ws) in
  let read := (Generate parse bad
    (Ok (OpenAICompat.committed ws, body_text embed_json ws, OpenAICompat.Ending None None))).1 in
  match (OpenAICompat.parseSSEStreamChunks decode ls e).1 with
  | Ok (text, n) => in_int64 n = true ->
      if short then exists count, read = Ok (text, count) /\ (0 < n -> count = n)
      else exists count, read = Err (count, ErrTooLong)
  | Err (_, er) => utf8 (chars (Proxy.msg er)) ->
      exists count, read = Err (count, if short then OpenAICompat.Errorf ("ollama: openai: " +:+ Proxy.msg er) else ErrTooLong)
  end.
Proof.
  intros Hu Hm ws short read. destruct (written_stream upstream model messages options ls e Hu) as (Hc & ds & Hds & Ht & Hl).
  fold ws in Hc, Hl. subst short read. unfold body_text. rewrite Hc, Hl. clear Hl Hc ws.
  destruct (OpenAICompat.parseSSEStreamChunks decode ls e).1 as [[text n]|[n er]]; intros Hok.
  - specialize (Ht _ _ eq_refl) as ->.
    assert (line_ok (OpenAICompat.LChunk (V := V) model "" true n)) as Hl by (split; [done|]; split; [constructor|done]).
    pose proof (Generate_stream model ds _ Hm Hds Hl) as H. cbn zeta in H. destruct (forallb fits _); [|exact H].
    rewrite H. destruct (encoded_line _ Hl) as (_ & Hb & Hd). cbn [Ollama.read_lines].
    rewrite Hd, blank_braces by done. eexists. split; [reflexivity|]. intros H0. cbn. by rewrite (proj2 (Z.ltb_lt _ _) H0).
  - assert (line_ok (OpenAICompat.LError (V := V) ("openai: " +:+ Proxy.msg er))) as Hl.
    { change (utf8 (chars "openai: " ++ chars (Proxy.msg er))). apply utf8_app; [by apply ascii_utf8|done]. }
    pose proof (Generate_stream model ds _ Hm Hds Hl) as H. cbn zeta in H. destruct (forallb fits _); [|exact H].
    rewrite H. destruct (encoded_line _ Hl) as (_ & Hb & Hd). cbn [Ollama.read_lines].
    rewrite Hd, blank_braces by done. by eexists.
Qed.

End written.
End back.

(** ** Witnesses *)

(** A decoder of ASCII chunks: the text after the first byte is the delta. *)
Definition demo_decode (data : string) : result error OpenAICompat.sseChunk :=
  if forallb (fun c => ord c <? 128) (chars (drop_bytes 1 data))
  then Ok (OpenAICompat.SSEChunk [drop_bytes 1 data] None None) else Err (OpenAICompat.Errorf "not ASCII").

Definition demo_upstream (_ : OpenAICompat.object) : result error (list (string * option error) * OpenAICompat.ending) :=
  Ok (OpenAICompat.demo_lines, OpenAICompat.Ending None None).

Abbreviation demo_response :=
  (OpenAICompat.serveChatStreaming (V := nat) demo_decode true demo_upstream "qwen" [] ∅).

Lemma translation_reads_back_witness :
  exists count, (Generate Json_reader (fun s => OpenAICompat.Errorf (to_string s))
    (Ok (OpenAICompat.committed demo_response, body_text (fun _ => JNull) demo_response, OpenAICompat.Ending None None))).1
      = Ok ("Hello", count) /\ (0 < 2 -> count = 2).
Proof.
  assert (forall data ch, demo_decode data = Ok ch -> Forall (fun c => utf8 (chars c)) (OpenAICompat.Choices ch)) as Hd.
  { intros data ch. unfold demo_decode. destruct (forallb _ _) eqn:E; [|done]. intros [= <-]. repeat constructor.
    by apply ascii_utf8. }
  pose proof (ascii_utf8 (chars "qwen") eq_refl) as Hm.
  assert (forallb (fits (fun _ => JNull)) (OpenAICompat.lines_of demo_response) = true) as Hf by (vm_compute; reflexivity).
  assert ((OpenAICompat.parseSSEStreamChunks demo_decode OpenAICompat.demo_lines (OpenAICompat.Ending None None)).1
    = Ok ("Hello", 2)) as Hp by (vm_compute; reflexivity).
  pose proof (translation_reads_back (V := nat) (fun _ => JNull) Json_reader (fun s => OpenAICompat.Errorf (to_string s))
    Json_reader_encode demo_decode Hd demo_upstream "qwen" [] ∅ OpenAICompat.demo_lines (OpenAICompat.Ending None None)
    eq_refl Hm) as H.
  cbv zeta in H. rewrite Hp, Hf in H. exact (H eq_refl).
Defined.

End Ndjson.
