(* ===== verification/Clients.v ===== *)
(** * The upstreams' HTTP clients (src/internal/ollama/client.go,
      src/internal/openaicompat/client.go and handler.go, and the bridges of
      src/internal/backend/{ollama,openai}_backend.go)

    The requests the clients make and what they do with the answers.  The world
    is a function from a request to an error of the transport or a status and a
    body; a body is read by decoders that are parameters, or is a stream of
    lines.  A request's URL is the client's base and the path it is joined with.

    Proved: Ollama's Unload over HTTP is the abstract one of [Broker], one request
    per loaded model whatever fails; a key is sent with every request or never;
    and the job worker's path (client.go) and the proxied one (handler.go), each
    with its own construction of the request, ask the OpenAI upstream the same and
    get the same text. *)

From S2P Require Import Prelude GoLib Json Proxy OpenAICompat Ollama Config Router Broker.
#[local] Set Warnings "-clear-no-such-hyp,-level-tolerance".
Local Open Scope Z_scope.

Module Clients.
Import GoLib.
Abbreviation error := Proxy.error.

Record http_request := Request {
  verb : string; base : option Config.URL; elems : string; hdrs : list (string * string);
  payload : option OpenAICompat.object;
}.

(** ** ollama/client.go *)

Section ollama.
Context (url : option Config.URL) (Do : http_request -> result error (Z * string)).
(** The names in the answer of /api/ps. *)
Context (decode_ps : string -> result error (list string)).

Definition ps_request : http_request := Request "GET" url "/api/ps" [] None.

Definition LoadedModels : result error (list string) :=
  match Do ps_request with
  | Err e => Err e
  | Ok (status, raw) =>
      if negb (status =? 200) then Err (OpenAICompat.Errorf ("ollama /api/ps: status " +:+ Itoa status))
      else decode_ps raw
  end.

Definition unload_request (model : string) : http_request :=
  Request "POST" url "/api/generate" [("Content-Type", "application/json")]
    (Some {[ "model" := OpenAICompat.str model; "keep_alive" := Json.JNum false 0 [] ]}).

Definition unloadOne (model : string) : option error :=
  match Do (unload_request model) with
  | Err e => Some e
  | Ok (status, _) =>
      if negb (status =? 200) then Some (OpenAICompat.Errorf ("unload " +:+ model +:+ ": status " +:+ Itoa status)) else None
  end.

(** The loop of [Unload], with the requests it makes. *)
Fixpoint unload_names (names : list string) (firstErr : option error) : option error * list http_request :=
  match names with
  | [] => (firstErr, [])
  | n :: names' =>
      let firstErr := match unloadOne n, firstErr with Some e, None => Some e | _, _ => firstErr end in
      let '(r, qs) := unload_names names' firstErr in (r, unload_request n :: qs)
  end.

Definition Unload : option error * list http_request :=
  match LoadedModels with
  | Err e => (Some e, [ps_request])
  | Ok names => let '(r, qs) := unload_names names None in (r, ps_request :: qs)
  end.

(** [ollamaBackend.Reachable] *)
Definition ollama_Reachable : option error :=
  match LoadedModels with Err e => Some e | Ok _ => None end.

End ollama.

Section ollama_generate.
Context (url : option Config.URL) {L : Type} (Do : http_request -> result error (Z * list L * OpenAICompat.ending)).
Context (blank : L -> bool) (decode : L -> result error Ollama.chunk).

Definition generate_request (model prompt : string) (options : OpenAICompat.object) : http_request :=
  Request "POST" url "/api/generate" [("Content-Type", "application/json")]
    (Some (Ollama.generate_body model prompt options)).

(** [ollamaBackend.Generate]: the text alone. *)
Definition ollama_Generate (model prompt : string) (options : OpenAICompat.object) : result error string :=
  match (Ollama.Generate blank decode (Do (generate_request model prompt options))).1 with
  | Ok (text, _) => Ok text
  | Err (_, e) => Err e
  end.

End ollama_generate.

(** ** openaicompat: the requests *)

Section openai.
Context (url : option Config.URL) (apiKey : string).

(** The headers of a request; an empty key sends none. *)
Definition auth_headers : list (string * string) :=
  if negb (String.eqb apiKey "") then [("Authorization", "Bearer " +:+ apiKey)] else [].

Definition post_request (path : string) (body : OpenAICompat.object) : http_request :=
  Request "POST" url path (("Content-Type", "application/json") :: auth_headers) (Some body).

Definition status_error (status : Z) : error := OpenAICompat.Errorf ("openai upstream: status " +:+ Itoa status).

Section stream.
Context (Do : http_request -> result error (Z * list (string * option error) * OpenAICompat.ending)).

(** [openChatStream], as a call for an outbound body. *)
Definition openChatStream (body : OpenAICompat.object)
  : result error (list (string * option error) * OpenAICompat.ending) :=
  match Do (post_request "/v1/chat/completions" body) with
  | Err e => Err e
  | Ok (status, ls, e) => if negb (status =? 200) then Err (status_error status) else Ok (ls, e)
  end.

(** client.go's [Client.Generate]: its body, the caller's options stored one by one
    over the fields it controls; its request; the check of the status; the text, the
    count and the calls of [onTokens]; and the requests it sends. *)
Definition string_map (m : gmap string string) : Json.json :=
  Json.JObj (map (fun kv => (Json.chars kv.1, OpenAICompat.str kv.2)) (map_to_list m)).

Definition generate_fields (model prompt : string) : OpenAICompat.object :=
  {[ "model" := OpenAICompat.str model;
     "messages" := Json.JArr [string_map {[ "role" := "user"; "content" := prompt ]}];
     "stream" := Json.JBool true;
     "stream_options" := Json.JObj [(Json.chars "include_usage", Json.JBool true)] ]}.

Definition set_option (k : string) (v : Json.json) (body : OpenAICompat.object) : OpenAICompat.object :=
  if String.eqb k "model" || String.eqb k "messages" || String.eqb k "stream" || String.eqb k "stream_options"
  then body else <[k := v]> body.

Definition generate_body (model prompt : string) (options : OpenAICompat.object) : OpenAICompat.object :=
  map_fold set_option (generate_fields model prompt) options.

Definition openai_generate_request (model prompt : string) (options : OpenAICompat.object) : http_request :=
  Request "POST" url "/v1/chat/completions"
    ([("Content-Type", "application/json")]
     ++ (if negb (String.eqb apiKey "") then [("Authorization", "Bearer " +:+ apiKey)] else []))
    (Some (generate_body model prompt options)).

Definition openai_Generate (decode : string -> result error OpenAICompat.sseChunk) (model prompt : string)
    (options : OpenAICompat.object) : OpenAICompat.answer * list Z * list http_request :=
  let httpReq := openai_generate_request model prompt options in
  (match Do httpReq with
   | Err e => (Err (0, e), [])
   | Ok (status, ls, e) =>
       if negb (status =? 200) then (Err (0, OpenAICompat.Errorf ("openai upstream: status " +:+ Itoa status)), [])
       else OpenAICompat.parseSSEStream decode ls e
   end, [httpReq]).

(** [chatCompletion] *)
Definition chatCompletion (decode : string -> result error OpenAICompat.sseChunk) (model : string)
    (messages : list OpenAICompat.object) (options : OpenAICompat.object) : OpenAICompat.answer :=
  match openChatStream (OpenAICompat.chat_body model messages options) with
  | Err e => Err (0, e)
  | Ok (ls, e) => (OpenAICompat.parseSSEStream decode ls e).1
  end.

End stream.

Section embed.
Context {V : Type} (Do : http_request -> result error (Z * string)).
Context (decode : string -> result error (string * list (V * Z))).

Definition embed_body (req : OpenAICompat.EmbedRequest) : OpenAICompat.object :=
  {[ "model" := OpenAICompat.str (OpenAICompat.er_model req);
     "input" := Json.JArr (map OpenAICompat.str (OpenAICompat.Input req)) ]}.

(** The call of [Client.Embed], before the vectors are placed. *)
Definition embed_call (req : OpenAICompat.EmbedRequest) : result error (string * list (V * Z)) :=
  match Do (post_request "/v1/embeddings" (embed_body req)) with
  | Err e => Err e
  | Ok (status, raw) =>
      if negb (status =? 200) then Err (status_error status)
      else match decode raw with
           | Err e => Err (OpenAICompat.wrap "decode embeddings response: " e)
           | Ok a => Ok a
           end
  end.

End embed.

(** [openaiBackend.Reachable] *)
Definition models_request : http_request := Request "GET" url "/v1/models" auth_headers None.

Definition openai_Reachable (Do : http_request -> result error (Z * string)) : option error :=
  match Do models_request with
  | Err e => Some e
  | Ok (status, _) => if (status <? 200) || (300 <=? status) then Some (status_error status) else None
  end.

(** [openaiBackend.Generate] *)
Definition openai_backend_Generate Do decode (model prompt : string) (options : OpenAICompat.object) : result error string :=
  match (openai_Generate Do decode model prompt options).1.1 with Ok (text, _) => Ok text | Err (_, e) => Err e end.

End openai.

(** ** Unloading over HTTP *)

(** What the commands of [Broker] are over HTTP. *)
Definition command_request (url : option Config.URL) (c : Broker.command) : option http_request :=
  match c with Broker.KeepAliveZero m => Some (unload_request url m) | Broker.Systemctl _ _ => None end.

Definition run_http (url : option Config.URL) (Do : http_request -> result error (Z * string)) (c : Broker.command)
  : option string :=
  match c with
  | Broker.KeepAliveZero m => Proxy.msg <$> unloadOne url Do m
  | Broker.Systemctl _ _ => None
  end.

Lemma unload_names_refines url Do names e :
  let '(r, qs) := unload_names url Do names e in
  let '(r', cs) := Broker.unload_each (run_http url Do) names (Proxy.msg <$> e) in
  Proxy.msg <$> r = r' /\ qs = omap (command_request url) cs.
Proof.
  revert e. induction names as [|n names IH]; intros e; simpl; [done|].
  specialize (IH (match unloadOne url Do n, e with Some er, None => Some er | _, _ => e end)).
  destruct (unload_names _ _ _ _) as [r qs].
  assert (Proxy.msg <$> (match unloadOne url Do n, e with Some er, None => Some er | _, _ => e end) =
    match Proxy.msg <$> e with None => Proxy.msg <$> unloadOne url Do n | Some _ => Proxy.msg <$> e end) as E
    by (by destruct (unloadOne url Do n), e).
  rewrite E in IH. destruct (Broker.unload_each _ _ _) as [r' cs]. destruct IH as [-> ->]. done.
Qed.

(** ** Properties *)

(** Unloading an Ollama over HTTP is the broker's abstract unload: the
    loaded models are asked for, then each of them gets one keep_alive-zero
    request, in order and whatever fails, and the error is the first one. *)
Theorem http_unload_refines url Do decode_ps k :
  let '(err, qs) := Unload url Do decode_ps in
  let loaded := match LoadedModels url Do decode_ps with Ok ns => Ok ns | Err e => Err (Proxy.msg e) end in
  let '(err', cs) := Broker.Unload (run_http url Do) loaded (Broker.Instance k (Broker.ollamaBackend url)) in
  Proxy.msg <$> err = err' /\ qs = ps_request url :: omap (command_request url) cs /\
  forall names, LoadedModels url Do decode_ps = Ok names ->
    qs = ps_request url :: map (unload_request url) names /\ err = head (omap (unloadOne url Do) names).
Proof.
  unfold Unload, Broker.Unload. destruct (LoadedModels url Do decode_ps) as [names|e] eqn:E; simpl; [|done].
  pose proof (unload_names_refines url Do names None) as H. simpl in H.
  assert (forall ns fe, unload_names url Do ns fe =
    (match fe with Some _ => fe | None => head (omap (unloadOne url Do) ns) end, map (unload_request url) ns)) as Hspec.
  { induction ns as [|n ns IH]; intros fe; simpl; [by destruct fe|]. rewrite IH.
    destruct fe; [by destruct (unloadOne url Do n)|]. by destruct (unloadOne url Do n). }
  rewrite Hspec. rewrite Hspec in H. destruct (Broker.unload_each _ _ _) as [r' cs] eqn:Ec. destruct H as [Hr Hqs].
  cbn beta iota. split; [exact Hr|]. split; [by rewrite Hqs|]. by intros ns [= <-].
Qed.

Lemma concat_relayed {V} model ds n :
  OpenAICompat.concat_strings (map OpenAICompat.response_of
    (map (fun d => OpenAICompat.LChunk (V := V) model d false 0) ds ++ [OpenAICompat.LChunk model "" true n])) =
  OpenAICompat.concat_strings ds.
Proof. induction ds as [|d ds IH]; [done|]. simpl. by rewrite IH. Qed.

(** The loop over the options, in any order, is the overlay of handler.go. *)
Lemma generate_body_lookup model prompt options k :
  generate_body model prompt options !! k =
    if OpenAICompat.controlled k then generate_fields model prompt !! k
    else match options !! k with Some v => Some v | None => generate_fields model prompt !! k end.
Proof.
  unfold generate_body. revert k.
  apply (map_fold_weak_ind (fun body options => forall k, body !! k =
    if OpenAICompat.controlled k then generate_fields model prompt !! k
    else match options !! k with Some v => Some v | None => generate_fields model prompt !! k end)).
  - intros k. rewrite lookup_empty. by destruct (OpenAICompat.controlled k).
  - intros j v options' body Hj IH k. unfold set_option.
    fold (OpenAICompat.controlled j). destruct (decide (j = k)) as [<-|Hk].
    + rewrite lookup_insert_eq. destruct (OpenAICompat.controlled j) eqn:Ej; [by rewrite IH, Ej|apply lookup_insert_eq].
    + rewrite lookup_insert_ne by done. destruct (OpenAICompat.controlled j); [apply IH|].
      rewrite lookup_insert_ne by done. apply IH.
Qed.

Lemma generate_fields_base model prompt :
  generate_fields model prompt = OpenAICompat.base_body model [OpenAICompat.user_message prompt].
Proof. reflexivity. Qed.

Lemma generate_body_chat model prompt options :
  generate_body model prompt options = OpenAICompat.chat_body model [OpenAICompat.user_message prompt] options.
Proof.
  apply map_eq. intros k. rewrite generate_body_lookup, generate_fields_base. unfold OpenAICompat.chat_body.
  rewrite lookup_union, map_lookup_filter. destruct (OpenAICompat.controlled k) eqn:Ek.
  - destruct (options !! k) as [v|]; simpl; [|by rewrite (left_id None union)].
    rewrite option_guard_False by (simpl; congruence). by rewrite (left_id None union).
  - destruct (options !! k) as [v|]; simpl; [|by rewrite (left_id None union)].
    rewrite option_guard_True by done. by destruct (OpenAICompat.base_body _ _ !! k).
Qed.

Lemma openai_Generate_stream url key Do decode model prompt options :
  let body := OpenAICompat.chat_body model [OpenAICompat.user_message prompt] options in
  openai_Generate url key Do decode model prompt options =
    (match openChatStream url key Do body with
     | Err e => (Err (0, e), [])
     | Ok (ls, e) => OpenAICompat.parseSSEStream decode ls e
     end, [post_request url key "/v1/chat/completions" body]).
Proof.
  cbn zeta. unfold openai_Generate, openChatStream. set (r := openai_generate_request _ _ _ _ _).
  assert (r = post_request url key "/v1/chat/completions"
    (OpenAICompat.chat_body model [OpenAICompat.user_message prompt] options)) as ->.
  { unfold r, openai_generate_request. by rewrite generate_body_chat. }
  destruct (Do _) as [[[status ls] e]|e]; [|done]. by destruct (negb (status =? 200)).
Qed.

Section reply.
Context {V : Type} (call : OpenAICompat.object -> result error (list (string * option error) * OpenAICompat.ending)) (decode : string -> result error OpenAICompat.sseChunk).
Context (model prompt : string) (options : OpenAICompat.object).

Abbreviation reply stream := (OpenAICompat.serveChat (V := V) decode true call
  (Ok (OpenAICompat.MkChat model prompt [] "" (Some stream) options))).

(** How a reply compares with the answer of the stream of its upstream call. *)
Lemma reply_agrees :
  match (match call (OpenAICompat.chat_body model [OpenAICompat.user_message prompt] options) with
         | Err e => Err (0, e)
         | Ok (ls, e) => (OpenAICompat.parseSSEStream decode ls e).1
         end) with
  | Ok (text, n) =>
      OpenAICompat.lines_of (reply false) = [OpenAICompat.LChunk model text true n] /\
      OpenAICompat.concat_strings (map OpenAICompat.response_of (OpenAICompat.lines_of (reply true))) = text /\
      last (OpenAICompat.lines_of (reply true)) = Some (OpenAICompat.LChunk model "" true n)
  | Err (n, e) =>
      reply false = OpenAICompat.writeUpstreamErrorOrFallback e /\
      forall m c, last (OpenAICompat.lines_of (reply true)) <> Some (OpenAICompat.LChunk m "" true c)
  end.
Proof.
  assert (forall st, reply st =
    if st then OpenAICompat.serveChatStreaming decode true call model [OpenAICompat.user_message prompt] options
    else OpenAICompat.serveChatBuffered decode call model [OpenAICompat.user_message prompt] options)
    as Hreply by done.
  rewrite !Hreply. cbn match. clear Hreply.
  set (body := OpenAICompat.chat_body model [OpenAICompat.user_message prompt] options).
  destruct (call body) as [[ls e]|er] eqn:Hc.
  - pose proof (OpenAICompat.streamed_ok (V := V) decode call model [OpenAICompat.user_message prompt] options ls e) as Hs.
    unfold OpenAICompat.serveChatBuffered. fold body. rewrite Hc.
    unfold OpenAICompat.parseSSEStream in *. destruct (OpenAICompat.parseSSEStreamChunks decode ls e) as [a cs] eqn:Ep.
    cbn [fst]. destruct a as [[text n]|[n er]].
    + destruct (Hs text n Hc eq_refl) as (k & ds & us & _ & _ & -> & ->). split; [done|].
      split; [apply concat_relayed|]. by rewrite last_snoc.
    + split; [done|]. intros m c. unfold OpenAICompat.serveChatStreaming. fold body. rewrite Hc, Ep. simpl.
      fold (OpenAICompat.relayed (V := V) model cs). cbn [app].
      change (OpenAICompat.lines_of (OpenAICompat.WHeader ?a ?b :: ?l)) with (OpenAICompat.lines_of l).
      change (OpenAICompat.lines_of (OpenAICompat.WStatus ?b :: ?l)) with (OpenAICompat.lines_of l).
      change (OpenAICompat.lines_of (OpenAICompat.WFlush :: ?l)) with (OpenAICompat.lines_of l).
      rewrite OpenAICompat.relayed_lines. simpl. by rewrite last_snoc.
  - simpl. unfold OpenAICompat.serveChatBuffered, OpenAICompat.serveChatStreaming. fold body. rewrite Hc. split; [done|].
    intros m c. unfold OpenAICompat.writeUpstreamErrorOrFallback. destruct (Proxy.WriteUpstreamError er) as [a|] eqn:Ew; [|done].
    unfold Proxy.WriteUpstreamError in Ew. repeat case_match; simplify_eq; done.
Qed.

(** A reply depends on one upstream call alone. *)
Lemma reply_one_call call' stream :
  let body := OpenAICompat.chat_body model [OpenAICompat.user_message prompt] options in
  call' body = call body -> OpenAICompat.serveChat (V := V) decode true call'
    (Ok (OpenAICompat.MkChat model prompt [] "" (Some stream) options)) = reply stream.
Proof.
  intros body E. unfold OpenAICompat.serveChat. cbn -[OpenAICompat.serveChatStreaming OpenAICompat.serveChatBuffered].
  unfold OpenAICompat.serveChatStreaming, OpenAICompat.serveChatBuffered. fold body. by rewrite E.
Qed.
End reply.

(** C29: A prompt gets the same answer on every path to an OpenAI upstream: the
    job worker's Generate, which builds its own request, sends the one of a proxied
    /api/generate, the fields the broker controls over the caller's options and the
    key of the configuration or none; the proxied path depends on the upstream's
    answer to that request alone; and when the worker gets a text, the buffered mode
    answers exactly it with the same count and the streamed lines add up to it; when
    the worker gets an error, neither mode reports a complete answer. *)
Theorem job_and_proxy_agree {V} url key Do decode model prompt options :
  let reply Do stream := OpenAICompat.serveChat (V := V) decode true (openChatStream url key Do)
    (Ok (OpenAICompat.MkChat model prompt [] "" (Some stream) options)) in
  let '(a, _, sent) := openai_Generate url key Do decode model prompt options in
  sent = [post_request url key "/v1/chat/completions"
            (OpenAICompat.chat_body model [OpenAICompat.user_message prompt] options)] /\
  (forall Do' stream, (forall q, q ∈ sent -> Do' q = Do q) -> reply Do' stream = reply Do stream) /\
  match a with
  | Ok (text, n) =>
      OpenAICompat.lines_of (reply Do false) = [OpenAICompat.LChunk model text true n] /\
      OpenAICompat.concat_strings (map OpenAICompat.response_of (OpenAICompat.lines_of (reply Do true))) = text /\
      last (OpenAICompat.lines_of (reply Do true)) = Some (OpenAICompat.LChunk model "" true n)
  | Err (n, e) =>
      reply Do false = OpenAICompat.writeUpstreamErrorOrFallback e /\
      forall m c, last (OpenAICompat.lines_of (reply Do true)) <> Some (OpenAICompat.LChunk m "" true c)
  end.
Proof.
  cbn zeta. rewrite openai_Generate_stream.
  set (body := OpenAICompat.chat_body model [OpenAICompat.user_message prompt] options).
  pose proof (reply_agrees (V := V) (openChatStream url key Do) decode model prompt options) as H. fold body in H.
  assert (forall Do' stream, (forall q, q ∈ [post_request url key "/v1/chat/completions" body] -> Do' q = Do q) ->
    OpenAICompat.serveChat (V := V) decode true (openChatStream url key Do')
      (Ok (OpenAICompat.MkChat model prompt [] "" (Some stream) options)) =
    OpenAICompat.serveChat decode true (openChatStream url key Do)
      (Ok (OpenAICompat.MkChat model prompt [] "" (Some stream) options))) as Hone.
  { intros Do' stream Hq. apply reply_one_call. unfold openChatStream. by rewrite Hq by by left. }
  destruct (openChatStream url key Do body) as [[ls e]|e]; [|done].
  by destruct (OpenAICompat.parseSSEStream decode ls e) as [a cs].
Qed.

(** Every request to an OpenAI upstream carries the key, or none does. *)
Lemma key_sent url key path body : forall v,
  ("Authorization", v) ∈ hdrs (post_request url key path body) <-> key <> "" /\ v = "Bearer " +:+ key.
Proof.
  intros v. unfold post_request, auth_headers. simpl. rewrite elem_of_cons.
  destruct (String.eqb_spec key ""); simpl; rewrite ?list_elem_of_singleton, ?elem_of_nil; naive_solver.
Qed.

End Clients.
