(* ===== verification/Options.v ===== *)
(** * From a submission to the upstream (src/internal/job/service.go and
      worker.go, with internal/backend)

    What a client submits is what is run: [Service.Submit] stores the options of
    a request as JSON text, [runJob] decodes them when a job is claimed, possibly
    after preemptions, retries and restarts, and calls the generator.  The
    marshalling of Go values is a parameter, with a concrete one over compact JSON
    for the witness. *)

From S2P Require Import Prelude GoLib Json Wire JobStore JobService Worker OpenAICompat Ollama Clients.
#[local] Set Warnings "-clear-no-such-hyp,-level-tolerance".
Local Open Scope Z_scope.

Module Options.
Import GoLib JobStore.
Abbreviation object := OpenAICompat.object.

(** A new submission (service.go). *)
Record SubmitRequest := MkSubmitRequest {
  q_key : string; q_source : string; q_owner : string; q_model : string; q_prompt : string; q_options : object
}.

(** The arguments of [Generator.Generate]. *)
Definition generation : Type := string * string * object.

(** What is given to the store: everything of a row that is the client's. *)
Definition client_part (j : Job) : string * string * string * string * string :=
  (ID j, IdempotencyKey j, Model j, ParamsJSON j, Prompt j).

Definition submitted_part (s : submission) : string * string * string * string * string :=
  (s_id s, s_key s, s_model s, s_params s, s_prompt s).

Section options.
Context (marshal : object -> option string) (unmarshal : string -> option object).

(** No options are stored as the empty text. *)
Definition paramsJSON (options : object) : option string :=
  if decide (options = ∅) then Some "" else marshal options.

(** The row [Service.Submit] asks the store for; [None] when marshalling fails. *)
Definition submission_of (q : SubmitRequest) (id : string) (now : Z) : option submission :=
  params ← paramsJSON (q_options q);
  Some (Submission id (q_key q) (q_source q) (q_owner q) (q_model q) params (q_prompt q) (Some now)).

(** A nil map and an empty one are the same options. *)
Definition decodeOptions (params : string) : object :=
  if decide (params = "") then ∅ else default ∅ (unmarshal params).

(** The call [runJob] makes for a claimed job. *)
Definition generate_call (j : Job) : generation := (Model j, Prompt j, decodeOptions (ParamsJSON j)).

(** What encoding/json promises of one value: it is written as some text, and read
    back from it. *)
Definition round_trips (o : object) : Prop := exists text, marshal o = Some text /\ text <> "" /\ unmarshal text = Some o.

Lemma decode_params o params : round_trips o -> paramsJSON o = Some params -> decodeOptions params = o.
Proof.
  intros (text & Hm & Ht & Hu). unfold paramsJSON, decodeOptions. case_decide as Ho; [by intros [= <-]|].
  rewrite Hm. intros [= <-]. rewrite decide_False by done. by rewrite Hu.
Qed.
End options.

(** ** The client's part of a row never changes *)

Lemma update_part p f (t : list Job) : (forall j, client_part (f j) = client_part j) ->
  forall j, j ∈ update p f t -> exists j0, j0 ∈ t /\ client_part j = client_part j0.
Proof.
  intros Hf j Hj. unfold update in Hj. apply list_elem_of_In, in_map_iff in Hj as (x & <- & Hx%list_elem_of_In).
  exists x. split; [done|]. by destruct (p x).
Qed.

(** Every row of a table after a call has the client's part of one before it. *)
Definition parts_kept (t t' : list Job) : Prop :=
  forall j, j ∈ t' -> exists j0, j0 ∈ t /\ client_part j = client_part j0.

Lemma kept_refl t : parts_kept t t.
Proof. intros j Hj. by exists j. Qed.

Lemma kept_trans t1 t2 t3 : parts_kept t1 t2 -> parts_kept t2 t3 -> parts_kept t1 t3.
Proof. intros H1 H2 j Hj. destruct (H2 j Hj) as (j2 & Hj2 & ->). by apply H1. Qed.

#[local] Hint Resolve kept_refl : broker.
#[local] Hint Extern 1 (parts_kept _ (update _ _ _)) => (intros ? ?; eapply update_part; [|eassumption]; done) : broker.

Lemma affect_kept p f t : (forall j, client_part (f j) = client_part j) -> parts_kept t (mustAffect p f t).2.
Proof. intros Hf. intros j. by apply update_part. Qed.

Lemma recover_kept m now recs t : parts_kept t (foldl (recover_one m now) t recs).
Proof.
  revert t. induction recs as [|r recs IH]; intros t; [apply kept_refl|].
  eapply kept_trans; [|apply IH]. unfold recover_one. case_match; auto with broker.
Qed.

Lemma apply_part m c t j : j ∈ apply m c t ->
  (exists j0, j0 ∈ t /\ client_part j = client_part j0) \/
  (exists s now, c = CSubmit s now /\ client_part j = submitted_part s).
Proof.
  destruct c as [s now|now|id r now|id|id msg now|now|id now|id now|g h now|]; cbn [apply].
  - unfold Submit. destruct (scanOne _); [left; by exists j|]. destruct (existsb _ _); [left; by exists j|].
    cbn [snd]. intros [Hj|Hj%list_elem_of_singleton]%elem_of_app; [left; by exists j|right].
    exists s, now. by rewrite Hj.
  - intros Hj. left. revert j Hj. change (parts_kept t (ClaimNext now t).2). unfold ClaimNext. case_match; simpl; auto with broker.
  - intros Hj. left. revert j Hj. by apply affect_kept.
  - intros Hj. left. revert j Hj. by apply affect_kept.
  - intros Hj. left. revert j Hj. change (parts_kept t (FailOrRetry id msg m now t).2). unfold FailOrRetry.
    repeat case_match; simpl; auto with broker.
  - intros Hj. left. revert j Hj. apply recover_kept.
  - intros Hj. left. revert j Hj. change (parts_kept t (Cancel id now t).2). unfold Cancel. repeat case_match; simpl; auto with broker.
  - intros Hj. left. revert j Hj. change (parts_kept t (StampFetched id now t)). unfold StampFetched. auto with broker.
  - intros [_ Hj]%elem_of_where. left. by exists j.
  - intros Hj. left. by exists j.
Qed.

Lemma run_part m cs j : j ∈ run m cs [] -> exists s now, CSubmit s now ∈ cs /\ client_part j = submitted_part s.
Proof.
  unfold run. induction cs as [|c cs IH] using rev_ind in j |- *; [by intros ?%not_elem_of_nil|].
  rewrite foldl_app. cbn [foldl]. intros [(j0 & Hj0 & E)|(s & now & -> & E)]%apply_part.
  - destruct (IH _ Hj0) as (s & now & Hs & E'). exists s, now. split; [set_solver|congruence].
  - exists s, now. split; [set_solver|done].
Qed.

Lemma claimed_row now t j t' : ClaimNext now t = (Ok j, t') -> exists j0, j0 ∈ t /\ client_part j = client_part j0.
Proof.
  unfold ClaimNext. destruct (line t) as [|j0 l] eqn:Hl; [done|]. intros [= <- _]. exists j0. split; [|done].
  assert (j0 ∈ line t) as [? _]%elem_of_line by (rewrite Hl; by left). done.
Qed.
(** C23: a claimed job runs as it was submitted.  After any run of store calls
    (other submissions, preemptions, retries, crashes and recoveries, prunes)
    whose submissions are [Service.Submit]s of options that encoding/json writes
    and reads back, a job that is claimed belongs to one of those submissions, by
    its id and its key, and the worker asks the upstream for that submission's
    model, prompt and options. *)
Theorem job_runs_as_submitted marshal unmarshal m cs now j t :
  (forall s at_, CSubmit s at_ ∈ cs -> exists q id now0,
     submission_of marshal q id now0 = Some s /\ (q_options q = ∅ \/ round_trips marshal unmarshal (q_options q))) ->
  ClaimNext now (run m cs []) = (Ok j, t) ->
  exists q id now0 s at_, CSubmit s at_ ∈ cs /\ submission_of marshal q id now0 = Some s /\
    ID j = id /\ IdempotencyKey j = q_key q /\
    generate_call unmarshal j = (q_model q, q_prompt q, q_options q).
Proof.
  intros Hq Hc. destruct (claimed_row _ _ _ _ Hc) as (j0 & Hj0 & E). apply run_part in Hj0 as (s & at_ & Hs & E').
  destruct (Hq s at_ Hs) as (q & id & now0 & Hsub & Hrt). exists q, id, now0, s, at_. do 2 (split; [done|]).
  rewrite E' in E. unfold submission_of in Hsub. destruct (paramsJSON marshal (q_options q)) as [params|] eqn:Hp; [|done].
  injection Hsub as <-. unfold client_part, submitted_part in E. cbn in E. injection E as E1 E2 E3 E4 E5.
  do 2 (split; [done|]). unfold generate_call. rewrite E3, E4, E5. do 2 f_equal. destruct Hrt as [Ho|Hrt].
  - rewrite Ho in Hp |- *. unfold paramsJSON in Hp. rewrite decide_True in Hp by done. by injection Hp as <-.
  - by apply (decode_params marshal unmarshal).
Qed.

(** ** Options as compact JSON *)

(** The text of an object and the object of a text, by [Json.encode] and the
    reader of [Wire]. *)
Definition compact (o : object) : option string := Some (String.string_of_list_ascii (Json.encode (OpenAICompat.of_object o))).

Definition parse (s : string) : option object :=
  match Wire.Json_reader (Json.chars s) with
  | Some (Json.JObj l) => Some (list_to_map ((fun kv => (String.string_of_list_ascii kv.1, kv.2)) <$> l))
  | _ => None
  end.

Definition demo_options : object :=
  {[ "num_predict" := Wire.number 128; "stop" := Json.JArr [OpenAICompat.str "END"]; "raw" := Json.JBool true ]}.

Lemma demo_round_trips : round_trips compact parse demo_options.
Proof. eexists. split; [reflexivity|]. split; [by vm_compute|]. by vm_compute. Qed.

Definition demo_request : SubmitRequest := MkSubmitRequest "k1" "cli" "me" "llama3" "hello" demo_options.

Definition demo_submission : submission :=
  Submission "a" "k1" "cli" "me" "llama3" (default "" (compact demo_options)) "hello" (Some 5).

(** Claimed, preempted, failed once, recovered after a crash, claimed again. *)
Definition demo_calls : list call :=
  [CSubmit demo_submission 5; CClaimNext 6; CPreempt "a"; CClaimNext 7; CFailOrRetry "a" "boom" 8; CClaimNext 9; CRecoverRunning 10].

Abbreviation demo_claim := (ClaimNext 11 (run 5 demo_calls [])).

Lemma job_runs_as_submitted_witness :
  exists j t, demo_claim = (Ok j, t) /\ Attempts j = 2 /\ exists q, generate_call parse j = (q_model q, q_prompt q, q_options q).
Proof.
  destruct demo_claim as [[j|e] t] eqn:Hc; [|by vm_compute in Hc].
  exists j, t. split; [done|]. split; [vm_compute in Hc; by injection Hc as <- _|].
  destruct (job_runs_as_submitted compact parse 5 demo_calls 11 j t) as (q & id & now0 & s & at_ & _ & _ & _ & _ & H).
  - intros s at_ Hs. exists demo_request, "a", 5. split; [|right; exact demo_round_trips].
    unfold demo_calls in Hs. rewrite !elem_of_cons, elem_of_nil in Hs.
    destruct Hs as [[= -> _]|[Hs|[Hs|[Hs|[Hs|[Hs|[Hs|[]]]]]]]]; try discriminate Hs. by vm_compute.
  - exact Hc.
  - by exists q.
Defined.

End Options.
