(* ===== verification/Schedule.v ===== *)
(** * The compute calendar and Tdarr (src/internal/schedule/schedule.go,
      src/internal/tdarr/tdarr.go and the loop of src/cmd/broker/main.go)

    The weekly windows over an instant in seconds and the host's time zone; the
    Tdarr client's calls as the requests they post, over any server; and the two
    paths that pause and resume Tdarr's GPU workers, the schedule's loop and the
    yield controller's goroutines, as one system around the node they share; every
    step of the controller of [Yield] is a [flip] of that system or nothing to it
    ([controller_flips]).

    Proved: the safe-for-background test is exactly the scraper's window; the
    loop pauses inside it and resumes outside, retrying what fails; and what the
    lack of coordination between the two paths allows. *)

From S2P Require Import Prelude GoLib Json Proxy OpenAICompat Yield.
From Stdlib Require Import QArith.
#[local] Set Warnings "-clear-no-such-hyp,-level-tolerance".
Local Open Scope Z_scope.

Module Schedule.
Import GoLib.

(** ** Wall-clock time

    An instant is a number of seconds since the epoch, a Thursday at 00:00 UTC;
    [zone] is the offset of local time from UTC at an instant. *)

Definition day_seconds : Z := 86400.

(** [time.Weekday] *)
Definition Sunday : Z := 0.
Definition Thursday : Z := 4.
Definition Friday : Z := 5.

(** [t.Local()] as seconds of local time, and its fields. *)
Definition Local (zone : Z -> Z) (t : Z) : Z := t + zone t.
Definition Weekday (l : Z) : Z := (l / day_seconds + Thursday) mod 7.
Definition Hour (l : Z) : Z := (l mod day_seconds) / 3600.
Definition Minute (l : Z) : Z := (l mod 3600) / 60.
Definition Second (l : Z) : Z := l mod 60.

(** ** schedule.go *)

Record Window := MkWindow {
  Name : string; weekday : option Z; StartHour : Z; StartMinute : Z; DurationH : Q; Description : string;
}.

Definition windows : list Window := [
  MkWindow "internal-scraper-service" (Some Friday) 2 0 5
    "estatesales.net Ollama vision scan (GPU via broker, heavy batch)";
  MkWindow "safe-batch" None 2 0 7
    "preferred window for background GPU batch work (low inference demand)" ].

(** [int(w.DurationH*3600)], truncated towards zero. *)
Definition duration_seconds (d : Q) : Z := Z.quot (Qnum d * 3600) (Z.pos (Qden d)).

Definition startSec (w : Window) : Z := StartHour w * 3600 + StartMinute w * 60.
Definition endSec (w : Window) : Z := startSec w + duration_seconds (DurationH w).

Definition contains (w : Window) (l : Z) : bool :=
  if match weekday w with Some d => negb (Weekday l =? d) | None => false end then false
  else
    let tod := Hour l * 3600 + Minute l * 60 + Second l in
    (startSec w <=? tod) && (tod <? endSec w).

Section zone.
Context (zone : Z -> Z).

Definition Active (t : Z) : list Window := List.filter (fun w => contains w (Local zone t)) windows.

Definition InWindow (name : string) (t : Z) : bool :=
  existsb (fun w => String.eqb (Name w) name) (Active t).

Definition SafeForBackgroundGPU (t : Z) : bool := negb (InWindow "internal-scraper-service" t).

Record Snapshot := MkSnapshot { ActiveWindows : list (string * string); SafeForTdarr : bool }.

Definition TakeSnapshot (t : Z) : Snapshot :=
  MkSnapshot (map (fun w => (Name w, Description w)) (Active t)) (SafeForBackgroundGPU t).

End zone.

(** ** tdarr.go *)

Record workerLimits := WorkerLimits {
  HealthCheckCPU : Z; HealthCheckGPU : Z; TranscodeCPU : Z; TranscodeGPU : Z;
}.

Record Client := MkClient { baseURL : string; nodeID : string; gpuWorkers : Z }.

Definition New (baseURL nodeID : string) (gpuWorkers : Z) : Client :=
  MkClient baseURL nodeID (if gpuWorkers <? 1 then 1 else gpuWorkers).

(** What a call posts, and the server's answer: an error of the transport, or a
    status and a body. *)
Inductive request :=
| UpdateNode (nodeID : string) (lim : workerLimits)
| PollWorkerLimits (nodeID : string).

Definition path (r : request) : string :=
  match r with UpdateNode _ _ => "/api/v2/update-node" | PollWorkerLimits _ => "/api/v2/poll-worker-limits" end.

Definition response : Type := result Proxy.error (Z * string).

Definition post (r : request) (resp : response) : result Proxy.error string :=
  match resp with
  | Err e => Err (OpenAICompat.wrap ("tdarr: " +:+ path r +:+ ": ") e)
  | Ok (status, raw) =>
      if negb (status =? 200)
      then Err (OpenAICompat.Errorf ("tdarr: " +:+ path r +:+ ": status " +:+ Itoa status +:+ ": " +:+ raw))
      else Ok raw
  end.

Section client.
(** The JSON decoding of an answer's [message] and of its [workerLimits]. *)
Context (decode_message : string -> option string).
Context (decode_limits : string -> result Proxy.error workerLimits).
Context (c : Client).

(** [setWorkers]: [None] is a nil error. *)
Definition setWorkers (lim : workerLimits) (resp : response) : option Proxy.error :=
  match post (UpdateNode (nodeID c) lim) resp with
  | Err e => Some e
  | Ok raw =>
      if negb (String.eqb raw "OK") && (0 <? Z.of_nat (String.length raw)) then
        match decode_message raw with
        | Some m => if negb (String.eqb m "") then Some (OpenAICompat.Errorf ("tdarr: update-node: " +:+ m)) else None
        | None => None
        end
      else None
  end.

(** The limits [PauseGPU] and [ResumeGPU] set. *)
Definition limits_of (g : Yield.gpu_call) : workerLimits :=
  match g with
  | Yield.PauseGPU => WorkerLimits 0 0 1 0
  | Yield.ResumeGPU => WorkerLimits 0 0 1 (gpuWorkers c)
  end.

Definition call (g : Yield.gpu_call) (resp : response) : option Proxy.error := setWorkers (limits_of g) resp.

(** [Client.WorkerLimits], and the worker count of the status page. *)
Definition getWorkerLimits (resp : response) : result Proxy.error Z :=
  match post (PollWorkerLimits (nodeID c)) resp with
  | Err e => Err e
  | Ok raw =>
      match decode_limits raw with
      | Err e => Err (OpenAICompat.wrap "tdarr: decode worker-limits: " e)
      | Ok l => Ok (TranscodeGPU l)
      end
  end.

Definition tdarr_status (resp : response) : Z :=
  match getWorkerLimits resp with Ok gpu => gpu | Err _ => -1 end.

(** ** The schedule's loop *)

(** What a tick at [now] calls, given [paused]. *)
Definition tick_call (zone : Z -> Z) (now : Z) (paused : bool) : option Yield.gpu_call :=
  let shouldPause := negb (SafeForBackgroundGPU zone now) in
  if shouldPause && negb paused then Some Yield.PauseGPU
  else if negb shouldPause && paused then Some Yield.ResumeGPU
  else None.

Definition tick_paused (g : option Yield.gpu_call) (err : option Proxy.error) (paused : bool) : bool :=
  match g, err with
  | Some Yield.PauseGPU, None => true
  | Some Yield.ResumeGPU, None => false
  | _, _ => paused
  end.

(** [runTdarrSchedule] over its ticks, each with the server's answer to a call
    made then: [paused] at the end, and the calls with their times and errors. *)
Fixpoint runTdarrSchedule (zone : Z -> Z) (ticks : list (Z * response)) (paused : bool)
  : bool * list (Z * Yield.gpu_call * option Proxy.error) :=
  match ticks with
  | [] => (paused, [])
  | (now, resp) :: ticks' =>
      let g := tick_call zone now paused in
      let err := match g with Some g => call g resp | None => None end in
      let '(p, calls) := runTdarrSchedule zone ticks' (tick_paused g err paused) in
      (p, match g with Some g => [(now, g, err)] | None => [] end ++ calls)
  end.

(** ** Both paths around the node *)

(** [paused] of the loop, the GPU workers of the node, whether the broker
    yields, and the goroutines the yield controller has launched: they are not
    ordered. *)
Record system := System { loop_paused : bool; node_gpu : Z; yielding : bool; pending : list Yield.gpu_call }.

(** The answer to a call, and whether the server applied it. *)
Record reply := Reply { resp : response; applied : bool }.

Inductive event :=
| Tick (now : Z) (r : reply)
| YieldFlip
| Land (i : nat) (r : reply).

Definition set_node (g : Yield.gpu_call) (r : reply) (n : Z) : Z :=
  if applied r then TranscodeGPU (limits_of g) else n.

(** A call that is answered without an error has been applied. *)
Definition honest (g : Yield.gpu_call) (r : reply) : bool :=
  match call g (resp r) with None => applied r | Some _ => true end.

(** A tick of the schedule's loop. *)
Definition tick (zone : Z -> Z) (now : Z) (r : reply) (s : system) : outcome system :=
  match tick_call zone now (loop_paused s) with
  | None => Next s
  | Some g =>
      if honest g r
      then Next (System (tick_paused (Some g) (call g (resp r)) (loop_paused s)) (set_node g r (node_gpu s))
                   (yielding s) (pending s))
      else Disabled
  end.

(** The transition of [applyLocked], as far as the node sees it: [flips] below
    relates it to the controller of [Yield]. *)
Definition transition_call (yielding : bool) : Yield.gpu_call := if yielding then Yield.ResumeGPU else Yield.PauseGPU.

Definition flip (s : system) : system :=
  System (loop_paused s) (node_gpu s) (negb (yielding s)) (pending s ++ [transition_call (yielding s)]).

(** A goroutine of [pauseGPUMgr] or [resumeGPUMgr]: it calls, and ends. *)
Definition land (i : nat) (r : reply) (s : system) : outcome system :=
  match pending s !! i with
  | None => Disabled
  | Some g =>
      if honest g r
      then Next (System (loop_paused s) (set_node g r (node_gpu s)) (yielding s) (delete i (pending s)))
      else Disabled
  end.

Definition step (zone : Z -> Z) (e : event) (s : system) : outcome system :=
  match e with
  | Tick now r => tick zone now r s
  | YieldFlip => Next (flip s)
  | Land i r => land i r s
  end.

Definition started (s : system) : Prop := s = System false (gpuWorkers c) false [].

End client.

(** ** The windows *)

Lemma time_of_day l : Hour l * 3600 + Minute l * 60 + Second l = l mod day_seconds.
Proof. unfold Hour, Minute, Second, day_seconds. Z.div_mod_to_equations. lia. Qed.

(** A window is a slot of each day, or of one day of the week; a slot that runs
    past midnight ends there. *)
Lemma contains_spec w l : 0 <= startSec w ->
  contains w l = true <->
  exists day, match weekday w with Some d => (day + Thursday) mod 7 = d | None => True end /\
    day * day_seconds + startSec w <= l < day * day_seconds + Z.min (endSec w) day_seconds.
Proof.
  intros Hs. unfold contains. rewrite time_of_day. cbn zeta.
  assert (forall day, day * day_seconds + startSec w <= l < day * day_seconds + Z.min (endSec w) day_seconds ->
    l / day_seconds = day) as Hday.
  { intros day H. symmetry. apply (Z.div_unique_pos _ _ _ (l - day * day_seconds)); unfold day_seconds in *; lia. }
  pose proof (Z.div_mod l day_seconds ltac:(done)) as Hl. pose proof (Z.mod_pos_bound l day_seconds ltac:(done)).
  split.
  - intros H'. exists (l / day_seconds). unfold Weekday in H'.
    destruct (weekday w) as [d|]; [destruct (Z.eqb_spec ((l / day_seconds + Thursday) mod 7) d); [|done]|];
      (split; [done|]; simpl in H'; rewrite andb_true_iff in H'; lia).
  - intros (day & Hw & Hr). pose proof (Hday _ Hr) as Hd. unfold Weekday. rewrite Hd.
    assert ((startSec w <=? l mod day_seconds) && (l mod day_seconds <? endSec w) = true) as -> by lia.
    destruct (weekday w) as [d|]; [|done]. by rewrite Hw, Z.eqb_refl.
Qed.

(** The instants of the scraper's window: Fridays from 02:00 to 07:00. *)
Definition scraper_hours (l : Z) : Prop :=
  exists day, (day + Thursday) mod 7 = Friday /\ day * day_seconds + 7200 <= l < day * day_seconds + 25200.

Lemma safe_iff zone t : SafeForBackgroundGPU zone t = false <-> scraper_hours (Local zone t).
Proof.
  pose proof (contains_spec (MkWindow "internal-scraper-service" (Some Friday) 2 0 5
    "estatesales.net Ollama vision scan (GPU via broker, heavy batch)") (Local zone t) ltac:(done)) as H.
  change (Z.min (endSec _) day_seconds) with 25200 in H. change (startSec _) with 7200 in H.
  unfold scraper_hours. cbn [weekday] in H. rewrite <- H.
  unfold SafeForBackgroundGPU, InWindow, Active, windows. cbn [List.filter].
  repeat case_match; split; done.
Qed.

(** ** The loop *)

Fixpoint alternate (paused : bool) (gs : list Yield.gpu_call) : Prop :=
  match gs with
  | [] => True
  | g :: gs' => g = (if paused then Yield.ResumeGPU else Yield.PauseGPU) /\ alternate (negb paused) gs'
  end.

Definition succeeded (calls : list (Z * Yield.gpu_call * option Proxy.error)) : list Yield.gpu_call :=
  omap (fun c => match c with (_, g, None) => Some g | _ => None end) calls.

Definition wanted (zone : Z -> Z) (now : Z) : Yield.gpu_call :=
  if SafeForBackgroundGPU zone now then Yield.ResumeGPU else Yield.PauseGPU.

Lemma tick_call_spec zone now paused :
  match tick_call zone now paused with
  | None => paused = negb (SafeForBackgroundGPU zone now)
  | Some g => g = wanted zone now /\ g = (if paused then Yield.ResumeGPU else Yield.PauseGPU) /\
      paused = SafeForBackgroundGPU zone now
  end.
Proof. unfold tick_call, wanted. by destruct (SafeForBackgroundGPU zone now), paused. Qed.

Lemma loop_spec dec c zone ticks paused :
  let '(p, calls) := runTdarrSchedule dec c zone ticks paused in
  Forall (fun x => x.1.2 = wanted zone x.1.1) calls /\ alternate paused (succeeded calls) /\
  forall pre now resp, ticks = pre ++ [(now, resp)] ->
    p = negb (SafeForBackgroundGPU zone now) \/ exists g e, last calls = Some (now, g, Some e).
Proof.
  revert paused. induction ticks as [|[now resp] ticks IH]; intros paused; simpl.
  - split; [constructor|]. split; [done|]. by intros [] ? ? ?.
  - pose proof (tick_call_spec zone now paused) as Hg. destruct (tick_call zone now paused) as [g|].
    + destruct Hg as (Hw & Ha & Hp). specialize (IH (tick_paused (Some g) (call dec c g resp) paused)).
      destruct (runTdarrSchedule _ _ _ _ _) as [p calls] eqn:E. destruct IH as (H1 & H2 & H3). cbn [app].
      split; [by constructor|]. split.
      * unfold succeeded. simpl. destruct (call dec c g resp); simpl in *; [by destruct g|].
        split; [done|]. rewrite Ha in H2. by destruct paused.
      * intros pre now' resp' Heq. destruct ticks as [|tk ticks].
        -- apply (app_inj_tail []) in Heq as [<- [= <- <-]]. simpl in E. injection E as <- <-.
           destruct (call dec c g resp) as [e|]; [by right; do 2 eexists|].
           left. rewrite Ha, Hp. by destruct (SafeForBackgroundGPU zone now).
        -- destruct pre as [|? pre]; simplify_eq/=. destruct (H3 pre now' resp' ltac:(done)) as [?|(g' & e & Hl)]; [by left|].
           right. exists g', e. by destruct calls.
    + specialize (IH paused). simpl. destruct (runTdarrSchedule _ _ _ _ _) as [p calls] eqn:E.
      destruct IH as (H1 & H2 & H3). split; [done|]. split; [done|]. intros pre now' resp' Heq.
      destruct ticks as [|tk ticks].
      * apply (app_inj_tail []) in Heq as [<- [= <- <-]]. simpl in E. simplify_eq. by left.
      * destruct pre as [|? pre]; simplify_eq/=. by eapply H3.
Qed.

(** Without yields, and when a call is applied exactly when it succeeds, the node
    follows the loop. *)
Definition exact_tick (dec : string -> option string) (c : Client) (e : event) : Prop :=
  match e with
  | Tick _ r => forall g, applied r = match call dec c g (resp r) with None => true | Some _ => false end
  | _ => False
  end.

Lemma node_follows_loop dec c zone es s s' :
  node_gpu s = (if loop_paused s then 0 else gpuWorkers c) ->
  Forall (exact_tick dec c) es -> run_events (step dec c zone) es s = Next s' ->
  node_gpu s' = if loop_paused s' then 0 else gpuWorkers c.
Proof.
  intros Hs Hes. revert s Hs. induction Hes as [|e es He _ IH]; intros s Hs; simpl; [by intros [= <-]|].
  destruct e as [now r| |]; try done. simpl. unfold tick. pose proof (tick_call_spec zone now (loop_paused s)) as Hg.
  destruct (tick_call zone now (loop_paused s)) as [g|]; [|by apply IH].
  destruct (honest dec c g r); [|done]. apply IH. simpl. destruct Hg as (_ & -> & _). unfold set_node.
  rewrite (He (if loop_paused s then Yield.ResumeGPU else Yield.PauseGPU)).
  by destruct (loop_paused s), (call dec c _ (resp r)).
Qed.

(** ** The yield controller's side *)

(** What a step of the controller is to the node: nothing, or a [YieldFlip]. *)
Definition flips (c c' : Yield.controller) : Prop :=
  Yield.hasGpuMgr c' = Yield.hasGpuMgr c /\
  ((Yield.effective c' = Yield.effective c /\ Yield.gpu_calls c' = Yield.gpu_calls c) \/
   (Yield.effective c' = negb (Yield.effective c) /\
    Yield.gpu_calls c' = Yield.gpu_calls c ++
      if Yield.hasGpuMgr c then [transition_call (Yield.effective c)] else [])).

Lemma start_all_flips n a c : flips c (Yield.start_all n a c) /\ Yield.effective (Yield.start_all n a c) = Yield.effective c /\
  Yield.gpu_calls (Yield.start_all n a c) = Yield.gpu_calls c.
Proof.
  induction n as [|n ((E1 & _) & E2 & E3)]; [by repeat split; left|].
  assert (Yield.hasGpuMgr (Yield.start_all (S n) a c) = Yield.hasGpuMgr c) as H1 by (by rewrite <- E1).
  assert (Yield.effective (Yield.start_all (S n) a c) = Yield.effective c) as H2 by (by rewrite <- E2).
  assert (Yield.gpu_calls (Yield.start_all (S n) a c) = Yield.gpu_calls c) as H3 by (by rewrite <- E3).
  split; [|done]. split; [done|]. by left.
Qed.

Lemma apply_flips now c : flips c (Yield.applyLocked now c).2.
Proof.
  unfold Yield.applyLocked. destruct (Yield.computeLocked c) as [eff r].
  destruct (Bool.eqb_spec eff (Yield.effective c)) as [->|Hne]; [by split; [|left]|]. destruct eff.
  - assert (Yield.effective c = false) as He by (by destruct (Yield.effective c)). cbn [snd].
    set (c1 := Yield.set_serving _ _ _ c). destruct (start_all_flips (length (Yield.slots c1)) Yield.Unload c1) as ((E1 & _) & E2 & E3).
    split; [exact E1|right]. rewrite He. split; [exact E2|]. cbn [Yield.gpu_calls Yield.go_gpu]. rewrite E1, E3.
    change (Yield.hasGpuMgr c1) with (Yield.hasGpuMgr c). change (Yield.gpu_calls c1) with (Yield.gpu_calls c).
    destruct (Yield.hasGpuMgr c); [done|by rewrite app_nil_r].
  - assert (Yield.effective c = true) as He by (by destruct (Yield.effective c)). cbn [snd].
    set (c1 := Yield.set_serving _ _ _ c). destruct (start_all_flips (length (Yield.slots c1)) Yield.Reload c1) as ((E1 & _) & E2 & E3).
    split; [exact E1|right]. rewrite He. split; [exact E2|]. cbn [Yield.gpu_calls Yield.go_gpu Yield.hasGpuMgr Yield.set_slots].
    rewrite E1, E3.
    change (Yield.hasGpuMgr c1) with (Yield.hasGpuMgr c). change (Yield.gpu_calls c1) with (Yield.gpu_calls c).
    destruct (Yield.hasGpuMgr c); [done|by rewrite app_nil_r].
Qed.

Lemma check_idle_flips n now c : Yield.hasGpuMgr (Yield.check_idle n now c) = Yield.hasGpuMgr c /\
  Yield.effective (Yield.check_idle n now c) = Yield.effective c /\
  Yield.gpu_calls (Yield.check_idle n now c) = Yield.gpu_calls c.
Proof.
  induction n as [|n IH]; simpl; [done|]. destruct (_ !! n); [|done]. destruct (Yield.idle_due _ _ _); [|done]. exact IH.
Qed.

(** Every step of the controller with its manager registered is, to the node, a
    [YieldFlip] or nothing: [flip] is what the controller does. *)
Lemma controller_flips e s s' : Yield.step e s = Next s' -> e <> Yield.ESetGPUManager ->
  flips (Yield.ctl s) (Yield.ctl s').
Proof.
  intros Hs Hn. assert (forall c, Yield.hasGpuMgr c = Yield.hasGpuMgr (Yield.ctl s) ->
    Yield.effective c = Yield.effective (Yield.ctl s) -> Yield.gpu_calls c = Yield.gpu_calls (Yield.ctl s) -> flips (Yield.ctl s) c) as Hsame.
  { intros c E1 E2 E3. split; [done|]. by left. }
  destruct e; simpl in Hs; try done;
    [| |unfold Yield.startAction in *; repeat (case_match; simplify_eq/=); simplify_eq/=; by apply Hsame..].
  - simplify_eq. simpl. unfold Yield.refresh. destruct (Yield.debounceLocked _ _ _) as [[b r] c] eqn:Hd.
    assert (Yield.hasGpuMgr c = Yield.hasGpuMgr (Yield.ctl s) /\ Yield.effective c = Yield.effective (Yield.ctl s) /\
      Yield.gpu_calls c = Yield.gpu_calls (Yield.ctl s)) as (C1 & C2 & C3).
    { unfold Yield.debounceLocked in Hd. repeat case_match; by simplify_eq/=. }
    set (c1 := Yield.set_lastPoll now (Yield.set_auto b r c)). pose proof (apply_flips now c1) as Ha.
    destruct (Yield.applyLocked now c1) as [[? ?] c2]. cbn [snd] in Ha. unfold Yield.checkIdleLocked.
    destruct (check_idle_flips (length (Yield.slots c2)) now c2) as (I1 & I2 & I3). unfold flips in *. rewrite I1, I2, I3.
    change (Yield.hasGpuMgr c1) with (Yield.hasGpuMgr c) in Ha. change (Yield.gpu_calls c1) with (Yield.gpu_calls c) in Ha.
    change (Yield.effective c1) with (Yield.effective c) in Ha. by rewrite C1, C2, C3 in Ha.
  - simplify_eq. apply (apply_flips now (Yield.set_mode m (Yield.ctl s))).
Qed.

(** ** Properties *)

(** Background GPU work is unsafe exactly in the scraper's hours of a Friday
    in the host's time zone, and the status page's flag says whether that window
    is among the active ones it lists. *)
Theorem unsafe_in_scraper_hours zone t :
  (SafeForBackgroundGPU zone t = false <-> scraper_hours (Local zone t)) /\
  (SafeForTdarr (TakeSnapshot zone t) = false <->
    "internal-scraper-service" ∈ map fst (ActiveWindows (TakeSnapshot zone t))).
Proof.
  split; [apply safe_iff|]. simpl. unfold SafeForBackgroundGPU, InWindow. rewrite negb_false_iff, existsb_exists.
  rewrite list_elem_of_fmap. setoid_rewrite list_elem_of_fmap. split.
  - intros (w & Hw & <-%String.eqb_eq). exists (Name w, Description w). split; [done|]. exists w. by rewrite list_elem_of_In.
  - intros (x & -> & w & -> & Hw%list_elem_of_In). exists w. by rewrite String.eqb_refl.
Qed.

(** The schedule's loop only ever pauses Tdarr inside the scraper's hours and
    only resumes it outside, its successful calls alternate, first a pause, and
    after every tick its state is that of the window unless the tick's call has
    failed, which the next tick retries; as long as nothing else drives the node
    and failed calls are not applied, the node has no GPU worker exactly when the
    loop has paused it. *)
Theorem tdarr_follows_schedule dec c zone ticks :
  (let '(p, calls) := runTdarrSchedule dec c zone ticks false in
   Forall (fun x => x.1.2 = Yield.PauseGPU <-> scraper_hours (Local zone x.1.1)) calls /\
   alternate false (succeeded calls) /\
   forall pre now resp, ticks = pre ++ [(now, resp)] ->
     (p = true <-> scraper_hours (Local zone now)) \/ exists g e, last calls = Some (now, g, Some e)) /\
  forall es s s', started c s -> Forall (exact_tick dec c) es -> run_events (step dec c zone) es s = Next s' ->
    node_gpu s' = if loop_paused s' then 0 else gpuWorkers c.
Proof.
  split.
  - pose proof (loop_spec dec c zone ticks false) as H. destruct (runTdarrSchedule _ _ _ _ _) as [p calls].
    destruct H as (H1 & H2 & H3). split; [|split; [done|]].
    + eapply Forall_impl; [exact H1|]. intros x ->. unfold wanted. rewrite <- safe_iff.
      destruct (SafeForBackgroundGPU zone x.1.1); by split.
    + intros pre now resp Heq. destruct (H3 _ _ _ Heq) as [->|?]; [|by right]. left. rewrite <- safe_iff.
      apply negb_true_iff.
  - intros es s s' -> Hes Hr. by apply (node_follows_loop dec c zone es (System false (gpuWorkers c) false []) s').
Qed.

(** Ticks that find the loop in the state they want change nothing. *)
Lemma idle_ticks dec c zone es s :
  Forall (fun e => exists now r, e = Tick now r /\ loop_paused s = negb (SafeForBackgroundGPU zone now)) es ->
  run_events (step dec c zone) es s = Next s.
Proof.
  induction 1 as [|e es (now & r & -> & Hp) _ IH]; [done|]. simpl. unfold tick, tick_call. rewrite Hp.
  by destruct (SafeForBackgroundGPU zone now).
Qed.

Definition ok_reply : reply := Reply (Ok (200, "OK")) true.

(** C38: the two paths that drive Tdarr are not coordinated: a yield that ends
    inside the scraper's hours resumes Tdarr, and no tick of the rest of the
    window pauses it again; the window's end resumes it while the broker yields;
    and since the yield controller's calls run unordered, a short yield can leave
    Tdarr paused, which no tick outside the window repairs. *)
Theorem tdarr_paths_uncoordinated dec c zone inside outside :
  scraper_hours (Local zone inside) -> ~ scraper_hours (Local zone outside) ->
  let run es := run_events (step dec c zone) es (System false (gpuWorkers c) false []) in
  let resumed := System true (gpuWorkers c) false [] in
  let stuck := System false 0 false [] in
  let ticks window es := Forall (fun e => exists now r, e = Tick now r /\ (scraper_hours (Local zone now) <-> window)) es in
  run [Tick inside ok_reply; YieldFlip; Land 0 ok_reply; YieldFlip; Land 0 ok_reply] = Next resumed /\
  (forall es, ticks True es -> run_events (step dec c zone) es resumed = Next resumed) /\
  run [Tick inside ok_reply; YieldFlip; Land 0 ok_reply; Tick outside ok_reply] =
    Next (System false (gpuWorkers c) true []) /\
  run [YieldFlip; YieldFlip; Land 1 ok_reply; Land 0 ok_reply] = Next stuck /\
  (forall es, ticks False es -> run_events (step dec c zone) es stuck = Next stuck).
Proof.
  intros Hin%safe_iff Hout. rewrite <- safe_iff, not_false_iff_true in Hout. cbn zeta.
  split; [simpl; unfold tick, tick_call; by rewrite Hin|]. split; [|split; [|split; [done|]]].
  - intros es Hes. apply idle_ticks. eapply Forall_impl; [exact Hes|]. intros e (now & r & -> & Hw).
    exists now, r. split; [done|]. simpl. rewrite <- safe_iff in Hw. by rewrite (proj2 Hw I).
  - simpl. unfold tick, tick_call. rewrite Hin. simpl. by rewrite Hout.
  - intros es Hes. apply idle_ticks. eapply Forall_impl; [exact Hes|]. intros e (now & r & -> & Hw).
    exists now, r. split; [done|]. simpl. rewrite <- safe_iff in Hw.
    destruct (SafeForBackgroundGPU zone now); [done|]. by destruct (proj1 Hw eq_refl).
Qed.

(** ** Witnesses *)

(** 1970-01-02 was a Friday. *)
Definition friday_2am : Z := day_seconds + 7200.
Definition friday_7am : Z := day_seconds + 25200.
Definition no_message (_ : string) : option string := None.
Definition demo_client : Client := New "http://localhost:8265" "node" 2.

Lemma tdarr_paths_uncoordinated_witness :
  run_events (step no_message demo_client (fun _ => 0))
    [Tick friday_2am ok_reply; YieldFlip; Land 0 ok_reply; YieldFlip; Land 0 ok_reply]
    (System false 2 false []) = Next (System true 2 false []).
Proof.
  refine (proj1 (tdarr_paths_uncoordinated no_message demo_client (fun _ => 0) friday_2am friday_7am _ _)).
  - exists 1. vm_compute. intuition congruence.
  - intros (day & _ & H). unfold Local, friday_7am, day_seconds in H. lia.
Defined.

Lemma tdarr_follows_schedule_witness :
  exists s', run_events (step no_message demo_client (fun _ => 0)) [Tick friday_2am ok_reply; Tick (friday_2am + 60) ok_reply]
    (System false 2 false []) = Next s' /\ loop_paused s' = true /\ node_gpu s' = 0.
Proof.
  eexists. split; [reflexivity|]. split; [reflexivity|].
  refine (proj2 (tdarr_follows_schedule no_message demo_client (fun _ => 0) [])
    [Tick friday_2am ok_reply; Tick (friday_2am + 60) ok_reply] (System false 2 false []) (System true 0 false [])
    eq_refl _ eq_refl).
  repeat constructor.
Defined.

End Schedule.
