(* ===== verification/Detect.v ===== *)
(** * Contention detection (src/internal/detect/detect.go and
      src/internal/plex/plex.go)

    The rules over process command lines, the Plex corroboration, and the reading
    of /proc as a function of what the file system shows.  The regular
    expressions are those of the source, matched byte by byte: a dot is any byte
    but a newline, and case is folded the way regexp folds it.  Decoding Plex's
    XML is a parameter.

    Proved: the matchers decide what the expressions mean; the verdict is that of
    the first rule any process matches, whatever the order of the processes; and
    which failures hide contention and which ones do not. *)

From S2P Require Import Prelude GoLib Proxy OpenAICompat.
From Stdlib Require Import Ascii.
#[local] Set Warnings "-clear-no-such-hyp,-level-tolerance".
Local Open Scope Z_scope.

Module Detect.
Import GoLib.

Record Process := MkProcess { Comm : string; Cmdline : string }.

(** ** Regular expressions *)

Definition newline : ascii := ascii_of_nat 10.

(** [.*b] at the start of [s]. *)
Fixpoint seek (b s : string) : bool :=
  HasPrefix s b || match s with
                   | EmptyString => false
                   | String c s' => negb (Ascii.eqb c newline) && seek b s'
                   end.

(** [a.*b] anywhere in [s]. *)
Fixpoint find_gap (a b s : string) : bool :=
  (HasPrefix s a && seek b (drop_bytes (String.length a) s))
  || match s with EmptyString => false | String _ s' => find_gap a b s' end.

(** A sequence of characters, each given by its alternatives. *)
Fixpoint eat (pat : list (list string)) (s : string) : bool :=
  match pat with
  | [] => true
  | alts :: pat' => existsb (fun w => HasPrefix s w && eat pat' (drop_bytes (String.length w) s)) alts
  end.

Fixpoint find_pat (pat : list (list string)) (s : string) : bool :=
  eat pat s || match s with EmptyString => false | String _ s' => find_pat pat s' end.

Definition lutrisRe : string -> bool := find_gap "lutris" "runner".
Definition heroicRe : string -> bool := find_gap "heroic" "game".
Definition wineRe : string -> bool := find_gap "wine" ".exe".

(** A letter in either case; [s] also folds to the long s, U+017F. *)
Definition upper (c : ascii) : ascii :=
  let n := nat_of_ascii c in if (97 <=? n)%nat && (n <=? 122)%nat then ascii_of_nat (n - 32) else c.

Definition fold_char (c : ascii) : list string :=
  [String c EmptyString; String (upper c) EmptyString]
  ++ if Ascii.eqb c "s" then [bytes [197; 191]%nat] else [].

Definition literal (s : string) : list (list string) := map fold_char (String.list_ascii_of_string s).

(** The pattern (?i)windows, a slash or a backslash, system32. *)
Definition wineSystemDir : list (list string) :=
  literal "windows" ++ [[bytes [92]%nat; "/"]] ++ literal "system32".
Definition wineSystemDirRe : string -> bool := find_pat wineSystemDir.

(** ** The rules *)

Definition plexReason : string := "plex".
Definition plexProcess : string := "Plex Transcoder".

Record rule := MkRule { reason : string; match_ : string -> bool }.

Definition gamingRules : list rule := [
  MkRule "gaming-steam" (fun c => Contains c "SteamLaunch AppId=");
  MkRule "gaming-lutris" lutrisRe;
  MkRule "gaming-heroic" heroicRe;
  MkRule "gaming-wine" (fun c => wineRe c && negb (Contains c "protonmail") && negb (Contains c "protonvpn")
                                 && negb (wineSystemDirRe c)) ].

Definition plexTranscoderRunning (procs : list Process) : bool :=
  existsb (fun p => Contains (Cmdline p) plexProcess) procs.

(** The checker's answer, when one is configured. *)
Definition plexIsRealSession (checker : option (result Proxy.error bool)) : bool :=
  match checker with
  | None => true
  | Some (Err _) => true
  | Some (Ok active) => active
  end.

(** The loop over the rules, and over the processes within each. *)
Fixpoint first_rule (rules : list rule) (procs : list Process) : option string :=
  match rules with
  | [] => None
  | r :: rules' => if existsb (fun p => match_ r (Cmdline p)) procs then Some (reason r) else first_rule rules' procs
  end.

(** [Detect]: the reason and the verdict, and the detection errors counted so
    far. *)
Definition Detect (list_ : result Proxy.error (list Process)) (checker : option (result Proxy.error bool)) (errs : nat)
  : (string * bool) * nat :=
  match list_ with
  | Err _ => (("", false), S errs)
  | Ok procs =>
      if plexTranscoderRunning procs && plexIsRealSession checker then ((plexReason, true), errs)
      else match first_rule gamingRules procs with
           | Some r => ((r, true), errs)
           | None => (("", false), errs)
           end
  end.

(** ** Plex *)

(** [ActiveSession], given the HTTP outcome and the decoding of the [size]
    attribute. *)
Definition ActiveSession (decode : string -> result Proxy.error Z) (http : result Proxy.error (Z * string))
  : result Proxy.error bool :=
  match http with
  | Err e => Err (OpenAICompat.wrap "plex: status/sessions: " e)
  | Ok (status, body) =>
      if negb (status =? 200)
      then Err (OpenAICompat.Errorf ("plex: status/sessions: status " +:+ Itoa status))
      else match decode body with
           | Err e => Err (OpenAICompat.wrap "plex: decode: " e)
           | Ok size => Ok (0 <? size)
           end
  end.

(** ** /proc *)

(** An entry of the directory, and the contents of its files. *)
Record dirent := DirEntry {
  name : string; is_dir : bool; cmdline : result Proxy.error string; comm : result Proxy.error string;
}.

(** [strings.ReplaceAll] of NULs by spaces. *)
Fixpoint replace_nuls (s : string) : string :=
  match s with
  | EmptyString => EmptyString
  | String c s' => String (if Ascii.eqb c (ascii_of_nat 0) then " "%char else c) (replace_nuls s')
  end.

Fixpoint read_procs (es : list dirent) : list Process :=
  match es with
  | [] => []
  | e :: es' =>
      if negb (is_dir e) then read_procs es'
      else match Atoi (name e) with
           | None => read_procs es'
           | Some _ =>
               match cmdline e with
               | Err _ => read_procs es'
               | Ok cmd =>
                   MkProcess (TrimSpace (match comm e with Ok s => s | Err _ => "" end)) (replace_nuls cmd)
                   :: read_procs es'
               end
           end
  end.

Definition ProcLister (goos : string) (dir : result Proxy.error (list dirent)) : result Proxy.error (list Process) :=
  if negb (String.eqb goos "linux") then Ok []
  else match dir with Err e => Err e | Ok es => Ok (read_procs es) end.

(** ** What the expressions mean *)

Definition no_newline (s : string) : Prop := newline ∉ String.list_ascii_of_string s.

(** [a.*b] matches somewhere in [s]. *)
Definition gap_in (a b s : string) : Prop :=
  exists x y z, s = x +:+ a +:+ y +:+ b +:+ z /\ no_newline y.

(** A text of the language of [pat]. *)
Fixpoint in_pat (pat : list (list string)) (w : string) : Prop :=
  match pat with
  | [] => w = ""
  | alts :: pat' => exists u v, u ∈ alts /\ in_pat pat' v /\ w = u +:+ v
  end.

Lemma HasPrefix_iff s p : HasPrefix s p = true <-> exists t, s = p +:+ t.
Proof.
  revert s. induction p as [|c p IH]; intros s; [by destruct s; split; eauto|].
  destruct s as [|d s]; simpl; [split; [done|by intros []]|].
  rewrite andb_true_iff, IH, Ascii.eqb_eq. split.
  - intros [-> [t ->]]. by exists t.
  - intros [t [= -> ->]]. eauto.
Qed.

Lemma drop_append p t : drop_bytes (String.length p) (p +:+ t) = t.
Proof. induction p as [|c p IH]; [by destruct t|exact IH]. Qed.

Lemma seek_iff b s : seek b s = true <-> exists y z, s = y +:+ b +:+ z /\ no_newline y.
Proof.
  induction s as [|c s IH]; cbn [seek]; rewrite orb_true_iff, HasPrefix_iff.
  - split.
    + intros [[t Ht]|]; [|done]. exists "", t. split; [done|]. by apply not_elem_of_nil.
    + intros ([|c y] & z & Hs & _); [left; by exists z|done].
  - rewrite andb_true_iff, negb_true_iff, Ascii.eqb_neq, IH. split.
    + intros [[t Ht]|[Hc (y & z & -> & Hy)]].
      * exists "", t. split; [done|]. by apply not_elem_of_nil.
      * exists (String c y), z. split; [done|]. by apply not_elem_of_cons.
    + intros ([|d y] & z & Hs & Hy); [left; by exists z|]. right. injection Hs as -> ->.
      apply not_elem_of_cons in Hy as [Hd Hy]. split; [done|]. by exists y, z.
Qed.

Lemma find_gap_iff a b s : find_gap a b s = true <-> gap_in a b s.
Proof.
  assert (forall s, HasPrefix s a && seek b (drop_bytes (String.length a) s) = true <->
    exists y z, s = a +:+ y +:+ b +:+ z /\ no_newline y) as Hhere.
  { intros s'. rewrite andb_true_iff, HasPrefix_iff, seek_iff. split.
    - intros [[t ->] (y & z & Ht & Hy)]. rewrite drop_append in Ht. subst t. by exists y, z.
    - intros (y & z & -> & Hy). rewrite drop_append. split; [by eexists|by exists y, z]. }
  induction s as [|c s IH]; cbn [find_gap]; rewrite orb_true_iff, Hhere.
  - split; [intros [(y & z & Hs & Hy)|]; [by exists "", y, z|done]|].
    intros ([|c x] & y & z & Hs & Hy); [left; by exists y, z|done].
  - rewrite IH. split.
    + intros [(y & z & Hs & Hy)|(x & y & z & -> & Hy)]; [by exists "", y, z|by exists (String c x), y, z].
    + intros ([|d x] & y & z & Hs & Hy); [left; by exists y, z|]. right. injection Hs as -> ->. by exists x, y, z.
Qed.

Lemma eat_iff pat s : eat pat s = true <-> exists w t, in_pat pat w /\ s = w +:+ t.
Proof.
  revert s. induction pat as [|alts pat IH]; intros s; simpl.
  - split; [by exists "", s|done].
  - rewrite existsb_exists. split.
    + intros (u & Hu%list_elem_of_In & [[r ->]%HasPrefix_iff Hr]%andb_true_iff). rewrite drop_append in Hr.
      apply IH in Hr as (v & t & Hv & ->). exists (u +:+ v), t. split; [by exists u, v|].
      by rewrite OpenAICompat.string_app_assoc.
    + intros (w & t & (u & v & Hu & Hv & ->) & ->). exists u. split; [by apply list_elem_of_In|].
      rewrite OpenAICompat.string_app_assoc, andb_true_iff, HasPrefix_iff, drop_append.
      split; [by eexists|]. apply IH. by exists v, t.
Qed.

Lemma find_pat_iff pat s : find_pat pat s = true <-> exists x w z, s = x +:+ w +:+ z /\ in_pat pat w.
Proof.
  induction s as [|c s IH]; cbn [find_pat]; rewrite orb_true_iff, eat_iff.
  - split; [intros [(w & t & Hw & Hs)|]; [by exists "", w, t|done]|].
    intros ([|c x] & w & z & Hs & Hw); [left; by exists w, z|done].
  - rewrite IH. split.
    + intros [(w & t & Hw & Hs)|(x & w & z & -> & Hw)]; [by exists "", w, t|by exists (String c x), w, z].
    + intros ([|d x] & w & z & Hs & Hw); [left; by exists w, z|]. right. injection Hs as -> ->. by exists x, w, z.
Qed.

Lemma Contains_iff s p : Contains s p = true <-> exists x z, s = x +:+ p +:+ z.
Proof.
  induction s as [|c s IH]; cbn [Contains]; rewrite orb_true_iff, HasPrefix_iff.
  - split; [intros [[t Ht]|]; [by exists "", t|done]|]. intros ([|c x] & z & Hs); [left; by exists z|done].
  - rewrite IH. split.
    + intros [[t Ht]|(x & z & ->)]; [by exists "", t|by exists (String c x), z].
    + intros ([|d x] & z & Hs); [left; by exists z|]. right. injection Hs as -> ->. by exists x, z.
Qed.

(** ** What the rules mean *)

Definition substring (p s : string) : Prop := exists x z, s = x +:+ p +:+ z.

(** One of Wine's own executables, in windows/system32 in any case. *)
Definition wine_runtime (cmd : string) : Prop := exists x w z, cmd = x +:+ w +:+ z /\ in_pat wineSystemDir w.

Definition gaming : list (string * (string -> Prop)) := [
  ("gaming-steam", substring "SteamLaunch AppId=");
  ("gaming-lutris", gap_in "lutris" "runner");
  ("gaming-heroic", gap_in "heroic" "game");
  ("gaming-wine", fun cmd => gap_in "wine" ".exe" cmd /\ ~ substring "protonmail" cmd /\
                             ~ substring "protonvpn" cmd /\ ~ wine_runtime cmd) ].

Lemma gamingRules_mean :
  Forall2 (fun r g => reason r = g.1 /\ forall cmd, match_ r cmd = true <-> g.2 cmd) gamingRules gaming.
Proof.
  repeat (apply Forall2_cons_2; [split; [done|]; intros cmd; simpl|]); [..|apply Forall2_nil_2].
  - apply Contains_iff.
  - apply find_gap_iff.
  - apply find_gap_iff.
  - unfold substring, wine_runtime. rewrite !andb_true_iff, !negb_true_iff, <- !not_true_iff_false.
    unfold wineRe, wineSystemDirRe. rewrite find_gap_iff, find_pat_iff, !Contains_iff. tauto.
Qed.

Definition running (P : string -> Prop) (procs : list Process) : Prop := exists p, p ∈ procs /\ P (Cmdline p).

(** The first reason that holds, and no contention if none does. *)
Fixpoint first_of (l : list (string * Prop)) (v : string * bool) : Prop :=
  match l with
  | [] => v = ("", false)
  | (r, P) :: l' => (P /\ v = (r, true)) \/ (~ P /\ first_of l' v)
  end.

Lemma running_iff (f : string -> bool) P procs :
  (forall cmd, f cmd = true <-> P cmd) -> existsb (fun p => f (Cmdline p)) procs = true <-> running P procs.
Proof.
  intros Hf. rewrite existsb_exists. unfold running.
  split.
  - intros (p & Hp%list_elem_of_In & Hm). exists p. split; [done|]. by apply Hf.
  - intros (p & Hp & Hm). exists p. split; [by apply list_elem_of_In|]. by apply Hf.
Qed.

Lemma first_rule_first_of rules gs procs :
  Forall2 (fun r g => reason r = g.1 /\ forall cmd, match_ r cmd = true <-> g.2 cmd) rules gs ->
  first_of (map (fun g => (g.1, running g.2 procs)) gs)
    (match first_rule rules procs with Some r => (r, true) | None => ("", false) end).
Proof.
  induction 1 as [|r g rules gs [Hr Hm] _ IH]; [done|]. simpl. pose proof (running_iff _ _ procs Hm) as H.
  destruct (existsb _ procs); [left|right].
  - split; [by apply H|]. by rewrite Hr.
  - split; [by intros ?%H|]. exact IH.
Qed.

(** ** Properties *)

(** C25: the verdict is the first reason that holds of the running processes,
    Plex first, then the gaming rules in their order, whatever the order of the
    processes; a Plex transcoder counts unless the session check answers that
    nothing plays, a failing check does not hide it; and when the processes
    cannot be listed there is no contention, and that is counted, exactly then. *)
Theorem detect_verdict list_ checker errs :
  let '(v, errs') := Detect list_ checker errs in
  match list_ with
  | Err _ => v = ("", false) /\ errs' = S errs
  | Ok procs =>
      first_of ((plexReason, running (substring plexProcess) procs /\ checker <> Some (Ok false))
                :: map (fun g => (g.1, running g.2 procs)) gaming) v /\ errs' = errs
  end.
Proof.
  unfold Detect. destruct list_ as [procs|e]; [|done].
  pose proof (running_iff (fun c => Contains c plexProcess) _ procs (fun cmd => Contains_iff cmd plexProcess)) as Hp.
  assert (plexIsRealSession checker = true <-> checker <> Some (Ok false)) as Hc.
  { destruct checker as [[[]|?]|]; simpl; split; congruence. }
  pose proof (first_rule_first_of _ _ procs gamingRules_mean) as Hg. unfold plexTranscoderRunning.
  destruct (existsb _ procs); simpl andb; cbn match; [destruct (plexIsRealSession checker)|].
  - split; [|done]. left. split; [|done]. split; [by apply Hp|by apply Hc].
  - destruct (first_rule _ _); (split; [|done]); (right; split; [by intros [_ ?%Hc]|exact Hg]).
  - destruct (first_rule _ _); (split; [|done]); (right; split; [by intros [?%Hp _]|exact Hg]).
Qed.

(** The processes of a Linux host: one for each directory whose name is a number
    and whose command line can be read, free of NULs; a failure to read the
    directory is an error, and elsewhere there is nothing to read. *)
Definition proc_of (e : dirent) : option Process :=
  match is_dir e, Atoi (name e), cmdline e with
  | true, Some _, Ok cmd => Some (MkProcess (TrimSpace (match comm e with Ok s => s | Err _ => "" end)) (replace_nuls cmd))
  | _, _, _ => None
  end.

Lemma replace_nuls_none s : ascii_of_nat 0 ∉ String.list_ascii_of_string (replace_nuls s).
Proof.
  induction s as [|c s IH]; simpl; [apply not_elem_of_nil|]. apply not_elem_of_cons. split; [|done].
  destruct (Ascii.eqb_spec c (ascii_of_nat 0)); [|congruence].
  intros H. vm_compute in H. discriminate.
Qed.

Theorem ProcLister_spec goos dir :
  match ProcLister goos dir with
  | Ok procs => (goos <> "linux" /\ procs = []) \/ (exists es, dir = Ok es /\ procs = omap proc_of es)
  | Err e => goos = "linux" /\ dir = Err e
  end /\
  forall procs p, ProcLister goos dir = Ok procs -> p ∈ procs -> ascii_of_nat 0 ∉ String.list_ascii_of_string (Cmdline p).
Proof.
  assert (forall es, read_procs es = omap proc_of es) as Hr.
  { induction es as [|e es IH]; [done|]. simpl. unfold proc_of at 1.
    destruct (is_dir e); simpl; [|done]. destruct (Atoi (name e)); [|done]. destruct (cmdline e); [|done]. by f_equal. }
  unfold ProcLister. destruct (String.eqb_spec goos "linux") as [->|Hos]; simpl.
  - destruct dir as [es|e]; simpl; [|done]. split; [right; exists es; by rewrite Hr|].
    intros procs p [= <-]. rewrite Hr. intros (x & _ & Hx)%list_elem_of_omap. unfold proc_of in Hx.
    destruct (is_dir x), (Atoi (name x)), (cmdline x); simplify_eq. apply replace_nuls_none.
  - split; [by left|]. intros procs p [= <-] []%not_elem_of_nil.
Qed.

(** A host that only runs Wine's own services and a Plex maintenance job does not
    yield. *)
Example maintenance_is_no_contention :
  Detect (Ok [MkProcess "winedevice.exe" (("/opt/wine/bin/wine C:" +:+ bytes [92]%nat) +:+ ("WINDOWS" +:+ bytes [92]%nat) +:+ "System32/winedevice.exe");
              MkProcess "Plex Transcoder" "/usr/lib/Plex Transcoder -codeca"])
    (Some (ActiveSession (fun _ => Ok 0) (Ok (200, "<MediaContainer/>")))) 0 = (("", false), 0%nat).
Proof. reflexivity. Qed.

Example game_is_contention :
  Detect (Ok [MkProcess "sh" "bash"; MkProcess "game.exe" "wine64 /games/game.exe"]) None 0 = (("gaming-wine", true), 0%nat).
Proof. reflexivity. Qed.

End Detect.
