(* ===== verification/Metrics.v ===== *)
(** * Counters and the Prometheus exposition (src/internal/metrics/metrics.go)

    The registry with its maps, [int64] counters and IEEE binary64 sums
    (SpecFloat), its recorder methods, and [write] as the list of the lines it
    prints: a HELP or TYPE comment, or a sample with its labels and value.  The
    rendering of a line as text (%q, %d, %g) is fmt's.

    Proved: after any sequence of recorder calls each counter is the number of
    its calls modulo 2^64; the page is well formed and does not depend on the
    order of Go's maps; and the gate's requests are all counted on it. *)

From S2P Require Import Prelude GoLib Park Scheduler Gate.
From stdpp Require Import sorting fin_maps.
From Stdlib Require Import Ascii SpecFloat.
#[local] Set Warnings "-clear-no-such-hyp,-level-tolerance".
Local Open Scope Z_scope.

Module Metrics.
Import GoLib.

(** ** float64 *)

Definition float64 : Type := spec_float.
Definition of_int (z : Z) : float64 := binary_normalize 53 1024 z 0 false.
Definition fadd (x y : float64) : float64 := SFadd 53 1024 x y.
Definition fdiv (x y : float64) : float64 := SFdiv 53 1024 x y.

(** [float64(d) / float64(time.Millisecond)] *)
Definition millis (d : Z) : float64 := fdiv (of_int d) (of_int Millisecond).

(** ** The registry *)

Record Registry := MkRegistry {
  counts : gmap string Z;
  waitSumMs : float64;
  waitCount : Z;
  parkWaitSumMs : float64;
  parkWaitCount : Z;
  jobCounts : gmap string Z;
  jobRunSumMs : float64;
  jobRunCount : Z;
  detectErrors : Z;
}.

Definition New : Registry := MkRegistry ∅ (S754_zero false) 0 (S754_zero false) 0 ∅ (S754_zero false) 0 0.

(** [m[k]++] on a map of [int64], and [n++]. *)
Definition succ (n : Z) : Z := wrap64 (n + 1).
Definition incr (k : string) (m : gmap string Z) : gmap string Z := <[k := succ (default 0 (m !! k))]> m.

Definition IncDetectError (r : Registry) : Registry :=
  MkRegistry (counts r) (waitSumMs r) (waitCount r) (parkWaitSumMs r) (parkWaitCount r) (jobCounts r)
    (jobRunSumMs r) (jobRunCount r) (succ (detectErrors r)).

Definition RecordJob (outcome : string) (run : Z) (r : Registry) : Registry :=
  let timed := String.eqb outcome "succeeded" || String.eqb outcome "failed" in
  MkRegistry (counts r) (waitSumMs r) (waitCount r) (parkWaitSumMs r) (parkWaitCount r) (incr outcome (jobCounts r))
    (if timed then fadd (jobRunSumMs r) (millis run) else jobRunSumMs r)
    (if timed then succ (jobRunCount r) else jobRunCount r) (detectErrors r).

Definition key (class outcome : string) : string := class +:+ "|" +:+ outcome.

Definition Record_ (class outcome : string) (wait : Z) (r : Registry) : Registry :=
  let served := String.eqb outcome "served" in
  MkRegistry (incr (key class outcome) (counts r))
    (if served then fadd (waitSumMs r) (millis wait) else waitSumMs r)
    (if served then succ (waitCount r) else waitCount r)
    (parkWaitSumMs r) (parkWaitCount r) (jobCounts r) (jobRunSumMs r) (jobRunCount r) (detectErrors r).

Definition RecordPark (wait : Z) (r : Registry) : Registry :=
  MkRegistry (counts r) (waitSumMs r) (waitCount r) (fadd (parkWaitSumMs r) (millis wait)) (succ (parkWaitCount r))
    (jobCounts r) (jobRunSumMs r) (jobRunCount r) (detectErrors r).

(** ** The exposition *)

Record Gauges := MkGauges {
  Yielding : bool; Busy : bool; Inflight : Z; MaxInflight : Z; Interactive : Z; Batch : Z; Parked : Z;
  JobQueued : Z; JobRunning : Z; JobSucceeded : Z; JobFailed : Z; JobCanceled : Z;
}.

Inductive value := Int (n : Z) | Float (f : float64).

Inductive line :=
| HELP (metric text : string)
| TYPE (metric kind : string)
| Sample (metric : string) (labels : list (string * string)) (v : value).

Definition b2i (b : bool) : Z := if b then 1 else 0.

Fixpoint splitKey (k : string) : string * string :=
  match k with
  | EmptyString => (EmptyString, EmptyString)
  | String c k' =>
      if Ascii.eqb c "|" then (EmptyString, k')
      else let '(class, outcome) := splitKey k' in (String c class, outcome)
  end.

(** The keys of a map in [sort.Strings]'s order. *)
Definition sorted_keys (m : gmap string Z) : list string := merge_sort String.le (map_to_list m).*1.

Definition request_sample (m : gmap string Z) (k : string) : line :=
  let '(class, outcome) := splitKey k in
  Sample "broker_requests_total" [("class", class); ("outcome", outcome)] (Int (default 0 (m !! k))).

Definition job_sample (m : gmap string Z) (k : string) : line :=
  Sample "broker_job_outcomes_total" [("outcome", k)] (Int (default 0 (m !! k))).

Definition metric (name help kind : string) (samples : list line) : list line :=
  HELP name help :: TYPE name kind :: samples.

Definition write (r : Registry) (g : Gauges) : list line :=
  let one name help kind v := metric name help kind [Sample name [] v] in
  let seconds f := Float (fdiv f (of_int 1000)) in
  metric "broker_requests_total" "Requests by class and outcome." "counter"
    (map (request_sample (counts r)) (sorted_keys (counts r)))
  ++ one "broker_wait_seconds_sum" "Total time served requests waited for the GPU slot." "counter" (seconds (waitSumMs r))
  ++ one "broker_wait_seconds_count" "Number of served requests." "counter" (Int (waitCount r))
  ++ one "broker_detect_errors_total" "Contention-detection polls that failed and reported no contention (fail-open). Nonzero means the yield feature may be blind." "counter" (Int (detectErrors r))
  ++ one "broker_yielding" "Whether the broker is currently yielding the GPU." "gauge" (Int (b2i (Yielding g)))
  ++ one "broker_busy" "Whether the single GPU slot is in use." "gauge" (Int (b2i (Busy g)))
  ++ one "broker_inflight" "In-flight requests reaching Ollama." "gauge" (Int (Inflight g))
  ++ one "broker_max_inflight" "Configured concurrency limit." "gauge" (Int (MaxInflight g))
  ++ metric "broker_queue_depth" "Waiters per class." "gauge"
       [Sample "broker_queue_depth" [("class", "interactive")] (Int (Interactive g));
        Sample "broker_queue_depth" [("class", "batch")] (Int (Batch g))]
  ++ one "broker_parked_depth" "Batch-class park depth; Interactive never parks." "gauge" (Int (Parked g))
  ++ one "broker_park_wait_seconds_sum" "Total time requests spent parked waiting for yield to end." "counter"
       (seconds (parkWaitSumMs r))
  ++ one "broker_park_wait_seconds_count" "Number of requests that were parked and eventually served." "counter"
       (Int (parkWaitCount r))
  ++ metric "broker_jobs" "Durable Jobs by state." "gauge"
       (map (fun sn => Sample "broker_jobs" [("state", sn.1)] (Int sn.2))
          [("queued", JobQueued g); ("running", JobRunning g); ("succeeded", JobSucceeded g);
           ("failed", JobFailed g); ("canceled", JobCanceled g)])
  ++ metric "broker_job_outcomes_total" "Terminal Job outcomes." "counter"
       (map (job_sample (jobCounts r)) (sorted_keys (jobCounts r)))
  ++ one "broker_job_run_seconds_sum" "Total time Jobs spent running to completion." "counter" (seconds (jobRunSumMs r))
  ++ one "broker_job_run_seconds_count" "Number of completed Job runs." "counter" (Int (jobRunCount r)).

(** ** Sequences of calls *)

Inductive call :=
| CRecord (class outcome : string) (wait : Z)
| CRecordPark (wait : Z)
| CRecordJob (outcome : string) (run : Z)
| CIncDetectError.

Definition apply (c : call) (r : Registry) : Registry :=
  match c with
  | CRecord class outcome wait => Record_ class outcome wait r
  | CRecordPark wait => RecordPark wait r
  | CRecordJob outcome run => RecordJob outcome run r
  | CIncDetectError => IncDetectError r
  end.

Definition run (tr : list call) : Registry := foldl (fun r c => apply c r) New tr.

(** What a request's handler records. *)
Definition recorded (acts : list Gate.act) : list call :=
  omap (fun a => match a with
                 | Gate.ARecord class outcome w => Some (CRecord class outcome w)
                 | Gate.ARecordPark w => Some (CRecordPark w)
                 | _ => None
                 end) acts.

(** ** Counting calls *)

Fixpoint tally (p : call -> bool) (tr : list call) : Z :=
  match tr with [] => 0 | c :: tr' => b2i (p c) + tally p tr' end.

Definition requests (class outcome : string) : call -> bool :=
  fun c => match c with CRecord cl o _ => String.eqb cl class && String.eqb o outcome | _ => false end.
Definition with_key (k : string) : call -> bool :=
  fun c => match c with CRecord cl o _ => String.eqb (key cl o) k | _ => false end.
Definition is_request (c : call) : bool := match c with CRecord _ _ _ => true | _ => false end.
Definition served (c : call) : bool := match c with CRecord _ o _ => String.eqb o "served" | _ => false end.
Definition parked (c : call) : bool := match c with CRecordPark _ => true | _ => false end.
Definition job (outcome : string) : call -> bool :=
  fun c => match c with CRecordJob o _ => String.eqb o outcome | _ => false end.
Definition timed (c : call) : bool :=
  match c with CRecordJob o _ => String.eqb o "succeeded" || String.eqb o "failed" | _ => false end.
Definition detect_error (c : call) : bool := match c with CIncDetectError => true | _ => false end.

Lemma tally_nonneg p tr : 0 <= tally p tr.
Proof. induction tr as [|c tr IH]; simpl; [done|]. unfold b2i. destruct (p c); lia. Qed.

Lemma tally_snoc p tr c : tally p (tr ++ [c]) = tally p tr + b2i (p c).
Proof. induction tr as [|d tr IH]; simpl; lia. Qed.

Lemma tally_app p tr tr' : tally p (tr ++ tr') = tally p tr + tally p tr'.
Proof. induction tr as [|d tr IH]; simpl; lia. Qed.

Lemma tally_ext p q tr : Forall (fun c => p c = q c) tr -> tally p tr = tally q tr.
Proof. induction 1 as [|c tr E _ IH]; simpl; [done|]. by rewrite E, IH. Qed.

(** A counter of [int64] after [n] increments, and its entry in a map. *)
Definition entry (n : Z) : option Z := if n =? 0 then None else Some (wrap64 n).

Lemma succ_wrap n : succ (wrap64 n) = wrap64 (n + 1).
Proof. apply wrap64_add. Qed.

Lemma incr_entry k m n : 0 <= n -> m !! k = entry n -> incr k m !! k = entry (n + 1).
Proof.
  intros Hn Hm. unfold incr. rewrite lookup_insert_eq, Hm. unfold entry.
  rewrite (proj2 (Z.eqb_neq (n + 1) 0)) by lia. f_equal. destruct (Z.eqb_spec n 0) as [->|]; [done|apply succ_wrap].
Qed.

Lemma incr_other k k' m : k <> k' -> incr k m !! k' = m !! k'.
Proof. apply lookup_insert_ne. Qed.

Lemma run_snoc tr c : run (tr ++ [c]) = apply c (run tr).
Proof. unfold run. by rewrite foldl_app. Qed.

Lemma entry_step b k k' m n : 0 <= n -> m !! k' = entry n -> b = String.eqb k k' ->
  incr k m !! k' = entry (n + b2i b).
Proof.
  intros Hn Hm ->. destruct (String.eqb_spec k k') as [->|]; simpl; [by apply incr_entry|].
  rewrite Z.add_0_r. by rewrite incr_other.
Qed.

Lemma counter_step (b : bool) n z : z = wrap64 n -> (if b then succ z else z) = wrap64 (n + b2i b).
Proof. intros ->. destruct b; simpl; [apply succ_wrap|by rewrite Z.add_0_r]. Qed.

(** Every counter is the number of its calls. *)
Record counted (tr : list call) (r : Registry) : Prop := {
  cd_requests : forall k, counts r !! k = entry (tally (with_key k) tr);
  cd_jobs : forall o, jobCounts r !! o = entry (tally (job o) tr);
  cd_served : waitCount r = wrap64 (tally served tr);
  cd_parked : parkWaitCount r = wrap64 (tally parked tr);
  cd_timed : jobRunCount r = wrap64 (tally timed tr);
  cd_detect : detectErrors r = wrap64 (tally detect_error tr);
}.

Lemma run_counted tr : counted tr (run tr).
Proof.
  induction tr as [|c tr IH] using rev_ind; [by split|]. destruct IH as [H1 H2 H3 H4 H5 H6]. rewrite run_snoc.
  assert (forall p, p c = false -> tally p (tr ++ [c]) = tally p tr) as Hno.
  { intros p Hp. rewrite tally_snoc, Hp. simpl. lia. }
  split; intros; destruct c; simpl; rewrite ?Hno by done; auto; rewrite tally_snoc; simpl;
    try (apply entry_step; [apply tally_nonneg|done|done]); try (apply counter_step; done);
    by apply (counter_step true).
Qed.

(** ** Keys *)

Definition no_bar (s : string) : Prop := "|"%char ∉ String.list_ascii_of_string s.

Lemma splitKey_key class outcome : no_bar class -> splitKey (key class outcome) = (class, outcome).
Proof.
  unfold no_bar, key. induction class as [|c class IH]; simpl; [done|].
  intros [Hc H]%not_elem_of_cons. change ((String c class +:+ "|" +:+ outcome)) with (String c (class +:+ "|" +:+ outcome)).
  simpl. destruct (Ascii.eqb_spec c "|"); [congruence|]. by rewrite IH.
Qed.

(** A key is its parts joined again. *)
Definition barred (k : string) : Prop := key (splitKey k).1 (splitKey k).2 = k.

Lemma key_barred class outcome : barred (key class outcome).
Proof.
  unfold barred, key. induction class as [|c class IH]; [done|].
  change ((String c class +:+ "|" +:+ outcome)) with (String c (class +:+ "|" +:+ outcome)). simpl.
  destruct (Ascii.eqb_spec c "|") as [->|]; [done|]. destruct (splitKey _) as [cl o]. simpl in *.
  change (String c cl +:+ "|" +:+ o) with (String c (cl +:+ "|" +:+ o)). by rewrite IH.
Qed.

Lemma run_keys_barred tr k : is_Some (counts (run tr) !! k) -> barred k.
Proof.
  rewrite (cd_requests _ _ (run_counted tr)). unfold entry.
  destruct (Z.eqb_spec (tally (with_key k) tr) 0) as [|Hn]; [by intros []|]. intros _.
  induction tr as [|c tr IH]; simpl in *; [done|]. destruct (with_key k c) eqn:E; [|by apply IH].
  destruct c; try done. apply String.eqb_eq in E as <-. apply key_barred.
Qed.

(** *** Go's map order *)

Lemma sort_any_order (m : gmap string Z) ks : ks ≡ₚ (map_to_list m).*1 -> merge_sort String.le ks = sorted_keys m.
Proof.
  intros Hp. apply (StronglySorted_unique String.le).
  - apply StronglySorted_merge_sort; apply _.
  - apply StronglySorted_merge_sort; apply _.
  - unfold sorted_keys. by rewrite !merge_sort_Permutation.
Qed.

Lemma elem_of_sorted_keys m k : k ∈ sorted_keys m <-> is_Some (m !! k).
Proof.
  unfold sorted_keys. rewrite merge_sort_Permutation, list_elem_of_fmap. split.
  - intros ([k' v] & -> & Hv%elem_of_map_to_list). by exists v.
  - intros [v Hv%elem_of_map_to_list]. by exists (k, v).
Qed.

Lemma NoDup_sorted_keys m : NoDup (sorted_keys m).
Proof. unfold sorted_keys. rewrite merge_sort_Permutation. apply NoDup_fst_map_to_list. Qed.

(** ** The shape of the page

    A page is a sequence of metrics, each declared once, with the samples of its
    name, no two of the same labels. *)

Definition sample_of (name : string) (l : line) : Prop := match l with Sample m _ _ => m = name | _ => False end.
Definition labels_of (l : line) : list (string * string) := match l with Sample _ ls _ => ls | _ => [] end.

Record block := Block { b_name : string; b_help : string; b_kind : string; b_samples : list line }.

Definition lines_of (b : block) : list line := metric (b_name b) (b_help b) (b_kind b) (b_samples b).

Definition block_ok (b : block) : Prop :=
  Forall (sample_of (b_name b)) (b_samples b) /\ NoDup (map labels_of (b_samples b)).

Definition page (ls : list line) : Prop :=
  exists bs, ls = concat (map lines_of bs) /\ NoDup (map b_name bs) /\ Forall block_ok bs.

Lemma one_sample_ok name help kind v : block_ok (Block name help kind [Sample name [] v]).
Proof. split; repeat constructor. by apply not_elem_of_nil. Qed.

Lemma keyed_block_ok name help kind (f : string -> line) ks :
  (forall k, sample_of name (f k)) ->
  (forall k k', k ∈ ks -> k' ∈ ks -> labels_of (f k) = labels_of (f k') -> k = k') ->
  NoDup ks -> block_ok (Block name help kind (map f ks)).
Proof.
  intros Hs Hinj Hnd. split; simpl.
  - apply Forall_fmap, Forall_forall. intros k _. apply Hs.
  - rewrite map_map. induction Hnd as [|k ks Hk _ IH]; simpl; constructor.
    + intros (k' & Hl & Hk')%list_elem_of_fmap. rewrite (Hinj k k') in Hk; [done|by left|by right|done].
    + apply IH. intros ? ? ? ?. apply Hinj; by right.
Qed.

Lemma request_block_ok tr name help kind : name = "broker_requests_total" ->
  block_ok (Block name help kind (map (request_sample (counts (run tr))) (sorted_keys (counts (run tr))))).
Proof.
  intros ->. apply keyed_block_ok; [..|apply NoDup_sorted_keys].
  - intros k. unfold request_sample. by destruct (splitKey k).
  - intros k k' Hk%elem_of_sorted_keys%run_keys_barred Hk'%elem_of_sorted_keys%run_keys_barred. unfold request_sample.
    unfold barred in *. destruct (splitKey k), (splitKey k'). simpl in *. congruence.
Qed.

Definition blocks (r : Registry) (g : Gauges) : list block :=
  let one name help kind v := Block name help kind [Sample name [] v] in
  let seconds f := Float (fdiv f (of_int 1000)) in
  [ Block "broker_requests_total" "Requests by class and outcome." "counter"
     (map (request_sample (counts r)) (sorted_keys (counts r)));
    one "broker_wait_seconds_sum"
     "Total time served requests waited for the GPU slot." "counter"
     (seconds (waitSumMs r));
    one "broker_wait_seconds_count"
     "Number of served requests." "counter"
     (Int (waitCount r));
    one "broker_detect_errors_total"
     "Contention-detection polls that failed and reported no contention (fail-open). Nonzero means the yield feature may be blind." "counter"
     (Int (detectErrors r));
    one "broker_yielding"
     "Whether the broker is currently yielding the GPU." "gauge"
     (Int (b2i (Yielding g)));
    one "broker_busy"
     "Whether the single GPU slot is in use." "gauge"
     (Int (b2i (Busy g)));
    one "broker_inflight"
     "In-flight requests reaching Ollama." "gauge"
     (Int (Inflight g));
    one "broker_max_inflight"
     "Configured concurrency limit." "gauge"
     (Int (MaxInflight g));
    Block "broker_queue_depth" "Waiters per class." "gauge"
     [Sample "broker_queue_depth" [("class", "interactive")] (Int (Interactive g));
        Sample "broker_queue_depth" [("class", "batch")] (Int (Batch g))];
    one "broker_parked_depth"
     "Batch-class park depth; Interactive never parks." "gauge"
     (Int (Parked g));
    one "broker_park_wait_seconds_sum"
     "Total time requests spent parked waiting for yield to end." "counter"
     (seconds (parkWaitSumMs r));
    one "broker_park_wait_seconds_count"
     "Number of requests that were parked and eventually served." "counter"
     (Int (parkWaitCount r));
    Block "broker_jobs" "Durable Jobs by state." "gauge"
     (map (fun sn => Sample "broker_jobs" [("state", sn.1)] (Int sn.2))
          [("queued", JobQueued g); ("running", JobRunning g); ("succeeded", JobSucceeded g);
           ("failed", JobFailed g); ("canceled", JobCanceled g)]);
    Block "broker_job_outcomes_total" "Terminal Job outcomes." "counter"
     (map (job_sample (jobCounts r)) (sorted_keys (jobCounts r)));
    one "broker_job_run_seconds_sum"
     "Total time Jobs spent running to completion." "counter"
     (seconds (jobRunSumMs r));
    one "broker_job_run_seconds_count"
     "Number of completed Job runs." "counter"
     (Int (jobRunCount r)) ].

Lemma write_blocks r g : write r g = concat (map lines_of (blocks r g)).
Proof. reflexivity. Qed.

Lemma blocks_ok tr g : Forall block_ok (blocks (run tr) g).
Proof.
  repeat apply Forall_cons_2; try apply Forall_nil_2; try apply one_sample_ok.
  - by apply request_block_ok.
  - split; [by repeat constructor|]. simpl. by refine (bool_decide_unpack _ _).
  - split; [by repeat constructor|]. simpl. by refine (bool_decide_unpack _ _).
  - apply keyed_block_ok; [done| |apply NoDup_sorted_keys]. simpl. congruence.
Qed.

Lemma blocks_names r g : NoDup (map b_name (blocks r g)).
Proof. change (map b_name (blocks r g)) with (map b_name (blocks New (MkGauges false false 0 0 0 0 0 0 0 0 0 0))).
  simpl. by refine (bool_decide_unpack _ _).
Qed.

(** *** The samples of one name *)

(** In a page, the samples of a name are those of its block. *)
Lemma block_sample bs b l : NoDup (map b_name bs) -> Forall block_ok bs -> b ∈ bs -> sample_of (b_name b) l ->
  l ∈ concat (map lines_of bs) <-> l ∈ b_samples b.
Proof.
  intros Hnd Hok Hb Hl. rewrite list_elem_of_In, in_concat. rewrite Forall_forall in Hok. split.
  - intros (ls & (b' & <- & Hb'%list_elem_of_In)%in_map_iff & Hin%list_elem_of_In).
    unfold lines_of, metric in Hin. rewrite !elem_of_cons in Hin. destruct Hin as [->|[->|Hin]]; [done..|].
    assert (b' = b) as ->; [|done].
    destruct (Hok _ Hb') as [Hs _]. rewrite Forall_forall in Hs. specialize (Hs _ Hin). destruct l; try done. simpl in *.
    apply (NoDup_map_inj b_name bs); congruence.
  - intros Hin. exists (lines_of b). split; [by apply in_map, list_elem_of_In|]. apply list_elem_of_In.
    unfold lines_of, metric. rewrite !elem_of_cons. auto.
Qed.

Lemma request_line tr g class outcome v :
  Forall (fun c => match c with CRecord cl _ _ => no_bar cl | _ => True end) tr -> no_bar class ->
  Sample "broker_requests_total" [("class", class); ("outcome", outcome)] (Int v) ∈ write (run tr) g <->
  entry (tally (requests class outcome) tr) = Some v.
Proof.
  intros Htr Hc. rewrite write_blocks.
  rewrite (block_sample _ (Block "broker_requests_total" "Requests by class and outcome." "counter"
    (map (request_sample (counts (run tr))) (sorted_keys (counts (run tr))))));
    [|apply blocks_names|apply blocks_ok|by left|done].
  simpl. rewrite list_elem_of_fmap. setoid_rewrite elem_of_sorted_keys.
  rewrite <- (tally_ext (with_key (key class outcome))), <- (cd_requests _ _ (run_counted tr)).
  - unfold request_sample. split.
    + intros (k & Hk & [n Hn]). pose proof (run_keys_barred tr k ltac:(by exists n)) as Hb. unfold barred in Hb.
      destruct (splitKey k) as [cl o]. simpl in *. injection Hk as -> -> ->. subst k. by rewrite Hn.
    + intros Hv. exists (key class outcome). rewrite splitKey_key by done. rewrite Hv. split; [done|]. by exists v.
  - eapply Forall_impl; [exact Htr|]. intros c Hbar. destruct c as [cl o w| | |]; try done. simpl.
    destruct (String.eqb_spec (key cl o) (key class outcome)) as [E|E].
    + apply (f_equal splitKey) in E. rewrite !splitKey_key in E by done. injection E as -> ->. by rewrite !String.eqb_refl.
    + destruct (String.eqb_spec cl class) as [->|]; [|done]. destruct (String.eqb_spec o outcome) as [->|]; done.
Qed.

(** ** The total of a map of counters *)

Definition total (m : gmap string Z) : Z := map_fold (fun _ v acc => v + acc) 0 m.

Lemma total_insert m k v : m !! k = None -> total (<[k := v]> m) = v + total m.
Proof. intros Hk. unfold total. rewrite map_fold_insert_L; [done|intros; lia|done]. Qed.

Lemma total_incr m k : (forall k v, m !! k = Some v -> 0 <= v <= total m) -> 0 <= total m < maxInt64 ->
  total (incr k m) = total m + 1 /\ forall k' v, incr k m !! k' = Some v -> 0 <= v <= total (incr k m).
Proof.
  intros Hb Ht.
  assert (0 <= default 0 (m !! k) <= total m) as Hd by (destruct (m !! k) eqn:E; simpl; [by eapply Hb|lia]).
  assert (total (incr k m) = total m + 1) as E.
  { unfold incr, succ. rewrite wrap64_id by (unfold minInt64, maxInt64 in *; lia). destruct (m !! k) as [n|] eqn:E.
    - rewrite <- (insert_delete_id m k n E) at 2. rewrite <- (insert_delete_eq m).
      rewrite !total_insert by apply lookup_delete_eq. simpl. lia.
    - rewrite total_insert by done. simpl. lia. }
  split; [done|]. intros k' v. rewrite E. unfold incr. intros [[<- <-]|[Hk Hv]]%lookup_insert_Some.
  - unfold succ. rewrite wrap64_id by (unfold minInt64, maxInt64 in *; lia). lia.
  - apply Hb in Hv. lia.
Qed.

Lemma total_run tr : tally is_request tr <= maxInt64 ->
  total (counts (run tr)) = tally is_request tr /\
  forall k v, counts (run tr) !! k = Some v -> 0 <= v <= total (counts (run tr)).
Proof.
  induction tr as [|c tr IH] using rev_ind; [done|]. rewrite tally_snoc, run_snoc. intros Hm.
  pose proof (tally_nonneg is_request tr) as Hn. destruct IH as [H1 H2]; [unfold b2i in Hm; destruct (is_request c); lia|].
  destruct c; simpl in *; try (rewrite Z.add_0_r; by split).
  rewrite <- H1 in *. apply total_incr; [exact H2|lia].
Qed.

Lemma tally_recorded acts : tally is_request (recorded acts) = Z.of_nat (length (Gate.outcomes acts)).
Proof.
  induction acts as [|a acts IH]; [done|]. destruct a; try exact IH.
  change (1 + tally is_request (recorded acts) = Z.of_nat (S (length (Gate.outcomes acts)))). lia.
Qed.

(** ** Properties *)

(** The page shows what was recorded: for every class and outcome, the
    [broker_requests_total] sample is present exactly when such a call was made
    and its value is the number of those calls modulo 2^64; so are the other
    counters, the served, parked and completed-run counts and the detection
    errors. *)
Theorem metrics_count_calls tr g :
  Forall (fun c => match c with CRecord class _ _ => no_bar class | _ => True end) tr ->
  (forall class outcome v, no_bar class ->
     Sample "broker_requests_total" [("class", class); ("outcome", outcome)] (Int v) ∈ write (run tr) g <->
     tally (requests class outcome) tr <> 0 /\ v = wrap64 (tally (requests class outcome) tr)) /\
  waitCount (run tr) = wrap64 (tally served tr) /\ parkWaitCount (run tr) = wrap64 (tally parked tr) /\
  jobRunCount (run tr) = wrap64 (tally timed tr) /\ detectErrors (run tr) = wrap64 (tally detect_error tr) /\
  forall outcome, default 0 (jobCounts (run tr) !! outcome) = wrap64 (tally (job outcome) tr).
Proof.
  intros Htr. destruct (run_counted tr) as [_ H2 H3 H4 H5 H6]. split; [|split; [done|]; split; [done|]; split; [done|]; split; [done|]].
  - intros class outcome v Hc. rewrite request_line by done. unfold entry.
    destruct (Z.eqb_spec (tally (requests class outcome) tr) 0); naive_solver.
  - intros outcome. rewrite H2. unfold entry. by destruct (Z.eqb_spec (tally (job outcome) tr) 0) as [->|].
Qed.

(** C37: the page is well formed whatever was recorded, empty registry included:
    each metric is declared once, followed by its own samples only, no two of the
    same labels; and it does not depend on the order in which Go visits the
    counters' maps. *)
Theorem exposition_well_formed tr g :
  page (write (run tr) g) /\
  forall ks js, ks ≡ₚ (map_to_list (counts (run tr))).*1 -> js ≡ₚ (map_to_list (jobCounts (run tr))).*1 ->
    merge_sort String.le ks = sorted_keys (counts (run tr)) /\ merge_sort String.le js = sorted_keys (jobCounts (run tr)).
Proof.
  split; [|by intros; split; apply sort_any_order]. exists (blocks (run tr) g).
  split; [apply write_blocks|]. split; [apply blocks_names|apply blocks_ok].
Qed.

(** A request at the gate: its scheduler's parking state, the gate's
    configuration, what it observes and its upstream. *)
Definition request : Type := Scheduler.sched * Gate.config * list Gate.lap * Gate.upstream.
Definition handled (q : request) : list Gate.act * Gate.admission :=
  let '(s, c, laps, u) := q in Gate.handle s c laps u.
Definition finished (q : request) : bool :=
  match (handled q).2 with
  | Gate.Blocked => false
  | Gate.Refused => true
  | Gate.SlotHeld _ _ _ => negb (Gate.panics q.2)
  end.

(** No request is lost or counted twice on the way to the metrics page: after
    any requests through gates that record, the counters of
    [broker_requests_total] add up to the number of those that ended (refused,
    or served without a panic). *)
Theorem requests_all_counted (reqs : list request) :
  Forall (fun q => Gate.rec q.1.1.2 = true) reqs -> Z.of_nat (length reqs) <= maxInt64 ->
  total (counts (run (concat (map (fun q => recorded (handled q).1) reqs)))) =
  Z.of_nat (length (List.filter finished reqs)).
Proof.
  intros Hrec Hlen.
  assert (forall qs, Forall (fun q => Gate.rec q.1.1.2 = true) qs ->
    tally is_request (concat (map (fun q => recorded (handled q).1) qs)) = Z.of_nat (length (List.filter finished qs)))
    as Htally.
  { induction 1 as [|[[[s c] laps] u] qs Hq _ IH]; [done|]. cbn [map concat List.filter].
    rewrite tally_app, tally_recorded, IH. pose proof (Gate.outcomes_count s c laps u Hq) as Hn.
    unfold finished, handled. simpl. rewrite Hn. destruct (Gate.handle s c laps u).2; simpl; [lia| |lia].
    destruct (Gate.panics u); simpl; lia. }
  rewrite <- Htally by done. apply total_run. rewrite Htally by done.
  pose proof (List.filter_length_le finished reqs). lia.
Qed.

(** ** Witnesses *)

Definition demo_gauges : Gauges := MkGauges false true 1 1 0 2 3 0 1 4 0 0.
Definition demo_calls : list call :=
  [CRecord "batch" "served" 1500000; CRecord "interactive" "served" 250000; CRecord "batch" "deferred" 0;
   CRecord "batch" "served" 500000; CRecordJob "succeeded" 2000000000; CIncDetectError].

Lemma metrics_count_calls_witness :
  Sample "broker_requests_total" [("class", "batch"); ("outcome", "served")] (Int 2) ∈ write (run demo_calls) demo_gauges.
Proof.
  apply (proj1 (metrics_count_calls demo_calls demo_gauges
    ltac:(repeat apply Forall_cons_2; try apply Forall_nil_2; try exact I; by refine (bool_decide_unpack _ _)))).
  - by refine (bool_decide_unpack _ _).
  - vm_compute. by split.
Defined.

Lemma requests_all_counted_witness :
  total (counts (run (recorded (handled (Gate.demo_sched, Gate.demo_config Scheduler.Batch,
    [Gate.yield_lap Park.parkExpired], Gate.demo_up)).1
    ++ recorded (handled (Gate.demo_sched, Gate.demo_config Scheduler.Interactive, [Gate.clear_lap], Gate.demo_up)).1
    ++ []))) = 2.
Proof.
  apply (requests_all_counted [(Gate.demo_sched, Gate.demo_config Scheduler.Batch, [Gate.yield_lap Park.parkExpired], Gate.demo_up);
    (Gate.demo_sched, Gate.demo_config Scheduler.Interactive, [Gate.clear_lap], Gate.demo_up)]).
  - by repeat constructor.
  - vm_compute. discriminate.
Defined.

Example demo_wait_seconds : waitSumMs (run demo_calls) = millis 2250000.
Proof. vm_compute. reflexivity. Qed.

End Metrics.
