(* ===== verification/Net.v ===== *)
(** * Network addresses, as Go's net and net/netip packages read them

    [SplitHostPort], [ParseIP] (IPv4 in dotted decimal, IPv6 with an ellipsis and
    an embedded IPv4 tail, no zone) and [IP.IsLoopback], which the control plane's
    authorisation rests on.

    Proved: the addresses net/http reports for IPv4 peers are read back, and
    exactly those of 127.0.0.0/8 are loopback. *)

From S2P Require Import Prelude GoLib Json.
From Stdlib Require Import Ascii.
#[local] Set Warnings "-clear-no-such-hyp,-level-tolerance".
Local Open Scope Z_scope.

Module Net.
Import GoLib.

(** ** Positions of bytes *)

Fixpoint index_byte (c : ascii) (s : string) : option nat :=
  match s with
  | EmptyString => None
  | String d s' => if Ascii.eqb c d then Some O else match index_byte c s' with Some n => Some (S n) | None => None end
  end.

Fixpoint last_index_byte (c : ascii) (s : string) : option nat :=
  match s with
  | EmptyString => None
  | String d s' =>
      match last_index_byte c s' with
      | Some n => Some (S n)
      | None => if Ascii.eqb c d then Some O else None
      end
  end.

Fixpoint take_bytes (n : nat) (s : string) : string :=
  match n, s with S n', String c s' => String c (take_bytes n' s') | _, _ => EmptyString end.

Definition has_byte (c : ascii) (s : string) : bool := char_in c s.

(** ** net.SplitHostPort *)

Definition SplitHostPort (hostport : string) : option (string * string) :=
  match last_index_byte ":" hostport with
  | None => None
  | Some i =>
      let split host j k :=
        if has_byte "[" (drop_bytes j hostport) || has_byte "]" (drop_bytes k hostport) then None
        else Some (host, drop_bytes (S i) hostport) in
      if HasPrefix hostport "[" then
        match index_byte "]" hostport with
        | None => None
        | Some e => if (S e =? i)%nat then split (take_bytes (e - 1) (drop_bytes 1 hostport)) 1%nat (S e) else None
        end
      else
        let host := take_bytes i hostport in
        if has_byte ":" host then None else split host O O
  end.

(** ** net.ParseIP *)

(** A field of an IPv4 address: digits without a leading zero, at most 255. *)
Definition parse_octet (f : string) : option Z :=
  match f with
  | EmptyString => None
  | String "0"%char (String _ _) => None
  | _ => match digits f 0 with Some n => if n <=? 255 then Some n else None | None => None end
  end.

Definition parseIPv4 (s : string) : option (list Z) :=
  match Split "." s with
  | [a; b; c; d] => mapM parse_octet [a; b; c; d]
  | _ => None
  end.

(** A group of hexadecimal digits: how many, their value and the rest; more than
    four are an error. *)
Fixpoint hex_group (n : nat) (acc : Z) (s : string) : option (nat * Z * string) :=
  match s with
  | EmptyString => Some (n, acc, s)
  | String c s' =>
      match Json.hex c with
      | Some d => if (4 <=? n)%nat then None else hex_group (S n) (acc * 16 + d) s'
      | None => Some (n, acc, s)
      end
  end.

(** The groups of an IPv6 address: the bytes read, the position of the ellipsis
    and what is left; [fuel] is the number of groups that still fit. *)
Fixpoint v6_groups (fuel : nat) (ip : list Z) (ellipsis : option nat) (s : string)
  : option (list Z * option nat * string) :=
  match fuel with
  | O => Some (ip, ellipsis, s)
  | S fuel' =>
      match hex_group 0 0 s with
      | None => None
      | Some (n, acc, rest) =>
          if (n =? 0)%nat then None
          else
            match rest with
            | String "."%char _ =>
                if (match ellipsis with None => negb (length ip =? 12)%nat | Some _ => false end)
                   || (16 <? length ip + 4)%nat then None
                else match parseIPv4 s with Some q => Some (ip ++ q, ellipsis, EmptyString) | None => None end
            | _ =>
                let ip := ip ++ [acc / 256; acc mod 256] in
                match rest with
                | EmptyString => Some (ip, ellipsis, EmptyString)
                | String ":"%char EmptyString => None
                | String ":"%char (String c s' as rest') =>
                    if Ascii.eqb c ":" then
                      match ellipsis with
                      | Some _ => None
                      | None =>
                          match s' with
                          | EmptyString => Some (ip, Some (length ip), EmptyString)
                          | _ => v6_groups fuel' ip (Some (length ip)) s'
                          end
                      end
                    else v6_groups fuel' ip ellipsis rest'
                | _ => None
                end
            end
      end
  end.

Definition zeros (n : nat) : list Z := replicate n 0.

Definition parseIPv6 (s : string) : option (list Z) :=
  let '(ellipsis, s) := if HasPrefix s "::" then (Some O, drop_bytes 2 s) else (None, s) in
  match ellipsis, s with
  | Some _, EmptyString => Some (zeros 16)
  | _, _ =>
      match v6_groups 8 [] ellipsis s with
      | Some (ip, ellipsis, EmptyString) =>
          if (length ip <? 16)%nat then
            match ellipsis with
            | None => None
            | Some e => Some (take e ip ++ zeros (16 - length ip) ++ drop e ip)
            end
          else match ellipsis with Some _ => None | None => Some ip end
      | _ => None
      end
  end.

(** The 16 bytes of an address. *)
Definition v4_in_v6 (q : list Z) : list Z := zeros 10 ++ [255; 255] ++ q.

Fixpoint first_separator (s : string) : option ascii :=
  match s with
  | EmptyString => None
  | String c s' => if char_in c ".:%" then Some c else first_separator s'
  end.

Definition ParseIP (s : string) : option (list Z) :=
  if has_byte "%" s then None
  else match first_separator s with
       | Some "."%char => match parseIPv4 s with Some q => Some (v4_in_v6 q) | None => None end
       | Some ":"%char => parseIPv6 s
       | _ => None
       end.

Definition IsLoopback (ip : list Z) : bool :=
  if bool_decide (take 12 ip = zeros 10 ++ [255; 255]) then default 0 (ip !! 12%nat) =? 127
  else bool_decide (ip = zeros 15 ++ [1]).

Example ParseIP_ex : map ParseIP ["127.0.0.1"; "::1"; "2001:db8::8:800:200c:417a"; "::ffff:127.0.0.5"; "1:2:3:4:5:6:7:8"] =
  [Some (v4_in_v6 [127; 0; 0; 1]); Some (zeros 15 ++ [1]);
   Some [32; 1; 13; 184; 0; 0; 0; 0; 0; 8; 8; 0; 32; 12; 65; 122];
   Some (v4_in_v6 [127; 0; 0; 5]); Some [0; 1; 0; 2; 0; 3; 0; 4; 0; 5; 0; 6; 0; 7; 0; 8]].
Proof. vm_compute. reflexivity. Qed.

Example ParseIP_rejects : map ParseIP [""; "localhost"; "127.1"; "01.2.3.4"; "1.2.3.256"; "1::2::3"; ":1"; "::1%lo"; "12345::"; "1:2:3:4:5:6:7:8:9"; "1:2:3:4:5:6:7::8"; "1:"; "1.2.3.4:5"]
  = replicate 13 None.
Proof. vm_compute. reflexivity. Qed.

(** ** IPv4 peers *)

(** The text net/http reports for an IPv4 peer. *)
Definition dotted (a b c d : Z) : string := Itoa a +:+ "." +:+ Itoa b +:+ "." +:+ Itoa c +:+ "." +:+ Itoa d.

(** A text of digits only. *)
Fixpoint all_digits (s : string) : bool :=
  match s with EmptyString => true | String c s' => match digit c with Some _ => all_digits s' | None => false end end.

Definition octets : list Z := seqZ 0 256.

Lemma octet_in n : 0 <= n < 256 -> n ∈ octets.
Proof. intros H. apply elem_of_seqZ. lia. Qed.

(** The 256 octets, by computation. *)
Lemma octets_read : Forall (fun n => parse_octet (Itoa n) = Some n /\ all_digits (Itoa n) = true) octets.
Proof. apply Forall_forall. intros n. revert n. apply Forall_forall. by refine (bool_decide_unpack _ _). Qed.

Lemma octet_spec n : 0 <= n < 256 -> parse_octet (Itoa n) = Some n /\ all_digits (Itoa n) = true.
Proof. intros H. pose proof octets_read as Ho. rewrite Forall_forall in Ho. by apply Ho, octet_in. Qed.

(** A byte that is not a digit is none of a text of digits. *)
Lemma digits_lack c s : digit c = None -> all_digits s = true -> char_in c s = false.
Proof.
  intros Hc. unfold char_in. induction s as [|d s IH]; simpl; [done|]. destruct (digit d) eqn:Hd; [|done].
  intros H. destruct (Ascii.eqb_spec c d); [congruence|]. by apply IH.
Qed.

Lemma char_in_app c s t : char_in c (s +:+ t) = char_in c s || char_in c t.
Proof.
  unfold char_in. induction s as [|d s IH]; [done|]. change (String d s +:+ t) with (String d (s +:+ t)). simpl.
  by rewrite IH, orb_assoc.
Qed.

Lemma Split_cons sep s t : char_in sep s = false -> Split sep (s +:+ String sep t) = s :: Split sep t.
Proof.
  unfold char_in. induction s as [|d s IH]; simpl.
  - intros _. change ("" +:+ String sep t) with (String sep t). simpl. by rewrite Ascii.eqb_refl.
  - rewrite orb_false_iff. intros [Hd Hs]. change (String d s +:+ String sep t) with (String d (s +:+ String sep t)).
    simpl. rewrite Ascii.eqb_sym in Hd. by rewrite Hd, IH.
Qed.

Lemma Split_last sep s : char_in sep s = false -> Split sep s = [s].
Proof.
  unfold char_in. induction s as [|d s IH]; simpl; [done|]. rewrite orb_false_iff. intros [Hd Hs].
  rewrite Ascii.eqb_sym in Hd. by rewrite Hd, IH.
Qed.

Lemma first_separator_digits s c t : all_digits s = true -> char_in c ".:%" = true ->
  first_separator (s +:+ String c t) = Some c.
Proof.
  intros Hs Hc. induction s as [|d s IH].
  - change ("" +:+ String c t) with (String c t). simpl. by rewrite Hc.
  - change (String d s +:+ String c t) with (String d (s +:+ String c t)). simpl in *.
    destruct (digit d) eqn:Hd; [|done]. destruct (char_in d ".:%") eqn:E; [|by apply IH].
    exfalso. unfold char_in in E. simpl in E. rewrite !orb_true_iff in E.
    destruct E as [E|[E|[E|E]]]; try done; apply Ascii.eqb_eq in E; subst d; vm_compute in Hd; done.
Qed.

Lemma dotted_lacks c a b x d : digit c = None -> c <> "."%char -> 0 <= a < 256 -> 0 <= b < 256 -> 0 <= x < 256 -> 0 <= d < 256 ->
  char_in c (dotted a b x d) = false.
Proof.
  intros Hc Hdot Ha Hb Hx Hd. unfold dotted. rewrite !char_in_app.
  assert (char_in c "." = false) as ->.
  { unfold char_in. simpl. rewrite orb_false_r. by apply Ascii.eqb_neq. }
  rewrite !(digits_lack c) by (done || by apply octet_spec). done.
Qed.

Lemma ParseIP_dotted a b c d : 0 <= a < 256 -> 0 <= b < 256 -> 0 <= c < 256 -> 0 <= d < 256 ->
  ParseIP (dotted a b c d) = Some (v4_in_v6 [a; b; c; d]).
Proof.
  intros Ha Hb Hc Hd. unfold ParseIP, has_byte. rewrite dotted_lacks by done.
  destruct (octet_spec a Ha) as [Pa Da], (octet_spec b Hb) as [Pb Db], (octet_spec c Hc) as [Pc Dc], (octet_spec d Hd) as [Pd Dd].
  unfold dotted. assert (forall t, "." +:+ t = String "." t) as Hdot by done. rewrite !Hdot, first_separator_digits by done.
  unfold parseIPv4. rewrite !Split_cons, Split_last by (by apply digits_lack).
  cbn [mapM]. rewrite Pa, Pb, Pc, Pd. done.
Qed.

Lemma index_app_last c s t : char_in c t = false -> last_index_byte c (s +:+ String c t) = Some (String.length s).
Proof.
  intros Ht. assert (last_index_byte c t = None) as Hn.
  { revert Ht. unfold char_in. induction t as [|d t IH]; simpl; [done|]. rewrite orb_false_iff. intros [Hd Ht].
    by rewrite (IH Ht), Hd. }
  induction s as [|d s IH].
  - change ("" +:+ String c t) with (String c t). simpl. by rewrite Hn, Ascii.eqb_refl.
  - change (String d s +:+ String c t) with (String d (s +:+ String c t)). simpl. by rewrite IH.
Qed.

Lemma take_bytes_app s t : take_bytes (String.length s) (s +:+ t) = s.
Proof.
  induction s as [|c s IH]; [done|]. change (String c s +:+ t) with (String c (s +:+ t)). simpl. by rewrite IH.
Qed.

Lemma drop_bytes_app s c t : drop_bytes (S (String.length s)) (s +:+ String c t) = t.
Proof. induction s as [|d s IH]; [by destruct t|exact IH]. Qed.

(** [host:port], neither with a colon or a bracket. *)
Lemma SplitHostPort_plain host port :
  Forall (fun c => char_in c host = false /\ char_in c port = false) [":"; "["; "]"]%char ->
  SplitHostPort (host +:+ ":" +:+ port) = Some (host, port).
Proof.
  rewrite !Forall_cons. intros ((Hc & Pc) & (Hl & Pl) & (Hr & Pr) & _).
  change (":" +:+ port) with (String ":" port). unfold SplitHostPort. rewrite index_app_last by done.
  assert (HasPrefix (host +:+ String ":" port) "[" = false) as ->.
  { destruct host as [|c host]; [done|]. unfold char_in in Hl. cbn [String.list_ascii_of_string existsb] in Hl.
    rewrite orb_false_iff in Hl. change (String c host +:+ String ":" port) with (String c (host +:+ String ":" port)). cbn [HasPrefix].
    by rewrite (proj1 Hl). }
  assert (forall c, char_in c host = false -> char_in c ":" = false -> char_in c port = false ->
    char_in c (host +:+ String ":" port) = false) as Hin.
  { intros c H1 H2 H3. change (String ":" port) with (":" +:+ port). by rewrite !char_in_app, H1, H2, H3. }
  rewrite take_bytes_app. unfold has_byte. rewrite Hc. change (drop_bytes O ?x) with x. rewrite !Hin by done. by rewrite drop_bytes_app.
Qed.

(** [[host]:port], the form of an IPv6 peer. *)
Lemma SplitHostPort_v6_loopback port :
  Forall (fun c => char_in c port = false) [":"; "["; "]"]%char ->
  SplitHostPort ("[::1]" +:+ ":" +:+ port) = Some ("::1", port).
Proof.
  rewrite !Forall_cons. intros (Pc & Pl & Pr & _). unfold SplitHostPort.
  change (":" +:+ port) with (String ":" port). rewrite (index_app_last ":" "[::1]" port) by done.
  change (HasPrefix ("[::1]" +:+ String ":" port) "[") with true. cbn match.
  change (index_byte "]" ("[::1]" +:+ String ":" port)) with (Some 4%nat). cbn match.
  change (drop_bytes 1 ("[::1]" +:+ String ":" port)) with ("::1]:" +:+ port).
  change (drop_bytes 5 ("[::1]" +:+ String ":" port)) with (":" +:+ port).
  unfold has_byte. by rewrite !char_in_app, Pl, Pr.
Qed.

Lemma port_lacks port : all_digits port = true -> Forall (fun c => char_in c port = false) [":"; "["; "]"]%char.
Proof. intros H. repeat apply Forall_cons_2; try apply Forall_nil_2; by apply digits_lack. Qed.

Lemma IsLoopback_v4 a b c d : IsLoopback (v4_in_v6 [a; b; c; d]) = (a =? 127).
Proof. reflexivity. Qed.

End Net.
