(* ===== verification/Admin.v ===== *)
(** * The control plane (src/internal/admin/admin.go, src/internal/httpx/httpx.go)

    [Mux] as a function of the request, of what its sources answer and of the
    yield controller it drives; the paths are as net/http's ServeMux cleans them.
    A reply is a status with its headers and body; the metrics and job handlers,
    modelled in [Metrics] and [JobService], are replies of their own.

    Proved: the controller only changes through an authorised POST /control with
    a known mode, which takes effect before the answer is read, whatever others do
    to the controller in between; who is authorised;
    and what /healthz promises. *)

From S2P Require Import Prelude GoLib Json Park Scheduler Yield JobStore Config Router Broker Proxy OpenAICompat Schedule Net.
From Stdlib Require Import Ascii.
#[local] Set Warnings "-clear-no-such-hyp,-level-tolerance".
Local Open Scope Z_scope.

Module Admin.
Import GoLib.

(** ** Requests and replies *)

(** [authorization] is [Header.Get], empty when there is none; [body] is the
    decoded mode. *)
Record request := MkRequest {
  path : string; method : string; authorization : string; RemoteAddr : string; body : result Proxy.error string;
}.

Record TdarrStatus := MkTdarrStatus { GPUWorkers : Z; Managed : bool }.

(** The sections of /status; [None] is a missing key. *)
Record status := MkStatus {
  yield_ : Yield.State;
  queue : Scheduler.Stats_t;
  schedule : Schedule.Snapshot;
  jobs_ : option JobStore.Counts_t;
  tdarr : option TdarrStatus;
  routing : option (list Router.RouteSummary);
  idle : option (option (list Yield.IdleSummaryEntry));
}.

Inductive payload :=
| Text (s : string)
| Fields (kvs : list (string * string))
| YieldState (st : Yield.State)
| Status (st : status)
| MetricsPage
| JobsAPI.

Record reply := Reply { code : Z; headers : list (string * string); content : payload }.

(** [httpx.WriteJSON] and [http.Error]. *)
Definition WriteJSON (code : Z) (v : payload) : reply := Reply code [("Content-Type", "application/json")] v.
Definition Error (m : string) (code : Z) : reply :=
  Reply code [("Content-Type", "text/plain; charset=utf-8"); ("X-Content-Type-Options", "nosniff")]
    (Text (m +:+ OpenAICompat.newline)).
Definition with_header (k v : string) (r : reply) : reply := Reply (code r) ((k, v) :: headers r) (content r).

(** ** Authorisation *)

Definition isLoopback (remoteAddr : string) : bool :=
  let host := match Net.SplitHostPort remoteAddr with Some (host, _) => host | None => remoteAddr end in
  match Net.ParseIP host with Some ip => Net.IsLoopback ip | None => false end.

Definition Bearer : string := "Bearer ".

(** [subtle.ConstantTimeCompare] is equality. *)
Definition authorized (r : request) (controlToken : string) : bool :=
  if String.eqb controlToken "" then isLoopback (RemoteAddr r)
  else if negb (HasPrefix (authorization r) Bearer) then false
  else String.eqb (TrimPrefix (authorization r) Bearer) controlToken.

(** ** The handlers *)

(** What [Mux] is built over, and what its sources answer now: [health] is the
    check, if there is one, and its error. *)
Record deps := MkDeps {
  health : option (option string);
  has_jobs : bool;
  stats : Scheduler.Stats_t;
  calendar : Schedule.Snapshot;
  jobStatus : option JobStore.Counts_t;
  tdarrStatus : option (option TdarrStatus);
  routingStatus : option (list Router.RouteSummary);
  idleStatus : option (option (list Yield.IdleSummaryEntry));
  controlToken : string;
}.

Definition healthz (d : deps) : reply :=
  match health d with
  | None => Reply 200 [("Content-Type", "text/plain")] (Text ("ok" +:+ OpenAICompat.newline))
  | Some (Some err) => WriteJSON 503 (Fields [("status", "unhealthy"); ("error", err)])
  | Some None => WriteJSON 200 (Fields [("status", "ok")])
  end.

(** [SetMode] and [Snapshot] are two critical sections of the controller:
    [between] is what others do to it after the one and before the other. *)
Definition control (d : deps) (now : Z) (between : Yield.controller -> Yield.controller) (r : request) (c : Yield.controller) : reply * Yield.controller :=
  if String.eqb (method r) "GET" then (WriteJSON 200 (YieldState (Yield.Snapshot c)), c)
  else if String.eqb (method r) "POST" then
    if negb (authorized r (controlToken d)) then
      (with_header "WWW-Authenticate" ("Bearer realm=" +:+ OpenAICompat.quoted "control") (Error "unauthorized" 401), c)
    else
      match body r with
      | Err _ => (Error "invalid JSON body" 400, c)
      | Ok s =>
          let '(m, ok) := Yield.ParseMode s in
          if negb ok then (Error "mode must be one of: auto, yield, serve" 400, c)
          else
            let c := between (Yield.SetMode m now c) in
            (WriteJSON 200 (YieldState (Yield.Snapshot c)), c)
      end
  else (with_header "Allow" "GET, POST" (Error "method not allowed" 405), c).

Definition status_of (d : deps) (c : Yield.controller) : status :=
  MkStatus (Yield.Snapshot c) (stats d) (calendar d) (jobStatus d)
    (match tdarrStatus d with Some (Some ts) => Some ts | _ => None end) (routingStatus d) (idleStatus d).

(** [Mux]: exact patterns, and the subtree of /jobs/. *)
Definition Mux (d : deps) (now : Z) (between : Yield.controller -> Yield.controller) (r : request) (c : Yield.controller) : reply * Yield.controller :=
  if String.eqb (path r) "/healthz" then (healthz d, c)
  else if String.eqb (path r) "/metrics" then (Reply 200 [] MetricsPage, c)
  else if has_jobs d && (String.eqb (path r) "/jobs" || HasPrefix (path r) "/jobs/") then (Reply 200 [] JobsAPI, c)
  else if String.eqb (path r) "/control" then control d now between r c
  else if String.eqb (path r) "/status" then (WriteJSON 200 (Status (status_of d c)), c)
  else (Error "404 page not found" 404, c).

(** ** What a request may do *)

(** With a token, its bearer; without one, a loopback peer. *)
Definition permitted (d : deps) (r : request) : Prop :=
  if decide (controlToken d = "") then isLoopback (RemoteAddr r) = true
  else authorization r = Bearer +:+ controlToken d.

Lemma HasPrefix_app p s : HasPrefix s p = true <-> s = p +:+ TrimPrefix s p.
Proof.
  unfold TrimPrefix. split.
  - intros Hp. rewrite Hp. revert s Hp. induction p as [|c p IH]; intros [|d s]; simpl; try done.
    intros [->%Ascii.eqb_eq Hs]%andb_true_iff. change (String d p +:+ ?t) with (String d (p +:+ t)). f_equal. by apply IH.
  - destruct (HasPrefix s p) eqn:E; [done|]. intros Hs. exfalso.
    assert (forall t, HasPrefix (p +:+ t) p = true) as Ha; [|rewrite Hs, Ha in E; done].
    intros t. clear. induction p as [|c p IH]; [by destruct t|]. change (String c p +:+ t) with (String c (p +:+ t)).
    simpl. by rewrite Ascii.eqb_refl.
Qed.

Lemma TrimPrefix_app p s : TrimPrefix (p +:+ s) p = s.
Proof.
  unfold TrimPrefix. assert (HasPrefix (p +:+ s) p = true /\ drop_bytes (String.length p) (p +:+ s) = s) as [-> ->]; [|done].
  induction p as [|c p [IH1 IH2]]; [by destruct s|]. change (String c p +:+ s) with (String c (p +:+ s)). simpl.
  by rewrite Ascii.eqb_refl.
Qed.

Lemma authorized_iff d r : authorized r (controlToken d) = true <-> permitted d r.
Proof.
  unfold authorized, permitted. destruct (String.eqb_spec (controlToken d) "") as [E|E]; case_decide; try done.
  destruct (HasPrefix (authorization r) Bearer) eqn:Hp; simpl.
  - apply HasPrefix_app in Hp. rewrite String.eqb_eq. split; [by intros <-|]. intros ->. apply TrimPrefix_app.
  - split; [done|]. intros Ha. exfalso. rewrite Ha in Hp.
    assert (HasPrefix (Bearer +:+ controlToken d) Bearer = true) as Ht; [|congruence].
    apply HasPrefix_app. by rewrite TrimPrefix_app.
Qed.

Lemma ParseMode_spec s m : Yield.ParseMode s = (m, true) <-> s = Yield.Mode_String m.
Proof.
  unfold Yield.ParseMode. split.
  - repeat case_match; intros [= <-]; apply String.eqb_eq; assumption.
  - intros ->. by destruct m.
Qed.

(** *** A mode in force *)

Lemma start_all_mode n a c : Yield.mode (Yield.start_all n a c) = Yield.mode c /\
  Yield.effective (Yield.start_all n a c) = Yield.effective c.
Proof. induction n as [|n [IH1 IH2]]; [done|]. by rewrite <- IH1, <- IH2. Qed.

(** After [SetMode] the mode is [m], and the state in force is the one reported. *)
Lemma SetMode_in_force m now c :
  let c' := Yield.SetMode m now c in
  Yield.mode c' = m /\ Yield.effective c' = Yield.St_Yielding (Yield.Snapshot c').
Proof.
  cbn zeta. pose proof (Yield.debounce_state_apply now (Yield.set_mode m c)) as Hd. unfold Yield.SetMode.
  set (c1 := Yield.set_mode m c) in *.
  assert (Yield.mode (Yield.applyLocked now c1).2 = m /\
          Yield.effective (Yield.applyLocked now c1).2 = (Yield.computeLocked c1).1) as [Hm He].
  { unfold Yield.applyLocked. destruct (Yield.computeLocked c1) as [eff reason] eqn:Ec.
    destruct (Bool.eqb_spec eff (Yield.effective c1)) as [->|]; [done|]. destruct eff.
    - set (c2 := Yield.set_serving true (Yield.serveCtx c1) ({[Yield.serveCtx c1]} ∪ Yield.canceled c1) c1).
      destruct (start_all_mode (length (Yield.slots c2)) Yield.Unload c2) as [E1 E2]. split; [exact E1|exact E2].
    - set (c2 := Yield.set_serving false (S (Yield.serveCtx c1)) (Yield.canceled c1) c1).
      destruct (start_all_mode (length (Yield.slots c2)) Yield.Reload c2) as [E1 E2]. split; [exact E1|exact E2]. }
  split; [done|]. rewrite He. unfold Yield.Snapshot, Yield.computeLocked. rewrite Hm.
  unfold Yield.debounce_state in Hd. injection Hd as _ Ha Hr _ _. rewrite Ha. by destruct m.
Qed.

(** What a snapshot shows of the mode. *)
Lemma Snapshot_mode m c : Yield.mode c = m ->
  let st := Yield.Snapshot c in
  Yield.St_Mode st = Yield.Mode_String m /\
  (m = Yield.ModeForceYield -> Yield.St_Yielding st = true) /\ (m = Yield.ModeForceServe -> Yield.St_Yielding st = false).
Proof. intros Hm. unfold Yield.Snapshot, Yield.computeLocked. rewrite Hm. by destruct m. Qed.

(** ** Properties *)

(** C13: the control plane only mutates the broker through its gate: whatever the
    request, the controller is unchanged unless it is an authorised POST /control
    with a known mode, and then that [SetMode] is applied; an unauthorised one gets
    a 401.  An authorised one puts its mode in force at once, a forced yield
    yielding and a forced serve serving, and its answer is the state of the
    controller when it is read: whatever others have done in between, the answer
    shows the mode, and the forced state, unless another mode was set meanwhile. *)
Theorem control_gated d now between r c :
  let '(rep, c') := Mux d now between r c in
  let posted := path r = "/control" /\ method r = "POST" in
  (c' = c \/ (posted /\ permitted d r /\ exists m, body r = Ok (Yield.Mode_String m) /\ c' = between (Yield.SetMode m now c))) /\
  (posted -> ~ permitted d r -> code rep = 401) /\
  (posted -> permitted d r -> forall m, body r = Ok (Yield.Mode_String m) ->
     let c1 := Yield.SetMode m now c in
     let shows st := Yield.St_Mode st = Yield.Mode_String m /\
       (m = Yield.ModeForceYield -> Yield.St_Yielding st = true) /\ (m = Yield.ModeForceServe -> Yield.St_Yielding st = false) in
     Yield.effective c1 = Yield.St_Yielding (Yield.Snapshot c1) /\ shows (Yield.Snapshot c1) /\
     c' = between c1 /\ rep = WriteJSON 200 (YieldState (Yield.Snapshot c')) /\
     (Yield.mode c' = Yield.mode c1 -> shows (Yield.Snapshot c'))).
Proof.
  destruct (decide (path r = "/control" /\ method r = "POST")) as [[Hp Hm]|Hn].
  - assert (Mux d now between r c = control d now between r c) as ->.
    { unfold Mux. rewrite Hp. destruct (has_jobs d); done. }
    unfold control. rewrite Hm. simpl. destruct (authorized r (controlToken d)) eqn:Ha; simpl.
    + apply authorized_iff in Ha. destruct (body r) as [s|e]; [|split; [by left|]; split; [done|]; intros; discriminate].
      destruct (Yield.ParseMode s) as [m []] eqn:Es; simpl.
      * apply ParseMode_spec in Es as ->. split; [right; split; [done|]; split; [done|]; by exists m|]. split; [done|]. intros _ _ m' E.
        assert (m' = m) as -> by (by destruct m, m').
        destruct (SetMode_in_force m now c) as [H1 H2]. split; [done|]. split; [by apply Snapshot_mode|].
        do 2 (split; [done|]). rewrite H1. by apply Snapshot_mode.
      * split; [by left|]. split; [done|]. intros _ _ m' [= ->]. by rewrite (proj2 (ParseMode_spec _ m')) in Es.
    + assert (~ permitted d r) by (rewrite <- authorized_iff; congruence). split; [by left|]. by split.
  - destruct (Mux d now between r c) as [rep c'] eqn:E. cbn zeta. split; [left|by split]. unfold Mux, control in E.
    destruct (String.eqb (path r) "/healthz"); [congruence|]. destruct (String.eqb (path r) "/metrics"); [congruence|].
    destruct (has_jobs d && _); [congruence|]. destruct (String.eqb_spec (path r) "/control"); [|repeat case_match; congruence].
    destruct (String.eqb (method r) "GET"); [congruence|]. destruct (String.eqb_spec (method r) "POST"); [tauto|congruence].
Qed.

(** Without a token only the host itself may post: of the peers net/http
    reports over IPv4 exactly those of 127.0.0.0/8 are accepted, and the IPv6
    loopback is. *)
Theorem loopback_peers a b c d port :
  0 <= a < 256 -> 0 <= b < 256 -> 0 <= c < 256 -> 0 <= d < 256 -> Net.all_digits port = true ->
  isLoopback (Net.dotted a b c d +:+ ":" +:+ port) = (a =? 127) /\
  isLoopback ("[::1]" +:+ ":" +:+ port) = true.
Proof.
  intros Ha Hb Hc Hd Hp%Net.port_lacks. unfold isLoopback. rewrite Net.SplitHostPort_v6_loopback by done. split; [|done].
  rewrite Net.SplitHostPort_plain, Net.ParseIP_dotted by first [done |
    eapply Forall_impl; [apply Forall_and; split; [exact Hp|]|]; [..|by intros x [H1 H2]; split; [exact H2|exact H1]];
    repeat apply Forall_cons_2; try apply Forall_nil_2; by apply Net.dotted_lacks].
  apply Net.IsLoopback_v4.
Qed.

(** /healthz tells the truth about the built broker: it answers 200 exactly
    when the default upstream answers, the job store can be read and the last
    poll is at most three intervals old, and 503 otherwise. *)
Theorem healthz_truthful probe cfg b t0 bd store d now between r c :
  Config.valid cfg -> Broker.New 0 cfg = Ok b -> Broker.buildBroker cfg b t0 = Next (Ok bd) ->
  3 * Z.abs (Config.DetectInterval cfg) <= maxInt64 ->
  path r = "/healthz" -> health d = Some (Broker.healthCheck probe cfg bd store c now) ->
  let rep := (Mux d now between r c).1 in
  (code rep = 200 <-> probe b = None /\ store = None /\ Yield.PollAge now c <= 3 * Config.DetectInterval cfg) /\
  (code rep = 200 \/ code rep = 503).
Proof.
  intros Hv Hb Hbd Hm Hp Hh. cbn zeta. rewrite <- (Broker.health_check_spec probe cfg b t0 bd store c now) by done.
  unfold Mux. rewrite Hp. simpl. unfold healthz. rewrite Hh. destruct (Broker.healthCheck _ _ _ _ _ _); simpl; naive_solver.
Qed.

(** ** Witnesses *)

Lemma loopback_peers_witness : isLoopback "127.0.0.1:51234" = true /\ isLoopback "192.168.1.10:51234" = false.
Proof.
  split.
  - refine (proj1 (loopback_peers 127 0 0 1 "51234" _ _ _ _ _)); [lia..|reflexivity].
  - refine (proj1 (loopback_peers 192 168 1 10 "51234" _ _ _ _ _)); [lia..|reflexivity].
Defined.

Definition demo_stats : Scheduler.Stats_t := Scheduler.Stats Scheduler.New.
Definition demo_deps : deps :=
  MkDeps (Some (Broker.healthCheck (fun _ => None) Config.demo_cfg Broker.demo_build None
    (Yield.refresh "" false 7 (Broker.ctrl Broker.demo_build)) 7)) true demo_stats
    (Schedule.TakeSnapshot (fun _ => 0) 0) None None None None "secret".

Lemma healthz_truthful_witness :
  code (Mux demo_deps 7 id (MkRequest "/healthz" "GET" "" "10.0.0.2:80" (Ok ""))
    (Yield.refresh "" false 7 (Broker.ctrl Broker.demo_build))).1 = 200.
Proof.
  apply (healthz_truthful (fun _ => None) Config.demo_cfg Broker.demo_default 7 Broker.demo_build None demo_deps 7 id
    (MkRequest "/healthz" "GET" "" "10.0.0.2:80" (Ok "")) (Yield.refresh "" false 7 (Broker.ctrl Broker.demo_build))
    Broker.demo_valid Broker.demo_new Broker.demo_builds); [vm_compute; congruence|reflexivity|reflexivity|].
  split; [reflexivity|]. split; [reflexivity|]. vm_compute. congruence.
Defined.

Example wrong_token_is_refused :
  code (Mux demo_deps 7 id (MkRequest "/control" "POST" "Bearer guess" "127.0.0.1:80" (Ok "serve"))
    (Broker.ctrl Broker.demo_build)).1 = 401.
Proof. vm_compute. reflexivity. Qed.

End Admin.
