(* ===== verification/Main.v ===== *)
(** * The broker as main starts it (src/cmd/broker/main.go)

    The schedulers of the GPU and of the embed lane, the servers with the gates
    in front of their handlers, and what the metrics page and the status page are
    fed with.  [Broker] has the upstreams and the router, [Admin] the control
    plane's handlers, [Schedule] the Tdarr loop.

    Proved: under any concurrency the two lanes that share the GPU never hold
    more slots than configured and the embed lane never more than one; the page
    shows the very occupancy of the scheduler and every job once; the optional
    sections appear exactly when they are configured. *)

From S2P Require Import Prelude GoLib Json Park Scheduler Gate Yield JobStore Config Router Broker Proxy Schedule Metrics Net Admin.
#[local] Set Warnings "-clear-no-such-hyp,-level-tolerance".
Local Open Scope Z_scope.

Module Main.
Import GoLib.

(** ** Schedulers *)

(** [sched], with the root context [ctx] as its shutdown context. *)
Definition gpu_sched (cfg : Config.Config_t) (ctx : nat) : Scheduler.sched :=
  let s := Scheduler.SetMaxWaiters (Config.MaxWaiters cfg) Scheduler.New in
  let s := Scheduler.SetMaxInflight (Config.MaxInflight cfg) s in
  let s := Scheduler.set_park (Park.SetParkConfig (Config.ParkHold cfg) (Config.ParkMaxQueue cfg)
             (Config.ParkDrainBurst cfg) (Scheduler.park s)) s in
  Scheduler.SetShutdownContext ctx s.

(** [embedSched]: one request at a time. *)
Definition embed_sched (cfg : Config.Config_t) (ctx : nat) : Scheduler.sched :=
  let s := Scheduler.SetMaxWaiters (Config.MaxWaiters cfg) Scheduler.New in
  let s := Scheduler.SetMaxInflight 1 s in
  let s := Scheduler.set_park (Park.SetParkConfig (Config.ParkHold cfg) (Config.ParkMaxQueue cfg)
             (Config.ParkDrainBurst cfg) (Scheduler.park s)) s in
  Scheduler.SetShutdownContext ctx s.

(** ** Servers *)

(** What a server fronts: a lane of the upstreams behind a gate of the GPU's
    scheduler, the image-embedding upstream behind a gate of its own scheduler,
    or the control plane. *)
Inductive handler :=
| Lane (class : Scheduler.Class) (wait upstreamTimeout : Z)
| Embed (wait upstreamTimeout : Z) (target : Config.URL)
| ControlPlane.

Record server := MkServer { addr : string; front : handler; keepAlives : bool }.

Definition servers (cfg : Config.Config_t) : list server :=
  [MkServer (Config.InteractiveAddr cfg) (Lane Scheduler.Interactive (Config.InteractiveWait cfg) 0) true;
   MkServer (Config.BatchAddr cfg) (Lane Scheduler.Batch (Config.BatchWait cfg) 0) false;
   MkServer (Config.ControlAddr cfg) ControlPlane true]
  ++ match Config.InfinityURL cfg with
     | Some u => [MkServer (Config.EmbedAddr cfg) (Embed (Config.BatchWait cfg) (Config.EmbedTimeout cfg) u) true]
     | None => []
     end.

(** The gate in front of a lane, for the request with id [reqID]. *)
Definition gate_config (h : handler) (reqID : string) : option Gate.config :=
  match h with
  | Lane class wait timeout => Some (Gate.Config class wait timeout true reqID)
  | Embed wait timeout _ => Some (Gate.Config Scheduler.Batch wait timeout true reqID)
  | ControlPlane => None
  end.

(** ** Optional parts *)

Definition plex_configured (cfg : Config.Config_t) : bool := negb (String.eqb (Config.PlexToken cfg) "").

Definition tdarr_client (cfg : Config.Config_t) : option Schedule.Client :=
  if negb (String.eqb (Config.TdarrURL cfg) "") && negb (String.eqb (Config.TdarrNodeID cfg) "")
  then Some (Schedule.New (Config.TdarrURL cfg) (Config.TdarrNodeID cfg) (Config.TdarrGPUWorkers cfg))
  else None.

(** ** Metrics *)

(** [jobCounts]: no counts when the store cannot be read. *)
Definition jobCounts (t : result string JobStore.table) : JobStore.Counts_t :=
  match t with Ok t => JobStore.Counts t | Err _ => JobStore.MkCounts 0 0 0 0 0 end.

Definition gauges (st : Scheduler.Stats_t) (yielding : bool) (c : JobStore.Counts_t) : Metrics.Gauges :=
  Metrics.MkGauges yielding (Scheduler.Busy st) (Scheduler.Inflight st) (Scheduler.MaxInflight st)
    (Scheduler.InteractiveDepth st) (Scheduler.BatchDepth st) (Scheduler.Parked st)
    (Z.of_nat (JobStore.Queued c)) (Z.of_nat (JobStore.Running c)) (Z.of_nat (JobStore.Succeeded c))
    (Z.of_nat (JobStore.Failed c)) (Z.of_nat (JobStore.Canceled c)).

(** A scrape of /metrics. *)
Definition scrape (reg : Metrics.Registry) (s : Scheduler.sched) (c : Yield.controller) (t : result string JobStore.table)
  : list Metrics.line :=
  Metrics.write reg (gauges (Scheduler.Stats s) (Yield.Yielding c).1 (jobCounts t)).

(** ** The control plane's sources *)

Section control.
Context (decode_limits : string -> result Proxy.error Schedule.workerLimits) (probe : Broker.instance -> option string).

(** [routing] is what [RoutingSummary] returns for the router, [workers] the
    Tdarr server's answer, [table] the job store. *)
Definition deps_of (cfg : Config.Config_t) (bd : Broker.build) (s : Scheduler.sched) (c : Yield.controller) (now : Z)
    (calendar : Schedule.Snapshot) (table : result string JobStore.table) (workers : Schedule.response)
    (routing : list Router.RouteSummary) : Admin.deps :=
  Admin.MkDeps
    (Some (Broker.healthCheck probe cfg bd (match table with Ok _ => None | Err e => Some e end) c now))
    true (Scheduler.Stats s) calendar (Some (jobCounts table))
    (match tdarr_client cfg with
     | Some tc => Some (Some (Admin.MkTdarrStatus (Schedule.tdarr_status decode_limits tc workers) true))
     | None => None
     end)
    (match Broker.router bd with Some _ => Some routing | None => None end)
    (if Broker.idleStatus bd then Some (Yield.IdleSummary now c) else None)
    (Config.ControlToken cfg).

End control.

(** ** The schedulers under load *)

Definition started (x : Scheduler.sched) (s : Scheduler.system) : Prop := s = Scheduler.System x ∅.

(** A scheduler before its first caller. *)
Record fresh (n w : Z) (x : Scheduler.sched) : Prop := {
  fr_idle : Scheduler.inflight x = 0 /\ Scheduler.iq x = [] /\ Scheduler.bq x = [];
  fr_limit : Scheduler.maxInflight x = n /\ 1 <= n;
  fr_waiters : Scheduler.maxWaiters x = w /\ 0 <= w;
}.

Lemma gpu_fresh cfg ctx : Config.valid cfg -> fresh (Config.MaxInflight cfg) (Config.MaxWaiters cfg) (gpu_sched cfg ctx).
Proof.
  intros Hv. destruct (Config.va_counts _ Hv) as (_ & Hw & Hm & _).
  unfold gpu_sched, Scheduler.SetMaxInflight, Scheduler.SetMaxWaiters.
  rewrite !(proj2 (Z.ltb_ge _ 1)) by done. split; simpl; repeat split; lia.
Qed.

Lemma embed_fresh cfg ctx : Config.valid cfg -> fresh 1 (Config.MaxWaiters cfg) (embed_sched cfg ctx).
Proof.
  intros Hv. destruct (Config.va_counts _ Hv) as (_ & Hw & _).
  unfold embed_sched, Scheduler.SetMaxInflight, Scheduler.SetMaxWaiters.
  rewrite (proj2 (Z.ltb_ge (Config.MaxWaiters cfg) 1)) by done. split; simpl; repeat split; lia.
Qed.

Lemma started_inv n w x s : fresh n w x -> reachable Scheduler.step (started x) s ->
  Scheduler.inv s /\ Scheduler.maxInflight (Scheduler.sch s) = n /\ Scheduler.maxWaiters (Scheduler.sch s) = w.
Proof.
  intros [(Hi & Hq & Hb) [Hn H1] [Hw H0]]. revert s. apply reachable_inv.
  - intros s ->. simpl. split; [|done]. split; simpl; rewrite ?Hi, ?Hq, ?Hb, ?Hn, ?Hw; try done; try set_solver; try lia;
      by apply NoDup_nil_2.
  - intros s e s' (HI & Hm & Hmw) Hs. destruct (Scheduler.step_limits _ _ _ Hs) as [-> ->].
    split; [|done]. by eapply Scheduler.sched_step_inv.
Qed.

(** ** The page *)

Lemma sample_in tr g i b l : Metrics.blocks (Metrics.run tr) g !! i = Some b -> Metrics.sample_of (Metrics.b_name b) l ->
  l ∈ Metrics.write (Metrics.run tr) g <-> l ∈ Metrics.b_samples b.
Proof.
  intros Hb Hl. rewrite Metrics.write_blocks. apply Metrics.block_sample; [|apply Metrics.blocks_ok| |done].
  - apply Metrics.blocks_names.
  - by eapply list_elem_of_lookup_2.
Qed.

Lemma gauge_in tr g i name help kind w v :
  Metrics.blocks (Metrics.run tr) g !! i = Some (Metrics.Block name help kind [Metrics.Sample name [] w]) ->
  Metrics.Sample name [] v ∈ Metrics.write (Metrics.run tr) g <-> v = w.
Proof. intros Hb. rewrite (sample_in _ _ _ _ _ Hb) by done. simpl. rewrite list_elem_of_singleton. naive_solver. Qed.

(** The rows of the job table fall into its five states. *)
Lemma counts_total t : let c := JobStore.Counts t in
  (JobStore.Queued c + JobStore.Running c + JobStore.Succeeded c + JobStore.Failed c + JobStore.Canceled c)%nat = length t.
Proof.
  unfold JobStore.Counts. simpl. induction t as [|j t IH]; [done|]. unfold JobStore.where_, JobStore.is_state in *.
  rewrite !filter_cons. destruct (JobStore.JobState j); simpl; lia.
Qed.

(** ** Properties *)

(** The configured limits hold on every lane: with a configuration that
    loads, whatever the interleaving of any number of requests, the interactive
    and batch lanes together never hold more slots of the GPU than configured,
    the embed lane never more than one, and no class of either has more waiters
    than configured. *)
Theorem lanes_bounded cfg ctx : Config.valid cfg ->
  let bounded n x := forall s, reachable Scheduler.step (started x) s ->
    Z.of_nat (count_map Scheduler.holds (Scheduler.callers s)) <= n /\
    Z.of_nat (count_map (Scheduler.queued Scheduler.Interactive) (Scheduler.callers s)) <= Config.MaxWaiters cfg /\
    Z.of_nat (count_map (Scheduler.queued Scheduler.Batch) (Scheduler.callers s)) <= Config.MaxWaiters cfg in
  bounded (Config.MaxInflight cfg) (gpu_sched cfg ctx) /\ bounded 1 (embed_sched cfg ctx).
Proof.
  intros Hv bounded. assert (forall n x, fresh n (Config.MaxWaiters cfg) x -> bounded n x) as H.
  { intros n x Hx s Hs. destruct (started_inv _ _ _ _ Hx Hs) as (Hi & <- & <-).
    rewrite !Scheduler.queued_length by done. pose proof (Scheduler.count_holds_owns (Scheduler.callers s)).
    destruct Hi. lia. }
  split; apply H; [by apply gpu_fresh|by apply embed_fresh].
Qed.

(** The metrics page tells the state of the broker: in every reachable state
    of the GPU's scheduler the occupancy gauges are the number of requests that
    own a slot, whether there is any, the configured limit and the number of
    requests waiting in each class, one value each; and the job gauges add up to
    the rows of the job table. *)
Theorem page_shows_state cfg ctx tr s c t : Config.valid cfg ->
  reachable Scheduler.step (started (gpu_sched cfg ctx)) s ->
  let page := scrape (Metrics.run tr) (Scheduler.sch s) c (Ok t) in
  let count p := Z.of_nat (count_map p (Scheduler.callers s)) in
  let shows name v := forall v', Metrics.Sample name [] v' ∈ page <-> v' = Metrics.Int v in
  let depth class v := forall v', Metrics.Sample "broker_queue_depth" [("class", class)] v' ∈ page <-> v' = Metrics.Int v in
  shows "broker_inflight" (count Scheduler.owns) /\
  shows "broker_busy" (if decide (0 < count Scheduler.owns) then 1 else 0) /\
  shows "broker_max_inflight" (Config.MaxInflight cfg) /\
  shows "broker_yielding" (Metrics.b2i (Yield.Yielding c).1) /\
  depth "interactive" (count (Scheduler.queued Scheduler.Interactive)) /\
  depth "batch" (count (Scheduler.queued Scheduler.Batch)) /\
  exists q r ok f x, (forall st v, Metrics.Sample "broker_jobs" [("state", st)] v ∈ page <->
      (st, v) ∈ [("queued", Metrics.Int q); ("running", Metrics.Int r); ("succeeded", Metrics.Int ok);
                 ("failed", Metrics.Int f); ("canceled", Metrics.Int x)]) /\
    q + r + ok + f + x = Z.of_nat (length t).
Proof.
  intros Hv Hs page count shows depth. destruct (started_inv _ _ _ _ (gpu_fresh cfg ctx Hv) Hs) as (Hi & Hm & _).
  unfold shows, depth, page, count, scrape.
  set (g := gauges _ _ _).
  split; [|split; [|split; [|split; [|split; [|split]]]]].
  - intros v. rewrite (gauge_in tr g 6) by reflexivity. by rewrite <- (Scheduler.inv_inflight _ Hi).
  - intros v. rewrite (gauge_in tr g 5) by reflexivity. rewrite <- (Scheduler.inv_inflight _ Hi). simpl.
    unfold Metrics.b2i. destruct (Z.ltb_spec 0 (Scheduler.inflight (Scheduler.sch s))); case_decide; done || lia.
  - intros v. rewrite (gauge_in tr g 7) by reflexivity. by rewrite <- Hm.
  - intros v. by rewrite (gauge_in tr g 4) by reflexivity.
  - intros v. rewrite (Scheduler.queued_length s Scheduler.Interactive Hi). rewrite (sample_in tr g 8) by reflexivity.
    simpl. rewrite !elem_of_cons, elem_of_nil. naive_solver.
  - intros v. rewrite (Scheduler.queued_length s Scheduler.Batch Hi). rewrite (sample_in tr g 8) by reflexivity.
    simpl. rewrite !elem_of_cons, elem_of_nil. naive_solver.
  - pose proof (counts_total t) as Ht. cbn zeta in Ht. set (cs := JobStore.Counts t) in *.
    exists (Z.of_nat (JobStore.Queued cs)), (Z.of_nat (JobStore.Running cs)), (Z.of_nat (JobStore.Succeeded cs)),
      (Z.of_nat (JobStore.Failed cs)), (Z.of_nat (JobStore.Canceled cs)). split; [|lia].
    intros st v. rewrite (sample_in tr g 12) by reflexivity. unfold g. cbn -[JobStore.Counts]. fold cs. clear.
    rewrite !elem_of_cons, !elem_of_nil. intuition congruence.
Qed.

(** *** The optional sections *)

Definition idle_timeouts (cfg : Config.Config_t) : list Z :=
  Config.UpstreamIdleTimeout cfg :: map Config.IdleTimeout (Config.Routes cfg).

Lemma idle_configured_iff cfg : Broker.idle_configured cfg = true <-> exists d, d ∈ idle_timeouts cfg /\ d <> 0.
Proof.
  unfold Broker.idle_configured, idle_timeouts. rewrite orb_true_iff, negb_true_iff, Z.eqb_neq, existsb_exists. split.
  - intros [H|(rb & Hrb%list_elem_of_In & H)]; [eexists; split; [by left|done]|].
    exists (Config.IdleTimeout rb). split; [right; by apply list_elem_of_fmap_2|].
    by rewrite negb_true_iff, Z.eqb_neq in H.
  - intros (d & [->|(rb & -> & Hrb)%list_elem_of_fmap]%elem_of_cons & Hd); [by left|right].
    exists rb. split; [by apply list_elem_of_In|]. by rewrite negb_true_iff, Z.eqb_neq.
Qed.

(** A configured idle timeout is the timeout of a slot. *)
Lemma idle_slot cfg b bd d : Config.valid cfg -> Broker.built cfg b bd -> d ∈ idle_timeouts cfg -> d <> 0 ->
  d ∈ map Yield.idleTimeout (Yield.slots (Broker.ctrl bd)).
Proof.
  intros Hv Hb Hd Hn.
  assert (forall i t, Broker.tracked (Broker.ctrl bd) d i t -> d ∈ map Yield.idleTimeout (Yield.slots (Broker.ctrl bd))) as H.
  { intros i t. unfold Broker.tracked. case_decide; [done|]. intros (k & s & _ & Hs & _ & <-).
    apply list_elem_of_fmap_2. by eapply list_elem_of_lookup_2. }
  apply elem_of_cons in Hd as [->|(rb & -> & Hrb)%list_elem_of_fmap]; [by eapply H, Hb|].
  pose proof (Broker.bu_router _ _ _ Hb) as Hr. destruct (Broker.router bd) as [r|]; [|by rewrite Hr in Hrb; apply elem_of_nil in Hrb].
  apply list_elem_of_lookup in Hrb as [k Hk]. destruct Hr as (_ & Hr & _).
  pose proof (Config.va_routes _ Hv) as Hok. rewrite Forall_lookup in Hok.
  destruct (Config.ro_models _ (Hok _ _ Hk)) as [Hm _]. destruct (Config.Models rb) as [|m ms] eqn:Em; [done|].
  destruct (Hr k rb m Hk ltac:(rewrite Em; by left)) as (i & t & _ & Ht & _). by eapply H.
Qed.

Lemma IdleSummary_some now c d : d ∈ map Yield.idleTimeout (Yield.slots c) -> d <> 0 ->
  exists es, Yield.IdleSummary now c = Some es /\ es <> [].
Proof.
  intros (s & -> & Hs)%list_elem_of_fmap Hd. unfold Yield.IdleSummary.
  assert (existsb (fun s => negb (Yield.idleTimeout s =? 0)) (Yield.slots c) = true) as ->.
  { apply existsb_exists. exists s. split; [by apply list_elem_of_In|]. by rewrite negb_true_iff, Z.eqb_neq. }
  simpl. assert (s ∈ filter (fun s => Yield.idleTimeout s <> 0) (Yield.slots c)) as Hf by (by apply list_elem_of_filter).
  destruct (filter _ _) as [|x l]; [by apply elem_of_nil in Hf|]. by eexists.
Qed.

(** The status page has the optional sections exactly when they are
    configured: the routing table when there are routes, the idle section, never
    empty, when some instance has an idle timeout, and Tdarr's when both its
    settings are given. *)
Theorem status_sections dl probe cfg b t0 bd s c now calendar table workers summary :
  Config.valid cfg -> Broker.New 0 cfg = Ok b -> Broker.buildBroker cfg b t0 = Next (Ok bd) ->
  map Yield.idleTimeout (Yield.slots c) = map Yield.idleTimeout (Yield.slots (Broker.ctrl bd)) ->
  let st := Admin.status_of (deps_of dl probe cfg bd s c now calendar table workers summary) c in
  (Admin.routing st = if decide (Config.Routes cfg = []) then None else Some summary) /\
  match Admin.idle st with
  | None => Forall (eq 0) (idle_timeouts cfg)
  | Some section => exists es, section = Some es /\ es <> []
  end /\
  (is_Some (Admin.tdarr st) <-> Config.TdarrURL cfg <> "" /\ Config.TdarrNodeID cfg <> "").
Proof.
  intros Hv Hb Hbd Hc. cbn zeta. destruct (Broker.buildBroker_ok cfg b t0 Hv Hb) as (bd' & Hbd' & Hbu).
  rewrite Hbd in Hbd'. injection Hbd' as <-. simpl. split; [|split].
  - pose proof (Broker.bu_router _ _ _ Hbu) as Hr. destruct (Broker.router bd) eqn:Er; case_decide as Hn; try done.
    exfalso. unfold Broker.buildBroker in Hbd. rewrite Hn in Hbd. destruct (Broker.unloader_of b).
    + destruct (Yield.ConfigureIdle _ _); simpl in Hbd; try done. destruct (Broker.decorate _ _ _ _); simpl in Hbd; try done.
      by simplify_eq.
    + by simplify_eq.
  - rewrite (Broker.bu_idle _ _ _ Hbu). destruct (Broker.idle_configured cfg) eqn:Ei.
    + apply idle_configured_iff in Ei as (d & Hd & Hn). eapply IdleSummary_some; [|done]. rewrite Hc. by eapply idle_slot.
    + apply Forall_forall. intros d Hd. destruct (decide (d = 0)) as [->|Hn]; [done|]. exfalso.
      assert (Broker.idle_configured cfg = true); [|congruence]. apply idle_configured_iff. by exists d.
  - unfold tdarr_client. destruct (String.eqb_spec (Config.TdarrURL cfg) ""), (String.eqb_spec (Config.TdarrNodeID cfg) "");
      simpl; split; try (by intros []); try (by intros [? ?]); try tauto; by eexists.
Qed.

(** ** Witnesses *)

Definition demo_run : list Scheduler.event :=
  [Scheduler.EAcquire Scheduler.Batch 0; Scheduler.EAcquire Scheduler.Batch 1; Scheduler.EAcquire Scheduler.Interactive 2].

Definition demo_state : Scheduler.system :=
  final Scheduler.step demo_run (Scheduler.System (gpu_sched Config.demo_cfg 0) ∅).

Lemma demo_reachable : reachable Scheduler.step (started (gpu_sched Config.demo_cfg 0)) demo_state.
Proof. by apply final_reachable, reach_init. Qed.

Lemma lanes_bounded_witness :
  count_map Scheduler.owns (Scheduler.callers demo_state) = 1%nat /\
  Z.of_nat (count_map Scheduler.holds (Scheduler.callers demo_state)) <= Config.MaxInflight Config.demo_cfg.
Proof.
  split; [vm_compute; reflexivity|].
  exact (proj1 (proj1 (lanes_bounded Config.demo_cfg 0 Broker.demo_valid) demo_state demo_reachable)).
Defined.

Lemma page_shows_state_witness :
  Metrics.Sample "broker_inflight" [] (Metrics.Int 1) ∈
    scrape (Metrics.run []) (Scheduler.sch demo_state) (Broker.ctrl Broker.demo_build) (Ok []).
Proof.
  apply (proj1 (page_shows_state Config.demo_cfg 0 [] demo_state (Broker.ctrl Broker.demo_build) []
    Broker.demo_valid demo_reachable)). vm_compute. reflexivity.
Defined.

Definition demo_deps : Admin.deps :=
  deps_of (fun _ => Err Proxy.no_error) (fun _ => None) Config.demo_cfg Broker.demo_build
    (gpu_sched Config.demo_cfg 0) (Broker.ctrl Broker.demo_build) 7 (Schedule.TakeSnapshot (fun _ => 0) 0) (Ok [])
    (Ok (200, "OK")) [].

Lemma status_sections_witness :
  Config.Routes Config.demo_cfg <> [] /\
  Admin.routing (Admin.status_of demo_deps (Broker.ctrl Broker.demo_build)) =
    if decide (Config.Routes Config.demo_cfg = []) then None else Some [].
Proof.
  split; [vm_compute; discriminate|].
  exact (proj1 (status_sections (fun _ => Err Proxy.no_error) (fun _ => None) Config.demo_cfg Broker.demo_default 7
    Broker.demo_build (gpu_sched Config.demo_cfg 0) (Broker.ctrl Broker.demo_build) 7 (Schedule.TakeSnapshot (fun _ => 0) 0)
    (Ok []) (Ok (200, "OK")) [] Broker.demo_valid Broker.demo_new Broker.demo_builds eq_refl)).
Defined.

End Main.
