(* ===== verification/Front.v ===== *)
(** * The admission path as one system (gate.go, scheduler.go, park.go and
      yield.go together, as cmd/broker/main.go joins them)

    [Gate.handle] is one request against what it observes.  Here any number of
    requests run the same code in small steps against the real components: the
    scheduler and park queue of [Scheduler] and [Park], and the yield controller
    of [Yield], each taking its own steps in between.  A step of a request is one
    call it makes or one return it waits for; the clock readings, the moment the
    upstream returns and everything the components do are the environment's.  An
    upstream call has a context of its own ([upcall]), which the goroutine that
    watches the serve context ([FWatch]), the deadline ([FDeadline]) or the client's
    disconnect ([FGone]) ends.  When the upstream returns, the handler reads the
    serve context and then the call's own; the model reads both in one step.  A
    disconnect does not itself end a wait in [parkFor] or [Acquire]: there the end
    of the context is an event of [Park] and [Scheduler] that may come at any time.
    The job worker is an environment that acquires and releases slots of its own;
    [Whole] puts the worker of [Worker] in its place.

    Proved: every request's actions are those of [Gate.handle]; calls in flight
    never exceed the limit, a yield ends their contexts and nothing but a yield, the
    client or the deadline does; a
    request that is parked or done owns no slot; nothing panics; and a request
    can always come to its end. *)

From S2P Require Import Prelude GoLib Park Scheduler Gate Yield Config Broker Main.
#[local] Set Warnings "-clear-no-such-hyp,-level-tolerance".
Local Open Scope Z_scope.

Module Front.

(** ** Requests *)

(** The context of an upstream call: the serve context its watcher goroutine was
    given, [ctx.Err()], and whether that goroutine still runs. *)
Record upcall := Call { bound : nat; err : option Gate.ctx_err; watching : bool }.

(** Where a request's handler stands; [k] names its call of [parkFor] or
    [Acquire], [waited] is the local of the code. *)
Inductive pc :=
| Top
| ToPark (reason : string)
| InPark (reason : string) (k : nat)
| ToAcquire
| InAcquire (k : nat)
| Got (k : nat) (waited : Z)
| Dropping (k : nat) (waited : Z)
| Clear (k : nat) (waited : Z)
| Serving (k : nat) (waited : Z) (u : upcall)
| Leaving (k : nat) (waited : Z) (u : Gate.upstream)
| Ended (r : Gate.admission) (u : Gate.upstream).

(** [parkWait] and [wasParked] are the locals of the code; [laps] and [log] are
    what the request has observed and done; [gone]: its client has disconnected. *)
Record req := Req {
  cfg : Gate.config; at_ : pc; parkWait : Z; wasParked : bool; laps : list Gate.lap; log : list Gate.act;
  gone : bool;
}.

Record system := Sys {
  ctl : Yield.system;
  sched : Scheduler.system;
  park : Park.lot;
  reqs : gmap nat req;
  mine : gset nat;    (* the Acquire calls the requests have made *)
}.

Inductive event :=
| FYield (e : Yield.event)
| FSched (e : Scheduler.event)
| FPark (e : Park.event)
| FArrive (r : nat) (c : Gate.config)
| FCheck (r : nat) (since : Z)
| FEnterPark (r k : nat)
| FParked (r : nat) (since parked : Z)
| FAcquire (r k : nat)
| FAcquired (r : nat) (waited : Z)
| FRecheck (r : nat)
| FDrop (r : nat)
| FBind (r : nat)
| FWatch (r : nat)
| FDeadline (r : nat)
| FGone (r : nat)
| FReturn (r : nat) (panics : bool)
| FRelease (r : nat).

Definition set_ctl y s := Sys y (sched s) (park s) (reqs s) (mine s).
Definition set_sched x s := Sys (ctl s) x (park s) (reqs s) (mine s).
Definition set_park l s := Sys (ctl s) (sched s) l (reqs s) (mine s).
Definition set_req r q s := Sys (ctl s) (sched s) (park s) (<[r := q]> (reqs s)) (mine s).

(** The request moves on, with some more actions. *)
Definition go (p : pc) (acts : list Gate.act) (q : req) : req :=
  Req (cfg q) p (parkWait q) (wasParked q) (laps q) (log q ++ acts) (gone q).

(** ... after a turn of the loop. *)
Definition turn (l : Gate.lap) (p : pc) (acts : list Gate.act) (q : req) : req :=
  Req (cfg q) p (parkWait q) (wasParked q) (laps q ++ [l]) (log q ++ acts) (gone q).

(** [parkWait += time.Since(t0)], and back to the top. *)
Definition released (l : Gate.lap) (parked : Z) (q : req) : req :=
  Req (cfg q) Top (parkWait q + parked) true (laps q ++ [l]) (log q) (gone q).

Definition no_upstream : Gate.upstream := Gate.Upstream false false None.

Definition park_lap (reason : string) (since : Z) (res : Park.parkResult) (parked : Z) : Gate.lap :=
  Gate.Lap (Some reason) since res parked false 0 false.
Definition acquire_lap (err : bool) (waited : Z) (yielding_after : bool) : Gate.lap :=
  Gate.Lap None 0 Park.parkReleased 0 err waited yielding_after.

Definition yields (s : system) : bool * string := Yield.Yielding (Yield.ctl (ctl s)).

(** [class == Batch && s.parkEnabled()] *)
Definition can_park (s : system) (c : Gate.config) : bool :=
  bool_decide (Gate.class c = Scheduler.Batch) && Park.parkEnabled (Park.pk (park s)).

Definition with_req (r : nat) (s : system) (f : req -> outcome system) : outcome system :=
  match reqs s !! r with Some q => f q | None => Disabled end.

Definition refuse (status outcome reason : string) (waited : Z) (q : req) : list Gate.act :=
  Gate.deferRequest (cfg q) (Gate.cls (cfg q)) status outcome reason (Gate.wait (cfg q)) waited.

(** From the slot to the call of [next.ServeHTTP]. *)
Definition serve_begin (c : Gate.config) (waited : Z) : list Gate.act :=
  [Gate.AContext (if 0 <? Gate.upstreamTimeout c then Some (Gate.upstreamTimeout c) else None); Gate.AWatch;
   Gate.ASetHeader "X-Broker-Status" "served";
   Gate.ASetHeader "X-Broker-Wait-Ms" (GoLib.Itoa (GoLib.Milliseconds waited));
   Gate.ASetHeader (Gate.TrailerPrefix +:+ "X-Broker-Status") "served";
   Gate.AServe].

(** From its return to the deferred calls. *)
Definition serve_end (q : req) (waited : Z) (u : Gate.upstream) : list Gate.act :=
  if Gate.panics u then []
  else
    let outcome := Gate.final_outcome u in
    [Gate.ASetHeader (Gate.TrailerPrefix +:+ "X-Broker-Status") outcome]
    ++ (if wasParked q && bool_decide (outcome = "served") then Gate.recordPark (cfg q) (parkWait q) else [])
    ++ Gate.record (cfg q) (Gate.cls (cfg q)) outcome waited.

(** Ending the context of a call: the first cause is the one it keeps. *)
Definition end_call (e : Gate.ctx_err) (u : upcall) : upcall :=
  match err u with Some _ => u | None => Call (bound u) (Some e) (watching u) end.

Definition serveDone (s : system) (u : upcall) : bool := bool_decide (bound u ∈ Yield.canceled (Yield.ctl (ctl s))).

(** The client is gone: the request's context is done, and those derived from it. *)
Definition disconnect (q : req) : req :=
  Req (cfg q) (match at_ q with Serving k w u => Serving k w (end_call Gate.CtxCanceled u) | p => p end)
    (parkWait q) (wasParked q) (laps q) (log q) true.

Definition step (e : event) (s : system) : outcome system :=
  match e with
  | FYield e => y ← Yield.step e (ctl s); Next (set_ctl y s)
  | FSched e =>
      match e with
      | Scheduler.ERelease k => if decide (k ∈ mine s) then Disabled else x ← Scheduler.step e (sched s); Next (set_sched x s)
      | _ => x ← Scheduler.step e (sched s); Next (set_sched x s)
      end
  | FPark e =>
      match e with
      | Park.EEnter _ => Disabled
      | Park.ETick y => if Bool.eqb y (yields s).1 then l ← Park.step e (park s); Next (set_park l s) else Disabled
      | _ => l ← Park.step e (park s); Next (set_park l s)
      end
  | FArrive r c =>
      match reqs s !! r with
      | Some _ => Disabled
      | None => Next (set_req r (Req c Top 0 false [] [Gate.ASetHeader "X-Broker-Request-Id" (Gate.reqID c)] false) s)
      end
  | FCheck r since => with_req r s (fun q =>
      match at_ q with
      | Top =>
          let '(yielding, reason) := yields s in
          if yielding then
            if negb (can_park s (cfg q)) then
              Next (set_req r (turn (park_lap reason since Park.parkReleased 0) (Ended Gate.Refused no_upstream)
                                 (refuse "deferred" "deferred" ("yielding GPU: " +:+ reason) since q) q) s)
            else Next (set_req r (go (ToPark reason) [] q) s)
          else Next (set_req r (go ToAcquire [] q) s)
      | _ => Disabled
      end)
  | FEnterPark r k => with_req r s (fun q =>
      match at_ q with
      | ToPark reason => l ← Park.step (Park.EEnter k) (park s);
                         Next (set_req r (go (InPark reason k) [Gate.APark] q) (set_park l s))
      | _ => Disabled
      end)
  | FParked r since parked => with_req r s (fun q =>
      match at_ q with
      | InPark reason k =>
          match Park.calls (park s) !! k with
          | Some (Park.Finished res) =>
              let ended acts := Next (set_req r (turn (park_lap reason since res parked) (Ended Gate.Refused no_upstream) acts q) s) in
              match res with
              | Park.parkReleased => Next (set_req r (released (park_lap reason since res parked) parked q) s)
              | Park.parkExpired => ended (refuse "deferred" "expired" "park hold exceeded" since q)
              | Park.parkRejected => ended (refuse "deferred" "park_rejected" "park queue full" 0 q)
              | Park.parkCanceled => ended (Gate.record (cfg q) (Gate.cls (cfg q)) "canceled" since)
              | Park.parkShutdown => ended (refuse "crash_failed" "crash_failed" "broker shutting down" since q)
              end
          | _ => Disabled
          end
      | _ => Disabled
      end)
  | FAcquire r k => with_req r s (fun q =>
      match at_ q with
      | ToAcquire => x ← Scheduler.step (Scheduler.EAcquire (Gate.class (cfg q)) k) (sched s);
                     Next (Sys (ctl s) x (park s) (<[r := go (InAcquire k) [] q]> (reqs s)) ({[k]} ∪ mine s))
      | _ => Disabled
      end)
  | FAcquired r waited => with_req r s (fun q =>
      match at_ q with
      | InAcquire k =>
          match Scheduler.callers (sched s) !! k with
          | Some (Scheduler.Holding _) => Next (set_req r (go (Got k waited) [Gate.AAcquired] q) s)
          | Some Scheduler.Failed =>
              Next (set_req r (turn (acquire_lap true waited false) (Ended Gate.Refused no_upstream)
                                 (refuse "deferred" "deferred" "GPU busy: wait budget exceeded" waited q) q) s)
          | _ => Disabled
          end
      | _ => Disabled
      end)
  | FRecheck r => with_req r s (fun q =>
      match at_ q with
      | Got k waited =>
          if (yields s).1 then Next (set_req r (go (Dropping k waited) [] q) s)
          else Next (set_req r (turn (acquire_lap false waited false) (Clear k waited) [] q) s)
      | _ => Disabled
      end)
  | FDrop r => with_req r s (fun q =>
      match at_ q with
      | Dropping k waited =>
          x ← Scheduler.step (Scheduler.ERelease k) (sched s);
          let l := acquire_lap false waited true in
          Next (set_req r (if negb (can_park s (cfg q))
                           then turn l (Ended Gate.Refused no_upstream)
                                  (Gate.AReleased :: refuse "deferred" "deferred" "yielding GPU" waited q) q
                           else turn l Top [Gate.AReleased] q) (set_sched x s))
      | _ => Disabled
      end)
  | FBind r => with_req r s (fun q =>
      match at_ q with
      | Clear k waited =>
          let u := Call (Yield.ServeContext (Yield.ctl (ctl s))) (if gone q then Some Gate.CtxCanceled else None) true in
          Next (set_req r (go (Serving k waited u) (serve_begin (cfg q) waited) q) s)
      | _ => Disabled
      end)
  (* select { case <-serveDone: cancel(); case <-ctx.Done(): } *)
  | FWatch r => with_req r s (fun q =>
      match at_ q with
      | Serving k waited u =>
          if watching u && (serveDone s u || bool_decide (err u <> None))
          then let u := end_call Gate.CtxCanceled u in Next (set_req r (go (Serving k waited (Call (bound u) (err u) false)) [] q) s)
          else Disabled
      | _ => Disabled
      end)
  (* context.WithTimeout(r.Context(), upstreamTimeout) *)
  | FDeadline r => with_req r s (fun q =>
      match at_ q with
      | Serving k waited u =>
          if 0 <? Gate.upstreamTimeout (cfg q)
          then Next (set_req r (go (Serving k waited (end_call Gate.CtxDeadlineExceeded u)) [] q) s) else Disabled
      | _ => Disabled
      end)
  | FGone r => with_req r s (fun q => Next (set_req r (disconnect q) s))
  | FReturn r panics => with_req r s (fun q =>
      match at_ q with
      | Serving k waited u =>
          let u := Gate.Upstream panics (serveDone s u) (err u) in
          Next (set_req r (go (Leaving k waited u) (serve_end q waited u) q) s)
      | _ => Disabled
      end)
  | FRelease r => with_req r s (fun q =>
      match at_ q with
      | Leaving k waited u =>
          x ← Scheduler.step (Scheduler.ERelease k) (sched s);
          Next (set_req r (go (Ended (Gate.SlotHeld waited (parkWait q) (wasParked q)) u) [Gate.ACancel; Gate.AReleased] q)
                  (set_sched x s))
      | _ => Disabled
      end)
  end.

(** The broker before its first request: the schedulers as main makes them, the
    controller as [buildBroker] leaves it. *)
Definition init (x : Scheduler.sched) (s : system) : Prop :=
  exists y, Yield.init y /\ s = Sys y (Scheduler.System x ∅) (Park.fresh_lot (Scheduler.park x)) ∅ ∅.

(** ** The components, seen from a request *)

(** The Acquire call a request has in hand. *)
Definition current (q : req) : option nat :=
  match at_ q with
  | InAcquire k | Got k _ | Dropping k _ | Clear k _ | Serving k _ _ | Leaving k _ _ => Some k
  | _ => None
  end.

Definition serving (q : req) : bool := match at_ q with Serving _ _ _ => true | _ => false end.

(** What the steps of others can do to a caller of the scheduler. *)
Definition caller_next (c c' : Scheduler.caller) : Prop :=
  match c with
  | Scheduler.Waiting k _ =>
      c' = Scheduler.HandingOn \/ c' = Scheduler.Failed \/ c' = Scheduler.Holding k \/ exists b, c' = Scheduler.Waiting k b
  | Scheduler.HandingOn => c' = Scheduler.HandingOn \/ c' = Scheduler.Failed
  | _ => c' = c
  end.

Lemma caller_next_refl c : caller_next c c.
Proof. destruct c; simpl; eauto. Qed.
#[local] Hint Resolve caller_next_refl : core.

Definition stable (ex : option nat) (x y : Scheduler.system) : Prop :=
  forall k c, Scheduler.callers x !! k = Some c -> ex <> Some k ->
  exists c', Scheduler.callers y !! k = Some c' /\ caller_next c c'.

Lemma stable_refl ex x : stable ex x x.
Proof. intros k c Hk _. eauto. Qed.

Lemma stable_insert ex x y w c' : stable ex x y ->
  (forall c, Scheduler.callers x !! w = Some c -> ex <> Some w -> caller_next c c') ->
  stable ex x (Scheduler.set_caller w c' y).
Proof.
  intros Hs Hw k c Hk He. simpl. destruct (decide (k = w)) as [->|Hn].
  - exists c'. split; [by simplify_map_eq|eauto].
  - destruct (Hs k c Hk He) as (c2 & Hc2 & Hn2). exists c2. by simplify_map_eq.
Qed.

Lemma stable_close ex x ow y z : stable ex x y ->
  (forall w c, Scheduler.callers y !! w = Some c -> Scheduler.callers x !! w = Some c \/ ex = Some w \/ c = Scheduler.Failed) ->
  Scheduler.close_waiter ow y = Next z -> stable ex x z.
Proof.
  intros Hs Hxy. destruct ow as [w|]; simpl; [|by intros [= <-]].
  destruct (Scheduler.callers y !! w) as [[cl []| | | |]|] eqn:Hw; try done. intros [= <-].
  apply stable_insert; [done|]. intros c Hc He.
  destruct (Hxy _ _ Hw) as [H|[H|H]]; [|done..]. simplify_eq. simpl. eauto.
Qed.

Lemma sched_stable e x y : Scheduler.step e x = Next y ->
  stable (match e with Scheduler.ERelease k => Some k | _ => None end) x y.
Proof.
  intros Hs. destruct e as [c w|w|w|w|w]; simpl in Hs.
  - destruct (Scheduler.callers x !! w) eqn:Hw; [done|]. destruct (Scheduler.Acquire_enter c w _) as [en z].
    simplify_eq. intros k c' Hk _. exists c'. simpl. split; [|done]. rewrite lookup_insert_ne; [done|]. by intros ->; simplify_eq.
  - destruct (Scheduler.callers x !! w) as [[cl []| | | |]|] eqn:Hw; try done. simplify_eq.
    apply stable_insert; [apply stable_refl|]. intros c Hc _. simplify_eq. simpl. eauto.
  - destruct (Scheduler.callers x !! w) as [[cl b| | | |]|] eqn:Hw; try done.
    destruct (Scheduler.removeWaiter cl w _) as [f z]. simplify_eq.
    intros k c Hk _. simpl. destruct (decide (k = w)) as [->|]; simplify_map_eq; [|eauto].
    eexists. split; [done|]. destruct f; simpl; eauto.
  - destruct (Scheduler.callers x !! w) as [[| | | |]|] eqn:Hw; try done.
    destruct (Scheduler.Release _) as [ow z]. eapply stable_close; [| |done].
    + intros k c Hk _. simpl. destruct (decide (k = w)) as [->|]; simplify_map_eq; [|eauto].
      eexists. split; [done|]. simpl. eauto.
    + simpl. intros k c [[<- <-]|[_ Hk]]%lookup_insert_Some; eauto.
  - destruct (Scheduler.callers x !! w) as [[|cl| | |]|] eqn:Hw; try done.
    destruct (Scheduler.Release _) as [ow z]. eapply stable_close; [| |done].
    + intros k c Hk He. simpl. destruct (decide (k = w)) as [->|]; [done|]. simplify_map_eq. eauto.
    + simpl. intros k c [[<- <-]|[_ Hk]]%lookup_insert_Some; eauto.
Qed.

(** A released call is over. *)
Lemma release_done k x y : Scheduler.step (Scheduler.ERelease k) x = Next y ->
  Scheduler.callers y !! k = Some Scheduler.Done.
Proof.
  simpl. destruct (Scheduler.callers x !! k) as [[|cl| | |]|] eqn:Hw; try done.
  destruct (Scheduler.Release _) as [[w|] z]; simpl; [|intros [= <-]; simpl; by simplify_map_eq].
  destruct (decide (w = k)) as [->|Hn]; [by rewrite lookup_insert_eq|]. rewrite lookup_insert_ne by done.
  destruct (Scheduler.callers x !! w) as [[? []| | | |]|]; try done. intros [= <-]. simpl.
  by rewrite lookup_insert_ne, lookup_insert_eq.
Qed.

(** A call in progress, for a slot at priority [cl]. *)
Definition pending (cl : Scheduler.Class) (c : Scheduler.caller) : Prop :=
  match c with
  | Scheduler.Waiting k _ | Scheduler.Holding k => k = cl
  | Scheduler.Done => False
  | _ => True
  end.

Lemma pending_next cl c c' : pending cl c -> caller_next c c' -> pending cl c'.
Proof. destruct c; simpl; intros H Hn; naive_solver. Qed.

(** An Acquire call is made under a fresh name and is not over at once. *)
Lemma acquire_fresh c k x y : Scheduler.step (Scheduler.EAcquire c k) x = Next y ->
  Scheduler.callers x !! k = None /\ exists c', Scheduler.callers y !! k = Some c' /\ pending c c'.
Proof.
  simpl. destruct (Scheduler.callers x !! k) eqn:Hk; [done|]. destruct (Scheduler.Acquire_enter c k _) as [e z].
  intros [= <-]. split; [done|]. simpl. rewrite lookup_insert_eq. eexists. split; [done|]. by destruct e.
Qed.

(** The park queue keeps its configuration. *)
Lemma park_config e l l' : Park.step e l = Next l' -> Park.maxQueue (Park.pk l') = Park.maxQueue (Park.pk l).
Proof.
  assert (forall w r, Park.maxQueue (Park.pk (Park.leave w r l)) = Park.maxQueue (Park.pk l)) as Hl.
  { intros w r. unfold Park.leave, Park.remove. by destruct (Park.splice_out _ _). }
  intros Hs. destruct e; simpl in Hs; repeat case_match; simplify_eq; try done.
  - unfold Park.enter, Park.parkFor_enter. by destruct (_ || _).
  - unfold Park.splice, Park.drainOneBurst in Hs. repeat case_match; by simplify_eq.
  - unfold Park.close_release in Hs. repeat case_match; by simplify_eq.
Qed.

(** ... and forgets no call. *)
Lemma park_calls e l l' : Park.step e l = Next l' -> forall k, is_Some (Park.calls l !! k) -> is_Some (Park.calls l' !! k).
Proof.
  intros Hs k Hk.
  assert (forall w c (m : gmap nat Park.pc), is_Some (m !! k) -> is_Some (<[w := c]> m !! k)) as Hi.
  { intros w c m Hm. destruct (decide (k = w)) as [->|]; [rewrite lookup_insert_eq|rewrite lookup_insert_ne]; by eauto. }
  assert (forall w r, is_Some (Park.calls (Park.leave w r l) !! k)) as Hl.
  { intros w r. unfold Park.leave, Park.remove. destruct (Park.splice_out _ _); by apply Hi. }
  destruct e; simpl in Hs; repeat case_match; simplify_eq; try done; try (by apply Hi).
  - unfold Park.enter. destruct (Park.parkFor_enter _ _); by apply Hi.
  - unfold Park.splice in Hs. repeat case_match; by simplify_eq.
  - unfold Park.close_release in Hs. repeat case_match; by simplify_eq.
Qed.

Lemma park_entered k l l' : Park.step (Park.EEnter k) l = Next l' ->
  Park.calls l !! k = None /\ is_Some (Park.calls l' !! k).
Proof.
  simpl. destruct (Park.calls l !! k); [done|]. intros [= <-]. split; [done|]. unfold Park.enter.
  destruct (Park.parkFor_enter _ _); cbn; rewrite lookup_insert_eq; eauto.
Qed.

(** Serve contexts are made in order. *)
Lemma start_all_ctx n a c : Yield.serveCtx (Yield.start_all n a c) = Yield.serveCtx c.
Proof. induction n as [|n IH]; simpl; [done|]. unfold Yield.start_and_go, Yield.startAction. simpl. exact IH. Qed.

Lemma check_idle_ctx n now c : Yield.serveCtx (Yield.check_idle n now c) = Yield.serveCtx c.
Proof.
  induction n as [|n IH]; simpl; [done|]. destruct (_ !! n); [|done]. destruct (Yield.idle_due _ _ _); [|done].
  unfold Yield.start_and_go, Yield.startAction. simpl. exact IH.
Qed.

Lemma apply_ctx now c : (Yield.serveCtx c <= Yield.serveCtx (Yield.applyLocked now c).2)%nat.
Proof.
  unfold Yield.applyLocked. destruct (Yield.computeLocked c) as [eff r]. destruct (Bool.eqb _ _); [done|].
  destruct eff; simpl; rewrite start_all_ctx; simpl; lia.
Qed.

Lemma yield_ctx e y y' : Yield.step e y = Next y' ->
  (Yield.ServeContext (Yield.ctl y) <= Yield.ServeContext (Yield.ctl y'))%nat.
Proof.
  unfold Yield.ServeContext. intros Hs.
  destruct e; simpl in Hs; [| |unfold Yield.startAction in *; repeat (case_match; simplify_eq/=); simplify_eq/=; done..].
  - simplify_eq. simpl. unfold Yield.refresh.
    destruct (Yield.debounceLocked _ _ _) as [[b r] c] eqn:Hd.
    assert (Yield.serveCtx c = Yield.serveCtx (Yield.ctl y)) as Hc.
    { unfold Yield.debounceLocked in Hd. repeat case_match; by simplify_eq/=. }
    destruct (Yield.applyLocked _ _) as [[? ?] c'] eqn:Ha. unfold Yield.checkIdleLocked. rewrite check_idle_ctx, <- Hc.
    pose proof (apply_ctx now (Yield.set_lastPoll now (Yield.set_auto b r c))) as H. by rewrite Ha in H.
  - simplify_eq. simpl. apply (apply_ctx now (Yield.set_mode m (Yield.ctl y))).
Qed.

Lemma start_all_canceled n a c : Yield.canceled (Yield.start_all n a c) = Yield.canceled c.
Proof. induction n as [|n IH]; simpl; [done|]. unfold Yield.start_and_go, Yield.startAction. simpl. exact IH. Qed.

Lemma check_idle_canceled n now c : Yield.canceled (Yield.check_idle n now c) = Yield.canceled c.
Proof.
  induction n as [|n IH]; simpl; [done|]. destruct (_ !! n); [|done]. destruct (Yield.idle_due _ _ _); [|done].
  unfold Yield.start_and_go, Yield.startAction. simpl. exact IH.
Qed.

Lemma apply_canceled now c : Yield.canceled c ⊆ Yield.canceled (Yield.applyLocked now c).2.
Proof.
  unfold Yield.applyLocked. destruct (Yield.computeLocked c) as [eff r]. destruct (Bool.eqb _ _); [done|].
  destruct eff; simpl; rewrite start_all_canceled; simpl; set_solver.
Qed.

(** What is cancelled stays so. *)
Lemma yield_ended e y y' : Yield.step e y = Next y' ->
  Yield.canceled (Yield.ctl y) ⊆ Yield.canceled (Yield.ctl y').
Proof.
  intros Hs.
  destruct e; simpl in Hs; [| |unfold Yield.startAction in *; repeat (case_match; simplify_eq/=); simplify_eq/=; done..].
  - simplify_eq. simpl. unfold Yield.refresh.
    destruct (Yield.debounceLocked _ _ _) as [[b r] c] eqn:Hd.
    assert (Yield.canceled c = Yield.canceled (Yield.ctl y)) as Hc.
    { unfold Yield.debounceLocked in Hd. repeat case_match; by simplify_eq/=. }
    destruct (Yield.applyLocked _ _) as [[? ?] c'] eqn:Ha. unfold Yield.checkIdleLocked. rewrite check_idle_canceled, <- Hc.
    pose proof (apply_canceled now (Yield.set_lastPoll now (Yield.set_auto b r c))) as H. by rewrite Ha in H.
  - simplify_eq. simpl. apply (apply_canceled now (Yield.set_mode m (Yield.ctl y))).
Qed.

(** ** What a request has observed and done *)

Definition hdr (q : req) : Gate.act := Gate.ASetHeader "X-Broker-Request-Id" (Gate.reqID (cfg q)).

(** Going round: every turn so far ended with another. *)
Definition looping (x : Scheduler.sched) (q : req) (more : list Gate.act) : Prop :=
  Forall (fun l => Gate.retries x (cfg q) l = true) (laps q) /\
  parkWait q = Gate.parked_total (laps q) /\ wasParked q = existsb Gate.parks (laps q) /\
  log q = hdr q :: flat_map Gate.retry_acts (laps q) ++ more.

(** Past the loop, with a slot. *)
Definition admitted (x : Scheduler.sched) (q : req) (waited : Z) (more : list Gate.act) : Prop :=
  exists acts, Gate.admitLoop x (cfg q) (laps q) 0 false = (acts, Gate.SlotHeld waited (parkWait q) (wasParked q)) /\
    log q = hdr q :: acts ++ more.

Definition log_ok (x : Scheduler.sched) (q : req) : Prop :=
  match at_ q with
  | Top | ToAcquire | InAcquire _ => looping x q []
  | ToPark _ => looping x q [] /\ Gate.may_park x (cfg q) = true
  | InPark _ _ => looping x q [Gate.APark] /\ Gate.may_park x (cfg q) = true
  | Got _ _ | Dropping _ _ => looping x q [Gate.AAcquired]
  | Clear _ w => admitted x q w []
  | Serving _ w _ => admitted x q w (serve_begin (cfg q) w)
  | Leaving _ w u => admitted x q w (serve_begin (cfg q) w ++ serve_end q w u)
  | Ended r u => (log q, r) = Gate.handle x (cfg q) (laps q) u
  end.

Lemma admit_turns x c pre l : Forall (fun l => Gate.retries x c l = true) pre ->
  forall pw wp, Gate.admitLoop x c (pre ++ [l]) pw wp =
  let '(acts, r) := Gate.admitLoop x c [l] (pw + Gate.parked_total pre) (wp || existsb Gate.parks pre) in
  (flat_map Gate.retry_acts pre ++ acts, r).
Proof.
  induction 1 as [|l' pre Hl _ IH]; intros pw wp.
  - rewrite Z.add_0_r, orb_false_r. cbn [app flat_map]. by destruct (Gate.admitLoop _ _ [l] _ _).
  - cbn [app]. rewrite (Gate.admit_retry _ _ _ _ _ _ Hl), IH. cbn [Gate.parked_total foldr existsb flat_map].
    fold (Gate.parked_total pre). rewrite orb_assoc, Z.add_assoc.
    replace (if Gate.parks l' then pw + Gate.parked_for l' else pw)
      with (pw + (if Gate.parks l' then Gate.parked_for l' else 0)) by (destruct (Gate.parks l'); lia).
    destruct (Gate.admitLoop _ _ [l] _ _) as [acts r]. by rewrite app_assoc.
Qed.

Lemma total_snoc ls l : Gate.parked_total (ls ++ [l]) =
  Gate.parked_total ls + (if Gate.parks l then Gate.parked_for l else 0).
Proof. induction ls as [|y ls IH]; simpl; [lia|]. fold (Gate.parked_total (ls ++ [l])). rewrite IH. fold (Gate.parked_total ls). lia. Qed.

(** A turn after which the loop goes round again. *)
Lemma looping_turn x q pw wp l acts more : looping x q more -> Gate.retries x (cfg q) l = true ->
  pw = parkWait q + (if Gate.parks l then Gate.parked_for l else 0) -> wp = wasParked q || Gate.parks l ->
  more ++ acts = Gate.retry_acts l ->
  forall g, looping x (Req (cfg q) Top pw wp (laps q ++ [l]) (log q ++ acts) g) [].
Proof.
  intros (Hf & Hp & Hw & Hl) Hr -> -> Ha g. split; [apply Forall_app_2; [done|by apply Forall_singleton]|]. cbn [parkWait wasParked laps log cfg].
  split; [by rewrite Hp, total_snoc|]. split; [rewrite Hw, existsb_app; simpl; by rewrite orb_false_r|].
  rewrite Hl. cbn [hdr cfg]. unfold hdr. cbn [cfg]. rewrite flat_map_app. cbn [flat_map app].
  by rewrite <- !app_assoc, !app_nil_r, <- Ha.
Qed.

(** The turn that refuses the request. *)
Lemma looping_refused x q l p pw wp acts more a g : looping x q more ->
  Gate.admitLoop x (cfg q) [l] (parkWait q) (wasParked q) = (a, Gate.Refused) -> more ++ acts = a ->
  let q' := Req (cfg q) p pw wp (laps q ++ [l]) (log q ++ acts) g in
  (log q', Gate.Refused) = Gate.handle x (cfg q') (laps q') no_upstream.
Proof.
  intros (Hf & Hp & Hw & Hl) Ha <-. cbn zeta. cbn [log laps cfg]. unfold Gate.handle.
  rewrite (admit_turns _ _ _ _ Hf), Z.add_0_l. cbn [orb]. rewrite <- Hp, <- Hw, Ha. cbn iota beta.
  rewrite Hl. unfold hdr. cbn [app]. by rewrite !app_nil_r, <- !app_assoc.
Qed.

(** The turn that takes the slot. *)
Lemma looping_admitted x q w k : looping x q [Gate.AAcquired] ->
  admitted x (turn (acquire_lap false w false) (Clear k w) [] q) w [].
Proof.
  intros (Hf & Hp & Hw & Hl). eexists. split.
  - cbn [turn cfg laps parkWait wasParked]. rewrite (admit_turns _ _ _ _ Hf), Z.add_0_l. cbn [orb].
    rewrite <- Hp, <- Hw. reflexivity.
  - cbn [turn log]. rewrite Hl. unfold hdr. cbn [cfg turn]. by rewrite !app_nil_r.
Qed.

Lemma served x q w u acts : admitted x q w (serve_begin (cfg q) w ++ serve_end q w u) ->
  acts = [Gate.ACancel; Gate.AReleased] ->
  (log q ++ acts, Gate.SlotHeld w (parkWait q) (wasParked q)) = Gate.handle x (cfg q) (laps q) u.
Proof.
  intros (a & Ha & Hl) ->. unfold Gate.handle. rewrite Ha, Hl. cbn iota beta. unfold hdr. cbn [app].
  by rewrite <- !app_assoc.
Qed.

(** ** The invariant *)

Definition serve_ctx (s : system) : nat := Yield.ServeContext (Yield.ctl (ctl s)).

Definition ended_serving (s : system) : gset nat := Yield.canceled (Yield.ctl (ctl s)).

(** A call's context is watched or done, and done for a reason. *)
Record upcall_ok (y : Yield.system) (q : req) (u : upcall) : Prop := {
  uo_bound : (bound u <= Yield.ServeContext (Yield.ctl y))%nat;
  uo_watched : watching u = false -> err u <> None;
  uo_canceled : err u = Some Gate.CtxCanceled -> bound u ∈ Yield.canceled (Yield.ctl y) \/ gone q = true;
  uo_deadline : err u = Some Gate.CtxDeadlineExceeded -> 0 < Gate.upstreamTimeout (cfg q);
}.

(** A request's call is where the request thinks it is. *)
Definition call_ok (s : system) (q : req) : Prop :=
  match at_ q with
  | InPark _ k => is_Some (Park.calls (park s) !! k)
  | InAcquire k =>
      k ∈ mine s /\ exists c, Scheduler.callers (sched s) !! k = Some c /\ pending (Gate.class (cfg q)) c
  | Got k _ | Dropping k _ | Clear k _ | Leaving k _ _ =>
      k ∈ mine s /\ Scheduler.callers (sched s) !! k = Some (Scheduler.Holding (Gate.class (cfg q)))
  | Serving k _ u =>
      (k ∈ mine s /\ Scheduler.callers (sched s) !! k = Some (Scheduler.Holding (Gate.class (cfg q)))) /\
      upcall_ok (ctl s) q u
  | _ => True
  end.

Definition finished (c : Scheduler.caller) : Prop := c = Scheduler.Failed \/ c = Scheduler.Done.

Record inv (x : Scheduler.sched) (s : system) : Prop := {
  in_ctl : reachable Yield.step Yield.init (ctl s);
  in_sched : Scheduler.inv (sched s);
  in_limit : Scheduler.maxInflight (Scheduler.sch (sched s)) = Scheduler.maxInflight x;
  in_park : Park.inv (park s);
  in_config : Park.maxQueue (Park.pk (park s)) = Park.maxQueue (Scheduler.park x);
  in_log : forall r q, reqs s !! r = Some q -> log_ok x q;
  in_call : forall r q, reqs s !! r = Some q -> call_ok s q;
  in_cur : forall r r' q q' k, reqs s !! r = Some q -> reqs s !! r' = Some q' ->
    current q = Some k -> current q' = Some k -> r = r';
  in_mine : forall k, k ∈ mine s -> (exists r q, reqs s !! r = Some q /\ current q = Some k) \/
    exists c, Scheduler.callers (sched s) !! k = Some c /\ finished c;
}.

Lemma call_ok_current s q k : call_ok s q -> current q = Some k ->
  k ∈ mine s /\ exists c, Scheduler.callers (sched s) !! k = Some c.
Proof.
  unfold call_ok, current. destruct (at_ q); try done; intros H [= <-]; naive_solver.
Qed.

Lemma mine_called x s k : inv x s -> k ∈ mine s -> is_Some (Scheduler.callers (sched s) !! k).
Proof.
  intros Hi Hk. destruct (in_mine _ _ Hi k Hk) as [(r & q & Hr & Hc)|(c & Hc & _)]; [|by rewrite Hc].
  destruct (call_ok_current _ _ _ (in_call _ _ Hi _ _ Hr) Hc) as (_ & c & ->). by eexists.
Qed.

Definition calls_kept (l l' : Park.lot) : Prop := forall k, is_Some (Park.calls l !! k) -> is_Some (Park.calls l' !! k).

Lemma calls_kept_refl l : calls_kept l l.
Proof. by intros k. Qed.
#[local] Hint Resolve calls_kept_refl : core.

Lemma upcall_ok_mono s s' q u : upcall_ok (ctl s) q u -> (serve_ctx s <= serve_ctx s')%nat ->
  ended_serving s ⊆ ended_serving s' -> upcall_ok (ctl s') q u.
Proof. unfold serve_ctx, ended_serving. intros [] Hc He. split; [lia|done| |done]. intros E. destruct (uo_canceled0 E); [left; set_solver|by right]. Qed.

Lemma call_ok_mono s s' q : call_ok s q -> mine s ⊆ mine s' -> (serve_ctx s <= serve_ctx s')%nat ->
  ended_serving s ⊆ ended_serving s' ->
  calls_kept (park s) (park s') ->
  (forall k c, current q = Some k -> Scheduler.callers (sched s) !! k = Some c ->
    exists c', Scheduler.callers (sched s') !! k = Some c' /\ caller_next c c') -> call_ok s' q.
Proof.
  unfold call_ok, current. intros H Hm Hc He Hp Hk. destruct (at_ q); try done.
  - by apply Hp.
  - destruct H as (? & c & Hs & Hd). destruct (Hk _ _ eq_refl Hs) as (c' & ? & Hn). split; [set_solver|].
    exists c'. split; [done|]. by eapply pending_next.
  - destruct H as (? & Hs). destruct (Hk _ _ eq_refl Hs) as (c' & ? & ->). split; [set_solver|done].
  - destruct H as (? & Hs). destruct (Hk _ _ eq_refl Hs) as (c' & ? & ->). split; [set_solver|done].
  - destruct H as (? & Hs). destruct (Hk _ _ eq_refl Hs) as (c' & ? & ->). split; [set_solver|done].
  - destruct H as ((? & Hs) & ?). destruct (Hk _ _ eq_refl Hs) as (c' & ? & ->).
    split; [split; [set_solver|done]|by eapply upcall_ok_mono].
  - destruct H as (? & Hs). destruct (Hk _ _ eq_refl Hs) as (c' & ? & ->). split; [set_solver|done].
Qed.

Lemma finished_stable ex x y k c : stable ex x y -> ex <> Some k -> Scheduler.callers x !! k = Some c -> finished c ->
  exists c', Scheduler.callers y !! k = Some c' /\ finished c'.
Proof. intros Hs He Hk [-> | ->]; destruct (Hs _ _ Hk He) as (c' & Hc' & ->); eexists; (split; [done|]); unfold finished; eauto. Qed.

(** How a request's hand changes in a step. *)
Inductive hand (s s' : system) (q q' : req) : Prop :=
| hand_same : current q' = current q -> mine s' = mine s -> hand s s' q q'
| hand_over k c : current q = Some k -> current q' = None -> mine s' = mine s ->
    Scheduler.callers (sched s') !! k = Some c -> finished c -> hand s s' q q'
| hand_fresh k : current q = None -> current q' = Some k -> Scheduler.callers (sched s) !! k = None ->
    mine s' = {[k]} ∪ mine s -> hand s s' q q'.

(** The parts of the invariant that are the components' own. *)
Record components (x : Scheduler.sched) (s s' : system) : Prop := {
  co_ctl : reachable Yield.step Yield.init (ctl s');
  co_ctx : (serve_ctx s <= serve_ctx s')%nat;
  co_ended : ended_serving s ⊆ ended_serving s';
  co_sched : Scheduler.inv (sched s');
  co_limit : Scheduler.maxInflight (Scheduler.sch (sched s')) = Scheduler.maxInflight x;
  co_park : Park.inv (park s');
  co_config : Park.maxQueue (Park.pk (park s')) = Park.maxQueue (Scheduler.park x);
  co_calls : calls_kept (park s) (park s');
}.

Lemma inv_env x s s' ex : inv x s -> components x s s' -> reqs s' = reqs s -> mine s' = mine s ->
  stable ex (sched s) (sched s') -> (forall k, ex = Some k -> k ∉ mine s) -> inv x s'.
Proof.
  intros Hi [] Hr Hm Hs He. split; try done; rewrite ?Hr, ?Hm.
  - apply Hi.
  - intros r q Hq. pose proof (in_call _ _ Hi _ _ Hq) as Hc. eapply call_ok_mono; [done|by rewrite Hm|done..|].
    intros k c Hk Hkc. apply (Hs _ _ Hkc). intros E. by destruct (He _ E); destruct (call_ok_current _ _ _ Hc Hk).
  - apply Hi.
  - intros k Hk. destruct (in_mine _ _ Hi k Hk) as [H|(c & Hc & Hf)]; [by left|right].
    eapply finished_stable; [done| |done..]. intros E. by destruct (He _ E).
Qed.

Lemma inv_move x s s' r q q' ex : inv x s -> components x s s' -> reqs s !! r = Some q -> reqs s' = <[r := q']> (reqs s) ->
  stable ex (sched s) (sched s') -> (ex = None \/ ex = current q) -> hand s s' q q' ->
  log_ok x q' -> call_ok s' q' -> inv x s'.
Proof.
  intros Hi [] Hq Hr Hs He Hh Hlog Hcall.
  assert (mine s ⊆ mine s') as Hsub by (destruct Hh as [_ ->| |]; [done|set_solver..]).
  assert (forall r2 q2 k, r2 <> r -> reqs s !! r2 = Some q2 -> current q2 = Some k -> ex <> Some k) as Hex.
  { intros r2 q2 k Hn H2 Hk E. destruct He as [->|Hq']; [done|]. rewrite Hq' in E. destruct Hn.
    by eapply (in_cur _ _ Hi). }
  assert (forall r2 q2 k, reqs s !! r2 = Some q2 -> current q2 = Some k -> current q' = Some k -> r2 = r) as Hcur.
  { intros r2 q2 k H2 Hk Hk'. destruct Hh as [E _| |k' _ Hc Hn _].
    - eapply (in_cur _ _ Hi); [done..|]. congruence.
    - congruence.
    - simplify_eq. destruct (call_ok_current _ _ _ (in_call _ _ Hi _ _ H2) Hk) as (_ & c & Hc'). congruence. }
  split; try done; rewrite ?Hr.
  - intros r2 q2 [[<- <-]|[_ H2]]%lookup_insert_Some; [done|by eapply (in_log _ _ Hi)].
  - intros r2 q2 [[<- <-]|[Hn H2]]%lookup_insert_Some; [done|].
    pose proof (in_call _ _ Hi _ _ H2) as Hc. eapply call_ok_mono; [done..|].
    intros k c Hk Hkc. by apply (Hs _ _ Hkc), (Hex r2 q2).
  - intros r1 r2 q1 q2 k [[<- <-]|[Hn1 H1]]%lookup_insert_Some [[<- <-]|[Hn2 H2]]%lookup_insert_Some Hk1 Hk2; try done.
    + symmetry. by eapply Hcur.
    + by eapply Hcur.
    + by eapply (in_cur _ _ Hi).
  - assert (forall k, k ∈ mine s -> (exists r2 q2, <[r := q']> (reqs s) !! r2 = Some q2 /\ current q2 = Some k) \/
      (exists c, Scheduler.callers (sched s') !! k = Some c /\ finished c)) as Hold.
    { intros k Hk. destruct (in_mine _ _ Hi k Hk) as [(r2 & q2 & H2 & Hk2)|(c & Hc & Hf)].
      - destruct (decide (r2 = r)) as [->|Hn]; [|left; exists r2, q2; by rewrite lookup_insert_ne].
        simplify_eq. destruct Hh as [E _|k' c Hk' _ _ Hc Hf|k' Hk' _ _ _].
        + left. exists r, q'. rewrite lookup_insert_eq. split; [done|]. congruence.
        + right. simplify_eq. eauto.
        + congruence.
      - destruct (decide (ex = Some k)) as [E|E].
        + destruct He as [->|Hq']; [done|]. rewrite Hq' in E. destruct Hh as [E2 _|k' c' Hk' _ _ Hc' Hf'|]; [| |congruence].
          * left. exists r, q'. rewrite lookup_insert_eq. split; [done|]. congruence.
          * right. assert (k' = k) as -> by congruence. eauto.
        + right. by eapply finished_stable. }
    intros k Hk. destruct Hh as [_ Hm|k' c _ _ Hm|k' _ Hc _ Hm]; rewrite Hm in Hk; try by apply Hold.
    apply elem_of_union in Hk as [->%elem_of_singleton|Hk]; [|by apply Hold].
    left. exists r, q'. by rewrite lookup_insert_eq.
Qed.

Lemma co_same x s s' : inv x s -> ctl s' = ctl s -> sched s' = sched s -> park s' = park s -> components x s s'.
Proof. intros [] Ec Es Ep. unfold serve_ctx. split; unfold serve_ctx, ended_serving; by rewrite ?Ec, ?Es, ?Ep. Qed.

Lemma co_sched_step x s s' e : inv x s -> ctl s' = ctl s -> Scheduler.step e (sched s) = Next (sched s') ->
  park s' = park s -> components x s s'.
Proof.
  intros [] Ec Es Ep. split; unfold serve_ctx, ended_serving; rewrite ?Ec, ?Ep; try done.
  - by eapply Scheduler.sched_step_inv.
  - destruct (Scheduler.step_limits _ _ _ Es). congruence.
Qed.

Lemma co_park_step x s s' e : inv x s -> ctl s' = ctl s -> sched s' = sched s ->
  Park.step e (park s) = Next (park s') -> components x s s'.
Proof.
  intros [] Ec Es Ep. split; unfold serve_ctx, ended_serving; rewrite ?Ec, ?Es; try done.
  - by eapply Park.park_step_inv.
  - rewrite (park_config _ _ _ Ep). done.
  - exact (park_calls _ _ _ Ep).
Qed.

Lemma can_park_eq x s c : inv x s -> can_park s c = Gate.may_park x c.
Proof. intros Hi. unfold can_park, Gate.may_park, Park.parkEnabled. by rewrite (in_config _ _ Hi). Qed.

(** Steps of the components alone. *)
Lemma yield_inv x s e y : inv x s -> Yield.step e (ctl s) = Next y -> inv x (set_ctl y s).
Proof.
  intros Hi Hs. eapply (inv_env _ s _ None); [done| |done..|apply stable_refl|done].
  pose proof Hi as []. split; try done; [by eapply reach_step|by eapply yield_ctx|by eapply yield_ended].
Qed.

Lemma sched_inv x s e y : inv x s -> Scheduler.step e (sched s) = Next y ->
  (forall k, e = Scheduler.ERelease k -> k ∉ mine s) -> inv x (set_sched y s).
Proof.
  intros Hi Hs Hk. eapply (inv_env _ s); [done|by eapply co_sched_step|done..|by apply sched_stable|].
  intros k E. apply Hk. destruct e; try done. by injection E as ->.
Qed.

Lemma park_inv x s e l : inv x s -> Park.step e (park s) = Next l -> inv x (set_park l s).
Proof. intros Hi Hs. eapply (inv_env _ s _ None); [done|by eapply co_park_step|done..|apply stable_refl|done]. Qed.

(** A step of a request that leaves the components alone and keeps its call. *)
Lemma local_inv x s r q q' : inv x s -> reqs s !! r = Some q -> current q' = current q ->
  log_ok x q' -> call_ok s q' -> inv x (set_req r q' s).
Proof.
  intros Hi Hq Hc Hl Hk. eapply (inv_move _ s _ r q q' None); try done; [by apply co_same|apply stable_refl|by left|].
  by apply hand_same.
Qed.

Lemma go_nil x q more : looping x q more -> forall p, looping x (go p [] q) more.
Proof. intros (Hf & Hp & Hw & Hl) p. split; [done|]. split; [done|]. split; [done|]. cbn [go log laps hdr cfg]. by rewrite app_nil_r. Qed.

Lemma go_acts x q acts : looping x q [] -> forall p, looping x (go p acts q) acts.
Proof.
  intros (Hf & Hp & Hw & Hl) p. split; [done|]. split; [done|]. split; [done|]. cbn [go log laps]. rewrite Hl.
  unfold hdr. cbn [cfg go]. by rewrite app_nil_r.
Qed.

Lemma admitted_go x q w more acts p : admitted x q w more -> admitted x (go p acts q) w (more ++ acts).
Proof.
  intros (a & Ha & Hl). exists a. split; [done|]. cbn [go log]. rewrite Hl. unfold hdr. cbn [cfg go app].
  by rewrite <- app_assoc.
Qed.

Ltac request Hi Hs :=
  unfold with_req in Hs; destruct (reqs _ !! _) as [q|] eqn:Hq in Hs; [|done];
  pose proof (in_log _ _ Hi _ _ Hq) as Hlog; pose proof (in_call _ _ Hi _ _ Hq) as Hcall;
  unfold log_ok in Hlog; unfold call_ok in Hcall; destruct (at_ q) eqn:Hat; try done.

Lemma arrive_inv x s r c s' : inv x s -> step (FArrive r c) s = Next s' -> inv x s'.
Proof.
  intros Hi Hs. simpl in Hs. destruct (reqs s !! r) eqn:Hr; [done|]. simplify_eq.
  set (q := Req _ _ _ _ _ _ _). pose proof Hi as []. split; try done; simpl.
  - intros r2 q2 [[<- <-]|[_ H2]]%lookup_insert_Some; [|by eapply in_log0]. repeat split. constructor.
  - intros r2 q2 [[<- <-]|[_ H2]]%lookup_insert_Some; [done|by apply (in_call0 _ _ H2)].
  - intros r1 r2 q1 q2 k [[<- <-]|[_ H1]]%lookup_insert_Some [[<- <-]|[_ H2]]%lookup_insert_Some; try done. by eapply in_cur0.
  - intros k Hk. destruct (in_mine0 k Hk) as [(r2 & q2 & H2 & Hc)|H]; [left|by right].
    exists r2, q2. split; [|done]. rewrite lookup_insert_ne; [done|]. by intros ->; simplify_eq.
Qed.

Lemma check_inv x s r since s' : inv x s -> step (FCheck r since) s = Next s' -> inv x s'.
Proof.
  intros Hi Hs. simpl in Hs. request Hi Hs.
  destruct (yields s) as [[] reason].
  - rewrite (can_park_eq x) in Hs by done. destruct (Gate.may_park x (cfg q)) eqn:Hp; cbn [negb] in Hs; simplify_eq;
      (eapply local_inv; [done..|by unfold current; rewrite Hat| |done]).
    + split; [by apply go_nil|done].
    + eapply (looping_refused x q _ _ _ _ _ []); [done| |done]. cbn [Gate.admitLoop park_lap Gate.yielding]. by rewrite Hp.
  - simplify_eq. eapply local_inv; [done..|by unfold current; rewrite Hat| |done]. by apply (go_nil x q []).
Qed.

Lemma enter_park_inv x s r k s' : inv x s -> step (FEnterPark r k) s = Next s' -> inv x s'.
Proof.
  intros Hi Hs. cbn [step] in Hs. request Hi Hs.
  destruct (Park.step _ _) as [| |l] eqn:Hl; cbn [mbind outcome_bind] in Hs; simplify_eq. destruct Hlog as [Hlog Hm].
  eapply (inv_move _ s _ r q _ None); try done; [eapply co_park_step; [done..|exact Hl]|apply stable_refl|by left| | |].
  - apply hand_same; [|done]. unfold current. by rewrite Hat.
  - split; [by apply go_acts|done].
  - by eapply park_entered.
Qed.

Lemma parked_inv x s r since parked s' : inv x s -> step (FParked r since parked) s = Next s' -> inv x s'.
Proof.
  intros Hi Hs. simpl in Hs. request Hi Hs. destruct Hlog as [Hlog Hm].
  destruct (Park.calls (park s) !! k) as [[| |res]|]; try done.
  destruct res; simplify_eq; (eapply local_inv; [done..|by unfold current; rewrite Hat| |done]).
  1: { unfold log_ok, released. cbn [at_]. rewrite <- (app_nil_r (log q)).
       eapply looping_turn; [done| |done|by rewrite orb_true_r|done]. unfold Gate.retries. by rewrite Hm. }
  all: eapply (looping_refused x q _ _ _ _ _ [Gate.APark]); [done| |reflexivity].
  all: cbn [Gate.admitLoop park_lap Gate.yielding Gate.park_res]; by rewrite Hm.
Qed.

Lemma ask_inv x s r k s' : inv x s -> step (FAcquire r k) s = Next s' -> inv x s'.
Proof.
  intros Hi Hs. cbn [step] in Hs. request Hi Hs.
  destruct (Scheduler.step _ _) as [| |y] eqn:Hy; cbn [mbind outcome_bind] in Hs; simplify_eq. destruct (acquire_fresh _ _ _ _ Hy) as (Hf & c & Hc & Hd).
  eapply (inv_move _ s _ r q _ None); try done; [eapply co_sched_step; [done|done|exact Hy|done]|exact (sched_stable _ _ _ Hy)|by left| | |].
  - eapply (hand_fresh _ _ _ _ k); try done. unfold current. by rewrite Hat.
  - by apply (go_nil x q []).
  - cbn. split; [set_solver|]. eauto.
Qed.

Lemma acquired_inv x s r waited s' : inv x s -> step (FAcquired r waited) s = Next s' -> inv x s'.
Proof.
  intros Hi Hs. simpl in Hs. request Hi Hs. destruct Hcall as [Hk (c & Hc & Hd)]. rewrite Hc in Hs.
  destruct c; simplify_eq.
  - eapply local_inv; [done..|by unfold current; rewrite Hat|by apply go_acts|]. split; [done|]. rewrite Hc. by f_equal; f_equal.
  - eapply (inv_move _ s _ r q _ None); try done; [by apply co_same|apply stable_refl|by left| |].
    + eapply (hand_over _ _ _ _ k); try done; [unfold current; by rewrite Hat|by left].
    + eapply (looping_refused x q _ _ _ _ _ []); [done| |reflexivity]. done.
Qed.

Lemma recheck_inv x s r s' : inv x s -> step (FRecheck r) s = Next s' -> inv x s'.
Proof.
  intros Hi Hs. simpl in Hs. request Hi Hs.
  destruct (yields s).1; simplify_eq; (eapply local_inv; [done..|by unfold current; rewrite Hat| |done]).
  - by apply (go_nil x q [Gate.AAcquired]).
  - by apply looping_admitted.
Qed.

(** Giving the slot back ends the request's call. *)
Lemma give_back_inv x s r q q' k y : inv x s -> reqs s !! r = Some q -> current q = Some k -> current q' = None ->
  Scheduler.step (Scheduler.ERelease k) (sched s) = Next y -> log_ok x q' -> call_ok (set_sched y s) q' ->
  inv x (set_req r q' (set_sched y s)).
Proof.
  intros Hi Hq Hk Hn Hy Hl Hc.
  eapply (inv_move _ s _ r q _ (Some k)); try done; [eapply co_sched_step; [done|done|exact Hy|done]|exact (sched_stable _ _ _ Hy)|by right|].
  eapply (hand_over _ _ _ _ k); try done; [by eapply release_done|by right].
Qed.

Lemma drop_inv x s r s' : inv x s -> step (FDrop r) s = Next s' -> inv x s'.
Proof.
  intros Hi Hs. cbn [step] in Hs. request Hi Hs.
  destruct (Scheduler.step _ _) as [| |y] eqn:Hy; cbn [mbind outcome_bind] in Hs; simplify_eq. rewrite (can_park_eq x) by done.
  destruct (Gate.may_park x (cfg q)) eqn:Hm; cbn [negb];
    (eapply give_back_inv; [done..|unfold current; by rewrite Hat|done|done| |done]).
  - unfold log_ok, turn. cbn [at_]. eapply looping_turn; [done| | | |done].
    + unfold Gate.retries. by rewrite Hm.
    + cbn. lia.
    + cbn. by rewrite orb_false_r.
  - eapply (looping_refused x q _ _ _ _ _ [Gate.AAcquired]); [done| |reflexivity].
    cbn [Gate.admitLoop acquire_lap Gate.yielding Gate.acquire_err Gate.yielding_after]. by rewrite Hm.
Qed.

Lemma bind_inv x s r s' : inv x s -> step (FBind r) s = Next s' -> inv x s'.
Proof.
  intros Hi Hs. simpl in Hs. request Hi Hs. simplify_eq.
  eapply local_inv; [done..|by unfold current; rewrite Hat|by apply (admitted_go x q _ [])|].
  split; [done|]. split; cbn; [done|done|by destruct (gone q); [right|]|by destruct (gone q)].
Qed.

(** A step of a request under its call alone. *)
Lemma serving_inv x s r q k w u u' acts q' : inv x s -> reqs s !! r = Some q -> at_ q = Serving k w u ->
  at_ q' = Serving k w u' -> (cfg q', parkWait q', wasParked q', laps q', log q') = (cfg q, parkWait q, wasParked q, laps q, log q ++ acts) ->
  acts = [] -> upcall_ok (ctl s) q' u' -> inv x (set_req r q' s).
Proof.
  intros Hi Hq Ha Ha' [= Hc Hp Hw Hl Hg] -> Hu. rewrite app_nil_r in Hg.
  pose proof (in_log _ _ Hi _ _ Hq) as Hlog. pose proof (in_call _ _ Hi _ _ Hq) as Hcall.
  eapply local_inv; [done..|unfold current; by rewrite Ha, Ha'| |].
  - unfold log_ok in *. rewrite Ha in Hlog. rewrite Ha'. unfold admitted, hdr in *. by rewrite Hc, Hp, Hw, Hl, Hg.
  - unfold call_ok in *. rewrite Ha in Hcall. rewrite Ha', Hc. split; [apply Hcall|done].
Qed.

Lemma end_call_ok s q u e : upcall_ok (ctl s) q u ->
  (e = Gate.CtxCanceled -> bound u ∈ ended_serving s \/ gone q = true) ->
  (e = Gate.CtxDeadlineExceeded -> 0 < Gate.upstreamTimeout (cfg q)) -> upcall_ok (ctl s) q (end_call e u).
Proof.
  intros [] Hc Hd. unfold end_call. destruct (err u) eqn:He; [by split; rewrite ?He|].
  split; cbn; [done|done|intros [= ->]; auto|intros [= ->]; auto].
Qed.

Lemma end_call_done e u : err (end_call e u) <> None.
Proof. unfold end_call. destruct (err u) eqn:He; cbn; by rewrite ?He. Qed.

Lemma watch_inv x s r s' : inv x s -> step (FWatch r) s = Next s' -> inv x s'.
Proof.
  intros Hi Hs. cbn [step] in Hs. request Hi Hs. destruct Hcall as [_ Hu].
  destruct (watching u && _) eqn:E; [|done]. simplify_eq. apply andb_true_iff in E as [_ E].
  assert (upcall_ok (ctl s) q (end_call Gate.CtxCanceled u)) as [].
  { destruct (err u) eqn:He; [unfold end_call; by rewrite He|]. rewrite orb_false_r in E.
    apply bool_decide_eq_true in E. apply end_call_ok; [done|by left|done]. }
  eapply (serving_inv x s r q k waited u); [done..|reflexivity|reflexivity|reflexivity|].
  split; [done|intros _; apply end_call_done|done|done].
Qed.

Lemma deadline_inv x s r s' : inv x s -> step (FDeadline r) s = Next s' -> inv x s'.
Proof.
  intros Hi Hs. cbn [step] in Hs. request Hi Hs. destruct Hcall as [_ Hu].
  destruct (0 <? _) eqn:E; [|done]. simplify_eq. apply Z.ltb_lt in E.
  eapply (serving_inv x s r q k waited u); [done..|reflexivity|reflexivity|reflexivity|].
  destruct (end_call_ok s q u Gate.CtxDeadlineExceeded Hu ltac:(done) ltac:(done)). by split.
Qed.

Lemma gone_inv x s r s' : inv x s -> step (FGone r) s = Next s' -> inv x s'.
Proof.
  intros Hi Hs. cbn [step] in Hs. unfold with_req in Hs. destruct (reqs _ !! _) as [q|] eqn:Hq in Hs; [|done]. simplify_eq.
  pose proof (in_log _ _ Hi _ _ Hq) as Hlog. pose proof (in_call _ _ Hi _ _ Hq) as Hcall.
  destruct (at_ q) as [| | | | | | | |k w u| |] eqn:Hat.
  9: { unfold call_ok in Hcall. rewrite Hat in Hcall. destruct Hcall as [_ Hu].
    eapply (serving_inv x s r q k w u (end_call Gate.CtxCanceled u) []); [done..|cbn; by rewrite Hat|cbn; by rewrite app_nil_r|done|].
    assert (upcall_ok (ctl s) (disconnect q) u) as Hu' by (destruct Hu; split; try done; by right).
    apply end_call_ok; [done|by right|done]. }
  all: eapply local_inv; [done..|unfold current, disconnect; cbn [at_]; by rewrite Hat| |].
  all: try (unfold log_ok, disconnect in *; cbn [at_]; rewrite Hat in *; exact Hlog).
  all: unfold call_ok, disconnect in *; cbn [at_]; rewrite Hat in *; exact Hcall.
Qed.

Lemma return_inv x s r panics s' : inv x s -> step (FReturn r panics) s = Next s' -> inv x s'.
Proof.
  intros Hi Hs. cbn [step] in Hs. request Hi Hs. simplify_eq.
  eapply local_inv; [done..|by unfold current; rewrite Hat| |apply Hcall].
  by apply (admitted_go x q).
Qed.

Lemma end_inv x s r s' : inv x s -> step (FRelease r) s = Next s' -> inv x s'.
Proof.
  intros Hi Hs. cbn [step] in Hs. request Hi Hs.
  destruct (Scheduler.step _ _) as [| |y] eqn:Hy; cbn [mbind outcome_bind] in Hs; simplify_eq.
  eapply give_back_inv; [done..|unfold current; by rewrite Hat|done|done| |done].
  by eapply (served x q).
Qed.

Lemma sched_event_inv x s e s' : inv x s -> step (FSched e) s = Next s' -> inv x s'.
Proof.
  intros Hi Hs. cbn [step] in Hs. destruct e; [..|case_decide; [done|]]; apply bind_next in Hs as (y & Hy & [= <-]);
    (eapply sched_inv; [done|exact Hy|]); try done. by intros ? [= <-].
Qed.

Lemma park_event_inv x s e s' : inv x s -> step (FPark e) s = Next s' -> inv x s'.
Proof.
  intros Hi Hs. cbn [step] in Hs. destruct e as [|w|w| |w|w|w|w|y| |]; [done|..].
  8: destruct (Bool.eqb y _); [|done].
  all: apply bind_next in Hs as (l & Hl & [= <-]); by eapply park_inv.
Qed.

Lemma front_step_inv x s e s' : inv x s -> step e s = Next s' -> inv x s'.
Proof.
  intros Hi Hs. destruct e.
  - cbn [step] in Hs. apply bind_next in Hs as (y & Hy & [= <-]). by eapply yield_inv.
  - by eapply sched_event_inv.
  - by eapply park_event_inv.
  - by eapply arrive_inv.
  - by eapply check_inv.
  - by eapply enter_park_inv.
  - by eapply parked_inv.
  - by eapply ask_inv.
  - by eapply acquired_inv.
  - by eapply recheck_inv.
  - by eapply drop_inv.
  - by eapply bind_inv.
  - by eapply watch_inv.
  - by eapply deadline_inv.
  - by eapply gone_inv.
  - by eapply return_inv.
  - by eapply end_inv.
Qed.

(** A scheduler as main sets one up, with nobody in it. *)
Record ready (x : Scheduler.sched) : Prop := {
  re_sched : Scheduler.inv (Scheduler.System x ∅);
  re_park : Park.inv (Park.fresh_lot (Scheduler.park x));
}.

Lemma front_init_inv x s : ready x -> init x s -> inv x s.
Proof.
  intros [Hs Hp] (y & Hy & ->). split; try done. by apply reach_init.
Qed.

Lemma reachable_front_inv x s : ready x -> reachable step (init x) s -> inv x s.
Proof. intros Hx. apply reachable_inv; eauto using front_init_inv, front_step_inv. Qed.

Lemma canceled_iff y c : reachable Yield.step Yield.init y -> (c <= Yield.ServeContext (Yield.ctl y))%nat ->
  c ∈ Yield.canceled (Yield.ctl y) <->
  (Yield.Yielding (Yield.ctl y)).1 = true \/ (c < Yield.ServeContext (Yield.ctl y))%nat.
Proof.
  intros Hy Hc. destruct (Yield.inv_phase _ (Yield.reachable_yield_inv _ Hy)) as [H _]. rewrite H.
  rewrite (Yield.reachable_effective _ Hy). unfold Yield.Yielding, Yield.ServeContext in *. split.
  - intros [?|[_ ?]]; auto.
  - intros [?|?]; [|by left]. destruct (decide (c = Yield.serveCtx (Yield.ctl y))); [by right|left; lia].
Qed.

Lemma serving_bounded x s : inv x s -> Z.of_nat (count_map serving (reqs s)) <= Scheduler.maxInflight x.
Proof.
  intros Hi. pose proof Hi as []. rewrite <- in_limit0. destruct in_sched0. etrans; [|apply inv_max].
  rewrite inv_inflight. apply inj_le. apply (count_map_inj _ _ current); [|by intros; eapply in_cur0].
  intros r q Hr Hs. unfold serving in Hs. destruct (at_ q) eqn:Hat; try done.
  pose proof (in_call0 _ _ Hr) as Hc. unfold call_ok in Hc. rewrite Hat in Hc. destruct Hc as [[_ Hc] _].
  exists k, (Scheduler.Holding (Gate.class (cfg q))). unfold current. by rewrite Hat.
Qed.

(** The log of a request is the beginning of a run of the handler. *)
Lemma log_prefix x q : log_ok x q -> exists more u, log q `prefix_of` (Gate.handle x (cfg q) (laps q ++ more) u).1.
Proof.
  assert (forall more l a b r, looping x q more -> Gate.admitLoop x (cfg q) [l] (parkWait q) (wasParked q) = (a, r) ->
    a = more ++ b -> exists more u, log q `prefix_of` (Gate.handle x (cfg q) (laps q ++ more) u).1) as Hloop.
  { intros more l a b r (Hf & Hp & Hw & ->) Ha ->. exists [l], no_upstream. unfold Gate.handle.
    rewrite (admit_turns _ _ _ _ Hf), Z.add_0_l. cbn [orb]. rewrite <- Hp, <- Hw, Ha. cbn [fst].
    unfold hdr. rewrite <- !app_assoc. apply prefix_cons, prefix_app. rewrite app_assoc. by apply prefix_app_r, prefix_app_r. }
  assert (looping x q [] -> exists more u, log q `prefix_of` (Gate.handle x (cfg q) (laps q ++ more) u).1) as Hnil.
  { intros Hq. eapply (Hloop [] (acquire_lap false 0 false)); [done|reflexivity|]. cbn [app]. reflexivity. }
  assert (forall w u more rest, admitted x q w more -> Gate.serve (cfg q) w (parkWait q) (wasParked q) u = more ++ rest ->
    exists more u, log q `prefix_of` (Gate.handle x (cfg q) (laps q ++ more) u).1) as Hadm.
  { intros w u more rest (a & Ha & ->) Hs. exists [], u. unfold Gate.handle. rewrite app_nil_r, Ha. cbn [fst]. rewrite Hs.
    unfold hdr. apply prefix_cons, prefix_app. by apply prefix_app_r. }
  unfold log_ok. destruct (at_ q); auto; try (intros [? ?]; auto; fail).
  - intros [Hq Hm]. eapply (Hloop [Gate.APark] (park_lap reason 0 Park.parkExpired 0)); [done| |by instantiate (1 := _ :: _)].
    cbn [Gate.admitLoop park_lap Gate.yielding Gate.park_res]. rewrite Hm. cbn [negb]. reflexivity.
  - intros Hq. eapply (Hloop [Gate.AAcquired] (acquire_lap false 0 false)); [done|reflexivity|]. by instantiate (1 := []).
  - intros Hq. eapply (Hloop [Gate.AAcquired] (acquire_lap false 0 false)); [done|reflexivity|]. by instantiate (1 := []).
  - intros Hq. by eapply (Hadm _ no_upstream []).
  - intros Hq. by eapply (Hadm _ no_upstream (serve_begin (cfg q) waited)).
  - intros Hq. eapply (Hadm _ u _ [Gate.ACancel; Gate.AReleased]); [done|].
    unfold Gate.serve, serve_begin, serve_end. by rewrite <- !app_assoc.
  - intros Hq. exists [], u. rewrite app_nil_r, <- Hq. done.
Qed.

(** No step panics. *)
Lemma yield_no_panic e y : Yield.step e y <> Panic.
Proof. destruct e; simpl; repeat case_match; done. Qed.

Lemma front_no_panic x s : inv x s -> forall e, step e s <> Panic.
Proof.
  intros Hi e.
  assert (forall e' (f : Scheduler.system -> system), (x ← Scheduler.step e' (sched s); Next (f x)) <> Panic) as Hsch.
  { intros e' f. apply bind_panic; [|done]. apply Scheduler.step_no_panic, Hi. }
  assert (forall e' (f : Park.lot -> system), (l ← Park.step e' (park s); Next (f l)) <> Panic) as Hpark.
  { intros e' f. apply bind_panic; [|done]. apply Park.no_close_twice, Hi. }
  destruct e as [e|e|e| | | | | | | | | | | | | |]; cbn [step]; unfold with_req.
  - apply bind_panic; [apply yield_no_panic|done].
  - destruct e; try apply Hsch. case_decide; [done|apply Hsch].
  - destruct e; try done; try apply Hpark. destruct (Bool.eqb _ _); [apply Hpark|done].
  - by destruct (reqs s !! r).
  - destruct (reqs s !! r) as [q|]; [|done]. destruct (at_ q); try done. destruct (yields s) as [[] ?]; [|done].
    by destruct (negb _).
  - destruct (reqs s !! r) as [q|]; [|done]. destruct (at_ q); done || apply Hpark.
  - destruct (reqs s !! r) as [q|]; [|done]. destruct (at_ q); try done. by destruct (_ !! k) as [[| |[]]|].
  - destruct (reqs s !! r) as [q|]; [|done]. destruct (at_ q); done || apply Hsch.
  - destruct (reqs s !! r) as [q|]; [|done]. destruct (at_ q); try done. by destruct (_ !! k) as [[]|].
  - destruct (reqs s !! r) as [q|]; [|done]. destruct (at_ q); try done. by destruct (yields s).1.
  - destruct (reqs s !! r) as [q|]; [|done]. destruct (at_ q); done || apply Hsch.
  - destruct (reqs s !! r) as [q|]; [|done]. by destruct (at_ q).
  - destruct (reqs s !! r) as [q|]; [|done]. destruct (at_ q); try done. by destruct (_ && _).
  - destruct (reqs s !! r) as [q|]; [|done]. destruct (at_ q); try done. by destruct (_ <? _).
  - by destruct (reqs s !! r).
  - destruct (reqs s !! r) as [q|]; [|done]. by destruct (at_ q).
  - destruct (reqs s !! r) as [q|]; [|done]. destruct (at_ q); done || apply Hsch.
Qed.

(** ** A request can always end *)

(** The steps of one request, of its timers, and of the handing on of a slot
    that was granted too late. *)
Definition own (r : nat) (e : event) : Prop :=
  match e with
  | FYield _ | FArrive _ _ => False
  | FSched (Scheduler.ECancel _) | FSched (Scheduler.EHandOn _) => True
  | FSched _ => False
  | FPark (Park.EHoldElapsed _) | FPark (Park.ETakeTimeout _) | FPark (Park.ERemove _) => True
  | FPark _ => False
  | FCheck r' _ | FEnterPark r' _ | FParked r' _ _ | FAcquire r' _ | FAcquired r' _ | FRecheck r' | FDrop r'
  | FBind r' | FReturn r' _ | FRelease r' => r' = r
  | FWatch _ | FDeadline _ | FGone _ => False
  end.

Definition ends (r : nat) (s : system) : Prop :=
  exists es s' q res u, run_events step es s = Next s' /\ Forall (own r) es /\
    reqs s' !! r = Some q /\ at_ q = Ended res u.

Lemma ends_step x r s e s' : inv x s -> step e s = Next s' -> own r e -> (inv x s' -> ends r s') -> ends r s.
Proof.
  intros Hi Hs Ho H. destruct (H (front_step_inv _ _ _ _ Hi Hs)) as (es & s2 & q & res & u & Hr & Hf & Hq).
  exists (e :: es), s2, q, res, u. cbn [run_events]. rewrite Hs. split; [done|]. split; [by constructor|done].
Qed.

Lemma ends_now r s q res u : reqs s !! r = Some q -> at_ q = Ended res u -> ends r s.
Proof. intros Hq Ha. exists [], s, q, res, u. repeat split; [constructor|done..]. Qed.

(** In the state [s] the request [r] stands at [p]. *)
Definition stands (x : Scheduler.sched) (r : nat) (p : pc) (s : system) : Prop :=
  inv x s /\ exists q, reqs s !! r = Some q /\ at_ q = p.

Lemma stands_set x r q s : inv x (set_req r q s) -> stands x r (at_ q) (set_req r q s).
Proof. intros Hi. split; [done|]. exists q. split; [apply lookup_insert_eq|done]. Qed.

(** The next step of a request whose position is known. *)
Ltac take e Hq Ha :=
  eapply (ends_step _ _ _ e); [eassumption|cbn [step]; unfold with_req; rewrite Hq, Ha; try reflexivity|done|].

(** Releasing what a request holds neither blocks nor panics. *)
Lemma can_release x s k c : inv x s -> Scheduler.callers (sched s) !! k = Some (Scheduler.Holding c) ->
  exists y, Scheduler.step (Scheduler.ERelease k) (sched s) = Next y.
Proof.
  intros Hi Hk. pose proof (Scheduler.step_no_panic _ (Scheduler.ERelease k) (in_sched _ _ Hi)) as Hn.
  destruct (Scheduler.step (Scheduler.ERelease k) (sched s)) as [| |y] eqn:E; [|done|by exists y].
  simpl in E. rewrite Hk in E. destruct (Scheduler.Release _) as [[w|] z]; [|done]. simpl in E. by repeat case_match.
Qed.

Lemma ends_leaving x r k w u s : stands x r (Leaving k w u) s -> ends r s.
Proof.
  intros (Hi & q & Hq & Ha). pose proof (in_call _ _ Hi _ _ Hq) as Hc. unfold call_ok in Hc. rewrite Ha in Hc.
  destruct Hc as (_ & Hc). destruct (can_release _ _ _ _ Hi Hc) as (y & Hy).
  take (FRelease r) Hq Ha; [rewrite Hy; reflexivity|]. intros _. eapply ends_now; [apply lookup_insert_eq|done].
Qed.

Lemma ends_serving x r k w c s : stands x r (Serving k w c) s -> ends r s.
Proof.
  intros (Hi & q & Hq & Ha). take (FReturn r false) Hq Ha. intros Hi'. eapply ends_leaving, (stands_set _ _ _ _ Hi').
Qed.

Lemma ends_clear x r k w s : stands x r (Clear k w) s -> ends r s.
Proof. intros (Hi & q & Hq & Ha). take (FBind r) Hq Ha. intros Hi'. eapply ends_serving, (stands_set _ _ _ _ Hi'). Qed.

Lemma ends_got_clear x r k w s : (yields s).1 = false -> stands x r (Got k w) s -> ends r s.
Proof.
  intros Hy (Hi & q & Hq & Ha). take (FRecheck r) Hq Ha; [rewrite Hy; reflexivity|].
  intros Hi'. eapply ends_clear, (stands_set _ _ _ _ Hi').
Qed.

(** A slot granted too late can be handed on, after which the call has failed. *)
Lemma can_hand_on x s k : inv x s -> Scheduler.callers (sched s) !! k = Some Scheduler.HandingOn ->
  exists y, Scheduler.step (Scheduler.EHandOn k) (sched s) = Next y /\ Scheduler.callers y !! k = Some Scheduler.Failed.
Proof.
  intros Hi Hc. pose proof (Scheduler.step_no_panic _ (Scheduler.EHandOn k) (in_sched _ _ Hi)) as Hn.
  destruct (Scheduler.step (Scheduler.EHandOn k) (sched s)) as [| |y] eqn:E; [|done|].
  - simpl in E. rewrite Hc in E. destruct (Scheduler.Release _) as [[w|] z]; [|done]. simpl in E. by repeat case_match.
  - exists y. split; [done|]. destruct (sched_stable _ _ _ E k _ Hc) as (c & Hc2 & [-> | ->]); [done| |done].
    exfalso. simpl in E. rewrite Hc in E. destruct (Scheduler.Release _) as [[w|] z]; simpl in E.
    + destruct (decide (w = k)) as [->|Hw]; [by rewrite lookup_insert_eq in E|]. rewrite lookup_insert_ne in E by done.
      destruct (Scheduler.callers (sched s) !! w) as [[? []| | | |]|]; try done. simplify_eq. cbn in Hc2.
      by rewrite lookup_insert_ne, lookup_insert_eq in Hc2.
    + simplify_eq. cbn in Hc2. by rewrite lookup_insert_eq in Hc2.
Qed.

(** A call of Acquire can be made to return: it is granted, or its timeout ends
    it, and if the grant came first the slot is handed on. *)
Lemma ends_acquiring x r k (P : system -> Prop) s :
  (forall s', (yields s').1 = (yields s).1 -> P s' -> forall w, stands x r (Got k w) s' -> ends r s') ->
  (forall s' y, P s' -> P (set_sched y s')) -> (forall s' q', P s' -> P (set_req r q' s')) -> P s ->
  stands x r (InAcquire k) s -> ends r s.
Proof.
  intros HP Hsch Hset Hs (Hi & q & Hq & Ha).
  assert (forall s', inv x s' -> reqs s' !! r = Some q -> Scheduler.callers (sched s') !! k = Some Scheduler.Failed -> ends r s')
    as Hfail.
  { intros s' Hi' Hq' Hc. take (FAcquired r 0) Hq' Ha; [rewrite Hc; reflexivity|]. intros _.
    eapply ends_now; [apply lookup_insert_eq|done]. }
  assert (forall s', inv x s' -> reqs s' !! r = Some q -> Scheduler.callers (sched s') !! k = Some Scheduler.HandingOn -> ends r s')
    as Hhand.
  { intros s' Hi' Hq' Hc. destruct (can_hand_on _ _ _ Hi' Hc) as (y & E & Hf).
    eapply (ends_step x _ _ (FSched (Scheduler.EHandOn k))); [done|cbn [step]; rewrite E; reflexivity|done|].
    intros Hi2. by apply Hfail. }
  pose proof (in_call _ _ Hi _ _ Hq) as Hk. unfold call_ok in Hk. rewrite Ha in Hk. destruct Hk as (_ & c & Hc & Hd).
  destruct c as [cl b|cl| | |]; [| |by apply Hhand|by apply Hfail|done].
  - destruct (Scheduler.removeWaiter cl k (Scheduler.sch (sched s))) as [f z] eqn:Ef.
    eapply (ends_step x _ _ (FSched (Scheduler.ECancel k))); [done|cbn; rewrite Hc, Ef; reflexivity|done|].
    intros Hi'. destruct f; [apply Hfail|apply Hhand]; try done; cbn; by rewrite lookup_insert_eq.
  - take (FAcquired r 0) Hq Ha; [rewrite Hc; reflexivity|]. intros Hi'.
    eapply HP; [| |apply (stands_set _ _ _ _ Hi')]; [done|by apply Hset].
Qed.

Lemma fresh_key {V} (m : gmap nat V) : exists k, m !! k = None.
Proof. exists (fresh (dom m)). apply not_elem_of_dom, is_fresh. Qed.

Lemma ends_to_acquire x r (P : system -> Prop) s :
  (forall s', P s' -> forall k w, stands x r (Got k w) s' -> ends r s') ->
  (forall s1 s2, ctl s2 = ctl s1 -> P s1 -> P s2) -> P s -> stands x r ToAcquire s -> ends r s.
Proof.
  intros HP Hctl Hs (Hi & q & Hq & Ha). destruct (fresh_key (Scheduler.callers (sched s))) as [k Hk].
  assert (exists y, Scheduler.step (Scheduler.EAcquire (Gate.class (cfg q)) k) (sched s) = Next y) as [y Hy].
  { simpl. rewrite Hk. destruct (Scheduler.Acquire_enter _ _ _). by eexists. }
  take (FAcquire r k) Hq Ha; [rewrite Hy; reflexivity|]. intros Hi'.
  eapply (ends_acquiring x r k P); [by intros; eapply HP| | | |].
  - intros s' y' H. by apply (Hctl s').
  - intros s' q' H. by apply (Hctl s').
  - by apply (Hctl s).
  - split; [done|]. eexists. split; [apply lookup_insert_eq|done].
Qed.

(** A parked request whose hold elapses leaves the queue. *)
Lemma ends_parked x r reason k s res : stands x r (InPark reason k) s ->
  Park.calls (park s) !! k = Some (Park.Finished res) -> res <> Park.parkReleased -> ends r s.
Proof.
  intros (Hi & q & Hq & Ha) Hk Hr.
  destruct res; [done|..]; (take (FParked r 0 0) Hq Ha; [rewrite Hk; reflexivity|]; intros _;
    eapply ends_now; [apply lookup_insert_eq|done]).
Qed.

(** Steps of the park queue on behalf of the request. *)
Lemma ends_park_step x r s e l : inv x s -> Park.step e (park s) = Next l -> own r (FPark e) ->
  (inv x (set_park l s) -> ends r (set_park l s)) -> ends r s.
Proof.
  intros Hi Hl Ho H. eapply (ends_step x _ _ (FPark e)); [done| |done|exact H].
  destruct e; try done; cbn [step]; by rewrite Hl.
Qed.

Lemma ends_in_park x r reason k s :
  (forall s', ctl s' = ctl s -> stands x r Top s' -> ends r s') -> stands x r (InPark reason k) s -> ends r s.
Proof.
  intros Htop Hst.
  assert (forall s' res, ctl s' = ctl s -> stands x r (InPark reason k) s' ->
    Park.calls (park s') !! k = Some (Park.Finished res) -> ends r s') as Hfin.
  { intros s' res Hc Hst' Hk. destruct (decide (res = Park.parkReleased)) as [->|Hn].
    - destruct Hst' as (Hi & q & Hq & Ha). take (FParked r 0 0) Hq Ha; [rewrite Hk; reflexivity|].
      intros Hi'. eapply Htop; [|apply (stands_set _ _ _ _ Hi')]. done.
    - by eapply ends_parked. }
  assert (forall s' c, ctl s' = ctl s -> stands x r (InPark reason k) s' ->
    Park.calls (park s') !! k = Some (Park.TimedOut c) -> ends r s') as Hout.
  { intros s' c Hc (Hi & q & Hq & Ha) Hk. eapply (ends_park_step x r s' (Park.ERemove k)); [done|by cbn; rewrite Hk|done|].
    intros Hi'.
    destruct (Park.calls (Park.leave k (if c then Park.parkCanceled else Park.parkExpired) (park s')) !! k) as [[| |res]|] eqn:E.
    3: by eapply (Hfin _ res); [|split; [done|by exists q]|].
    all: exfalso; unfold Park.leave in E; destruct (Park.remove _ _) as [[] ?]; cbn in E; by rewrite lookup_insert_eq in E. }
  destruct Hst as (Hi & q & Hq & Ha). pose proof (in_call _ _ Hi _ _ Hq) as Hk. unfold call_ok in Hk. rewrite Ha in Hk.
  destruct Hk as [[c b|c|res] Hk]; [|by eapply Hout; [|split; [|exists q]|]|by eapply Hfin; [|split; [|exists q]|]].
  eapply (ends_park_step x r s (Park.EHoldElapsed k)); [done|cbn; rewrite Hk; reflexivity|done|]. intros Hi1.
  set (l1 := Park.set_call k (Park.Selecting c true) (park s)) in *.
  assert (Park.calls l1 !! k = Some (Park.Selecting c true)) as Hk1 by apply lookup_insert_eq.
  destruct (decide (k ∈ Park.closed l1)) as [Hcl|Hcl].
  - eapply (ends_park_step x r _ (Park.ETakeTimeout k)); [done| |done|].
    { cbn [Park.step set_park park]. rewrite Hk1, orb_true_r, decide_True by done. reflexivity. }
    intros Hi2. eapply Hfin; [|split; [done|by exists q]|apply lookup_insert_eq]. done.
  - eapply (ends_park_step x r _ (Park.ETakeTimeout k)); [done| |done|].
    { cbn [Park.step set_park park]. rewrite Hk1, orb_true_r, decide_False by done. reflexivity. }
    intros Hi2. eapply Hout; [|split; [done|by exists q]|apply lookup_insert_eq]. done.
Qed.

(** A call that is still in the queue expires. *)
Lemma ends_queued x r reason k s c b : stands x r (InPark reason k) s -> Park.calls (park s) !! k = Some (Park.Selecting c b) ->
  k ∈ Park.q (Park.pk (park s)) -> ends r s.
Proof.
  intros (Hi & q & Hq & Ha) Hk Hin.
  eapply (ends_park_step x r s (Park.EHoldElapsed k)); [done|cbn; rewrite Hk; reflexivity|done|]. intros Hi1.
  set (l1 := Park.set_call k (Park.Selecting c true) (park s)) in *.
  assert (k ∉ Park.closed l1) as Hcl.
  { apply (Park.inv_open _ (in_park _ _ Hi)). apply elem_of_app. by left. }
  eapply (ends_park_step x r _ (Park.ETakeTimeout k)); [done| |done|].
  { cbn [Park.step set_park park]. unfold l1 at 1. cbn [Park.calls Park.set_call]. rewrite lookup_insert_eq, orb_true_r, decide_False by done.
    reflexivity. }
  intros Hi2. set (l2 := Park.set_call k (Park.TimedOut c) l1) in *.
  eapply (ends_park_step x r _ (Park.ERemove k)); [done| |done|].
  { cbn [Park.step set_park park]. unfold l2 at 1. cbn [Park.calls Park.set_call]. rewrite lookup_insert_eq. reflexivity. }
  intros Hi3. eapply (ends_parked x r reason k _ (if c then Park.parkCanceled else Park.parkExpired)).
  - split; [done|by exists q].
  - cbn [park set_park]. unfold Park.leave, Park.remove. destruct (Park.splice_out k (Park.q (Park.pk l2))) eqn:E.
    + apply lookup_insert_eq.
    + by apply Park.splice_out_None in E.
  - by destruct c.
Qed.

Lemma ends_to_park x r reason s : stands x r (ToPark reason) s -> ends r s.
Proof.
  intros (Hi & q & Hq & Ha). destruct (fresh_key (Park.calls (park s))) as [k Hk].
  take (FEnterPark r k) Hq Ha; [cbn [Park.step]; rewrite Hk; reflexivity|]. intros Hi'.
  assert (stands x r (InPark reason k) (set_req r (go (InPark reason k) [Gate.APark] q) (set_park (Park.enter k (park s)) s)))
    as Hst by (split; [done|]; eexists; split; [apply lookup_insert_eq|done]).
  revert Hst. unfold Park.enter. destruct (Park.parkFor_enter k (Park.pk (park s))) as [p|] eqn:E; intros Hst.
  - eapply (ends_queued _ _ _ _ _ false false Hst); cbn; [apply lookup_insert_eq|].
    unfold Park.parkFor_enter in E. destruct (_ || _); [done|]. injection E as <-. cbn. apply elem_of_app. right. by left.
  - by eapply (ends_parked _ _ _ _ _ Park.parkRejected Hst); [apply lookup_insert_eq|].
Qed.

Lemma ends_top x r s : stands x r Top s -> ends r s.
Proof.
  intros (Hi & q & Hq & Ha). destruct (yields s) as [[] reason] eqn:Hy.
  - destruct (can_park s (cfg q)) eqn:Hp; (take (FCheck r 0) Hq Ha; [rewrite Hy, Hp; reflexivity|]); intros Hi'.
    + eapply ends_to_park, (stands_set _ _ _ _ Hi').
    + eapply ends_now; [apply lookup_insert_eq|done].
  - take (FCheck r 0) Hq Ha; [rewrite Hy; reflexivity|]. intros Hi'.
    eapply (ends_to_acquire x r (fun s => (yields s).1 = false)); [|by intros ?? E; unfold yields; rewrite E| |apply (stands_set _ _ _ _ Hi')].
    + intros s' Hs' k w. by apply ends_got_clear.
    + unfold yields in *. cbn. by rewrite Hy.
Qed.

Lemma ends_dropping x r k w s : stands x r (Dropping k w) s -> ends r s.
Proof.
  intros (Hi & q & Hq & Ha). pose proof (in_call _ _ Hi _ _ Hq) as Hc. unfold call_ok in Hc. rewrite Ha in Hc.
  destruct Hc as (_ & Hc). destruct (can_release _ _ _ _ Hi Hc) as (y & Hy).
  destruct (can_park s (cfg q)) eqn:Hp; (take (FDrop r) Hq Ha; [rewrite Hy, Hp; reflexivity|]); intros Hi'.
  - eapply ends_top. split; [done|]. eexists. split; [apply lookup_insert_eq|done].
  - eapply ends_now; [apply lookup_insert_eq|done].
Qed.

Lemma ends_got x r k w s : stands x r (Got k w) s -> ends r s.
Proof.
  intros Hst. destruct (yields s).1 eqn:Hy; [|by eapply ends_got_clear]. destruct Hst as (Hi & q & Hq & Ha).
  take (FRecheck r) Hq Ha; [rewrite Hy; reflexivity|]. intros Hi'. eapply ends_dropping, (stands_set _ _ _ _ Hi').
Qed.

Lemma ends_anywhere x r p s : stands x r p s -> ends r s.
Proof.
  destruct p; intros Hst.
  - by eapply ends_top.
  - by eapply ends_to_park.
  - eapply ends_in_park; [|done]. intros s' _. apply ends_top.
  - eapply (ends_to_acquire x r (fun _ => True)); [intros s' _ k w; apply ends_got|done..].
  - eapply (ends_acquiring x r k (fun _ => True)); [intros s' _ _ w; apply ends_got|done..].
  - by eapply ends_got.
  - by eapply ends_dropping.
  - by eapply ends_clear.
  - by eapply ends_serving.
  - by eapply ends_leaving.
  - destruct Hst as (_ & q & Hq & Ha). by eapply ends_now.
Qed.

(** ** Properties *)

(** The two schedulers main sets up, with their limits. *)
Inductive lane (c : Config.Config_t) (ctx : nat) : Scheduler.sched -> Z -> Prop :=
| lane_gpu : lane c ctx (Main.gpu_sched c ctx) (Config.MaxInflight c)
| lane_embed : lane c ctx (Main.embed_sched c ctx) 1.

Lemma lane_ready c ctx x n : Config.valid c -> lane c ctx x n -> ready x /\ Scheduler.maxInflight x = n.
Proof.
  intros Hv Hl.
  assert (exists w, Main.fresh n w x) as [w Hf]
    by (destruct Hl; eexists; [by apply Main.gpu_fresh|by apply Main.embed_fresh]).
  destruct (Main.started_inv n w x _ Hf (reach_init _ _ _ eq_refl)) as (Hi & Hn & _). split; [|done].
  split; [done|]. apply Park.park_init_inv.
  assert (Scheduler.park x = Park.SetParkConfig (Config.ParkHold c) (Config.ParkMaxQueue c) (Config.ParkDrainBurst c) Park.zero)
    as ->; [|by eexists _, _, _].
  destruct Hl; cbn; unfold Scheduler.SetMaxInflight, Scheduler.SetMaxWaiters; by repeat case_match.
Qed.

Lemma lane_inv c ctx x n s : Config.valid c -> lane c ctx x n -> reachable step (init x) s -> inv x s.
Proof. intros Hv Hl. by apply reachable_front_inv, (lane_ready _ _ _ _ Hv Hl). Qed.

(** The call [u] of a request is over, or its watcher runs and can end it with its
    next step, which changes nothing else. *)
Definition given_up (r : nat) (q : req) (k : nat) (w : Z) (u : upcall) (s : system) : Prop :=
  err u <> None \/
  step (FWatch r) s = Next (set_req r (go (Serving k w (Call (bound u) (Some Gate.CtxCanceled) false)) [] q) s).

Lemma yield_gives_up x s r q k w u : inv x s -> reqs s !! r = Some q -> at_ q = Serving k w u ->
  serveDone s u = true -> given_up r q k w u s.
Proof.
  intros Hi Hq Ha Hd. pose proof (in_call _ _ Hi _ _ Hq) as Hc. unfold call_ok in Hc. rewrite Ha in Hc.
  destruct Hc as [_ []]. destruct (err u) as [e|] eqn:He; [left; by rewrite He|right].
  destruct (watching u) eqn:Hw; [|by destruct (uo_watched0 eq_refl)].
  cbn [step]. unfold with_req. rewrite Hq, Ha, Hw, Hd. unfold end_call. by rewrite He.
Qed.

(** C1: upstream calls are bounded and given up in a yield, and only for a cause:
    with a loaded configuration, in any interleaving of requests, polls, overrides,
    timeouts, disconnecting clients and the job worker, at most the configured
    number of upstream calls are in flight, each under a slot of its own; the serve
    context a call watches is done exactly when the broker yields or has yielded
    since the call was bound to it; once it is, the call's own context is over or
    the goroutine that watches for it runs and cancels the call with its next step;
    and a call's context is over only because of such a yield, of its client's
    disconnect or, on a lane with a bound, of its deadline. *)
Theorem calls_in_flight c ctx x n s : Config.valid c -> lane c ctx x n -> reachable step (init x) s ->
  Z.of_nat (count_map serving (reqs s)) <= n /\
  forall r q k w u, reqs s !! r = Some q -> at_ q = Serving k w u ->
    Scheduler.callers (sched s) !! k = Some (Scheduler.Holding (Gate.class (cfg q))) /\
    (serveDone s u = true <-> (yields s).1 = true \/ (bound u < serve_ctx s)%nat) /\
    (serveDone s u = true -> given_up r q k w u s) /\
    (err u = Some Gate.CtxCanceled -> serveDone s u = true \/ gone q = true) /\
    (err u = Some Gate.CtxDeadlineExceeded -> 0 < Gate.upstreamTimeout (cfg q)).
Proof.
  intros Hv Hl Hr. pose proof (lane_inv _ _ _ _ _ Hv Hl Hr) as Hi. destruct (lane_ready _ _ _ _ Hv Hl) as [_ <-].
  split; [by apply serving_bounded|]. intros r q k w u Hq Ha.
  pose proof (in_call _ _ Hi _ _ Hq) as Hc. unfold call_ok in Hc. rewrite Ha in Hc. destruct Hc as [[_ Hc] []].
  unfold serveDone. rewrite bool_decide_eq_true. split; [done|]. split; [by apply canceled_iff; [apply (in_ctl _ _ Hi)|]|].
  split; [|done]. intros Hd. eapply yield_gives_up; [done..|by apply bool_decide_eq_true].
Qed.

(** C9: the concurrent system runs the handler of [Gate]: at any moment what a
    request has done is the beginning of a run of [Gate.handle] on what it has
    observed so far, and a request that has ended has done all of one, so that
    everything proved of [Gate.handle] holds of the requests of the system. *)
Theorem requests_run_gate c ctx x n s r q : Config.valid c -> lane c ctx x n -> reachable step (init x) s ->
  reqs s !! r = Some q ->
  (exists more u, log q `prefix_of` (Gate.handle x (cfg q) (laps q ++ more) u).1) /\
  forall a u, at_ q = Ended a u -> Gate.handle x (cfg q) (laps q) u = (log q, a).
Proof.
  intros Hv Hl Hr Hq. pose proof (in_log _ _ (lane_inv _ _ _ _ _ Hv Hl Hr) _ _ Hq) as Hlog.
  split; [by apply log_prefix|]. intros a u Ha. unfold log_ok in Hlog. by rewrite Ha in Hlog.
Qed.

(** No slot leaks through the gate: a slot that belongs to a call a request
    has made is in the hands of exactly one request, the one that waits for that
    call or works under it; a request that is parked, refused or done owns none.
    So when every request has ended and the job worker holds nothing, all slots
    are free. *)
Theorem slots_in_hand c ctx x n s : Config.valid c -> lane c ctx x n -> reachable step (init x) s ->
  (forall k cl, k ∈ mine s -> Scheduler.callers (sched s) !! k = Some cl -> Scheduler.owns cl = true ->
     exists r q, (reqs s !! r = Some q /\ current q = Some k) /\
       forall r' q', reqs s !! r' = Some q' -> current q' = Some k -> r' = r) /\
  (map_Forall (fun _ q => current q = None) (reqs s) ->
   map_Forall (fun k cl => k ∉ mine s -> Scheduler.owns cl = false) (Scheduler.callers (sched s)) ->
   Scheduler.inflight (Scheduler.sch (sched s)) = 0).
Proof.
  intros Hv Hl Hr. pose proof (lane_inv _ _ _ _ _ Hv Hl Hr) as Hi.
  assert (forall k cl, k ∈ mine s -> Scheduler.callers (sched s) !! k = Some cl -> Scheduler.owns cl = true ->
    exists r q, reqs s !! r = Some q /\ current q = Some k) as Hown.
  { intros k cl Hk Hc Ho. destruct (in_mine _ _ Hi k Hk) as [H|(c' & Hc' & Hf)]; [done|]. simplify_eq. by destruct Hf as [-> | ->]. }
  split.
  - intros k cl Hk Hc Ho. destruct (Hown _ _ Hk Hc Ho) as (r & q & Hq & Hcur). exists r, q. split; [done|].
    intros r' q' Hq' Hcur'. by eapply (in_cur _ _ Hi).
  - intros Hreq Hrest. rewrite (Scheduler.inv_inflight _ (in_sched _ _ Hi)).
    enough (count_map Scheduler.owns (Scheduler.callers (sched s)) = 0%nat) as -> by done.
    apply count_map_none. intros k cl Hc. destruct (Scheduler.owns cl) eqn:Ho; [|done].
    destruct (decide (k ∈ mine s)) as [Hk|Hk].
    + destruct (Hown _ _ Hk Hc Ho) as (r & q & Hq & Hcur). pose proof (Hreq _ _ Hq). congruence.
    + pose proof (Hrest _ _ Hc Hk). congruence.
Qed.

(** C28: nothing panics and nobody is stuck: no step of the system panics, and
    from any state any request can come to its end by its own steps, its own
    timeouts and the handing on of its slot alone, whatever the others do and
    however long the yield lasts. *)
Theorem request_can_end c ctx x n s r : Config.valid c -> lane c ctx x n -> reachable step (init x) s ->
  is_Some (reqs s !! r) -> ends r s /\ forall e, step e s <> Panic.
Proof.
  intros Hv Hl Hr [q Hq]. pose proof (lane_inv _ _ _ _ _ Hv Hl Hr) as Hi.
  split; [apply (ends_anywhere x r (at_ q)); split; [done|by exists q]|].
  apply (front_no_panic x). done.
Qed.

(** ** Witnesses *)

Definition demo_sched : Scheduler.sched := Main.gpu_sched Config.demo_cfg 0.

Definition demo_request (class : Scheduler.Class) (id : string) : Gate.config :=
  Gate.Config class 1000 0 true id.

(** Request 0 is served when the operator forces a yield; request 1, of the batch
    class, parks. *)
Definition front_events : list event :=
  [FArrive 0 (demo_request Scheduler.Interactive "a"); FCheck 0 1; FAcquire 0 0; FAcquired 0 2; FRecheck 0; FBind 0;
   FArrive 1 (demo_request Scheduler.Batch "b"); FYield (Yield.ESetMode Yield.ModeForceYield 5); FCheck 1 3; FEnterPark 1 0].

Definition front_start : system :=
  Sys (Yield.System Yield.demo_ctl' ∅) (Scheduler.System demo_sched ∅) (Park.fresh_lot (Scheduler.park demo_sched)) ∅ ∅.

Definition demo_front : system := final step front_events front_start.

Lemma demo_front_reachable : reachable step (init demo_sched) demo_front.
Proof.
  apply final_reachable, reach_init. exists (Yield.System Yield.demo_ctl' ∅). split; [|done].
  by exists [Some 7%nat; None], ["vllm"], 5, 2, 0, false, [10; 0], Yield.demo_ctl'.
Qed.

Definition demo_served : req :=
  default (Req (demo_request Scheduler.Batch "") Top 0 false [] [] false) (reqs demo_front !! 0%nat).

Definition demo_call : upcall := Call 0 None true.

Lemma demo_served_at : reqs demo_front !! 0%nat = Some demo_served /\ at_ demo_served = Serving 0 2 demo_call.
Proof. split; vm_compute; reflexivity. Qed.

Lemma demo_lane : lane Config.demo_cfg 0 demo_sched (Config.MaxInflight Config.demo_cfg).
Proof. apply lane_gpu. Qed.

Lemma demo_yields : (yields demo_front).1 = true.
Proof. vm_compute. reflexivity. Qed.

Lemma calls_in_flight_witness : serveDone demo_front demo_call = true /\ given_up 0 demo_served 0 2 demo_call demo_front.
Proof.
  pose proof (calls_in_flight Config.demo_cfg 0 demo_sched (Config.MaxInflight Config.demo_cfg) demo_front
    Broker.demo_valid demo_lane demo_front_reachable) as [_ H].
  specialize (H 0%nat demo_served 0%nat 2 demo_call (proj1 demo_served_at) (proj2 demo_served_at)) as (_ & [_ Hd] & Hg & _).
  pose proof (Hd (or_introl demo_yields)) as Hs. exact (conj Hs (Hg Hs)).
Defined.

Lemma requests_run_gate_witness : length (log demo_served) = 8%nat /\
  exists more u, log demo_served `prefix_of` (Gate.handle demo_sched (cfg demo_served) (laps demo_served ++ more) u).1.
Proof.
  split; [vm_compute; reflexivity|].
  exact (proj1 (requests_run_gate Config.demo_cfg 0 demo_sched (Config.MaxInflight Config.demo_cfg) demo_front 0%nat demo_served
    Broker.demo_valid demo_lane demo_front_reachable (proj1 demo_served_at))).
Defined.

Lemma demo_mine : 0%nat ∈ mine demo_front.
Proof. apply (bool_decide_unpack _). vm_compute. exact I. Qed.

Lemma demo_holds : Scheduler.callers (sched demo_front) !! 0%nat = Some (Scheduler.Holding Scheduler.Interactive).
Proof. vm_compute. reflexivity. Qed.

Lemma slots_in_hand_witness : exists r q, reqs demo_front !! r = Some q /\ current q = Some 0%nat.
Proof.
  pose proof (slots_in_hand Config.demo_cfg 0 demo_sched (Config.MaxInflight Config.demo_cfg) demo_front
    Broker.demo_valid demo_lane demo_front_reachable) as [H _].
  specialize (H 0%nat (Scheduler.Holding Scheduler.Interactive) demo_mine demo_holds eq_refl) as (r & q & H & _).
  exists r, q. exact H.
Defined.

Lemma demo_parked : is_Some (reqs demo_front !! 1%nat).
Proof. apply (bool_decide_unpack _). vm_compute. exact I. Qed.

Lemma request_can_end_witness : ends 1 demo_front.
Proof.
  exact (proj1 (request_can_end Config.demo_cfg 0 demo_sched (Config.MaxInflight Config.demo_cfg) demo_front 1%nat
    Broker.demo_valid demo_lane demo_front_reachable demo_parked)).
Defined.

End Front.
