(* ===== verification/Whole.v ===== *)
(** * The admission path and the job worker on one GPU
    (worker.go on the scheduler and the yield controller of [Front], as
    cmd/broker/main.go joins them)

    [Front] lets an environment take slots beside the requests; [Worker] takes the
    answers of the scheduler and of the yield controller as inputs.  Here the two
    are one system: the worker's [Acquire] and [Release] are calls of the
    scheduler the requests use, what it is told of a yield is what the controller
    says, its run watches the serve context it was bound to, its monitor counts
    the interactive requests that really wait, and one root context stops both.

    Proved: the two systems run inside the whole as they do alone; requests and
    the running job share the limit and the contexts of both are ended in a yield;
    a job is
    preempted only past its quantum and for a request that waits (the monitor's
    reading of the scheduler and its flag are one step here; in the code the request
    may be served in between); a job pays an attempt only for a failure of its own; every slot is in the hands of one
    request or of the worker; and after a shutdown the worker stops. *)

From S2P Require Import Prelude GoLib Park Scheduler Gate Yield JobStore JobService Worker Config Broker Main Front.
#[local] Set Warnings "-clear-no-such-hyp,-level-tolerance".
Local Open Scope Z_scope.

Module Whole.

(** ** The system *)

(** [call] is the worker's call of [Acquire], from the call to the release;
    [bound] the serve context its run watches. *)
Record system := Sys {
  front : Front.system;
  jobs : Worker.system;
  call : option nat;
  bound : option nat;
}.

Inductive event :=
| BFront (e : Front.event)
| BWorker (e : Worker.event)
| BAsk (k : nat)
| BShutdown.

Definition caller_of (k : nat) (s : system) : option Scheduler.caller :=
  Scheduler.callers (Front.sched (front s)) !! k.

(** [isClosed(serveDone)] *)
Definition serve_done (s : system) : bool :=
  match bound s with
  | Some c => bool_decide (c ∈ Yield.canceled (Yield.ctl (Front.ctl (front s))))
  | None => false
  end.

(** The events of [Front] that are its own: the slots it does not take for a
    request are the worker's, a call of the worker is given up only when its
    context is done, and the root context is the worker's too. *)
Definition free (s : system) (e : Front.event) : bool :=
  match e with
  | Front.FSched (Scheduler.EAcquire _ _) | Front.FSched (Scheduler.ERelease _) | Front.FPark Park.EShutdown => false
  | Front.FSched (Scheduler.ECancel k) => negb (bool_decide (call s = Some k)) || Worker.shutdown (jobs s)
  | _ => true
  end.

(** What the scheduler and the controller answer the worker. *)
Definition answers (e : Worker.event) (s : system) : bool :=
  match e with
  | Worker.EYield y | Worker.ERecheck y => Bool.eqb y (Front.yields (front s)).1
  | Worker.EAcquired granted =>
      match call s ≫= fun k => caller_of k s with
      | Some (Scheduler.Holding _) => granted
      | Some Scheduler.Failed => negb granted
      | _ => false
      end
  | Worker.EServeDone => serve_done s
  | Worker.EMonitor interactive _ =>
      interactive =? Scheduler.InteractiveDepth (Scheduler.Stats (Scheduler.sch (Front.sched (front s))))
  | Worker.EClassify _ closed => Bool.eqb closed (serve_done s)
  | Worker.EShutdown => false
  | _ => true
  end.

Definition call_after (e : Worker.event) (s : system) : option nat :=
  match e with Worker.EAcquired false => None | _ => call s end.

Definition bound_after (e : Worker.event) (s : system) : option nat :=
  match e with
  | Worker.EBind _ => Some (Yield.ServeContext (Yield.ctl (Front.ctl (front s))))
  | Worker.EEnd => None
  | _ => bound s
  end.

Definition step (e : event) (s : system) : outcome system :=
  match e with
  | BFront e =>
      if free s e then f ← Front.step e (front s); Next (Sys f (jobs s) (call s) (bound s)) else Disabled
  | BShutdown =>
      f ← Front.step (Front.FPark Park.EShutdown) (front s);
      j ← Worker.step Worker.EShutdown (jobs s); Next (Sys f j (call s) (bound s))
  | BAsk k =>
      match Worker.pc (jobs s), call s with
      | Worker.WAsking, None =>
          f ← Front.step (Front.FSched (Scheduler.EAcquire Scheduler.Batch k)) (front s);
          Next (Sys f (jobs s) (Some k) (bound s))
      | _, _ => Disabled
      end
  | BWorker Worker.ERelease =>
      match call s with
      | Some k =>
          j ← Worker.step Worker.ERelease (jobs s);
          f ← Front.step (Front.FSched (Scheduler.ERelease k)) (front s); Next (Sys f j None (bound s))
      | None => Disabled
      end
  | BWorker e =>
      if answers e s then
        j ← Worker.step e (jobs s); Next (Sys (front s) j (call_after e s) (bound_after e s))
      else Disabled
  end.

(** The broker when main has started it. *)
Definition init (x : Scheduler.sched) (s : system) : Prop :=
  Front.init x (front s) /\ Worker.init (jobs s) /\ call s = None /\ bound s = None.

(** ** The parts run inside the whole as they do alone *)

Lemma worker_event e s s' : step (BWorker e) s = Next s' ->
  Worker.step e (jobs s) = Next (jobs s') /\
  ((e <> Worker.ERelease /\ answers e s = true /\ front s' = front s /\ call s' = call_after e s /\ bound s' = bound_after e s) \/
   (e = Worker.ERelease /\ exists k, call s = Some k /\ call s' = None /\ bound s' = bound s /\
      Front.step (Front.FSched (Scheduler.ERelease k)) (front s) = Next (front s'))).
Proof.
  intros Hs. assert (e = Worker.ERelease \/ e <> Worker.ERelease) as [->|Hn] by (destruct e; (by left) || by right).
  - simpl in Hs. destruct (call s) as [k|] eqn:Hk; [|done].
    apply bind_next in Hs as (j & Hj & Hs). apply bind_next in Hs as (f & Hf & [= <-]). split; [done|]. right. eauto 7.
  - assert (step (BWorker e) s = if answers e s then
        j ← Worker.step e (jobs s); Next (Sys (front s) j (call_after e s) (bound_after e s)) else Disabled) as E
      by (by destruct e).
    rewrite E in Hs. destruct (answers e s) eqn:Ha; [|done]. apply bind_next in Hs as (j & Hj & [= <-]).
    split; [done|]. left. auto.
Qed.

Lemma front_projects e s s' : step e s = Next s' -> front s' = front s \/ exists e', Front.step e' (front s) = Next (front s').
Proof.
  intros Hs. destruct e as [e|e|k|].
  - simpl in Hs. destruct (free s e); [|done]. apply bind_next in Hs as (f & Hf & [= <-]). right. eauto.
  - apply worker_event in Hs as [_ [(_ & _ & E & _)|(_ & k & _ & _ & _ & Hf)]]; [by left|right; eauto].
  - cbn [step] in Hs. destruct (Worker.pc (jobs s)), (call s); try done. apply bind_next in Hs as (f & Hf & [= <-]). right. eauto.
  - cbn [step] in Hs. apply bind_next in Hs as (f & Hf & Hs). apply bind_next in Hs as (j & Hj & [= <-]). right. eauto.
Qed.

(** A step that changes the jobs' part is one of it, or the shutdown. *)
Lemma jobs_moved e s s' : step e s = Next s' ->
  jobs s' = jobs s \/ exists e', (e = BWorker e' \/ e' = Worker.EShutdown) /\ Worker.step e' (jobs s) = Next (jobs s').
Proof.
  intros Hs. destruct e as [e|e|k|].
  - simpl in Hs. destruct (free s e); [|done]. apply bind_next in Hs as (f & Hf & [= <-]). by left.
  - apply worker_event in Hs as [Hj _]. right. eauto.
  - cbn [step] in Hs. destruct (Worker.pc (jobs s)), (call s); try done. apply bind_next in Hs as (f & Hf & [= <-]). by left.
  - cbn [step] in Hs. apply bind_next in Hs as (f & Hf & Hs). apply bind_next in Hs as (j & Hj & [= <-]). right. eauto.
Qed.

Lemma jobs_project e s s' : step e s = Next s' -> jobs s' = jobs s \/ exists e', Worker.step e' (jobs s) = Next (jobs s').
Proof. intros [?|(e' & _ & ?)]%jobs_moved; eauto. Qed.

Lemma reachable_front x s : reachable step (init x) s -> reachable Front.step (Front.init x) (front s).
Proof.
  induction 1 as [s Hi|s e s' _ IH Hs]; [by apply reach_init, Hi|].
  destruct (front_projects _ _ _ Hs) as [->|[e' He]]; [done|]. by eapply reach_step.
Qed.

Lemma reachable_jobs x s : reachable step (init x) s -> reachable Worker.step Worker.init (jobs s).
Proof.
  induction 1 as [s Hi|s e s' _ IH Hs]; [by apply reach_init, Hi|].
  destruct (jobs_project _ _ _ Hs) as [->|[e' He]]; [done|]. by eapply reach_step.
Qed.

(** ** What the requests leave to the worker *)

Lemma close_dom ow x y k : Scheduler.close_waiter ow x = Next y ->
  is_Some (Scheduler.callers y !! k) -> is_Some (Scheduler.callers x !! k).
Proof.
  destruct ow as [w|]; simpl; [|by intros [= <-]]. destruct (Scheduler.callers x !! w) as [[? []| | | |]|] eqn:Hw; try done.
  intros [= <-]. simpl. destruct (decide (k = w)) as [->|]; [by rewrite Hw|by rewrite lookup_insert_ne].
Qed.

(** Only an [Acquire] makes a caller. *)
Lemma sched_dom e x y k : Scheduler.step e x = Next y -> is_Some (Scheduler.callers y !! k) ->
  is_Some (Scheduler.callers x !! k) \/ exists c, e = Scheduler.EAcquire c k.
Proof.
  intros Hs Hk.
  assert (forall w (m : gmap nat Scheduler.caller) c, is_Some (<[w := c]> m !! k) -> is_Some (m !! w) -> is_Some (m !! k)) as Hi.
  { intros w m c Hm Hw. destruct (decide (k = w)) as [->|]; [done|by rewrite lookup_insert_ne in Hm]. }
  destruct e as [c w|w|w|w|w]; simpl in Hs.
  - destruct (Scheduler.callers x !! w) eqn:Hw; [done|]. destruct (Scheduler.Acquire_enter _ _ _) as [en z]. simplify_eq.
    simpl in Hk. destruct (decide (k = w)) as [->|]; [right; eauto|left; by rewrite lookup_insert_ne in Hk].
  - destruct (Scheduler.callers x !! w) as [[? []| | | |]|] eqn:Hw; try done. simplify_eq. left.
    eapply (Hi w); [exact Hk|by rewrite Hw].
  - destruct (Scheduler.callers x !! w) as [[? ?| | | |]|] eqn:Hw; try done.
    destruct (Scheduler.removeWaiter _ _ _) as [b z]. simplify_eq. left. eapply (Hi w); [exact Hk|by rewrite Hw].
  - destruct (Scheduler.callers x !! w) as [[| | | |]|] eqn:Hw; try done. destruct (Scheduler.Release _) as [ow z].
    left. eapply (Hi w); [exact (close_dom _ _ _ _ Hs Hk)|by rewrite Hw].
  - destruct (Scheduler.callers x !! w) as [[| | | |]|] eqn:Hw; try done. destruct (Scheduler.Release _) as [ow z].
    left. eapply (Hi w); [exact (close_dom _ _ _ _ Hs Hk)|by rewrite Hw].
Qed.

Record quiet (f f' : Front.system) : Prop := {
  qu_stable : exists ex, Front.stable ex (Front.sched f) (Front.sched f') /\ forall k, ex = Some k -> k ∈ Front.mine f;
  qu_mine : Front.mine f ⊆ Front.mine f';
  qu_new : forall k, k ∈ Front.mine f' -> k ∈ Front.mine f \/ Scheduler.callers (Front.sched f) !! k = None;
  qu_dom : forall k, is_Some (Scheduler.callers (Front.sched f') !! k) ->
    is_Some (Scheduler.callers (Front.sched f) !! k) \/ k ∈ Front.mine f';
  qu_ctx : (Front.serve_ctx f <= Front.serve_ctx f')%nat;
}.

Lemma quiet_same f f' : Front.sched f' = Front.sched f -> Front.mine f' = Front.mine f ->
  (Front.serve_ctx f <= Front.serve_ctx f')%nat -> quiet f f'.
Proof.
  intros Es Em Hc. split; rewrite ?Es, ?Em; [|done|auto|auto|done]. exists None. split; [apply Front.stable_refl|done].
Qed.

Lemma quiet_sched e f f' : Scheduler.step e (Front.sched f) = Next (Front.sched f') -> Front.ctl f' = Front.ctl f ->
  (forall k, e = Scheduler.ERelease k -> k ∈ Front.mine f) ->
  Front.mine f' = (match e with Scheduler.EAcquire _ k => {[k]} ∪ Front.mine f | _ => Front.mine f end) -> quiet f f'.
Proof.
  intros Hs Hc Hr Hm. split.
  - eexists. split; [by eapply Front.sched_stable|]. intros k E. apply Hr. destruct e; try done. by injection E as ->.
  - rewrite Hm. destruct e; set_solver.
  - intros k Hk. rewrite Hm in Hk. destruct e; auto. apply elem_of_union in Hk as [->%elem_of_singleton|Hk]; [right|by left].
    by destruct (Front.acquire_fresh _ _ _ _ Hs).
  - intros k Hk. destruct (sched_dom _ _ _ _ Hs Hk) as [H|[c ->]]; [by left|right]. rewrite Hm. set_solver.
  - unfold Front.serve_ctx. by rewrite Hc.
Qed.

(** The steps that give up or take a slot outside the requests. *)
Definition foreign (e : Front.event) : bool :=
  match e with Front.FSched (Scheduler.EAcquire _ _) | Front.FSched (Scheduler.ERelease _) => true | _ => false end.

Lemma front_quiet x f e f' : Front.inv x f -> Front.step e f = Next f' -> foreign e = false -> quiet f f'.
Proof.
  intros Hi Hs He.
  assert (forall r (k : Front.req -> outcome Front.system), Front.with_req r f k = Next f' ->
    exists q, Front.reqs f !! r = Some q /\ k q = Next f') as Hw.
  { intros r k. unfold Front.with_req. destruct (Front.reqs f !! r); [eauto|done]. }
  destruct e as [e|e|e|r c|r since|r k|r since parked|r k|r waited|r|r|r|r|r|r|r panics|r]; cbn [Front.step] in Hs;
    try (apply Hw in Hs as (q & Hq & Hs); lazymatch type of Hs with context [match Front.at_ _ with _ => _ end] => destruct (Front.at_ q) eqn:Hat; try done | _ => idtac end).
  - apply bind_next in Hs as (y & Hy & [= <-]). apply quiet_same; [done..|]. by eapply Front.yield_ctx.
  - destruct e; try done; apply bind_next in Hs as (y & Hy & [= <-]); by eapply quiet_sched.
  - destruct e as [|w|w| |w|w|w|w|y| |]; try done; [..|destruct (Bool.eqb y _); [|done]| |];
      apply bind_next in Hs as (l & Hl & [= <-]); by apply quiet_same.
  - destruct (Front.reqs f !! r); [done|]. injection Hs as <-. by apply quiet_same.
  - destruct (Front.yields f) as [[] reason]; [destruct (negb _)|]; injection Hs as <-; by apply quiet_same.
  - apply bind_next in Hs as (l & Hl & [= <-]). by apply quiet_same.
  - destruct (_ !! k) as [[| |[]]|]; try done; injection Hs as <-; by apply quiet_same.
  - apply bind_next in Hs as (y & Hy & [= <-]). by eapply (quiet_sched (Scheduler.EAcquire _ k)); [exact Hy|..].
  - destruct (_ !! k) as [[]|]; try done; injection Hs as <-; by apply quiet_same.
  - destruct (Front.yields f).1; injection Hs as <-; by apply quiet_same.
  - apply bind_next in Hs as (y & Hy & [= <-]).
    pose proof (Front.in_call _ _ Hi _ _ Hq) as Hc. unfold Front.call_ok in Hc. rewrite Hat in Hc.
    eapply quiet_sched; [exact Hy|done| |done]. intros ? [= <-]. apply Hc.
  - injection Hs as <-. by apply quiet_same.
  - destruct (_ && _); [|done]. injection Hs as <-. by apply quiet_same.
  - destruct (0 <? _); [|done]. injection Hs as <-. by apply quiet_same.
  - injection Hs as <-. by apply quiet_same.
  - injection Hs as <-. by apply quiet_same.
  - apply bind_next in Hs as (y & Hy & [= <-]).
    pose proof (Front.in_call _ _ Hi _ _ Hq) as Hc. unfold Front.call_ok in Hc. rewrite Hat in Hc.
    eapply quiet_sched; [exact Hy|done| |done]. intros ? [= <-]. apply Hc.
Qed.

(** ** The invariant *)

(** The worker's call is where the worker thinks it is. *)
Definition call_ok (s : system) : Prop :=
  match call s with
  | None => Worker.holding (Worker.pc (jobs s)) = false
  | Some k => k ∉ Front.mine (front s) /\ exists c, caller_of k s = Some c /\
      if Worker.holding (Worker.pc (jobs s)) then c = Scheduler.Holding Scheduler.Batch
      else Worker.pc (jobs s) = Worker.WAsking /\ Front.pending Scheduler.Batch c
  end.

Definition bound_ok (s : system) : Prop :=
  Worker.runs (Worker.pc (jobs s)) = true -> exists c, bound s = Some c /\ (c <= Front.serve_ctx (front s))%nat.

Record inv (x : Scheduler.sched) (s : system) : Prop := {
  wi_front : Front.inv x (front s);
  wi_jobs : Worker.inv (jobs s);
  wi_entry : Worker.run_entry (jobs s);
  wi_call : call_ok s;
  wi_bound : bound_ok s;
  wi_rest : forall k c, caller_of k s = Some c -> k ∉ Front.mine (front s) -> call s <> Some k -> Front.finished c;
}.

(** A step of the requests' part. *)
Lemma quiet_inv x s f : inv x s -> Front.inv x f -> quiet (front s) f -> inv x (Sys f (jobs s) (call s) (bound s)).
Proof.
  intros [] Hf [(ex & Hst & Hex) Hm Hn Hd Hc]. split; try done.
  - unfold call_ok in *. cbn [call jobs front] in *. destruct (call s) as [k|]; [|done].
    destruct wi_call0 as (Hk & c & Hkc & H). unfold caller_of in *. cbn [front].
    split; [intros Hk'; destruct (Hn _ Hk'); [done|congruence]|].
    destruct (Hst k c Hkc) as (c' & Hc' & Hnx); [intros E; by apply Hk, Hex|]. exists c'. split; [done|].
    destruct (Worker.holding _); [by subst c|]. destruct H as [? H]. split; [done|]. by eapply Front.pending_next.
  - unfold bound_ok in *. cbn [bound jobs front] in *. intros Hr. destruct (wi_bound0 Hr) as (c & ? & ?). exists c. split; [done|lia].
  - unfold caller_of in *. cbn [call front]. intros k c Hk Hnm Hnc.
    destruct (Hd k) as [[c0 H0]|]; [by rewrite Hk| |done].
    assert (k ∉ Front.mine (front s)) as Hk0 by set_solver. pose proof (wi_rest0 _ _ H0 Hk0 Hnc) as Hfin.
    destruct (Front.finished_stable _ _ _ _ _ Hst ltac:(intros E; by apply Hk0, Hex) H0 Hfin) as (c' & Hc' & ?).
    rewrite Hc' in Hk. by injection Hk as <-.
Qed.

Lemma free_inv x s e s' : inv x s -> step (BFront e) s = Next s' -> inv x s'.
Proof.
  intros Hi Hs. simpl in Hs. destruct (free s e) eqn:Hf; [|done]. apply bind_next in Hs as (f & Hs & [= <-]).
  apply quiet_inv; [done|by eapply Front.front_step_inv, Hs; apply Hi|].
  eapply front_quiet; [apply Hi|done|]. destruct e as [e|e|e| | | | | | | | | | | | | |]; try done. by destruct e.
Qed.

Lemma worker_next x s e s' : inv x s -> step (BWorker e) s = Next s' ->
  Worker.inv (jobs s') /\ Worker.run_entry (jobs s') /\ Worker.moves e (Worker.pc (jobs s)) (Worker.pc (jobs s')).
Proof.
  intros Hi Hs. apply worker_event in Hs as [Hj _]. split; [|split].
  - pose proof (Worker.step_safe e _ (wi_jobs _ _ Hi)) as H. by rewrite Hj in H.
  - by eapply Worker.step_entry; [apply (wi_entry _ _ Hi)|].
  - by apply Worker.step_moves.
Qed.

(** A step of the worker that calls nobody. *)
Lemma worker_local_inv x s e s' : inv x s -> step (BWorker e) s = Next s' -> e <> Worker.ERelease -> inv x s'.
Proof.
  intros Hi Hs He. destruct (worker_next _ _ _ _ Hi Hs) as (Hj & Hen & Hm).
  apply worker_event in Hs as [_ [(_ & Ha & Hf & Hc & Hb)|[-> _]]]; [|done]. pose proof Hi as [].
  unfold call_ok, bound_ok, caller_of in *.
  assert ((exists g, e = Worker.EAcquired g) \/ forall g, e <> Worker.EAcquired g) as [[g ->]|Hg]
    by (destruct e; try (by right); left; eauto).
  - destruct Hm as [Hp Hp']. cbn [answers call_after bound_after] in *. rewrite Hp in *.
    destruct (call s) as [k|]; [|done]. destruct wi_call0 as (Hk & c & Hkc & [_ Hpd]). cbn in Ha. unfold caller_of in Ha.
    rewrite Hkc in Ha. split; rewrite ?Hf; try done; unfold call_ok, bound_ok, caller_of; rewrite ?Hf, ?Hc, ?Hb, ?Hp'.
    + destruct c as [|cl| | |]; try done.
      * destruct g; [|done]. split; [done|]. exists (Scheduler.Holding cl). simpl in Hpd. by subst cl.
      * by destruct g.
    + by destruct g.
    + intros k' c' Hk' Hn Hc'. destruct (decide (k' = k)) as [->|Hne].
      * rewrite Hkc in Hk'. injection Hk' as <-. destruct c; try done; [by destruct g|by left].
      * eapply wi_rest0; [exact Hk'|exact Hn|congruence].
  - assert (call_after e s = call s) as E by (destruct e; try done; by destruct (Hg granted)). rewrite E in Hc.
    assert (Worker.holding (Worker.pc (jobs s')) = Worker.holding (Worker.pc (jobs s)) /\
      (Worker.pc (jobs s) = Worker.WAsking -> Worker.pc (jobs s') = Worker.WAsking)) as [Hh Hq].
    { destruct e; try done; simpl in Hm; try (destruct Hm as (? & ? & ?); done || (split; [congruence|intros Hq; by rewrite Hq in *])).
      - by destruct (Hg granted).
      - destruct Hm as [H1 H2]. split; [congruence|]. intros Hq. by rewrite Hq in *. }
    split; rewrite ?Hf; try done; unfold call_ok, bound_ok, caller_of; rewrite ?Hf, ?Hc; [| |done].
    + rewrite Hh. destruct (call s) as [k|]; [|done]. destruct wi_call0 as (Hk & c & Hkc & H). split; [done|]. exists c.
      split; [done|]. destruct (Worker.holding _); [done|]. destruct H. auto.
    + rewrite Hb. intros Hr. destruct e; simpl in Hm |- *; try (apply wi_bound0, Hm, Hr);
        [by destruct (Hg granted)|eexists; by split| |done]. destruct Hm as (_ & _ & Hm). by rewrite Hm in Hr.
Qed.

Lemma fsched_step e f f' : Front.step (Front.FSched e) f = Next f' ->
  Scheduler.step e (Front.sched f) = Next (Front.sched f') /\ Front.mine f' = Front.mine f /\ Front.ctl f' = Front.ctl f /\
  Front.reqs f' = Front.reqs f.
Proof.
  intros Hs. cbn [Front.step] in Hs. destruct e; [..|case_decide; [done|]]; by apply bind_next in Hs as (y & Hy & [= <-]).
Qed.

(** What happens to the calls nobody has any more. *)
Lemma rest_stable ex x s f : inv x s -> Front.stable ex (Front.sched (front s)) (Front.sched f) -> Front.mine f = Front.mine (front s) ->
  (ex = None \/ ex = call s) ->
  forall k c c0, Scheduler.callers (Front.sched f) !! k = Some c -> caller_of k s = Some c0 -> k ∉ Front.mine f -> call s <> Some k ->
  Front.finished c.
Proof.
  intros Hi Hst Hm Hex k c c0 Hk H0 Hn Hc. rewrite Hm in Hn. pose proof (wi_rest _ _ Hi _ _ H0 Hn Hc) as Hf.
  assert (ex <> Some k) as He by (destruct Hex; congruence).
  destruct (Front.finished_stable _ _ _ _ _ Hst He H0 Hf) as (c' & Hc' & ?).
  rewrite Hc' in Hk. by injection Hk as <-.
Qed.

Lemma worker_release_inv x s s' : inv x s -> step (BWorker Worker.ERelease) s = Next s' -> inv x s'.
Proof.
  intros Hi Hs. destruct (worker_next _ _ _ _ Hi Hs) as (Hj & Hen & ran & Hp & Hp').
  apply worker_event in Hs as [_ [[? _]|(_ & k & Hk & Hc & Hb & Hf)]]; [done|].
  destruct (fsched_step _ _ _ Hf) as (Hy & Hm & Hctl & _). pose proof (Front.sched_stable _ _ _ Hy) as Hst.
  split; [by eapply Front.front_step_inv; [apply Hi|]|done|done|..]; unfold call_ok, bound_ok, caller_of; rewrite ?Hc, ?Hp'.
  - by destruct ran.
  - intros Hr. by destruct ran.
  - intros k' c Hk' Hn _. destruct (decide (k' = k)) as [->|Hne].
    + right. rewrite (Front.release_done _ _ _ Hy) in Hk'. by injection Hk' as <-.
    + destruct (sched_dom _ _ _ k' Hy ltac:(by rewrite Hk')) as [[c0 H0]|[? ?]]; [|done].
      eapply (rest_stable (Some k) _ s); [done|exact Hst|done|by right|exact Hk'|exact H0|done|congruence].
Qed.

Lemma ask_paid x s k s' : inv x s -> step (BAsk k) s = Next s' -> inv x s'.
Proof.
  intros Hi Hs. cbn [step] in Hs. destruct (Worker.pc (jobs s)) eqn:Hp, (call s) eqn:Hc; try done.
  apply bind_next in Hs as (f & Hf & [= <-]). destruct (fsched_step _ _ _ Hf) as (Hy & Hm & Hctl & _).
  destruct (Front.acquire_fresh _ _ _ _ Hy) as (Hk & c & Hkc & Hpd). pose proof (Front.sched_stable _ _ _ Hy) as Hst.
  pose proof Hi as []. split; try done; [by eapply Front.front_step_inv|..]; unfold call_ok, bound_ok, caller_of; cbn [call jobs front bound];
    rewrite ?Hp.
  - split; [|exists c; split; [exact Hkc|by split]]. rewrite Hm. intros Hin. destruct (Front.mine_called _ _ _ wi_front0 Hin) as [? E]. congruence.
  - by cbn.
  - intros k' c' Hk' Hn Hne.
    destruct (sched_dom _ _ _ k' Hy ltac:(by rewrite Hk')) as [[c0 H0]|[? E]]; [|congruence].
    eapply (rest_stable None _ s); [done|exact Hst|done|by left|exact Hk'|exact H0|done|by rewrite Hc].
Qed.

Lemma shutdown_inv x s s' : inv x s -> step BShutdown s = Next s' -> inv x s'.
Proof.
  intros Hi Hs. cbn [step] in Hs. apply bind_next in Hs as (f & Hf & Hs). apply bind_next in Hs as (j & Hj & [= <-]).
  assert (inv x (Sys f (jobs s) (call s) (bound s))) as [].
  { apply quiet_inv; [done|by eapply Front.front_step_inv, Hf; apply Hi|]. by eapply front_quiet; [apply Hi|exact Hf|]. }
  simpl in Hj. injection Hj as <-. split; try done. by destruct wi_jobs0.
Qed.

Lemma whole_step_inv x s e s' : inv x s -> step e s = Next s' -> inv x s'.
Proof.
  intros Hi Hs. destruct e as [e|e|k|].
  - by eapply free_inv.
  - assert (e = Worker.ERelease \/ e <> Worker.ERelease) as [->|Hn] by (destruct e; (by left) || by right);
      [by eapply worker_release_inv|by eapply worker_local_inv].
  - by eapply ask_paid.
  - by eapply shutdown_inv.
Qed.

Lemma whole_init_inv x s : Front.ready x -> init x s -> inv x s.
Proof.
  intros Hx (Hf & Hj & Hc & Hb). pose proof Hj as (cs & m0 & m & q & p & now & Ej).
  split; [by apply Front.front_init_inv|by apply Worker.service_init_inv|by apply Worker.reachable_entry, reach_init|..];
    unfold call_ok, bound_ok; rewrite ?Hc, ?Ej; try done.
  intros k c Hk. unfold caller_of in Hk. destruct Hf as (y & _ & E). by rewrite E in Hk.
Qed.

Lemma reachable_whole_inv x s : Front.ready x -> reachable step (init x) s -> inv x s.
Proof. intros Hx. apply reachable_inv; eauto using whole_init_inv, whole_step_inv. Qed.

(** ** Nothing panics *)

Lemma whole_no_panic x s e : inv x s -> step e s <> Panic.
Proof.
  intros Hi. pose proof (Front.front_no_panic x _ (wi_front _ _ Hi)) as Hf.
  assert (forall e, Worker.step e (jobs s) <> Panic) as Hj.
  { intros e' E. pose proof (Worker.step_safe e' _ (wi_jobs _ _ Hi)) as H. by rewrite E in H. }
  assert (forall e' (k : Worker.system -> system), (j ← Worker.step e' (jobs s); Next (k j)) <> Panic) as Hw
    by (intros; by apply bind_panic).
  destruct e as [e|e|k|]; cbn [step].
  - destruct (free s e); [|done]. by apply bind_panic.
  - destruct e; try (destruct (answers _ s); [apply Hw|done]).
    destruct (call s); [|done]. apply bind_panic; [apply Hj|]. intros j. by apply bind_panic.
  - destruct (Worker.pc (jobs s)), (call s); try done. by apply bind_panic.
  - apply bind_panic; [apply Hf|]. intros f. apply Hw.
Qed.

(** ** Slots *)

Lemma worker_holds x s : inv x s -> Worker.holding (Worker.pc (jobs s)) = true ->
  exists k, call s = Some k /\ k ∉ Front.mine (front s) /\ caller_of k s = Some (Scheduler.Holding Scheduler.Batch).
Proof.
  intros Hi Hh. pose proof (wi_call _ _ Hi) as Hc. unfold call_ok in Hc. rewrite Hh in Hc.
  destruct (call s) as [k|]; [|done]. destruct Hc as (? & c & ? & ->). by exists k.
Qed.

(** The worker as one more request. *)
Definition as_request (k : nat) : Front.req :=
  Front.Req (Gate.Config Scheduler.Batch 0 0 false "") (Front.Serving k 0 (Front.Call 0 None true)) 0 false [] [] false.

Lemma in_flight_bounded x s : inv x s ->
  Z.of_nat (count_map Front.serving (Front.reqs (front s)) + Nat.b2n (Worker.holding (Worker.pc (jobs s)))) <=
  Scheduler.maxInflight x.
Proof.
  intros Hi. pose proof (wi_front _ _ Hi) as Hf. destruct (Worker.holding (Worker.pc (jobs s))) eqn:Hh.
  2: { rewrite Nat.add_0_r. by apply Front.serving_bounded. }
  destruct (worker_holds _ _ Hi Hh) as (k & _ & Hk & Hc). destruct (Front.fresh_key (Front.reqs (front s))) as [r0 Hr0].
  set (m := <[r0 := as_request k]> (Front.reqs (front s))).
  assert (count_map Front.serving m = (1 + count_map Front.serving (Front.reqs (front s)))%nat) as E
    by (unfold m; by rewrite count_map_insert_fresh).
  rewrite Nat.add_comm. cbn [Nat.b2n]. rewrite <- E, <- (Front.in_limit _ _ Hf).
  destruct (Front.in_sched _ _ Hf) as [_ _ _ _ Hin Hmax _ _ _ _]. etrans; [|exact Hmax]. rewrite Hin. apply inj_le.
  assert (forall r q k', Front.reqs (front s) !! r = Some q -> Front.current q = Some k' -> k' ∈ Front.mine (front s)) as Hmine.
  { intros r q k' Hr Hq. by destruct (Front.call_ok_current _ _ _ (Front.in_call _ _ Hf _ _ Hr) Hq). }
  apply (count_map_inj _ _ Front.current); unfold m.
  - intros r q [[<- <-]|[_ Hr]]%lookup_insert_Some Hs; [by exists k, (Scheduler.Holding Scheduler.Batch)|].
    unfold Front.serving in Hs. pose proof (Front.in_call _ _ Hf _ _ Hr) as Hq. unfold Front.call_ok in Hq.
    unfold Front.current. destruct (Front.at_ q) as [| | | | | | | |k' w cx| |]; try done. destruct Hq as [[_ Hq] _].
    by exists k', (Scheduler.Holding (Gate.class (Front.cfg q))).
  - intros r r' q q' k' [[<- <-]|[Hn Hr]]%lookup_insert_Some [[<- <-]|[Hn' Hr']]%lookup_insert_Some Hq Hq'; try done.
    + cbn in Hq. injection Hq as <-. by destruct Hk; eapply Hmine.
    + cbn in Hq'. injection Hq' as <-. by destruct Hk; eapply Hmine.
    + by eapply (Front.in_cur _ _ Hf).
Qed.

(** A run that has lost the GPU is aborted as soon as its monitor looks. *)
Lemma can_surrender x s id start f : inv x s -> Worker.pc (jobs s) = Worker.WGenerating id start f ->
  Worker.watching f = true -> serve_done s = true ->
  exists s', step (BWorker Worker.EServeDone) s = Next s' /\ Worker.run_canceled id (jobs s') = true.
Proof.
  intros Hi Hp Hw Hd. destruct (wi_entry _ _ Hi id ltac:(by rewrite Hp)) as [rs Hrs].
  eexists. cbn [step answers]. rewrite Hd. cbn [Worker.step]. rewrite Hp. cbn [Worker.claimed]. unfold Worker.job_step. rewrite Hp.
  unfold Worker.monitor. rewrite Hw. cbn [negb mbind outcome_bind]. split; [reflexivity|].
  unfold Worker.run_canceled, Worker.cancel_run. cbn. rewrite Hrs. cbn. rewrite lookup_insert_eq. cbn. apply orb_true_r.
Qed.

Lemma bound_iff x s : inv x s -> Worker.runs (Worker.pc (jobs s)) = true -> exists c, bound s = Some c /\
  (c ∈ Yield.canceled (Yield.ctl (Front.ctl (front s))) <->
   (Front.yields (front s)).1 = true \/ (c < Front.serve_ctx (front s))%nat).
Proof.
  intros Hi Hr. destruct (wi_bound _ _ Hi Hr) as (c & Hb & Hc). exists c. split; [done|].
  apply Front.canceled_iff; [apply (Front.in_ctl _ _ (wi_front _ _ Hi))|exact Hc].
Qed.

(** ** The worker stops *)

(** The steps of the worker, and the giving up of a call that waits. *)
Definition worker_side (e : event) : bool :=
  match e with
  | BWorker e => Worker.own e
  | BAsk _ => true
  | BFront (Front.FSched (Scheduler.ECancel _)) | BFront (Front.FSched (Scheduler.EHandOn _)) => true
  | _ => false
  end.

Definition stops (s : system) : Prop :=
  exists es s', Forall (fun e => worker_side e = true) es /\ run_events step es s = Next s' /\
    Worker.pc (jobs s') = Worker.WStopped.

Definition stopping (x : Scheduler.sched) (s : system) : Prop := inv x s /\ Worker.shutdown (jobs s) = true.

Lemma stopping_step x s e s' : stopping x s -> step e s = Next s' -> stopping x s'.
Proof.
  intros [Hi Hd] Hs. split; [by eapply whole_step_inv|]. destruct (jobs_project _ _ _ Hs) as [->|[e' He]]; [done|].
  by apply (Worker.step_work _ _ _ He).
Qed.

Lemma stops_step x s e s' : stopping x s -> step e s = Next s' -> worker_side e = true ->
  (stopping x s' -> stops s') -> stops s.
Proof.
  intros Hst Hs He H. destruct (H (stopping_step _ _ _ _ Hst Hs)) as (es & s2 & Hf & Hr & Hp).
  exists (e :: es), s2. cbn [run_events]. rewrite Hs. split; [by constructor|done].
Qed.

Lemma step_own_answer e s j : e <> Worker.ERelease -> answers e s = true -> Worker.step e (jobs s) = Next j ->
  step (BWorker e) s = Next (Sys (front s) j (call_after e s) (bound_after e s)).
Proof.
  intros Hn Ha Hj. assert (step (BWorker e) s = if answers e s then
      j ← Worker.step e (jobs s); Next (Sys (front s) j (call_after e s) (bound_after e s)) else Disabled) as -> by (by destruct e).
  by rewrite Ha, Hj.
Qed.

Lemma stops_own x s n : stopping x s ->
  (forall s', stopping x s' -> (Worker.work (Worker.pc (jobs s')) < n)%nat -> stops s') ->
  (Worker.work (Worker.pc (jobs s)) <= n)%nat ->
  match Worker.pc (jobs s) with Worker.WAsking | Worker.WReleasing _ | Worker.WStopped => False | _ => True end -> stops s.
Proof.
  intros Hst IH Hn Hp. pose proof Hst as [Hi Hd].
  set (e := Worker.next_own (Front.yields (front s)).1 (serve_done s) (Worker.pc (jobs s))).
  assert (Worker.pc (jobs s) <> Worker.WStopped) as Hs by (intros E; by rewrite E in Hp).
  destruct (Worker.next_own_enabled (Front.yields (front s)).1 (serve_done s) _ (wi_jobs _ _ Hi) Hd Hs) as (j & Hj). fold e in Hj.
  pose proof (Worker.next_own_own (Front.yields (front s)).1 (serve_done s) _ Hs) as Ho. fold e in Ho.
  eapply (stops_step x s (BWorker e)); [done|apply step_own_answer; [| |exact Hj]|exact Ho|].
  - unfold e. destruct (Worker.pc (jobs s)) as [| | | | | | | | | |? ? ? []| | | | |]; done.
  - unfold e. destruct (Worker.pc (jobs s)) as [| | | | | | | | | |? ? ? []| | | | |]; cbn; rewrite ?eqb_reflx; done.
  - intros Hst'. apply IH; [done|]. destruct (Worker.step_work _ _ _ Hj) as [_ Hw]. rewrite Ho in Hw. specialize (Hw Hd). cbn. lia.
Qed.

Lemma stops_releasing x s ran : stopping x s -> Worker.pc (jobs s) = Worker.WReleasing ran ->
  (forall s', stopping x s' -> (Worker.work (Worker.pc (jobs s')) < 3)%nat -> stops s') -> stops s.
Proof.
  intros Hst Hp IH. pose proof Hst as [Hi _]. destruct (worker_holds _ _ Hi ltac:(by rewrite Hp)) as (k & Hk & Hm & Hc).
  destruct (Front.can_release _ _ _ _ (wi_front _ _ Hi) Hc) as (y & Hy).
  assert (Worker.step Worker.ERelease (jobs s) =
    Next (Worker.set_pc (if ran then Worker.WLoop else Worker.WSleeping) (Worker.set_slot false (jobs s)))) as Hj.
  { cbn [Worker.step]. rewrite Hp. cbn [Worker.claimed]. unfold Worker.loop_step. by rewrite Hp. }
  eapply (stops_step x s (BWorker Worker.ERelease)); [done| |done|].
  - cbn [step]. rewrite Hk, Hj. cbn [mbind outcome_bind Front.step]. rewrite decide_False by done. rewrite Hy. reflexivity.
  - intros Hst'. apply IH; [done|]. cbn. destruct ran; cbn; lia.
Qed.

(** In [Acquire]: the call returns, if need be by being given up. *)
Section asking.
Context (x : Scheduler.sched).
Context (IH : forall s, stopping x s -> (Worker.work (Worker.pc (jobs s)) < 12)%nat -> stops s).

Definition asking (k : nat) (c : Scheduler.caller) (s : system) : Prop :=
  stopping x s /\ Worker.pc (jobs s) = Worker.WAsking /\ call s = Some k /\ caller_of k s = Some c.

Lemma stops_answered k c g s : asking k c s -> (c = Scheduler.Failed /\ g = false \/ (exists cl, c = Scheduler.Holding cl) /\ g = true) ->
  stops s.
Proof using IH.
  intros (Hst & Hp & Hk & Hc) Hg.
  assert (exists j, Worker.step (Worker.EAcquired g) (jobs s) = Next j) as (j & Hj).
  { cbn [Worker.step]. rewrite Hp. cbn [Worker.claimed]. unfold Worker.loop_step. rewrite Hp. destruct g; by eexists. }
  eapply (stops_step x s (BWorker (Worker.EAcquired g))); [done|apply step_own_answer; [done| |exact Hj]|done|].
  - cbn. rewrite Hk. cbn. rewrite Hc. destruct Hg as [[-> ->]|[[cl ->] ->]]; done.
  - intros Hst'. apply IH; [done|]. destruct (Worker.step_moves _ _ _ Hj) as [_ E]. cbn. rewrite E. destruct g; cbn; lia.
Qed.

(** A step of the scheduler on the worker's call. *)
Lemma stops_sched e k c c' s y : asking k c s -> Scheduler.step e (Front.sched (front s)) = Next y ->
  (e = Scheduler.ECancel k \/ e = Scheduler.EHandOn k) -> Scheduler.callers y !! k = Some c' ->
  (forall s', asking k c' s' -> stops s') -> stops s.
Proof using Type.
  intros (Hst & Hp & Hk & Hc) Hy He Hc' H. pose proof Hst as [_ Hd].
  eapply (stops_step x s (BFront (Front.FSched e))); [done| |by destruct He as [-> | ->]|].
  - cbn [step]. assert (free s (Front.FSched e) = true) as ->.
    { destruct He as [-> | ->]; [|done]. cbn. rewrite Hd. apply orb_true_r. }
    cbn [Front.step]. destruct He as [-> | ->]; rewrite Hy; reflexivity.
  - intros Hst'. apply H. split; [exact Hst'|]. split; [exact Hp|]. split; [exact Hk|exact Hc'].
Qed.

Lemma stops_handing k s : asking k Scheduler.HandingOn s -> stops s.
Proof using IH.
  intros Ha. pose proof Ha as ([Hi _] & _ & _ & Hc). destruct (Front.can_hand_on _ _ _ (wi_front _ _ Hi) Hc) as (y & Hy & Hf).
  eapply stops_sched; [done|exact Hy|by right|exact Hf|]. intros s' Hs'. eapply (stops_answered k _ false); [exact Hs'|by left].
Qed.

Lemma stops_calling k c s : asking k c s -> stops s.
Proof using IH.
  intros Ha. pose proof Ha as ([Hi _] & Hp & Hk & Hc). destruct c as [cl b|cl| | |].
  - assert (exists y, Scheduler.step (Scheduler.ECancel k) (Front.sched (front s)) = Next y /\
      exists c', Scheduler.callers y !! k = Some c' /\ (c' = Scheduler.Failed \/ c' = Scheduler.HandingOn)) as (y & Hy & c' & Hc' & H).
    { cbn. unfold caller_of in Hc. rewrite Hc. destruct (Scheduler.removeWaiter _ _ _) as [f z]. eexists. split; [done|].
      cbn. rewrite lookup_insert_eq. eexists. split; [done|]. destruct f; auto. }
    eapply stops_sched; [done|exact Hy|by left|exact Hc'|]. intros s' Hs'. destruct H as [-> | ->].
    + eapply (stops_answered k _ false); [exact Hs'|by left].
    + by eapply stops_handing.
  - eapply (stops_answered k _ true); [done|right; split; [by exists cl|done]].
  - by eapply stops_handing.
  - eapply (stops_answered k _ false); [done|by left].
  - exfalso. pose proof (wi_call _ _ Hi) as H. unfold call_ok in H. rewrite Hk, Hp in H. destruct H as (_ & c & Hc2 & _ & Hpd).
    rewrite Hc in Hc2. by injection Hc2 as <-.
Qed.

Lemma stops_asking s : stopping x s -> Worker.pc (jobs s) = Worker.WAsking -> stops s.
Proof using IH.
  intros Hst Hp. destruct (call s) as [k|] eqn:Hk.
  - pose proof Hst as [Hi _]. pose proof (wi_call _ _ Hi) as H. unfold call_ok in H. rewrite Hk in H. destruct H as (_ & c & Hc & _).
    eapply stops_calling. split; [exact Hst|]. split; [exact Hp|]. split; [exact Hk|exact Hc].
  - destruct (Front.fresh_key (Scheduler.callers (Front.sched (front s)))) as [k Hf].
    assert (exists y c, Scheduler.step (Scheduler.EAcquire Scheduler.Batch k) (Front.sched (front s)) = Next y /\
      Scheduler.callers y !! k = Some c) as (y & c & Hy & Hc).
    { cbn. rewrite Hf. destruct (Scheduler.Acquire_enter _ _ _) as [en z]. do 2 eexists. split; [done|]. cbn. apply lookup_insert_eq. }
    eapply (stops_step x s (BAsk k)); [done|cbn [step]; rewrite Hp, Hk; cbn [Front.step]; rewrite Hy; reflexivity|done|].
    intros Hst'. eapply (stops_calling k c). split; [exact Hst'|]. split; [exact Hp|]. split; [reflexivity|exact Hc].
Qed.

End asking.

Lemma stops_within x n : forall s, stopping x s -> (Worker.work (Worker.pc (jobs s)) <= n)%nat -> stops s.
Proof.
  induction n as [n IH] using lt_wf_ind. intros s Hst Hn.
  assert (forall m s', (m <= Worker.work (Worker.pc (jobs s)))%nat -> stopping x s' -> (Worker.work (Worker.pc (jobs s')) < m)%nat -> stops s') as Hlt.
  { intros m s' Hm Hs' Hw. eapply (IH (Worker.work (Worker.pc (jobs s')))); [lia|done|done]. }
  destruct (Worker.pc (jobs s)) eqn:Hp;
    try (eapply (stops_own x s n); [done|intros s' Hs' Hw; by eapply (IH _ Hw)|rewrite Hp; exact Hn|by rewrite Hp]).
  - eapply stops_asking; [|done|done]. intros s' Hs' Hw. eapply (Hlt 12%nat); [cbn; lia|done|done].
  - eapply stops_releasing; [done|done|]. intros s' Hs' Hw. eapply (Hlt 3%nat); [cbn; lia|done|done].
  - exists [], s. split; [constructor|]. by split.
Qed.

(** The steps of the worker's goroutine in a run. *)
Definition own_step (e : event) : bool := match e with BWorker e => Worker.own e | _ => false end.

Lemma whole_step_work e s s' : Worker.shutdown (jobs s) = true -> step e s = Next s' ->
  Worker.shutdown (jobs s') = true /\
  (Worker.work (Worker.pc (jobs s')) + Nat.b2n (own_step e) <= Worker.work (Worker.pc (jobs s)))%nat.
Proof.
  intros Hd Hs. destruct e as [e|e|k|].
  - simpl in Hs. destruct (free s e); [|done]. apply bind_next in Hs as (f & Hf & [= <-]). cbn. split; [done|lia].
  - apply worker_event in Hs as [Hj _]. destruct (Worker.step_work _ _ _ Hj) as [H1 H2]. split; [by apply H1|]. cbn [own_step].
    destruct (Worker.own e); cbn [Nat.b2n]; [specialize (H2 Hd)|]; lia.
  - cbn [step] in Hs. destruct (Worker.pc (jobs s)) eqn:Hp, (call s); try done. apply bind_next in Hs as (f & Hf & [= <-]).
    cbn. rewrite Hp. split; [done|cbn; lia].
  - cbn [step] in Hs. apply bind_next in Hs as (f & Hf & Hs). apply bind_next in Hs as (j & Hj & [= <-]).
    cbn in Hj. injection Hj as <-. cbn. split; [done|lia].
Qed.

Lemma run_work es s s' : Worker.shutdown (jobs s) = true -> run_events step es s = Next s' ->
  (length (filter (fun e => own_step e = true) es) + Worker.work (Worker.pc (jobs s')) <= Worker.work (Worker.pc (jobs s)))%nat.
Proof.
  revert s. induction es as [|e es IH]; intros s Hd Hr; simpl in Hr; [injection Hr as <-; simpl; lia|].
  destruct (step e s) as [| |s1] eqn:Hs; try done. destruct (whole_step_work _ _ _ Hd Hs) as [Hd1 Hw]. specialize (IH _ Hd1 Hr).
  rewrite filter_cons. case_decide as Ho; [|apply not_true_is_false in Ho]; rewrite Ho in Hw; cbn [Nat.b2n] in Hw;
    cbn [length]; lia.
Qed.

(** ** Properties *)

Lemma gpu_inv c ctx s : Config.valid c -> reachable step (init (Main.gpu_sched c ctx)) s -> inv (Main.gpu_sched c ctx) s.
Proof. intros Hv. apply reachable_whole_inv. eapply Front.lane_ready; [done|apply Front.lane_gpu]. Qed.

Lemma gpu_limit c ctx : Config.valid c -> Scheduler.maxInflight (Main.gpu_sched c ctx) = Config.MaxInflight c.
Proof. intros Hv. eapply Front.lane_ready; [done|apply Front.lane_gpu]. Qed.

(** A yield takes the call [u] of request [r]: it is over, or its watcher runs and
    ends it with its next step. *)
Definition request_cut (r : nat) (q : Front.req) (k : nat) (w : Z) (u : Front.upcall) (s : system) : Prop :=
  Front.err u <> None \/
  step (BFront (Front.FWatch r)) s =
    Next (Sys (Front.set_req r (Front.go (Front.Serving k w (Front.Call (Front.bound u) (Some Gate.CtxCanceled) false)) [] q)
                 (front s)) (jobs s) (call s) (bound s)).

(** ... and the run of job [id]: its context is done, or its monitor watches and
    cancels it with its next step. *)
Definition run_cut (id : string) (f : Worker.facts) (s : system) : Prop :=
  Worker.run_canceled id (jobs s) = true \/
  (Worker.watching f = true /\
   exists s', step (BWorker Worker.EServeDone) s = Next s' /\ Worker.run_canceled id (jobs s') = true).

Lemma yield_cuts_request x s r q k w u : inv x s -> Front.reqs (front s) !! r = Some q -> Front.at_ q = Front.Serving k w u ->
  Front.serveDone (front s) u = true -> request_cut r q k w u s.
Proof.
  intros Hi Hq Ha Hd. destruct (Front.yield_gives_up _ _ _ _ _ _ _ (wi_front _ _ Hi) Hq Ha Hd) as [H|H]; [by left|right].
  cbn [step free]. by rewrite H.
Qed.

Lemma yield_cuts_run c ctx s id start f : Config.valid c -> reachable step (init (Main.gpu_sched c ctx)) s ->
  Worker.pc (jobs s) = Worker.WGenerating id start f -> serve_done s = true -> run_cut id f s.
Proof.
  intros Hv Hr Hp Hd. pose proof (gpu_inv _ _ _ Hv Hr) as Hi. destruct (Worker.watching f) eqn:Hw.
  - right. split; [done|]. by eapply can_surrender.
  - left. apply Worker.run_canceled_true. eapply (Worker.reachable_unwatched _ (reachable_jobs _ _ Hr)); [by rewrite Hp|done].
Qed.

(** C2: requests and jobs share one GPU, and a yield takes it from both: with a
    loaded configuration, in any interleaving of requests, the job worker, its
    clients, polls and overrides, the upstream calls of requests and the slot of
    the worker together never exceed the configured limit; a job that generates
    owns a slot of that very scheduler; its serve context is done exactly when the
    broker yields or has yielded since the run was bound to it.  While the broker
    yields, the context of every upstream call of a request is over or its watcher
    ends it with its next step, and the context of the running job is over or its
    monitor, which then still watches, cancels it with its next step; the same
    holds after the yield has ended for whatever was bound before it. *)
Theorem gpu_shared c ctx s : Config.valid c -> reachable step (init (Main.gpu_sched c ctx)) s ->
  Z.of_nat (count_map Front.serving (Front.reqs (front s)) + Nat.b2n (Worker.slot (jobs s))) <= Config.MaxInflight c /\
  (forall r q k w u, Front.reqs (front s) !! r = Some q -> Front.at_ q = Front.Serving k w u ->
     (Front.yields (front s)).1 = true \/ (Front.bound u < Front.serve_ctx (front s))%nat -> request_cut r q k w u s) /\
  forall id start f, Worker.pc (jobs s) = Worker.WGenerating id start f ->
    (exists k, call s = Some k /\ caller_of k s = Some (Scheduler.Holding Scheduler.Batch)) /\
    exists cx, bound s = Some cx /\
      (cx ∈ Yield.canceled (Yield.ctl (Front.ctl (front s))) <->
       (Front.yields (front s)).1 = true \/ (cx < Front.serve_ctx (front s))%nat) /\
      ((Front.yields (front s)).1 = true \/ (cx < Front.serve_ctx (front s))%nat -> run_cut id f s).
Proof.
  intros Hv Hr. pose proof (gpu_inv _ _ _ Hv Hr) as Hi. split; [|split].
  - rewrite <- (gpu_limit c ctx Hv), (Worker.inv_slot _ (wi_jobs _ _ Hi)). by apply in_flight_bounded.
  - intros r q k w u Hq Ha Hy. eapply yield_cuts_request; [done..|].
    pose proof (Front.in_call _ _ (wi_front _ _ Hi) _ _ Hq) as Hc. unfold Front.call_ok in Hc. rewrite Ha in Hc. destruct Hc as [_ []].
    unfold Front.serveDone. apply bool_decide_eq_true, Front.canceled_iff; [apply (Front.in_ctl _ _ (wi_front _ _ Hi))|done..].
  - intros id start f Hp. destruct (bound_iff _ _ Hi ltac:(by rewrite Hp)) as (cx & Hb & Hcx). split.
    + destruct (worker_holds _ _ Hi ltac:(by rewrite Hp)) as (k & ? & _ & ?). by exists k.
    + exists cx. do 2 (split; [done|]). intros Hy. eapply yield_cuts_run; [done..|].
      unfold serve_done. rewrite Hb. by apply bool_decide_eq_true, Hcx.
Qed.

(** C10: the parts behave in the whole as they do alone: its states project to
    reachable states of the admission path and of the job worker, so that what is
    proved of either holds of the broker; and nothing panics. *)
Theorem whole_projects c ctx s : Config.valid c -> reachable step (init (Main.gpu_sched c ctx)) s ->
  reachable Front.step (Front.init (Main.gpu_sched c ctx)) (front s) /\
  reachable Worker.step Worker.init (jobs s) /\
  forall e, step e s <> Panic.
Proof.
  intros Hv Hr. split; [by apply reachable_front|]. split; [by eapply reachable_jobs|].
  intros e. eapply whole_no_panic, gpu_inv; done.
Qed.

(** C18: a run is preempted for an interactive request only when the monitor
    finds it past its quantum and a request is then waiting for a slot in the
    interactive class. *)
Theorem preemption_justified c ctx s e s' id start f f' : Config.valid c ->
  reachable step (init (Main.gpu_sched c ctx)) s -> step e s = Next s' ->
  Worker.pc (jobs s) = Worker.WGenerating id start f -> Worker.pc (jobs s') = Worker.WGenerating id start f' ->
  Worker.preempted f = false -> Worker.preempted f' = true ->
  (exists interactive now, e = BWorker (Worker.EMonitor interactive now) /\
     Worker.quantum (Worker.wcfg (jobs s)) <= now - Worker.since f) /\
  exists w, caller_of w s = Some (Scheduler.Waiting Scheduler.Interactive false).
Proof.
  intros Hv Hr Hs Hp Hp' Hf Hf'. pose proof (gpu_inv _ _ _ Hv Hr) as Hi.
  destruct e as [e|e|k|].
  1: { simpl in Hs. destruct (free s e); [|done]. apply bind_next in Hs as (g & _ & [= <-]). cbn in Hp'. congruence. }
  2: { cbn [step] in Hs. rewrite Hp in Hs. done. }
  2: { cbn [step] in Hs. apply bind_next in Hs as (g & _ & Hs). apply bind_next in Hs as (j & Hj & [= <-]).
       cbn in Hj. injection Hj as <-. cbn in Hp'. congruence. }
  apply worker_event in Hs as [Hj Ha].
  destruct (Worker.generating_sets _ _ _ _ _ _ _ Hp Hj Hp' Hf Hf') as (i & now & -> & Hpre).
  apply andb_true_iff in Hpre as [Hq Hw]. split; [exists i, now; split; [done|by apply Z.leb_le]|].
  destruct Ha as [(_ & Ha & _)|[? _]]; [|done]. cbn in Ha. apply Z.eqb_eq in Ha. apply Z.ltb_lt in Hw.
  destruct (Scheduler.iq (Scheduler.sch (Front.sched (front s)))) as [|w l] eqn:Hiq; [cbn in Ha; lia|].
  exists w. apply (Scheduler.inv_iq _ (Front.in_sched _ _ (wi_front _ _ Hi))). rewrite Hiq. by left.
Qed.

(** The worker's way to the charge. *)
Lemma charge_justified c ctx s e s' id msg start : Config.valid c ->
  reachable step (init (Main.gpu_sched c ctx)) s -> step e s = Next s' ->
  Worker.pc (jobs s') = Worker.WFail id msg start -> Worker.pc (jobs s) <> Worker.WFail id msg start ->
  exists f, Worker.pc (jobs s) = Worker.WReturned id start f (Err msg) /\
    Worker.shutdown (jobs s) = false /\ Worker.preempted f = false /\
    (Front.yields (front s)).1 = false /\ bound s = Some (Front.serve_ctx (front s)).
Proof.
  intros Hv Hr Hs Hp Hn. pose proof (gpu_inv _ _ _ Hv Hr) as Hi. destruct (jobs_project _ _ _ Hs) as [E|_]; [congruence|].
  destruct e as [e|e|k|].
  1: { simpl in Hs. destruct (free s e); [|done]. by apply bind_next in Hs as (g & _ & [= <-]). }
  2: { cbn [step] in Hs. destruct (Worker.pc (jobs s)) eqn:Hpc, (call s); try done.
       apply bind_next in Hs as (g & _ & [= <-]). cbn in Hp. congruence. }
  2: { cbn [step] in Hs. apply bind_next in Hs as (g & _ & Hs). apply bind_next in Hs as (j & Hj & [= <-]).
       cbn in Hj. injection Hj as <-. done. }
  apply worker_event in Hs as [Hj Ha].
  destruct (Worker.charged _ _ _ _ _ _ Hj Hp) as [?|(f & fault & Hpc & -> & Hd & Hf)]; [done|].
  destruct Ha as [(_ & Ha & _)|[? _]]; [|done]. cbn in Ha. exists f. do 3 (split; [done|]).
  destruct (wi_bound _ _ Hi ltac:(by rewrite Hpc)) as (cx & Hb & Hle).
  destruct (bound_iff _ _ Hi ltac:(by rewrite Hpc)) as (cx' & Hb' & Hcx). rewrite Hb in Hb'. injection Hb' as <-.
  unfold serve_done in Ha. rewrite Hb in Ha. destruct (decide (cx ∈ Yield.canceled (Yield.ctl (Front.ctl (front s))))) as [Hin|Hin].
  { by rewrite bool_decide_eq_true_2 in Ha. }
  split; [apply not_true_is_false; tauto|]. rewrite Hb. f_equal. assert (~ (cx < Front.serve_ctx (front s))%nat) by tauto. lia.
Qed.

(** The row of a job. *)
Definition row (id : string) (s : system) : option JobStore.Job := JobStore.find_job id (JobService.tbl (Worker.svc (jobs s))).

(** C19: while the broker runs a job pays for its own failures only: the [Attempts]
    of its row change in one step alone, the worker's [FailOrRetry] of that job,
    and by one; and the worker gets there only from a generation of that job that
    returned an error while its context was neither stopped by a shutdown nor
    preempted, the broker was not yielding, and no yield had begun since the run
    was bound.  (A restart charges jobs it finds RUNNING before any of this
    starts; see [Life].) *)
Theorem attempt_paid c ctx s e s' : Config.valid c ->
  reachable step (init (Main.gpu_sched c ctx)) s -> step e s = Next s' ->
  (forall id j j', row id s = Some j -> row id s' = Some j' -> JobStore.Attempts j' <> JobStore.Attempts j ->
     exists msg start now, e = BWorker (Worker.EFail false now) /\ Worker.pc (jobs s) = Worker.WFail id msg start /\
       JobStore.Attempts j' = JobStore.Attempts j + 1) /\
  forall id msg start, Worker.pc (jobs s') = Worker.WFail id msg start -> Worker.pc (jobs s) <> Worker.WFail id msg start ->
    exists f, Worker.pc (jobs s) = Worker.WReturned id start f (Err msg) /\
      Worker.shutdown (jobs s) = false /\ Worker.preempted f = false /\
      (Front.yields (front s)).1 = false /\ bound s = Some (Front.serve_ctx (front s)).
Proof.
  intros Hv Hr Hs. split; [|by intros id msg start; eapply charge_justified].
  intros id j j' Hj Hj' Hne. pose proof (gpu_inv _ _ _ Hv Hr) as Hi.
  destruct (jobs_moved _ _ _ Hs) as [E|(e' & He & H)]; [unfold row in *; rewrite E in Hj'; congruence|].
  destruct (Worker.charge_one _ _ _ _ _ _ (wi_jobs _ _ Hi) H Hj Hj' Hne) as (msg & start & now & -> & Hp & Ha).
  destruct He as [->|[=]]. by exists msg, start, now.
Qed.

(** C21: no slot of the shared scheduler leaks: whoever owns one is the worker or
    exactly one request that works under it; so when every request has ended and
    the worker has stopped, all slots are free. *)
Theorem slots_shared c ctx s : Config.valid c -> reachable step (init (Main.gpu_sched c ctx)) s ->
  (forall k cl, caller_of k s = Some cl -> Scheduler.owns cl = true ->
     (call s = Some k /\ k ∉ Front.mine (front s)) \/
     exists r q, (Front.reqs (front s) !! r = Some q /\ Front.current q = Some k) /\
       forall r' q', Front.reqs (front s) !! r' = Some q' -> Front.current q' = Some k -> r' = r) /\
  (map_Forall (fun _ q => Front.current q = None) (Front.reqs (front s)) -> Worker.pc (jobs s) = Worker.WStopped ->
   Scheduler.inflight (Scheduler.sch (Front.sched (front s))) = 0).
Proof.
  intros Hv Hr. pose proof (gpu_inv _ _ _ Hv Hr) as Hi. pose proof (wi_front _ _ Hi) as Hf.
  assert (forall k cl, caller_of k s = Some cl -> Scheduler.owns cl = true ->
    (call s = Some k /\ k ∉ Front.mine (front s)) \/
    exists r q, Front.reqs (front s) !! r = Some q /\ Front.current q = Some k) as Hown.
  { intros k cl Hk Ho. destruct (decide (k ∈ Front.mine (front s))) as [Hm|Hm].
    - right. destruct (Front.in_mine _ _ Hf k Hm) as [H|(c' & Hc' & Hfin)]; [done|]. unfold caller_of in Hk.
      rewrite Hk in Hc'. injection Hc' as <-. by destruct Hfin as [-> | ->].
    - left. split; [|done]. destruct (decide (call s = Some k)) as [|Hn]; [done|].
      by destruct (wi_rest _ _ Hi k cl Hk Hm Hn) as [-> | ->]. }
  split.
  - intros k cl Hk Ho. destruct (Hown _ _ Hk Ho) as [H|(r & q & Hq & Hc)]; [by left|right]. exists r, q. split; [done|].
    intros r' q' Hq' Hc'. by eapply (Front.in_cur _ _ Hf).
  - intros Hreq Hstop. rewrite (Scheduler.inv_inflight _ (Front.in_sched _ _ Hf)).
    enough (count_map Scheduler.owns (Scheduler.callers (Front.sched (front s))) = 0%nat) as -> by done.
    apply count_map_none. intros k cl Hk. destruct (Scheduler.owns cl) eqn:Ho; [|done]. exfalso.
    destruct (Hown _ _ Hk Ho) as [[Hc _]|(r & q & Hq & Hc)].
    + pose proof (wi_call _ _ Hi) as H. unfold call_ok in H. rewrite Hc, Hstop in H. by destruct H as (_ & ? & _ & ? & _).
    + pose proof (Hreq _ _ Hq). congruence.
Qed.

(** C26: the worker stops: once the root context is done no run of the broker,
    whatever the others do, contains more than fourteen steps of the worker's
    goroutine, and from any such state the goroutine can come to its end by its
    own steps alone, giving up the slot it waits for and releasing the one it
    holds. *)
Theorem worker_stops c ctx s : Config.valid c -> reachable step (init (Main.gpu_sched c ctx)) s ->
  Worker.shutdown (jobs s) = true ->
  stops s /\
  forall es s', run_events step es s = Next s' -> (length (filter (fun e => own_step e = true) es) <= 14)%nat.
Proof.
  intros Hv Hr Hd. pose proof (gpu_inv _ _ _ Hv Hr) as Hi. split.
  - by eapply stops_within; [split|].
  - intros es s' He. pose proof (run_work _ _ _ Hd He).
    assert (Worker.work (Worker.pc (jobs s)) <= 14)%nat by (destruct (Worker.pc (jobs s)); cbn; lia). lia.
Qed.

(** ** Witnesses *)

(** A job runs when an interactive request comes to wait for its slot. *)
Definition to_generate : list event :=
  map BWorker (Worker.ESubmit 0 false (Worker.demo_sub "a") 1 :: [Worker.ETop; Worker.EYield false; Worker.EPeek false])
  ++ BAsk 0 :: map BWorker [Worker.EAcquired true; Worker.ERecheck false; Worker.EClaim false 2; Worker.EStartRun 3; Worker.EBind 3]
  ++ map BFront [Front.FArrive 0 (Front.demo_request Scheduler.Interactive "r"); Front.FCheck 0 4; Front.FAcquire 0 1].

Definition demo_start : system := Sys Front.front_start Worker.demo_start None None.
Definition demo_generating : system := final step to_generate demo_start.

(** The operator forces a yield. *)
Definition demo_yielding : system :=
  final step [BFront (Front.FYield (Yield.ESetMode Yield.ModeForceYield 5))] demo_generating.

Lemma demo_whole_init : init (Main.gpu_sched Config.demo_cfg 0) demo_start.
Proof.
  split; [|split; [apply Worker.demo_start_init|done]]. exists (Yield.System Yield.demo_ctl' ∅). split; [|done].
  by exists [Some 7%nat; None], ["vllm"], 5, 2, 0, false, [10; 0], Yield.demo_ctl'.
Qed.

Lemma demo_generating_reachable : reachable step (init (Main.gpu_sched Config.demo_cfg 0)) demo_generating.
Proof. apply final_reachable, reach_init, demo_whole_init. Qed.

Lemma demo_yielding_reachable : reachable step (init (Main.gpu_sched Config.demo_cfg 0)) demo_yielding.
Proof. apply final_reachable, demo_generating_reachable. Qed.

Lemma demo_pc : Worker.pc (jobs demo_yielding) = Worker.WGenerating "a" 3 (Worker.Facts 3 true false).
Proof. vm_compute. reflexivity. Qed.

Lemma demo_front_yields : (Front.yields (front demo_yielding)).1 = true.
Proof. vm_compute. reflexivity. Qed.

Lemma gpu_shared_witness : run_cut "a" (Worker.Facts 3 true false) demo_yielding.
Proof.
  pose proof (gpu_shared Config.demo_cfg 0 demo_yielding Broker.demo_valid demo_yielding_reachable) as (_ & _ & H).
  specialize (H "a" 3 (Worker.Facts 3 true false) demo_pc) as (_ & cx & _ & _ & H). exact (H (or_introl demo_front_yields)).
Defined.

Lemma whole_projects_witness : reachable Worker.step Worker.init (jobs demo_generating).
Proof.
  exact (proj1 (proj2 (whole_projects Config.demo_cfg 0 demo_generating Broker.demo_valid demo_generating_reachable))).
Defined.

(** Twenty seconds later the monitor takes the slot from the job. *)
Definition demo_preempt : event := BWorker (Worker.EMonitor 1 (20 * GoLib.Second)).
Definition demo_preempted : system := final step [demo_preempt] demo_generating.

Lemma demo_preempt_step : step demo_preempt demo_generating = Next demo_preempted /\
  Worker.pc (jobs demo_generating) = Worker.WGenerating "a" 3 (Worker.Facts 3 true false) /\
  Worker.pc (jobs demo_preempted) = Worker.WGenerating "a" 3 (Worker.Facts 3 false true).
Proof. vm_compute. done. Qed.

Lemma preemption_justified_witness :
  exists w, caller_of w demo_generating = Some (Scheduler.Waiting Scheduler.Interactive false).
Proof.
  exact (proj2 (preemption_justified Config.demo_cfg 0 demo_generating demo_preempt demo_preempted "a" 3 _ _ Broker.demo_valid
    demo_generating_reachable (proj1 demo_preempt_step) (proj1 (proj2 demo_preempt_step)) (proj2 (proj2 demo_preempt_step))
    eq_refl eq_refl)).
Defined.

(** The upstream refuses the job. *)
Definition demo_failed : system := final step [BWorker (Worker.EGenerated (Err "status 500"))] demo_generating.
Definition demo_charge : event := BWorker (Worker.EClassify false false).
Definition demo_charged : system := final step [demo_charge] demo_failed.

Lemma demo_failed_reachable : reachable step (init (Main.gpu_sched Config.demo_cfg 0)) demo_failed.
Proof. apply final_reachable, demo_generating_reachable. Qed.

Lemma demo_charge_step : step demo_charge demo_failed = Next demo_charged /\
  Worker.pc (jobs demo_charged) = Worker.WFail "a" "status 500" 3.
Proof. vm_compute. done. Qed.

Lemma demo_uncharged : Worker.pc (jobs demo_failed) <> Worker.WFail "a" "status 500" 3.
Proof. vm_compute. discriminate. Qed.

Definition demo_retried : system := final step [BWorker (Worker.EFail false 9)] demo_charged.

Lemma demo_charged_reachable : reachable step (init (Main.gpu_sched Config.demo_cfg 0)) demo_charged.
Proof. apply final_reachable, demo_failed_reachable. Qed.

Definition demo_row (s : system) : JobStore.Job := default JobStore.demo_a (row "a" s).

Lemma demo_retry_step : step (BWorker (Worker.EFail false 9)) demo_charged = Next demo_retried /\
  row "a" demo_charged = Some (demo_row demo_charged) /\ row "a" demo_retried = Some (demo_row demo_retried) /\
  JobStore.Attempts (demo_row demo_retried) <> JobStore.Attempts (demo_row demo_charged).
Proof. vm_compute. done. Qed.

Lemma attempt_paid_witness : bound demo_failed = Some (Front.serve_ctx (front demo_failed)) /\
  JobStore.Attempts (demo_row demo_retried) = JobStore.Attempts (demo_row demo_charged) + 1.
Proof.
  split.
  - pose proof (attempt_paid Config.demo_cfg 0 demo_failed demo_charge demo_charged Broker.demo_valid
      demo_failed_reachable (proj1 demo_charge_step)) as [_ H].
    destruct (H "a" "status 500" 3 (proj2 demo_charge_step) demo_uncharged) as (f & _ & _ & _ & _ & Hb). exact Hb.
  - pose proof (attempt_paid Config.demo_cfg 0 demo_charged (BWorker (Worker.EFail false 9)) demo_retried Broker.demo_valid
      demo_charged_reachable (proj1 demo_retry_step)) as [H _].
    destruct (H "a" _ _ (proj1 (proj2 demo_retry_step)) (proj1 (proj2 (proj2 demo_retry_step))) (proj2 (proj2 (proj2 demo_retry_step))))
      as (msg & start & now & _ & _ & Ha). exact Ha.
Defined.

Lemma demo_job_call : caller_of 0 demo_generating = Some (Scheduler.Holding Scheduler.Batch) /\ call demo_generating = Some 0%nat.
Proof. vm_compute. done. Qed.

Lemma slots_shared_witness :
  (call demo_generating = Some 0%nat /\ 0%nat ∉ Front.mine (front demo_generating)) \/
  exists r q, Front.reqs (front demo_generating) !! r = Some q /\ Front.current q = Some 0%nat.
Proof.
  pose proof (slots_shared Config.demo_cfg 0 demo_generating Broker.demo_valid demo_generating_reachable) as [H _].
  specialize (H 0%nat _ (proj1 demo_job_call) eq_refl) as [H|(r & q & H & _)]; [left; exact H|right; exists r, q; exact H].
Defined.

Definition demo_shutting_down : system := final step [BShutdown] demo_generating.

Lemma demo_shutting_down_reachable : reachable step (init (Main.gpu_sched Config.demo_cfg 0)) demo_shutting_down.
Proof. apply final_reachable, demo_generating_reachable. Qed.

Lemma demo_shut : Worker.shutdown (jobs demo_shutting_down) = true.
Proof. vm_compute. reflexivity. Qed.

Lemma worker_stops_witness : stops demo_shutting_down.
Proof.
  exact (proj1 (worker_stops Config.demo_cfg 0 demo_shutting_down Broker.demo_valid demo_shutting_down_reachable demo_shut)).
Defined.

End Whole.
