(* ===== verification/Life.v ===== *)
(** * The life of the process (main of src/cmd/broker/main.go)

    [step] is main's own goroutine, from the environment it reads to its exit,
    with the listener goroutines it starts and waits for, and the broker it builds
    running beside it: [Whole] for the GPU's lanes and the job worker, a second
    [Front] for the embed lane, both on one yield controller.  A request arrives
    only at a lane that listens, with the gate main put there; the control plane
    is reached only while its server listens.

    Proved: what main builds is what the theorems on the parts are about, at any
    moment of its life; both lanes keep their limits; a failing listener never
    blocks, and after a signal or a failure main comes to its exit in a bounded
    number of steps, with every server shut down and both lanes told.  And what an
    exit costs: main does not wait for the worker to put its job back, and the
    next start charges the jobs it finds running.  A contention found at the very
    first poll is not passed on to Tdarr (an example). *)

From S2P Require Import Prelude GoLib Park Scheduler Gate Yield JobStore JobService Worker Config Broker Main Front Whole.
#[local] Set Warnings "-clear-no-such-hyp,-level-tolerance".
Local Open Scope Z_scope.

Module Life.

#[global] Instance gate_config_eq_dec : EqDecision Gate.config.
Proof. solve_decision. Defined.

(** ** The state *)

(** A goroutine that runs [ListenAndServe]: not started; listening; with an error
    to send; done. *)
Inductive listener := LNew | LServing | LFailed | LDone.

(** main past [go worker.Run]: starting listener [i]; in its [select]; shutting
    down server [i]; in [wg.Wait]. *)
Inductive mpc := Listening (i : nat) | Selecting | Closing (i : nat) | Joining.

(** [errs] is the buffered channel [errCh], by the number of the server;
    [closing] the servers whose [Shutdown] was called. *)
Record running := Running {
  cfg : Config.Config_t;
  whole : Whole.system;
  embed : option Front.system;
  at_ : mpc;
  lst : list listener;
  errs : list nat;
  closing : gset nat;
}.

(** main from its first line: before [buildBroker] is done; with the poll and
    drain loops started; past the Tdarr client; with the job store open; with
    the jobs recovered; up; gone. *)
Inductive phase :=
| Boot
| Detecting (c : Config.Config_t) (f : Front.system)
| Opening (c : Config.Config_t) (f : Front.system)
| Recovering (c : Config.Config_t) (f : Front.system) (t : JobStore.table)
| Starting (c : Config.Config_t) (f : Front.system) (svc : JobService.service)
| Up (r : running)
| Exited (code : Z) (left : option running).

(** The database holds what the calls of earlier brokers have left. *)
Inductive event :=
| LBuild (env : string -> option string) (t0 : Z)
| LFront (e : Front.event)
| LTdarr
| LOpen (db : option (Z * list JobStore.call))
| LRecover (fault : bool) (now : Z)
| LWorker
| LGo
| LWhole (e : Whole.event)
| LEmbed (e : Front.event)
| LFail (i : nat)
| LClosed (i : nat)
| LSend (i : nat)
| LSignal
| LTakeErr
| LShutdown (timeout : bool)
| LJoin.

Definition set_whole w r := Running (cfg r) w (embed r) (at_ r) (lst r) (errs r) (closing r).
Definition set_embed g r := Running (cfg r) (whole r) g (at_ r) (lst r) (errs r) (closing r).
Definition set_at p r := Running (cfg r) (whole r) (embed r) p (lst r) (errs r) (closing r).
Definition set_listener i l r := Running (cfg r) (whole r) (embed r) (at_ r) (<[i := l]> (lst r)) (errs r) (closing r).
Definition set_errs q r := Running (cfg r) (whole r) (embed r) (at_ r) (lst r) q (closing r).
Definition set_closing i r := Running (cfg r) (whole r) (embed r) (at_ r) (lst r) (errs r) ({[i]} ∪ closing r).

(** ** Who can be reached *)

Definition serving (r : running) (i : nat) : bool :=
  match lst r !! i with Some LServing => negb (bool_decide (i ∈ closing r)) | _ => false end.

(** Some server with a handler of this kind takes connections. *)
Definition reached (p : Main.handler -> bool) (r : running) : bool :=
  existsb (fun i => serving r i && match Main.servers (cfg r) !! i with Some srv => p (Main.front srv) | None => false end)
    (seq 0 (length (lst r))).

Definition gpu_gate (c : Gate.config) (h : Main.handler) : bool :=
  match h with Main.Lane _ _ _ => bool_decide (Main.gate_config h (Gate.reqID c) = Some c) | _ => false end.

Definition embed_gate (c : Gate.config) (h : Main.handler) : bool :=
  match h with Main.Embed _ _ _ => bool_decide (Main.gate_config h (Gate.reqID c) = Some c) | _ => false end.

Definition control (h : Main.handler) : bool := match h with Main.ControlPlane => true | _ => false end.

(** What the loops main starts can do before there is a server. *)
Definition early (e : Front.event) : bool :=
  match e with
  | Front.FYield (Yield.ERefresh _ _ _) | Front.FYield (Yield.ETaskStart _) | Front.FYield (Yield.ETaskEnd _)
  | Front.FPark (Park.ETick _) => true
  | _ => false
  end.

Definition allowed (e : Whole.event) (r : running) : bool :=
  match e with
  | Whole.BFront (Front.FArrive _ c) => reached (gpu_gate c) r
  | Whole.BFront (Front.FYield (Yield.ESetMode _ _))
  | Whole.BWorker (Worker.ESubmit _ _ _ _) | Whole.BWorker (Worker.ECancel _ _ _ _) | Whole.BWorker (Worker.EFetch _ _ _)
  | Whole.BWorker (Worker.EOpen _ _ _ _) => reached control r
  | Whole.BFront (Front.FYield Yield.ESetGPUManager) | Whole.BShutdown => false
  | _ => true
  end.

Definition embed_allowed (e : Front.event) (r : running) : bool :=
  match e with
  | Front.FArrive _ c => reached (embed_gate c) r
  | Front.FYield _ | Front.FPark Park.EShutdown => false
  | _ => negb (Whole.foreign e)
  end.

(** The embed lane reads the controller the GPU's lanes read. *)
Definition embed_follows (e : Whole.event) (g : option Front.system) : outcome (option Front.system) :=
  match e, g with
  | Whole.BFront (Front.FYield y), Some g => f ← Front.step (Front.FYield y) g; Next (Some f)
  | Whole.BShutdown, Some g => f ← Front.step (Front.FPark Park.EShutdown) g; Next (Some f)
  | _, _ => Next g
  end.

(** A lane before its first request. *)
Definition new_lane (y : Yield.system) (x : Scheduler.sched) : Front.system :=
  Front.Sys y (Scheduler.System x ∅) (Park.fresh_lot (Scheduler.park x)) ∅ ∅.

(** ** What the parts keep *)

Lemma park_shutdown_kept e l l' : Park.step e l = Next l' -> Park.shutdown l = true -> Park.shutdown l' = true.
Proof.
  assert (forall w r, Park.shutdown (Park.leave w r l) = Park.shutdown l) as Hl.
  { intros w r. unfold Park.leave. by destruct (Park.remove _ _) as [[] ?]. }
  intros Hs Hd. destruct e; simpl in Hs; repeat (case_match; try done); simplify_eq; try done; rewrite ?Hl; try done.
  - unfold Park.enter. by destruct (Park.parkFor_enter _ _).
  - unfold Park.splice in Hs. repeat case_match; by simplify_eq.
  - unfold Park.close_release in Hs. repeat case_match; by simplify_eq.
Qed.

(** A step of the front keeps a shutdown, the controller that is not its own, and
    the gates of its requests; only an arrival brings another. *)
Lemma front_kept e f f' : Front.step e f = Next f' ->
  (Park.shutdown (Front.park f) = true -> Park.shutdown (Front.park f') = true) /\
  (match e with Front.FYield _ => True | _ => Front.ctl f' = Front.ctl f end) /\
  forall r q', Front.reqs f' !! r = Some q' ->
    (exists q, Front.reqs f !! r = Some q /\ Front.cfg q = Front.cfg q') \/ (e = Front.FArrive r (Front.cfg q')).
Proof.
  intros Hs.
  assert (forall r (k : Front.req -> outcome Front.system), Front.with_req r f k = Next f' ->
    exists q, Front.reqs f !! r = Some q /\ k q = Next f') as Hw.
  { intros r k. unfold Front.with_req. destruct (Front.reqs f !! r); [eauto|done]. }
  assert (forall g, Front.reqs g = Front.reqs f -> forall r q', Front.reqs g !! r = Some q' ->
    (exists q, Front.reqs f !! r = Some q /\ Front.cfg q = Front.cfg q') \/ (e = Front.FArrive r (Front.cfg q'))) as Hsame.
  { intros g E r q' H. rewrite E in H. eauto. }
  assert (forall r0 q0 q1 g, Front.reqs f !! r0 = Some q0 -> Front.cfg q1 = Front.cfg q0 -> Front.reqs g = <[r0 := q1]> (Front.reqs f) ->
    forall r q', Front.reqs g !! r = Some q' ->
    (exists q, Front.reqs f !! r = Some q /\ Front.cfg q = Front.cfg q') \/ (e = Front.FArrive r (Front.cfg q'))) as Hone.
  { intros r0 q0 q1 g H0 E Eg r q' H. rewrite Eg in H. left.
    apply lookup_insert_Some in H as [[<- <-]|[_ H]]; eauto. }
  destruct e as [e|e|e|r c|r since|r k|r since parked|r k|r waited|r|r|r|r|r|r|r panics|r]; cbn [Front.step] in Hs;
    try (apply Hw in Hs as (q & Hq & Hs); lazymatch type of Hs with context [match Front.at_ _ with _ => _ end] => destruct (Front.at_ q) eqn:Hat; try done | _ => idtac end).
  - apply bind_next in Hs as (y & Hy & [= <-]). split; [done|split; [done|by apply Hsame]].
  - destruct e; try case_decide; try done; apply bind_next in Hs as (y & Hy & [= <-]); (split; [done|split; [done|by apply Hsame]]).
  - destruct e as [|w|w| |w|w|w|w|y| |]; try done; [..|destruct (Bool.eqb y _); [|done]| |];
      apply bind_next in Hs as (l & Hl & [= <-]); (split; [by eapply park_shutdown_kept|split; [done|by apply Hsame]]).
  - destruct (Front.reqs f !! r) eqn:Hr; [done|]. injection Hs as <-. split; [done|]. split; [done|].
    intros r' q' H. cbn [Front.reqs Front.set_req] in H. apply lookup_insert_Some in H as [[<- <-]|[_ H]]; [by right|left; eauto].
  - destruct (Front.yields f) as [[] reason]; [destruct (negb _)|]; injection Hs as <-; (split; [done|split; [done|eapply Hone; [exact Hq| |reflexivity]; done]]).
  - apply bind_next in Hs as (l & Hl & [= <-]). split; [by eapply park_shutdown_kept|split; [done|eapply Hone; [exact Hq| |reflexivity]; done]].
  - destruct (_ !! k) as [[| |[]]|]; try done; injection Hs as <-; (split; [done|split; [done|eapply Hone; [exact Hq| |reflexivity]; done]]).
  - apply bind_next in Hs as (y & Hy & [= <-]). split; [done|split; [done|eapply Hone; [exact Hq| |reflexivity]; done]].
  - destruct (_ !! k) as [[]|]; try done; injection Hs as <-; (split; [done|split; [done|eapply Hone; [exact Hq| |reflexivity]; done]]).
  - destruct (Front.yields f).1; injection Hs as <-; (split; [done|split; [done|eapply Hone; [exact Hq| |reflexivity]; done]]).
  - apply bind_next in Hs as (y & Hy & [= <-]). split; [done|]. split; [done|]. eapply Hone; [exact Hq| |reflexivity]. by destruct (negb _).
  - injection Hs as <-. split; [done|split; [done|eapply Hone; [exact Hq| |reflexivity]; done]].
  - destruct (_ && _); [|done]. injection Hs as <-. split; [done|split; [done|eapply Hone; [exact Hq| |reflexivity]; done]].
  - destruct (0 <? _); [|done]. injection Hs as <-. split; [done|split; [done|eapply Hone; [exact Hq| |reflexivity]; done]].
  - injection Hs as <-. split; [done|split; [done|eapply Hone; [exact Hq| |reflexivity]; done]].
  - injection Hs as <-. split; [done|split; [done|eapply Hone; [exact Hq| |reflexivity]; done]].
  - apply bind_next in Hs as (y & Hy & [= <-]). split; [done|split; [done|eapply Hone; [exact Hq| |reflexivity]; done]].
Qed.

Definition yields_step (e : Front.event) : bool := match e with Front.FYield _ => true | _ => false end.

Lemma front_ctl e f f' : Front.step e f = Next f' -> yields_step e = false -> Front.ctl f' = Front.ctl f.
Proof. intros Hs He. destruct (front_kept _ _ _ Hs) as (_ & H & _). by destruct e. Qed.

Lemma whole_arrivals e s s' : Whole.step e s = Next s' -> forall k q', Front.reqs (Whole.front s') !! k = Some q' ->
  (exists q, Front.reqs (Whole.front s) !! k = Some q /\ Front.cfg q = Front.cfg q') \/
  e = Whole.BFront (Front.FArrive k (Front.cfg q')).
Proof.
  intros Hs k q' Hq. destruct e as [e|e|w|]; cbn [Whole.step] in Hs.
  - destruct (Whole.free _ _); [|done]. apply bind_next in Hs as (f & Hs & [= <-]).
    destruct (front_kept _ _ _ Hs) as (_ & _ & H). destruct (H k q' Hq) as [?| ->]; [by left|by right].
  - apply Whole.worker_event in Hs as [_ [(_ & _ & E & _)|(_ & w & _ & _ & _ & Hf)]]; [rewrite E in Hq; eauto|].
    destruct (Whole.fsched_step _ _ _ Hf) as (_ & _ & _ & E). rewrite E in Hq. eauto.
  - destruct (Worker.pc _), (Whole.call s); try done. apply bind_next in Hs as (f & Hs & [= <-]).
    destruct (Whole.fsched_step _ _ _ Hs) as (_ & _ & _ & E). cbn in Hq. rewrite E in Hq. eauto.
  - apply bind_next in Hs as (f & Hs & Hs2). apply bind_next in Hs2 as (j & _ & [= <-]).
    cbn [Front.step] in Hs. apply bind_next in Hs as (l & _ & [= <-]). eauto.
Qed.

(** ** main *)

Section main.
Context (url_Parse : string -> option Config.URL) (ParseDuration : string -> option Z).
Context (root : nat).

Definition gone (l : listener) : bool := match l with LDone => true | _ => false end.

(** What [LWorker] hands over: the worker and the prune loop run, the servers and
    the embed lane exist, no listener is started. *)
Definition assemble (c : Config.Config_t) (f : Front.system) (svc : JobService.service) : running :=
  Running c
    (Whole.Sys f
       (Worker.System svc (Worker.NewWorker (Config.BatchQuantum c) 0) Worker.WLoop false false ∅ ∅ ∅) None None)
    (match Config.InfinityURL c with
     | Some _ => Some (new_lane (Front.ctl f) (Main.embed_sched c root))
     | None => None
     end)
    (Listening 0) (replicate (length (Main.servers c)) LNew) [] ∅.

(** [cancel()], and on to the servers. *)
Definition stop (r : running) : outcome running :=
  w ← Whole.step Whole.BShutdown (whole r);
  g ← embed_follows Whole.BShutdown (embed r);
  Next (set_at (Closing 0) (set_embed g (set_whole w r))).

Definition up_step (e : event) (r : running) : outcome phase :=
  match e with
  | LGo =>
      match at_ r with
      | Listening i =>
          Next (Up (set_at (if (S i <? length (lst r))%nat then Listening (S i) else Selecting) (set_listener i LServing r)))
      | _ => Disabled
      end
  | LWhole e =>
      if allowed e r then
        w ← Whole.step e (whole r); g ← embed_follows e (embed r); Next (Up (set_embed g (set_whole w r)))
      else Disabled
  | LEmbed e =>
      match embed r with
      | Some g => if embed_allowed e r then f ← Front.step e g; Next (Up (set_embed (Some f) r)) else Disabled
      | None => Disabled
      end
  | LFail i => match lst r !! i with Some LServing => Next (Up (set_listener i LFailed r)) | _ => Disabled end
  | LClosed i =>
      match lst r !! i with
      | Some LServing => if decide (i ∈ closing r) then Next (Up (set_listener i LDone r)) else Disabled
      | _ => Disabled
      end
  | LSend i =>
      match lst r !! i with
      | Some LFailed =>
          if (length (errs r) <? length (Main.servers (cfg r)))%nat
          then Next (Up (set_errs (errs r ++ [i]) (set_listener i LDone r))) else Disabled
      | _ => Disabled
      end
  | LSignal => match at_ r with Selecting => r' ← stop r; Next (Up r') | _ => Disabled end
  | LTakeErr =>
      match at_ r, errs r with
      | Selecting, _ :: q => r' ← stop (set_errs q r); Next (Up r')
      | _, _ => Disabled
      end
  | LShutdown timeout =>
      match at_ r with
      | Closing i =>
          Next (Up (set_at (if (S i <? length (lst r))%nat then Closing (S i) else Joining) (set_closing i r)))
      | _ => Disabled
      end
  | LJoin =>
      match at_ r with
      | Joining => if forallb gone (lst r) then Next (Exited 0 (Some r)) else Disabled
      | _ => Disabled
      end
  | _ => Disabled
  end.

Definition step (e : event) (p : phase) : outcome phase :=
  match p, e with
  | Boot, LBuild env t0 =>
      match Config.Load env url_Parse ParseDuration with
      | Err _ => Next (Exited 1 None)
      | Ok c =>
          match Broker.New 0 c with
          | Err _ => Next (Exited 1 None)
          | Ok be =>
              b ← Broker.buildBroker c be t0;
              match b with
              | Err _ => Next (Exited 1 None)
              | Ok bd => Next (Detecting c (new_lane (Yield.System (Broker.ctrl bd) ∅) (Main.gpu_sched c root)))
              end
          end
      end
  | Detecting c f, LTdarr =>
      match Main.tdarr_client c with
      | Some _ => f ← Front.step (Front.FYield Yield.ESetGPUManager) f; Next (Opening c f)
      | None => Next (Opening c f)
      end
  | Opening c f, LOpen db =>
      match db with
      | None => Next (Exited 1 None)
      | Some (m, cs) => Next (Recovering c f (JobStore.run m cs []))
      end
  | Recovering c f t, LRecover fault now =>
      if fault then Next (Exited 1 None)
      else Next (Starting c f (JobService.Recover now (JobService.NewService t (Config.JobMaxAttempts c))))
  | Starting c f svc, LWorker => Next (Up (assemble c f svc))
  | Detecting c f, LFront e => if early e then f' ← Front.step e f; Next (Detecting c f') else Disabled
  | Opening c f, LFront e => if early e then f' ← Front.step e f; Next (Opening c f') else Disabled
  | Recovering c f t, LFront e => if early e then f' ← Front.step e f; Next (Recovering c f' t) else Disabled
  | Starting c f svc, LFront e => if early e then f' ← Front.step e f; Next (Starting c f' svc) else Disabled
  | Up r, e => up_step e r
  | _, _ => Disabled
  end.

Definition init (p : phase) : Prop := p = Boot.

(** ** What is built *)

(** A front of the GPU's lanes that has only seen early steps. *)
Record booted (c : Config.Config_t) (f : Front.system) : Prop := {
  bo_valid : Config.valid c;
  bo_whole : forall j, Worker.init j -> reachable Whole.step (Whole.init (Main.gpu_sched c root)) (Whole.Sys f j None None);
  bo_embed : reachable Front.step (Front.init (Main.embed_sched c root)) (new_lane (Front.ctl f) (Main.embed_sched c root));
  bo_idle : Front.reqs f = ∅;
}.

Lemma booted_yield c f y f' : booted c f -> Front.step (Front.FYield y) f = Next f' -> booted c f'.
Proof.
  intros [Hv Hw He Hi] Hs. pose proof Hs as Hs'. cbn [Front.step] in Hs'. apply bind_next in Hs' as (y' & Hy & [= <-]).
  split; [done| | |done].
  - intros j Hj. eapply (reach_step _ _ _ (Whole.BFront (Front.FYield y))); [by apply Hw|]. cbn [Whole.step Whole.free Whole.front].
    by rewrite Hs.
  - eapply (reach_step _ _ _ (Front.FYield y)); [exact He|]. cbn [Front.step new_lane Front.ctl]. by rewrite Hy.
Qed.

Lemma booted_early c f e f' : booted c f -> early e = true -> Front.step e f = Next f' -> booted c f'.
Proof.
  intros Hb He Hs. destruct e as [y|?|k| | | | | | | | | | | | | |]; try done; [by eapply booted_yield|].
  destruct k; try done. destruct Hb as [Hv Hw Hem Hi]. pose proof Hs as Hs'. cbn [Front.step] in Hs'.
  destruct (Bool.eqb _ _); [|done]. apply bind_next in Hs' as (l & Hl & [= <-]). split; [done| |exact Hem|done].
  intros j Hj. eapply (reach_step _ _ _ (Whole.BFront (Front.FPark (Park.ETick yielding)))); [by apply Hw|].
  cbn [Whole.step Whole.free Whole.front]. by rewrite Hs.
Qed.

Lemma booted_new c be t0 bd : Config.valid c -> Broker.New 0 c = Ok be -> Broker.buildBroker c be t0 = Next (Ok bd) ->
  booted c (new_lane (Yield.System (Broker.ctrl bd) ∅) (Main.gpu_sched c root)).
Proof.
  intros Hv Hn Hb. destruct (Broker.buildBroker_ok c be t0 Hv Hn) as (bd' & Hb' & Hbu). rewrite Hb in Hb'. injection Hb' as <-.
  assert (Yield.init (Yield.System (Broker.ctrl bd) ∅)) as Hy.
  { assert (hasGpu : exists gpu, Yield.SetGPUManager gpu (Broker.ctrl bd) = Broker.ctrl bd)
      by (exists (Yield.hasGpuMgr (Broker.ctrl bd)); by destruct (Broker.ctrl bd)).
    destruct hasGpu as [gpu E]. pose proof (Broker.bu_init _ _ _ Hbu gpu) as H. by rewrite E in H. }
  split; [done| | |done].
  - intros j Hj. apply reach_init. split; [|done]. by exists (Yield.System (Broker.ctrl bd) ∅).
  - apply reach_init. by exists (Yield.System (Broker.ctrl bd) ∅).
Qed.

(** The root context is done, for the worker and for both park queues. *)
Definition told (r : running) : Prop :=
  Worker.shutdown (Whole.jobs (whole r)) = true /\ Park.shutdown (Front.park (Whole.front (whole r))) = true /\
  forall g, embed r = Some g -> Park.shutdown (Front.park g) = true.

(** A request has the gate of one of the servers. *)
Definition gated (r : running) (p : Gate.config -> Main.handler -> bool) (q : Front.req) : Prop :=
  exists srv, srv ∈ Main.servers (cfg r) /\ p (Front.cfg q) (Main.front srv) = true.

(** The broker beside main. *)
Record parts (r : running) : Prop := {
  pa_valid : Config.valid (cfg r);
  pa_whole : reachable Whole.step (Whole.init (Main.gpu_sched (cfg r) root)) (whole r);
  pa_embed : match embed r with
    | Some g => reachable Front.step (Front.init (Main.embed_sched (cfg r) root)) g /\
        Front.ctl g = Front.ctl (Whole.front (whole r))
    | None => Config.InfinityURL (cfg r) = None
    end;
  pa_gates : forall k q, Front.reqs (Whole.front (whole r)) !! k = Some q -> gated r gpu_gate q;
  pa_embed_gates : forall g k q, embed r = Some g -> Front.reqs g !! k = Some q -> gated r embed_gate q;
}.

(** main and the listeners. *)
Record threads (r : running) : Prop := {
  th_len : length (lst r) = length (Main.servers (cfg r));
  th_errs : NoDup (errs r) /\ forall i, i ∈ errs r -> lst r !! i = Some LDone;
  th_new : forall i, lst r !! i = Some LNew -> exists k, at_ r = Listening k /\ (k <= i)%nat;
  th_at : match at_ r with
    | Listening i => (i < length (lst r))%nat /\ forall j l, (i <= j)%nat -> lst r !! j = Some l -> l = LNew
    | Selecting => True
    | Closing i => (i < length (lst r))%nat /\ (forall j, (j < i)%nat -> j ∈ closing r) /\ told r
    | Joining => (forall j, (j < length (lst r))%nat -> j ∈ closing r) /\ told r
    end;
}.

Lemma reached_server p r : reached p r = true -> exists srv, srv ∈ Main.servers (cfg r) /\ p (Main.front srv) = true.
Proof.
  intros (i & _ & [_ H]%andb_true_iff)%existsb_exists. destruct (Main.servers (cfg r) !! i) as [srv|] eqn:E; [|done].
  exists srv. split; [by eapply list_elem_of_lookup_2|done].
Qed.

Lemma told_kept e w g r : told r -> Whole.step e (whole r) = Next w ->
  (forall f, g = Some f -> exists f0, embed r = Some f0 /\ (Park.shutdown (Front.park f0) = true -> Park.shutdown (Front.park f) = true)) ->
  told (set_embed g (set_whole w r)).
Proof.
  intros (Hj & Hf & Hg) Hs He. split; [|split]; cbn.
  - destruct (Whole.jobs_project _ _ _ Hs) as [->|[e' H]]; [done|]. by apply (Worker.step_work _ _ _ H).
  - destruct (Whole.front_projects _ _ _ Hs) as [->|[e' H]]; [done|]. by apply (front_kept _ _ _ H).
  - intros f Hgf. destruct (He f Hgf) as (f0 & H0 & H). by apply H, Hg.
Qed.

Lemma follows_some e g g' f : embed_follows e g = Next g' -> g' = Some f ->
  exists f0, g = Some f0 /\ (f = f0 \/ exists e', Front.step e' f0 = Next f /\ forall k c, e' <> Front.FArrive k c).
Proof.
  intros Hs ->. unfold embed_follows in Hs. destruct g as [f0|]; [|by repeat case_match; simplify_eq].
  exists f0. split; [done|].
  destruct e as [e|e|k|]; [destruct e| | |]; try (injection Hs as <-; by left);
    apply bind_next in Hs as (f1 & Hs & [= <-]); right; eexists; (split; [exact Hs|done]).
Qed.

(** A step of the broker beside main. *)
Lemma parts_whole e w g r : parts r -> Whole.step e (whole r) = Next w -> embed_follows e (embed r) = Next g ->
  (forall k c, e = Whole.BFront (Front.FArrive k c) -> reached (gpu_gate c) r = true) ->
  parts (set_embed g (set_whole w r)).
Proof.
  intros [] Hs Hg Ha. split; try done; cbn.
  - by eapply reach_step.
  - destruct g as [f|].
    + destruct (follows_some _ _ _ f Hg eq_refl) as (f0 & E & Hf). rewrite E in *. destruct pa_embed0 as [Hr Hc]. split.
      * destruct Hf as [->|(e' & He & _)]; [done|]. by eapply reach_step.
      * destruct e as [e|e|k|]; cbn [Whole.step] in Hs.
        -- destruct (Whole.free _ _); [|done]. apply bind_next in Hs as (f1 & Hs & [= <-]). cbn.
           destruct e as [y| | | | | | | | | | | | | | | |].
           1: { cbn [embed_follows Front.step] in Hg, Hs. apply bind_next in Hs as (y1 & Hy & [= <-]). cbn. rewrite Hc, Hy in Hg. cbn in Hg.
                by injection Hg as <-. }
           all: injection Hg as <-; rewrite Hc; symmetry; by apply (front_ctl _ _ _ Hs).
        -- apply Whole.worker_event in Hs as [_ [(_ & _ & -> & _)|(_ & k & _ & _ & _ & Hf')]]; injection Hg as <-; [done|].
           rewrite Hc. symmetry. by apply (front_ctl _ _ _ Hf').
        -- destruct (Worker.pc _), (Whole.call (whole r)); try done. apply bind_next in Hs as (f1 & Hs & [= <-]). injection Hg as <-.
           rewrite Hc. symmetry. by apply (front_ctl _ _ _ Hs).
        -- apply bind_next in Hs as (f1 & Hs & Hs2). apply bind_next in Hs2 as (j & _ & [= <-]). cbn.
           cbn [embed_follows] in Hg. apply bind_next in Hg as (f2 & Hg & [= <-]).
           rewrite (front_ctl _ _ _ Hs eq_refl), (front_ctl _ _ _ Hg eq_refl). done.
    + destruct (embed r) as [f0|] eqn:E; [|done]. exfalso. unfold embed_follows in Hg.
      destruct e as [e|e|k|]; [destruct e| | |]; try done; by apply bind_next in Hg as (? & _ & ?).
  - intros k q Hq. destruct (whole_arrivals _ _ _ Hs k q Hq) as [(q0 & Hq0 & E)|E].
    + unfold gated. cbn. rewrite <- E. by eapply pa_gates0.
    + apply reached_server. rewrite <- (Ha _ _ E). done.
  - intros f k q -> Hq. destruct (follows_some _ _ _ f Hg eq_refl) as (f0 & E & [->|(e' & He & Hn)]); [by eapply pa_embed_gates0|].
    apply front_kept in He as (_ & _ & H). destruct (H k q Hq) as [(q0 & Hq0 & Eq)|Eq]; [|by destruct (Hn _ _ Eq)].
    unfold gated. cbn. rewrite <- Eq. by eapply pa_embed_gates0.
Qed.

Lemma parts_embed e g f r : parts r -> embed r = Some g -> embed_allowed e r = true -> Front.step e g = Next f ->
  parts (set_embed (Some f) r).
Proof.
  intros [] Hg Ha Hs. split; try done; cbn.
  - rewrite Hg in pa_embed0. destruct pa_embed0 as [Hr Hc]. split; [by eapply reach_step|].
    rewrite (front_ctl _ _ _ Hs); [done|]. by destruct e.
  - intros ? k q [= <-] Hq. destruct (front_kept _ _ _ Hs) as (_ & _ & H). destruct (H k q Hq) as [(q0 & Hq0 & E)| ->].
    + unfold gated. cbn. rewrite <- E. by eapply pa_embed_gates0.
    + by apply reached_server.
Qed.

(** main's own fields do not concern the broker beside it. *)
Lemma parts_ext r r' : parts r -> cfg r' = cfg r -> whole r' = whole r -> embed r' = embed r -> parts r'.
Proof. intros [] Ec Ew Ee. split; unfold gated in *; by rewrite ?Ec, ?Ew, ?Ee. Qed.

Lemma told_ext r r' : told r -> whole r' = whole r -> embed r' = embed r -> told r'.
Proof. intros H Ew Ee. unfold told in *. by rewrite Ew, Ee. Qed.

Lemma stop_parts r r' : parts r -> stop r = Next r' -> parts r' /\ told r' /\ at_ r' = Closing 0 /\ lst r' = lst r /\
  errs r' = errs r /\ closing r' = closing r /\ cfg r' = cfg r.
Proof.
  intros Hp Hs. unfold stop in Hs. apply bind_next in Hs as (w & Hw & Hs). apply bind_next in Hs as (g & Hg & [= <-]).
  split; [|split; [|done]].
  - eapply parts_ext; [by eapply parts_whole|done..].
  - assert (Worker.shutdown (Whole.jobs w) = true /\ Park.shutdown (Front.park (Whole.front w)) = true) as [H1 H2].
    { cbn [Whole.step] in Hw. apply bind_next in Hw as (f & Hf & Hw). apply bind_next in Hw as (j & Hj & [= <-]).
      cbn in Hj, Hf. injection Hj as <-. by injection Hf as <-. }
    split; [done|]. split; [done|]. cbn. intros f ->. cbn [embed_follows] in Hg.
    destruct (embed r); [|done]. apply bind_next in Hg as (f1 & Hf & [= <-]). cbn in Hf. by injection Hf as <-.
Qed.

Lemma threads_beside r w g : threads r -> (match at_ r with Closing _ | Joining => told (set_embed g (set_whole w r)) | _ => True end) ->
  threads (set_embed g (set_whole w r)).
Proof.
  intros [] Ht. split; try done; cbn. destruct (at_ r); try done.
  - destruct th_at0 as (? & ? & _). done.
  - by destruct th_at0.
Qed.

Lemma threads_told r : threads r -> match at_ r with Closing _ | Joining => told r | _ => True end.
Proof. intros []. destruct (at_ r); try done; tauto. Qed.

(** A listener that has been started moves on. *)
Lemma threads_listener r i l l' : threads r -> lst r !! i = Some l -> l <> LNew -> l <> LDone -> l' <> LNew ->
  threads (set_listener i l' r).
Proof.
  intros [] Hi Hn Hd Hn'. split; cbn.
  - by rewrite length_insert.
  - destruct th_errs0 as [? H]. split; [done|]. intros j Hj. rewrite list_lookup_insert_ne; [by apply H|].
    intros ->. rewrite (H _ Hj) in Hi. by injection Hi as <-.
  - intros j [(_ & E & _)|[_ H]]%list_lookup_insert_Some; [done|by apply th_new0].
  - destruct (at_ r); rewrite ?length_insert; try done. destruct th_at0 as [? H]. split; [done|].
    intros j x Hj [(<- & E & _)|[_ Hx]]%list_lookup_insert_Some; [|by eapply H]. destruct Hn. by eapply (H i).
Qed.

Lemma threads_stop r r' : threads r -> at_ r = Selecting -> told r' -> at_ r' = Closing 0 -> lst r' = lst r ->
  NoDup (errs r') -> errs r' ⊆ errs r -> cfg r' = cfg r -> threads r'.
Proof.
  intros [] Ha Ht Ha' El Hnd He Ec. split; rewrite ?El, ?Ec, ?Ha'; try done.
  - split; [done|]. intros i Hi. by apply th_errs0, He.
  - intros i Hi. destruct (th_new0 _ Hi) as (k & E & _). congruence.
  - split; [|split; [intros j Hj; lia|done]]. rewrite th_len0. unfold Main.servers. simpl. lia.
Qed.

Lemma go_errs (q : list nat) (l : list listener) i : l !! i = Some LNew -> NoDup q /\ (forall j, j ∈ q -> l !! j = Some LDone) ->
  NoDup q /\ forall j, j ∈ q -> <[i := LServing]> l !! j = Some LDone.
Proof.
  intros Hi [? H]. split; [done|]. intros j Hj. rewrite list_lookup_insert_ne; [by apply H|].
  intros ->. specialize (H _ Hj). congruence.
Qed.

Lemma threads_go r i : threads r -> at_ r = Listening i ->
  threads (set_at (if (S i <? length (lst r))%nat then Listening (S i) else Selecting) (set_listener i LServing r)).
Proof.
  intros [] Ha. rewrite Ha in th_at0. destruct th_at0 as [Hi Hl]. destruct (lookup_lt_is_Some_2 _ _ Hi) as [l Hli].
  pose proof (Hl i l ltac:(lia) Hli) as ->.
  destruct (Nat.ltb_spec (S i) (length (lst r))) as [Hlt|Hge]; split; cbn [set_at set_listener at_ lst errs cfg closing]; try (by rewrite length_insert); try done.
  - by eapply go_errs.
  - intros j [(_ & E & _)|[Hne Hj]]%list_lookup_insert_Some; [done|].
    destruct (th_new0 _ Hj) as (k & E & Hk). rewrite Ha in E. injection E as <-. exists (S i). split; [done|lia].
  - rewrite length_insert. split; [done|].
    intros j x Hj Hx. rewrite list_lookup_insert_ne in Hx by lia. eapply Hl; [|done]. lia.
  - by eapply go_errs.
  - intros j [(_ & E & _)|[Hne Hj]]%list_lookup_insert_Some; [done|].
    destruct (th_new0 _ Hj) as (k & E & Hk). rewrite Ha in E. injection E as <-. apply lookup_lt_Some in Hj. lia.
Qed.

Lemma threads_shutdown r i : threads r -> at_ r = Closing i ->
  threads (set_at (if (S i <? length (lst r))%nat then Closing (S i) else Joining) (set_closing i r)).
Proof.
  intros [] Ha. rewrite Ha in th_at0. destruct th_at0 as (Hi & Hc & Ht).
  assert (forall j, (j < S i)%nat -> j ∈ {[i]} ∪ closing r) as Hc'.
  { intros j Hj. apply elem_of_union. destruct (decide (j = i)) as [->|]; [left; by apply elem_of_singleton|]. right. apply Hc. lia. }
  assert (forall j, lst r !! j = Some LNew -> False) as Hn.
  { intros j Hj. destruct (th_new0 _ Hj) as (k & E & _). congruence. }
  destruct (Nat.ltb_spec (S i) (length (lst r))); (split; cbn; [done|done|intros j Hj; by destruct (Hn j Hj)|]).
  - done.
  - split; [|done]. intros j Hj. apply Hc'. lia.
Qed.

Lemma threads_send r i : threads r -> lst r !! i = Some LFailed -> threads (set_errs (errs r ++ [i]) (set_listener i LDone r)).
Proof.
  intros Ht Hi. pose proof (threads_listener r i LFailed LDone Ht Hi) as []; [done..|]. split; try done. cbn in *.
  destruct th_errs0 as [Hnd H]. split.
  - apply NoDup_app. split; [done|]. split; [|apply NoDup_singleton]. intros j Hj ->%list_elem_of_singleton.
    pose proof (proj2 (th_errs _ Ht) _ Hj). congruence.
  - intros j [Hj|Hj]%elem_of_app; [by apply H|]. apply list_elem_of_singleton in Hj as ->.
    apply list_lookup_insert_eq. by eapply lookup_lt_Some.
Qed.

Definition phase_inv (p : phase) : Prop :=
  match p with
  | Boot => True
  | Detecting c f | Opening c f => booted c f
  | Recovering c f t => booted c f /\ exists m cs, t = JobStore.run m cs []
  | Starting c f svc => booted c f /\ exists m cs now,
      svc = JobService.Recover now (JobService.NewService (JobStore.run m cs []) (Config.JobMaxAttempts c))
  | Up r => parts r /\ threads r
  | Exited code None => code = 1
  | Exited code (Some r) => code = 0 /\ parts r /\ threads r /\ at_ r = Joining /\ forallb gone (lst r) = true
  end.

Lemma assemble_inv c f m cs now : booted c f ->
  let r := assemble c f (JobService.Recover now (JobService.NewService (JobStore.run m cs []) (Config.JobMaxAttempts c))) in
  parts r /\ threads r.
Proof.
  intros [Hv Hw He Hi]. split.
  - split; try done; cbn.
    + apply Hw. by exists cs, m, (Config.JobMaxAttempts c), (Config.BatchQuantum c), 0, now.
    + by destruct (Config.InfinityURL c) eqn:E.
    + intros k q Hq. by rewrite Hi in Hq.
    + intros g k q Hg Hq. destruct (Config.InfinityURL c); [|done]. injection Hg as <-. done.
  - split; cbn [assemble lst errs at_ cfg].
    + by rewrite length_replicate.
    + split; [constructor|]. intros i Hin. by apply elem_of_nil in Hin.
    + intros i _. exists 0%nat. split; [done|lia].
    + rewrite length_replicate. split; [unfold Main.servers; simpl; lia|]. intros j l _ Hl. by apply lookup_replicate in Hl as [-> _].
Qed.

Lemma up_step_inv e r p : parts r -> threads r -> up_step e r = Next p -> phase_inv p.
Proof.
  intros Hp Ht Hs. destruct e as [| | | | | | |e|e|i|i|i| | |tm|]; cbn [up_step] in Hs; try done.
  - destruct (at_ r) as [i| | |] eqn:Ha; try done. injection Hs as <-. split; [by eapply parts_ext|by apply threads_go].
  - destruct (allowed e r) eqn:Hal; [|done]. apply bind_next in Hs as (w & Hw & Hs). apply bind_next in Hs as (g & Hg & [= <-]).
    split; [eapply parts_whole; [done..|]; by intros k c ->|].
    apply threads_beside; [done|]. pose proof (threads_told _ Ht). destruct (at_ r); try done;
      (eapply told_kept; [done..|]; intros f Hf; destruct (follows_some _ _ _ f Hg Hf) as (f0 & E & [->|(e' & He & _)]);
       exists f0; (split; [done|]); [done|apply (front_kept _ _ _ He)]).
  - destruct (embed r) as [g|] eqn:Hg; [|done]. destruct (embed_allowed e r) eqn:Hal; [|done].
    apply bind_next in Hs as (f & Hf & [= <-]). split; [by eapply parts_embed|].
    assert (set_embed (Some f) r = set_embed (Some f) (set_whole (whole r) r)) as -> by (by destruct r).
    apply threads_beside; [done|]. pose proof (threads_told _ Ht) as Htold. destruct (at_ r); try done;
      (destruct Htold as (H1 & H2 & H3); split; [done|split; [done|]]; cbn; intros f' [= <-];
       apply (front_kept _ _ _ Hf), H3, Hg).
  - destruct (lst r !! i) as [[]|] eqn:Hi; try done. injection Hs as <-.
    split; [by eapply parts_ext|by eapply threads_listener].
  - destruct (lst r !! i) as [[]|] eqn:Hi; try done. case_decide; [|done]. injection Hs as <-.
    split; [by eapply parts_ext|by eapply threads_listener].
  - destruct (lst r !! i) as [[]|] eqn:Hi; try done. destruct (_ <? _)%nat; [|done]. injection Hs as <-.
    split; [by eapply parts_ext|by apply threads_send].
  - destruct (at_ r) eqn:Ha; try done. apply bind_next in Hs as (r' & Hs & [= <-]).
    destruct (stop_parts _ _ Hp Hs) as (Hp' & Htold & Ha' & El & Ee & _ & Ec). split; [done|].
    eapply threads_stop; [exact Ht|done..|rewrite Ee; apply Ht|by rewrite Ee|done].
  - destruct (at_ r) eqn:Ha; try done. destruct (errs r) as [|i q] eqn:Hq; try done.
    apply bind_next in Hs as (r' & Hs & [= <-]).
    destruct (stop_parts (set_errs q r) _ ltac:(by eapply parts_ext) Hs) as (Hp' & Htold & Ha' & El & Ee & _ & Ec). split; [done|].
    pose proof (th_errs _ Ht) as [Hnd _]. rewrite Hq in Hnd. cbn in Ee, El, Ec. apply NoDup_cons in Hnd as [_ Hnd].
    eapply threads_stop; [exact Ht|done..|by rewrite Ee|rewrite Ee, Hq; by apply list_subseteq_cons|done].
  - destruct (at_ r) eqn:Ha; try done. injection Hs as <-. split; [by eapply parts_ext|by apply threads_shutdown].
  - destruct (at_ r) eqn:Ha; try done. destruct (forallb _ (lst r)) eqn:Hl; [|done]. injection Hs as <-.
    cbn. do 4 (split; [done|]). exact Hl.
Qed.

Lemma step_inv e p p' : phase_inv p -> step e p = Next p' -> phase_inv p'.
Proof.
  intros Hi Hs. destruct p as [|c f|c f|c f t|c f svc|r|code left]; cbn [step] in Hs.
  - destruct e; try done. destruct (Config.Load _ _ _) as [c|] eqn:Hl; [|by injection Hs as <-].
    apply Config.Load_spec in Hl as [Hv _].
    destruct (Broker.New 0 c) as [be|] eqn:Hn; [|by injection Hs as <-].
    apply bind_next in Hs as (b & Hb & Hs). destruct b as [bd|]; injection Hs as <-; [|done]. by eapply booted_new.
  - destruct e; try done.
    + destruct (early e) eqn:He; [|done]. apply bind_next in Hs as (f' & Hf & [= <-]). by eapply booted_early.
    + destruct (Main.tdarr_client c); [|by injection Hs as <-]. apply bind_next in Hs as (f' & Hf & [= <-]). by eapply booted_yield.
  - destruct e; try done.
    + destruct (early e) eqn:He; [|done]. apply bind_next in Hs as (f' & Hf & [= <-]). by eapply booted_early.
    + destruct db as [[m cs]|]; injection Hs as <-; [|done]. split; [done|]. by exists m, cs.
  - destruct Hi as [Hi Ht]. destruct e; try done.
    + destruct (early e) eqn:He; [|done]. apply bind_next in Hs as (f' & Hf & [= <-]). split; [by eapply booted_early|done].
    + destruct fault; injection Hs as <-; [done|]. split; [done|]. destruct Ht as (m & cs & ->). by exists m, cs, now.
  - destruct Hi as [Hi Ht]. destruct e; try done.
    + destruct (early e) eqn:He; [|done]. apply bind_next in Hs as (f' & Hf & [= <-]). split; [by eapply booted_early|done].
    + injection Hs as <-. destruct Ht as (m & cs & now & ->). by apply assemble_inv.
  - destruct Hi. by eapply up_step_inv.
  - done.
Qed.

Lemma reachable_phase p : reachable step init p -> phase_inv p.
Proof. apply reachable_inv; [by intros ? ->|intros; by eapply step_inv]. Qed.

(** ** Coming to the exit *)

(** The steps of main and its listeners once the root context is done. *)
Definition own (e : event) : bool :=
  match e with LFail _ | LClosed _ | LSend _ | LShutdown _ | LJoin => true | _ => false end.

Definition weight (l : listener) : nat := match l with LNew | LServing => 2 | LFailed => 1 | LDone => 0 end.

Definition remaining (p : phase) : nat :=
  match p with
  | Up r => sum_list_with weight (lst r) + match at_ r with Closing i => S (length (lst r) - i) | _ => 1 end
  | _ => 0
  end.

Definition closing_down (p : phase) : Prop :=
  match p with
  | Up r => match at_ r with Closing _ | Joining => True | _ => False end
  | Exited _ _ => True
  | _ => False
  end.

Lemma weight_insert l i x y : l !! i = Some x -> (weight y < weight x)%nat ->
  (sum_list_with weight (<[i := y]> l) < sum_list_with weight l)%nat.
Proof.
  revert i. induction l as [|z l IH]; intros [|i] Hi Hw; simplify_eq/=; [lia|]. specialize (IH _ Hi Hw). lia.
Qed.

Lemma remaining_step e p p' : phase_inv p -> closing_down p -> step e p = Next p' ->
  closing_down p' /\ (remaining p' + Nat.b2n (own e) <= remaining p)%nat.
Proof.
  intros Hi Hc Hs. destruct p as [|c f|c f|c f t|c f svc|r|code left]; try done. destruct Hi as [_ Ht]. cbn [step] in Hs.
  cbn [closing_down] in Hc.
  destruct e as [| | | | | | |e|e|i|i|i| | |tm|]; cbn [up_step] in Hs; try done.
  - by destruct (at_ r).
  - destruct (allowed e r); [|done]. apply bind_next in Hs as (w & _ & Hs). apply bind_next in Hs as (g & _ & [= <-]).
    split; [done|]. cbn. lia.
  - destruct (embed r); [|done]. destruct (embed_allowed e r); [|done]. apply bind_next in Hs as (f & _ & [= <-]).
    split; [done|]. cbn. lia.
  - destruct (lst r !! i) as [[]|] eqn:Hl; try done. injection Hs as <-. split; [done|].
    pose proof (weight_insert _ _ _ LFailed Hl ltac:(cbn; lia)). cbn. rewrite length_insert. lia.
  - destruct (lst r !! i) as [[]|] eqn:Hl; try done. case_decide; [|done]. injection Hs as <-. split; [done|].
    pose proof (weight_insert _ _ _ LDone Hl ltac:(cbn; lia)). cbn. rewrite length_insert. lia.
  - destruct (lst r !! i) as [[]|] eqn:Hl; try done. destruct (_ <? _)%nat; [|done]. injection Hs as <-. split; [done|].
    pose proof (weight_insert _ _ _ LDone Hl ltac:(cbn; lia)). cbn. rewrite length_insert. lia.
  - by destruct (at_ r).
  - by destruct (at_ r).
  - pose proof (th_at _ Ht) as Hat. destruct (at_ r) as [| |i|] eqn:Ha; try done. destruct Hat as [Hlt _]. injection Hs as <-.
    destruct (Nat.ltb_spec (S i) (length (lst r))); (split; [done|]); cbn [remaining own set_at at_ lst set_closing Nat.b2n]; rewrite Ha; lia.
  - destruct (at_ r) eqn:Ha; try done. destruct (forallb _ _); [|done]. injection Hs as <-. split; [done|].
    cbn [remaining own Nat.b2n]. rewrite Ha. lia.
Qed.

Lemma run_remaining es p p' : phase_inv p -> closing_down p -> run_events step es p = Next p' ->
  (length (filter (fun e => own e = true) es) + remaining p' <= remaining p)%nat.
Proof.
  revert p. induction es as [|e es IH]; intros p Hi Hc Hr; simpl in Hr; [injection Hr as <-; simpl; lia|].
  destruct (step e p) as [| |p1] eqn:Hs; try done. destruct (remaining_step _ _ _ Hi Hc Hs) as [Hc1 Hw].
  specialize (IH _ (step_inv _ _ _ Hi Hs) Hc1 Hr). rewrite filter_cons.
  case_decide as Ho; [|apply not_true_is_false in Ho]; rewrite Ho in Hw; cbn [Nat.b2n] in Hw; cbn [length]; lia.
Qed.

(** The buffer of [errCh] has room for every listener. *)
Lemma send_enabled r i : threads r -> lst r !! i = Some LFailed ->
  (length (errs r) <? length (Main.servers (cfg r)))%nat = true.
Proof.
  intros [] Hi. apply Nat.ltb_lt. rewrite <- th_len0. destruct th_errs0 as [Hnd H].
  assert (NoDup (i :: errs r)) as Hn by (apply NoDup_cons; split; [intros Hin; specialize (H _ Hin); congruence|done]).
  assert (i :: errs r ⊆ seq 0 (length (lst r))) as Hs.
  { intros j [->|Hj]%elem_of_cons; apply elem_of_seq; (split; [lia|]); simpl.
    - by eapply lookup_lt_Some.
    - by eapply lookup_lt_Some, H. }
  pose proof (submseteq_length _ _ (NoDup_submseteq _ _ Hn Hs)) as Hl. rewrite length_seq in Hl. simpl in Hl. lia.
Qed.

Lemma not_all_gone l : forallb gone l = false -> exists i x, l !! i = Some x /\ x <> LDone.
Proof.
  induction l as [|x l IH]; simpl; [done|]. intros [Hx|Hl]%andb_false_iff; [exists 0%nat, x; split; [done|by intros ->]|].
  destruct (IH Hl) as (i & y & Hy & Hn). by exists (S i), y.
Qed.

Lemma exits n : forall p, phase_inv p -> closing_down p -> (remaining p <= n)%nat ->
  exists es p', Forall (fun e => own e = true) es /\ run_events step es p = Next p' /\ exists code left, p' = Exited code left.
Proof.
  induction n as [n IH] using lt_wf_ind. intros p Hi Hc Hn.
  assert (forall e p1, step e p = Next p1 -> own e = true -> exists es p', Forall (fun e => own e = true) es /\
    run_events step es p = Next p' /\ exists code left, p' = Exited code left) as Hstep.
  { intros e p1 Hs Ho. destruct (remaining_step _ _ _ Hi Hc Hs) as [Hc1 Hw]. rewrite Ho in Hw. cbn in Hw.
    destruct (IH (remaining p1) ltac:(lia) p1 (step_inv _ _ _ Hi Hs) Hc1 ltac:(done)) as (es & p' & Hf & Hr & He).
    exists (e :: es), p'. cbn [run_events]. rewrite Hs. split; [by constructor|done]. }
  destruct p as [|c f|c f|c f t|c f svc|r|code left]; try done.
  2: { exists [], (Exited code left). split; [constructor|]. split; [done|eauto]. }
  destruct Hi as [_ Ht]. cbn in Hc. destruct (at_ r) as [| |i|] eqn:Ha; try done.
  - eapply (Hstep (LShutdown false)); [cbn [step up_step]; rewrite Ha; reflexivity|done].
  - destruct (forallb gone (lst r)) eqn:Hg; [eapply (Hstep LJoin); [cbn [step up_step]; rewrite Ha, Hg; reflexivity|done]|].
    destruct (not_all_gone _ Hg) as (i & x & Hx & Hnx). destruct x; [| | |done].
    + destruct (th_new _ Ht _ Hx) as (k & E & _). congruence.
    + eapply (Hstep (LClosed i)); [|done]. cbn [step up_step]. rewrite Hx, decide_True; [reflexivity|].
      pose proof (th_at _ Ht) as H. rewrite Ha in H. apply H. by eapply lookup_lt_Some.
    + eapply (Hstep (LSend i)); [|done]. cbn [step up_step]. rewrite Hx, (send_enabled _ _ Ht Hx). reflexivity.
Qed.

(** The table of jobs. *)
Definition job_table (r : running) : JobStore.table := JobService.tbl (Worker.svc (Whole.jobs (whole r))).

Lemma own_table e r p' : own e = true -> step e (Up r) = Next p' ->
  exists r', (p' = Up r' \/ p' = Exited 0 (Some r')) /\ job_table r' = job_table r.
Proof.
  intros Ho Hs. cbn [step] in Hs. destruct e; try done; cbn [up_step] in Hs;
    repeat (case_match; try done); injection Hs as <-; eexists; (split; [by (left + right)|done]).
Qed.

Lemma run_own_table es r p' : Forall (fun e => own e = true) es -> run_events step es (Up r) = Next p' ->
  exists r', (p' = Up r' \/ p' = Exited 0 (Some r')) /\ job_table r' = job_table r.
Proof.
  revert r. induction es as [|e es IH]; intros r Hf Hr; cbn [run_events] in Hr; [injection Hr as <-; eauto|].
  apply Forall_cons in Hf as [Ho Hf]. destruct (step e (Up r)) as [| |p1] eqn:Hs; try done.
  destruct (own_table _ _ _ Ho Hs) as (r1 & [->| ->] & E).
  - destruct (IH r1 Hf Hr) as (r' & Hp & E'). exists r'. split; [done|congruence].
  - destruct es as [|e2 es]; cbn [run_events] in Hr; [injection Hr as <-; eauto|done].
Qed.

Lemma exits_with_table r : phase_inv (Up r) -> closing_down (Up r) ->
  exists es r', Forall (fun e => own e = true) es /\ run_events step es (Up r) = Next (Exited 0 (Some r')) /\
    job_table r' = job_table r.
Proof.
  intros Hi Hc. destruct (exits _ _ Hi Hc (le_n _)) as (es & p' & Hf & Hr & code & left & ->).
  destruct (run_own_table _ _ _ Hf Hr) as (r' & [[=]|[= -> ->]] & E). by exists es, r'.
Qed.

(** main can always leave its [select]. *)
Lemma can_stop r : phase_inv (Up r) -> exists r', stop r = Next r' /\ job_table r' = job_table r.
Proof.
  intros _. unfold stop. cbn [Whole.step Front.step Park.step mbind outcome_bind Worker.step embed_follows].
  destruct (embed r); cbn [Front.step Park.step mbind outcome_bind]; by eexists.
Qed.

(** ** Properties *)

(** C3: what main builds is what the theorems are about: in every state of the
    process past its start, and in the one it leaves behind, the configuration is
    valid, the GPU's lanes and the job worker are in a reachable state of the
    whole broker, the embed lane, there exactly when it is configured, in one of
    the admission path on a scheduler of its own, both on the same yield
    controller; every request has the gate main put in front of a lane; and the
    upstream calls of either lane stay within its limit. *)
Theorem broker_runs p r : reachable step init p -> p = Up r \/ (exists code, p = Exited code (Some r)) ->
  Config.valid (cfg r) /\
  reachable Whole.step (Whole.init (Main.gpu_sched (cfg r) root)) (whole r) /\
  match embed r with
  | Some g => reachable Front.step (Front.init (Main.embed_sched (cfg r) root)) g /\
      Front.ctl g = Front.ctl (Whole.front (whole r)) /\
      Z.of_nat (count_map Front.serving (Front.reqs g)) <= 1 /\
      map_Forall (fun _ q => gated r embed_gate q) (Front.reqs g)
  | None => Config.InfinityURL (cfg r) = None
  end /\
  Z.of_nat (count_map Front.serving (Front.reqs (Whole.front (whole r))) + Nat.b2n (Worker.slot (Whole.jobs (whole r)))) <=
    Config.MaxInflight (cfg r) /\
  map_Forall (fun _ q => gated r gpu_gate q) (Front.reqs (Whole.front (whole r))).
Proof.
  intros Hr Hp. assert (parts r) as [Hv Hw He Hg Heg].
  { pose proof (reachable_phase _ Hr) as H. destruct Hp as [->|[code ->]]; [apply H|by destruct H as (_ & ? & _)]. }
  split; [done|]. split; [done|]. split; [|split; [|exact Hg]].
  - destruct (embed r) as [g|]; [|done]. destruct He as [He Hc]. split; [done|]. split; [done|]. split; [|by intros k q; apply Heg].
    destruct (Front.lane_ready (cfg r) root _ 1 Hv (Front.lane_embed _ _)) as [Hx Hn]. rewrite <- Hn.
    eapply Front.serving_bounded, Front.reachable_front_inv; done.
  - pose proof (Whole.gpu_inv _ _ _ Hv Hw) as Hi.
    rewrite <- (Whole.gpu_limit _ root Hv), (Worker.inv_slot _ (Whole.wi_jobs _ _ Hi)). by apply Whole.in_flight_bounded.
Qed.

(** C17: the process ends: a listener that fails can always hand its error over;
    once main has left its [select], for a signal or for such an error, no run
    contains more than thirteen steps of main and its listeners, and from any
    such state they can come to the exit by their own steps; and it exits with
    every server shut down, every listener gone, and the worker and the park
    queues of both lanes told to stop. *)
Theorem main_exits p : reachable step init p ->
  (forall r i, p = Up r -> lst r !! i = Some LFailed -> is_next (step (LSend i) p) = true) /\
  (closing_down p ->
     (forall es p', run_events step es p = Next p' -> (length (filter (fun e => own e = true) es) <= 13)%nat) /\
     exists es p' code left, Forall (fun e => own e = true) es /\ run_events step es p = Next p' /\ p' = Exited code left) /\
  (forall code r, p = Exited code (Some r) -> code = 0 /\ told r /\
     (forall i srv, Main.servers (cfg r) !! i = Some srv -> i ∈ closing r) /\ forallb gone (lst r) = true).
Proof.
  intros Hr. pose proof (reachable_phase _ Hr) as Hi. split; [|split].
  - intros r i -> Hl. destruct Hi as [_ Ht]. cbn [step up_step]. by rewrite Hl, (send_enabled _ _ Ht Hl).
  - intros Hc. split.
    + intros es p' He. pose proof (run_remaining _ _ _ Hi Hc He) as Hn.
      enough (remaining p <= 13)%nat by lia. destruct p as [| | | | |r|]; try (cbn; lia). destruct Hi as [_ Ht].
      pose proof (th_len _ Ht) as Hl. assert (length (lst r) <= 4)%nat as H4.
      { rewrite Hl. unfold Main.servers. rewrite length_app. destruct (Config.InfinityURL (cfg r)); simpl; lia. }
      assert (forall l, (sum_list_with weight l <= 2 * length l)%nat) as Hw by (intros l; induction l as [|[] l IH]; simpl in *; lia).
      specialize (Hw (lst r)). cbn [remaining]. destruct (at_ r); lia.
    + destruct (exits _ p Hi Hc (le_n _)) as (es & p' & Hf & He & code & left & E). by exists es, p', code, left.
  - intros code r ->. destruct Hi as (-> & _ & Ht & Ha & Hl). pose proof (th_at _ Ht) as H. rewrite Ha in H. destruct H as [Hc Htold].
    split; [done|]. split; [done|]. split; [|done]. intros i srv Hs. apply Hc. rewrite (th_len _ Ht). by eapply lookup_lt_Some.
Qed.

(** C36: what an exit costs a running job: main never waits for the worker. From
    its [select], or from any point of the way down, the signal and main's own
    steps lead to the exit with the job table as it stands, so that a job that is
    RUNNING stays so, although the worker was told and would put it back for free;
    and whatever table an exited broker leaves, the next start charges exactly the
    jobs it finds RUNNING one attempt each, failing those without one left and
    putting the others back in line, and leaves every other row alone. *)
Theorem exit_charges p r : reachable step init p ->
  (p = Up r -> at_ r = Selecting \/ closing_down p ->
     exists es r', Forall (fun e => own e = true \/ e = LSignal) es /\
       run_events step es p = Next (Exited 0 (Some r')) /\ job_table r' = job_table r) /\
  (p = Exited 0 (Some r) -> forall j m now, j ∈ job_table r ->
     let next := JobService.NewService (job_table r) m in
     exists j', JobStore.find_job (JobStore.ID j) (JobService.tbl (JobService.Recover now next)) = Some j' /\
       if JobStore.is_state JobStore.StateRunning j then JobStore.recovered (JobService.maxAttempts next) now j j' else j' = j).
Proof.
  intros Hr. pose proof (reachable_phase _ Hr) as Hi. split.
  - intros -> [Ha|Hc].
    + destruct (can_stop _ Hi) as (r1 & Hs & Ht). destruct (stop_parts _ _ (proj1 Hi) Hs) as (_ & _ & Ha1 & _).
      assert (step LSignal (Up r) = Next (Up r1)) as Hstep by (cbn [step up_step]; by rewrite Ha, Hs).
      destruct (exits_with_table r1) as (es & r' & Hf & He & E); [by eapply step_inv, Hstep|cbn; by rewrite Ha1|].
      exists (LSignal :: es), r'. cbn [run_events]. rewrite Hstep. split; [|split; [done|congruence]].
      constructor; [by right|]. eapply Forall_impl; [exact Hf|]. by left.
    + destruct (exits_with_table r Hi Hc) as (es & r' & Hf & He & E). exists es, r'. split; [|done].
      eapply Forall_impl; [exact Hf|]. by left.
  - intros -> j m now Hj next. apply JobStore.recover_row; [|done]. destruct Hi as (_ & [Hv Hw] & _).
    apply (Worker.inv_wf _ (Whole.wi_jobs _ _ (Whole.gpu_inv _ _ _ Hv Hw))).
Qed.

End main.

(** ** Limits and witnesses *)

Definition demo_env (k : string) : option string :=
  if String.eqb k "INFINITY_URL" then Some "http://127.0.0.1:7997" else None.

Definition demo_step : event -> phase -> outcome phase := step Config.demo_parse (fun _ => None) 0.

(** The broker comes up and a job is submitted and runs. *)
Definition to_running : list event :=
  [LBuild demo_env 0; LTdarr; LOpen (Some (3, [])); LRecover false 0; LWorker; LGo; LGo; LGo; LGo]
  ++ map LWhole (map Whole.BWorker [Worker.ESubmit 0 false (Worker.demo_sub "a") 1; Worker.ETop; Worker.EYield false; Worker.EPeek false]
       ++ Whole.BAsk 0 :: map Whole.BWorker [Worker.EAcquired true; Worker.ERecheck false; Worker.EClaim false 2;
            Worker.EStartRun 3; Worker.EBind 3]).

(** A signal comes, and main goes home. *)
Definition to_exit : list event :=
  LSignal :: replicate 4 (LShutdown false) ++ [LClosed 0; LClosed 1; LClosed 2; LClosed 3; LJoin].

Definition demo_up : phase := final demo_step to_running Boot.
Definition demo_exited : phase := final demo_step (to_running ++ to_exit) Boot.

Definition left_behind (p : phase) : option running := match p with Up r | Exited _ (Some r) => Some r | _ => None end.

Definition demo_running : running :=
  default (assemble 0 Config.demo_cfg Front.front_start (JobService.NewService [] 0)) (left_behind demo_up).

(** The job that was running is still marked so when main has gone, and pays at the
    next start. *)
Definition demo_job (r : running) : JobStore.Job := default JobStore.demo_a (JobStore.find_job "a" (job_table r)).

Definition demo_left : running := default demo_running (left_behind demo_exited).

Lemma demo_up_reachable : reachable demo_step init demo_up.
Proof. apply final_reachable. by apply reach_init. Qed.

Lemma demo_up_selecting : demo_up = Up demo_running /\ at_ demo_running = Selecting.
Proof. vm_compute. done. Qed.

Lemma demo_exited_is : demo_exited = Exited 0 (Some demo_left) /\ bool_decide (demo_job demo_left ∈ job_table demo_left) = true /\
  JobStore.is_state JobStore.StateRunning (demo_job demo_left) = true /\ JobStore.ID (demo_job demo_left) = "a" /\
  JobStore.Attempts (demo_job demo_left) = 0.
Proof. vm_compute. done. Qed.

Lemma recovered_first t now j j' : JobStore.Attempts j = 0 ->
  JobStore.recovered (JobService.maxAttempts (JobService.NewService t 3)) now j j' -> JobStore.Attempts j' = 1.
Proof. intros Ha. unfold JobStore.recovered. cbn [JobService.maxAttempts JobService.NewService]. rewrite Ha. by intros [h ->]. Qed.

Lemma demo_exited_reachable : reachable demo_step init demo_exited.
Proof. apply final_reachable. by apply reach_init. Qed.

Lemma exit_charges_witness :
  (exists es r', run_events demo_step es demo_up = Next (Exited 0 (Some r')) /\ job_table r' = job_table demo_running) /\
  exists j', JobStore.find_job (JobStore.ID (demo_job demo_left))
      (JobService.tbl (JobService.Recover 9 (JobService.NewService (job_table demo_left) 3))) = Some j' /\
    JobStore.Attempts j' = 1.
Proof.
  destruct demo_exited_is as (He & Hin & Hrun & _ & Ha). split.
  - destruct demo_up_selecting as [Hu Hs].
    pose proof (exit_charges Config.demo_parse (fun _ => None) 0 demo_up demo_running demo_up_reachable) as [H _].
    specialize (H Hu (or_introl Hs)) as (es & r' & _ & Hr & E). exists es, r'. exact (conj Hr E).
  - pose proof (exit_charges Config.demo_parse (fun _ => None) 0 demo_exited demo_left demo_exited_reachable) as [_ H].
    specialize (H He (demo_job demo_left) 3 9 (proj1 (bool_decide_eq_true _) Hin)) as (j' & Hf & Hj').
    rewrite Hrun in Hj'. exists j'. exact (conj Hf (recovered_first _ _ _ _ Ha Hj')).
Defined.

(** The GPU manager is registered after the poll loop has started: a contention
    that the first poll confirms is not passed on to Tdarr. *)
Definition eager_env (k : string) : option string :=
  if String.eqb k "BROKER_TDARR_URL" then Some "http://tdarr"
  else if String.eqb k "BROKER_TDARR_NODE_ID" then Some "node"
  else if String.eqb k "BROKER_YIELD_CONFIRM_POLLS" then Some "1"
  else None.

Example startup_can_miss_pause :
  match run_events demo_step [LBuild eager_env 0; LFront (Front.FYield (Yield.ERefresh "game" true 1)); LTdarr] Boot with
  | Next (Opening _ f) =>
      let c := Yield.ctl (Front.ctl f) in
      (Yield.Yielding c).1 = true /\ Yield.hasGpuMgr c = true /\ Yield.gpu_calls c = []
  | _ => False
  end.
Proof. vm_compute. done. Qed.

Lemma demo_up_is : demo_up = Up demo_running.
Proof. vm_compute. reflexivity. Qed.

Lemma broker_runs_witness :
  Z.of_nat (count_map Front.serving (Front.reqs (Whole.front (whole demo_running))) +
    Nat.b2n (Worker.slot (Whole.jobs (whole demo_running)))) <= Config.MaxInflight (cfg demo_running).
Proof.
  pose proof (broker_runs Config.demo_parse (fun _ => None) 0 demo_up demo_running demo_up_reachable (or_introl demo_up_is))
    as (_ & _ & _ & H & _). exact H.
Defined.

Definition demo_closing : phase := final demo_step (to_running ++ [LFail 1; LSend 1; LTakeErr; LShutdown false]) Boot.

Lemma demo_closing_down : closing_down demo_closing.
Proof. vm_compute. exact I. Qed.

Lemma demo_closing_reachable : reachable demo_step init demo_closing.
Proof. apply final_reachable. by apply reach_init. Qed.

Lemma main_exits_witness :
  exists es p' code left, Forall (fun e => own e = true) es /\ run_events demo_step es demo_closing = Next p' /\ p' = Exited code left.
Proof.
  pose proof (main_exits Config.demo_parse (fun _ => None) 0 demo_closing demo_closing_reachable) as (_ & H & _).
  exact (proj2 (H demo_closing_down)).
Defined.

End Life.
